(* ===== verification/_CoqProject ===== *)
-Q . S2P
Prelude.v
GoStrings.v
Utf8.v
Json.v
GoTime.v
GoFloat.v
Named.v
Http.v
BreakerTypes.v
LimiterStore.v
InterceptStore.v
Lease.v
BreakerManager.v
BreakerRuns.v
FaultInjection.v
Selector.v
Sharding.v
ShardingReconcile.v
ShardServer.v
ManagerState.v
ShardRegistry.v
SpecManager.v
ShardRound.v
LeaderElection.v
ProxyClient.v
ClientRuns.v
Rollout.v
PodInjector.v
Utilities.v
WebhookServer.v
Labels.v
LabelTask.v
Route.v
ReverseProxy.v
ApiProxy.v
ShardingValidation.v
FileSystem.v
AtomicWriter.v
AtomicWrites.v
CertWriter.v
CertSync.v
Conv.v
ConfigController.v
ConfigKinds.v
