(* ===== verification/Prelude.v ===== *)
(** * controller-mesh: a verification development

    Controller-mesh puts a proxy next to every Kubernetes operator.  The proxy
    restricts what the operator sees to a shard of the objects, limits and
    breaks its requests, and injects faults; a manager computes the shards and
    the configurations and sends them to the proxies.  This library models the
    decision-making code of both sides and proves what it relies on and what
    it promises.  Names of definitions are the source's names; every file says
    which source files it models.

    ** Parts, and where they are modelled

    The proxy.
    - [BreakerTypes], [LimiterStore], [InterceptStore], [Lease],
      [BreakerManager], [BreakerRuns]: src/pkg/proxy/circuitbreaker.  A manager
      ([BreakerManager.manager]) holds the configurations by name, a store of
      rate limiters indexed by resource and URL, a store of traffic intercept
      rules, and a lease that closes breakers again.  The objects the Go code
      shares by pointer, limiters and breaker states, live in a memory
      ([BreakerTypes.mem]) and are shared by address.  [Sync] changes the
      configurations, [ValidateRest] and [ValidateResource] decide requests,
      [processItem] is one turn of the lease's loop, [withBreaker] the HTTP
      filter.
    - [FaultInjection]: src/pkg/proxy/faultinjection, its store, manager,
      injector and HTTP filter.
    - [SpecManager]: src/pkg/proxy/proto, the specification of the proxy's
      shard: stored in two files, loaded once, reported by two hashes.
    - [ProxyClient], [ClientRuns]: src/pkg/proxy/proto/grpc.go, the client that
      connects to the manager: its goroutines, the lock, the timers and the
      channel of triggers they share, as a step relation split into what the
      process does by itself ([ProxyClient.istep]), what comes from outside
      ([ProxyClient.estep]) and two kinds of mishap; its runs.
    - [Route]: the label selector of the specification and its injection into
      list and watch requests (src/pkg/apis/ctrlmesh/conv/convert.go,
      src/pkg/proxy/apiserver/injector.go and request.go,
      src/pkg/utils/http/request.go).
    - [LeaderElection]: src/pkg/proxy/leaderelection, the handler that gives
      the lock requests of an operator the name of its shard.
    - [ReverseProxy]: src/pkg/utils/http/reverse_proxy.go, the request and
      response headers, the copy of bodies and the latency writer.
    - [ApiProxy]: src/pkg/proxy/apiserver/handler.go, src/pkg/proxy/filters and
      src/pkg/proxy/http, which compose the parts above: a request passes the
      panic recovery, the request information, the fault injector and the
      breaker, then the leader election or the injector, then the reverse
      proxy.

    The manager.
    - [Selector]: label selectors (src/pkg/utils/selector.go).
    - [Sharding], [ShardingReconcile]: auto_sharding.go, the generation of the
      shards of a root configuration and the reconciler that keeps them.
    - [ShardServer], [ShardRegistry]: shardingconfig_controller.go,
      grpc_server.go and event_handler.go: one round of the reconciler over the
      pods of a shard; and the shared maps of connections and expectations
      under the interleaving of streams, rounds and pod events, as a step
      relation ([ShardRegistry.rstep]).
    - [ShardRound]: the rest of that reconciler, which composes the parts above
      from the fetched configuration on, and two of its rounds together with
      the proxies of [SpecManager].
    - [Conv]: the custom resources and their conversion to messages
      (src/pkg/apis/ctrlmesh/utils/conv).
    - [ConfigController], [ConfigKinds]: the controllers of circuit breakers
      and fault injections (src/pkg/manager/controllers/circuitbreaker and
      faultinjection), one model over the class [ConfigController.Kind] of what
      they differ in.  The class [ConfigController.RemoteLaws] is the contract
      of a proxy; [ConfigKinds] proves it of the managers of [BreakerManager]
      and [FaultInjection] ([breaker_laws], [fault_laws]).
    - [Rollout]: src/pkg/manager/controllers/rollout and utils/expectation, the
      upgrade of the operator's pods shard by shard.
    - [Labels]: the shard labels of namespaces and objects, set by the
      labelling webhooks (src/pkg/webhook/ns and resources) and by the task of
      src/pkg/manager/controllers/patchrunnable, whose goroutines and channel
      are the step relation of [LabelTask].
    - [PodInjector]: src/pkg/webhook/pod, which puts the proxy into the pods.
    - [ShardingValidation]: src/pkg/webhook/shardingconfig.
    - [FileSystem], [AtomicWriter], [AtomicWrites]: the tree of files and the
      calls of Go's os package on it; src/pkg/webhook/util/writer/atomic, the
      projection of the webhook's certificates; its proofs.
    - [CertWriter], [CertSync]: the rest of src/pkg/webhook/util (generator,
      writer, controller): certificates in a secret or a directory, and the
      round that keeps them and the webhook configurations; its proofs.
    - [WebhookServer]: src/pkg/webhook/server.go and util/health, the paths of
      the handlers, the readiness check and the wait for it; the events of the
      certificate controller; src/pkg/utils/env.go.
    - [Utilities]: src/pkg/utils/controller.go (calls in growing batches) and
      pool/bytes.go (the buffers bodies are copied with).
    - [ManagerState]: src/pkg/grpcregistry and
      src/pkg/manager/controllers/managerstate, how the managers publish their
      endpoints, and how a proxy chooses one (connect in
      src/pkg/proxy/proto/grpc.go).

    Shared: this file (panics, errors, machine integers, iteration over maps,
    regular expressions, lemmas on lists); [GoStrings], [Utf8], [Json],
    [GoTime], [GoFloat] (strings, runes, JSON texts, durations, clock times and
    floats of the Go standard library); [Named] (maps of rules named by a configuration); [Http].

    ** How Go is modelled

    Code that may panic returns an [outcome]; Go's pair of a value and an error
    is a [result], an option, or a sum with the error; integers wrap at their
    width ([int32], [int64]); [float64] is Rocq's [SpecFloat] with 53 bits.
    Iteration over a map visits the keys in an unknown order ([RangeOrder]):
    theorems hold for every order, and where the order matters a theorem says
    so.  Calls to the API server and to proxies may fail: an oracle, indexed by
    the number of the call, says which fail, and theorems either hold for every
    oracle or name the calls that succeed.  Clocks and random numbers are read
    from streams.  What is not in the repository is a parameter: regular
    expressions ([Regexp]), URL parsing ([UrlParser]), the token bucket of
    golang.org/x/time/rate ([BreakerTypes.RateLimiter], with its laws), JSON
    and MD5 ([Sharding.Hashes], [ShardServer.Dumps], [Conv.MessageHashes]),
    selector text and conversion ([Route.SelectorText],
    [ShardServer.AsSelector]); each has a concrete instance for evaluation.

    ** What the theorems show

    - The circuit breaker: the store refines a plain map of rules and its
      indices are a scan of the rules; [Sync] refines a plain map of
      configurations and preserves the invariant; from the empty manager no
      sequence of operations panics, except a CHECK of an unknown
      configuration; the whitelists, blacklists and limiters decide as
      specified; a breaker opened for a window closes after it.
    - Fault injection: [Sync] likewise; which rules apply to a request, when
      they are effective, and what the filter does.
    - Sharding: the generated shards partition the pods by ordinal (for fewer
      than 2^63 replicas: beyond, the bounds wrap) and the objects by hash and
      canary; the reconciler converges and tears down.
    - The sharding server: what a round deletes and sends, exactly and in
      order, told from what the pods reported: the ones not loaded first, the
      leader last, nothing resent before its acknowledgement; no
      change of a connection is lost to it; a send that overlaps a reconnection
      blocks the pod for good; without faults a round brings the specification
      of a shard with limits to every proxy of the shard, end to end, and the
      next has nothing to do.
    - The client of the manager: every stream begins with the pod's identity
      and repeats no status; left to itself the client comes to rest, having
      reported its status; and the runs in which a status is late or the
      process hangs.
    - The configuration controllers: without faults a reconcile brings the
      configuration to every selected proxy and withdraws it from the others,
      end to end with the proxies of [BreakerManager]; whatever fails, the
      finalizer goes only after the known targets are settled.
    - The proxy's specification is loaded once and then sticky; the injected
      selector is the conjunction of the shard's limits and the request's own.
    - The proxies: a list or watch that the API server is sent is restricted to
      the shard, unless the operator itself demands another value of a label the
      shard demands; every request that is sent passed every check; a request
      ends in a panic, which the recovery answers and passes on, for five
      reasons only, and gets exactly one answer otherwise; answers are relayed
      with their status, headers and whole body; hop-by-hop headers stay
      behind.
    - Leader election: each shard of an operator elects its own leader.
    - Rollout: a pod is deleted only when its shard is settled, one shard at a
      time in the order of their names, the leader last; the rollout of a shard
      ends under a contract of the cluster between two rounds
      ([Rollout.shard_step]); what breaks the contract, and that the holder of
      the proxies' own leases is never found.
    - Webhooks: what the pod injector adds, what the validating webhook admits,
      and that the two ways of labelling a namespace agree.
    - The label task: every interleaving of its goroutines and its cancellation
      ends; when it is not cancelled, with every listed object labelled.
    - The atomic writer: whatever fails, users read the old files or the new.
    - Certificates: replicas that share a secret agree on it whatever order
      their calls take; from a directory no write was interrupted in, and for a
      name that is no IPv6 address, a round of the controller reaches a state
      the next one leaves alone.
    - The manager state: a leader publishes itself in two rounds, and the
      proxies connect to it.

    Theorems that are properties of the code carry an identifier C<n>; the
    others support them or record deviations (a deleted intercept rule that
    still denies, the restart of a proxy that doubles its limits, an invalid
    percentage that makes proxies panic, and so on).

    ** Bounds and fuel

    [GoTime.durationLoop]: every round consumes a byte, so the length of the
    text is enough ([GoTime.durationLoop_fuel]).  [ReverseProxy.copyBuffer]:
    every turn consumes a piece of the body or bytes of one, so
    [ReverseProxy.turns] turns are enough ([copyBuffer_terminates]).
    [Labels.getNamespaceWithRetry]: one more than the count of retries
    ([getNamespaceWithRetry_terminates]).  [LabelTask.measure] bounds the steps
    of the label task, and [ClientRuns.work] those of the proxy's client between
    two events.  [Utilities.SlowStartBatch]: a batch makes at least one call,
    so one turn more than there are calls is enough; its sizes are 64-bit, and
    the theorem is for counts below 2^62.  [WebhookServer.WaitReady]: a turn
    takes two seconds, so 32 of them pass the minute ([WaitReady_ends]).
    [FileSystem.namei] follows at most
    forty links, the limit of Linux.  Everything else is structural recursion.
    The hash range is the 32 values of the source ([Sharding.batchOf]).

    ** What is not modelled, and why

    Keys and certificates are cryptography, a parameter with named laws
    ([CertWriter.Crypto], [CertSync.CertificateLaws]).  Informers, work queues
    and the set-up of controllers and servers belong to their libraries; where
    the code filters or maps their events, that is modelled.
    Of [net/http], the panic of [WriteHeader] at an impossible code is modelled
    ([Http.WriteHeader_ok]), and the response writer of answers that may have a
    body ([ReverseProxy.responseWriter]); not the connections underneath.
    src/pkg/proxy/apiserver/serializer.go and
    reader.go are called by nothing.  Upgraded connections (exec, attach) go to
    a handler of the API server's library.  Entry points and flags
    (src/pkg/cmd), generated clients, protobuf code and deep copies (beyond the
    message types), metrics, logging and the end-to-end tests hold no decisions
    of their own. *)

From Stdlib Require Export Ascii.
From stdpp Require Export base tactics strings list gmap sets fin_maps pretty.
From Stdlib Require Export ZArith Lia.

#[global] Arguments String.append !_ _ / : simpl nomatch.

(** ** Panics

    A Go call either returns or panics (nil dereference, index out of range).
    Calls that cannot panic are modelled by plain functions. *)

Inductive outcome (A : Type) : Type :=
| Returns (a : A)
| Panics.
Arguments Returns {A} a.
Arguments Panics {A}.

#[export] Instance outcome_ret : MRet outcome := λ A a, Returns a.
#[export] Instance outcome_bind : MBind outcome :=
  λ A B f m, match m with Returns a => f a | Panics => Panics end.
#[export] Instance outcome_fmap : FMap outcome :=
  λ A B f m, match m with Returns a => Returns (f a) | Panics => Panics end.

#[export] Instance outcome_eq_dec {A} `{EqDecision A} : EqDecision (outcome A).
Proof. solve_decision. Defined.

Lemma bind_Returns {A B} (o : outcome A) (f : A → outcome B) b :
  o ≫= f = Returns b → ∃ a, o = Returns a ∧ f a = Returns b.
Proof. destruct o as [a|]; [|done]. by exists a. Qed.

(** Dereferencing a Go pointer: [None] is the nil pointer. *)
Definition deref {A} (p : option A) : outcome A :=
  match p with Some a => Returns a | None => Panics end.

(** [for _, x := range l { s = f(s, x) }] where the body may panic. *)
Fixpoint foldM {A S} (f : S → A → outcome S) (s : S) (l : list A) : outcome S :=
  match l with
  | [] => Returns s
  | x :: l' => s' ← f s x; foldM f s' l'
  end.

(** ** Errors

    The Go result pair [(value, error)]: a value, or an error with its text. *)

Inductive result (A : Type) : Type :=
| Ok (a : A)
| Err (msg : string).
Arguments Ok {A} a.
Arguments Err {A} msg.

#[export] Instance result_ret : MRet result := λ A a, Ok a.
#[export] Instance result_bind : MBind result :=
  λ A B f m, match m with Ok a => f a | Err e => Err e end.

(** ** Machine integers

    Conversion to a signed type of [w] bits wraps around. *)

Definition wrap (w z : Z) : Z := ((z + 2 ^ (w - 1)) `mod` 2 ^ w - 2 ^ (w - 1))%Z.
Definition int32 (z : Z) : Z := wrap 32 z.
Definition int64 (z : Z) : Z := wrap 64 z.

Lemma wrap_bounds w z : (0 < w)%Z → (- 2 ^ (w - 1) ≤ wrap w z < 2 ^ (w - 1))%Z.
Proof.
  intros Hw. unfold wrap. assert (2 ^ w = 2 * 2 ^ (w - 1))%Z as ->.
  { rewrite <- Z.pow_succ_r by lia. f_equal. lia. }
  pose proof (Z.pow_pos_nonneg 2 (w - 1)).
  pose proof (Z.mod_pos_bound (z + 2 ^ (w - 1)) (2 * 2 ^ (w - 1))). lia.
Qed.

Lemma wrap_id w z : (0 < w)%Z → (- 2 ^ (w - 1) ≤ z < 2 ^ (w - 1))%Z → wrap w z = z.
Proof.
  intros Hw Hz. unfold wrap. assert (2 ^ w = 2 * 2 ^ (w - 1))%Z as ->.
  { rewrite <- Z.pow_succ_r by lia. f_equal. lia. }
  rewrite Z.mod_small; lia.
Qed.
Lemma int64_id z : (- 2 ^ 63 ≤ z < 2 ^ 63)%Z → int64 z = z.
Proof. intros Hz. by apply wrap_id. Qed.

(** ** Range over a map

    Go visits the keys of a map in an unspecified order.  [range_set] is one
    such order; the only thing known about it is that every key is visited
    exactly once.  Theorems that quantify over the class hold for every order. *)

Class RangeOrder := {
  range_set : gset string → list string;
  range_set_perm s : range_set s ≡ₚ elements s;
}.

Definition range_keys `{RangeOrder} {A} (m : gmap string A) : list string :=
  range_set (dom m).

(** Two concrete orders, for evaluation and for order-dependence examples. *)
Definition order_fwd : RangeOrder.
Proof. refine {| range_set := elements |}. done. Defined.

Definition order_bwd : RangeOrder.
Proof.
  refine {| range_set := λ s, reverse (elements s) |}.
  intros s. by rewrite reverse_Permutation.
Defined.

(** ** Regular expressions

    Go's [regexp] package: compiling a pattern may fail; a compiled expression
    matches strings and prints as its source text. *)

Class Regexp := {
  regexp : Type;
  Compile : string → option regexp;
  MatchString : regexp → string → bool;
  rx_String : regexp → string;
  rx_String_Compile s r : Compile s = Some r → rx_String r = s;
}.

(** A concrete instance for evaluation: patterns without metacharacters,
    matched against the whole string. *)
Definition literal_regexp : Regexp.
Proof.
  refine {| regexp := string; Compile := Some; rx_String := id;
            MatchString := λ r s, bool_decide (r = s) |}.
  by intros s r [= ->].
Defined.

(** ** Automation *)

Create HintDb mesh.
Create Rewrite HintDb mesh_rw.



(** Splits every [match] in the goal or the hypotheses, keeping equations. *)
Ltac split_matches :=
  repeat (case_match; simplify_eq/=).

(** ** Lists *)

Section lists.
Context {A : Type}.
Implicit Types (l k : list A).

Lemma foldM_app {S} (f : S → A → outcome S) s l k :
  foldM f s (l ++ k) = (s' ← foldM f s l; foldM f s' k).
Proof.
  revert s; induction l as [|x l IH]; intros s; [done|].
  simpl. destruct (f s x); [apply IH | done].
Qed.

(** A fold whose body never panics is a plain fold. *)
Lemma foldM_pure {S} (f : S → A → outcome S) (g : S → A → S) s l :
  (∀ s x, x ∈ l → f s x = Returns (g s x)) →
  foldM f s l = Returns (fold_left g l s).
Proof.
  revert s; induction l as [|x l IH]; intros s Hf; [done|].
  simpl. rewrite Hf by set_solver. simpl. apply IH. set_solver.
Qed.

(** Rule for loops: an invariant of the body is an invariant of the loop,
    and a body that never panics under the invariant gives a loop that
    never panics. *)
Lemma foldM_inv {S} (P : S → Prop) (f : S → A → outcome S) s l :
  P s →
  (∀ s x, x ∈ l → P s → ∃ s', f s x = Returns s' ∧ P s') →
  ∃ s', foldM f s l = Returns s' ∧ P s'.
Proof.
  revert s; induction l as [|x l IH]; intros s HP Hf; [by eauto|].
  destruct (Hf s x) as (s1 & Hs1 & HP1); [set_solver|done|].
  destruct (IH s1) as (s2 & Hs2 & HP2); [done|set_solver|].
  exists s2. simpl. by rewrite Hs1.
Qed.

Lemma fold_left_inv {S} (P : S → Prop) (g : S → A → S) s l :
  P s → (∀ s x, x ∈ l → P s → P (g s x)) → P (fold_left g l s).
Proof.
  revert s; induction l as [|x l IH]; intros s HP Hg; [done|].
  simpl. apply IH; [apply Hg; set_solver | set_solver].
Qed.

Lemma existsb_exists' (f : A → bool) l :
  existsb f l = true ↔ ∃ x, x ∈ l ∧ f x = true.
Proof. rewrite existsb_exists. by setoid_rewrite list_elem_of_In. Qed.

Lemma existsb_Permutation (f : A → bool) l k :
  l ≡ₚ k → existsb f l = existsb f k.
Proof.
  intros Hp. apply eq_true_iff_eq. rewrite !existsb_exists'.
  by setoid_rewrite Hp.
Qed.
End lists.

Section range.
Context `{RangeOrder}.

Lemma elem_of_range_set s k : k ∈ range_set s ↔ k ∈ s.
Proof. by rewrite range_set_perm, elem_of_elements. Qed.

Lemma NoDup_range_set s : NoDup (range_set s).
Proof. rewrite range_set_perm. apply NoDup_elements. Qed.

Lemma elem_of_range_keys {A} (m : gmap string A) k :
  k ∈ range_keys m ↔ is_Some (m !! k).
Proof. unfold range_keys. by rewrite elem_of_range_set, elem_of_dom. Qed.

Lemma NoDup_range_keys {A} (m : gmap string A) : NoDup (range_keys m).
Proof. apply NoDup_range_set. Qed.

Lemma range_set_nil s : range_set s = [] → s = ∅.
Proof.
  intros Hs. apply set_eq. intros k. rewrite <- elem_of_range_set, Hs. set_solver.
Qed.

Lemma range_set_empty : range_set ∅ = [].
Proof. apply Permutation_nil. by rewrite range_set_perm, elements_empty. Qed.
End range.

#[export] Hint Rewrite @elem_of_range_set @elem_of_range_keys : mesh_rw.
