(* ===== verification/GoStrings.v ===== *)
(** * Go's [strings] and [strconv] as the sources use them

    [strings.Split] on a one-byte separator, [strings.Join], [HasPrefix],
    [TrimSuffix], [LastIndex], [strconv.Itoa], and the two key formats
    ["%s:%s"] and ["%s:%s:%s:%s"] the stores build with [fmt.Sprintf]. *)

From S2P Require Import Prelude.


(** [strings.Split(s, string(c))]: always at least one piece. *)
Fixpoint Split (c : Ascii.ascii) (s : string) : list string :=
  match s with
  | EmptyString => [EmptyString]
  | String a s' =>
      if decide (a = c) then EmptyString :: Split c s'
      else match Split c s' with
           | [] => [String a EmptyString]
           | p :: ps => String a p :: ps
           end
  end.

(** [strings.Join(l, sep)]. *)
Fixpoint Join (sep : string) (l : list string) : string :=
  match l with
  | [] => EmptyString
  | [p] => p
  | p :: l' => p +:+ sep +:+ Join sep l'
  end.

(** [strings.HasPrefix(s, p)]. *)
Definition HasPrefix (s p : string) : bool := String.prefix p s.

Fixpoint drop_bytes (n : nat) (s : string) : string :=
  match n, s with
  | 0, _ => s
  | S n', String _ s' => drop_bytes n' s'
  | S _, EmptyString => EmptyString
  end.

Fixpoint take_bytes (n : nat) (s : string) : string :=
  match n, s with
  | S n', String a s' => String a (take_bytes n' s')
  | _, _ => EmptyString
  end.

(** [strings.TrimSuffix(s, suf)]. *)
Definition TrimSuffix (s suf : string) : string :=
  let n := String.length s - String.length suf in
  if decide (String.length suf ≤ String.length s ∧ drop_bytes n s = suf)
  then take_bytes n s else s.

(** [strings.LastIndex(s, old)], [None] for -1. *)
Fixpoint LastIndex (s old : string) : option nat :=
  match s with
  | EmptyString => if HasPrefix EmptyString old then Some 0 else None
  | String _ s' =>
      match LastIndex s' old with
      | Some i => Some (S i)
      | None => if HasPrefix s old then Some 0 else None
      end
  end.

(** [strings.Contains(s, sub)]. *)
Fixpoint Contains (s sub : string) : bool :=
  HasPrefix s sub || match s with EmptyString => false | String _ s' => Contains s' sub end.

(** [strconv.Itoa]. *)
Definition Itoa (z : Z) : string := pretty z.

(** ["%s:%s"]. *)
Definition key2 (a b : string) : string := a +:+ ":" +:+ b.
(** ["%s:%s:%s:%s"]. *)
Definition key4 (a b c d : string) : string := key2 a (key2 b (key2 c d)).

(** The byte [c] does not occur in [s]. *)
Fixpoint free_of (c : Ascii.ascii) (s : string) : bool :=
  match s with
  | EmptyString => true
  | String a s' => bool_decide (a ≠ c) && free_of c s'
  end.
Abbreviation colon_free := (free_of ":"%char).

(** ** Lemmas *)

Lemma app_nil_r_str s : s +:+ EmptyString = s.
Proof. induction s as [|a s IH]; [done|]. simpl. by rewrite IH. Qed.

Lemma app_assoc_str s t u : (s +:+ t) +:+ u = s +:+ t +:+ u.
Proof. induction s as [|a s IH]; [done|]. simpl. by rewrite IH. Qed.

Lemma app_inv_head_str s t u : s +:+ t = s +:+ u → t = u.
Proof. induction s as [|a s IH]; simpl; [done|]. intros [=]. auto. Qed.

Lemma length_app_str s t :
  String.length (s +:+ t) = String.length s + String.length t.
Proof. induction s as [|a s IH]; [done|]. simpl. by rewrite IH. Qed.

Lemma free_of_cons c a s :
  free_of c (String a s) = true ↔ a ≠ c ∧ free_of c s = true.
Proof. simpl. by rewrite andb_true_iff, bool_decide_eq_true. Qed.

Lemma free_of_app c s t :
  free_of c (s +:+ t) = free_of c s && free_of c t.
Proof.
  induction s as [|a s IH]; [done|].
  simpl. by rewrite IH, andb_assoc.
Qed.

(** The part before the first separator is determined when it is free of it. *)
Lemma sep_inj_l c a b a' b' :
  free_of c a = true → free_of c a' = true →
  a +:+ String c b = a' +:+ String c b' → a = a' ∧ b = b'.
Proof.
  revert a'; induction a as [|x a IH]; intros [|y a'];
    rewrite ?free_of_cons; intros H1 H2 Heq; simplify_eq/=; try naive_solver.
Qed.

Lemma key2_inj_l a b a' b' :
  colon_free a = true → colon_free a' = true →
  key2 a b = key2 a' b' → a = a' ∧ b = b'.
Proof. unfold key2. simpl. apply sep_inj_l. Qed.

(** The part after the last separator is determined when it is free of it. *)
Lemma key2_inj_r a b a' b' :
  colon_free b = true → colon_free b' = true →
  key2 a b = key2 a' b' → a = a' ∧ b = b'.
Proof.
  unfold key2. revert a'; induction a as [|x a IH]; intros [|y a']; simpl;
    intros H1 H2 Heq; simplify_eq; try done.
  - by rewrite free_of_app in H1; simpl in H1; rewrite andb_false_r in H1.
  - by rewrite free_of_app in H2; simpl in H2; rewrite andb_false_r in H2.
  - edestruct IH as [-> ->]; eauto.
Qed.

Lemma key4_inj a b c d a' b' c' d' :
  colon_free a = true → colon_free a' = true →
  colon_free b = true → colon_free b' = true →
  colon_free c = true → colon_free c' = true →
  key4 a b c d = key4 a' b' c' d' → a = a' ∧ b = b' ∧ c = c' ∧ d = d'.
Proof.
  unfold key4. intros ?????? Heq.
  apply key2_inj_l in Heq as [-> Heq]; [|done..].
  apply key2_inj_l in Heq as [-> Heq]; [|done..].
  by apply key2_inj_l in Heq as [-> ->].
Qed.

Lemma Split_nonempty c s : Split c s ≠ [].
Proof. destruct s; simpl; [done|]. repeat case_match; done. Qed.

Lemma Split_free c s : free_of c s = true → Split c s = [s].
Proof.
  induction s as [|a s IH]; [done|]. rewrite free_of_cons. intros [Hne H].
  simpl. by rewrite decide_False, IH.
Qed.

Lemma Split_app c a b :
  free_of c a = true → Split c (a +:+ String c b) = a :: Split c b.
Proof.
  induction a as [|x a IH]; [by simpl; rewrite decide_True|].
  rewrite free_of_cons. intros [Hne H]. simpl. by rewrite decide_False, IH.
Qed.

Lemma Split_key2 a b : colon_free a = true → Split ":"%char (key2 a b) = a :: Split ":"%char b.
Proof. unfold key2. simpl. apply Split_app. Qed.

(** Joining the pieces with the separator gives the string back. *)
Lemma Join_Split c s : Join (String c EmptyString) (Split c s) = s.
Proof.
  induction s as [|a s IH]; [done|]. simpl.
  pose proof (Split_nonempty c s) as Hne.
  destruct (decide (a = c)) as [->|Hac].
  - simpl. destruct (Split c s) as [|p ps]; [done|]. by rewrite IH.
  - destruct (Split c s) as [|p [|q ps]]; [done|by simpl in *; subst|].
    simpl in *. by rewrite IH.
Qed.

Lemma Split_pieces_free c s p : p ∈ Split c s → free_of c p = true.
Proof.
  revert p; induction s as [|a s IH]; intros p; simpl.
  { rewrite list_elem_of_singleton. by intros ->. }
  destruct (decide (a = c)) as [->|Hac].
  { rewrite elem_of_cons. intros [->|?]; auto. }
  destruct (Split c s) as [|q qs].
  { rewrite list_elem_of_singleton. intros ->. by rewrite free_of_cons. }
  rewrite elem_of_cons. intros [->|?]; [|apply IH; set_solver].
  rewrite free_of_cons. split; [done|]. apply IH. set_solver.
Qed.

Lemma prefix_app p s : String.prefix p (p +:+ s) = true.
Proof.
  induction p as [|a p IH]; simpl; [by destruct s|].
  by destruct (Ascii.ascii_dec a a).
Qed.

Lemma prefix_spec p s : String.prefix p s = true ↔ ∃ t, s = p +:+ t.
Proof.
  split; [|intros [t ->]; apply prefix_app].
  revert s; induction p as [|a p IH]; intros s; [by exists s|].
  destruct s as [|b s]; [done|]. simpl.
  destruct (Ascii.ascii_dec a b) as [->|]; [|done].
  intros (t & ->)%IH. by exists t.
Qed.

Lemma drop_bytes_app s t : drop_bytes (String.length s) (s +:+ t) = t.
Proof. by induction s as [|a s IH]. Qed.

Lemma take_bytes_app s t : take_bytes (String.length s) (s +:+ t) = s.
Proof. induction s as [|a s IH]; [by destruct t|]. simpl. by rewrite IH. Qed.

Lemma TrimSuffix_app s suf : TrimSuffix (s +:+ suf) suf = s.
Proof.
  unfold TrimSuffix. rewrite length_app_str.
  replace (String.length s + String.length suf - String.length suf)
    with (String.length s) by lia.
  rewrite drop_bytes_app, take_bytes_app. rewrite decide_True; [done|].
  split; [lia|done].
Qed.

Lemma Itoa_inj z z' : Itoa z = Itoa z' → z = z'.
Proof. apply (inj pretty). Qed.

