(* ===== verification/Utf8.v ===== *)
(** * UTF-8

    What ranging over a string and [encoding/json] use of [unicode/utf8]. *)

From S2P Require Import Prelude.

Definition byte (n : nat) : Ascii.ascii := Ascii.ascii_of_nat n.
Definition code (a : Ascii.ascii) : nat := Ascii.nat_of_ascii a.
Definition in_range (lo hi : nat) (a : Ascii.ascii) : bool := (lo <=? code a)%nat && (code a <=? hi)%nat.

(** The width of the UTF-8 sequence at the head of a string of non-ASCII
    bytes, 0 when it is not one ([utf8.DecodeRuneInString]). *)
Definition utf8_width (s : string) : nat :=
  match s with
  | String a (String b s') =>
      if in_range 194 223 a && in_range 128 191 b then 2
      else match s' with
      | String c s'' =>
          if in_range 128 191 c &&
             ((in_range 224 224 a && in_range 160 191 b) ||
              ((in_range 225 236 a || in_range 238 239 a) && in_range 128 191 b) ||
              (in_range 237 237 a && in_range 128 159 b))
          then 3
          else match s'' with
          | String d _ =>
              if in_range 128 191 c && in_range 128 191 d &&
                 ((in_range 240 240 a && in_range 144 191 b) ||
                  (in_range 241 243 a && in_range 128 191 b) ||
                  (in_range 244 244 a && in_range 128 143 b))
              then 4 else 0
          | EmptyString => 0
          end
      | EmptyString => 0
      end
  | _ => 0
  end.

(** A byte after the first one of a sequence gives its six low bits. *)
Fixpoint continuation (n : nat) (acc : Z) (s : string) : Z :=
  match n, s with
  | S n, String a s => continuation n (acc * 64 + Z.of_nat (code a) mod 64) s
  | _, _ => acc
  end.
(** The code point of a sequence of a width. *)
Definition decode_rune (width : nat) (s : string) : Z :=
  match s with
  | EmptyString => 0
  | String a s =>
      let first := Z.of_nat (code a) in
      match width with
      | 2 => continuation 1 (first mod 32) s
      | 3 => continuation 2 (first mod 16) s
      | _ => continuation 3 (first mod 8) s
      end
  end.

Definition RuneError : Z := 65533.

(** The code points that a range over a string visits; [skip] bytes belong to
    the sequence before. *)
Fixpoint runes_from (skip : nat) (s : string) : list Z :=
  match s with
  | EmptyString => []
  | String a s' =>
      match skip with
      | S n => runes_from n s'
      | O =>
          if (code a <? 128)%nat then Z.of_nat (code a) :: runes_from 0 s'
          else match utf8_width s with
          | 0 => RuneError :: runes_from 0 s'
          | S w => decode_rune (S w) s :: runes_from w s'
          end
      end
  end.
Definition runes (s : string) : list Z := runes_from 0 s.

Lemma continuation_bound n acc s :
  (0 ≤ acc)%Z → (0 ≤ continuation n acc s < (acc + 1) * 64 ^ Z.of_nat n)%Z.
Proof.
  revert acc s. induction n as [|n IH]; intros acc s Hacc; [simpl; lia|].
  rewrite Nat2Z.inj_succ, Z.pow_succ_r by lia. pose proof (Z.pow_pos_nonneg 64 (Z.of_nat n)).
  destruct s as [|a s]; cbn [continuation]; [nia|].
  pose proof (Z.mod_pos_bound (Z.of_nat (code a)) 64). destruct (IH (acc * 64 + Z.of_nat (code a) mod 64)%Z s); nia.
Qed.

(** Code points fit in 21 bits. *)
Lemma runes_bound s : Forall (λ r, 0 ≤ r < 2 ^ 21)%Z (runes s).
Proof.
  unfold runes. generalize 0 at 1. induction s as [|a s IH]; intros skip; cbn [runes_from]; [constructor|].
  destruct skip as [|n]; [|apply IH]. destruct (code a <? 128)%nat eqn:Ha.
  { apply Nat.ltb_lt in Ha. constructor; [lia|apply IH]. }
  destruct (utf8_width (String a s)) as [|w]; (constructor; [|apply IH]); [unfold RuneError; lia|].
  unfold decode_rune. set (c := Z.of_nat (code a)).
  assert (∀ k m, (0 < m)%Z → (m * 64 ^ Z.of_nat k ≤ 2 ^ 21)%Z → (0 ≤ continuation k (c mod m) s < 2 ^ 21)%Z) as Hk.
  { intros k m Hm Hle. pose proof (Z.mod_pos_bound c m Hm). pose proof (Z.pow_pos_nonneg 64 (Z.of_nat k)).
    destruct (continuation_bound k (c mod m) s); nia. }
  destruct w as [|[|[|?]]]; apply Hk; lia.
Qed.

(** An ASCII string is visited byte by byte. *)
Lemma runes_ascii s : (∀ a, a ∈ String.list_ascii_of_string s → code a < 128) → runes s = Z.of_nat ∘ code <$> String.list_ascii_of_string s.
Proof.
  unfold runes. induction s as [|a s IH]; intros Hall; [done|]. cbn [runes_from String.list_ascii_of_string].
  rewrite (proj2 (Nat.ltb_lt _ _)) by (apply Hall; cbn; set_solver). cbn. f_equal. apply IH. intros b Hb. apply Hall. cbn. set_solver.
Qed.

Example runes_ex : runes (String (byte 195) (String (byte 169) "a")) = [233; 97]%Z.
Proof. reflexivity. Qed.
