(* ===== verification/Json.v ===== *)
(** * JSON text

    What the sources use of [encoding/json] on the writing side: strings,
    lists of strings and maps of strings, with the escapes of [json.Marshal]
    (HTML characters included) and its replacement of invalid UTF-8. *)

From stdpp Require Import sorting.
From S2P Require Import Prelude GoStrings Utf8.

Definition hexdigit (n : nat) : Ascii.ascii := byte (if (n <? 10)%nat then 48 + n else 87 + n)%nat.

(** The two line separators JavaScript does not allow in strings: the escape
    of a three-byte sequence. *)
Definition separator_escape (s : string) : option string :=
  match s with
  | String a (String b (String c _)) =>
      if in_range 226 226 a && in_range 128 128 b then
        if in_range 168 168 c then Some "\u2028" else if in_range 169 169 c then Some "\u2029" else None
      else None
  | _ => None
  end.

Definition escape_ascii (a : Ascii.ascii) : string :=
  let n := code a in
  if decide (n = 34 ∨ n = 92)%nat then String (byte 92) (String a EmptyString)
  else if decide (n = 10)%nat then "\n"
  else if decide (n = 13)%nat then "\r"
  else if decide (n = 9)%nat then "\t"
  else if (n <? 32)%nat || bool_decide (n = 60 ∨ n = 62 ∨ n = 38)%nat
  then "\u00" +:+ String (hexdigit (n / 16)) (String (hexdigit (n mod 16)) EmptyString)
  else String a EmptyString.

(** [copy] bytes of the current sequence remain to be copied, [skip] to be
    dropped. *)
Fixpoint json_chars (copy skip : nat) (s : string) : string :=
  match s with
  | EmptyString => EmptyString
  | String a s' =>
      match copy, skip with
      | S n, _ => String a (json_chars n skip s')
      | O, S n => json_chars 0 n s'
      | O, O =>
          if (code a <? 128)%nat then escape_ascii a +:+ json_chars 0 0 s'
          else match utf8_width s with
          | 0 => "\ufffd" +:+ json_chars 0 0 s'
          | S w =>
              match separator_escape s with
              | Some e => e +:+ json_chars 0 w s'
              | None => String a (json_chars w 0 s')
              end
          end
      end
  end.

Definition json_string (s : string) : string :=
  String (byte 34) (json_chars 0 0 s +:+ String (byte 34) EmptyString).
(** [json.Marshal] of a slice that is not nil. *)
Definition json_list (l : list string) : string := "[" +:+ Join "," (json_string <$> l) +:+ "]".

(** Maps are written in the order of their keys. *)
Definition key_le (a b : string * string) : Prop := Is_true (String.leb a.1 b.1).
#[export] Instance key_le_dec : RelDecision key_le.
Proof. intros a b. unfold key_le. apply _. Defined.
Definition json_map (m : gmap string string) : string :=
  "{" +:+ Join "," ((λ kv, json_string kv.1 +:+ ":" +:+ json_string kv.2) <$> merge_sort key_le (map_to_list m)) +:+ "}".

Definition quoted (s : string) : string := String (byte 34) (s +:+ String (byte 34) EmptyString).
Example json_list_ex : json_list ["a"; "b"] = "[" +:+ quoted "a" +:+ "," +:+ quoted "b" +:+ "]".
Proof. reflexivity. Qed.
Example json_map_ex :
  json_map {["b" := "x<"; "a" := EmptyString]}
  = "{" +:+ quoted "a" +:+ ":" +:+ quoted EmptyString +:+ "," +:+ quoted "b" +:+ ":" +:+ quoted "x\u003c" +:+ "}".
Proof. reflexivity. Qed.
