(* ===== verification/GoTime.v ===== *)
(** * Go's [time] as the sources use it

    [time.ParseDuration] with its uint64 overflow checks and its float64
    treatment of decimal fractions (IEEE binary64 arithmetic from
    [SpecFloat]), [time.ParseInLocation] for the layout ["15:04:05"], and the
    calendar fields read off a [time.Time].  A [time.Time] is its number of
    nanoseconds and a [time.Duration] an int64 number of nanoseconds, both
    as [Z]. *)

From S2P Require Import Prelude GoStrings.
From Stdlib Require Import SpecFloat.

Local Open Scope Z_scope.

Definition is_digit (a : ascii) : bool :=
  let n := nat_of_ascii a in (48 <=? n)%nat && (n <=? 57)%nat.
Definition digit_val (a : ascii) : Z := Z.of_nat (nat_of_ascii a) - 48.

(** [leadingInt]: [None] is the overflow error. *)
Fixpoint leadingInt (x : Z) (s : string) : option (Z * string) :=
  match s with
  | EmptyString => Some (x, s)
  | String a s' =>
      if is_digit a then
        if 2 ^ 63 / 10 <? x then None
        else let x' := x * 10 + digit_val a in
             if 2 ^ 63 <? x' then None else leadingInt x' s'
      else Some (x, s)
  end.

(** float64 operations. *)
Definition f64_of_Z (z : Z) : spec_float := binary_normalize 53 1024 z 0 false.
Definition f64_mul := SFmul 53 1024.
Definition f64_div := SFdiv 53 1024.
(** [uint64(x)] for a non-negative [x] in range: truncation. *)
Definition uint64_of_f64 (x : spec_float) : Z :=
  match x with
  | S754_finite false m e => Z.shiftl (Zpos m) e
  | _ => 0
  end.

(** [leadingFraction]: digits beyond the precision are skipped. *)
Fixpoint leadingFraction (x : Z) (scale : spec_float) (overflow : bool) (s : string)
    : Z * spec_float * string :=
  match s with
  | EmptyString => (x, scale, s)
  | String a s' =>
      if is_digit a then
        if overflow then leadingFraction x scale true s'
        else if (2 ^ 63 - 1) / 10 <? x then leadingFraction x scale true s'
        else let y := x * 10 + digit_val a in
             if 2 ^ 63 <? y then leadingFraction x scale true s'
             else leadingFraction y (f64_mul scale (f64_of_Z 10)) false s'
      else (x, scale, s)
  end.

(** The unit: everything up to the next digit or period. *)
Fixpoint takeUnit (s : string) : string * string :=
  match s with
  | EmptyString => (EmptyString, EmptyString)
  | String a s' =>
      if bool_decide (a = "."%char) || is_digit a then (EmptyString, s)
      else let '(u, r) := takeUnit s' in (String a u, r)
  end.

Definition micro_sign : string := String (ascii_of_nat 194) (String (ascii_of_nat 181) "s").
Definition greek_mu : string := String (ascii_of_nat 206) (String (ascii_of_nat 188) "s").

Definition unitMap (u : string) : option Z :=
  if decide (u = "ns") then Some 1
  else if decide (u = "us" ∨ u = micro_sign ∨ u = greek_mu) then Some 1000
  else if decide (u = "ms") then Some 1000000
  else if decide (u = "s") then Some 1000000000
  else if decide (u = "m") then Some 60000000000
  else if decide (u = "h") then Some 3600000000000
  else None.

(** One round of the main loop: a number and its unit, as nanoseconds, and
    the rest of the string. *)
Definition durationTerm (s : string) : option (Z * string) :=
  match s with
  | EmptyString => None
  | String a _ =>
      if negb (bool_decide (a = "."%char) || is_digit a) then None else
      '(v, s1) ← leadingInt 0 s;
      let pre := negb (String.length s1 =? String.length s)%nat in
      let '(f, scale, post, s2) :=
        match s1 with
        | String b s1' =>
            if decide (b = "."%char) then
              let '(f, scale, s2) := leadingFraction 0 (f64_of_Z 1) false s1' in
              (f, scale, negb (String.length s2 =? String.length s1')%nat, s2)
            else (0, f64_of_Z 1, false, s1)
        | EmptyString => (0, f64_of_Z 1, false, s1)
        end in
      if negb pre && negb post then None else
      let '(u, s3) := takeUnit s2 in
      match u with
      | EmptyString => None
      | _ =>
          unit ← unitMap u;
          if 2 ^ 63 / unit <? v then None else
          let v := v * unit in
          if 0 <? f then
            let v := v + uint64_of_f64 (f64_mul (f64_of_Z f) (f64_div (f64_of_Z unit) scale)) in
            if 2 ^ 63 <? v then None else Some (v, s3)
          else Some (v, s3)
      end
  end.

(** The main loop; every round consumes at least one byte, so a fuel of the
    string's length is enough ([durationLoop_fuel]). *)
Fixpoint durationLoop (fuel : nat) (d : Z) (s : string) : option Z :=
  match s with
  | EmptyString => Some d
  | _ =>
      match fuel with
      | O => None
      | S fuel' =>
          '(v, s') ← durationTerm s;
          let d' := d + v in
          if 2 ^ 63 <? d' then None else durationLoop fuel' d' s'
      end
  end.

(** [time.ParseDuration]: [None] is the error result. *)
Definition ParseDuration (s : string) : option Z :=
  let '(neg, s) :=
    match s with
    | String a s' =>
        if decide (a = "-"%char) then (true, s')
        else if decide (a = "+"%char) then (false, s') else (false, s)
    | EmptyString => (false, s)
    end in
  if decide (s = "0") then Some 0
  else match s with
       | EmptyString => None
       | _ =>
           d ← durationLoop (String.length s) 0 s;
           if neg then Some (- d)
           else if 2 ^ 63 - 1 <? d then None else Some d
       end.

(** [d, _ := time.ParseDuration(s)]: the zero duration on error. *)
Definition ParseDuration_or0 (s : string) : Z := default 0 (ParseDuration s).

(** ** ["15:04:05"] *)

(** [getnum]: one or two digits, exactly two when [fixed]. *)
Definition getnum (s : string) (fixed : bool) : option (Z * string) :=
  match s with
  | String a s1 =>
      if negb (is_digit a) then None else
      match s1 with
      | String b s2 =>
          if is_digit b then Some (digit_val a * 10 + digit_val b, s2)
          else if fixed then None else Some (digit_val a, s1)
      | EmptyString => if fixed then None else Some (digit_val a, s1)
      end
  | EmptyString => None
  end.

Definition skip_colon (s : string) : option string :=
  match s with
  | String a s' => if decide (a = ":"%char) then Some s' else None
  | EmptyString => None
  end.

Fixpoint skip_digits (s : string) : string :=
  match s with
  | String a s' => if is_digit a then skip_digits s' else s
  | EmptyString => s
  end.

(** A fractional second is accepted although the layout has none. *)
Definition skip_fraction (s : string) : string :=
  match s with
  | String p (String a s') =>
      if decide (p = "."%char ∨ p = ","%char) then
        if is_digit a then skip_digits s' else s
      else s
  | _ => s
  end.

(** [time.ParseInLocation("15:04:05", s, UTC)]: hour, minute, second. *)
Definition ParseClock (s : string) : option (Z * Z * Z) :=
  '(h, s) ← getnum s false;
  if 24 <=? h then None else
  s ← skip_colon s;
  '(m, s) ← getnum s true;
  if 60 <=? m then None else
  s ← skip_colon s;
  '(sec, s) ← getnum s true;
  if 60 <=? sec then None else
  match skip_fraction s with
  | EmptyString => Some (h, m, sec)
  | _ => None
  end.

(** The fields of [now.In(UTC)] the sources read. *)
Record civil := mkCivil {
  Hour : Z; Minute : Z; Second : Z; Weekday : Z; Day : Z; Month : Z
}.

Definition secOfDay (h m s : Z) : Z := h * 3600 + m * 60 + s.

(** ** Lemmas *)

Lemma leadingInt_length x s v r :
  leadingInt x s = Some (v, r) → (String.length r ≤ String.length s)%nat.
Proof.
  revert x; induction s as [|a s IH]; intros x; simpl; [naive_solver|].
  destruct (is_digit a); [|naive_solver].
  destruct (_ <? x); [done|]. destruct (_ <? _); [done|].
  intros Hlen%IH. lia.
Qed.

Lemma leadingFraction_length x sc o s v sc' r :
  leadingFraction x sc o s = (v, sc', r) → (String.length r ≤ String.length s)%nat.
Proof.
  revert x sc o; induction s as [|a s IH]; intros x sc o; simpl; [naive_solver|].
  destruct (is_digit a); [|naive_solver].
  repeat case_match; intros Hlen%IH; lia.
Qed.

Lemma takeUnit_length s u r :
  takeUnit s = (u, r) → (String.length u + String.length r = String.length s)%nat.
Proof.
  revert u r; induction s as [|a s IH]; intros u r; simpl; [naive_solver|].
  destruct (_ || _); [naive_solver|].
  destruct (takeUnit s) as [u' r'] eqn:E. intros [= <- <-].
  simpl. by rewrite (IH u' r').
Qed.

Lemma durationTerm_length s v r :
  durationTerm s = Some (v, r) → (String.length r < String.length s)%nat.
Proof.
  unfold durationTerm. destruct s as [|a s]; [done|].
  destruct (negb _); [done|].
  destruct (leadingInt 0 (String a s)) as [[v0 s1]|] eqn:Hi; [|done].
  apply leadingInt_length in Hi. cbn [mbind option_bind].
  set (q := match s1 with EmptyString => _ | String b s1' => _ end).
  assert (String.length (snd q) ≤ String.length s1)%nat as Hq.
  { unfold q. destruct s1 as [|b s1']; [done|].
    destruct (decide _); [|done].
    destruct (leadingFraction _ _ _ s1') as [[f sc] s2] eqn:Hf.
    apply leadingFraction_length in Hf. simpl. lia. }
  destruct q as [[[f sc] post] s2]. simpl in Hq.
  destruct (_ && _); [done|].
  destruct (takeUnit s2) as [u s3] eqn:Hu. apply takeUnit_length in Hu.
  destruct u as [|b u]; [done|]. simpl in Hu.
  destruct (unitMap _) as [n|]; [|done]. cbn [mbind option_bind].
  destruct (_ <? v0); [done|]. destruct (0 <? f); [destruct (_ <? _); [done|]|];
    intros [= <- <-]; lia.
Qed.

(** A fuel of the length of the string is enough: more changes nothing. *)
Lemma durationLoop_fuel n m d s :
  (String.length s ≤ n)%nat → (String.length s ≤ m)%nat →
  durationLoop n d s = durationLoop m d s.
Proof.
  revert m d s; induction n as [|n IH]; intros m d s Hn Hm.
  { by destruct s; simpl in *; [destruct m|lia]. }
  destruct s as [|a s]; [by destruct m|].
  destruct m as [|m]; [simpl in *; lia|]. cbn [durationLoop].
  destruct (durationTerm (String a s)) as [[v r]|] eqn:Ht; [|done].
  apply durationTerm_length in Ht. cbn [mbind option_bind].
  destruct (_ <? _); [done|]. apply IH; lia.
Qed.

Example parse_1h30m : ParseDuration "1h30m" = Some 5400000000000.
Proof. vm_compute. reflexivity. Qed.
Example parse_1_5s : ParseDuration "1.5s" = Some 1500000000.
Proof. vm_compute. reflexivity. Qed.
Example parse_bad : ParseDuration "5" = None.
Proof. vm_compute. reflexivity. Qed.
Example clock_ok : ParseClock "9:05:07" = Some (9, 5, 7).
Proof. vm_compute. reflexivity. Qed.

