(* ===== verification/GoFloat.v ===== *)
(** * Parsing floats

    [strconv.ParseFloat(s, 64)] of the Go standard library, which
    src/pkg/apis/ctrlmesh/utils/conv/faultconv.go uses for percentages: the
    literal syntax of [readFloat] and the correctly rounded value. *)

From Stdlib Require Import SpecFloat.
From S2P Require Import Prelude GoStrings GoTime.

Local Open Scope Z_scope.

Definition lower (a : ascii) : ascii :=
  let n := nat_of_ascii a in
  if ((65 <=? n) && (n <=? 90))%nat then ascii_of_nat (n + 32) else a.
Fixpoint lower_string (s : string) : string :=
  match s with EmptyString => EmptyString | String a s' => String (lower a) (lower_string s') end.

Definition digit_in (base : Z) (a : ascii) : option Z :=
  let n := Z.of_nat (nat_of_ascii (lower a)) in
  if is_digit a then Some (digit_val a)
  else if (base =? 16) && (97 <=? n) && (n <=? 102) then Some (n - 87)
  else None.

(** The mantissa: the integer of all digits, the number of digits after the
    period, whether a period and whether a digit was seen, and the rest.
    Underscores are checked apart. *)
Fixpoint readMantissa (base : Z) (m frac : Z) (dot digits : bool) (s : string)
    : Z * Z * bool * bool * string :=
  match s with
  | EmptyString => (m, frac, dot, digits, s)
  | String a s' =>
      if decide (a = "_"%char) then readMantissa base m frac dot digits s'
      else if decide (a = "."%char) then
        if dot then (m, frac, dot, digits, s) else readMantissa base m frac true digits s'
      else match digit_in base a with
           | Some d => readMantissa base (m * base + d) (if dot then frac + 1 else frac) dot true s'
           | None => (m, frac, dot, digits, s)
           end
  end.

(** The digits of an exponent: no longer grows from 10000 on. *)
Fixpoint readExponent (e : Z) (s : string) : Z * string :=
  match s with
  | EmptyString => (e, s)
  | String a s' =>
      if decide (a = "_"%char) then readExponent e s'
      else if is_digit a then readExponent (if e <? 10000 then e * 10 + digit_val a else e) s'
      else (e, s)
  end.

Definition sign (s : string) : bool * string :=
  match s with
  | String a s' => if decide (a = "-"%char) then (true, s') else if decide (a = "+"%char) then (false, s') else (false, s)
  | EmptyString => (false, s)
  end.

(** [underscoreOK]: an underscore stands between two digits, or between a base
    prefix and a digit.  [prev] is the kind of the previous character. *)
Inductive seen := Digit | Underscore | Other | Start.
Fixpoint underscores (hex : bool) (prev : seen) (s : string) : bool :=
  match s with
  | EmptyString => match prev with Underscore => false | _ => true end
  | String a s' =>
      match digit_in (if hex then 16 else 10) a with
      | Some _ => underscores hex Digit s'
      | None =>
          if decide (a = "_"%char) then
            match prev with Digit => underscores hex Underscore s' | _ => false end
          else match prev with Underscore => false | _ => underscores hex Other s' end
      end
  end.
Definition underscoreOK (s : string) : bool :=
  let '(_, s) := sign s in
  match s with
  | String a (String b s') =>
      if decide (a = "0"%char ∧ (lower b = "x"%char ∨ lower b = "b"%char ∨ lower b = "o"%char)) then underscores (bool_decide (lower b = "x"%char)) Digit s'
      else underscores false Start s
  | _ => underscores false Start s
  end.

Definition f64_decimal (neg : bool) (m e : Z) : spec_float :=
  let x := match m with
           | Zpos p =>
               if 0 <=? e then binary_normalize 53 1024 (m * 10 ^ e) 0 false
               else match 10 ^ (- e) with
                    | Zpos q => SFdiv 53 1024 (S754_finite false p 0) (S754_finite false q 0)
                    | _ => S754_nan
                    end
           | _ => S754_zero false
           end in
  if neg then SFopp x else x.
Definition f64_hex (neg : bool) (m e : Z) : spec_float :=
  let x := match m with Zpos _ => binary_normalize 53 1024 m e false | _ => S754_zero false end in
  if neg then SFopp x else x.

Definition special (s : string) : option spec_float :=
  let '(neg, r) := sign s in
  let r := lower_string r in
  if decide (r = "inf" ∨ r = "infinity") then Some (S754_infinity neg)
  else if decide (lower_string s = "nan") then Some S754_nan
  else None.

Definition numeral (s : string) : option spec_float :=
  let '(neg, r) := sign s in
  let '(hex, r) := match r with
                   | String a (String b (String c r')) =>
                       if decide (a = "0"%char ∧ lower b = "x"%char) then (true, String c r') else (false, r)
                   | _ => (false, r)
                   end in
  let base := if (hex : bool) then 16 else 10 in
  let '(m, frac, _, digits, r) := readMantissa base 0 0 false false r in
  if negb digits then None else
  let done e :=
    if negb (underscoreOK s) then None
    else let x := if hex then f64_hex neg m (e - 4 * frac) else f64_decimal neg m (e - frac) in
         match x with S754_infinity _ => None (* out of range *) | _ => Some x end in
  match r with
  | EmptyString => if hex then None else done 0
  | String a r =>
      if decide (lower a = (if hex then "p" else "e")%char) then
        let '(eneg, r) := sign r in
        match r with
        | String d _ =>
            if is_digit d then
              let '(e, r) := readExponent 0 r in
              if decide (r = EmptyString) then done (if (eneg : bool) then - e else e) else None
            else None
        | EmptyString => None
        end
      else None
  end.

(** [None] is the error: not a numeral, or out of range. *)
Definition ParseFloat (s : string) : option spec_float :=
  match special s with Some x => Some x | None => numeral s end.

(** ** Examples *)

Example ParseFloat_integer : ParseFloat "50" = Some (f64_of_Z 50).
Proof. reflexivity. Qed.
Example ParseFloat_half : ParseFloat "0.5" = Some (f64_div (f64_of_Z 1) (f64_of_Z 2)).
Proof. reflexivity. Qed.
Example ParseFloat_exponent : ParseFloat "-1.25e2" = Some (f64_of_Z (-125)).
Proof. reflexivity. Qed.
Example ParseFloat_tenth : ParseFloat "0.1" = Some (S754_finite false 7205759403792794 (-56)).
Proof. vm_compute. reflexivity. Qed.
Example ParseFloat_hex : ParseFloat "0x1p-2" = Some (f64_div (f64_of_Z 1) (f64_of_Z 4)).
Proof. reflexivity. Qed.
Example ParseFloat_underscores : ParseFloat "1_23.50_0_0e+1_2" = Some (f64_of_Z 123500000000000).
Proof. reflexivity. Qed.
Example ParseFloat_misplaced : ParseFloat "_1" = None ∧ ParseFloat "1__0" = None ∧ ParseFloat "1_" = None.
Proof. by vm_compute. Qed.
Example ParseFloat_syntax : ParseFloat "50%" = None ∧ ParseFloat "" = None ∧ ParseFloat "1e" = None ∧ ParseFloat "." = None.
Proof. by vm_compute. Qed.
Example ParseFloat_range : ParseFloat "1e999" = None ∧ ParseFloat "1e-999" = Some (S754_zero false).
Proof. by vm_compute. Qed.
