(* ===== verification/Named.v ===== *)
(** * Rules under qualified names

    Both traffic managers keep the rules of all configurations in flat maps
    keyed by ["configuration:rule"].  This file relates such a map to the map
    of configurations. *)

From S2P Require Import Prelude GoStrings.

(** ** Named rules of configurations

    Both stores are keyed by ["configuration:rule"].  [ins_all] and [del_all]
    are what registering and unregistering a configuration do to a map under
    such keys; [holds] says that a map has exactly the rules of the
    configurations. *)

Section named.
Context {A C : Type} (nm : A → string).

Definition ins_all (n : string) (l : list A) (m : gmap string A) : gmap string A :=
  fold_left (λ m x, <[key2 n (nm x) := x]> m) l m.
Definition del_all (n : string) (l : list A) (m : gmap string A) : gmap string A :=
  fold_left (λ m x, delete (key2 n (nm x)) m) l m.

Definition holds (get : C → list A) (m : gmap string A)
    (b : gmap string C) : Prop :=
  ∀ k x, m !! k = Some x ↔
    ∃ n cb, b !! n = Some cb ∧ x ∈ get cb ∧ k = key2 n (nm x).

Lemma del_all_lookup n l m k x :
  del_all n l m !! k = Some x ↔ m !! k = Some x ∧ ∀ y, y ∈ l → k ≠ key2 n (nm y).
Proof.
  unfold del_all. revert m; induction l as [|z l IH]; intros m; simpl; [set_solver|].
  rewrite IH, lookup_delete_Some. set_solver.
Qed.

Lemma key2_name_inj n (x y : A) : key2 n (nm x) = key2 n (nm y) → nm x = nm y.
Proof. unfold key2. intros Hk%app_inv_head_str. by injection Hk. Qed.

Lemma ins_all_lookup n l m k x :
  NoDup (nm <$> l) →
  ins_all n l m !! k = Some x ↔
  (x ∈ l ∧ k = key2 n (nm x)) ∨ (m !! k = Some x ∧ ∀ y, y ∈ l → k ≠ key2 n (nm y)).
Proof.
  unfold ins_all. revert m; induction l as [|z l IH]; intros m; simpl; [set_solver|].
  rewrite NoDup_cons. intros [Hz Hnd]. rewrite IH, lookup_insert by done.
  assert (Hzl : ∀ y, y ∈ l → key2 n (nm z) ≠ key2 n (nm y)).
  { intros y Hy Hk%key2_name_inj. apply Hz. rewrite Hk. by apply list_elem_of_fmap_2. }
  case_decide as Hk; [subst k|]; split.
  - intros [[Hx Hxk]|[Hx Hall]]; simplify_eq; [by left; set_solver|left; set_solver].
  - intros [[[->|Hx]%elem_of_cons Hxk]|[_ Hall]].
    + right. split; [done|]. intros y Hy. by apply Hzl.
    + by destruct (Hzl x Hx).
    + by destruct (Hall z); [set_solver|].
  - intros [[Hx Hxk]|[Hx Hall]]; [left; set_solver|right].
    split; [done|]. intros y [->|Hy]%elem_of_cons; auto.
  - intros [[[->|Hx]%elem_of_cons Hxk]|[Hx Hall]]; [done|by left|].
    right. split; [done|]. set_solver.
Qed.

(** Deleting more names than the configuration has rules is harmless: names
    of other configurations are never met. *)
Lemma holds_delete get m b n cb l :
  holds get m b → b !! n = Some cb → get cb ⊆ l →
  map_Forall (λ n' _, colon_free n' = true) b →
  holds get (del_all n l m) (delete n b).
Proof.
  intros Hh Hn Hsub Hcf k x. rewrite del_all_lookup, (Hh k x). split.
  - intros [(n' & cb' & Hn' & Hx & ->) Hall]. exists n', cb'.
    rewrite lookup_delete_ne; [done|]. intros <-. simplify_eq. by apply (Hall x); [apply Hsub|].
  - intros (n' & cb' & [Hne Hn']%lookup_delete_Some & Hx & ->). split; [by eauto|].
    intros y Hy [-> _]%key2_inj_l; [done|by eapply Hcf|by eapply Hcf].
Qed.

Lemma holds_insert get m b n cb :
  holds get m b → b !! n = None → colon_free n = true →
  map_Forall (λ n' _, colon_free n' = true) b → NoDup (nm <$> get cb) →
  holds get (ins_all n (get cb) m) (<[n := cb]> b).
Proof.
  intros Hh Hn Hcn Hcf Hnd k x. rewrite ins_all_lookup, (Hh k x) by done. split.
  - intros [[Hx ->]|[(n' & cb' & Hn' & Hx & ->) _]].
    + exists n, cb. by rewrite lookup_insert_eq.
    + exists n', cb'. rewrite lookup_insert_ne; [done|congruence].
  - intros (n' & cb' & [[<- <-]|[Hne Hn']]%lookup_insert_Some & Hx & ->); [by left|].
    right. split; [by eauto|]. intros y Hy [-> _]%key2_inj_l; [done|by eapply Hcf|done].
Qed.
End named.
