(* ===== verification/Http.v ===== *)
(** * HTTP vocabulary

    What the filters of the proxy use of [net/http], [net/url] and the request
    info of the API-server library, and the API errors of
    src/pkg/utils/errors.go. *)

From S2P Require Import Prelude GoStrings.

(** What [url.Parse] returns that the sources use. *)
Record URL := mkURL { Scheme : string; Host : string; Path : string }.
Class UrlParser := { url_Parse : string → option URL }.

(** The fields of [apirequest.RequestInfo] the sources read. *)
Record RequestInfo := mkRequestInfo {
  ri_IsResourceRequest : bool; ri_Path : string;
  ri_Namespace : string; ri_APIGroup : string; ri_APIVersion : string;
  ri_Resource : string; ri_Subresource : string; ri_Name : string; ri_Verb : string;
}.
(** A request for a core resource, for the examples. *)
Definition resourceRequest (namespace apiGroup resource verb : string) : RequestInfo :=
  mkRequestInfo true "/api" namespace apiGroup "v1" resource EmptyString EmptyString verb.

(** What a filter does with a request: hand it to the next handler, or answer
    with a status and a text. *)
Inductive reply := ServeNext | HttpError (code : Z) (msg : string).
#[export] Instance reply_eq_dec : EqDecision reply.
Proof. solve_decision. Defined.

Definition StatusOK : Z := 200.
(** A code of 1xx other than 101 is sent at once and is no answer yet: the
    status of the response is still to be written. *)
Definition informational (code : Z) : bool := (100 <=? code)%Z && (code <=? 199)%Z && bool_decide (code ≠ 101%Z).
#[global] Arguments informational : simpl never.
(** Whether [WriteHeader] of an [http.ResponseWriter] returns: once the header
    is sent the call is ignored; before that a code outside 100..999 panics. *)
Definition WriteHeader_ok (sent : bool) (code : Z) : bool := sent || ((100 <=? code) && (code <=? 999))%Z.
#[global] Arguments WriteHeader_ok : simpl never.
Lemma WriteHeader_ok_range sent code : (100 ≤ code ≤ 999)%Z → WriteHeader_ok sent code = true.
Proof. intros [H1%Z.leb_le H2%Z.leb_le]. unfold WriteHeader_ok. rewrite H1, H2. apply orb_true_r. Qed.
Lemma final_code code : (200 ≤ code)%Z → informational code = false.
Proof.
  intros Hc. unfold informational. destruct (Z.leb_spec code 199); [lia|]. by rewrite andb_false_r.
Qed.
Definition StatusExpectationFailed : Z := 417.
Definition StatusInternalServerError : Z := 500.

(** ** API errors *)

Record Status := mkStatus {
  s_Status : string; s_Code : Z; s_Reason : string; s_Message : string;
}.

(** [quote] is the [%q] of the formatting library. *)
Definition HttpToAPIError (quote : string → string) (code : Z) (verb serverMessage : string) : Status :=
  let '(st, reason, message) :=
    if decide (code = 200%Z) then ("Success", EmptyString, "code is 200")
    else if decide (code = 409%Z) then
      ("Failure", if decide (verb = "POST") then "AlreadyExists" else "Conflict",
       "the server reported a conflict")
    else if decide (code = 404%Z) then
      ("Failure", "NotFound", "the server could not find the requested resource")
    else if decide (code = 400%Z) then
      ("Failure", "BadRequest", "the server rejected our request for an unknown reason")
    else if decide (code = 401%Z) then
      ("Failure", "Unauthorized", "the server has asked for the client to provide credentials")
    else if decide (code = 403%Z) then ("Failure", "Forbidden", serverMessage)
    else if decide (code = 406%Z) then
      ("Failure", "NotAcceptable",
       if decide (serverMessage = EmptyString ∨ serverMessage = "unknown")
       then "the server was unable to respond with a content type that the client supports"
       else serverMessage)
    else if decide (code = 415%Z) then ("Failure", "UnsupportedMediaType", serverMessage)
    else if decide (code = 405%Z) then
      ("Failure", "MethodNotAllowed", "the server does not allow this method on the requested resource")
    else if decide (code = 422%Z) then
      ("Failure", "Invalid", "the server rejected our request due to an error in our request")
    else if decide (code = 503%Z) then
      ("Failure", "ServiceUnavailable", "the server is currently unable to handle the request")
    else if decide (code = 504%Z) then
      ("Failure", "Timeout", "the server was unable to return a response in the time allotted, but may still be processing the request")
    else if decide (code = 429%Z) then
      ("Failure", "TooManyRequests", "the server has received too many requests and has asked us to try again later")
    else if (500 <=? code)%Z then
      ("Failure", "InternalError",
       "an error on the server (" +:+ quote serverMessage +:+ ") has prevented the request from succeeding")
    else ("Failure", EmptyString, EmptyString) in
  mkStatus st (int32 code) reason ("FaultInjected, [" +:+ message +:+ "]").

Lemma HttpToAPIError_code quote code verb msg : s_Code (HttpToAPIError quote code verb msg) = int32 code.
Proof. unfold HttpToAPIError. by repeat case_match. Qed.
