(* ===== verification/BreakerTypes.v ===== *)
(** * Throttling messages and breaker state objects

    The messages of the throttling protocol
    (src/pkg/apis/ctrlmesh/proto/throttling.pb.go), the [state] object of
    src/pkg/proxy/circuitbreaker/store.go with its transitions, the interface
    of the token-bucket limiter of golang.org/x/time/rate, and the memory that
    holds the objects the Go code shares by pointer. *)

From S2P Require Import Prelude GoStrings GoTime.

(** ** Messages *)

Inductive BreakerState := OPENED | CLOSED.
Inductive TriggerPolicy :=
| TRIGGER_POLICY_NORMAL | TRIGGER_POLICY_LIMITER_ONLY
| TRIGGER_POLICY_FORCE_OPENED | TRIGGER_POLICY_FORCE_CLOSED.
Inductive RecoverType := RECOVER_POLICY_MANUAL | RECOVER_POLICY_SLEEPING_WINDOW.
Inductive ContentType := NORMAL | REGEXP.
Inductive InterceptType := INTERCEPT_WHITELIST | INTERCEPT_BLACKLIST.

(** The option of a config message; proto3 enums are open, so a message can
    carry a number without a name. *)
Inductive ConfigOption := DELETE | UPDATE | CHECK | RECOVER | OtherOption (n : Z).

#[export] Instance BreakerState_eq_dec : EqDecision BreakerState.
Proof. solve_decision. Defined.
#[export] Instance TriggerPolicy_eq_dec : EqDecision TriggerPolicy.
Proof. solve_decision. Defined.
#[export] Instance RecoverType_eq_dec : EqDecision RecoverType.
Proof. solve_decision. Defined.
#[export] Instance ContentType_eq_dec : EqDecision ContentType.
Proof. solve_decision. Defined.
#[export] Instance InterceptType_eq_dec : EqDecision InterceptType.
Proof. solve_decision. Defined.
#[export] Instance ConfigOption_eq_dec : EqDecision ConfigOption.
Proof. solve_decision. Defined.

Record Bucket := mkBucket {
  Burst : Z;          (* uint32 *)
  Interval : string;
  Limit : Z;          (* uint32 *)
}.
Record RecoverPolicy := mkRecoverPolicy {
  rp_Type : RecoverType;
  SleepingWindowSize : string;
}.
Record ResourceRule := mkResourceRule {
  ApiGroups : list string;
  Resources : list string;
  Verbs : list string;
  Namespaces : list string;
}.
Record RestRules := mkRestRules { Url : string; Method : string }.

(** Message-valued fields are pointers: [None] is nil. *)
Record RateLimiting := mkRateLimiting {
  rl_Name : string;
  rl_ResourceRules : list ResourceRule;
  rl_RestRules : list RestRules;
  rl_Bucket : option Bucket;
  rl_TriggerPolicy : TriggerPolicy;
  rl_RecoverPolicy : option RecoverPolicy;
  rl_ValidatePolicy : string;
  rl_Properties : gmap string string;
}.
Record TrafficInterceptRule := mkTrafficInterceptRule {
  ti_Name : string;
  ti_InterceptType : InterceptType;
  ti_ContentType : ContentType;
  ti_Contents : list string;
  ti_Methods : list string;
}.
Record CircuitBreaker := mkCircuitBreaker {
  cb_Option : ConfigOption;
  cb_TrafficInterceptRules : list TrafficInterceptRule;
  cb_RateLimitings : list RateLimiting;
  cb_ConfigHash : string;
  cb_Name : string;
}.
Record LimitingSnapshot := mkLimitingSnapshot {
  ls_LimitingName : string;
  ls_State : BreakerState;
  ls_RecoverTime : option Z;
  ls_LastTransitionTime : option Z;
}.
Record ConfigResp := mkConfigResp {
  Success : bool;
  Message : string;
  LimitingSnapshots : list LimitingSnapshot;
}.

#[export] Instance Bucket_eq_dec : EqDecision Bucket.
Proof. solve_decision. Defined.
#[export] Instance ResourceRule_eq_dec : EqDecision ResourceRule.
Proof. solve_decision. Defined.
#[export] Instance RestRules_eq_dec : EqDecision RestRules.
Proof. solve_decision. Defined.
#[export] Instance RecoverPolicy_eq_dec : EqDecision RecoverPolicy.
Proof. solve_decision. Defined.
#[export] Instance RateLimiting_eq_dec : EqDecision RateLimiting.
Proof. solve_decision. Defined.

(** ** The breaker state object *)

Record state := mkState {
  st_key : string;
  st_state : BreakerState;
  st_lastTransitionTime : option Z;
  st_recoverAt : option Z;
}.

(** [transitionTo]: whether the state changed, and the object afterwards. *)
Definition transitionTo (s : state) (newStatus : BreakerState) (t : Z) : bool * state :=
  if decide (st_state s ≠ newStatus) then
    (true, {| st_key := st_key s; st_state := newStatus;
              st_lastTransitionTime := Some t; st_recoverAt := st_recoverAt s |})
  else (false, s).

Definition set_recoverAt (s : state) (r : option Z) : state :=
  {| st_key := st_key s; st_state := st_state s;
     st_lastTransitionTime := st_lastTransitionTime s; st_recoverAt := r |}.

(** [tm] is the reading of [metav1.Now()] the method takes. *)
Definition triggerBreaker (tm : Z) (s : state) : state :=
  let '(changed, s') := transitionTo s OPENED tm in
  if changed then set_recoverAt s' None else s'.

(** [tm2] is the second reading, taken only when the state changes. *)
Definition triggerBreakerWithTimeWindow (tm tm2 windowSize : Z) (s : state) : state :=
  let '(changed, s') := transitionTo s OPENED tm in
  if changed then set_recoverAt s' (Some (tm2 + windowSize)%Z) else s'.

Definition recoverBreaker (tm : Z) (s : state) : state :=
  let '(changed, s') := transitionTo s CLOSED tm in
  if changed then set_recoverAt s' None else s'.

Definition read (s : state) : BreakerState * option Z * option Z :=
  (st_state s, st_lastTransitionTime s, st_recoverAt s).

(** ** The token bucket of golang.org/x/time/rate

    A parameter of the model: a rate, a limiter, and [AllowN], which reports
    whether [n] events may happen at a time and changes the limiter. *)

Class RateLimiter := {
  rate : Type;
  limiter : Type;
  Every : Z → rate;
  NewLimiter : rate → Z → limiter;
  AllowN : limiter → Z → Z → bool * limiter;
}.

(** The successive readings of the wall clock in a run. *)
Class Clock := { clock : nat → Z }.

(** A concrete bucket and clock, for evaluation: a limiter is its number of
    tokens, never refilled; each reading of the clock is one tick later. *)
Definition token_limiter : RateLimiter := {|
  rate := Z; limiter := Z; Every := id; NewLimiter := λ _ b, b;
  AllowN := λ l _ n, if (n <=? l)%Z then (true, (l - n)%Z) else (false, l) |}.
Definition tick_clock : Clock := {| clock := Z.of_nat |}.

(** ** Memory *)

Abbreviation loc := nat.

Record mem `{RateLimiter} := mkMem {
  m_states : gmap loc state;
  m_limiters : gmap loc limiter;
  m_next : loc;
  m_ticks : nat;
}.
Arguments mkMem {_} _ _ _ _.

Section memory.
Context `{RateLimiter} `{Clock}.

Definition mem0 : mem := mkMem ∅ ∅ 0 0.

(** [time.Now()]: the next reading. *)
Definition Now (m : mem) : Z * mem :=
  (clock (m_ticks m),
   mkMem (m_states m) (m_limiters m) (m_next m) (S (m_ticks m))).

Definition alloc_state (s : state) (m : mem) : loc * mem :=
  (m_next m,
   mkMem (<[m_next m := s]> (m_states m)) (m_limiters m) (S (m_next m)) (m_ticks m)).
Definition alloc_limiter (l : limiter) (m : mem) : loc * mem :=
  (m_next m,
   mkMem (m_states m) (<[m_next m := l]> (m_limiters m)) (S (m_next m)) (m_ticks m)).

Definition store_state (p : loc) (s : state) (m : mem) : mem :=
  mkMem (<[p := s]> (m_states m)) (m_limiters m) (m_next m) (m_ticks m).
Definition store_limiter (p : loc) (l : limiter) (m : mem) : mem :=
  mkMem (m_states m) (<[p := l]> (m_limiters m)) (m_next m) (m_ticks m).

(** Method calls through a pointer to a state object: a nil or dangling
    pointer panics. *)
Definition read_at (p : option loc) (m : mem) : outcome state :=
  l ← deref p; deref (m_states m !! l).

Definition triggerBreaker_at (p : option loc) (m : mem) : outcome mem :=
  l ← deref p; s ← deref (m_states m !! l);
  let '(tm, m) := Now m in
  Returns (store_state l (triggerBreaker tm s) m).

Definition triggerBreakerWithTimeWindow_at (p : option loc) (d : Z) (m : mem) : outcome mem :=
  l ← deref p; s ← deref (m_states m !! l);
  let '(tm, m) := Now m in
  let '(tm2, m) := if decide (st_state s ≠ OPENED) then Now m else (tm, m) in
  Returns (store_state l (triggerBreakerWithTimeWindow tm tm2 d s) m).

Definition recoverBreaker_at (p : option loc) (m : mem) : outcome mem :=
  l ← deref p; s ← deref (m_states m !! l);
  let '(tm, m) := Now m in
  Returns (store_state l (recoverBreaker tm s) m).

(** [limiter.Allow()], that is [AllowN(time.Now(), 1)]. *)
Definition Allow_at (p : option loc) (m : mem) : outcome (bool * mem) :=
  l ← deref p; lm ← deref (m_limiters m !! l);
  let '(tm, m) := Now m in
  let '(ok, lm') := AllowN lm tm 1 in
  Returns (ok, store_limiter l lm' m).
End memory.

(** ** Lemmas on the state object *)

(** An object is consistent when a recovery time is set only while open. *)
Definition state_ok (s : state) : Prop :=
  st_state s = CLOSED → st_recoverAt s = None.

Lemma triggerBreaker_ok tm s : state_ok s → state_ok (triggerBreaker tm s).
Proof. unfold state_ok, triggerBreaker, transitionTo. destruct s as [? [] ? ?]; simpl; naive_solver. Qed.

Lemma triggerBreakerWithTimeWindow_ok tm tm2 d s :
  state_ok s → state_ok (triggerBreakerWithTimeWindow tm tm2 d s).
Proof.
  unfold state_ok, triggerBreakerWithTimeWindow, transitionTo.
  destruct s as [? [] ? ?]; simpl; naive_solver.
Qed.

Lemma recoverBreaker_ok tm s : state_ok s → state_ok (recoverBreaker tm s).
Proof. unfold state_ok, recoverBreaker, transitionTo. destruct s as [? [] ? ?]; simpl; naive_solver. Qed.

Lemma triggerBreaker_key tm s : st_key (triggerBreaker tm s) = st_key s.
Proof. unfold triggerBreaker, transitionTo. by destruct (decide _). Qed.
Lemma triggerBreakerWithTimeWindow_key tm tm2 d s :
  st_key (triggerBreakerWithTimeWindow tm tm2 d s) = st_key s.
Proof. unfold triggerBreakerWithTimeWindow, transitionTo. by destruct (decide _). Qed.
Lemma recoverBreaker_key tm s : st_key (recoverBreaker tm s) = st_key s.
Proof. unfold recoverBreaker, transitionTo. by destruct (decide _). Qed.

Lemma triggerBreaker_state tm s : st_state (triggerBreaker tm s) = OPENED.
Proof. unfold triggerBreaker, transitionTo. by destruct s as [? [] ? ?]. Qed.
Lemma triggerBreakerWithTimeWindow_state tm tm2 d s :
  st_state (triggerBreakerWithTimeWindow tm tm2 d s) = OPENED.
Proof. unfold triggerBreakerWithTimeWindow, transitionTo. by destruct s as [? [] ? ?]. Qed.
Lemma recoverBreaker_state tm s : st_state (recoverBreaker tm s) = CLOSED.
Proof. unfold recoverBreaker, transitionTo. by destruct s as [? [] ? ?]. Qed.

#[export] Hint Rewrite triggerBreaker_key triggerBreakerWithTimeWindow_key recoverBreaker_key
  triggerBreaker_state triggerBreakerWithTimeWindow_state recoverBreaker_state : mesh_rw.
#[export] Hint Resolve triggerBreaker_ok triggerBreakerWithTimeWindow_ok recoverBreaker_ok : mesh.

(** ** Lemmas on method calls *)

Section calls.
Context `{RateLimiter} `{Clock}.

(** The call replaced the object at [p], [st] by [st'], and did nothing else
    (but read the clock). *)
Record touches (p : loc) (m m' : mem) (st st' : state) : Prop := {
  t_before : m_states m !! p = Some st;
  t_after : m_states m' = <[p := st']> (m_states m);
  t_limiters : m_limiters m' = m_limiters m;
  t_next : m_next m' = m_next m;
}.

Lemma triggerBreaker_at_spec p m st :
  m_states m !! p = Some st →
  ∃ m' tm, triggerBreaker_at (Some p) m = Returns m' ∧ touches p m m' st (triggerBreaker tm st).
Proof. intros Hp. unfold triggerBreaker_at. simpl. rewrite Hp. by eexists _, _. Qed.

Lemma recoverBreaker_at_spec p m st :
  m_states m !! p = Some st →
  ∃ m' tm, recoverBreaker_at (Some p) m = Returns m' ∧ touches p m m' st (recoverBreaker tm st).
Proof. intros Hp. unfold recoverBreaker_at. simpl. rewrite Hp. by eexists _, _. Qed.

Lemma triggerBreakerWithTimeWindow_at_spec p d m st :
  m_states m !! p = Some st →
  ∃ m' tm tm2, triggerBreakerWithTimeWindow_at (Some p) d m = Returns m' ∧
    touches p m m' st (triggerBreakerWithTimeWindow tm tm2 d st).
Proof.
  intros Hp. unfold triggerBreakerWithTimeWindow_at. simpl. rewrite Hp. simpl.
  case_decide; by eexists _, _, _.
Qed.

Lemma Allow_at_spec p m lm :
  m_limiters m !! p = Some lm →
  ∃ ok lm' m', Allow_at (Some p) m = Returns (ok, m') ∧
    AllowN lm (clock (m_ticks m)) 1 = (ok, lm') ∧
    m_states m' = m_states m ∧ m_limiters m' = <[p := lm']> (m_limiters m) ∧
    m_next m' = m_next m ∧ m_ticks m' = S (m_ticks m).
Proof.
  intros Hp. unfold Allow_at. simpl. rewrite Hp. simpl.
  destruct (AllowN lm (clock (m_ticks m)) 1) as [ok lm'] eqn:E. by eexists _, _, _.
Qed.

(** A call through a pointer returns only when the pointer is valid. *)
Lemma read_at_Some p m st : m_states m !! p = Some st → read_at (Some p) m = Returns st.
Proof. intros Hp. unfold read_at. simpl. by rewrite Hp. Qed.

Lemma triggerBreaker_at_inv p m m' :
  triggerBreaker_at (Some p) m = Returns m' →
  ∃ st tm, touches p m m' st (triggerBreaker tm st).
Proof.
  destruct (m_states m !! p) as [st|] eqn:Hp.
  - destruct (triggerBreaker_at_spec p m st Hp) as (? & ? & -> & ?). intros [= <-]. eauto.
  - unfold triggerBreaker_at. simpl. by rewrite Hp.
Qed.

Lemma recoverBreaker_at_inv p m m' :
  recoverBreaker_at (Some p) m = Returns m' →
  ∃ st tm, touches p m m' st (recoverBreaker tm st).
Proof.
  destruct (m_states m !! p) as [st|] eqn:Hp.
  - destruct (recoverBreaker_at_spec p m st Hp) as (? & ? & -> & ?). intros [= <-]. eauto.
  - unfold recoverBreaker_at. simpl. by rewrite Hp.
Qed.

Lemma triggerBreakerWithTimeWindow_at_inv p d m m' :
  triggerBreakerWithTimeWindow_at (Some p) d m = Returns m' →
  ∃ st tm tm2, touches p m m' st (triggerBreakerWithTimeWindow tm tm2 d st).
Proof.
  destruct (m_states m !! p) as [st|] eqn:Hp.
  - destruct (triggerBreakerWithTimeWindow_at_spec p d m st Hp) as (? & ? & ? & -> & ?).
    intros [= <-]. eauto.
  - unfold triggerBreakerWithTimeWindow_at. simpl. by rewrite Hp.
Qed.
End calls.
