(* ===== verification/LimiterStore.v ===== *)
(** * The limiter store

    [store] of src/pkg/proxy/circuitbreaker/store.go: rules, limiters and
    breaker states by key, and the two inverted indices (Kubernetes resource
    requests, REST requests) by which a request finds its rules.  The
    invariant [store_wf] says that the indices are exactly the inverse of the
    rules' index functions and that every pointer in the store is valid. *)

From S2P Require Import Prelude GoStrings GoTime BreakerTypes.

(** ** Keys and index functions *)

Definition IndexResource : string := "resource".
Definition IndexRest : string := "rest".

Definition indexForResource (namespace apiGroup resource verb : string) : string :=
  key4 namespace apiGroup resource verb.
Definition indexForRest (URL method : string) : string := key2 URL method.

Definition indexFuncForResource (limiting : RateLimiting) : list string :=
  rule ← rl_ResourceRules limiting;
  namespace ← Namespaces rule;
  apiGroup ← ApiGroups rule;
  resource ← Resources rule;
  verb ← Verbs rule;
  [indexForResource namespace apiGroup resource verb].

Definition indexFuncForRest (limiting : RateLimiting) : list string :=
  rest ← rl_RestRules limiting;
  [indexForRest (Url rest) (Method rest)].

Definition indexFunctions : list (string * (RateLimiting → list string)) :=
  [(IndexResource, indexFuncForResource); (IndexRest, indexFuncForRest)].

Definition bucketEquals (oldOne newOne : Bucket) : bool :=
  bool_decide (Interval oldOne = Interval newOne)
  && (Limit oldOne =? Limit newOne)%Z && (Burst oldOne =? Burst newOne)%Z.

Definition slicesFilterWildcard (slices : list string) : list string :=
  if existsb (λ s, bool_decide (s = "*")) slices then ["*"] else slices.

(** ** Inverted indices *)

Abbreviation index := (gmap string (gset string)).

Definition idx_get (idx : index) (v : string) : gset string := default ∅ (idx !! v).

(** The inner loop of [updateIndices]: insert [key] under each value. *)
Definition insertKey (key : string) (idx : index) (vals : list string) : index :=
  fold_left (λ idx v, <[v := {[key]} ∪ idx_get idx v]> idx) vals idx.

(** The inner loop of [deleteFromIndices]; an emptied set is dropped. *)
Definition deleteKey (key : string) (idx : index) (vals : list string) : index :=
  fold_left (λ idx v,
    match idx !! v with
    | None => idx
    | Some set =>
        let set' := set ∖ {[key]} in
        if decide (set' = ∅) then delete v idx else <[v := set']> idx
    end) vals idx.

Abbreviation indices_t := (gmap string index).

Definition deleteFromIndices (ix : indices_t) (oldOne : RateLimiting) (key : string) : indices_t :=
  fold_left (λ ix '(name, indexFunc),
    match ix !! name with
    | None => ix
    | Some idx => <[name := deleteKey key idx (indexFunc oldOne)]> ix
    end) indexFunctions ix.

Definition updateIndices (ix : indices_t) (oldOne : option RateLimiting)
    (newOne : RateLimiting) (key : string) : indices_t :=
  let ix := match oldOne with Some o => deleteFromIndices ix o key | None => ix end in
  fold_left (λ ix '(name, indexFunc),
    <[name := insertKey key (default ∅ (ix !! name)) (indexFunc newOne)]> ix)
    indexFunctions ix.

(** ** The store *)

Record store := mkStore {
  limiters : gmap string loc;
  rules : gmap string RateLimiting;
  states : gmap string loc;
  indices : indices_t;
}.

Definition newLimiterStore : store := mkStore ∅ ∅ ∅ ∅.

Section ops.
Context `{RateLimiter} `{Clock}.

(** [rateLimiter]: the bucket's interval is divided among its tokens; the
    [rt.AllowN(time.Now(), 0)] at the end fixes the limiter's origin. *)
Definition rateLimiter (bucket : option Bucket) (m : mem) : outcome (loc * mem) :=
  b ← deref bucket;
  let interval := ParseDuration_or0 (Interval b) in
  let r := if (Limit b =? 0)%Z then Every (2 ^ 63 - 1)%Z
           else Every (Z.quot interval (Limit b)) in
  let '(tm, m) := Now m in
  let '(_, rt) := AllowN (NewLimiter r (Burst b)) tm 0 in
  Returns (alloc_limiter rt m).

Definition createOrUpdateRule (key : string) (limiting : RateLimiting)
    (snapshot : LimitingSnapshot) (s : store) (m : mem) : outcome (store * mem) :=
  match rules s !! key with
  | None =>
      '(lp, m) ← rateLimiter (rl_Bucket limiting) m;
      let '(sp, m) := alloc_state {| st_key := key; st_state := ls_State snapshot;
                         st_lastTransitionTime := ls_LastTransitionTime snapshot;
                         st_recoverAt := None |} m in
      Returns (mkStore (<[key := lp]> (limiters s)) (<[key := limiting]> (rules s))
                 (<[key := sp]> (states s)) (updateIndices (indices s) None limiting key), m)
  | Some oldOne =>
      let s' := mkStore (limiters s) (<[key := limiting]> (rules s)) (states s)
                  (updateIndices (indices s) (Some oldOne) limiting key) in
      ob ← deref (rl_Bucket oldOne);
      nb ← deref (rl_Bucket limiting);
      if bucketEquals ob nb then Returns (s', m)
      else '(lp, m) ← rateLimiter (rl_Bucket limiting) m;
           Returns (mkStore (<[key := lp]> (limiters s')) (rules s') (states s') (indices s'), m)
  end.

Definition deleteRule (key : string) (s : store) : store :=
  match rules s !! key with
  | Some obj =>
      mkStore (delete key (limiters s)) (delete key (rules s)) (delete key (states s))
        (deleteFromIndices (indices s) obj key)
  | None => s
  end.

Definition byKey (key : string) (s : store) : option RateLimiting * option loc * option loc :=
  (rules s !! key, limiters s !! key, states s !! key).
End ops.

(** [s.indices[indexName][indexedValue]]. *)
Definition index_lookup (s : store) (indexName indexedValue : string) : gset string :=
  idx_get (default ∅ (indices s !! indexName)) indexedValue.

Section range_ops.
Context `{RangeOrder}.

(** [byIndex]; the three parallel slices as one list of triples. *)
Definition byIndex (indexName indexedValue : string) (s : store)
    : list (option RateLimiting * option loc * option loc) :=
  if existsb (λ p, bool_decide (p.1 = indexName)) indexFunctions then
    (λ key, byKey key s) <$> range_set (index_lookup s indexName indexedValue)
  else [].

(** [iterate]: calls [f] on every rule key, in map order. *)
Definition iterate {S} (f : S → string → S) (s : store) (a : S) : S :=
  fold_left f (range_keys (rules s)) a.
End range_ops.

(** ** Index lemmas *)

Lemma insertKey_get key vals idx v k :
  k ∈ idx_get (insertKey key idx vals) v ↔
  k ∈ idx_get idx v ∨ (k = key ∧ v ∈ vals).
Proof.
  revert idx; induction vals as [|w vals IH]; intros idx; [set_solver|].
  unfold insertKey in *. simpl. rewrite IH. unfold idx_get. rewrite lookup_insert.
  case_decide; set_solver.
Qed.

Lemma deleteKey_get key vals idx v k :
  k ∈ idx_get (deleteKey key idx vals) v ↔
  k ∈ idx_get idx v ∧ ¬ (k = key ∧ v ∈ vals).
Proof.
  revert idx; induction vals as [|w vals IH]; intros idx; [set_solver|].
  unfold deleteKey in *. simpl. rewrite IH. unfold idx_get.
  destruct (idx !! w) as [set|] eqn:Hw.
  - destruct (decide (set ∖ {[key]} = ∅)) as [He|He].
    + rewrite lookup_delete. case_decide as Hv; [subst; rewrite Hw|]; set_solver.
    + rewrite lookup_insert. case_decide as Hv; [subst; rewrite Hw|]; set_solver.
  - destruct (decide (v = w)) as [->|]; [rewrite Hw|]; set_solver.
Qed.

(** No value is mapped to an empty set. *)
Definition idx_ok (idx : index) : Prop := map_Forall (λ _ set, set ≠ ∅) idx.

Lemma insertKey_ok key vals idx : idx_ok idx → idx_ok (insertKey key idx vals).
Proof.
  intros Hok. apply (fold_left_inv idx_ok); [done|].
  intros idx' v _ H'. apply map_Forall_insert_2; [set_solver|done].
Qed.

Lemma deleteKey_ok key vals idx : idx_ok idx → idx_ok (deleteKey key idx vals).
Proof.
  intros Hok. apply (fold_left_inv idx_ok); [done|].
  intros idx' v _ H'. simpl. destruct (idx' !! v) as [set|]; [|done].
  case_decide; [by apply map_Forall_delete | by apply map_Forall_insert_2].
Qed.

Definition get_index (ix : indices_t) (name v : string) : gset string :=
  idx_get (default ∅ (ix !! name)) v.

Lemma updateIndices_new_get ix newOne key name f v k :
  (name, f) ∈ indexFunctions →
  k ∈ get_index (updateIndices ix None newOne key) name v ↔
  k ∈ get_index ix name v ∨ (k = key ∧ v ∈ f newOne).
Proof.
  intros Hin. unfold updateIndices, get_index. cbn [indexFunctions fold_left].
  assert (Hne : IndexResource ≠ IndexRest) by done.
  unfold indexFunctions in Hin. rewrite !elem_of_cons in Hin.
  destruct Hin as [[= -> ->]|[[= -> ->]|Hn]]; [| |by apply not_elem_of_nil in Hn].
  - rewrite lookup_insert_ne by done. rewrite lookup_insert_eq. apply insertKey_get.
  - rewrite lookup_insert_eq. rewrite lookup_insert_ne by done. apply insertKey_get.
Qed.

Lemma deleteFromIndices_get ix oldOne key name f v k :
  (name, f) ∈ indexFunctions →
  k ∈ get_index (deleteFromIndices ix oldOne key) name v ↔
  k ∈ get_index ix name v ∧ ¬ (k = key ∧ v ∈ f oldOne).
Proof.
  intros Hin. unfold deleteFromIndices, get_index. cbn [indexFunctions fold_left].
  assert (Hne : IndexResource ≠ IndexRest) by done.
  unfold indexFunctions in Hin. rewrite !elem_of_cons in Hin.
  destruct Hin as [[= -> ->]|[[= -> ->]|Hn]]; [| |by apply not_elem_of_nil in Hn];
    destruct (ix !! IndexResource) as [i1|] eqn:E1; simplify_map_eq;
    destruct (ix !! IndexRest) as [i2|] eqn:E2; simplify_map_eq;
    rewrite ?deleteKey_get; unfold idx_get; set_solver.
Qed.

Lemma updateIndices_get ix oldOne newOne key name f v k :
  (name, f) ∈ indexFunctions →
  k ∈ get_index (updateIndices ix (Some oldOne) newOne key) name v ↔
  (k ∈ get_index ix name v ∧ ¬ (k = key ∧ v ∈ f oldOne)) ∨ (k = key ∧ v ∈ f newOne).
Proof.
  intros Hin.
  change (updateIndices ix (Some oldOne) newOne key)
    with (updateIndices (deleteFromIndices ix oldOne key) None newOne key).
  by rewrite (updateIndices_new_get _ _ _ _ f), (deleteFromIndices_get _ _ _ _ f).
Qed.

Definition indices_ok (ix : indices_t) : Prop := map_Forall (λ _ idx, idx_ok idx) ix.

Lemma deleteFromIndices_ok ix o key : indices_ok ix → indices_ok (deleteFromIndices ix o key).
Proof.
  intros Hok. apply (fold_left_inv indices_ok); [done|]. intros ix' [name f] _ H'.
  simpl. destruct (ix' !! name) as [idx|] eqn:E; [|done].
  apply map_Forall_insert_2; [|done]. apply deleteKey_ok. by apply (H' name).
Qed.

Lemma updateIndices_ok ix o n key : indices_ok ix → indices_ok (updateIndices ix o n key).
Proof.
  intros Hok. unfold updateIndices. apply (fold_left_inv indices_ok).
  { destruct o; [by apply deleteFromIndices_ok|done]. }
  intros ix' [name f] _ H'. apply map_Forall_insert_2; [|done].
  apply insertKey_ok. destruct (ix' !! name) as [idx|] eqn:E; [by apply (H' name)|].
  apply map_Forall_empty.
Qed.

(** ** The invariant *)

Section invariant.
Context `{RateLimiter} `{Clock}.

Record mem_wf (m : mem) : Prop := {
  wf_sfresh : ∀ l, m_next m ≤ l → m_states m !! l = None;
  wf_lfresh : ∀ l, m_next m ≤ l → m_limiters m !! l = None;
}.

Record store_wf (s : store) (m : mem) : Prop := {
  wf_mem : mem_wf m;
  wf_limiters : dom (limiters s) = dom (rules s);
  wf_states : dom (states s) = dom (rules s);
  wf_lptr : map_Forall (λ _ l, is_Some (m_limiters m !! l)) (limiters s);
  wf_sptr : map_Forall (λ k l, ∃ st,
              m_states m !! l = Some st ∧ st_key st = k ∧ state_ok st) (states s);
  wf_linj : ∀ k1 k2 l, limiters s !! k1 = Some l → limiters s !! k2 = Some l → k1 = k2;
  wf_bucket : map_Forall (λ _ r, is_Some (rl_Bucket r)) (rules s);
  wf_index : ∀ name f, (name, f) ∈ indexFunctions → ∀ v k,
               k ∈ index_lookup s name v ↔ ∃ r, rules s !! k = Some r ∧ v ∈ f r;
  wf_idx_ok : indices_ok (indices s);
}.

(** [m'] has every state object of [m], unchanged, and any new object is
    consistent. *)
Definition states_kept (m m' : mem) : Prop :=
  m_states m ⊆ m_states m' ∧
  (map_Forall (λ _, state_ok) (m_states m) → map_Forall (λ _, state_ok) (m_states m')).

Lemma states_kept_same m m' : m_states m' = m_states m → states_kept m m'.
Proof. intros Heq. unfold states_kept. by rewrite Heq. Qed.

Lemma wf_bound_l s m k l : store_wf s m → limiters s !! k = Some l → l < m_next m.
Proof.
  intros Hwf Hl. destruct (decide (m_next m ≤ l)) as [Hle|]; [|lia].
  apply (wf_lfresh _ (wf_mem _ _ Hwf)) in Hle.
  destruct (wf_lptr _ _ Hwf k l Hl) as [? ?]. congruence.
Qed.

Lemma wf_bound_s s m k l : store_wf s m → states s !! k = Some l → l < m_next m.
Proof.
  intros Hwf Hl. destruct (decide (m_next m ≤ l)) as [Hle|]; [|lia].
  apply (wf_sfresh _ (wf_mem _ _ Hwf)) in Hle.
  destruct (wf_sptr _ _ Hwf k l Hl) as (? & ? & _). congruence.
Qed.

Lemma newLimiterStore_wf : store_wf newLimiterStore mem0.
Proof.
  split; simpl; try done; try apply map_Forall_empty.
  intros name f Hin v k. unfold index_lookup. simpl. rewrite lookup_empty. simpl.
  unfold idx_get. rewrite lookup_empty. set_solver.
Qed.

(** [rateLimiter] returns a fresh limiter object and leaves the rest alone. *)
Lemma rateLimiter_spec b m :
  ∃ rt, rateLimiter (Some b) m =
    Returns (m_next m, mkMem (m_states m) (<[m_next m := rt]> (m_limiters m))
                         (S (m_next m)) (S (m_ticks m))).
Proof.
  unfold rateLimiter. simpl.
  destruct (AllowN _ _ _) as [ok rt]. by exists rt.
Qed.

(** The memory part of the invariant survives allocation and clock readings. *)
Lemma store_wf_extend s m m' :
  store_wf s m → mem_wf m' → states_kept m m' →
  (∀ l, is_Some (m_limiters m !! l) → is_Some (m_limiters m' !! l)) →
  store_wf s m'.
Proof.
  intros Hwf Hm [Hs _] Hl. destruct Hwf. split; try done.
  - intros k l Hk. by eapply Hl, wf_lptr0.
  - intros k l Hk. destruct (wf_sptr0 k l Hk) as (st & ? & ? & ?).
    exists st. split; [by eapply lookup_weaken|done].
Qed.

(** ... and method calls on state and limiter objects. *)
Lemma store_wf_touches s m m' p st st' :
  store_wf s m → touches p m m' st st' → st_key st' = st_key st →
  (state_ok st → state_ok st') → store_wf s m'.
Proof.
  intros Hwf [Hb Ha Hl Hn] Hk Hok. destruct Hwf. split; try done; rewrite ?Hl; try done.
  - destruct wf_mem0 as [Hsf Hlf]. split; rewrite ?Ha, ?Hl, Hn; [|done].
    intros q Hle. rewrite lookup_insert_ne; [auto|]. intros <-. rewrite Hsf in Hb; [done|lia].
  - intros k q Hq. rewrite Ha, lookup_insert.
    destruct (wf_sptr0 k q Hq) as (s0 & ? & ? & ?). case_decide; [subst|by eauto].
    simplify_eq. exists st'. auto.
Qed.

Lemma store_wf_limiter s m m' p l l' :
  store_wf s m → m_limiters m !! p = Some l → m_limiters m' = <[p := l']> (m_limiters m) →
  m_states m' = m_states m → m_next m' = m_next m → store_wf s m'.
Proof.
  intros Hwf Hp Hl Hs Hn. apply (store_wf_extend s m); [done| |by apply states_kept_same|].
  - destruct (wf_mem _ _ Hwf) as [Hsf Hlf]. split; rewrite ?Hs, ?Hl, Hn; [done|].
    intros q Hle. rewrite lookup_insert_ne; [auto|]. intros <-. rewrite Hlf in Hp; [done|lia].
  - intros q Hq. rewrite Hl, lookup_insert_is_Some. destruct (decide (p = q)); auto.
Qed.

(** [ix] is the index of [s] with the entries of [key] replaced by those of
    [limiting]. *)
Definition reindexed (s : store) (ix : indices_t) (key : string) (limiting : RateLimiting) : Prop :=
  indices_ok ix ∧
  ∀ name f, (name, f) ∈ indexFunctions → ∀ v k,
    k ∈ get_index ix name v ↔
    (k ≠ key ∧ k ∈ get_index (indices s) name v) ∨ (k = key ∧ v ∈ f limiting).

Lemma updateIndices_reindexed s m key limiting :
  store_wf s m →
  reindexed s (updateIndices (indices s) (rules s !! key) limiting key) key limiting.
Proof.
  intros Hwf. split; [by apply updateIndices_ok, (wf_idx_ok _ _ Hwf)|].
  intros name f Hin v k. pose proof (wf_index _ _ Hwf name f Hin v k) as Hi.
  change (index_lookup s name v) with (get_index (indices s) name v) in Hi.
  destruct (rules s !! key) as [o|] eqn:Hk.
  - rewrite (updateIndices_get _ _ _ _ _ f) by done. naive_solver.
  - rewrite (updateIndices_new_get _ _ _ _ f) by done. naive_solver.
Qed.

(** Installing a rule with valid limiter and state pointers keeps the
    invariant; both branches of [createOrUpdateRule] are instances. *)
Lemma store_wf_install s m m' key limiting lp sp ix :
  store_wf s m → mem_wf m' → states_kept m m' →
  (∀ l, is_Some (m_limiters m !! l) → is_Some (m_limiters m' !! l)) →
  is_Some (rl_Bucket limiting) →
  is_Some (m_limiters m' !! lp) →
  (∀ k, limiters s !! k = Some lp → k = key) →
  (∃ st, m_states m' !! sp = Some st ∧ st_key st = key ∧ state_ok st) →
  reindexed s ix key limiting →
  store_wf (mkStore (<[key := lp]> (limiters s)) (<[key := limiting]> (rules s))
              (<[key := sp]> (states s)) ix) m'.
Proof.
  intros Hwf Hm Hkept Hlk Hb Hlp Huniq Hsp [Hixok Hix].
  pose proof (store_wf_extend _ _ _ Hwf Hm Hkept Hlk) as Hwf'.
  split; simpl; try done.
  - by rewrite !dom_insert_L, (wf_limiters _ _ Hwf).
  - by rewrite !dom_insert_L, (wf_states _ _ Hwf).
  - apply map_Forall_insert_2; [done|apply (wf_lptr _ _ Hwf')].
  - apply map_Forall_insert_2; [done|apply (wf_sptr _ _ Hwf')].
  - intros k1 k2 l. rewrite !lookup_insert.
    do 2 case_decide; subst; intros; simplify_eq; auto.
    + symmetry. auto.
    + by eapply (wf_linj _ _ Hwf).
  - apply map_Forall_insert_2; [done|apply (wf_bucket _ _ Hwf)].
  - intros name f Hin v k. unfold index_lookup. simpl.
    pose proof (wf_index _ _ Hwf name f Hin v k) as Hi.
    pose proof (Hix name f Hin v k) as Hj. unfold index_lookup in Hi.
    unfold get_index in Hj. rewrite Hj, Hi, lookup_insert.
    case_decide; subst; naive_solver.
Qed.

Lemma alloc_both_wf rt st m :
  mem_wf m → state_ok st →
  let m' := mkMem (<[S (m_next m) := st]> (m_states m)) (<[m_next m := rt]> (m_limiters m))
              (S (S (m_next m))) (S (m_ticks m)) in
  mem_wf m' ∧ states_kept m m' ∧
  (∀ l, is_Some (m_limiters m !! l) → is_Some (m_limiters m' !! l)).
Proof.
  intros [Hsf Hlf] Hst m'. split; [|split].
  - split; simpl; intros l Hle; rewrite lookup_insert_ne by lia; auto with lia.
  - split; simpl; [apply insert_subseteq, Hsf; lia|]. intros Hok.
    by apply map_Forall_insert_2.
  - intros l Hl. simpl. rewrite lookup_insert_is_Some. destruct (decide (m_next m = l)); auto.
Qed.

(** A rule under a fresh key gets a fresh limiter and a fresh state object. *)
Lemma createOrUpdateRule_new s m key limiting snap b :
  store_wf s m → rules s !! key = None → rl_Bucket limiting = Some b →
  ∃ s' m', createOrUpdateRule key limiting snap s m = Returns (s', m') ∧
    store_wf s' m' ∧ rules s' = <[key := limiting]> (rules s) ∧
    states_kept m m' ∧
    (∃ p st, states s' = <[key := p]> (states s) ∧ m_next m ≤ p ∧
      m_states m' !! p = Some st ∧ st_state st = ls_State snap ∧ st_recoverAt st = None).
Proof.
  intros Hwf Hk Hb. unfold createOrUpdateRule. rewrite Hk, Hb.
  destruct (rateLimiter_spec b m) as [rt ->]. cbn [mbind outcome_bind].
  eexists _, _. split; [reflexivity|]. cbn [alloc_state fst snd].
  destruct (alloc_both_wf rt {| st_key := key; st_state := ls_State snap;
    st_lastTransitionTime := ls_LastTransitionTime snap; st_recoverAt := None |} m
    (wf_mem _ _ Hwf)) as (Hm & Hkept & Hlk); [done|].
  split; [|split; [done|split; [exact Hkept|]]].
  - apply (store_wf_install s m _ _ _ _ _ _ Hwf Hm Hkept Hlk); simpl.
    + by rewrite Hb.
    + by rewrite lookup_insert_eq.
    + intros k Hl. eapply wf_bound_l in Hl; [|done]. lia.
    + rewrite lookup_insert_eq. eexists. by repeat split.
    + rewrite <- Hk. by eapply updateIndices_reindexed.
  - eexists _, _. split; [done|]. split; [simpl; lia|].
    simpl. rewrite lookup_insert_eq. done.
Qed.

(** A rule under a known key keeps its state object. *)
Lemma createOrUpdateRule_known s m key limiting snap b o :
  store_wf s m → rules s !! key = Some o → rl_Bucket limiting = Some b →
  ∃ s' m', createOrUpdateRule key limiting snap s m = Returns (s', m') ∧
    store_wf s' m' ∧ rules s' = <[key := limiting]> (rules s) ∧
    states_kept m m' ∧ states s' = states s.
Proof.
  intros Hwf Hk Hb. unfold createOrUpdateRule. rewrite Hk.
  destruct (wf_bucket _ _ Hwf key o Hk) as [ob Hob].
  assert (is_Some (limiters s !! key)) as [lp Hlp].
  { rewrite <- elem_of_dom, (wf_limiters _ _ Hwf), elem_of_dom. by eexists. }
  assert (is_Some (states s !! key)) as [sp Hsp].
  { rewrite <- elem_of_dom, (wf_states _ _ Hwf), elem_of_dom. by eexists. }
  pose proof (wf_sptr _ _ Hwf key sp Hsp) as Hst.
  pose proof (updateIndices_reindexed s m key limiting Hwf) as Hix. rewrite Hk in Hix.
  rewrite Hob, Hb. cbn [deref mbind outcome_bind]. destruct (bucketEquals ob b).
  - eexists _, _. split; [reflexivity|]. split; [|split_and!; try done; by apply states_kept_same].
    rewrite <- (insert_id (limiters s) key lp), <- (insert_id (states s) key sp) by done.
    eapply (store_wf_install s m); eauto using states_kept_same; try apply (wf_mem _ _ Hwf).
    + by eapply (wf_lptr _ _ Hwf).
    + intros k Hl. by eapply (wf_linj _ _ Hwf).
  - destruct (rateLimiter_spec b m) as [rt ->]. cbn [mbind outcome_bind].
    destruct (wf_mem _ _ Hwf) as [Hsf Hlf].
    eexists _, _. split; [reflexivity|]. split; [|split_and!; try done; by apply states_kept_same].
    simpl. rewrite <- (insert_id (states s) key sp) by done.
    eapply (store_wf_install s m); eauto using states_kept_same; simpl.
    + split; simpl; intros l Hle; [|rewrite lookup_insert_ne by lia]; auto with lia.
    + intros l Hl. rewrite lookup_insert_is_Some. destruct (decide (m_next m = l)); auto.
    + by rewrite lookup_insert_eq.
    + intros k Hl. eapply wf_bound_l in Hl; [|done]. lia.
Qed.

Lemma deleteRule_wf s m key : store_wf s m → store_wf (deleteRule key s) m.
Proof.
  intros Hwf. unfold deleteRule. destruct (rules s !! key) as [o|] eqn:Hk; [|done].
  split; simpl; try apply map_Forall_delete; try apply Hwf.
  - by rewrite !dom_delete_L, (wf_limiters _ _ Hwf).
  - by rewrite !dom_delete_L, (wf_states _ _ Hwf).
  - intros k1 k2 l. rewrite !lookup_delete_Some. intros [_ ?] [_ ?].
    by eapply (wf_linj _ _ Hwf).
  - intros name f Hin v k. pose proof (wf_index _ _ Hwf name f Hin v k) as Hi.
    change (index_lookup s name v) with (get_index (indices s) name v) in Hi.
    unfold index_lookup. simpl. fold (get_index (deleteFromIndices (indices s) o key) name v).
    rewrite (deleteFromIndices_get _ _ _ _ f) by done.
    rewrite Hi, lookup_delete. case_decide; subst; naive_solver.
  - by apply deleteFromIndices_ok, (wf_idx_ok _ _ Hwf).
Qed.

Lemma deleteRule_rules s key : rules (deleteRule key s) = delete key (rules s).
Proof.
  unfold deleteRule. destruct (rules s !! key) eqn:Hk; [done|].
  by rewrite delete_id.
Qed.
End invariant.

(** ** Refinement: the store implements a finite map of rules *)

Inductive store_op :=
| OpCreate (key : string) (limiting : RateLimiting) (snap : LimitingSnapshot)
| OpDelete (key : string).

(** Rules arrive with a bucket: [ConvertLimiting] always sets one. *)
Definition op_ok (o : store_op) : Prop :=
  match o with OpCreate _ r _ => is_Some (rl_Bucket r) | OpDelete _ => True end.

Section refinement.
Context `{RateLimiter} `{Clock}.

Definition run_op (sm : store * mem) (o : store_op) : outcome (store * mem) :=
  match o with
  | OpCreate key r snap => createOrUpdateRule key r snap sm.1 sm.2
  | OpDelete key => Returns (deleteRule key sm.1, sm.2)
  end.

(** The abstract operation. *)
Definition abs_op (a : gmap string RateLimiting) (o : store_op) : gmap string RateLimiting :=
  match o with OpCreate key r _ => <[key := r]> a | OpDelete key => delete key a end.

Lemma createOrUpdateRule_correct s m key r snap :
  store_wf s m → is_Some (rl_Bucket r) →
  ∃ s' m', createOrUpdateRule key r snap s m = Returns (s', m') ∧
    store_wf s' m' ∧ rules s' = <[key := r]> (rules s) ∧ states_kept m m' ∧
    (∀ k, k ≠ key → states s' !! k = states s !! k).
Proof.
  intros Hwf [b Hb]. destruct (rules s !! key) as [o|] eqn:Hk.
  - destruct (createOrUpdateRule_known s m key r snap b o) as (s' & m' & Hr & Hw & Hru & Hke & Hst);
      [done..|]. exists s', m'. split_and!; try done. intros k _. by rewrite Hst.
  - destruct (createOrUpdateRule_new s m key r snap b)
      as (s' & m' & Hr & Hw & Hru & Hke & p & st & Hst & _); [done..|].
    exists s', m'. split_and!; try done.
    intros k Hne. by rewrite Hst, lookup_insert_ne.
Qed.

Lemma run_op_simulates s m o :
  store_wf s m → op_ok o →
  ∃ s' m', run_op (s, m) o = Returns (s', m') ∧ store_wf s' m' ∧
           rules s' = abs_op (rules s) o.
Proof.
  intros Hwf Ho. destruct o as [key r snap|key]; simpl.
  - destruct (createOrUpdateRule_correct s m key r snap) as (s' & m' & ? & ? & ? & _); eauto 6.
  - eexists _, _. split; [done|]. split; [by apply deleteRule_wf|]. apply deleteRule_rules.
Qed.

(** C31. Any sequence of rule creations, updates and deletions on a new
    limiter store returns (no panic), leaves a well-formed store (pointers
    valid, indices the exact inverse of the rules, no empty index set), and
    the rules it holds are those of the plain map semantics of the same
    sequence. *)
Theorem store_refines_map (ops : list store_op) :
  Forall op_ok ops →
  ∃ s m, foldM run_op (newLimiterStore, mem0) ops = Returns (s, m) ∧
    store_wf s m ∧ rules s = fold_left abs_op ops ∅.
Proof.
  change (∅ : gmap string RateLimiting) with (rules newLimiterStore).
  generalize newLimiterStore_wf. generalize newLimiterStore mem0.
  induction ops as [|o ops IH]; intros s m Hwf Hops; [by eexists _, _|].
  inv Hops. destruct (run_op_simulates s m o) as (s1 & m1 & Hr & Hwf1 & Hru); [done..|].
  cbn [foldM mbind outcome_bind]. rewrite Hr. simpl. rewrite <- Hru. by apply IH.
Qed.

(** The index lookup is the linear scan: for a well-formed store, the
    rules (with their limiter and state) that [byIndex] returns for a value
    are, in some order and without repetition, exactly those stored rules
    whose index function produces that value. *)
Theorem byIndex_is_scan `{RangeOrder} (s : store) (m : mem) (name v : string) f :
  store_wf s m → (name, f) ∈ indexFunctions →
  byIndex name v s ≡ₚ
    (λ kr, byKey kr.1 s) <$> filter (λ kr, v ∈ f kr.2) (map_to_list (rules s)).
Proof.
  intros Hwf Hin. unfold byIndex.
  replace (existsb _ _) with true.
  2:{ symmetry. apply existsb_exists'. exists (name, f). split; [done|]. by case_bool_decide. }
  rewrite range_set_perm.
  transitivity ((λ key, byKey key s) <$> (filter (λ kr, v ∈ f kr.2) (map_to_list (rules s))).*1);
    [|by rewrite <- list_fmap_compose].
  apply Permutation_map, NoDup_Permutation.
  - apply NoDup_elements.
  - eapply sublist_NoDup; [apply (NoDup_fst_map_to_list (rules s))|]. apply fmap_sublist, sublist_filter.
  - intros k. rewrite elem_of_elements, (wf_index _ _ Hwf name f Hin), list_elem_of_fmap.
    split.
    + intros (r & Hr & Hv). exists (k, r). split; [done|].
      by rewrite list_elem_of_filter, elem_of_map_to_list.
    + intros ([k' r] & -> & [Hv Hr]%list_elem_of_filter). exists r.
      by rewrite elem_of_map_to_list in Hr.
Qed.
End refinement.

(** ** Concrete runs *)

Section witness.
#[local] Existing Instances token_limiter tick_clock order_fwd.

Definition demo_rule (burst : Z) (tp : TriggerPolicy) : RateLimiting := {|
  rl_Name := "r1";
  rl_ResourceRules := [{| ApiGroups := [EmptyString]; Resources := ["pods"]; Verbs := ["*"];
                          Namespaces := ["ns1"; "ns2"] |}];
  rl_RestRules := [{| Url := "http://a.b/c/*"; Method := "GET" |}];
  rl_Bucket := Some {| Burst := burst; Interval := "1s"; Limit := 1 |};
  rl_TriggerPolicy := tp;
  rl_RecoverPolicy := Some {| rp_Type := RECOVER_POLICY_SLEEPING_WINDOW; SleepingWindowSize := "10ns" |};
  rl_ValidatePolicy := EmptyString; rl_Properties := ∅ |}.
Definition demo_ops : list store_op :=
  [OpCreate "cb:r1" (demo_rule 1 TRIGGER_POLICY_NORMAL)
     {| ls_LimitingName := EmptyString; ls_State := CLOSED; ls_RecoverTime := None;
        ls_LastTransitionTime := None |}].

Lemma store_refines_map_witness : ∃ s' m',
  foldM run_op (newLimiterStore, mem0) demo_ops = Returns (s', m') ∧ store_wf s' m' ∧
  rules s' = fold_left abs_op demo_ops ∅.
Proof.
  apply (store_refines_map demo_ops).
  repeat constructor. by eexists.
Defined.

Lemma byIndex_is_scan_witness : ∃ s m,
  foldM run_op (newLimiterStore, mem0) demo_ops = Returns (s, m) ∧
  length (byIndex IndexResource "ns2::pods:*" s) = 1 ∧
  byIndex IndexResource "ns2::pods:*" s ≡ₚ
    (λ kr, byKey kr.1 s) <$>
      filter (λ kr, "ns2::pods:*" ∈ indexFuncForResource kr.2) (map_to_list (rules s)).
Proof.
  destruct (run_op_simulates newLimiterStore mem0 (OpCreate "cb:r1" (demo_rule 1 TRIGGER_POLICY_NORMAL)
     {| ls_LimitingName := EmptyString; ls_State := CLOSED; ls_RecoverTime := None;
        ls_LastTransitionTime := None |})) as (s & m & Hr & Hwf & _);
    [apply newLimiterStore_wf|by eexists|].
  exists s, m. split; [unfold demo_ops; cbn [foldM]; by rewrite Hr|]. split.
  - vm_compute in Hr. injection Hr as <- <-. vm_compute. reflexivity.
  - apply (byIndex_is_scan s m); [exact Hwf|apply list_elem_of_here].
Defined.
End witness.
