(* ===== verification/InterceptStore.v ===== *)
(** * The traffic-intercept store

    [trafficInterceptStore] of src/pkg/proxy/circuitbreaker/store.go and
    [ValidateTrafficIntercept] of manager.go: white and black lists of REST
    endpoints, with an exact index and a regular-expression index. *)

From S2P Require Import Prelude GoStrings BreakerTypes LimiterStore.

Section intercept.
Context `{Regexp}.

Record regexpInfo := mkRegexpInfo {
  ri_reg : regexp;
  ri_regType : InterceptType;
  ri_method : string;
}.

Record trafficInterceptStore := mkIStore {
  ti_rules : gmap string TrafficInterceptRule;
  normalIndexes : index;
  regexpIndexes : gmap string (list regexpInfo);
}.

Definition newTrafficInterceptStore : trafficInterceptStore := mkIStore ∅ ∅ ∅.

(** The index values of a rule with exact contents. *)
Definition urlMethods (rule : TrafficInterceptRule) : list string :=
  content ← ti_Contents rule;
  method ← ti_Methods rule;
  [indexForRest content method].

(** [append(s.regexpIndexes[key], info)]. *)
Definition appendInfo (key : string) (ix : gmap string (list regexpInfo)) (i : regexpInfo) :=
  <[key := default [] (ix !! key) ++ [i]]> ix.

(** The expressions of a rule with regular-expression contents; contents that
    do not compile are logged and skipped. *)
Definition regexpInfos (rule : TrafficInterceptRule) : list regexpInfo :=
  content ← ti_Contents rule;
  match Compile content with
  | None => []
  | Some reg => method ← ti_Methods rule; [mkRegexpInfo reg (ti_InterceptType rule) method]
  end.

Definition deleteFromIndex (oldOne : TrafficInterceptRule) (key : string)
    (s : trafficInterceptStore) : trafficInterceptStore :=
  match ti_ContentType oldOne with
  | NORMAL => mkIStore (ti_rules s) (deleteKey key (normalIndexes s) (urlMethods oldOne)) (regexpIndexes s)
  | REGEXP => mkIStore (ti_rules s) (normalIndexes s) (delete key (regexpIndexes s))
  end.

Definition updateIndex (oldOne : option TrafficInterceptRule) (newOne : TrafficInterceptRule)
    (key : string) (s : trafficInterceptStore) : trafficInterceptStore :=
  let s := match oldOne with Some o => deleteFromIndex o key s | None => s end in
  match ti_ContentType newOne with
  | NORMAL => mkIStore (ti_rules s) (insertKey key (normalIndexes s) (urlMethods newOne)) (regexpIndexes s)
  | REGEXP => mkIStore (ti_rules s) (normalIndexes s)
                (fold_left (appendInfo key) (regexpInfos newOne) (regexpIndexes s))
  end.

Definition createOrUpdateRule (key : string) (rule : TrafficInterceptRule)
    (s : trafficInterceptStore) : trafficInterceptStore :=
  updateIndex (ti_rules s !! key) rule key
    (mkIStore (<[key := rule]> (ti_rules s)) (normalIndexes s) (regexpIndexes s)).

(** [deleteRule] removes the rule from the indices. *)
Definition deleteRule (key : string) (s : trafficInterceptStore) : trafficInterceptStore :=
  match ti_rules s !! key with
  | Some obj => deleteFromIndex obj key s
  | None => s
  end.

(** ** Validation *)

Record ValidateResult := mkValidateResult {
  Allowed : bool; Reason : string; vr_Message : string
}.

Definition whitelistResult (msg : string) := mkValidateResult true "Whitelist" msg.
Definition blacklistResult (msg : string) := mkValidateResult false "Blacklist" msg.

Context `{RangeOrder}.

(** The loop over the keys of an exact-index entry: the first rule found
    decides. *)
Fixpoint normalVerdict (s : trafficInterceptStore) (keys : list string) : option ValidateResult :=
  match keys with
  | [] => None
  | key :: keys' =>
      match ti_rules s !! key with
      | None => normalVerdict s keys'
      | Some rule =>
          match ti_InterceptType rule with
          | INTERCEPT_WHITELIST =>
              Some (whitelistResult ("Traffic is allow by whitelist rule, name: " +:+ ti_Name rule))
          | INTERCEPT_BLACKLIST =>
              Some (blacklistResult ("Traffic is intercept by blacklist rule, name: " +:+ ti_Name rule))
          end
      end
  end.

Fixpoint regexpVerdict1 (key URL method : string) (regs : list regexpInfo) : option ValidateResult :=
  match regs with
  | [] => None
  | reg :: regs' =>
      if bool_decide (ri_method reg = method) && MatchString (ri_reg reg) URL then
        match ri_regType reg with
        | INTERCEPT_WHITELIST =>
            Some (whitelistResult ("Traffic is allow by whitelist rule: " +:+ key +:+
                                   ", regexp: " +:+ rx_String (ri_reg reg)))
        | INTERCEPT_BLACKLIST =>
            Some (blacklistResult ("Traffic is intercept by blacklist rule: " +:+ key +:+
                                   ", regexp: " +:+ rx_String (ri_reg reg)))
        end
      else regexpVerdict1 key URL method regs'
  end.

Fixpoint regexpVerdict (s : trafficInterceptStore) (URL method : string) (keys : list string)
    : option ValidateResult :=
  match keys with
  | [] => None
  | key :: keys' =>
      match regexpVerdict1 key URL method (default [] (regexpIndexes s !! key)) with
      | Some r => Some r
      | None => regexpVerdict s URL method keys'
      end
  end.

Definition isWhitelist (rule : TrafficInterceptRule) : bool :=
  bool_decide (ti_InterceptType rule = INTERCEPT_WHITELIST).

Definition defaultVerdict (s : trafficInterceptStore) : ValidateResult :=
  if existsb (λ k, from_option isWhitelist false (ti_rules s !! k)) (range_keys (ti_rules s))
  then mkValidateResult false "No rule match" "Default strategy is whitelist, should deny"
  else mkValidateResult true "No rule match" "Default strategy is blacklist, should allow".

Definition ValidateTrafficIntercept (URL method : string) (s : trafficInterceptStore) : ValidateResult :=
  let indexes := match normalIndexes s !! indexForRest URL method with
                 | Some set => Some set
                 | None => normalIndexes s !! indexForRest URL "*"
                 end in
  match normalVerdict s (range_set (default ∅ indexes)) with
  | Some r => r
  | None =>
      match regexpVerdict s URL method (range_keys (regexpIndexes s)) with
      | Some r => r
      | None => defaultVerdict s
      end
  end.

(** ** What the indices represent

    [live] is the map of the rules registered and not deleted since.  The
    indices are those of [live]; the [rules] field may hold more. *)

Record indexes_of (s : trafficInterceptStore) (live : gmap string TrafficInterceptRule) : Prop := {
  iwf_normal : ∀ v k, k ∈ idx_get (normalIndexes s) v ↔
      ∃ r, live !! k = Some r ∧ ti_ContentType r = NORMAL ∧ v ∈ urlMethods r;
  iwf_idx_ok : idx_ok (normalIndexes s);
  iwf_regexp : ∀ k, default [] (regexpIndexes s !! k) =
      match live !! k with
      | Some r => if decide (ti_ContentType r = REGEXP) then regexpInfos r else []
      | None => []
      end;
}.

Definition intercept_wf (s : trafficInterceptStore) (live : gmap string TrafficInterceptRule) : Prop :=
  live ⊆ ti_rules s ∧ indexes_of s live.

Lemma appendInfos_get key infos ix k :
  default [] (fold_left (appendInfo key) infos ix !! k) =
  if decide (k = key) then default [] (ix !! key) ++ infos else default [] (ix !! k).
Proof.
  revert ix; induction infos as [|i infos IH]; intros ix; simpl.
  { case_decide; subst; by rewrite ?app_nil_r. }
  rewrite IH. unfold appendInfo. rewrite lookup_insert_eq. case_decide; subst.
  - simpl. by rewrite <- app_assoc.
  - by rewrite lookup_insert_ne.
Qed.

(** Removing the index entries of the rule a key had. *)
Lemma deleteFromIndex_indexes s live key o :
  indexes_of s live → (∀ r, live !! key = Some r → r = o) →
  indexes_of (deleteFromIndex o key s) (delete key live).
Proof.
  intros [Hn Hok Hr] Ho. unfold deleteFromIndex.
  destruct (ti_ContentType o) eqn:Ht; split; simpl.
  - intros v k. rewrite deleteKey_get, Hn, lookup_delete. case_decide; naive_solver.
  - by apply deleteKey_ok.
  - intros k. rewrite Hr, lookup_delete. case_decide; [subst|done].
    destruct (live !! k) as [r|]; [|done]. rewrite (Ho r) by done.
    by rewrite decide_False by congruence.
  - intros v k. rewrite Hn, lookup_delete. case_decide; [subst|done].
    split; [|by intros (? & ? & _)]. intros (r & Hl & Hty & _).
    rewrite (Ho r Hl) in Hty. congruence.
  - done.
  - intros k. rewrite !lookup_delete. case_decide; [done|]. apply Hr.
Qed.

(** Adding the index entries of a rule under a key that has none. *)
Lemma updateIndex_indexes s live key rule :
  indexes_of s live → live !! key = None →
  indexes_of (updateIndex None rule key s) (<[key := rule]> live).
Proof.
  intros [Hn Hok Hr] Hk. unfold updateIndex.
  destruct (ti_ContentType rule) eqn:Ht; split; simpl.
  - intros v k. rewrite insertKey_get, Hn, lookup_insert. case_decide; naive_solver.
  - by apply insertKey_ok.
  - intros k. rewrite Hr, lookup_insert. case_decide; [subst|done].
    by rewrite Hk, decide_False by congruence.
  - intros v k. rewrite Hn, lookup_insert. case_decide; [subst|done].
    split; intros (r & ? & ? & _); congruence.
  - done.
  - intros k. rewrite appendInfos_get. destruct (decide (k = key)) as [->|].
    + rewrite lookup_insert_eq, Hr, Hk. by rewrite decide_True.
    + by rewrite lookup_insert_ne.
Qed.

Lemma createOrUpdateRule_rules s key rule :
  ti_rules (createOrUpdateRule key rule s) = <[key := rule]> (ti_rules s).
Proof. unfold createOrUpdateRule, updateIndex, deleteFromIndex. by repeat case_match. Qed.

Lemma intercept_delete_rules s key : ti_rules (deleteRule key s) = ti_rules s.
Proof. unfold deleteRule, deleteFromIndex. by repeat case_match. Qed.

Lemma createOrUpdateRule_wf s live key rule :
  intercept_wf s live → intercept_wf (createOrUpdateRule key rule s) (<[key := rule]> live).
Proof.
  intros [Hsub Hix]. split; [rewrite createOrUpdateRule_rules; by apply insert_mono|].
  unfold createOrUpdateRule. set (s1 := mkIStore _ _ _).
  assert (Hix1 : indexes_of s1 live) by (by destruct Hix).
  destruct (ti_rules s !! key) as [o|] eqn:Ho.
  - rewrite <- insert_delete_eq.
    change (updateIndex (Some o) rule key s1) with (updateIndex None rule key (deleteFromIndex o key s1)).
    apply updateIndex_indexes; [|by rewrite lookup_delete_eq].
    apply deleteFromIndex_indexes; [done|].
    intros r Hr. eapply lookup_weaken in Hr; [|done]. congruence.
  - apply updateIndex_indexes; [done|].
    destruct (live !! key) as [r|] eqn:Hr; [|done].
    eapply lookup_weaken in Hr; [|done]. congruence.
Qed.

Lemma intercept_delete_wf s live key :
  intercept_wf s live → intercept_wf (deleteRule key s) (delete key live).
Proof.
  intros [Hsub Hix]. split.
  { rewrite intercept_delete_rules. transitivity live; [apply delete_subseteq|done]. }
  unfold deleteRule. destruct (ti_rules s !! key) as [o|] eqn:Ho.
  - apply deleteFromIndex_indexes; [done|].
    intros r Hr. eapply lookup_weaken in Hr; [|done]. congruence.
  - assert (live !! key = None) as Hl.
    { destruct (live !! key) as [r|] eqn:Hr; [|done].
      eapply lookup_weaken in Hr; [|done]. congruence. }
    by rewrite delete_id.
Qed.

Lemma new_wf : intercept_wf newTrafficInterceptStore ∅.
Proof.
  split; [done|]. split; simpl; [|apply map_Forall_empty|].
  - intros v k. unfold idx_get. rewrite lookup_empty. set_solver.
  - intros k. by rewrite !lookup_empty.
Qed.

(** ** Verdicts *)

(** A rule concerns a request. *)
Definition rule_matches (rule : TrafficInterceptRule) (URL method : string) : Prop :=
  match ti_ContentType rule with
  | NORMAL => URL ∈ ti_Contents rule ∧ (method ∈ ti_Methods rule ∨ "*" ∈ ti_Methods rule)
  | REGEXP => method ∈ ti_Methods rule ∧
      ∃ content reg, content ∈ ti_Contents rule ∧ Compile content = Some reg ∧
                     MatchString reg URL = true
  end.

(** HTTP methods contain no colon. *)
Definition methods_ok (rule : TrafficInterceptRule) : Prop :=
  Forall (λ m, colon_free m = true) (ti_Methods rule).

Lemma elem_of_urlMethods rule URL method :
  methods_ok rule → colon_free method = true →
  indexForRest URL method ∈ urlMethods rule ↔
  URL ∈ ti_Contents rule ∧ method ∈ ti_Methods rule.
Proof.
  intros Hok Hm. unfold urlMethods. rewrite list_elem_of_bind. split.
  - intros (c & Hc & Hcin). apply list_elem_of_bind in Hc as (m & Hc & Hmin).
    apply list_elem_of_singleton in Hc. unfold methods_ok in Hok.
    rewrite Forall_forall in Hok. apply key2_inj_r in Hc as [-> ->]; auto.
  - intros [Hc Hmin]. exists URL. split; [|done].
    apply list_elem_of_bind. exists method. by rewrite list_elem_of_singleton.
Qed.

Lemma elem_of_regexpInfos rule info :
  info ∈ regexpInfos rule ↔
  ri_regType info = ti_InterceptType rule ∧ ri_method info ∈ ti_Methods rule ∧
  ∃ content, content ∈ ti_Contents rule ∧ Compile content = Some (ri_reg info).
Proof.
  unfold regexpInfos. rewrite list_elem_of_bind. split.
  - intros (c & Hc & Hcin). destruct (Compile c) as [reg|] eqn:Hreg; [|set_solver].
    apply list_elem_of_bind in Hc as (m & Hc & Hmin).
    apply list_elem_of_singleton in Hc as ->. simpl. eauto.
  - intros (Ht & Hm & c & Hc & Hreg). exists c. split; [|done]. rewrite Hreg.
    apply list_elem_of_bind. exists (ri_method info). split; [|done].
    apply list_elem_of_singleton. by destruct info; simpl in *; subst.
Qed.

(** The verdict a matching rule of the given type gives. *)
Definition verdict_of (t : InterceptType) (r : ValidateResult) : Prop :=
  match t with
  | INTERCEPT_WHITELIST => Allowed r = true ∧ Reason r = "Whitelist"
  | INTERCEPT_BLACKLIST => Allowed r = false ∧ Reason r = "Blacklist"
  end.

Lemma normalVerdict_spec s keys :
  Forall (λ k, is_Some (ti_rules s !! k)) keys →
  match normalVerdict s keys with
  | None => keys = []
  | Some r => ∃ k rule, k ∈ keys ∧ ti_rules s !! k = Some rule ∧
                        verdict_of (ti_InterceptType rule) r
  end.
Proof.
  destruct keys as [|k keys]; [done|]. intros [[rule Hr] _]%Forall_cons. simpl.
  rewrite Hr. destruct (ti_InterceptType rule) eqn:Ht; exists k, rule;
    rewrite Ht; (split; [set_solver|done]).
Qed.

Lemma regexpVerdict1_spec key URL method regs :
  match regexpVerdict1 key URL method regs with
  | None => ∀ i, i ∈ regs → ri_method i = method → MatchString (ri_reg i) URL = true → False
  | Some r => ∃ i, i ∈ regs ∧ ri_method i = method ∧ MatchString (ri_reg i) URL = true ∧
                   verdict_of (ri_regType i) r
  end.
Proof.
  induction regs as [|i regs IH]; simpl; [set_solver|].
  destruct (bool_decide (ri_method i = method) && MatchString (ri_reg i) URL) eqn:Hm.
  - apply andb_prop in Hm as [Hm%bool_decide_eq_true ?].
    destruct (ri_regType i) eqn:Ht; exists i; rewrite Ht; (split; [set_solver|done]).
  - destruct (regexpVerdict1 _ _ _ regs).
    + destruct IH as (j & ? & ?). exists j. split; [set_solver|done].
    + intros j [->|Hj]%elem_of_cons Hj1 Hj2; [|by eapply IH].
      by rewrite Hj1, Hj2, bool_decide_eq_true_2 in Hm.
Qed.

Lemma regexpVerdict_spec s URL method keys :
  match regexpVerdict s URL method keys with
  | None => ∀ k i, k ∈ keys → i ∈ default [] (regexpIndexes s !! k) →
              ri_method i = method → MatchString (ri_reg i) URL = true → False
  | Some r => ∃ k i, k ∈ keys ∧ i ∈ default [] (regexpIndexes s !! k) ∧
              ri_method i = method ∧ MatchString (ri_reg i) URL = true ∧
              verdict_of (ri_regType i) r
  end.
Proof.
  induction keys as [|k keys IH]; cbn [regexpVerdict]; [set_solver|].
  pose proof (regexpVerdict1_spec k URL method (default [] (regexpIndexes s !! k))) as H1.
  destruct (regexpVerdict1 _ _ _ _) as [r|].
  - destruct H1 as (i & ? & ?). exists k, i. split; [set_solver|done].
  - destruct (regexpVerdict s URL method keys) as [r|].
    + destruct IH as (k' & i & ? & ?). exists k', i. split; [set_solver|done].
    + intros k' i [->|Hk]%elem_of_cons; eauto.
Qed.

Lemma defaultVerdict_spec s :
  Reason (defaultVerdict s) = "No rule match" ∧
  (Allowed (defaultVerdict s) = false ↔
   ∃ k rule, ti_rules s !! k = Some rule ∧ ti_InterceptType rule = INTERCEPT_WHITELIST).
Proof.
  unfold defaultVerdict. set (b := existsb _ _).
  assert (b = true ↔ ∃ k rule, ti_rules s !! k = Some rule ∧
            ti_InterceptType rule = INTERCEPT_WHITELIST) as Hb.
  { unfold b. rewrite existsb_exists'. split.
    - intros (k & Hk%elem_of_range_keys & Hw). destruct Hk as [rule Hr].
      rewrite Hr in Hw. simpl in Hw. apply bool_decide_eq_true in Hw. eauto.
    - intros (k & rule & Hr & Hw). exists k.
      rewrite elem_of_range_keys, Hr. split; [by eexists|]. by apply bool_decide_eq_true. }
  destruct b; simpl; (split; [done|]); rewrite <- Hb; split; congruence.
Qed.

Lemma normal_lookup s live v :
  intercept_wf s live →
  match normalIndexes s !! v with
  | None => ∀ k r, live !! k = Some r → ti_ContentType r = NORMAL → v ∈ urlMethods r → False
  | Some set => set ≠ ∅ ∧ ∀ k, k ∈ set →
      ∃ r, live !! k = Some r ∧ ti_ContentType r = NORMAL ∧ v ∈ urlMethods r
  end.
Proof.
  intros [_ Hix]. pose proof (iwf_normal _ _ Hix v) as Hn. unfold idx_get in Hn.
  destruct (normalIndexes s !! v) as [set|] eqn:Hv; simpl in Hn.
  - split; [by apply (iwf_idx_ok _ _ Hix v)|]. intros k Hk. by apply Hn.
  - intros k r Hl Ht Hin. assert (k ∈ (∅ : gset string)); [|set_solver].
    apply Hn. eauto.
Qed.

(** One entry of the exact index decides the request by one of its rules. *)
Lemma normal_entry s live URL method m set :
  intercept_wf s live → map_Forall (λ _, methods_ok) live →
  (m = method ∨ m = "*") → colon_free m = true → set ≠ ∅ →
  (∀ k, k ∈ set → ∃ r, live !! k = Some r ∧ ti_ContentType r = NORMAL ∧
                       indexForRest URL m ∈ urlMethods r) →
  ∃ r, normalVerdict s (range_set set) = Some r ∧
    ∃ k rule, live !! k = Some rule ∧ rule_matches rule URL method ∧
              verdict_of (ti_InterceptType rule) r.
Proof.
  intros Hwf Hmo Hmm Hmf Hne Hset.
  pose proof (normalVerdict_spec s (range_set set)) as Hs.
  destruct (normalVerdict s (range_set set)) as [r|].
  - exists r. split; [done|]. destruct Hs as (k & rule & Hk & Hr & Hv).
    { apply Forall_forall. intros k (r' & Hl & _)%elem_of_range_set%Hset.
      eapply lookup_weaken in Hl; [by eexists|apply Hwf]. }
    apply elem_of_range_set, Hset in Hk as (r' & Hl & Ht & Hin).
    pose proof (lookup_weaken _ _ _ _ Hl (proj1 Hwf)) as Hl'. simplify_eq.
    exists k, rule. split; [done|]. split; [|done]. unfold rule_matches. rewrite Ht.
    apply elem_of_urlMethods in Hin as [? ?]; [|by eapply Hmo|done]. naive_solver.
  - destruct Hne. apply range_set_nil, Hs, Forall_forall.
    intros k (r' & Hl & _)%elem_of_range_set%Hset.
    eapply lookup_weaken in Hl; [by eexists|apply Hwf].
Qed.

(** The exact-index part of the decision: it finds a live matching rule, or
    there is no live exact rule for the request. *)
Lemma normal_stage s live URL method :
  intercept_wf s live → map_Forall (λ _, methods_ok) live → colon_free method = true →
  match normalVerdict s (range_set (default ∅
          match normalIndexes s !! indexForRest URL method with
          | Some set => Some set
          | None => normalIndexes s !! indexForRest URL "*"
          end)) with
  | Some r => ∃ k rule, live !! k = Some rule ∧ rule_matches rule URL method ∧
                        verdict_of (ti_InterceptType rule) r
  | None => ∀ k rule, live !! k = Some rule → ti_ContentType rule = NORMAL →
                      ¬ rule_matches rule URL method
  end.
Proof.
  intros Hwf Hmo Hm. assert (Hstar : colon_free "*" = true) by done.
  pose proof (normal_lookup s live (indexForRest URL method) Hwf) as H1.
  pose proof (normal_lookup s live (indexForRest URL "*") Hwf) as H2.
  destruct (normalIndexes s !! indexForRest URL method) as [set|].
  { destruct H1 as [Hne Hset]. simpl.
    destruct (normal_entry s live URL method method set) as (r & -> & Hr); auto. }
  destruct (normalIndexes s !! indexForRest URL "*") as [set|].
  { destruct H2 as [Hne Hset]. simpl.
    destruct (normal_entry s live URL method "*" set) as (r & -> & Hr); auto. }
  simpl. rewrite range_set_empty. simpl. intros k rule Hl Ht.
  unfold rule_matches. rewrite Ht. intros [HU [Hmm|Hmm]].
  - eapply H1; eauto. apply elem_of_urlMethods; auto. by eapply Hmo.
  - eapply H2; eauto. apply elem_of_urlMethods; auto. by eapply Hmo.
Qed.

(** The regular-expression part of the decision. *)
Lemma regexp_stage s live URL method :
  intercept_wf s live →
  match regexpVerdict s URL method (range_keys (regexpIndexes s)) with
  | Some r => ∃ k rule, live !! k = Some rule ∧ rule_matches rule URL method ∧
                        verdict_of (ti_InterceptType rule) r
  | None => ∀ k rule, live !! k = Some rule → ti_ContentType rule = REGEXP →
                      ¬ rule_matches rule URL method
  end.
Proof.
  intros [_ Hix]. pose proof (regexpVerdict_spec s URL method (range_keys (regexpIndexes s))) as Hs.
  destruct (regexpVerdict _ _ _ _) as [r|].
  - destruct Hs as (k & i & _ & Hi & Hm & Hmatch & Hv).
    rewrite (iwf_regexp _ _ Hix) in Hi. destruct (live !! k) as [rule|] eqn:Hl; [|set_solver].
    destruct (decide _) as [Ht|]; [|set_solver].
    apply elem_of_regexpInfos in Hi as (Hty & Hmin & c & Hc & Hreg).
    exists k, rule. split; [done|]. rewrite <- Hty. split; [|done].
    unfold rule_matches. rewrite Ht, <- Hm. eauto 6.
  - intros k rule Hl Ht. unfold rule_matches. rewrite Ht. intros (Hmin & c & reg & Hc & Hreg & Hma).
    pose proof (iwf_regexp _ _ Hix k) as Hk. rewrite Hl, decide_True in Hk by done.
    assert (mkRegexpInfo reg (ti_InterceptType rule) method ∈ default [] (regexpIndexes s !! k)) as Hin.
    { rewrite Hk. apply elem_of_regexpInfos. simpl. eauto. }
    eapply (Hs k); [|exact Hin|done|done]. rewrite elem_of_range_keys.
    destruct (regexpIndexes s !! k); [by eexists|set_solver].
Qed.

(** C32. Traffic interception decides by the live rules: whatever the map
    iteration order, the verdict is "Whitelist" (allowed) or "Blacklist"
    (denied) only when a live rule of that type matches the request, it is
    "No rule match" only when no live rule matches, and then the request is
    denied exactly when the store still holds some whitelist rule. *)
Theorem ValidateTrafficIntercept_correct s live URL method :
  intercept_wf s live → map_Forall (λ _, methods_ok) live → colon_free method = true →
  let r := ValidateTrafficIntercept URL method s in
  (∃ k rule, live !! k = Some rule ∧ rule_matches rule URL method ∧
             verdict_of (ti_InterceptType rule) r) ∨
  (Reason r = "No rule match" ∧
   (∀ k rule, live !! k = Some rule → ¬ rule_matches rule URL method) ∧
   (Allowed r = false ↔
    ∃ k rule, ti_rules s !! k = Some rule ∧ ti_InterceptType rule = INTERCEPT_WHITELIST)).
Proof.
  intros Hwf Hmo Hm. unfold ValidateTrafficIntercept.
  pose proof (normal_stage s live URL method Hwf Hmo Hm) as H1.
  destruct (normalVerdict _ _) as [r|]; [by left|].
  pose proof (regexp_stage s live URL method Hwf) as H2.
  destruct (regexpVerdict _ _ _ _) as [r|]; [by left|]. right.
  pose proof (defaultVerdict_spec s) as [HR HA]. split; [done|]. split; [|done].
  intros k rule Hl. destruct (ti_ContentType rule) eqn:Ht; eauto.
Qed.

(** Deleting a rule takes it out of the indices but not out of the rule
    cache: after a whitelist rule is registered in a new store and deleted
    again, every request is still denied by the whitelist default although
    no rule is live. *)
Theorem deleted_whitelist_still_denies key rule URL method :
  ti_InterceptType rule = INTERCEPT_WHITELIST →
  let s := deleteRule key (createOrUpdateRule key rule newTrafficInterceptStore) in
  intercept_wf s ∅ ∧
  ValidateTrafficIntercept URL method s =
    mkValidateResult false "No rule match" "Default strategy is whitelist, should deny".
Proof.
  intros Hw s.
  assert (Hwf : intercept_wf s ∅).
  { rewrite <- (delete_insert_id ∅ key rule) by done.
    apply intercept_delete_wf, createOrUpdateRule_wf, new_wf. }
  split; [done|].
  assert (Hn : ∀ v, normalIndexes s !! v = None).
  { intros v. pose proof (normal_lookup s ∅ v Hwf) as Hv.
    destruct (normalIndexes s !! v) as [set|]; [|done]. destruct Hv as [[k Hk]%set_choose_L Hv].
    by destruct (Hv k Hk) as (? & ? & _). }
  unfold ValidateTrafficIntercept. rewrite !Hn. simpl. rewrite range_set_empty. simpl.
  pose proof (regexp_stage s ∅ URL method Hwf) as Hr.
  destruct (regexpVerdict _ _ _ _); [by destruct Hr as (? & ? & ? & _)|].
  unfold defaultVerdict. destruct (existsb _ _) eqn:He; [done|].
  apply not_true_iff_false in He. destruct He. apply existsb_exists'. exists key.
  assert (ti_rules s !! key = Some rule) as Hk.
  { unfold s. rewrite intercept_delete_rules, createOrUpdateRule_rules. by rewrite lookup_insert_eq. }
  rewrite elem_of_range_keys, Hk. split; [by eexists|]. by apply bool_decide_eq_true.
Qed.

End intercept.

(** ** Concrete runs *)

Section witness.
#[local] Existing Instances literal_regexp order_fwd.

Definition demo_white : TrafficInterceptRule :=
  mkTrafficInterceptRule "w" INTERCEPT_WHITELIST NORMAL ["http://a"] ["GET"].

Lemma ValidateTrafficIntercept_correct_witness :
  let s := createOrUpdateRule "cb:w" demo_white newTrafficInterceptStore in
  let r := ValidateTrafficIntercept "http://a" "GET" s in
  (∃ k rule, ({["cb:w" := demo_white]} : gmap string _) !! k = Some rule ∧
      rule_matches rule "http://a" "GET" ∧ verdict_of (ti_InterceptType rule) r) ∨
  (Reason r = "No rule match" ∧
   (∀ k rule, ({["cb:w" := demo_white]} : gmap string _) !! k = Some rule →
      ¬ rule_matches rule "http://a" "GET") ∧
   (Allowed r = false ↔
    ∃ k rule, ti_rules s !! k = Some rule ∧ ti_InterceptType rule = INTERCEPT_WHITELIST)).
Proof.
  apply (ValidateTrafficIntercept_correct _ {["cb:w" := demo_white]} "http://a" "GET").
  - apply (createOrUpdateRule_wf _ ∅), new_wf.
  - apply map_Forall_singleton. unfold methods_ok. repeat constructor.
  - reflexivity.
Defined.

Lemma deleted_whitelist_still_denies_witness :
  let s := deleteRule "cb:w" (createOrUpdateRule "cb:w" demo_white newTrafficInterceptStore) in
  intercept_wf s ∅ ∧ Allowed (ValidateTrafficIntercept "http://a" "GET" s) = false.
Proof.
  destruct (deleted_whitelist_still_denies "cb:w" demo_white "http://a" "GET") as [Hwf Hr]; [reflexivity|].
  split; [exact Hwf|]. by rewrite Hr.
Defined.
End witness.
