(* ===== verification/Lease.v ===== *)
(** * The breaker lease

    [lease] of src/pkg/proxy/circuitbreaker/lease.go: breakers opened with a
    sleeping window are registered by key and put on a delaying work queue;
    the processing loop closes them when their recovery time has come, and
    re-queues them when it was moved.

    The queue is client-go's [workqueue.DelayingInterface]: [AddAfter] makes an
    item available after a delay, keeping the earlier time when the item is
    already waiting; [Get] hands out an available item.  It is modelled by the
    time at which each waiting item becomes available. *)

From S2P Require Import Prelude GoStrings GoTime BreakerTypes LimiterStore.

Record lease := mkLease {
  stateSet : gmap string loc;
  stateQueue : gmap loc Z;
}.

Definition newBreakerLease : lease := mkLease ∅ ∅.

(** The waiting item keeps its earlier time. *)
Definition enqueue (p : loc) (readyAt : Z) (q : gmap loc Z) : gmap loc Z :=
  <[p := match q !! p with Some t => Z.min t readyAt | None => readyAt end]> q.

Section lease.
Context `{RateLimiter} `{Clock}.

(** [l.stateQueue.AddAfter(st, d)] at the queue's own reading of the clock. *)
Definition AddAfter (p : loc) (d : Z) (q : gmap loc Z) (m : mem) : gmap loc Z * mem :=
  let '(tm, m) := Now m in (enqueue p (tm + d)%Z q, m).

(** [registerState]. *)
Definition registerState (p : option loc) (l : lease) (m : mem) : outcome (lease * mem) :=
  p ← deref p; st ← deref (m_states m !! p);
  if decide (st_state st = OPENED) then
    match stateSet l !! st_key st, st_recoverAt st with
    | None, Some r =>
        let '(tm, m) := Now m in
        let '(q, m) := AddAfter p (r - tm)%Z (stateQueue l) m in
        Returns (mkLease (<[st_key st := p]> (stateSet l)) q, m)
    | _, _ => Returns (l, m)
    end
  else Returns (l, m).

(** One round of [processingLoop] for the item [p] that [Get] returned. *)
Definition processItem (p : loc) (l : lease) (m : mem) : outcome (lease * mem) :=
  let l := mkLease (stateSet l) (delete p (stateQueue l)) in
  st ← deref (m_states m !! p);
  let '(_, _, recoverAt) := read st in
  match recoverAt with
  | Some r =>
      let '(tm, m) := Now m in
      if (tm <? r)%Z then
        let '(tm2, m) := Now m in
        let '(q, m) := AddAfter p (r - tm2)%Z (stateQueue l) m in
        Returns (mkLease (stateSet l) q, m)
      else
        m ← recoverBreaker_at (Some p) m;
        Returns (mkLease (delete (st_key st) (stateSet l)) (stateQueue l), m)
  | None =>
      m ← recoverBreaker_at (Some p) m;
      Returns (mkLease (delete (st_key st) (stateSet l)) (stateQueue l), m)
  end.

(** Everything that happens to breaker states and to the lease: a request
    opens a breaker with a sleeping window and registers it, a breaker is
    opened for good, recovered, a rule brings a new state object, or the
    loop processes an item that has become available. *)
Inductive lease_step : lease * mem → lease * mem → Prop :=
| ls_window p d l m m1 l' m' :
    triggerBreakerWithTimeWindow_at (Some p) d m = Returns m1 →
    registerState (Some p) l m1 = Returns (l', m') →
    lease_step (l, m) (l', m')
| ls_open p l m m' :
    triggerBreaker_at (Some p) m = Returns m' → lease_step (l, m) (l, m')
| ls_recover p l m m' :
    recoverBreaker_at (Some p) m = Returns m' → lease_step (l, m) (l, m')
| ls_new st l m :
    state_ok st → lease_step (l, m) (l, (alloc_state st m).2)
| ls_process p t l m l' m' :
    stateQueue l !! p = Some t → (t ≤ (Now m).1)%Z →
    processItem p l m = Returns (l', m') → lease_step (l, m) (l', m').

(** The registry and the queue agree: a key is registered exactly when its
    object waits in the queue. *)
Record lease_wf (lm : lease * mem) : Prop := {
  lw_mem : ∀ p, m_next lm.2 ≤ p → m_states lm.2 !! p = None;
  lw_ok : map_Forall (λ _, state_ok) (m_states lm.2);
  lw_set : ∀ k p, stateSet lm.1 !! k = Some p →
      is_Some (stateQueue lm.1 !! p) ∧ ∃ st, m_states lm.2 !! p = Some st ∧ st_key st = k;
  lw_queue : ∀ p t, stateQueue lm.1 !! p = Some t →
      ∃ st, m_states lm.2 !! p = Some st ∧ stateSet lm.1 !! st_key st = Some p;
}.

(** Replacing the object at [p] by one with the same key keeps the agreement. *)
Lemma lease_wf_store l m p st st' m' :
  lease_wf (l, m) → m_states m !! p = Some st → st_key st' = st_key st → state_ok st' →
  m_states m' = <[p := st']> (m_states m) → m_next m' = m_next m →
  lease_wf (l, m').
Proof.
  intros [Hm Hok Hs Hq] Hp Hk Hst' Hms Hmn. simpl in *. split; simpl; rewrite ?Hms, ?Hmn.
  - intros q Hle. rewrite lookup_insert_ne; [auto|]. intros <-. rewrite Hm in Hp; [done|lia].
  - by apply map_Forall_insert_2.
  - intros k q Hset. destruct (Hs k q Hset) as [? (s0 & ? & ?)]. split; [done|].
    rewrite lookup_insert. case_decide; [subst|by eauto]. exists st'. split; [done|congruence].
  - intros q t Hqt. destruct (Hq q t Hqt) as (s0 & ? & ?).
    rewrite lookup_insert. case_decide; [subst|by eauto]. exists st'. split; [done|congruence].
Qed.

(** Clock readings do not matter for the agreement. *)
Lemma lease_wf_mem l m m' :
  lease_wf (l, m) → m_states m' = m_states m → m_next m' = m_next m → lease_wf (l, m').
Proof. intros [? ? ? ?] Hms Hmn. split; simpl in *; by rewrite ?Hms, ?Hmn. Qed.

(** New objects elsewhere do not matter for the agreement. *)
Lemma lease_wf_kept l m m' :
  lease_wf (l, m) → mem_wf m' → states_kept m m' → lease_wf (l, m').
Proof.
  intros [? Hok Hs Hq] [? ?] [Hsub Hk]. split; simpl in *; auto.
  - intros k p Hp. destruct (Hs k p Hp) as [? (st & ? & ?)].
    split; [done|]. exists st. split; [by eapply lookup_weaken|done].
  - intros p t Ht. destruct (Hq p t Ht) as (st & ? & ?).
    exists st. split; [by eapply lookup_weaken|done].
Qed.

Lemma registerState_wf l m p l' m' :
  lease_wf (l, m) → registerState (Some p) l m = Returns (l', m') →
  lease_wf (l', m') ∧ m_states m' = m_states m ∧ m_limiters m' = m_limiters m ∧
  m_next m' = m_next m.
Proof.
  intros Hwf. unfold registerState. simpl.
  destruct (m_states m !! p) as [st|] eqn:Hp; [|done]. simpl.
  case_decide; [|by intros [= <- <-]].
  destruct (stateSet l !! st_key st) as [q|] eqn:Hk; [by intros [= <- <-]|].
  destruct (st_recoverAt st) as [r|]; [|by intros [= <- <-]].
  intros [= <- <-]. split; [|done].
  destruct Hwf as [Hm Hok Hs Hq]; simpl in *. split; simpl; auto.
  - intros k q. rewrite lookup_insert. unfold enqueue. case_decide.
    + intros [= <-]. subst. rewrite lookup_insert_eq. eauto.
    + intros Hset. destruct (Hs k q Hset) as [? ?]. split; [|done].
      rewrite lookup_insert_is_Some. destruct (decide (p = q)); auto.
  - intros q t. unfold enqueue. rewrite lookup_insert_Some. intros [[<- _]|[Hne Hqt]].
    + exists st. by rewrite lookup_insert_eq.
    + destruct (Hq q t Hqt) as (s0 & Hs0 & Hset). exists s0. split; [done|].
      rewrite lookup_insert_ne; [done|congruence].
Qed.

Lemma lease_wf_touches l m m' p st st' :
  lease_wf (l, m) → touches p m m' st st' → st_key st' = st_key st →
  (state_ok st → state_ok st') → lease_wf (l, m').
Proof.
  intros Hwf [Hb Ha _ Hn] Hk Hok. eapply lease_wf_store; eauto.
  apply Hok, (lw_ok _ Hwf p st Hb).
Qed.

(** Dropping a processed item from both the registry and the queue. *)
Lemma lease_wf_release l m p st :
  lease_wf (l, m) → m_states m !! p = Some st → is_Some (stateQueue l !! p) →
  lease_wf (mkLease (delete (st_key st) (stateSet l)) (delete p (stateQueue l)), m).
Proof.
  intros [Hm Hok Hs Hq] Hp [t Ht]. simpl in *.
  destruct (Hq p t Ht) as (s0 & ? & Hset). simplify_eq.
  split; simpl; auto.
  - intros k q. rewrite lookup_delete_Some. intros [Hne Hk].
    destruct (Hs k q Hk) as [? (s1 & ? & ?)]. rewrite lookup_delete_ne; [eauto|].
    intros <-. congruence.
  - intros q t'. rewrite lookup_delete_Some. intros [Hne Hqt].
    destruct (Hq q t' Hqt) as (s1 & ? & ?). exists s1. split; [done|].
    rewrite lookup_delete_ne; [done|congruence].
Qed.

Lemma lease_wf_requeue l m p st t m' :
  lease_wf (l, m) → m_states m !! p = Some st → is_Some (stateQueue l !! p) →
  m_states m' = m_states m → m_next m' = m_next m →
  lease_wf (mkLease (stateSet l) (enqueue p t (delete p (stateQueue l))), m').
Proof.
  intros Hwf Hp Ht Hms Hmn. apply (lease_wf_mem _ m); [|done..].
  destruct Hwf as [Hm Hok Hs Hq]. simpl in *. unfold enqueue.
  rewrite lookup_delete_eq. split; simpl; auto.
  - intros k q Hk. destruct (Hs k q Hk) as [? ?]. split; [|done].
    rewrite lookup_insert_is_Some, lookup_delete_is_Some. destruct (decide (p = q)); auto.
  - intros q t'. rewrite lookup_insert_Some, lookup_delete_Some. destruct Ht as [t0 Ht].
    intros [[<- _]|(_ & _ & Hqt)]; eauto.
Qed.

(** What one round does: before the recovery time the item is queued again
    and nothing else changes; from then on the breaker is closed and the key
    released. *)
Lemma processItem_spec l m p st :
  m_states m !! p = Some st →
  ∃ l' m', processItem p l m = Returns (l', m') ∧
    (m_next m' = m_next m ∧ m_limiters m' = m_limiters m) ∧
    match st_recoverAt st with
    | Some r =>
        if (clock (m_ticks m) <? r)%Z then
          m_states m' = m_states m ∧
          ∃ t, t = (clock (S (S (m_ticks m))) + (r - clock (S (m_ticks m))))%Z ∧
               l' = mkLease (stateSet l) (enqueue p t (delete p (stateQueue l)))
        else ∃ tm, m_states m' = <[p := recoverBreaker tm st]> (m_states m) ∧
             l' = mkLease (delete (st_key st) (stateSet l)) (delete p (stateQueue l))
    | None => ∃ tm, m_states m' = <[p := recoverBreaker tm st]> (m_states m) ∧
             l' = mkLease (delete (st_key st) (stateSet l)) (delete p (stateQueue l))
    end.
Proof.
  intros Hp. unfold processItem. rewrite Hp. simpl.
  destruct (st_recoverAt st) as [r|].
  - destruct (clock (m_ticks m) <? r)%Z.
    + eexists _, _. split; [reflexivity|]. simpl. eauto 6.
    + unfold recoverBreaker_at. simpl. rewrite Hp. simpl.
      eexists _, _. split; [reflexivity|]. simpl. eauto 6.
  - unfold recoverBreaker_at. simpl. rewrite Hp. simpl.
    eexists _, _. split; [reflexivity|]. simpl. eauto 6.
Qed.

Lemma processItem_wf l m p l' m' :
  lease_wf (l, m) → is_Some (stateQueue l !! p) →
  processItem p l m = Returns (l', m') → lease_wf (l', m').
Proof.
  intros Hwf Hp Heq. pose proof Hp as [t Ht].
  destruct (lw_queue _ Hwf p t Ht) as (st & Hst & _). simpl in Hst.
  destruct (processItem_spec l m p st Hst) as (l1 & m1 & Hpr & [Hn _] & Hcase).
  rewrite Heq in Hpr. injection Hpr as <- <-.
  assert (Hclose : (∃ tm, m_states m' = <[p := recoverBreaker tm st]> (m_states m) ∧
      l' = mkLease (delete (st_key st) (stateSet l)) (delete p (stateQueue l))) → lease_wf (l', m')).
  { intros (tm & Hms & ->).
    eapply lease_wf_store; [by apply lease_wf_release|exact Hst| |
      by apply recoverBreaker_ok, (lw_ok _ Hwf p st)|exact Hms|done].
    by autorewrite with mesh_rw. }
  destruct (st_recoverAt st) as [r|]; [|auto].
  destruct (_ <? r)%Z; [|auto]. destruct Hcase as (Hms & t' & _ & ->).
  by eapply lease_wf_requeue.
Qed.

Lemma lease_step_wf x y : lease_step x y → lease_wf x → lease_wf y.
Proof.
  intros Hstep Hwf. destruct Hstep as [p d l m m1 l' m' Ht Hr|p l m m' Ht|p l m m' Ht|st l m Hok|p t l m l' m' Hq _ Hp].
  - apply triggerBreakerWithTimeWindow_at_inv in Ht as (st & tm & tm2 & Ht).
    eapply (registerState_wf l m1); [|exact Hr].
    eapply lease_wf_touches; eauto with mesh; by autorewrite with mesh_rw.
  - apply triggerBreaker_at_inv in Ht as (st & tm & Ht).
    eapply lease_wf_touches; eauto with mesh; by autorewrite with mesh_rw.
  - apply recoverBreaker_at_inv in Ht as (st & tm & Ht).
    eapply lease_wf_touches; eauto with mesh; by autorewrite with mesh_rw.
  - destruct Hwf as [Hm Hso Hs Hqq]. simpl in *. split; simpl.
    + intros p Hle. rewrite lookup_insert_ne by lia. apply Hm. lia.
    + by apply map_Forall_insert_2.
    + intros k p Hk. destruct (Hs k p Hk) as [? (s0 & Hs0 & ?)]. split; [done|].
      exists s0. rewrite lookup_insert_ne; [done|]. intros <-. rewrite Hm in Hs0; [done|lia].
    + intros p t Hp. destruct (Hqq p t Hp) as (s0 & Hs0 & ?). exists s0.
      rewrite lookup_insert_ne; [done|]. intros <-. rewrite Hm in Hs0; [done|lia].
  - by eapply processItem_wf.
Qed.

Lemma lease_wf_new m :
  mem_wf m → map_Forall (λ _, state_ok) (m_states m) → lease_wf (newBreakerLease, m).
Proof.
  intros [? ?] ?. split; simpl; auto; intros *; rewrite lookup_empty; done.
Qed.

Definition monotone_clock : Prop := ∀ i j, i ≤ j → (clock i ≤ clock j)%Z.

(** C33. In every run from a new lease, over any interleaving of requests,
    manual recoveries, rule changes and rounds of the processing loop, the
    registry and the delaying queue agree (a key is registered exactly when
    its breaker waits in the queue), and a closed breaker has no recovery
    time. *)
Theorem lease_reachable_wf x : rtc lease_step (newBreakerLease, mem0) x → lease_wf x.
Proof.
  assert (lease_wf (newBreakerLease, mem0)) as H0'.
  { apply lease_wf_new; [done|apply map_Forall_empty]. }
  intros Hr. revert H0'. induction Hr; eauto using lease_step_wf.
Qed.

Lemma trigger_closed p d m st :
  m_states m !! p = Some st → st_state st = CLOSED →
  ∃ m' r, triggerBreakerWithTimeWindow_at (Some p) d m = Returns m' ∧
    r = (clock (S (m_ticks m)) + d)%Z ∧ m_ticks m' = S (S (m_ticks m)) ∧
    m_next m' = m_next m ∧
    m_states m' = <[p := {| st_key := st_key st; st_state := OPENED;
       st_lastTransitionTime := Some (clock (m_ticks m)); st_recoverAt := Some r |}]> (m_states m).
Proof.
  intros Hp Hc. unfold triggerBreakerWithTimeWindow_at. simpl. rewrite Hp. simpl.
  rewrite decide_True by congruence. simpl. eexists _, _. split; [done|].
  unfold triggerBreakerWithTimeWindow, transitionTo.
  by rewrite decide_True by congruence.
Qed.

(** A closed breaker opened with a sleeping window [d] while its key is
    free is registered; it waits in the queue until a time not before its
    recovery time, and any round of the loop that takes it from then on
    closes it and releases the key. *)
Theorem sleeping_window_recovers l m p st d :
  monotone_clock → lease_wf (l, m) →
  m_states m !! p = Some st → st_state st = CLOSED → stateSet l !! st_key st = None →
  ∃ m1 l2 m2 st2 r t,
    triggerBreakerWithTimeWindow_at (Some p) d m = Returns m1 ∧
    registerState (Some p) l m1 = Returns (l2, m2) ∧
    m_states m2 !! p = Some st2 ∧ st_state st2 = OPENED ∧ st_recoverAt st2 = Some r ∧
    stateSet l2 !! st_key st = Some p ∧ stateQueue l2 !! p = Some t ∧ (r ≤ t)%Z ∧
    ∀ m3, m_states m3 !! p = Some st2 → (t ≤ clock (m_ticks m3))%Z →
      ∃ l4 m4 st4, processItem p l2 m3 = Returns (l4, m4) ∧
        m_states m4 !! p = Some st4 ∧ st_state st4 = CLOSED ∧
        stateSet l4 !! st_key st = None.
Proof.
  intros Hmono Hwf Hp Hc Hfree.
  destruct (trigger_closed p d m st Hp Hc) as (m1 & r & Htr & Hr & Htk & Hn & Hms).
  assert (Hq : stateQueue l !! p = None).
  { destruct (stateQueue l !! p) as [t|] eqn:Ht; [|done].
    destruct (lw_queue _ Hwf p t Ht) as (s0 & ? & ?). simpl in *. congruence. }
  set (st2 := {| st_key := st_key st; st_state := OPENED;
    st_lastTransitionTime := Some (clock (m_ticks m)); st_recoverAt := Some r |}) in *.
  set (t := (clock (S (m_ticks m1)) + (r - clock (m_ticks m1)))%Z).
  set (l2 := mkLease (<[st_key st := p]> (stateSet l)) (<[p := t]> (stateQueue l))).
  set (m2 := mkMem (m_states m1) (m_limiters m1) (m_next m1) (S (S (m_ticks m1)))).
  assert (Hp1 : m_states m1 !! p = Some st2) by (by rewrite Hms, lookup_insert_eq).
  assert (Hrt : (r ≤ t)%Z) by (pose proof (Hmono (m_ticks m1) (S (m_ticks m1))); lia).
  exists m1, l2, m2, st2, r, t. split_and!; try done.
  - unfold registerState. simpl. rewrite Hp1. simpl. rewrite Hfree.
    unfold l2, enqueue. by rewrite Hq.
  - simpl. by rewrite lookup_insert_eq.
  - simpl. by rewrite lookup_insert_eq.
  - intros m3 Hp3 Ht3.
    destruct (processItem_spec l2 m3 p st2 Hp3) as (l4 & m4 & Hpr & _ & Hcase).
    simpl in Hcase. rewrite (proj2 (Z.ltb_ge _ _)) in Hcase by lia.
    destruct Hcase as (tm & Hm4 & ->). eexists _, m4, (recoverBreaker tm st2).
    split; [exact Hpr|]. rewrite Hm4, lookup_insert_eq.
    split; [done|]. split; [apply recoverBreaker_state|]. simpl. by rewrite lookup_delete_eq.
Qed.

(** A round of the loop never closes a breaker before its recovery time:
    while the clock is before it the object is left alone and waits again,
    until a time not before it. *)
Theorem no_early_recovery l m p st r :
  monotone_clock → lease_wf (l, m) → is_Some (stateQueue l !! p) →
  m_states m !! p = Some st → st_recoverAt st = Some r → (clock (m_ticks m) < r)%Z →
  ∃ l' m' t, processItem p l m = Returns (l', m') ∧ m_states m' = m_states m ∧
    stateSet l' = stateSet l ∧ stateQueue l' !! p = Some t ∧ (r ≤ t)%Z.
Proof.
  intros Hmono Hwf Hq Hp Hr Hlt.
  destruct (processItem_spec l m p st Hp) as (l' & m' & Hpr & _ & Hcase).
  rewrite Hr, (proj2 (Z.ltb_lt _ _) Hlt) in Hcase.
  destruct Hcase as (Hms & t & Ht & ->). eexists _, m', t. split; [exact Hpr|].
  split; [done|]. split; [done|]. simpl. unfold enqueue.
  rewrite lookup_delete_eq, lookup_insert_eq. split; [done|].
  pose proof (Hmono (S (m_ticks m)) (S (S (m_ticks m)))). lia.
Qed.

(** The registry is by key, not by object: while an object that a rule
    update has replaced is still registered under a key, a breaker opened
    with a sleeping window for the new object is not registered, and when
    the old object's time comes and it is processed, the new one stays open
    with nothing left in the registry or the queue that would ever close it. *)
Theorem replaced_breaker_stays_open l m p q st sq rq d :
  lease_wf (l, m) → p ≠ q →
  m_states m !! p = Some st → st_state st = CLOSED →
  stateSet l !! st_key st = Some q →
  m_states m !! q = Some sq → st_recoverAt sq = Some rq →
  ∃ m1 st2,
    triggerBreakerWithTimeWindow_at (Some p) d m = Returns m1 ∧
    registerState (Some p) l m1 = Returns (l, m1) ∧
    st_state st2 = OPENED ∧ is_Some (st_recoverAt st2) ∧
    ∀ m2, m_states m2 = m_states m1 → (rq ≤ clock (m_ticks m2))%Z →
      ∃ l3 m3, processItem q l m2 = Returns (l3, m3) ∧
        m_states m3 !! p = Some st2 ∧
        stateSet l3 !! st_key st = None ∧ stateQueue l3 !! p = None.
Proof.
  intros Hwf Hne Hp Hc Hset Hq Hsq.
  destruct (trigger_closed p d m st Hp Hc) as (m1 & r & Htr & Hr & Htk & Hn & Hms).
  destruct (lw_set _ Hwf _ _ Hset) as [[t Ht] (s0 & ? & Hkq)]. simpl in *. simplify_eq.
  assert (Hqp : stateQueue l !! p = None).
  { destruct (stateQueue l !! p) as [t'|] eqn:Ht'; [|done].
    destruct (lw_queue _ Hwf p t' Ht') as (s1 & ? & ?). simpl in *. congruence. }
  eexists m1, _. split; [done|]. split.
  { unfold registerState. simpl. rewrite Hms, lookup_insert_eq. simpl. by rewrite Hset. }
  split; [|split; [|intros m2 Hm2 Hle]].
  3:{ assert (Hq1 : m_states m2 !! q = Some sq) by (by rewrite Hm2, Hms, lookup_insert_ne).
      destruct (processItem_spec l m2 q sq Hq1) as (l3 & m3 & Hpr & _ & Hcase).
      rewrite Hsq, (proj2 (Z.ltb_ge _ _) Hle) in Hcase. destruct Hcase as (tm & Hm3 & ->).
      eexists _, m3. split; [exact Hpr|].
      rewrite Hm3, lookup_insert_ne, Hm2, Hms, lookup_insert_eq by done.
      split; [done|]. simpl. by rewrite Hkq, lookup_delete_eq, lookup_delete_ne. }
  - done.
  - by eexists.
Qed.
End lease.

(** ** Concrete runs *)

Section witness.
#[local] Existing Instances token_limiter tick_clock.

(** Two objects of one key: 1 is open until 5 and registered, 0 is closed. *)
Definition demo_closed (k : string) : state := mkState k CLOSED None None.
Definition demo_open (k : string) : state := mkState k OPENED (Some 0%Z) (Some 5%Z).
Definition demo_mem : mem := mkMem (<[0 := demo_closed "k"]> {[1 := demo_open "k"]}) ∅ 2 0.
Definition demo_lease : lease := mkLease {["k" := 1]} {[1 := 5%Z]}.

Lemma demo_lease_wf : lease_wf (demo_lease, demo_mem).
Proof.
  split; simpl.
  - intros p Hp. rewrite lookup_insert_ne, lookup_singleton_ne by lia. done.
  - apply map_Forall_insert_2; [done|]. by apply map_Forall_singleton.
  - intros k p [<- <-]%lookup_singleton_Some. split; [by eexists|]. by exists (demo_open "k").
  - intros p t [<- <-]%lookup_singleton_Some. by exists (demo_open "k").
Qed.

Lemma demo_monotone : monotone_clock.
Proof. intros i j Hij. simpl. lia. Qed.

Lemma lease_reachable_wf_witness :
  lease_wf (newBreakerLease, (alloc_state (demo_closed "k") mem0).2).
Proof.
  apply lease_reachable_wf. apply rtc_once. by apply ls_new.
Defined.

Lemma sleeping_window_recovers_witness :
  ∃ m1 l2 m2 st2 r t,
    triggerBreakerWithTimeWindow_at (Some 0) 10 (alloc_state (demo_closed "k") mem0).2 = Returns m1 ∧
    registerState (Some 0) newBreakerLease m1 = Returns (l2, m2) ∧
    m_states m2 !! 0 = Some st2 ∧ st_recoverAt st2 = Some r ∧ stateQueue l2 !! 0 = Some t ∧ (r ≤ t)%Z.
Proof.
  destruct (sleeping_window_recovers newBreakerLease (alloc_state (demo_closed "k") mem0).2 0
    (demo_closed "k") 10) as (m1 & l2 & m2 & st2 & r & t & ? & ? & ? & _ & ? & _ & ? & ? & _).
  - exact demo_monotone.
  - apply lease_wf_new; [split; simpl; intros p Hp; [by rewrite lookup_insert_ne by lia|done]|].
    by apply map_Forall_singleton.
  - reflexivity.
  - reflexivity.
  - reflexivity.
  - by exists m1, l2, m2, st2, r, t.
Defined.

Lemma no_early_recovery_witness :
  ∃ l' m' t, processItem 1 demo_lease demo_mem = Returns (l', m') ∧ m_states m' = m_states demo_mem ∧
    stateSet l' = stateSet demo_lease ∧ stateQueue l' !! 1 = Some t ∧ (5 ≤ t)%Z.
Proof.
  apply (no_early_recovery demo_lease demo_mem 1 (demo_open "k") 5).
  - exact demo_monotone.
  - exact demo_lease_wf.
  - by eexists.
  - reflexivity.
  - reflexivity.
  - done.
Defined.

Lemma replaced_breaker_stays_open_witness :
  ∃ m1 st2, triggerBreakerWithTimeWindow_at (Some 0) 10 demo_mem = Returns m1 ∧
    registerState (Some 0) demo_lease m1 = Returns (demo_lease, m1) ∧ st_state st2 = OPENED.
Proof.
  destruct (replaced_breaker_stays_open demo_lease demo_mem 0 1 (demo_closed "k") (demo_open "k") 5 10)
    as (m1 & st2 & ? & ? & ? & _).
  - exact demo_lease_wf.
  - done.
  - reflexivity.
  - reflexivity.
  - reflexivity.
  - reflexivity.
  - reflexivity.
  - by exists m1, st2.
Defined.
End witness.
