(* ===== verification/BreakerManager.v ===== *)
(** * The circuit-breaker manager

    src/pkg/proxy/circuitbreaker/manager.go: synchronising configurations into
    the limiter and traffic-intercept stores, snapshots, and validating
    requests against the rate-limiting rules.  A manager is its Go object
    together with the memory its pointers refer to. *)

From S2P Require Import Prelude GoStrings GoTime Named Http BreakerTypes LimiterStore InterceptStore Lease.

Section manager.
Context `{RateLimiter} `{Clock} `{Regexp} `{UrlParser} `{RangeOrder}.

Record manager := mkManager {
  breakerMap : gmap string CircuitBreaker;
  limiterStore : store;
  breakerLease : lease;
  interceptStore : trafficInterceptStore;
  memory : mem;
}.

Definition NewManager : manager :=
  mkManager ∅ newLimiterStore newBreakerLease newTrafficInterceptStore mem0.

Definition with_store (mg : manager) (s : store) (m : mem) : manager :=
  mkManager (breakerMap mg) s (breakerLease mg) (interceptStore mg) m.
Definition with_intercept (mg : manager) (s : trafficInterceptStore) : manager :=
  mkManager (breakerMap mg) (limiterStore mg) (breakerLease mg) s (memory mg).
Definition with_map (mg : manager) (b : gmap string CircuitBreaker) : manager :=
  mkManager b (limiterStore mg) (breakerLease mg) (interceptStore mg) (memory mg).
Definition with_lease (mg : manager) (l : lease) (m : mem) : manager :=
  mkManager (breakerMap mg) (limiterStore mg) l (interceptStore mg) m.

(** ** Snapshots *)

(** [arr[i]]. *)
Definition at_index (arr : list string) (i : nat) : outcome string := deref (arr !! i).

Definition snapshot1 (breaker : string) (m : mem) (res : list LimitingSnapshot)
    (ks : string * loc) : outcome (list LimitingSnapshot) :=
  let arr := Split ":"%char ks.1 in
  cbName ← at_index arr 0;
  limitName ← at_index arr 1;
  if decide (cbName ≠ breaker) then Returns res else
  st ← read_at (Some ks.2) m;
  Returns (res ++ [{| ls_LimitingName := limitName; ls_State := st_state st;
                      ls_RecoverTime := st_recoverAt st;
                      ls_LastTransitionTime := st_lastTransitionTime st |}]).

Definition snapshot (breaker : string) (mg : manager) : outcome (list LimitingSnapshot) :=
  let sts := states (limiterStore mg) in
  foldM (snapshot1 breaker (memory mg)) []
    (omap (λ k, (λ p, (k, p)) <$> sts !! k) (range_keys sts)).

(** ** Registering rules *)

Definition closedSnapshot : LimitingSnapshot :=
  {| ls_LimitingName := ""; ls_State := CLOSED; ls_RecoverTime := None;
     ls_LastTransitionTime := None |}.

Definition registerLimiting (cbName : string) (mg : manager) (limiting : RateLimiting) : outcome manager :=
  '(s, m) ← LimiterStore.createOrUpdateRule (key2 cbName (rl_Name limiting)) limiting closedSnapshot
               (limiterStore mg) (memory mg);
  Returns (with_store mg s m).

Definition registerIntercept (cbName : string) (mg : manager) (rule : TrafficInterceptRule) : manager :=
  with_intercept mg (InterceptStore.createOrUpdateRule (key2 cbName (ti_Name rule)) rule (interceptStore mg)).

Definition registerRules (cb : CircuitBreaker) (mg : manager) : outcome manager :=
  mg ← foldM (registerLimiting (cb_Name cb)) mg (cb_RateLimitings cb);
  Returns (fold_left (registerIntercept (cb_Name cb)) (cb_TrafficInterceptRules cb) mg).

Definition unregisterLimitingRule (cbName : string) (mg : manager) (limiting : RateLimiting) : manager :=
  with_store mg (LimiterStore.deleteRule (key2 cbName (rl_Name limiting)) (limiterStore mg)) (memory mg).

Definition unregisterTrafficInterceptRule (cbName : string) (mg : manager)
    (rule : TrafficInterceptRule) : manager :=
  with_intercept mg (InterceptStore.deleteRule (key2 cbName (ti_Name rule)) (interceptStore mg)).

Definition unregisterRules (cbName : string) (mg : manager) : manager :=
  match breakerMap mg !! cbName with
  | None => mg
  | Some cb =>
      let mg := fold_left (unregisterLimitingRule (cb_Name cb)) (cb_RateLimitings cb) mg in
      fold_left (unregisterTrafficInterceptRule (cb_Name cb)) (cb_TrafficInterceptRules cb) mg
  end.

Definition recoverBreaker (key : string) (mg : manager) : outcome manager :=
  match states (limiterStore mg) !! key with
  | None => Returns mg
  | Some p => m ← recoverBreaker_at (Some p) (memory mg);
              Returns (with_lease mg (breakerLease mg) m)
  end.

(** ** Sync *)

Definition optionName (o : ConfigOption) : string :=
  match o with
  | DELETE => "DELETE" | UPDATE => "UPDATE" | CHECK => "CHECK" | RECOVER => "RECOVER"
  | OtherOption n => Itoa n
  end.

(** A response with the snapshot of the named breaker. *)
Definition respond (success : bool) (msg name : string) (mg : manager)
    : outcome (ConfigResp * option string * manager) :=
  snap ← snapshot name mg;
  Returns (mkConfigResp success msg snap, None, mg).

Definition recoverAll (config : CircuitBreaker) (mg : manager) : outcome (manager * string) :=
  foldM (λ '(mg, names) rl,
    let key := key2 (cb_Name config) (rl_Name rl) in
    mg ← recoverBreaker key mg;
    Returns (mg, names +:+ " [" +:+ key +:+ "]")) (mg, EmptyString) (cb_RateLimitings config).

(** [Sync]: the response, the error if any, and the manager afterwards. *)
Definition Sync (config : CircuitBreaker) (mg : manager)
    : outcome (ConfigResp * option string * manager) :=
  let name := cb_Name config in
  match cb_Option config with
  | UPDATE =>
      match breakerMap mg !! name with
      | Some cb =>
          if decide (cb_ConfigHash config = cb_ConfigHash cb) then
            respond true ("circuitBreaker spec hash not updated, hash " +:+ cb_ConfigHash cb) name mg
          else
            let mg := unregisterRules (cb_Name cb) mg in
            mg ← registerRules config (with_map mg (<[name := config]> (breakerMap mg)));
            respond true ("circuitBreaker spec hash updated, old hash " +:+ cb_ConfigHash cb +:+
                          ", new " +:+ cb_ConfigHash config) name mg
      | None =>
          mg ← registerRules config (with_map mg (<[name := config]> (breakerMap mg)));
          respond true ("new circuitBreaker with spec hash " +:+ cb_ConfigHash config) name mg
      end
  | DELETE =>
      match breakerMap mg !! name with
      | Some cb =>
          let mg := unregisterRules (cb_Name cb) mg in
          Returns (mkConfigResp true ("circuitBreaker config " +:+ cb_Name cb +:+ " success deleted") [],
                   None, with_map mg (delete name (breakerMap mg)))
      | None =>
          Returns (mkConfigResp true ("circuitBreaker config " +:+ name +:+ " already deleted") [], None, mg)
      end
  | CHECK =>
      match breakerMap mg !! name with
      | None => Panics (* the message reads [cb.Name] of the nil [cb] *)
      | Some cb =>
          if decide (cb_ConfigHash config ≠ cb_ConfigHash cb) then
            respond false ("unequal circuit breaker " +:+ cb_Name cb +:+ " hash, old " +:+
                           cb_ConfigHash cb +:+ ", new " +:+ cb_ConfigHash config) name mg
          else respond true "" name mg
      end
  | RECOVER =>
      '(mg, names) ← recoverAll config mg;
      respond true ("recovered limiting rules " +:+ names) name mg
  | OtherOption _ =>
      let msg := "illegal config option " +:+ optionName (cb_Option config) in
      Returns (mkConfigResp false msg [], Some msg, mg)
  end.

(** ** Validation *)

Definition stringAppendWildcard (value : string) : list string :=
  if decide (value = "*") then ["*"] else [value; "*"].

(** The loop over the parent paths, longest first. *)
Definition parentUrls (u : URL) (method : string) (subPaths : list string) : list string :=
  (λ i, indexForRest (Scheme u +:+ "://" +:+ Host u +:+ Join "/" (take i subPaths) +:+ "/*") method)
    <$> reverse (seq 1 (length subPaths - 1)).

Definition generateWildcardUrls (URL method : string) : list string :=
  indexForRest URL method ::
  match url_Parse (TrimSuffix URL "/") with
  | None => []
  | Some u =>
      if decide (Path u = EmptyString) then []
      else parentUrls u method (Split "/"%char (Path u))
  end.

Definition generateWildcardSeeds (namespace apiGroup resource verb : string) : list string :=
  [ indexForResource namespace apiGroup resource verb;
    indexForResource "*" apiGroup resource verb;
    indexForResource namespace "*" resource verb;
    indexForResource namespace apiGroup "*" verb;
    indexForResource namespace apiGroup resource "*";
    indexForResource "*" "*" resource verb;
    indexForResource "*" apiGroup "*" verb;
    indexForResource namespace "*" "*" verb;
    indexForResource "*" apiGroup resource "*";
    indexForResource namespace "*" resource "*";
    indexForResource namespace apiGroup "*" "*";
    indexForResource "*" "*" "*" verb;
    indexForResource "*" "*" resource "*";
    indexForResource "*" apiGroup "*" "*";
    indexForResource namespace "*" "*" "*";
    indexForResource "*" "*" "*" "*" ].

Definition overLimit (rl : RateLimiting) : ValidateResult :=
  mkValidateResult false "OverLimit" ("the request is over limit by limiting rule: " +:+ rl_Name rl).

(** The [NORMAL] policy's reaction to a refusal: open the breaker, with a
    sleeping window under the lease or for good. *)
Definition openBreaker (rl : RateLimiting) (sp : option loc) (lm : lease * mem) : outcome (lease * mem) :=
  rp ← deref (rl_RecoverPolicy rl);
  match rp_Type rp with
  | RECOVER_POLICY_SLEEPING_WINDOW =>
      m ← triggerBreakerWithTimeWindow_at sp (ParseDuration_or0 (SleepingWindowSize rp)) lm.2;
      registerState sp lm.1 m
  | RECOVER_POLICY_MANUAL =>
      m ← triggerBreaker_at sp lm.2; Returns (lm.1, m)
  end.

(** The loop body of [doValidation]. *)
Definition validate1 (acc : ValidateResult * (lease * mem))
    (t : option RateLimiting * option loc * option loc) : outcome (ValidateResult * (lease * mem)) :=
  let '(res, (l, m)) := acc in
  let '(limiting, lp, sp) := t in
  st ← read_at sp m;
  rl ← deref limiting;
  let res := if decide (st_state st = OPENED) then
      mkValidateResult false "CircuitBreakerTriggered"
        ("the circuit breaker is triggered. Limiting rule name: " +:+ rl_Name rl)
    else res in
  match rl_TriggerPolicy rl with
  | TRIGGER_POLICY_FORCE_OPENED =>
      m ← triggerBreaker_at sp m;
      Returns (mkValidateResult false "CircuitBreakerForceOpened"
        ("the circuit breaker is force opened. Limiting rule name: " +:+ rl_Name rl), (l, m))
  | TRIGGER_POLICY_FORCE_CLOSED =>
      m ← recoverBreaker_at sp m;
      Returns (mkValidateResult true "CircuitBreakerForceClosed"
        ("the circuit breaker is force closed. Limiting rule name: " +:+ rl_Name rl), (l, m))
  | TRIGGER_POLICY_LIMITER_ONLY =>
      m ← recoverBreaker_at sp m;
      '(ok, m) ← Allow_at lp m;
      if negb ok then Returns (overLimit rl, (l, m))
      else Returns (mkValidateResult (Allowed res) "Limiter Allowed" (vr_Message res), (l, m))
  | TRIGGER_POLICY_NORMAL =>
      if decide (st_state st = CLOSED) then
        '(ok, m) ← Allow_at lp m;
        if negb ok then
          lm ← openBreaker rl sp (l, m);
          Returns (overLimit rl, lm)
        else m ← recoverBreaker_at sp m; Returns (res, (l, m))
      else Returns (res, (l, m))
  end.

Definition doValidation (ts : list (option RateLimiting * option loc * option loc)) (mg : manager)
    : outcome (ValidateResult * manager) :=
  '(res, lm) ← foldM validate1 (mkValidateResult true "Default allow" "", (breakerLease mg, memory mg)) ts;
  Returns (res, with_lease mg lm.1 lm.2).

(** The loop of [ValidateRest] and [ValidateResource] over candidate index
    values: the first one that has rules decides. *)
Fixpoint validateFirst (indexName : string) (vals : list string) (mg : manager)
    : outcome (ValidateResult * manager) :=
  match vals with
  | [] => Returns (mkValidateResult true "No rule match" "", mg)
  | v :: vals' =>
      match byIndex indexName v (limiterStore mg) with
      | [] => validateFirst indexName vals' mg
      | ts => doValidation ts mg
      end
  end.

Definition ValidateRest (URL method : string) (mg : manager) : outcome (ValidateResult * manager) :=
  validateFirst IndexRest (generateWildcardUrls URL method) mg.

Definition ValidateResource (namespace apiGroup resource verb : string) (mg : manager)
    : outcome (ValidateResult * manager) :=
  validateFirst IndexResource (generateWildcardSeeds namespace apiGroup resource verb) mg.


(** ** Invariant *)

Definition rule_ok (rl : RateLimiting) : Prop :=
  is_Some (rl_Bucket rl) ∧
  (rl_TriggerPolicy rl = TRIGGER_POLICY_NORMAL → is_Some (rl_RecoverPolicy rl)).

(** A configuration as the manager's conversion produces it from a valid
    resource: a Kubernetes name (no colon), distinct rule names, a bucket per
    rule, and a recovery policy where the trigger policy needs one. *)
Definition config_ok (cb : CircuitBreaker) : Prop :=
  colon_free (cb_Name cb) = true ∧
  NoDup (rl_Name <$> cb_RateLimitings cb) ∧
  NoDup (ti_Name <$> cb_TrafficInterceptRules cb) ∧
  Forall rule_ok (cb_RateLimitings cb).

Record manager_wf (mg : manager) : Prop := {
  mw_store : store_wf (limiterStore mg) (memory mg);
  mw_lease : lease_wf (breakerLease mg, memory mg);
  mw_names : map_Forall (λ n cb, cb_Name cb = n ∧ config_ok cb) (breakerMap mg);
  mw_rules : holds rl_Name cb_RateLimitings (rules (limiterStore mg)) (breakerMap mg);
  mw_live : ∃ live, intercept_wf (interceptStore mg) live ∧
      holds ti_Name cb_TrafficInterceptRules live (breakerMap mg);
}.

Lemma NewManager_wf : manager_wf NewManager.
Proof.
  split; simpl.
  - apply newLimiterStore_wf.
  - apply lease_wf_new; [done|apply map_Forall_empty].
  - apply map_Forall_empty.
  - intros k x. rewrite lookup_empty. split; [done|]. intros (? & ? & ? & _). done.
  - exists ∅. split; [apply new_wf|]. intros k x. rewrite lookup_empty.
    split; [done|]. intros (? & ? & ? & _). done.
Qed.

Lemma mw_colon_free mg : manager_wf mg →
  map_Forall (λ n _, colon_free n = true) (breakerMap mg).
Proof. intros Hwf n cb Hn. destruct (mw_names _ Hwf n cb Hn) as [<- [? _]]. done. Qed.

(** Registering the rate-limiting rules. *)
Lemma registerLimitings_spec n rls mg :
  store_wf (limiterStore mg) (memory mg) → lease_wf (breakerLease mg, memory mg) →
  Forall rule_ok rls →
  ∃ s m, foldM (registerLimiting n) mg rls = Returns (with_store mg s m) ∧
    store_wf s m ∧ lease_wf (breakerLease mg, m) ∧
    rules s = ins_all rl_Name n rls (rules (limiterStore mg)).
Proof.
  revert mg; induction rls as [|rl rls IH]; intros mg Hs Hl Hok.
  { exists (limiterStore mg), (memory mg). split; [by destruct mg|done]. }
  apply Forall_cons in Hok as [[Hb _] Hok].
  destruct (createOrUpdateRule_correct _ _ (key2 n (rl_Name rl)) rl closedSnapshot Hs Hb)
    as (s1 & m1 & Hr & Hs1 & Hru & Hk & _).
  destruct (IH (with_store mg s1 m1)) as (s2 & m2 & Hf & Hs2 & Hl2 & Hru2); [done| |done|].
  { simpl. eapply lease_wf_kept; [done|apply (wf_mem _ _ Hs1)|done]. }
  assert (registerLimiting n mg rl = Returns (with_store mg s1 m1)) as Hreg.
  { unfold registerLimiting. by rewrite Hr. }
  exists s2, m2. cbn [foldM]. rewrite Hreg. cbn [mbind outcome_bind]. rewrite Hf. split; [done|]. split; [done|]. split; [done|].
  rewrite Hru2. simpl. by rewrite Hru.
Qed.

Lemma registerIntercepts_spec n rs mg live :
  intercept_wf (interceptStore mg) live →
  ∃ s, fold_left (registerIntercept n) rs mg = with_intercept mg s ∧
    intercept_wf s (ins_all ti_Name n rs live).
Proof.
  revert mg live; induction rs as [|r rs IH]; intros mg live Hwf; simpl.
  { exists (interceptStore mg). split; [by destruct mg|done]. }
  destruct (IH (registerIntercept n mg r) (<[key2 n (ti_Name r) := r]> live)) as (s & Hs & Hw).
  { by apply createOrUpdateRule_wf. }
  exists s. rewrite Hs. split; [done|]. apply Hw.
Qed.

Lemma unregisterLimitings_spec n rls mg :
  store_wf (limiterStore mg) (memory mg) →
  ∃ s, fold_left (unregisterLimitingRule n) rls mg = with_store mg s (memory mg) ∧
    store_wf s (memory mg) ∧ rules s = del_all rl_Name n rls (rules (limiterStore mg)).
Proof.
  revert mg; induction rls as [|rl rls IH]; intros mg Hs; simpl.
  { exists (limiterStore mg). split; [by destruct mg|done]. }
  destruct (IH (unregisterLimitingRule n mg rl)) as (s & Hf & Hs1 & Hru).
  { by apply LimiterStore.deleteRule_wf. }
  exists s. rewrite Hf. split; [done|]. split; [done|].
  rewrite Hru. simpl. by rewrite LimiterStore.deleteRule_rules.
Qed.

Lemma unregisterIntercepts_spec n rs mg live :
  intercept_wf (interceptStore mg) live →
  ∃ s, fold_left (unregisterTrafficInterceptRule n) rs mg = with_intercept mg s ∧
    intercept_wf s (del_all ti_Name n rs live).
Proof.
  revert mg live; induction rs as [|r rs IH]; intros mg live Hwf; simpl.
  { exists (interceptStore mg). split; [by destruct mg|done]. }
  destruct (IH (unregisterTrafficInterceptRule n mg r) (delete (key2 n (ti_Name r)) live)) as (s & Hs & Hw).
  { by apply intercept_delete_wf. }
  exists s. rewrite Hs. split; [done|]. apply Hw.
Qed.

(** Unregistering a configuration and forgetting it. *)
Lemma unregisterRules_spec mg n cb :
  manager_wf mg → breakerMap mg !! n = Some cb →
  breakerMap (unregisterRules n mg) = breakerMap mg ∧
  manager_wf (with_map (unregisterRules n mg) (delete n (breakerMap mg))).
Proof.
  intros Hwf Hn. pose proof (mw_names _ Hwf n cb Hn) as [Hcn _]. simpl in Hcn.
  pose proof (mw_colon_free _ Hwf) as Hcf. unfold unregisterRules. rewrite Hn, Hcn.
  destruct (unregisterLimitings_spec n (cb_RateLimitings cb) mg) as (s & Hfs & Hs & Hru);
    [apply Hwf|]. rewrite Hfs.
  destruct (mw_live _ Hwf) as (live & Hlw & Hlh).
  destruct (unregisterIntercepts_spec n (cb_TrafficInterceptRules cb) (with_store mg s (memory mg)) live)
    as (si & Hfi & Hsi); [done|]. rewrite Hfi. split; [done|].
  split; simpl; [done|apply Hwf| | |].
  - apply map_Forall_delete, Hwf.
  - rewrite Hru. eapply holds_delete; [apply Hwf|done..].
  - eexists. split; [exact Hsi|]. by eapply holds_delete.
Qed.

(** Registering a configuration under a free name. *)
Lemma registerRules_spec mg n cb :
  manager_wf mg → breakerMap mg !! n = None → cb_Name cb = n → config_ok cb →
  ∃ mg', registerRules cb (with_map mg (<[n := cb]> (breakerMap mg))) = Returns mg' ∧
    manager_wf mg' ∧ breakerMap mg' = <[n := cb]> (breakerMap mg).
Proof.
  intros Hwf Hn Hcn Hok. pose proof Hok as (Hcf & Hnd1 & Hnd2 & Hrok).
  pose proof (mw_colon_free _ Hwf) as Hcfs.
  set (mg1 := with_map mg (<[n := cb]> (breakerMap mg))).
  destruct (registerLimitings_spec n (cb_RateLimitings cb) mg1) as (s & m & Hf & Hs & Hl & Hru);
    [apply Hwf|apply Hwf|done|].
  destruct (mw_live _ Hwf) as (live & Hlw & Hlh).
  destruct (registerIntercepts_spec n (cb_TrafficInterceptRules cb) (with_store mg1 s m) live)
    as (si & Hfi & Hsi); [done|].
  unfold registerRules. rewrite Hcn, Hf. cbn [mbind outcome_bind]. rewrite Hfi.
  eexists. split; [done|]. split; [|done]. split; simpl; try done.
  - apply map_Forall_insert_2; [done|apply Hwf].
  - rewrite Hru. simpl. apply holds_insert; try done; [apply Hwf|by rewrite <- Hcn].
  - eexists. split; [exact Hsi|]. apply holds_insert; try done. by rewrite <- Hcn.
Qed.

Lemma recoverBreaker_spec mg key :
  manager_wf mg →
  ∃ mg', recoverBreaker key mg = Returns mg' ∧ manager_wf mg' ∧ breakerMap mg' = breakerMap mg.
Proof.
  intros Hwf. unfold recoverBreaker.
  destruct (states (limiterStore mg) !! key) as [p|] eqn:Hp; [|by eexists].
  destruct (wf_sptr _ _ (mw_store _ Hwf) key p Hp) as (st & Hst & _).
  destruct (recoverBreaker_at_spec p (memory mg) st Hst) as (m' & tm & Hr & Ht).
  rewrite Hr. eexists. split; [done|]. split; [|done].
  destruct Hwf. split; simpl; try done.
  - eapply store_wf_touches; eauto using recoverBreaker_key, recoverBreaker_ok.
  - eapply lease_wf_touches; eauto using recoverBreaker_key, recoverBreaker_ok.
Qed.

(** Every key of the store has the form ["configuration:rule"], so taking a
    snapshot never indexes out of range. *)
Lemma snapshot_returns mg breaker :
  manager_wf mg → ∃ res, snapshot breaker mg = Returns res.
Proof.
  intros Hwf. unfold snapshot. set (ks := omap _ _).
  assert (∃ res, foldM (snapshot1 breaker (memory mg)) [] ks = Returns res ∧ True)
    as (res & ? & _); [|by eauto].
  apply foldM_inv; [done|]. intros res [k p] Hin _. unfold ks in Hin.
  apply list_elem_of_omap in Hin as (k' & _ & Hk'). apply fmap_Some in Hk' as (p' & Hp & [= -> ->]).
  destruct (wf_sptr _ _ (mw_store _ Hwf) k' p' Hp) as (st & Hst & _).
  assert (is_Some (rules (limiterStore mg) !! k')) as [r Hr].
  { rewrite <- elem_of_dom, <- (wf_states _ _ (mw_store _ Hwf)), elem_of_dom. by eexists. }
  apply (mw_rules _ Hwf) in Hr as (n & cb & Hn & _ & ->).
  pose proof (mw_colon_free _ Hwf n cb Hn) as Hcf. simpl in Hcf.
  unfold snapshot1, at_index. simpl. rewrite Split_key2 by done. simpl.
  pose proof (Split_nonempty ":"%char (rl_Name r)) as Hne.
  destruct (Split ":"%char (rl_Name r)); [done|]. simpl. case_decide; [by eexists|].
  rewrite (read_at_Some _ _ st) by done. simpl. by eexists.
Qed.

(** ** Synchronisation *)

(** What a message does to the set of configurations. *)
Definition abs_sync (config : CircuitBreaker) (b : gmap string CircuitBreaker)
    : gmap string CircuitBreaker :=
  match cb_Option config with
  | UPDATE =>
      match b !! cb_Name config with
      | Some cb => if decide (cb_ConfigHash config = cb_ConfigHash cb) then b
                   else <[cb_Name config := config]> b
      | None => <[cb_Name config := config]> b
      end
  | DELETE => delete (cb_Name config) b
  | _ => b
  end.

Lemma respond_returns ok msg name mg :
  manager_wf mg → ∃ resp, respond ok msg name mg = Returns (resp, None, mg) ∧ Success resp = ok.
Proof.
  intros Hwf. unfold respond. destruct (snapshot_returns mg name Hwf) as [res ->].
  by eexists.
Qed.

Lemma recoverAll_spec config mg :
  manager_wf mg →
  ∃ mg' names, recoverAll config mg = Returns (mg', names) ∧ manager_wf mg' ∧
               breakerMap mg' = breakerMap mg.
Proof.
  intros Hwf. unfold recoverAll.
  destruct (foldM_inv (λ x, manager_wf x.1 ∧ breakerMap x.1 = breakerMap mg)
    (λ '(mg, names) rl,
       mg ← recoverBreaker (key2 (cb_Name config) (rl_Name rl)) mg;
       Returns (mg, names +:+ " [" +:+ key2 (cb_Name config) (rl_Name rl) +:+ "]"))
    (mg, EmptyString) (cb_RateLimitings config)) as ([mg' names] & Hf & Hw & Hb); [done| |by eauto].
  intros [mg1 names] rl _ [Hw1 Hb1]. simpl in *.
  destruct (recoverBreaker_spec mg1 (key2 (cb_Name config) (rl_Name rl)) Hw1) as (mg2 & -> & Hw2 & Hb2).
  simpl. eexists. split; [done|]. simpl. split; [done|congruence].
Qed.

Lemma Sync_spec mg config :
  manager_wf mg → config_ok config →
  (cb_Option config = CHECK → is_Some (breakerMap mg !! cb_Name config)) →
  ∃ resp err mg', Sync config mg = Returns (resp, err, mg') ∧
    manager_wf mg' ∧ breakerMap mg' = abs_sync config (breakerMap mg) ∧
    (err = None ↔ ∀ n, cb_Option config ≠ OtherOption n).
Proof.
  intros Hwf Hok Hchk. unfold Sync, abs_sync. destruct (cb_Option config) eqn:Ho.
  - destruct (breakerMap mg !! cb_Name config) as [cb|] eqn:Hcb.
    + destruct (mw_names _ Hwf _ _ Hcb) as [Hcn _]. rewrite Hcn.
      destruct (unregisterRules_spec mg _ _ Hwf Hcb) as [Hb Hw].
      eexists _, _, _. split; [done|]. rewrite Hb. done.
    + eexists _, _, _. split; [done|]. by rewrite delete_id.
  - destruct (breakerMap mg !! cb_Name config) as [cb|] eqn:Hcb; [case_decide|].
    + destruct (respond_returns true ("circuitBreaker spec hash not updated, hash " +:+ cb_ConfigHash cb)
        (cb_Name config) mg Hwf) as (resp & -> & _). by eexists _, _, _.
    + destruct (mw_names _ Hwf _ _ Hcb) as [Hcn _]. rewrite Hcn.
      destruct (unregisterRules_spec mg _ _ Hwf Hcb) as [Hb Hw].
      destruct (registerRules_spec _ (cb_Name config) config Hw) as (mg' & Hr & Hw' & Hb');
        [by simpl; rewrite lookup_delete_eq|done|done|].
      simpl in Hr, Hb'. rewrite insert_delete_eq in Hr, Hb'. rewrite Hb.
      unfold with_map in Hr |- *. simpl in Hr |- *. rewrite Hr. simpl.
      edestruct (respond_returns true) as (resp & -> & _); [exact Hw'|]. by eexists _, _, _.
    + destruct (registerRules_spec mg (cb_Name config) config Hwf) as (mg' & -> & Hw' & Hb'); [done..|].
      simpl. edestruct (respond_returns true) as (resp & -> & _); [exact Hw'|]. by eexists _, _, _.
  - destruct (Hchk eq_refl) as [cb ->].
    case_decide; edestruct respond_returns as (resp & -> & _); try exact Hwf; by eexists _, _, _.
  - destruct (recoverAll_spec config mg Hwf) as (mg' & names & -> & Hw' & Hb'). simpl.
    edestruct (respond_returns true) as (resp & -> & _); [exact Hw'|]. by eexists _, _, _.
  - eexists _, _, _. split; [done|]. split; [done|]. split; [done|].
    split; [done|]. intros Hall. by destruct (Hall n).
Qed.

(** C3. Synchronising a configuration refines the plain map of
    configurations: on a well-formed manager, [Sync] of a well-formed message
    returns (for CHECK: when the configuration is known), the set of
    configurations changes as the message says (an update with an unchanged
    hash is ignored), and the manager stays well-formed, that is, the limiter
    store and the indices hold exactly the rules of the configurations; an
    error is reported exactly for an unknown option. *)
Theorem Sync_refines mg config :
  manager_wf mg → config_ok config →
  (cb_Option config = CHECK → is_Some (breakerMap mg !! cb_Name config)) →
  ∃ resp err mg', Sync config mg = Returns (resp, err, mg') ∧
    manager_wf mg' ∧ breakerMap mg' = abs_sync config (breakerMap mg) ∧
    (err = None ↔ ∀ n, cb_Option config ≠ OtherOption n).
Proof. apply Sync_spec. Qed.

(** On a well-formed manager and message, [Sync] panics exactly for a
    CHECK of a configuration the proxy does not have: the not-found message
    reads the name of the nil configuration. *)
Theorem Sync_panics_iff mg config :
  manager_wf mg → config_ok config →
  Sync config mg = Panics ↔ cb_Option config = CHECK ∧ breakerMap mg !! cb_Name config = None.
Proof.
  intros Hwf Hok. split.
  - intros Hp. destruct (decide (cb_Option config = CHECK ∧ breakerMap mg !! cb_Name config = None))
      as [|Hn]; [done|].
    destruct (Sync_spec mg config Hwf Hok) as (? & ? & ? & Hr & _); [|congruence].
    intros Hc. apply not_eq_None_Some. naive_solver.
  - intros [Ho Hn]. unfold Sync. by rewrite Ho, Hn.
Qed.

(** ** Validation *)

(** Calls through the pointers of a well-formed store. *)
Lemma recover_at_wf s l m k sp :
  store_wf s m → lease_wf (l, m) → states s !! k = Some sp →
  ∃ st m' tm, recoverBreaker_at (Some sp) m = Returns m' ∧
    touches sp m m' st (BreakerTypes.recoverBreaker tm st) ∧ store_wf s m' ∧ lease_wf (l, m').
Proof.
  intros Hs Hl Hsp. destruct (wf_sptr _ _ Hs k sp Hsp) as (st & Hst & _).
  destruct (recoverBreaker_at_spec sp m st Hst) as (m' & tm & ? & Ht). exists st, m', tm.
  split_and!; [done|done| |]; [eapply store_wf_touches|eapply lease_wf_touches];
    eauto using recoverBreaker_key, recoverBreaker_ok.
Qed.

Lemma trigger_at_wf s l m k sp :
  store_wf s m → lease_wf (l, m) → states s !! k = Some sp →
  ∃ st m' tm, triggerBreaker_at (Some sp) m = Returns m' ∧
    touches sp m m' st (triggerBreaker tm st) ∧ store_wf s m' ∧ lease_wf (l, m').
Proof.
  intros Hs Hl Hsp. destruct (wf_sptr _ _ Hs k sp Hsp) as (st & Hst & _).
  destruct (triggerBreaker_at_spec sp m st Hst) as (m' & tm & ? & Ht). exists st, m', tm.
  split_and!; [done|done| |]; [eapply store_wf_touches|eapply lease_wf_touches];
    eauto using triggerBreaker_key, triggerBreaker_ok.
Qed.

Lemma allow_at_wf s l m lp lm :
  store_wf s m → lease_wf (l, m) → m_limiters m !! lp = Some lm →
  ∃ ok lm' m', Allow_at (Some lp) m = Returns (ok, m') ∧
    ok = (AllowN lm (clock (m_ticks m)) 1).1 ∧ m_limiters m' = <[lp := lm']> (m_limiters m) ∧
    m_states m' = m_states m ∧ store_wf s m' ∧ lease_wf (l, m').
Proof.
  intros Hs Hl Hlm.
  destruct (Allow_at_spec lp m lm Hlm) as (ok & lm' & m' & ? & Hok & ? & ? & ? & _).
  exists ok, lm', m'. split_and!; [done|by rewrite Hok|done|done| |];
    [by eapply store_wf_limiter|by apply (lease_wf_mem l m)].
Qed.

(** Opening a breaker changes its state object only. *)
Lemma openBreaker_wf s l m k rl sp :
  store_wf s m → lease_wf (l, m) → states s !! k = Some sp → is_Some (rl_RecoverPolicy rl) →
  ∃ l' m', openBreaker rl (Some sp) (l, m) = Returns (l', m') ∧
    m_limiters m' = m_limiters m ∧ (∀ q, q ≠ sp → m_states m' !! q = m_states m !! q) ∧
    (∃ st', m_states m' !! sp = Some st' ∧ st_state st' = OPENED) ∧
    store_wf s m' ∧ lease_wf (l', m').
Proof.
  intros Hs Hl Hsp [rp Hrp]. unfold openBreaker. rewrite Hrp. cbn [deref mbind outcome_bind snd fst].
  destruct (rp_Type rp).
  { destruct (trigger_at_wf s l m k sp Hs Hl Hsp) as (st & m1 & tm & -> & Ht & Hs1 & Hl1).
    exists l, m1. simpl. rewrite (t_after _ _ _ _ _ Ht), lookup_insert_eq.
    split_and!; [done|apply Ht| | |done|done]; [intros q Hq; by rewrite lookup_insert_ne|].
    eexists. split; [done|apply triggerBreaker_state]. }
  destruct (wf_sptr _ _ Hs k sp Hsp) as (st & Hst & _).
  destruct (triggerBreakerWithTimeWindow_at_spec sp (ParseDuration_or0 (SleepingWindowSize rp)) m st Hst)
    as (m1 & tm & tm2 & -> & Ht). simpl.
  assert (Hs1 : store_wf s m1).
  { eapply store_wf_touches; eauto using triggerBreakerWithTimeWindow_key, triggerBreakerWithTimeWindow_ok. }
  assert (Hl1 : lease_wf (l, m1)).
  { eapply lease_wf_touches; eauto using triggerBreakerWithTimeWindow_key, triggerBreakerWithTimeWindow_ok. }
  destruct (wf_sptr _ _ Hs1 k sp Hsp) as (st1 & Hst1 & _).
  assert (∃ l' m', registerState (Some sp) l m1 = Returns (l', m')) as (l' & m' & Hr).
  { unfold registerState. simpl. rewrite Hst1. simpl. repeat case_match; by eexists _, _. }
  destruct (registerState_wf _ _ _ _ _ Hl1 Hr) as (Hl' & Hms & Hml & Hmn).
  exists l', m'. rewrite Hms, Hml, (t_after _ _ _ _ _ Ht), lookup_insert_eq.
  split_and!; [done|apply Ht| | | |done].
  - intros q Hq. by rewrite lookup_insert_ne.
  - eexists. split; [done|apply triggerBreakerWithTimeWindow_state].
  - apply (store_wf_extend s m1); [done| |by apply states_kept_same|by rewrite Hml].
    destruct (wf_mem _ _ Hs1). split; by rewrite ?Hms, ?Hml, Hmn.
Qed.

(** Whether a rule lets a request pass, given its breaker's state and its
    limiter's answer. *)
Definition admits (p : TriggerPolicy) (st : BreakerState) (allow : bool) : bool :=
  match p with
  | TRIGGER_POLICY_FORCE_OPENED => false
  | TRIGGER_POLICY_FORCE_CLOSED => true
  | _ => bool_decide (st = CLOSED) && allow
  end.

(** A round of the validation loop never panics, keeps the invariants, touches
    only the limiter and the state of its rule, and combines the rule's
    verdict with the one so far. *)
Lemma validate1_spec s res l m k rl lp sp st lm :
  store_wf s m → lease_wf (l, m) → rule_ok rl →
  limiters s !! k = Some lp → states s !! k = Some sp →
  m_states m !! sp = Some st → m_limiters m !! lp = Some lm →
  ∃ res' l' m' tick, validate1 (res, (l, m)) (Some rl, Some lp, Some sp) = Returns (res', (l', m')) ∧
    store_wf s m' ∧ lease_wf (l', m') ∧
    (∀ q, q ≠ sp → m_states m' !! q = m_states m !! q) ∧
    (∀ q, q ≠ lp → m_limiters m' !! q = m_limiters m !! q) ∧
    Allowed res' = (bool_decide (rl_TriggerPolicy rl = TRIGGER_POLICY_FORCE_CLOSED) || Allowed res) &&
      admits (rl_TriggerPolicy rl) (st_state st) (AllowN lm (clock tick) 1).1.
Proof.
  intros Hs Hl [_ Hrp] Hlp Hsp Hst Hlm. unfold validate1.
  rewrite (read_at_Some sp m st) by done. cbn [deref mbind outcome_bind].
  destruct (rl_TriggerPolicy rl) eqn:Htp.
  - destruct (decide (st_state st = CLOSED)) as [Hc|Hc].
    + destruct (allow_at_wf s l m lp lm) as (ok & lm' & m1 & -> & Hok & Hml1 & Hms1 & Hs1 & Hl1); [done..|].
      rewrite decide_False by congruence. cbn [mbind outcome_bind]. destruct ok; simpl.
      * destruct (recover_at_wf s l m1 k sp Hs1 Hl1 Hsp) as (st1 & m2 & tm & -> & Ht & Hs2 & Hl2).
        eexists _, _, _, (m_ticks m). split; [done|]. rewrite (t_limiters _ _ _ _ _ Ht), Hml1.
        rewrite (t_after _ _ _ _ _ Ht), Hms1. split_and!; try done;
          try (intros q Hq; by rewrite lookup_insert_ne).
        rewrite <- Hok, bool_decide_eq_true_2 by done. by rewrite andb_true_r.
      * destruct (openBreaker_wf s l m1 k rl sp Hs1 Hl1 Hsp (Hrp eq_refl))
          as (l2 & m2 & -> & Hml2 & Hms2 & _ & Hs2 & Hl2).
        eexists _, _, _, (m_ticks m). split; [done|]. rewrite Hml2, Hml1. rewrite Hms1 in Hms2.
        split_and!; try done; try (intros q Hq; by rewrite lookup_insert_ne).
        simpl. rewrite <- Hok. by rewrite !andb_false_r.
    + rewrite decide_True by (by destruct (st_state st)). eexists _, _, _, 0. split; [done|].
      split_and!; try done. simpl. rewrite bool_decide_eq_false_2 by done. by rewrite andb_false_r.
  - destruct (recover_at_wf s l m k sp Hs Hl Hsp) as (st1 & m1 & tm & -> & Ht & Hs1 & Hl1). simpl.
    destruct (allow_at_wf s l m1 lp lm) as (ok & lm' & m2 & -> & Hok & Hml2 & Hms2 & Hs2 & Hl2);
      [done|done|by rewrite (t_limiters _ _ _ _ _ Ht)|]. simpl.
    rewrite (t_limiters _ _ _ _ _ Ht) in Hml2. rewrite (t_after _ _ _ _ _ Ht) in Hms2.
    destruct ok; eexists _, _, _, (m_ticks m1); (split; [done|]); rewrite Hml2, Hms2;
      (split_and!; try done; try (intros q Hq; by rewrite lookup_insert_ne)).
    + simpl. rewrite <- Hok, andb_true_r. case_decide as Hd; simpl.
      * rewrite bool_decide_eq_false_2 by congruence. by rewrite andb_false_r.
      * rewrite bool_decide_eq_true_2 by (by destruct (st_state st)). by rewrite andb_true_r.
    + simpl. rewrite <- Hok. by rewrite !andb_false_r.
  - destruct (trigger_at_wf s l m k sp Hs Hl Hsp) as (st1 & m1 & tm & -> & Ht & Hs1 & Hl1).
    eexists _, _, _, 0. split; [done|]. rewrite (t_limiters _ _ _ _ _ Ht), (t_after _ _ _ _ _ Ht).
    split_and!; try done; try (intros q Hq; by rewrite lookup_insert_ne).
    simpl. by rewrite andb_false_r.
  - destruct (recover_at_wf s l m k sp Hs Hl Hsp) as (st1 & m1 & tm & -> & Ht & Hs1 & Hl1).
    eexists _, _, _, 0. split; [done|]. rewrite (t_limiters _ _ _ _ _ Ht), (t_after _ _ _ _ _ Ht).
    split_and!; try done; try (intros q Hq; by rewrite lookup_insert_ne).
Qed.

(** The pointers of a stored rule. *)
Lemma stored_pointers s m k r :
  store_wf s m → rules s !! k = Some r →
  ∃ lp sp st lm, limiters s !! k = Some lp ∧ states s !! k = Some sp ∧
    m_states m !! sp = Some st ∧ st_key st = k ∧ m_limiters m !! lp = Some lm ∧
    byKey k s = (Some r, Some lp, Some sp).
Proof.
  intros Hs Hr.
  assert (is_Some (limiters s !! k)) as [lp Hlp].
  { rewrite <- elem_of_dom, (wf_limiters _ _ Hs), elem_of_dom. by eexists. }
  assert (is_Some (states s !! k)) as [sp Hsp].
  { rewrite <- elem_of_dom, (wf_states _ _ Hs), elem_of_dom. by eexists. }
  destruct (wf_sptr _ _ Hs k sp Hsp) as (st & ? & ? & _).
  destruct (wf_lptr _ _ Hs k lp Hlp) as [lm ?].
  exists lp, sp, st, lm. unfold byKey. by rewrite Hr, Hlp, Hsp.
Qed.

(** The validation loop over stored rules never panics. *)
Lemma validate_loop_returns s ks res l m :
  store_wf s m → lease_wf (l, m) →
  Forall (λ k, ∃ r, rules s !! k = Some r ∧ rule_ok r) ks →
  ∃ x, foldM validate1 (res, (l, m)) ((λ k, byKey k s) <$> ks) = Returns x ∧
       store_wf s x.2.2 ∧ lease_wf x.2.
Proof.
  intros Hs Hl Hks.
  apply (foldM_inv (λ x : ValidateResult * (lease * mem), store_wf s x.2.2 ∧ lease_wf x.2)); [done|].
  intros [res1 [l1 m1]] t Ht [Hs1 Hl1]. simpl in *.
  apply list_elem_of_fmap in Ht as (k & -> & Hk). rewrite Forall_forall in Hks.
  destruct (Hks k Hk) as (r & Hr & Hok).
  destruct (stored_pointers s m1 k r Hs1 Hr) as (lp & sp & st & lm & Hlp & Hsp & Hst & _ & Hlm & ->).
  destruct (validate1_spec s res1 l1 m1 k r lp sp st lm) as (res2 & l2 & m2 & _ & ? & ? & ? & _);
    [done..|]. by eexists.
Qed.

(** Whether the rule under [k] lets a request pass in memory [m], when the
    limiters answer [ans]. *)
Definition admits_at (s : store) (m : mem) (ans : loc → bool) (k : string) : bool :=
  match rules s !! k, limiters s !! k, states s !! k ≫= (m_states m !!.) with
  | Some r, Some lp, Some st => admits (rl_TriggerPolicy r) (st_state st) (ans lp)
  | _, _, _ => false
  end.

(** [ans] is what the limiters answer to a single event now, whatever the
    exact instant within the call. *)
Definition limiters_answer (m : mem) (ans : loc → bool) : Prop :=
  ∀ p lm t, m_limiters m !! p = Some lm → (AllowN lm t 1).1 = ans p.

Lemma validate_loop_verdict s m0 ans ks res l m :
  limiters_answer m0 ans → store_wf s m → lease_wf (l, m) → NoDup ks →
  Forall (λ k, ∃ r, rules s !! k = Some r ∧ rule_ok r ∧
                    rl_TriggerPolicy r ≠ TRIGGER_POLICY_FORCE_CLOSED) ks →
  (∀ k sp, k ∈ ks → states s !! k = Some sp → m_states m !! sp = m_states m0 !! sp) →
  (∀ k lp, k ∈ ks → limiters s !! k = Some lp → m_limiters m !! lp = m_limiters m0 !! lp) →
  ∃ x, foldM validate1 (res, (l, m)) ((λ k, byKey k s) <$> ks) = Returns x ∧
       Allowed x.1 = Allowed res && forallb (admits_at s m0 ans) ks.
Proof.
  intros Hans. revert res l m. induction ks as [|k ks IH]; intros res l m Hs Hl Hnd Hks Hsame Hlame.
  { eexists. split; [done|]. simpl. by rewrite andb_true_r. }
  apply NoDup_cons in Hnd as [Hk Hnd]. apply Forall_cons in Hks as [(r & Hr & Hok & Hfc) Hks].
  destruct (stored_pointers s m k r Hs Hr) as (lp & sp & st & lm & Hlp & Hsp & Hst & Hstk & Hlm & Hby).
  destruct (validate1_spec s res l m k r lp sp st lm)
    as (res2 & l2 & m2 & tick & Hv & Hs2 & Hl2 & Hfs & Hfl & Ha); [done..|].
  destruct (IH res2 l2 m2) as (x & Hx & Hax); try done.
  - intros k' sp' Hk' Hsp'. rewrite Hfs; [apply (Hsame k'); [set_solver|done]|].
    intros ->. destruct (wf_sptr _ _ Hs k' sp Hsp') as (st' & ? & ? & _).
    by simplify_eq.
  - intros k' lp' Hk' Hlp'. rewrite Hfl; [apply (Hlame k'); [set_solver|done]|].
    intros ->. by rewrite (wf_linj _ _ Hs k k' lp Hlp Hlp') in Hk.
  - exists x. rewrite fmap_cons. cbn [foldM]. rewrite Hby, Hv. cbn [mbind outcome_bind].
    split; [done|]. rewrite Hax, Ha, bool_decide_eq_false_2 by done. simpl.
    rewrite <- andb_assoc. f_equal. f_equal. unfold admits_at. rewrite Hr, Hlp, Hsp. simpl.
    rewrite <- (Hsame k sp), Hst by (done || set_solver).
    rewrite (Hlame k lp) in Hlm by (done || set_solver). by rewrite (Hans lp lm).
Qed.

(** The rules an index value leads to. *)
Lemma byIndex_keys mg name v f :
  manager_wf mg → (name, f) ∈ indexFunctions →
  ∃ ks, byIndex name v (limiterStore mg) = (λ k, byKey k (limiterStore mg)) <$> ks ∧ NoDup ks ∧
    Forall (λ k, ∃ r, rules (limiterStore mg) !! k = Some r ∧ rule_ok r) ks ∧
    (∀ k, k ∈ ks ↔ ∃ r, rules (limiterStore mg) !! k = Some r ∧ v ∈ f r).
Proof.
  intros Hwf Hin. exists (range_set (index_lookup (limiterStore mg) name v)).
  assert (Hm : ∀ k, k ∈ range_set (index_lookup (limiterStore mg) name v) ↔
            ∃ r, rules (limiterStore mg) !! k = Some r ∧ v ∈ f r).
  { intros k. rewrite elem_of_range_set. by apply (wf_index _ _ (mw_store _ Hwf)). }
  split; [|split; [apply NoDup_range_set|split; [|done]]].
  - unfold byIndex. rewrite (proj2 (existsb_exists' _ _)); [done|].
    exists (name, f). split; [done|]. by apply bool_decide_eq_true.
  - apply Forall_forall. intros k (r & Hr & _)%Hm. exists r. split; [done|].
    apply (mw_rules _ Hwf) in Hr as (n & cb & Hn & Hr & _).
    destruct (mw_names _ Hwf n cb Hn) as [_ (_ & _ & _ & Hall)].
    by rewrite Forall_forall in Hall; apply Hall.
Qed.

(** A request's verdict is the conjunction of its rules' verdicts: when
    no matching rule is force-closed, [doValidation] on the rules of an index
    value returns, and allows the request exactly when every one of them
    admits it (its breaker is closed and its limiter has a token; a
    force-opened rule never does).  In particular the verdict does not depend
    on the map iteration order. *)
Theorem doValidation_conjunction mg name v f ans :
  manager_wf mg → (name, f) ∈ indexFunctions → limiters_answer (memory mg) ans →
  (∀ k r, rules (limiterStore mg) !! k = Some r → v ∈ f r →
          rl_TriggerPolicy r ≠ TRIGGER_POLICY_FORCE_CLOSED) →
  ∃ res mg', doValidation (byIndex name v (limiterStore mg)) mg = Returns (res, mg') ∧
    (Allowed res = true ↔
     ∀ k r, rules (limiterStore mg) !! k = Some r → v ∈ f r →
            admits_at (limiterStore mg) (memory mg) ans k = true).
Proof.
  intros Hwf Hin Hans Hfc.
  destruct (byIndex_keys mg name v f Hwf Hin) as (ks & -> & Hnd & Hks & Hm).
  destruct (validate_loop_verdict (limiterStore mg) (memory mg) ans ks
    (mkValidateResult true "Default allow" "") (breakerLease mg) (memory mg)) as (x & Hx & Ha);
    try done; try apply Hwf.
  - apply Forall_forall. intros k Hk. rewrite Forall_forall in Hks.
    destruct (Hks k Hk) as (r & Hr & Hok). exists r. split_and!; try done.
    apply Hm in Hk as (r' & ? & ?). simplify_eq. eauto.
  - unfold doValidation. rewrite Hx. destruct x as [res [l m]]. simpl in *.
    eexists _, _. split; [done|]. rewrite Ha, forallb_forall. split.
    + intros Hall k r Hr Hv. apply Hall, list_elem_of_In, Hm. eauto.
    + intros Hall k Hk%list_elem_of_In. apply Hm in Hk as (r & ? & ?). eauto.
Qed.

Lemma validateFirst_returns mg name f vals :
  manager_wf mg → (name, f) ∈ indexFunctions →
  ∃ res mg', validateFirst name vals mg = Returns (res, mg') ∧ manager_wf mg' ∧
    breakerMap mg' = breakerMap mg ∧ limiterStore mg' = limiterStore mg.
Proof.
  intros Hwf Hin. induction vals as [|v vals IH]; simpl; [by eexists _, _|].
  destruct (byIndex_keys mg name v f Hwf Hin) as (ks & Hby & Hnd & Hks & Hm).
  destruct (byIndex name v (limiterStore mg)) as [|t ts] eqn:Hb; [done|]. rewrite Hby.
  destruct (validate_loop_returns (limiterStore mg) ks (mkValidateResult true "Default allow" "")
    (breakerLease mg) (memory mg)) as ([res [l m]] & Hx & Hs & Hl); [apply Hwf|apply Hwf|done|].
  unfold doValidation. rewrite Hx. simpl in *. eexists _, _. split; [done|].
  split; [|done]. destruct Hwf. by split.
Qed.

End manager.

(** ** Concrete runs *)

Section witness.
#[local] Existing Instances token_limiter tick_clock literal_regexp order_fwd.

(** A parser for evaluation: everything is the path. *)
Definition path_parser : UrlParser := {| url_Parse := λ s, Some (mkURL "http" "a" s) |}.
#[local] Existing Instance path_parser.

Definition demo_config (o : ConfigOption) (rl : RateLimiting) : CircuitBreaker :=
  mkCircuitBreaker o [demo_white] [rl] "h1" "cb".
(** The rule has an empty bucket: its limiter refuses at once. *)
Definition demo_empty : RateLimiting := demo_rule 0 TRIGGER_POLICY_NORMAL.

Lemma demo_config_ok o b tp : config_ok (demo_config o (demo_rule b tp)).
Proof.
  split_and!; simpl; [done|apply NoDup_singleton|apply NoDup_singleton|].
  apply Forall_singleton. split; simpl; by eexists.
Qed.

Definition after_sync (config : CircuitBreaker) (mg : manager) : manager :=
  match Sync config mg with Returns (_, _, mg') => mg' | Panics => mg end.
Definition demo_manager : manager := after_sync (demo_config UPDATE demo_empty) NewManager.

Lemma demo_manager_wf : manager_wf demo_manager.
Proof.
  destruct (Sync_spec NewManager (demo_config UPDATE demo_empty)) as (? & ? & mg' & Hr & Hwf & _);
    [apply NewManager_wf|apply demo_config_ok|done|].
  unfold demo_manager, after_sync. by rewrite Hr.
Qed.

Lemma Sync_refines_witness :
  ∃ resp err mg', Sync (demo_config UPDATE demo_empty) NewManager = Returns (resp, err, mg') ∧
    manager_wf mg' ∧
    breakerMap mg' = abs_sync (demo_config UPDATE demo_empty) (breakerMap NewManager) ∧
    (err = None ↔ ∀ n, cb_Option (demo_config UPDATE demo_empty) ≠ OtherOption n).
Proof.
  apply Sync_refines; [apply NewManager_wf|apply demo_config_ok|done].
Defined.

Lemma Sync_panics_iff_witness :
  Sync (demo_config CHECK demo_empty) NewManager = Panics ↔
  cb_Option (demo_config CHECK demo_empty) = CHECK ∧ breakerMap NewManager !! "cb" = None.
Proof.
  apply (Sync_panics_iff NewManager (demo_config CHECK demo_empty)); [apply NewManager_wf|apply demo_config_ok].
Defined.

(** What the token limiters of the demo manager answer. *)
Definition demo_answer (p : loc) : bool :=
  match m_limiters (memory demo_manager) !! p with Some l => (AllowN l 0 1).1 | None => false end.

Lemma doValidation_conjunction_witness :
  ∃ res mg', doValidation (byIndex IndexRest "http://a.b/c/*:GET" (limiterStore demo_manager)) demo_manager
      = Returns (res, mg') ∧
    (Allowed res = true ↔
     ∀ k r, rules (limiterStore demo_manager) !! k = Some r → "http://a.b/c/*:GET" ∈ indexFuncForRest r →
            admits_at (limiterStore demo_manager) (memory demo_manager) demo_answer k = true).
Proof.
  apply doValidation_conjunction.
  - exact demo_manager_wf.
  - apply list_elem_of_further, list_elem_of_here.
  - intros p lm t Hp. unfold demo_answer. by rewrite Hp.
  - intros k r (n & cb & Hn & Hr & _)%(mw_rules _ demo_manager_wf) _.
    change (breakerMap demo_manager) with
      ({["cb" := demo_config UPDATE demo_empty]} : gmap string CircuitBreaker) in Hn.
    apply lookup_singleton_Some in Hn as [<- <-]. by apply list_elem_of_singleton in Hr as ->.
Defined.
End witness.
