(* ===== verification/BreakerRuns.v ===== *)
(** * Runs of the circuit-breaker manager

    Everything that happens to the manager of
    src/pkg/proxy/circuitbreaker/manager.go as a step relation, which rules
    decide about a resource request, and the HTTP filter [withBreaker]. *)

From S2P Require Import Prelude GoStrings GoTime Named Http BreakerTypes LimiterStore InterceptStore Lease BreakerManager.

(** ** The HTTP filter, against the [Validator] interface *)

Class Validator (V : Type) := {
  v_ValidateResource : string → string → string → string → V → outcome (ValidateResult * V);
}.

Definition withBreaker {V} `{Validator V} (info : option RequestInfo) (v : V) : outcome (reply * V) :=
  match info with
  | None => Returns (HttpError StatusInternalServerError "no RequestInfo found in the context", v)
  | Some i =>
      '(result, v) ← v_ValidateResource (ri_Namespace i) (ri_APIGroup i) (ri_Resource i) (ri_Verb i) v;
      if negb (Allowed result) then
        Returns (HttpError StatusExpectationFailed
          ("Circuit breaking by TrafficPolicy, " +:+ Reason result +:+ ", " +:+ vr_Message result), v)
      else Returns (ServeNext, v)
  end.

Section runs.
Context `{RateLimiter} `{Clock} `{Regexp} `{UrlParser} `{RangeOrder}.

#[export] Instance manager_validator : Validator manager := {| v_ValidateResource := ValidateResource |}.

(** ** Steps *)

(** A configuration arrives, a request is validated, or the lease's loop
    processes an item that has become available. *)
Inductive manager_step : manager → manager → Prop :=
| ms_sync config mg resp err mg' :
    config_ok config → Sync config mg = Returns (resp, err, mg') → manager_step mg mg'
| ms_rest URL method mg res mg' :
    ValidateRest URL method mg = Returns (res, mg') → manager_step mg mg'
| ms_resource ns g r v mg res mg' :
    ValidateResource ns g r v mg = Returns (res, mg') → manager_step mg mg'
| ms_process p t mg l' m' :
    stateQueue (breakerLease mg) !! p = Some t → (t ≤ (Now (memory mg)).1)%Z →
    processItem p (breakerLease mg) (memory mg) = Returns (l', m') →
    manager_step mg (with_lease mg l' m').

Lemma processItem_manager mg p :
  manager_wf mg → is_Some (stateQueue (breakerLease mg) !! p) →
  ∃ l' m', processItem p (breakerLease mg) (memory mg) = Returns (l', m') ∧
           manager_wf (with_lease mg l' m').
Proof.
  intros Hwf Hq. pose proof Hq as [t Ht].
  destruct (lw_queue _ (mw_lease _ Hwf) p t Ht) as (st & Hst & _). simpl in Hst.
  destruct (processItem_spec (breakerLease mg) (memory mg) p st Hst)
    as (l' & m' & Hp & [Hn Hml] & Hcase).
  exists l', m'. split; [done|].
  pose proof (processItem_wf _ _ _ _ _ (mw_lease _ Hwf) Hq Hp) as Hl'.
  assert (Hclose : (∃ tm, m_states m' = <[p := BreakerTypes.recoverBreaker tm st]> (m_states (memory mg))
        ∧ l' = mkLease (delete (st_key st) (stateSet (breakerLease mg))) (delete p (stateQueue (breakerLease mg)))) →
      store_wf (limiterStore mg) m').
  { intros (tm & Hms & _). eapply store_wf_touches;
      [apply (mw_store _ Hwf)|by split|apply recoverBreaker_key|apply recoverBreaker_ok]. }
  assert (Hs' : store_wf (limiterStore mg) m').
  { destruct (st_recoverAt st) as [r|]; [|auto]. destruct (_ <? r)%Z; [|auto].
    destruct Hcase as [Hms _]. pose proof (mw_store _ Hwf) as Hs.
    apply (store_wf_extend _ (memory mg)); [done| |by apply states_kept_same|by rewrite Hml].
    destruct (wf_mem _ _ Hs). split; by rewrite ?Hms, ?Hml, Hn. }
  destruct Hwf. by split.
Qed.

Lemma resource_in : (IndexResource, indexFuncForResource) ∈ indexFunctions.
Proof. apply list_elem_of_here. Qed.
Lemma rest_in : (IndexRest, indexFuncForRest) ∈ indexFunctions.
Proof. apply list_elem_of_further, list_elem_of_here. Qed.

Lemma manager_step_wf mg mg' : manager_step mg mg' → manager_wf mg → manager_wf mg'.
Proof.
  intros Hstep Hwf. destruct Hstep as [config mg resp err mg' Hok Hr|URL method mg res mg' Hr
    |ns g r v mg res mg' Hr|p t mg l' m' Hq _ Hr].
  - destruct (Sync_spec mg config Hwf Hok) as (? & ? & ? & Hr' & ? & _); [|congruence].
    intros Hc. destruct (breakerMap mg !! cb_Name config) eqn:Hn; [by eexists|].
    unfold Sync in Hr. by rewrite Hc, Hn in Hr.
  - destruct (validateFirst_returns mg IndexRest indexFuncForRest (generateWildcardUrls URL method)
      Hwf rest_in) as (? & ? & Hr' & ? & _). unfold ValidateRest in Hr. congruence.
  - destruct (validateFirst_returns mg IndexResource indexFuncForResource (generateWildcardSeeds ns g r v)
      Hwf resource_in) as (? & ? & Hr' & ? & _). unfold ValidateResource in Hr. congruence.
  - destruct (processItem_manager mg p Hwf) as (? & ? & Hr' & ?); [by eexists|congruence].
Qed.

Lemma reachable_wf mg : rtc manager_step NewManager mg → manager_wf mg.
Proof.
  intros Hr. assert (manager_wf NewManager) as Hw by apply NewManager_wf.
  revert Hw. induction Hr; eauto using manager_step_wf.
Qed.

(** C4. In every run from a new manager, over any interleaving of
    configuration messages, requests and rounds of the lease's loop, the
    manager is well-formed (stores, indices and lease hold exactly the rules
    of the configurations and agree with each other), no request is ever met
    with a panic, and processing a waiting breaker never panics either. *)
Theorem reachable_safe mg :
  rtc manager_step NewManager mg →
  manager_wf mg ∧
  (∀ URL method, ∃ x, ValidateRest URL method mg = Returns x) ∧
  (∀ ns g r v, ∃ x, ValidateResource ns g r v mg = Returns x) ∧
  (∀ p, is_Some (stateQueue (breakerLease mg) !! p) →
        ∃ x, processItem p (breakerLease mg) (memory mg) = Returns x).
Proof.
  intros Hr. pose proof (reachable_wf mg Hr) as Hwf. split_and!; [done| | |].
  - intros URL method. unfold ValidateRest.
    destruct (validateFirst_returns mg IndexRest indexFuncForRest (generateWildcardUrls URL method)
      Hwf rest_in) as (? & ? & -> & _). eauto.
  - intros ns g r v. unfold ValidateResource.
    destruct (validateFirst_returns mg IndexResource indexFuncForResource (generateWildcardSeeds ns g r v)
      Hwf resource_in) as (? & ? & -> & _). eauto.
  - intros p Hp. destruct (processItem_manager mg p Hwf Hp) as (? & ? & -> & _). eauto.
Qed.

(** ** Which rules decide *)

(** A wildcard pattern of the four attributes: [true] is a wildcard. *)
Definition mask : Type := bool * bool * bool * bool.
Definition masks : list mask :=
  [ (false,false,false,false);
    (true,false,false,false); (false,true,false,false); (false,false,true,false); (false,false,false,true);
    (true,true,false,false); (true,false,true,false); (false,true,true,false);
    (true,false,false,true); (false,true,false,true); (false,false,true,true);
    (true,true,true,false); (true,true,false,true); (true,false,true,true); (false,true,true,true);
    (true,true,true,true) ].

Definition star (b : bool) (s : string) : string := if b then "*" else s.
Definition seed_of (ns g r v : string) (k : mask) : string :=
  let '(a, b, c, d) := k in indexForResource (star a ns) (star b g) (star c r) (star d v).
Definition wildcards (k : mask) : nat :=
  let '(a, b, c, d) := k in Nat.b2n a + Nat.b2n b + Nat.b2n c + Nat.b2n d.

(** The rule names the request's attributes, up to the wildcards of [k]. *)
Definition rule_covers (rl : RateLimiting) (ns g r v : string) (k : mask) : Prop :=
  let '(a, b, c, d) := k in
  ∃ rr, rr ∈ rl_ResourceRules rl ∧ star a ns ∈ Namespaces rr ∧ star b g ∈ ApiGroups rr ∧
        star c r ∈ Resources rr ∧ star d v ∈ Verbs rr.

Definition attrs_ok (rl : RateLimiting) : Prop :=
  Forall (λ rr, Forall (λ s, colon_free s = true) (Namespaces rr ++ ApiGroups rr ++ Resources rr))
    (rl_ResourceRules rl).

Lemma seeds_masks ns g r v :
  generateWildcardSeeds ns g r v = seed_of ns g r v <$> masks.
Proof. reflexivity. Qed.

Lemma masks_sorted i j k k' :
  masks !! i = Some k → masks !! j = Some k' → i < j → wildcards k ≤ wildcards k'.
Proof.
  intros Hi Hj Hij.
  assert (Hall : Forall (λ p, wildcards p.1 ≤ wildcards p.2)
    (imap (λ i k, (λ k', (k, k')) <$> drop (S i) masks) masks ≫= id)).
  { apply (bool_decide_eq_true_1 _). vm_compute. reflexivity. }
  rewrite Forall_forall in Hall. apply (Hall (k, k')). apply list_elem_of_bind.
  exists ((λ k', (k, k')) <$> drop (S i) masks). split.
  - unfold id. apply list_elem_of_fmap. exists k'. split; [done|].
    apply (list_elem_of_lookup_2 _ (j - S i)). rewrite lookup_drop. by replace (S i + (j - S i)) with j by lia.
  - apply (list_elem_of_lookup_2 _ i). by rewrite list_lookup_imap, Hi.
Qed.

Lemma masks_all k : k ∈ masks.
Proof. destruct k as [[[[] []] []] []]; apply (bool_decide_eq_true_1 (_ ∈ _)); reflexivity. Qed.

Lemma star_colon_free b s : colon_free s = true → colon_free (star b s) = true.
Proof. by destruct b. Qed.

Lemma seed_covers rl ns g r v k :
  attrs_ok rl → colon_free ns = true → colon_free g = true → colon_free r = true →
  seed_of ns g r v k ∈ indexFuncForResource rl ↔ rule_covers rl ns g r v k.
Proof.
  destruct k as [[[a b] c] d]. intros Hok Hns Hg Hr. simpl. unfold indexFuncForResource.
  rewrite list_elem_of_bind. apply exist_proper. intros rr. split.
  - intros [(ns' & (g' & (r' & (v' & Hk & Hv)%list_elem_of_bind & Hr')%list_elem_of_bind
      & Hg')%list_elem_of_bind & Hns')%list_elem_of_bind Hrr].
    apply list_elem_of_singleton in Hk. unfold attrs_ok in Hok.
    rewrite Forall_forall in Hok. specialize (Hok rr Hrr). rewrite Forall_forall in Hok.
    apply key4_inj in Hk as (<- & <- & <- & <-);
      auto using star_colon_free; apply Hok; rewrite !elem_of_app; auto.
  - intros (Hrr & ? & ? & ? & ?). split; [|done].
    apply list_elem_of_bind. eexists. split; [|done]. apply list_elem_of_bind. eexists. split; [|done].
    apply list_elem_of_bind. eexists. split; [|done]. apply list_elem_of_bind. eexists. split; [|done].
    by apply list_elem_of_singleton.
Qed.

(** The candidate loop stops at the first value that has rules. *)
Lemma validateFirst_first mg name f vals :
  manager_wf mg → (name, f) ∈ indexFunctions →
  let hit v := ∃ k r, rules (limiterStore mg) !! k = Some r ∧ v ∈ f r in
  (validateFirst name vals mg = Returns (mkValidateResult true "No rule match" "", mg) ∧
   ∀ v, v ∈ vals → ¬ hit v) ∨
  ∃ i v, vals !! i = Some v ∧ hit v ∧ (∀ j v', j < i → vals !! j = Some v' → ¬ hit v') ∧
    validateFirst name vals mg = doValidation (byIndex name v (limiterStore mg)) mg.
Proof.
  intros Hwf Hin hit. induction vals as [|v vals IH]; simpl.
  { left. split; [done|]. intros v Hv. by apply not_elem_of_nil in Hv. }
  destruct (byIndex_keys mg name v f Hwf Hin) as (ks & Hby & _ & _ & Hm). rewrite Hby.
  destruct ks as [|k ks].
  - assert (Hno : ¬ hit v).
    { intros (k & r & Hr & Hv). apply (not_elem_of_nil k), Hm. eauto. }
    destruct IH as [[IH1 IH2]|(i & v' & Hi & Hh & Hj & IH)]; [left|right].
    + split; [done|]. intros v' [->|Hv']%elem_of_cons; auto.
    + exists (S i), v'. split_and!; try done. intros [|j] w Hji Hw; simplify_eq/=; [done|].
      apply (Hj j); [lia|done].
  - right. exists 0, v. split_and!; try done; [|intros; lia|].
    + destruct (Hm k) as [(r & ? & ?) _]; [apply list_elem_of_here|]. by exists k, r.
    + by rewrite Hby.
Qed.

(** C22. The most specific rules decide about a resource request, and only
    they do.  On a well-formed manager whose rules have colon-free
    attributes, [ValidateResource] either finds no rule that covers the
    request under any combination of wildcards, and allows it leaving the
    manager as it is; or it validates exactly the rules of one wildcard
    pattern that some rule has, and no rule covers the request with fewer
    wildcards. *)
Theorem ValidateResource_most_specific mg ns g r v :
  manager_wf mg → map_Forall (λ _, attrs_ok) (rules (limiterStore mg)) →
  colon_free ns = true → colon_free g = true → colon_free r = true →
  (ValidateResource ns g r v mg = Returns (mkValidateResult true "No rule match" "", mg) ∧
   ∀ k key rl, rules (limiterStore mg) !! key = Some rl → ¬ rule_covers rl ns g r v k) ∨
  ∃ k, (∃ key rl, rules (limiterStore mg) !! key = Some rl ∧ rule_covers rl ns g r v k) ∧
    (∀ k' key rl, rules (limiterStore mg) !! key = Some rl → rule_covers rl ns g r v k' →
                  wildcards k ≤ wildcards k') ∧
    ValidateResource ns g r v mg =
      doValidation (byIndex IndexResource (seed_of ns g r v k) (limiterStore mg)) mg.
Proof.
  intros Hwf Hat Hns Hg Hr. unfold ValidateResource. rewrite seeds_masks.
  assert (Hhit : ∀ k, (∃ key rl, rules (limiterStore mg) !! key = Some rl ∧
      seed_of ns g r v k ∈ indexFuncForResource rl) ↔
      ∃ key rl, rules (limiterStore mg) !! key = Some rl ∧ rule_covers rl ns g r v k).
  { intros k. split; intros (key & rl & Hrl & Hc); exists key, rl; (split; [done|]);
      eapply seed_covers; eauto; by eapply Hat. }
  destruct (validateFirst_first mg IndexResource indexFuncForResource
    (seed_of ns g r v <$> masks) Hwf resource_in) as [[-> Hno]|(i & sd & Hi & Hh & Hj & ->)].
  - left. split; [done|]. intros k key rl Hrl Hc. apply (Hno (seed_of ns g r v k)).
    + apply list_elem_of_fmap_2, masks_all.
    + apply Hhit. eauto.
  - right. apply list_lookup_fmap_Some in Hi as (k & -> & Hk). exists k.
    split; [by apply Hhit|]. split; [|done]. intros k' key rl Hrl Hc.
    pose proof (masks_all k') as [j Hj']%list_elem_of_lookup.
    destruct (decide (j < i)) as [Hlt|Hge].
    + destruct (Hj j (seed_of ns g r v k') Hlt); [by rewrite list_lookup_fmap, Hj'|].
      apply Hhit. eauto.
    + destruct (decide (i = j)) as [->|Hne]; [by simplify_eq|].
      apply (masks_sorted i j); [done|done|lia].
Qed.

(** ** Tripping *)

Lemma validate1_open rl lp sp st res l m :
  m_states m !! sp = Some st → st_state st = OPENED → rl_TriggerPolicy rl = TRIGGER_POLICY_NORMAL →
  validate1 (res, (l, m)) (Some rl, lp, Some sp) =
    Returns (mkValidateResult false "CircuitBreakerTriggered"
      ("the circuit breaker is triggered. Limiting rule name: " +:+ rl_Name rl), (l, m)).
Proof.
  intros Hst Ho Hp. unfold validate1. rewrite (read_at_Some sp m st) by done. cbn [deref mbind outcome_bind].
  by rewrite Hp, Ho.
Qed.

(** The rule under [k] has the normal trigger policy and its breaker is open. *)
Definition tripped (mg : manager) (k : string) (rl : RateLimiting) : Prop :=
  rl_TriggerPolicy rl = TRIGGER_POLICY_NORMAL ∧
  ∃ sp st, states (limiterStore mg) !! k = Some sp ∧ m_states (memory mg) !! sp = Some st ∧
           st_state st = OPENED.

Lemma validate_loop_open mg ks res :
  manager_wf mg →
  Forall (λ k, ∃ r, rules (limiterStore mg) !! k = Some r ∧ tripped mg k r) ks →
  ∃ res', foldM validate1 (res, (breakerLease mg, memory mg)) ((λ k, byKey k (limiterStore mg)) <$> ks)
            = Returns (res', (breakerLease mg, memory mg)) ∧
    (ks = [] ∧ res' = res ∨ ks ≠ [] ∧ Allowed res' = false ∧ Reason res' = "CircuitBreakerTriggered").
Proof.
  intros Hwf. revert res. induction ks as [|k ks IH]; intros res Hks; [by eexists; eauto|].
  apply Forall_cons in Hks as [(r & Hr & Hp & sp & st & Hsp & Hst & Ho) Hks].
  destruct (stored_pointers _ _ k r (mw_store _ Hwf) Hr) as (lp & sp' & _ & _ & _ & Hsp' & _ & _ & _ & Hby).
  rewrite Hsp in Hsp'. injection Hsp' as <-. rewrite fmap_cons. cbn [foldM]. rewrite Hby.
  erewrite validate1_open by done. cbn [mbind outcome_bind].
  destruct (IH (mkValidateResult false "CircuitBreakerTriggered"
    ("the circuit breaker is triggered. Limiting rule name: " +:+ rl_Name r)) Hks) as (res' & -> & Hc).
  exists res'. split; [done|]. right. split; [done|]. by destruct Hc as [[_ ->]|[_ ?]].
Qed.

Lemma open_denies mg name v f :
  manager_wf mg → (name, f) ∈ indexFunctions →
  (∃ k r, rules (limiterStore mg) !! k = Some r ∧ v ∈ f r) →
  (∀ k r, rules (limiterStore mg) !! k = Some r → v ∈ f r → tripped mg k r) →
  ∃ res, doValidation (byIndex name v (limiterStore mg)) mg = Returns (res, mg) ∧
         Allowed res = false ∧ Reason res = "CircuitBreakerTriggered".
Proof.
  intros Hwf Hin (k & r & Hr & Hv) Hall.
  destruct (byIndex_keys mg name v f Hwf Hin) as (ks & -> & _ & Hks & Hm).
  destruct (validate_loop_open mg ks (mkValidateResult true "Default allow" "") Hwf) as (res & Hf & Hc).
  { apply Forall_forall. intros k' Hk'. apply Hm in Hk' as (r' & Hr' & Hv'). eauto. }
  exists res. unfold doValidation. rewrite Hf. cbn [mbind outcome_bind]. split; [by destruct mg|].
  destruct Hc as [[-> _]|[_ Hc]]; [|done]. destruct (not_elem_of_nil k). apply Hm. eauto.
Qed.

Lemma validate1_trips s res l m k rl lp sp st lm :
  store_wf s m → lease_wf (l, m) → rule_ok rl → rl_TriggerPolicy rl = TRIGGER_POLICY_NORMAL →
  limiters s !! k = Some lp → states s !! k = Some sp →
  m_states m !! sp = Some st → m_limiters m !! lp = Some lm → st_state st = CLOSED →
  (AllowN lm (clock (m_ticks m)) 1).1 = false →
  ∃ l' m' st', validate1 (res, (l, m)) (Some rl, Some lp, Some sp) = Returns (overLimit rl, (l', m')) ∧
    m_states m' !! sp = Some st' ∧ st_state st' = OPENED ∧ store_wf s m' ∧ lease_wf (l', m').
Proof.
  intros Hs Hl [_ Hrp] Hp Hlp Hsp Hst Hlm Hc Hno. unfold validate1.
  rewrite (read_at_Some sp m st) by done. cbn [deref mbind outcome_bind]. rewrite Hp.
  rewrite (decide_True (P := st_state st = CLOSED)) by done.
  destruct (allow_at_wf s l m lp lm) as (ok & lm' & m1 & -> & Hok & _ & _ & Hs1 & Hl1); [done..|].
  rewrite Hno in Hok. subst ok. cbn [mbind outcome_bind negb].
  destruct (openBreaker_wf s l m1 k rl sp Hs1 Hl1 Hsp (Hrp Hp))
    as (l2 & m2 & -> & _ & _ & (st' & Hst' & Ho) & Hs2 & Hl2).
  exists l2, m2, st'. split_and!; done.
Qed.

(** A refusal trips the breaker, and a tripped breaker refuses for free:
    when the only rule of an index value has the normal policy, a closed
    breaker and a limiter without tokens, the request is denied as over the
    limit and the breaker is open afterwards; the next request is denied by
    the breaker and leaves the manager exactly as it is, so it takes no
    token and does not extend the window. *)
Theorem overlimit_trips_breaker mg name v f k rl lp sp st lm :
  manager_wf mg → (name, f) ∈ indexFunctions →
  rules (limiterStore mg) !! k = Some rl → v ∈ f rl →
  (∀ k' r, rules (limiterStore mg) !! k' = Some r → v ∈ f r → k' = k) →
  rl_TriggerPolicy rl = TRIGGER_POLICY_NORMAL →
  limiters (limiterStore mg) !! k = Some lp → states (limiterStore mg) !! k = Some sp →
  m_states (memory mg) !! sp = Some st → st_state st = CLOSED →
  m_limiters (memory mg) !! lp = Some lm → (AllowN lm (clock (m_ticks (memory mg))) 1).1 = false →
  ∃ mg' res, doValidation (byIndex name v (limiterStore mg)) mg = Returns (overLimit rl, mg') ∧
    doValidation (byIndex name v (limiterStore mg')) mg' = Returns (res, mg') ∧
    Allowed res = false ∧ Reason res = "CircuitBreakerTriggered".
Proof.
  intros Hwf Hin Hr Hv Huniq Hp Hlp Hsp Hst Hc Hlm Hno.
  destruct (byIndex_keys mg name v f Hwf Hin) as (ks & Hby & Hnd & Hks & Hm). rewrite Hby.
  assert (ks = [k]) as ->.
  { assert (Hin' : k ∈ ks) by (apply Hm; eauto).
    assert (Ho : ∀ k', k' ∈ ks → k' = k) by (intros k' (r' & ? & ?)%Hm; eauto).
    destruct ks as [|k1 [|k2 ks]]; [by apply not_elem_of_nil in Hin'|set_solver|].
    rewrite (Ho k1), (Ho k2) in Hnd by set_solver. apply NoDup_cons in Hnd as [Hnd _]. set_solver. }
  apply Forall_singleton in Hks as (r' & Hr' & Hok). rewrite Hr in Hr'. injection Hr' as <-.
  destruct (validate1_trips (limiterStore mg) (mkValidateResult true "Default allow" "")
    (breakerLease mg) (memory mg) k rl lp sp st lm) as (l' & m' & st' & Hval & Hst' & Ho & Hs' & Hl');
    try done; try apply Hwf.
  assert (Hbk : byKey k (limiterStore mg) = (Some rl, Some lp, Some sp)).
  { unfold byKey. by rewrite Hr, Hlp, Hsp. }
  assert (Hwf' : manager_wf (with_lease mg l' m')) by (destruct Hwf; by split).
  destruct (open_denies (with_lease mg l' m') name v f Hwf' Hin) as (res & Hres & Ha & HR).
  { by exists k, rl. }
  { simpl. intros k' r Hr' Hv'. assert (k' = k) as -> by eauto. simplify_eq. split; [done|].
    by exists sp, st'. }
  exists (with_lease mg l' m'), res. split_and!; try done.
  unfold doValidation. rewrite list_fmap_singleton, Hbk. cbn [foldM]. by rewrite Hval.
Qed.

(** ** Snapshots *)

Lemma snapshot1_key2 b m acc n nm p st :
  colon_free n = true → m_states m !! p = Some st →
  snapshot1 b m acc (key2 n nm, p) = Returns (if decide (n = b) then
    acc ++ [{| ls_LimitingName := default EmptyString (head (Split ":"%char nm));
               ls_State := st_state st; ls_RecoverTime := st_recoverAt st;
               ls_LastTransitionTime := st_lastTransitionTime st |}] else acc).
Proof.
  intros Hcf Hst. unfold snapshot1, at_index. simpl. rewrite Split_key2 by done. simpl.
  pose proof (Split_nonempty ":"%char nm) as Hne. destruct (Split ":"%char nm) as [|hd tl]; [done|].
  simpl. destruct (decide (n = b)); [rewrite decide_False by auto|by rewrite decide_True].
  by rewrite (read_at_Some p _ st).
Qed.

Lemma snapshot_loop b mg ks acc :
  manager_wf mg → Forall (λ kp, states (limiterStore mg) !! kp.1 = Some kp.2) ks →
  ∃ res, foldM (snapshot1 b (memory mg)) acc ks = Returns (acc ++ res) ∧
    ∀ s, s ∈ res ↔ ∃ n cb rl p st, (key2 n (rl_Name rl), p) ∈ ks ∧ n = b ∧
      breakerMap mg !! n = Some cb ∧ rl ∈ cb_RateLimitings cb ∧
      m_states (memory mg) !! p = Some st ∧
      s = {| ls_LimitingName := default EmptyString (head (Split ":"%char (rl_Name rl)));
             ls_State := st_state st; ls_RecoverTime := st_recoverAt st;
             ls_LastTransitionTime := st_lastTransitionTime st |}.
Proof.
  intros Hwf. revert acc. induction ks as [|[k p] ks IH]; intros acc Hks.
  { exists []. rewrite app_nil_r. split; [done|]. intros s. split; [intros []%not_elem_of_nil|].
    intros (? & ? & ? & ? & ? & []%not_elem_of_nil & _). }
  apply Forall_cons in Hks as [Hkp Hks]. simpl in Hkp.
  destruct (wf_sptr _ _ (mw_store _ Hwf) k p Hkp) as (st & Hst & _).
  assert (is_Some (rules (limiterStore mg) !! k)) as [r Hr].
  { rewrite <- elem_of_dom, <- (wf_states _ _ (mw_store _ Hwf)), elem_of_dom. by eexists. }
  apply (mw_rules _ Hwf) in Hr as (n & cb & Hn & Hin & ->).
  pose proof (mw_colon_free _ Hwf n cb Hn) as Hcf. simpl in Hcf.
  cbn [foldM]. rewrite (snapshot1_key2 _ _ _ _ _ _ st) by done. cbn [mbind outcome_bind].
  assert (Hinj : ∀ n' cb' rl', breakerMap mg !! n' = Some cb' →
     key2 n' (rl_Name rl') = key2 n (rl_Name r) → n' = n ∧ rl_Name rl' = rl_Name r).
  { intros n' cb' rl' Hn' Hk. apply key2_inj_l in Hk; [done|by eapply mw_colon_free|done]. }
  case_decide as Hb.
  - edestruct IH as (res & -> & Hres); [done|]. rewrite <- app_assoc. eexists. split; [done|].
    intros s. rewrite elem_of_app, list_elem_of_singleton, Hres. split.
    + intros [->|(n' & cb' & rl' & p' & st' & Hin' & Hrest)].
      * exists n, cb, r, p, st. split_and!; try done. by left.
      * exists n', cb', rl', p', st'. split; [by right|done].
    + intros (n' & cb' & rl' & p' & st' & Hin' & Hb' & Hn' & Hrl' & Hst' & ->).
      apply elem_of_cons in Hin' as [[= Hk ->]|Hin']; [left|right; by exists n', cb', rl', p', st'].
      apply (Hinj n' cb') in Hk as [-> ->]; [|done]. by simplify_eq.
  - destruct (IH acc Hks) as (res & -> & Hres). exists res. split; [done|]. intros s. rewrite Hres.
    split; intros (n' & cb' & rl' & p' & st' & Hin' & Hb' & Hn' & Hrest); exists n', cb', rl', p', st'.
    + split; [by right|done].
    + split; [|done]. apply elem_of_cons in Hin' as [[= Hk ->]|?]; [|done].
      apply (Hinj n' cb') in Hk as [-> _]; [|done]. by subst.
Qed.

(** A snapshot reports the live breaker states of a configuration and
    nothing else: on a well-formed manager, the snapshot of a known
    configuration with colon-free rule names returns, and it contains exactly
    the entries of the configuration's rules, each with the rule's name and
    its state object's current state, recovery time and transition time. *)
Theorem snapshot_correct mg n cb :
  manager_wf mg → breakerMap mg !! n = Some cb →
  Forall (λ rl, colon_free (rl_Name rl) = true) (cb_RateLimitings cb) →
  ∃ res, snapshot n mg = Returns res ∧
    ∀ s, s ∈ res ↔ ∃ rl p st, rl ∈ cb_RateLimitings cb ∧
      states (limiterStore mg) !! key2 n (rl_Name rl) = Some p ∧ m_states (memory mg) !! p = Some st ∧
      s = {| ls_LimitingName := rl_Name rl; ls_State := st_state st;
             ls_RecoverTime := st_recoverAt st; ls_LastTransitionTime := st_lastTransitionTime st |}.
Proof.
  intros Hwf Hn Hcf. unfold snapshot. set (ks := omap _ _).
  assert (Hks : ∀ k p, (k, p) ∈ ks ↔ states (limiterStore mg) !! k = Some p).
  { intros k p. unfold ks. rewrite list_elem_of_omap. split.
    - intros (k' & _ & (p' & Hp & [= -> ->])%fmap_Some). done.
    - intros Hp. exists k. rewrite elem_of_range_keys, Hp. split; [by eexists|done]. }
  destruct (snapshot_loop n mg ks [] Hwf) as (res & Hf & Hres).
  { apply Forall_forall. intros [k p] Hkp. by apply Hks. }
  exists res. split; [done|]. intros s. rewrite Hres. rewrite Forall_forall in Hcf. split.
  - intros (n' & cb' & rl & p & st & Hin & -> & Hcb & Hrl & Hst & ->). simplify_eq.
    exists rl, p, st. rewrite <- Hks. rewrite Split_free by (by apply Hcf). done.
  - intros (rl & p & st & Hrl & Hp & Hst & ->). exists n, cb, rl, p, st.
    rewrite Hks, Split_free by (by apply Hcf). done.
Qed.

(** ** The filter *)

Lemma withBreaker_returns mg info : manager_wf mg → ∃ rep mg', withBreaker info mg = Returns (rep, mg').
Proof.
  intros Hwf. destruct info as [i|]; simpl; [|by eexists _, _].
  destruct (validateFirst_returns mg IndexResource indexFuncForResource
    (generateWildcardSeeds (ri_Namespace i) (ri_APIGroup i) (ri_Resource i) (ri_Verb i)) Hwf resource_in)
    as (res & mg' & Hr & _). unfold ValidateResource. rewrite Hr. simpl.
  destruct (Allowed res); by eexists _, _.
Qed.

(** The breaker filter of the API-server proxy, on a well-formed manager:
    it never panics, forwards a request exactly when the validator allows it
    and answers 417 with the validator's reason otherwise; without request
    info it answers 500 and consults nobody; and the manager stays
    well-formed with the same configurations. *)
Theorem withBreaker_correct mg info :
  manager_wf mg →
  ∃ rep mg', withBreaker info mg = Returns (rep, mg') ∧ manager_wf mg' ∧
    breakerMap mg' = breakerMap mg ∧
    match info with
    | None => rep = HttpError StatusInternalServerError "no RequestInfo found in the context" ∧ mg' = mg
    | Some i => ∃ res,
        ValidateResource (ri_Namespace i) (ri_APIGroup i) (ri_Resource i) (ri_Verb i) mg = Returns (res, mg') ∧
        (rep = ServeNext ↔ Allowed res = true) ∧
        (∀ code msg, rep = HttpError code msg → code = StatusExpectationFailed ∧
           msg = "Circuit breaking by TrafficPolicy, " +:+ Reason res +:+ ", " +:+ vr_Message res)
    end.
Proof.
  intros Hwf. destruct info as [i|]; simpl; [|by eexists _, _].
  destruct (validateFirst_returns mg IndexResource indexFuncForResource
    (generateWildcardSeeds (ri_Namespace i) (ri_APIGroup i) (ri_Resource i) (ri_Verb i)) Hwf resource_in)
    as (res & mg' & Hr & Hwf' & Hb & _).
  unfold ValidateResource. rewrite Hr. simpl.
  destruct (Allowed res) eqn:Ha; simpl; eexists _, _; (split; [done|]); split_and!; try done;
    exists res; rewrite Ha; naive_solver.
Qed.

End runs.

(** ** Concrete runs *)

Section witness.
#[local] Existing Instances token_limiter tick_clock literal_regexp path_parser.

(** One configuration with a force-opened and a force-closed rule for the same
    requests. *)
Definition forced_config : CircuitBreaker :=
  let r1 := demo_rule 1 TRIGGER_POLICY_FORCE_OPENED in
  let r2 := {| rl_Name := "r2"; rl_ResourceRules := rl_ResourceRules r1; rl_RestRules := rl_RestRules r1;
               rl_Bucket := rl_Bucket r1; rl_TriggerPolicy := TRIGGER_POLICY_FORCE_CLOSED;
               rl_RecoverPolicy := rl_RecoverPolicy r1; rl_ValidatePolicy := rl_ValidatePolicy r1;
               rl_Properties := rl_Properties r1 |} in
  mkCircuitBreaker UPDATE [] [r1; r2] "h1" "cb".

Definition verdict_under `(o : RangeOrder) : option bool :=
  match Sync forced_config NewManager with
  | Returns (_, _, mg) =>
      match ValidateResource "ns1" EmptyString "pods" "get" mg with
      | Returns (res, _) => Some (Allowed res)
      | Panics => None
      end
  | Panics => None
  end.

(** The last rule visited wins between a force-opened and a force-closed
    rule: after the same configuration message on a new manager, the same
    request is allowed under one map iteration order and denied under
    another. *)
Theorem forced_rules_depend_on_order :
  config_ok forced_config ∧
  ∃ o1 o2 : RangeOrder, verdict_under o1 = Some true ∧ verdict_under o2 = Some false.
Proof.
  split.
  - split_and!; simpl; [done| |apply NoDup_nil_2|repeat constructor; simpl; by eexists].
    apply (bool_decide_eq_true_1 _). reflexivity.
  - first [exists order_fwd, order_bwd; split; vm_compute; reflexivity
          |exists order_bwd, order_fwd; split; vm_compute; reflexivity].
Qed.

#[local] Existing Instance order_fwd.

Lemma demo_reachable : rtc manager_step NewManager demo_manager.
Proof.
  apply rtc_once.
  destruct (Sync_spec NewManager (demo_config UPDATE demo_empty)) as (resp & err & mg' & Hr & _);
    [apply NewManager_wf|apply demo_config_ok|done|].
  eapply (ms_sync (demo_config UPDATE demo_empty)); [apply demo_config_ok|].
  unfold demo_manager, after_sync. by rewrite Hr.
Qed.

Lemma reachable_safe_witness :
  manager_wf demo_manager ∧ ∃ x, ValidateResource "ns1" EmptyString "pods" "get" demo_manager = Returns x.
Proof.
  destruct (reachable_safe demo_manager) as (Hwf & _ & Hv & _); [exact demo_reachable|].
  split; [exact Hwf|apply Hv].
Defined.

Lemma demo_rules key rl : rules (limiterStore demo_manager) !! key = Some rl → key = "cb:r1" ∧ rl = demo_empty.
Proof.
  intros (n & cb & Hn & Hr & ->)%(mw_rules _ demo_manager_wf).
  change (breakerMap demo_manager) with
    ({["cb" := demo_config UPDATE demo_empty]} : gmap string CircuitBreaker) in Hn.
  apply lookup_singleton_Some in Hn as [<- <-]. by apply list_elem_of_singleton in Hr as ->.
Qed.

Lemma ValidateResource_most_specific_witness :
  (ValidateResource "ns1" EmptyString "pods" "get" demo_manager
     = Returns (mkValidateResult true "No rule match" "", demo_manager) ∧
   ∀ k key rl, rules (limiterStore demo_manager) !! key = Some rl →
     ¬ rule_covers rl "ns1" EmptyString "pods" "get" k) ∨
  ∃ k, (∃ key rl, rules (limiterStore demo_manager) !! key = Some rl ∧
          rule_covers rl "ns1" EmptyString "pods" "get" k) ∧
    (∀ k' key rl, rules (limiterStore demo_manager) !! key = Some rl →
       rule_covers rl "ns1" EmptyString "pods" "get" k' → wildcards k ≤ wildcards k') ∧
    ValidateResource "ns1" EmptyString "pods" "get" demo_manager =
      doValidation (byIndex IndexResource (seed_of "ns1" EmptyString "pods" "get" k)
                            (limiterStore demo_manager)) demo_manager.
Proof.
  apply ValidateResource_most_specific.
  - exact demo_manager_wf.
  - intros key rl [_ ->]%demo_rules. unfold attrs_ok. repeat constructor.
  - reflexivity.
  - reflexivity.
  - reflexivity.
Defined.

Lemma overlimit_trips_breaker_witness :
  ∃ mg' res,
    doValidation (byIndex IndexResource "ns1::pods:*" (limiterStore demo_manager)) demo_manager
      = Returns (overLimit demo_empty, mg') ∧
    doValidation (byIndex IndexResource "ns1::pods:*" (limiterStore mg')) mg' = Returns (res, mg') ∧
    Allowed res = false ∧ Reason res = "CircuitBreakerTriggered".
Proof.
  eapply (overlimit_trips_breaker demo_manager IndexResource "ns1::pods:*" indexFuncForResource "cb:r1"
    demo_empty).
  - exact demo_manager_wf.
  - apply resource_in.
  - reflexivity.
  - apply (bool_decide_eq_true_1 _). reflexivity.
  - by intros k' r [-> _]%demo_rules.
  - reflexivity.
  - reflexivity.
  - reflexivity.
  - reflexivity.
  - reflexivity.
  - reflexivity.
  - reflexivity.
Defined.

Lemma snapshot_correct_witness :
  ∃ res, snapshot "cb" demo_manager = Returns res ∧
    ∀ s, s ∈ res ↔ ∃ rl p st, rl ∈ [demo_empty] ∧
      states (limiterStore demo_manager) !! key2 "cb" (rl_Name rl) = Some p ∧
      m_states (memory demo_manager) !! p = Some st ∧
      s = {| ls_LimitingName := rl_Name rl; ls_State := st_state st;
             ls_RecoverTime := st_recoverAt st; ls_LastTransitionTime := st_lastTransitionTime st |}.
Proof.
  apply (snapshot_correct demo_manager "cb" (demo_config UPDATE demo_empty)).
  - exact demo_manager_wf.
  - reflexivity.
  - repeat constructor.
Defined.

Lemma withBreaker_correct_witness :
  ∃ rep mg', withBreaker (Some (resourceRequest "ns1" EmptyString "pods" "get")) demo_manager
    = Returns (rep, mg') ∧ manager_wf mg'.
Proof.
  destruct (withBreaker_correct demo_manager (Some (resourceRequest "ns1" EmptyString "pods" "get")))
    as (rep & mg' & Hr & Hwf & _); [exact demo_manager_wf|].
  exists rep, mg'. split; [exact Hr|exact Hwf].
Defined.
End witness.
