(* ===== verification/FaultInjection.v ===== *)
(** * Fault injection

    src/pkg/proxy/faultinjection: the rule store (store.go), the manager that
    synchronises configurations into it and picks the rules of a request
    (manager.go), and the injector that delays or aborts the request
    (injector.go). *)

From Stdlib Require Import SpecFloat.
From S2P Require Import Prelude GoStrings GoTime Named Http.

(** ** Messages (src/pkg/apis/ctrlmesh/proto/faultinjection.pb.go) *)

Record Duration := mkDuration { Seconds : Z; Nanos : Z }.
Record Delay := mkDelay { d_Percent : spec_float; FixedDelay : option Duration }.
Inductive Abort_ErrorType := HttpStatus (code : Z) | GrpcStatus (s : string) | Http2Error (s : string).
Record Abort := mkAbort { a_Percent : spec_float; ErrorType : option Abort_ErrorType }.
Record EffectiveTimeRange := mkEffectiveTimeRange {
  StartTime : string; EndTime : string;
  DaysOfWeek : list Z; DaysOfMonth : list Z; Months : list Z;
}.
Record MatchContent := mkMatchContent { Exact : string; Regex : string }.
Record HttpMatch := mkHttpMatch {
  hm_Host : option MatchContent; hm_Path : option MatchContent; hm_Method : string;
}.
Record ResourceMatch := mkResourceMatch {
  rm_ApiGroups : list string; rm_Namespaces : list string;
  rm_Resources : list string; rm_Verbs : list string;
}.
Record Match_ := mkMatch { m_Resources : list ResourceMatch; m_HttpMatch : list HttpMatch }.
Record HTTPFaultInjection := mkHTTPFaultInjection {
  fi_Delay : option Delay; fi_Abort : option Abort; fi_Match : option Match_;
  fi_Name : string; fi_EffectiveTime : option EffectiveTimeRange;
}.

Inductive FaultOption := FI_UPDATE | FI_DELETE | FI_CHECK | FI_RECOVER | FI_Other (n : Z).
#[export] Instance FaultOption_eq_dec : EqDecision FaultOption.
Proof. solve_decision. Defined.

Record FaultInjection := mkFaultInjection {
  HttpFaultInjections : list HTTPFaultInjection; f_Option : FaultOption;
  f_ConfigHash : string; f_Name : string;
}.
Record FaultInjectConfigResp := mkFIResp { fr_Success : bool; fr_Message : string }.

Definition GetHttpStatus (a : Abort) : Z :=
  match ErrorType a with Some (HttpStatus c) => c | _ => 0 end.

(** [AsDuration] of a protobuf duration, saturating; 0 for nil. *)
Definition AsDuration (x : option Duration) : Z :=
  match x with
  | None => 0
  | Some x =>
      let secs := Seconds x in
      let nanos := Nanos x in
      let d0 := int64 (secs * 1000000000) in
      let d := int64 (d0 + nanos) in
      let overflow := negb (Z.quot d0 1000000000 =? secs)%Z
        || ((secs <? 0) && (nanos <? 0) && (0 <? d))%Z
        || ((0 <? secs) && (0 <? nanos) && (d <? 0))%Z in
      if overflow && (secs <? 0)%Z then (- 2 ^ 63)%Z
      else if overflow && (0 <? secs)%Z then (2 ^ 63 - 1)%Z
      else d
  end.

(** ** The injector *)

(** The random source and the clock, by reading: [Float64] is the n-th number
    drawn, [NowUTC] the n-th reading of [time.Now().In(UTC)]. *)
Class FaultEnv := { Float64 : nat → spec_float; NowUTC : nat → civil }.
Record ticks := mkTicks { draws : nat; readings : nat }.

Record abortWithDelayInjector := mkInjector {
  ij_abort : bool; ij_delay : Z; ij_code : Z; ij_message : string;
}.
Definition injector0 : abortWithDelayInjector := mkInjector false 0 0 EmptyString.

Definition AddDelay (d : Z) (m : abortWithDelayInjector) : abortWithDelayInjector :=
  mkInjector (ij_abort m) (int64 (ij_delay m + d)) (ij_code m) (ij_message m).
Definition AddAbort (code : Z) (message : string) (m : abortWithDelayInjector) : abortWithDelayInjector :=
  mkInjector true (ij_delay m) code message.

(** What [Do] does: the time it waits, and the error it answers with, if any. *)
Record injected := mkInjected { waits : Z; answer : option Status }.

(** The call on the writer for a request; [sent] says whether its header is
    already sent.  [WriteHeader] is given the code before anything else is
    written. *)
Definition Do (quote : string → string) (sent : bool) (method : string) (m : abortWithDelayInjector) : outcome injected :=
  if decide (ij_code m ≠ StatusOK ∧ ij_code m ≠ 0%Z) then
    if WriteHeader_ok sent (ij_code m)
    then Returns (mkInjected (ij_delay m) (Some (HttpToAPIError quote (ij_code m) method (ij_message m))))
    else Panics
  else Returns (mkInjected (ij_delay m) None).

Definition inList (l : list Z) (x : Z) : bool :=
  match l with [] => true | _ => existsb (λ d, (x =? d)%Z) l end.

Section injector.
Context `{FaultEnv}.

Definition isInPercentRange (value : spec_float) (tk : ticks) : bool * ticks :=
  let f := f64_of_Z in
  if SFltb value (f 0%Z) || SFltb (f 100%Z) value then (false, tk)
  else if SFeqb value (f 0%Z) then (true, tk)
  else (SFltb (f64_mul (Float64 (draws tk)) (f 100%Z)) value, mkTicks (S (draws tk)) (readings tk)).

(** [LoadLocation("UTC")] never fails. *)
Definition isEffectiveTimeRange (r : EffectiveTimeRange) (tk : ticks) : bool * ticks :=
  if decide (StartTime r = EmptyString ∨ EndTime r = EmptyString) then (true, tk) else
  let now := NowUTC (readings tk) in
  let tk := mkTicks (draws tk) (S (readings tk)) in
  match ParseClock (StartTime r), ParseClock (EndTime r) with
  | Some (sh, sm, ss), Some (eh, em, es) =>
      let currentTimeInt := secOfDay (Hour now) (Minute now) (Second now) in
      if (currentTimeInt <? secOfDay sh sm ss)%Z then (false, tk)
      else if (secOfDay eh em es <? currentTimeInt)%Z then (false, tk)
      else if negb (inList (DaysOfWeek r) (int32 (Weekday now))) then (false, tk)
      else if negb (inList (DaysOfMonth r) (int32 (Day now))) then (false, tk)
      else if negb (inList (Months r) (int32 (Month now))) then (false, tk)
      else (true, tk)
  | _, _ => (false, tk)
  end.

Definition abortMessage (fi : HTTPFaultInjection) : string :=
  "the fault injection is triggered. Limiting rule name: " +:+ fi_Name fi.

Definition effective (fi : HTTPFaultInjection) (tk : ticks) : bool * ticks :=
  match fi_EffectiveTime fi with Some r => isEffectiveTimeRange r tk | None => (true, tk) end.

Definition inject_delay (fi : HTTPFaultInjection) (x : abortWithDelayInjector * ticks) :=
  match fi_Delay fi with
  | Some d =>
      let '(hit, tk) := isInPercentRange (d_Percent d) x.2 in
      (if hit then AddDelay (AsDuration (FixedDelay d)) x.1 else x.1, tk)
  | None => x
  end.
Definition inject_abort (fi : HTTPFaultInjection) (x : abortWithDelayInjector * ticks) :=
  if ij_abort x.1 then x else
  match fi_Abort fi with
  | Some a =>
      let '(hit, tk) := isInPercentRange (a_Percent a) x.2 in
      (if hit then AddAbort (GetHttpStatus a) (abortMessage fi) x.1 else x.1, tk)
  | None => x
  end.

Definition inject1 (x : abortWithDelayInjector * ticks) (fi : HTTPFaultInjection) :=
  let '(eff, tk) := effective fi x.2 in
  if negb eff then (x.1, tk) else inject_abort fi (inject_delay fi (x.1, tk)).

Definition getInjector (fis : list HTTPFaultInjection) (tk : ticks) : abortWithDelayInjector * ticks :=
  fold_left inject1 fis (injector0, tk).

End injector.

(** ** The store *)

Section fault.
Context `{Regexp} `{RangeOrder}.

Record fstore := mkFStore {
  resourcesMatchRules : gmap string HTTPFaultInjection;
  restMatchRules : gmap string HTTPFaultInjection;
  regexMap : gmap string regexp;
}.
Definition newFaultInjectionStore : fstore := mkFStore ∅ ∅ ∅.

(** Compiling one pattern; an invalid one is only logged. *)
Definition addRegex (p : option MatchContent) (rm : gmap string regexp) : gmap string regexp :=
  match p with
  | Some mc =>
      if decide (Regex mc = EmptyString) then rm else
      match Compile (Regex mc) with
      | Some reg => <[Regex mc := reg]> rm
      | None => rm
      end
  | None => rm
  end.
Definition addRegexes (rm : gmap string regexp) (m : HttpMatch) : gmap string regexp :=
  addRegex (hm_Host m) (addRegex (hm_Path m) rm).

Definition createOrUpdateRule (key : string) (fi : HTTPFaultInjection) (s : fstore) : outcome fstore :=
  mt ← deref (fi_Match fi);
  let s := match m_Resources mt with
           | [] => s
           | _ => mkFStore (<[key := fi]> (resourcesMatchRules s)) (restMatchRules s) (regexMap s)
           end in
  Returns match m_HttpMatch mt with
          | [] => s
          | hms => mkFStore (resourcesMatchRules s) (<[key := fi]> (restMatchRules s))
                     (fold_left addRegexes hms (regexMap s))
          end.

Definition deleteRule (key : string) (s : fstore) : fstore :=
  mkFStore (delete key (resourcesMatchRules s)) (delete key (restMatchRules s)) (regexMap s).

(** ** The manager *)

Record fmanager := mkFManager {
  faultInjectionMap : gmap string FaultInjection;
  faultInjectionStore : fstore;
}.
Definition NewManager : fmanager := mkFManager ∅ newFaultInjectionStore.

Definition registerRules (fi : FaultInjection) (mg : fmanager) : outcome fmanager :=
  s ← foldM (λ s x, createOrUpdateRule (key2 (f_Name fi) (fi_Name x)) x s)
        (faultInjectionStore mg) (HttpFaultInjections fi);
  Returns (mkFManager (faultInjectionMap mg) s).

Definition unregisterRules (fiName : string) (mg : fmanager) : fmanager :=
  match faultInjectionMap mg !! fiName with
  | None => mg
  | Some fi =>
      mkFManager (faultInjectionMap mg)
        (fold_left (λ s x, deleteRule (key2 (f_Name fi) (fi_Name x)) s)
           (HttpFaultInjections fi) (faultInjectionStore mg))
  end.

Definition faultOptionName (o : FaultOption) : string :=
  match o with
  | FI_UPDATE => "UPDATE" | FI_DELETE => "DELETE" | FI_CHECK => "CHECK" | FI_RECOVER => "RECOVER"
  | FI_Other n => Itoa n
  end.

(** The response, the error if any, and the manager afterwards. *)
Definition Sync (config : FaultInjection) (mg : fmanager)
    : outcome (FaultInjectConfigResp * option string * fmanager) :=
  let name := f_Name config in
  let put mg := mkFManager (<[name := config]> (faultInjectionMap mg)) (faultInjectionStore mg) in
  match f_Option config with
  | FI_UPDATE =>
      match faultInjectionMap mg !! name with
      | Some fi =>
          if decide (f_ConfigHash config = f_ConfigHash fi) then
            Returns (mkFIResp true ("faultInjection spec hash not updated, hash " +:+ f_ConfigHash fi), None, mg)
          else
            mg ← registerRules config (put (unregisterRules (f_Name fi) mg));
            Returns (mkFIResp true ("faultInjection spec hash updated, old hash " +:+ f_ConfigHash fi +:+
                                    ", new " +:+ f_ConfigHash config), None, mg)
      | None =>
          mg ← registerRules config (put mg);
          Returns (mkFIResp true ("new faultInjection with spec hash " +:+ f_ConfigHash config), None, mg)
      end
  | FI_DELETE =>
      match faultInjectionMap mg !! name with
      | Some fi =>
          let mg := unregisterRules (f_Name fi) mg in
          Returns (mkFIResp true ("faultInjection config " +:+ f_Name fi +:+ " success deleted"), None,
                   mkFManager (delete name (faultInjectionMap mg)) (faultInjectionStore mg))
      | None =>
          Returns (mkFIResp true ("faultInjection config " +:+ name +:+ " already deleted"), None, mg)
      end
  | FI_CHECK =>
      match faultInjectionMap mg !! name with
      | None => Panics (* the message reads [fi.Name] of the nil [fi] *)
      | Some fi =>
          if decide (f_ConfigHash config ≠ f_ConfigHash fi) then
            Returns (mkFIResp false ("unequal fault injection " +:+ f_Name fi +:+ " hash, old " +:+
                                     f_ConfigHash fi +:+ ", new " +:+ f_ConfigHash config), None, mg)
          else Returns (mkFIResp true "", None, mg)
      end
  | o =>
      let msg := "illegal config option " +:+ faultOptionName o in
      Returns (mkFIResp false msg, Some msg, mg)
  end.

(** ** Matching requests *)

Definition matchContent (s : fstore) (mc : MatchContent) (content : string) : bool :=
  if decide (Exact mc ≠ EmptyString) then bool_decide (Exact mc = content)
  else if decide (Regex mc ≠ EmptyString) then
    match regexMap s !! Regex mc with
    | Some r => MatchString r content
    | None => false
    end
  else false.

Definition matchRest (s : fstore) (mt : Match_) (u : URL) (method : string) : bool :=
  existsb (λ hm,
    if decide (hm_Method hm ≠ "*" ∧ hm_Method hm ≠ EmptyString ∧ hm_Method hm ≠ method) then false
    else if negb (from_option (λ mc, matchContent s mc (Host u)) true (hm_Host hm)) then false
    else if negb (from_option (λ mc, matchContent s mc (Path u)) true (hm_Path hm)) then false
    else true) (m_HttpMatch mt).

Definition matchInList (list : list string) (t : string) : bool :=
  match list with
  | [] => true
  | _ => existsb (λ v, bool_decide (v = "*") || bool_decide (t = v)) list
  end.

Definition resourceMatch (matchs : list ResourceMatch) (namespace apiGroup resource verb : string) : bool :=
  existsb (λ m, matchInList (rm_ApiGroups m) apiGroup && matchInList (rm_Resources m) resource
                && matchInList (rm_Verbs m) verb && matchInList (rm_Namespaces m) namespace) matchs.

(** The loop over a rule map that collects the rules whose match [p] accepts. *)
Definition collect (p : Match_ → bool) (m : gmap string HTTPFaultInjection)
    : outcome (list HTTPFaultInjection) :=
  foldM (λ res k,
    rule ← deref (m !! k); mt ← deref (fi_Match rule);
    Returns (if p mt then res ++ [rule] else res)) [] (range_keys m).

Definition matchHTTPFaultInjection (u : URL) (method : string) (mg : fmanager) :=
  let s := faultInjectionStore mg in collect (λ mt, matchRest s mt u method) (restMatchRules s).
Definition matchResources (namespace apiGroup resource verb : string) (mg : fmanager) :=
  collect (λ mt, resourceMatch (m_Resources mt) namespace apiGroup resource verb)
    (resourcesMatchRules (faultInjectionStore mg)).

Context `{FaultEnv}.

Definition GetInjectorByUrl (u : URL) (method : string) (mg : fmanager) (tk : ticks) :=
  fis ← matchHTTPFaultInjection u method mg; Returns (getInjector fis tk).
Definition GetInjectorByResource (namespace apiGroup resource verb : string) (mg : fmanager) (tk : ticks) :=
  fis ← matchResources namespace apiGroup resource verb mg; Returns (getInjector fis tk).

End fault.

(** ** The HTTP filter, against the [FaultInjectorManager] interface *)

Class FaultInjectorManager (V : Type) := {
  v_GetInjectorByResource : string → string → string → string → V → ticks →
                            outcome (abortWithDelayInjector * ticks);
}.
#[export] Instance fmanager_injects `{Regexp} `{RangeOrder} `{FaultEnv} : FaultInjectorManager fmanager :=
  {| v_GetInjectorByResource := GetInjectorByResource |}.

(** The answer to the request, after a wait. *)
Inductive fault_reply := Serve (wait : Z) | Aborted (wait : Z) (err : Status) | NoInfo.

Definition withFaultInjection {V} `{FaultInjectorManager V} (quote : string → string) (sent : bool)
    (info : option RequestInfo) (method : string) (v : V) (tk : ticks) : outcome (fault_reply * ticks) :=
  match info with
  | None => Returns (NoInfo, tk)
  | Some i =>
      '(injector, tk) ← v_GetInjectorByResource (ri_Namespace i) (ri_APIGroup i) (ri_Resource i) (ri_Verb i) v tk;
      d ← Do quote sent method injector;
      Returns (match answer d with Some e => Aborted (waits d) e | None => Serve (waits d) end, tk)
  end.

(** ** Invariant *)

Definition has_resources (fi : HTTPFaultInjection) : bool :=
  from_option (λ mt, negb (bool_decide (length (m_Resources mt) = 0))) false (fi_Match fi).
Definition has_http (fi : HTTPFaultInjection) : bool :=
  from_option (λ mt, negb (bool_decide (length (m_HttpMatch mt) = 0))) false (fi_Match fi).
Definition resource_rules (cb : FaultInjection) : list HTTPFaultInjection :=
  filter has_resources (HttpFaultInjections cb).
Definition rest_rules (cb : FaultInjection) : list HTTPFaultInjection :=
  filter has_http (HttpFaultInjections cb).

(** A configuration as the conversion produces it: a name without colon,
    distinct rule names, and a match per rule. *)
Definition fconfig_ok (cb : FaultInjection) : Prop :=
  colon_free (f_Name cb) = true ∧ NoDup (fi_Name <$> HttpFaultInjections cb) ∧
  Forall (λ fi, is_Some (fi_Match fi)) (HttpFaultInjections cb).

Section invariant.
Context `{Regexp} `{RangeOrder}.

Definition regex_sound (rm : gmap string regexp) : Prop :=
  map_Forall (λ p r, Compile p = Some r) rm.
(** Every pattern of the rule that compiles is in the map. *)
Definition regex_covers (rm : gmap string regexp) (hm : HttpMatch) : Prop :=
  ∀ mc r, hm_Host hm = Some mc ∨ hm_Path hm = Some mc → Regex mc ≠ EmptyString →
    Compile (Regex mc) = Some r → rm !! Regex mc = Some r.
Definition rule_covered (rm : gmap string regexp) (fi : HTTPFaultInjection) : Prop :=
  ∀ mt hm, fi_Match fi = Some mt → hm ∈ m_HttpMatch mt → regex_covers rm hm.

Record fmanager_wf (mg : fmanager) : Prop := {
  fw_names : map_Forall (λ n cb, f_Name cb = n ∧ fconfig_ok cb) (faultInjectionMap mg);
  fw_res : holds fi_Name resource_rules (resourcesMatchRules (faultInjectionStore mg)) (faultInjectionMap mg);
  fw_rest : holds fi_Name rest_rules (restMatchRules (faultInjectionStore mg)) (faultInjectionMap mg);
  fw_sound : regex_sound (regexMap (faultInjectionStore mg));
  fw_cover : map_Forall (λ _, rule_covered (regexMap (faultInjectionStore mg)))
               (restMatchRules (faultInjectionStore mg));
}.

Lemma addRegex_spec p rm :
  regex_sound rm → regex_sound (addRegex p rm) ∧ rm ⊆ addRegex p rm ∧
  (∀ mc r, p = Some mc → Regex mc ≠ EmptyString → Compile (Regex mc) = Some r →
           addRegex p rm !! Regex mc = Some r).
Proof.
  intros Hs. unfold addRegex. destruct p as [mc|]; [|by split_and!].
  case_decide as He; [split_and!; naive_solver|].
  destruct (Compile (Regex mc)) as [r|] eqn:Hc; [|split_and!; naive_solver].
  split_and!.
  - by apply map_Forall_insert_2.
  - apply map_subseteq_spec. intros q r' Hq. rewrite lookup_insert. case_decide; [subst|done].
    specialize (Hs _ _ Hq). simpl in Hs. congruence.
  - intros ? ? [= ->] _ ?. rewrite lookup_insert_eq. congruence.
Qed.

Lemma addRegexes_spec hms rm :
  regex_sound rm →
  let rm' := fold_left addRegexes hms rm in
  regex_sound rm' ∧ rm ⊆ rm' ∧ (∀ hm, hm ∈ hms → regex_covers rm' hm).
Proof.
  simpl. revert rm. induction hms as [|hm hms IH]; intros rm Hs; simpl.
  { split_and!; [done..|]. intros hm Hin. by apply not_elem_of_nil in Hin. }
  destruct (addRegex_spec (hm_Path hm) rm Hs) as (Hs1 & Hsub1 & Hc1).
  destruct (addRegex_spec (hm_Host hm) _ Hs1) as (Hs2 & Hsub2 & Hc2).
  destruct (IH _ Hs2) as (Hs3 & Hsub3 & Hc3).
  change (addRegex (hm_Host hm) (addRegex (hm_Path hm) rm)) with (addRegexes rm hm) in *.
  split_and!; [done|by etrans; [|etrans]; [|exact Hsub2|]|].
  intros hm' [->|Hin]%elem_of_cons; [|by apply Hc3].
  intros mc r [Hh|Hp] Hne Hr; eapply lookup_weaken; try exact Hsub3.
  - by apply Hc2.
  - eapply lookup_weaken; [|exact Hsub2]. by apply Hc1.
Qed.

Lemma regex_covers_mono rm rm' fi : rule_covered rm fi → rm ⊆ rm' → rule_covered rm' fi.
Proof. intros Hc Hsub mt hm Hmt Hin mc r ???. eapply lookup_weaken; [by eapply Hc|done]. Qed.

(** Registering rules one by one. *)
Lemma createOrUpdateRule_spec key fi s :
  is_Some (fi_Match fi) → regex_sound (regexMap s) →
  map_Forall (λ _, rule_covered (regexMap s)) (restMatchRules s) →
  ∃ s', createOrUpdateRule key fi s = Returns s' ∧
    resourcesMatchRules s' = (if has_resources fi then <[key := fi]> (resourcesMatchRules s)
                              else resourcesMatchRules s) ∧
    restMatchRules s' = (if has_http fi then <[key := fi]> (restMatchRules s) else restMatchRules s) ∧
    regex_sound (regexMap s') ∧ map_Forall (λ _, rule_covered (regexMap s')) (restMatchRules s').
Proof.
  intros [mt Hmt] Hs Hc. unfold createOrUpdateRule, has_resources, has_http. rewrite Hmt. simpl.
  eexists. split; [done|].
  destruct (m_HttpMatch mt) as [|hm hms] eqn:Hh; [by destruct (m_Resources mt)|].
  destruct (addRegexes_spec (hm :: hms) (regexMap s) Hs) as (Hs' & Hsub & Hcov).
  assert (Hall : map_Forall (λ _, rule_covered (fold_left addRegexes (hm :: hms) (regexMap s)))
    (<[key := fi]> (restMatchRules s))).
  { apply map_Forall_insert_2.
    - intros mt' hm' Hmt' Hin. simplify_eq. rewrite Hh in Hin. by apply Hcov.
    - intros k x Hx. eapply regex_covers_mono; [by eapply Hc|done]. }
  by destruct (m_Resources mt).
Qed.

Lemma ins_all_filter (P : HTTPFaultInjection → bool) n x l m :
  ins_all fi_Name n (filter P (x :: l)) m =
  ins_all fi_Name n (filter P l) (if P x then <[key2 n (fi_Name x) := x]> m else m).
Proof.
  rewrite filter_cons. by destruct (P x).
Qed.

Lemma registerRules_loop n l s :
  Forall (λ fi, is_Some (fi_Match fi)) l → regex_sound (regexMap s) →
  map_Forall (λ _, rule_covered (regexMap s)) (restMatchRules s) →
  ∃ s', foldM (λ s x, createOrUpdateRule (key2 n (fi_Name x)) x s) s l = Returns s' ∧
    resourcesMatchRules s' = ins_all fi_Name n (filter has_resources l) (resourcesMatchRules s) ∧
    restMatchRules s' = ins_all fi_Name n (filter has_http l) (restMatchRules s) ∧
    regex_sound (regexMap s') ∧ map_Forall (λ _, rule_covered (regexMap s')) (restMatchRules s').
Proof.
  revert s; induction l as [|x l IH]; intros s Hm Hs Hc; [by eexists|].
  apply Forall_cons in Hm as [Hx Hm]. rewrite !ins_all_filter. cbn [foldM].
  destruct (createOrUpdateRule_spec (key2 n (fi_Name x)) x s Hx Hs Hc)
    as (s1 & -> & <- & <- & Hs1 & Hc1). by apply IH.
Qed.

Lemma unregister_loop n l s :
  let s' := fold_left (λ s x, deleteRule (key2 n (fi_Name x)) s) l s in
  resourcesMatchRules s' = del_all fi_Name n l (resourcesMatchRules s) ∧
  restMatchRules s' = del_all fi_Name n l (restMatchRules s) ∧ regexMap s' = regexMap s.
Proof. simpl. revert s; induction l as [|x l IH]; intros s; simpl; [done|]. apply (IH (deleteRule _ s)). Qed.

Lemma fault_NewManager_wf : fmanager_wf NewManager.
Proof.
  split; simpl; try apply map_Forall_empty;
    intros k x; rewrite lookup_empty; (split; [done|]); by intros (? & ? & ? & _).
Qed.

Lemma fw_colon_free mg : fmanager_wf mg →
  map_Forall (λ n _, colon_free n = true) (faultInjectionMap mg).
Proof. intros Hwf n cb Hn. destruct (fw_names _ Hwf n cb Hn) as [<- [? _]]. done. Qed.

Lemma fault_unregisterRules_spec mg n cb :
  fmanager_wf mg → faultInjectionMap mg !! n = Some cb →
  let s' := faultInjectionStore (unregisterRules n mg) in
  faultInjectionMap (unregisterRules n mg) = faultInjectionMap mg ∧
  fmanager_wf (mkFManager (delete n (faultInjectionMap mg)) s').
Proof.
  intros Hwf Hn. pose proof (fw_names _ Hwf n cb Hn) as [Hcn _]. simpl in Hcn.
  pose proof (fw_colon_free _ Hwf) as Hcf. unfold unregisterRules. rewrite Hn. simpl. rewrite Hcn.
  destruct (unregister_loop n (HttpFaultInjections cb) (faultInjectionStore mg)) as (H1' & H2' & H3').
  split; [done|]. split; simpl; rewrite ?H1', ?H2', ?H3'.
  - apply map_Forall_delete, Hwf.
  - eapply holds_delete; [apply Hwf|done| |done]. apply list_subseteq_filter.
  - eapply holds_delete; [apply Hwf|done| |done]. apply list_subseteq_filter.
  - apply Hwf.
  - intros k x Hx. apply del_all_lookup in Hx as [Hx _]. by eapply (fw_cover _ Hwf).
Qed.

Lemma NoDup_filter_names (P : HTTPFaultInjection → bool) l :
  NoDup (fi_Name <$> l) → NoDup (fi_Name <$> filter P l).
Proof. intros Hnd. eapply sublist_NoDup; [exact Hnd|]. apply fmap_sublist, sublist_filter. Qed.

Lemma fault_registerRules_spec mg cb :
  fmanager_wf mg → faultInjectionMap mg !! f_Name cb = None → fconfig_ok cb →
  ∃ mg', registerRules cb (mkFManager (<[f_Name cb := cb]> (faultInjectionMap mg)) (faultInjectionStore mg))
           = Returns mg' ∧
    fmanager_wf mg' ∧ faultInjectionMap mg' = <[f_Name cb := cb]> (faultInjectionMap mg).
Proof.
  intros Hwf Hn Hok. pose proof Hok as (Hcf & Hnd & Hm). pose proof (fw_colon_free _ Hwf) as Hcfs.
  destruct (registerRules_loop (f_Name cb) (HttpFaultInjections cb) (faultInjectionStore mg) Hm)
    as (s' & Hr & H1' & H2' & Hs & Hc); [apply Hwf..|].
  unfold registerRules. cbn [faultInjectionStore]. rewrite Hr. cbn [mbind outcome_bind].
  eexists. split; [done|]. split; [|done]. split; simpl; try done.
  - apply map_Forall_insert_2; [done|apply Hwf].
  - rewrite H1'. apply (holds_insert fi_Name resource_rules); try done; [apply Hwf|by apply NoDup_filter_names].
  - rewrite H2'. apply (holds_insert fi_Name rest_rules); try done; [apply Hwf|by apply NoDup_filter_names].
Qed.

(** ** Synchronisation *)

Definition abs_fsync (config : FaultInjection) (b : gmap string FaultInjection) : gmap string FaultInjection :=
  match f_Option config with
  | FI_UPDATE =>
      match b !! f_Name config with
      | Some cb => if decide (f_ConfigHash config = f_ConfigHash cb) then b
                   else <[f_Name config := config]> b
      | None => <[f_Name config := config]> b
      end
  | FI_DELETE => delete (f_Name config) b
  | _ => b
  end.

Lemma fault_Sync_spec mg config :
  fmanager_wf mg → fconfig_ok config →
  match Sync config mg with
  | Panics => f_Option config = FI_CHECK ∧ faultInjectionMap mg !! f_Name config = None
  | Returns (resp, err, mg') =>
      fmanager_wf mg' ∧ faultInjectionMap mg' = abs_fsync config (faultInjectionMap mg) ∧
      (err = None ↔ f_Option config = FI_UPDATE ∨ f_Option config = FI_DELETE ∨ f_Option config = FI_CHECK)
  end.
Proof.
  intros Hwf Hok. unfold Sync, abs_fsync.
  destruct (f_Option config) eqn:Ho; try (split_and!; naive_solver).
  - destruct (faultInjectionMap mg !! f_Name config) as [cb|] eqn:Hcb.
    + case_decide; [split_and!; naive_solver|]. destruct (fw_names _ Hwf _ _ Hcb) as [Hcn _]. rewrite Hcn.
      destruct (fault_unregisterRules_spec mg _ _ Hwf Hcb) as [Hb Hw]. rewrite Hb.
      destruct (fault_registerRules_spec _ config Hw) as (mg' & Hr & Hw' & Hb');
        [by simpl; rewrite lookup_delete_eq|done|].
      simpl in Hr, Hb'. rewrite insert_delete_eq in Hr, Hb'. rewrite Hr. simpl. split_and!; naive_solver.
    + destruct (fault_registerRules_spec mg config Hwf) as (mg' & -> & Hw' & Hb'); [done..|].
      simpl. split_and!; naive_solver.
  - destruct (faultInjectionMap mg !! f_Name config) as [cb|] eqn:Hcb.
    + destruct (fw_names _ Hwf _ _ Hcb) as [Hcn _]. rewrite Hcn.
      destruct (fault_unregisterRules_spec mg _ _ Hwf Hcb) as [Hb Hw]. rewrite Hb. split_and!; naive_solver.
    + rewrite delete_id by done. split_and!; naive_solver.
  - destruct (faultInjectionMap mg !! f_Name config) as [cb|] eqn:Hcb; [|done].
    case_decide; split_and!; naive_solver.
Qed.

(** C34. Synchronising fault-injection configurations refines the plain map of
    configurations: on a well-formed manager, [Sync] of a well-formed message
    panics exactly for a CHECK of an unknown configuration; otherwise it
    returns, the set of configurations changes as the message says, both rule
    maps hold exactly the rules of the configurations with a resource
    (respectively an HTTP) match with every valid pattern compiled, and an
    error is reported exactly for the options that are neither update, delete
    nor check (recover included). *)
Theorem fault_Sync_refines mg config :
  fmanager_wf mg → fconfig_ok config →
  match Sync config mg with
  | Panics => f_Option config = FI_CHECK ∧ faultInjectionMap mg !! f_Name config = None
  | Returns (resp, err, mg') =>
      fmanager_wf mg' ∧ faultInjectionMap mg' = abs_fsync config (faultInjectionMap mg) ∧
      (err = None ↔ f_Option config = FI_UPDATE ∨ f_Option config = FI_DELETE ∨ f_Option config = FI_CHECK)
  end.
Proof. apply fault_Sync_spec. Qed.

(** ** Matching *)

(** What a match means, with patterns compiled on the spot. *)
Definition content_matches (mc : MatchContent) (content : string) : Prop :=
  (Exact mc ≠ EmptyString ∧ Exact mc = content) ∨
  (Exact mc = EmptyString ∧ Regex mc ≠ EmptyString ∧
   ∃ r, Compile (Regex mc) = Some r ∧ MatchString r content = true).
Definition opt_matches (o : option MatchContent) (content : string) : Prop :=
  ∀ mc, o = Some mc → content_matches mc content.
Definition http_matches (fi : HTTPFaultInjection) (u : URL) (method : string) : Prop :=
  ∃ mt hm, fi_Match fi = Some mt ∧ hm ∈ m_HttpMatch mt ∧
    (hm_Method hm = "*" ∨ hm_Method hm = EmptyString ∨ hm_Method hm = method) ∧
    opt_matches (hm_Host hm) (Host u) ∧ opt_matches (hm_Path hm) (Path u).

Definition list_matches (l : list string) (t : string) : Prop := l = [] ∨ "*" ∈ l ∨ t ∈ l.
Definition resource_matches (fi : HTTPFaultInjection) (ns g r v : string) : Prop :=
  ∃ mt m, fi_Match fi = Some mt ∧ m ∈ m_Resources mt ∧
    list_matches (rm_ApiGroups m) g ∧ list_matches (rm_Resources m) r ∧
    list_matches (rm_Verbs m) v ∧ list_matches (rm_Namespaces m) ns.

Lemma matchInList_spec l t : matchInList l t = true ↔ list_matches l t.
Proof.
  unfold matchInList, list_matches. destruct l as [|x l]; [naive_solver|].
  rewrite existsb_exists'. split.
  - intros (v & Hv & [Hb%bool_decide_eq_true|Hb%bool_decide_eq_true]%orb_true_iff);
      subst; auto.
  - intros [?|[Hs|Ht]]; [done| |]; [exists "*"|exists t]; (split; [done|]);
      apply orb_true_iff; rewrite !bool_decide_eq_true; auto.
Qed.

Lemma resourceMatch_spec ms ns g r v :
  resourceMatch ms ns g r v = true ↔ ∃ m, m ∈ ms ∧
    list_matches (rm_ApiGroups m) g ∧ list_matches (rm_Resources m) r ∧
    list_matches (rm_Verbs m) v ∧ list_matches (rm_Namespaces m) ns.
Proof.
  unfold resourceMatch. rewrite existsb_exists'. setoid_rewrite andb_true_iff.
  setoid_rewrite andb_true_iff. setoid_rewrite andb_true_iff.
  setoid_rewrite matchInList_spec. naive_solver.
Qed.

Lemma matchContent_spec s mc content :
  regex_sound (regexMap s) →
  (Regex mc ≠ EmptyString → ∀ r, Compile (Regex mc) = Some r → regexMap s !! Regex mc = Some r) →
  matchContent s mc content = true ↔ content_matches mc content.
Proof.
  intros Hs Hc. unfold matchContent, content_matches.
  case_decide as He; [rewrite bool_decide_eq_true; naive_solver|].
  case_decide as Hr; [|naive_solver].
  destruct (regexMap s !! Regex mc) as [r|] eqn:Hl.
  - pose proof (Hs _ _ Hl) as Hcr. simpl in Hcr. naive_solver.
  - split; [done|]. intros [?|(_ & _ & r & Hcr & _)]; [naive_solver|].
    apply Hc in Hcr; [congruence|done].
Qed.

Lemma opt_matchContent_spec s o content :
  regex_sound (regexMap s) →
  (∀ mc r, o = Some mc → Regex mc ≠ EmptyString → Compile (Regex mc) = Some r →
           regexMap s !! Regex mc = Some r) →
  from_option (λ mc, matchContent s mc content) true o = true ↔ opt_matches o content.
Proof.
  intros Hs Hc. unfold opt_matches. destruct o as [mc|]; simpl; [|naive_solver].
  rewrite matchContent_spec by naive_solver. naive_solver.
Qed.

Lemma matchRest_spec s fi mt u method :
  fi_Match fi = Some mt → regex_sound (regexMap s) → rule_covered (regexMap s) fi →
  matchRest s mt u method = true ↔ http_matches fi u method.
Proof.
  intros Hmt Hs Hc. unfold matchRest, http_matches. rewrite existsb_exists'.
  assert (Heq : ∀ hm, hm ∈ m_HttpMatch mt →
    (if decide (hm_Method hm ≠ "*" ∧ hm_Method hm ≠ EmptyString ∧ hm_Method hm ≠ method) then false
     else if negb (from_option (λ mc, matchContent s mc (Host u)) true (hm_Host hm)) then false
     else if negb (from_option (λ mc, matchContent s mc (Path u)) true (hm_Path hm)) then false
     else true) = true ↔
    (hm_Method hm = "*" ∨ hm_Method hm = EmptyString ∨ hm_Method hm = method) ∧
    opt_matches (hm_Host hm) (Host u) ∧ opt_matches (hm_Path hm) (Path u)).
  { intros hm Hin. specialize (Hc mt hm Hmt Hin).
    pose proof (opt_matchContent_spec s (hm_Host hm) (Host u) Hs) as Hh.
    pose proof (opt_matchContent_spec s (hm_Path hm) (Path u) Hs) as Hp.
    rewrite <- Hh, <- Hp by (intros ???; by apply Hc; auto).
    case_decide as Hm; [naive_solver|].
    destruct (from_option _ _ (hm_Host hm)), (from_option _ _ (hm_Path hm)); simpl;
      destruct (decide (hm_Method hm = "*")), (decide (hm_Method hm = EmptyString)),
        (decide (hm_Method hm = method)); naive_solver. }
  split.
  - intros (hm & Hin & Hb). exists mt, hm. rewrite Heq in Hb by done. naive_solver.
  - intros (mt' & hm & Hmt' & Hin & Hrest). simplify_eq. exists hm. split; [done|]. by apply Heq.
Qed.

(** The collecting loop returns the rules the predicate accepts, and no
    other. *)
Lemma collect_spec p m :
  map_Forall (λ _ fi, is_Some (fi_Match fi)) m →
  ∃ l, collect p m = Returns l ∧
    ∀ fi, fi ∈ l ↔ ∃ k mt, m !! k = Some fi ∧ fi_Match fi = Some mt ∧ p mt = true.
Proof.
  intros Hm. unfold collect.
  assert (Hloop : ∀ ks acc, Forall (λ k, is_Some (m !! k)) ks →
    ∃ l, foldM (λ res k, rule ← deref (m !! k); mt ← deref (fi_Match rule);
            Returns (if p mt then res ++ [rule] else res)) acc ks = Returns (acc ++ l) ∧
      ∀ fi, fi ∈ l ↔ ∃ k mt, k ∈ ks ∧ m !! k = Some fi ∧ fi_Match fi = Some mt ∧ p mt = true).
  { induction ks as [|k ks IH]; intros acc Hks.
    { exists []. rewrite app_nil_r. split; [done|]. intros fi. split; [intros []%not_elem_of_nil|].
      intros (? & ? & []%not_elem_of_nil & _). }
    apply Forall_cons in Hks as [[fi Hfi] Hks]. destruct (Hm k fi Hfi) as [mt Hmt].
    cbn [foldM]. rewrite Hfi. cbn [deref mbind outcome_bind]. rewrite Hmt. cbn [deref mbind outcome_bind].
    destruct (IH (if p mt then acc ++ [fi] else acc) Hks) as (l & -> & Hl).
    destruct (p mt) eqn:Hp; [exists (fi :: l); rewrite <- app_assoc|exists l]; (split; [done|]);
      intros fi'; rewrite ?elem_of_cons, Hl; (split; [|intros (k' & mt' & [->|Hk']%elem_of_cons & Hk & Hmt' & Hp')]).
    - intros [->|(k' & mt' & Hk' & Hrest)]; [by exists k, mt; split; [left|]|by exists k', mt'; split; [right|]].
    - left. by simplify_eq.
    - right. by exists k', mt'.
    - intros (k' & mt' & Hk' & Hrest). by exists k', mt'; split; [right|].
    - simplify_eq. congruence.
    - by exists k', mt'. }
  destruct (Hloop (range_keys m) []) as (l & Hl & Hin).
  { apply Forall_forall. intros k. by rewrite elem_of_range_keys. }
  exists l. split; [exact Hl|]. intros fi. rewrite Hin. setoid_rewrite elem_of_range_keys.
  split; [naive_solver|]. intros (k & mt & Hk & ?). exists k, mt. rewrite Hk. naive_solver.
Qed.

Lemma stored_match get m mg :
  fmanager_wf mg → holds fi_Name get m (faultInjectionMap mg) →
  (∀ cb, get cb ⊆ HttpFaultInjections cb) → map_Forall (λ _ fi, is_Some (fi_Match fi)) m.
Proof.
  intros Hwf Hh Hsub k fi Hk. apply Hh in Hk as (n & cb & Hn & Hin & _).
  destruct (fw_names _ Hwf n cb Hn) as [_ (_ & _ & Hall)]. rewrite Forall_forall in Hall.
  by apply Hall, Hsub.
Qed.

(** A rule of some configuration. *)
Definition configured (mg : fmanager) (fi : HTTPFaultInjection) : Prop :=
  ∃ n cb, faultInjectionMap mg !! n = Some cb ∧ fi ∈ HttpFaultInjections cb.

Lemma holds_configured (P : HTTPFaultInjection → bool) m mg fi :
  holds fi_Name (λ cb, filter P (HttpFaultInjections cb)) m (faultInjectionMap mg) →
  (∃ k, m !! k = Some fi) ↔ configured mg fi ∧ P fi = true.
Proof.
  intros Hh. split.
  - intros [k Hk]. apply Hh in Hk as (n & cb & Hn & [HP Hin]%list_elem_of_filter & _).
    split; [by exists n, cb|by apply Is_true_true].
  - intros [(n & cb & Hn & Hin) HP]. exists (key2 n (fi_Name fi)). apply Hh. exists n, cb.
    split_and!; try done. apply list_elem_of_filter. split; [by apply Is_true_true|done].
Qed.

(** A request meets exactly the configured rules that match it: on a
    well-formed manager, collecting the rules for a URL (respectively for a
    resource request) never panics and yields precisely the rules of the
    current configurations whose HTTP match (with every pattern compiled
    afresh) accepts host, path and method, respectively whose resource match
    accepts group, resource, verb and namespace. *)
Theorem matched_rules_exact mg :
  fmanager_wf mg →
  (∀ u method, ∃ l, matchHTTPFaultInjection u method mg = Returns l ∧
     ∀ fi, fi ∈ l ↔ configured mg fi ∧ http_matches fi u method) ∧
  (∀ ns g r v, ∃ l, matchResources ns g r v mg = Returns l ∧
     ∀ fi, fi ∈ l ↔ configured mg fi ∧ resource_matches fi ns g r v).
Proof.
  intros Hwf. split.
  - intros u method. destruct (collect_spec (λ mt, matchRest (faultInjectionStore mg) mt u method)
      (restMatchRules (faultInjectionStore mg))) as (l & Hl & Hin).
    { eapply stored_match; [done|apply Hwf|]. intros cb. apply list_subseteq_filter. }
    exists l. split; [exact Hl|]. intros fi. rewrite Hin. split.
    + intros (k & mt & Hk & Hmt & Hp). split; [by apply (holds_configured has_http _ _ _ (fw_rest _ Hwf)); eauto|].
      eapply matchRest_spec; [done|apply Hwf|by eapply (fw_cover _ Hwf)|done].
    + intros [Hcf Hm]. pose proof Hm as (mt & hm & Hmt & Hh & _).
      assert (∃ k, restMatchRules (faultInjectionStore mg) !! k = Some fi) as [k Hk].
      { apply (holds_configured has_http _ _ _ (fw_rest _ Hwf)). split; [done|].
        unfold has_http. rewrite Hmt. simpl. by destruct (m_HttpMatch mt); [apply not_elem_of_nil in Hh|]. }
      exists k, mt. split_and!; try done. eapply matchRest_spec; eauto; [apply Hwf|by eapply (fw_cover _ Hwf)].
  - intros ns g r v. destruct (collect_spec (λ mt, resourceMatch (m_Resources mt) ns g r v)
      (resourcesMatchRules (faultInjectionStore mg))) as (l & Hl & Hin).
    { eapply stored_match; [done|apply Hwf|]. intros cb. apply list_subseteq_filter. }
    exists l. split; [exact Hl|]. intros fi. rewrite Hin. setoid_rewrite resourceMatch_spec. split.
    + intros (k & mt & Hk & Hmt & m & Hm). split; [by apply (holds_configured has_resources _ _ _ (fw_res _ Hwf)); eauto|].
      by exists mt, m.
    + intros [Hcf (mt & m & Hmt & Hm & Hrest)].
      assert (∃ k, resourcesMatchRules (faultInjectionStore mg) !! k = Some fi) as [k Hk].
      { apply (holds_configured has_resources _ _ _ (fw_res _ Hwf)). split; [done|].
        unfold has_resources. rewrite Hmt. simpl. by destruct (m_Resources mt); [apply not_elem_of_nil in Hm|]. }
      exists k, mt. split_and!; try done. by exists m.
Qed.
End invariant.

(** ** Injection *)

Section injection.
Context `{FaultEnv}.

Lemma inList_spec l x : inList l x = true ↔ l = [] ∨ x ∈ l.
Proof.
  unfold inList. destruct l as [|y l]; [naive_solver|]. rewrite existsb_exists'. split.
  - intros (d & Hd & ->%Z.eqb_eq). by right.
  - intros [?|Hx]; [done|]. exists x. split; [done|]. apply Z.eqb_refl.
Qed.

(** When a rule with an effective time applies: either its start or its
    end is left out (whatever its days and months say), or both parse as
    clock times, the current time of day lies between them (bounds
    included), and the day of the week, the day of the month and the month
    are each in their list where the list is not empty. *)
Theorem isEffectiveTimeRange_spec r tk :
  let now := NowUTC (readings tk) in
  (isEffectiveTimeRange r tk).1 = true ↔
  StartTime r = EmptyString ∨ EndTime r = EmptyString ∨
  ∃ sh sm ss eh em es,
    ParseClock (StartTime r) = Some (sh, sm, ss) ∧ ParseClock (EndTime r) = Some (eh, em, es) ∧
    (secOfDay sh sm ss ≤ secOfDay (Hour now) (Minute now) (Second now) ≤ secOfDay eh em es)%Z ∧
    (DaysOfWeek r = [] ∨ int32 (Weekday now) ∈ DaysOfWeek r) ∧
    (DaysOfMonth r = [] ∨ int32 (Day now) ∈ DaysOfMonth r) ∧
    (Months r = [] ∨ int32 (Month now) ∈ Months r).
Proof.
  simpl. unfold isEffectiveTimeRange. case_decide as He; [naive_solver|].
  destruct (ParseClock (StartTime r)) as [[[sh sm] ss]|], (ParseClock (EndTime r)) as [[[eh em] es]|];
    simpl; try naive_solver.
  set (now := NowUTC (readings tk)). set (t := secOfDay (Hour now) (Minute now) (Second now)).
  pose proof (inList_spec (DaysOfWeek r) (int32 (Weekday now))) as Hw.
  pose proof (inList_spec (DaysOfMonth r) (int32 (Day now))) as Hd.
  pose proof (inList_spec (Months r) (int32 (Month now))) as Hm.
  destruct (Z.ltb_spec t (secOfDay sh sm ss)); simpl; [naive_solver lia|].
  destruct (Z.ltb_spec (secOfDay eh em es) t); simpl; [naive_solver lia|].
  destruct (inList (DaysOfWeek r) _), (inList (DaysOfMonth r) _), (inList (Months r) _); simpl;
    split; try done; try naive_solver.
Qed.

(** A range that runs over midnight (its start is later in the day than
    its end) is never effective, at any time. *)
Theorem overnight_range_never_effective r tk sh sm ss eh em es :
  ParseClock (StartTime r) = Some (sh, sm, ss) → ParseClock (EndTime r) = Some (eh, em, es) →
  (secOfDay eh em es < secOfDay sh sm ss)%Z →
  (isEffectiveTimeRange r tk).1 = false.
Proof.
  intros Hs He Hlt. unfold isEffectiveTimeRange.
  rewrite decide_False by (intros [Hx|Hx]; rewrite Hx in *; done). rewrite Hs, He.
  repeat (case_match; simpl; try done); rewrite ?Z.ltb_ge in *; lia.
Qed.

(** [value] injects on every request without drawing a number. *)
Definition always (value : spec_float) : Prop :=
  SFltb value (f64_of_Z 0) = false ∧ SFltb (f64_of_Z 100) value = false ∧ SFeqb value (f64_of_Z 0) = true.

Lemma always_hits v tk : always v → isInPercentRange v tk = (true, tk).
Proof. intros (H1 & H2 & H3). unfold isInPercentRange. by rewrite H1, H2, H3. Qed.

(** A rule that applies at any time. *)
Definition untimed (fi : HTTPFaultInjection) : Prop := fi_EffectiveTime fi = None.

(** What an injector that aborts owes to the rules: its code and its message
    are those of one of them. *)
Definition abort_from (fis : list HTTPFaultInjection) (ij : abortWithDelayInjector) : Prop :=
  ij_abort ij = true → ∃ fi a, fi ∈ fis ∧ fi_Abort fi = Some a ∧
    ij_code ij = GetHttpStatus a ∧ ij_message ij = abortMessage fi.

Lemma inject_delay_fields fi x :
  let y := inject_delay fi x in
  ij_abort y.1 = ij_abort x.1 ∧ ij_code y.1 = ij_code x.1 ∧ ij_message y.1 = ij_message x.1.
Proof.
  unfold inject_delay. destruct (fi_Delay fi); [|done]. by destruct (isInPercentRange _ _) as [[] ?].
Qed.

(** One rule: an abort that is already decided stays; otherwise the rule may
    decide it, and does when it always aborts. *)
Lemma inject1_cases x fi :
  let y := inject1 x fi in
  (ij_abort x.1 = true ∧ ij_abort y.1 = true ∧ ij_code y.1 = ij_code x.1 ∧ ij_message y.1 = ij_message x.1) ∨
  (ij_abort x.1 = false ∧ ij_abort y.1 = false ∧ ij_code y.1 = ij_code x.1 ∧
   ¬ (untimed fi ∧ ∃ a, fi_Abort fi = Some a ∧ always (a_Percent a))) ∨
  (ij_abort x.1 = false ∧ ij_abort y.1 = true ∧ ∃ a, fi_Abort fi = Some a ∧
   ij_code y.1 = GetHttpStatus a ∧ ij_message y.1 = abortMessage fi).
Proof.
  simpl. unfold inject1. destruct (effective fi x.2) as [eff tk] eqn:He. destruct eff; simpl.
  - pose proof (inject_delay_fields fi (x.1, tk)) as (Ha & Hc & Hm). simpl in *.
    destruct (inject_delay fi (x.1, tk)) as [ij tk'] eqn:Hd. simpl in *. unfold inject_abort. simpl.
    rewrite <- Ha, <- Hc, <- Hm. destruct (ij_abort ij) eqn:Hij; [by left|right].
    destruct (fi_Abort fi) as [a|]; [|left; split_and!; try done; naive_solver].
    destruct (isInPercentRange (a_Percent a) tk') as [hit tk2] eqn:Hh. destruct hit; simpl.
    + right. split_and!; try done. by exists a.
    + left. split_and!; try done. intros (_ & a' & [= <-] & Hal). by rewrite always_hits in Hh.
  - assert (¬ untimed fi). { intros Hu. unfold effective in He. by rewrite Hu in He. }
    destruct (ij_abort x.1); [by left|]. right. left. split_and!; try done. naive_solver.
Qed.

Lemma getInjector_loop fis x :
  let y := fold_left inject1 fis x in
  (ij_abort x.1 = true → ij_abort y.1 = true ∧ ij_code y.1 = ij_code x.1) ∧
  (ij_abort x.1 = false → abort_from fis y.1 ∧ (ij_abort y.1 = false → ij_code y.1 = ij_code x.1) ∧
     ((∃ fi a, fi ∈ fis ∧ untimed fi ∧ fi_Abort fi = Some a ∧ always (a_Percent a)) → ij_abort y.1 = true)).
Proof.
  simpl. revert x; induction fis as [|fi fis IH]; intros x; simpl.
  { split; [done|]. intros Hx. split_and!; [|done|].
    - unfold abort_from. congruence.
    - intros (fi & a & []%not_elem_of_nil & _). }
  destruct (IH (inject1 x fi)) as [IH1 IH2].
  destruct (inject1_cases x fi) as [(Hx & Hy & Hc & Hm)|[(Hx & Hy & Hc & Hno)|(Hx & Hy & a & Ha & Hc & Hm)]].
  - split; [|congruence]. intros _. destruct (IH1 Hy) as [? ?]. split; [done|congruence].
  - split; [congruence|]. intros _. destruct (IH2 Hy) as (Hf & Hcode & Hal). split_and!.
    + intros Hab. destruct (Hf Hab) as (f & a & ? & ?). exists f, a. split; [by right|done].
    + intros Hab. rewrite Hcode by done. done.
    + intros (f & a & [->|Hin]%elem_of_cons & Hu & Hfa & Hfal).
      * destruct Hno. split; [done|]. by exists a.
      * apply Hal. by exists f, a.
  - split; [congruence|]. intros _. destruct (IH1 Hy) as [Hab Hcode]. split_and!; [|congruence|done].
    intros _. exists fi, a. split_and!; [by left|done|congruence|].
    clear -Hy Hm H. revert Hy Hm. generalize (inject1 x fi). clear x. induction fis as [|f fis IH]; intros y Hy Hm; [done|].
    simpl. destruct (inject1_cases y f) as [(_ & ? & _ & ?)|[(? & _)|(? & _)]]; [|congruence..].
    apply IH; [done|congruence].
Qed.

(** The injector of a set of rules aborts only on behalf of one of them,
    with that rule's status and name; a rule without effective time whose
    abort percentage is zero aborts every request it matches; and an
    injector that did not decide to abort lets the request through. *)
Theorem getInjector_abort fis tk quote sent method :
  let ij := (getInjector fis tk).1 in
  abort_from fis ij ∧
  ((∃ fi a, fi ∈ fis ∧ untimed fi ∧ fi_Abort fi = Some a ∧ always (a_Percent a)) → ij_abort ij = true) ∧
  (ij_abort ij = false → Do quote sent method ij = Returns (mkInjected (ij_delay ij) None)).
Proof.
  simpl. unfold getInjector. destruct (getInjector_loop fis (injector0, tk)) as [_ Hl].
  destruct (Hl eq_refl) as (Hf & Hc & Hal). split_and!; try done.
  intros Hab. unfold Do. simpl. by rewrite Hc.
Qed.

(** An abort without an HTTP status (or with status 200) swallows the
    others: when the first rule always aborts but carries no HTTP error
    status, the request is served although later rules always abort. *)
Theorem statusless_abort_masks fi a fis tk quote sent method :
  untimed fi → fi_Abort fi = Some a → always (a_Percent a) →
  GetHttpStatus a = 0%Z ∨ GetHttpStatus a = StatusOK →
  ∃ wait, Do quote sent method (getInjector (fi :: fis) tk).1 = Returns (mkInjected wait None).
Proof.
  intros Hu Ha Hal Hc. unfold getInjector. simpl.
  destruct (inject1_cases (injector0, tk) fi) as [(? & _)|[(_ & _ & _ & Hno)|(_ & Hab & a' & Ha' & Hcode & _)]];
    [done| |].
  - destruct Hno. split; [done|]. by exists a.
  - rewrite Ha in Ha'. injection Ha' as <-.
    destruct (getInjector_loop fis (inject1 (injector0, tk) fi)) as [Hl _].
    destruct (Hl Hab) as [_ Hcode']. eexists. unfold Do. simpl. rewrite Hcode', Hcode, decide_False; [done|].
    destruct Hc as [->| ->]; naive_solver.
Qed.

End injection.

(** Looking up the injector of a resource or of a URL never panics. *)
Lemma fault_resources_return `{Regexp} `{RangeOrder} `{FaultEnv} mg i tk : fmanager_wf mg →
  ∃ ij tk', GetInjectorByResource (ri_Namespace i) (ri_APIGroup i) (ri_Resource i) (ri_Verb i) mg tk = Returns (ij, tk').
Proof.
  intros Hwf.
  destruct (collect_spec (λ mt, resourceMatch (m_Resources mt) (ri_Namespace i) (ri_APIGroup i) (ri_Resource i) (ri_Verb i))
    (resourcesMatchRules (faultInjectionStore mg))) as (l & Hl & _).
  { eapply stored_match; [done|apply Hwf|]. intros cb. apply list_subseteq_filter. }
  unfold GetInjectorByResource, matchResources. rewrite Hl. cbn. destruct (getInjector l tk) as [ij tk']. by eexists _, _.
Qed.
Lemma fault_urls_return `{Regexp} `{RangeOrder} `{FaultEnv} mg u method tk : fmanager_wf mg →
  ∃ ij tk', GetInjectorByUrl u method mg tk = Returns (ij, tk').
Proof.
  intros Hwf.
  destruct (collect_spec (λ mt, matchRest (faultInjectionStore mg) mt u method)
    (restMatchRules (faultInjectionStore mg))) as (l & Hl & _).
  { eapply stored_match; [done|apply Hwf|]. intros cb. apply list_subseteq_filter. }
  unfold GetInjectorByUrl, matchHTTPFaultInjection. rewrite Hl. cbn. destruct (getInjector l tk) as [ij tk']. by eexists _, _.
Qed.

(** A configured rule aborts the request with the code: one that matches it
    and whose abort carries it. *)
Definition aborts_with `{Regexp} (mg : fmanager) (i : RequestInfo) (code : Z) (fi : HTTPFaultInjection) : Prop :=
  configured mg fi ∧ resource_matches fi (ri_Namespace i) (ri_APIGroup i) (ri_Resource i) (ri_Verb i) ∧
  ∃ a, fi_Abort fi = Some a ∧ GetHttpStatus a = code ∧ code ≠ 0%Z ∧ code ≠ StatusOK.

(** The fault-injection filter on a well-formed manager: without request info
    it serves nothing; otherwise it serves the request or answers an API error,
    and an error answer is owed to a configured rule that matches the request,
    with that rule's status.  It panics only where such a rule's status is no
    code of HTTP and nothing has been written yet. *)
Theorem withFaultInjection_correct `{Regexp} `{RangeOrder} `{FaultEnv} mg info sent method tk quote :
  fmanager_wf mg →
  match withFaultInjection quote sent info method mg tk with
  | Panics => ∃ i fi code, info = Some i ∧ aborts_with mg i code fi ∧ WriteHeader_ok sent code = false
  | Returns (NoInfo, tk') => info = None ∧ tk' = tk
  | Returns (Serve _, _) => is_Some info
  | Returns (Aborted _ err, _) =>
      ∃ i fi code, info = Some i ∧ aborts_with mg i code fi ∧ WriteHeader_ok sent code = true ∧
        err = HttpToAPIError quote code method (abortMessage fi)
  end.
Proof.
  intros Hwf. destruct info as [i|]; simpl; [|done].
  destruct (collect_spec (λ mt, resourceMatch (m_Resources mt) (ri_Namespace i) (ri_APIGroup i) (ri_Resource i) (ri_Verb i))
    (resourcesMatchRules (faultInjectionStore mg))) as (l & Hl & Hin).
  { eapply stored_match; [done|apply Hwf|]. intros cb. apply list_subseteq_filter. }
  unfold GetInjectorByResource, matchResources. rewrite Hl. simpl.
  destruct (getInjector l tk) as [ij tk'] eqn:Hij. simpl.
  destruct (getInjector_loop l (injector0, tk)) as [_ Hloop]. destruct (Hloop eq_refl) as (Hf & Hc & _).
  unfold getInjector in Hij. rewrite Hij in Hf, Hc. simpl in *. unfold Do. simpl.
  destruct (decide _) as [[Hne Hne0]|]; simpl; [|done].
  destruct (ij_abort ij) eqn:Hab; [|by rewrite Hc in Hne0].
  destruct (Hf Hab) as (fi & a & Hfi & Ha & Hcode & Hmsg).
  apply Hin in Hfi as (k & mt & Hk & Hmt & Hp).
  assert (Habort : aborts_with mg i (ij_code ij) fi).
  { split_and!; [by apply (holds_configured has_resources _ _ _ (fw_res _ Hwf)); eauto| |by exists a].
    apply resourceMatch_spec in Hp as (m & Hm). by exists mt, m. }
  destruct (WriteHeader_ok sent (ij_code ij)) eqn:Hok; simpl; exists i, fi, (ij_code ij); rewrite <- ?Hmsg; done.
Qed.

(** The status of a rule is not checked before it is written: the first rule
    that always aborts with a status that is no code of HTTP makes every
    request it matches panic. *)
Theorem odd_status_panics `{FaultEnv} fi a fis tk quote method :
  untimed fi → fi_Abort fi = Some a → always (a_Percent a) → GetHttpStatus a ≠ 0%Z →
  WriteHeader_ok false (GetHttpStatus a) = false →
  Do quote false method (getInjector (fi :: fis) tk).1 = Panics.
Proof.
  intros Hu Ha Hal Hne Hok. unfold getInjector. simpl.
  destruct (inject1_cases (injector0, tk) fi) as [(? & _)|[(_ & _ & _ & Hno)|(_ & Hab & a' & Ha' & Hcode & _)]];
    [done| |].
  - destruct Hno. split; [done|]. by exists a.
  - rewrite Ha in Ha'. injection Ha' as <-.
    destruct (getInjector_loop fis (inject1 (injector0, tk) fi)) as [Hl _].
    destruct (Hl Hab) as [_ Hcode']. unfold Do. simpl. rewrite Hcode', Hcode, decide_True, Hok; [done|].
    split; [|done]. intros Heq. rewrite Heq in Hok. discriminate.
Qed.

(** ** Concrete runs *)

Section witness.
#[local] Existing Instances literal_regexp order_fwd.

(** Half-way draws; noon of Monday, the first of May. *)
Definition noon_env : FaultEnv := {|
  Float64 := λ _, f64_div (f64_of_Z 1) (f64_of_Z 2); NowUTC := λ _, mkCivil 12 0 0 1 1 5 |}.
#[local] Existing Instance noon_env.

Definition demo_fault (name : string) (e : option Abort_ErrorType) : HTTPFaultInjection := {|
  fi_Delay := None; fi_Abort := Some (mkAbort (f64_of_Z 0) e);
  fi_Match := Some (mkMatch [mkResourceMatch ["*"] [] ["pods"] ["get"]]
    [mkHttpMatch None (Some (mkMatchContent EmptyString "/x")) "GET"]);
  fi_Name := name; fi_EffectiveTime := None |}.
Definition demo_faults (o : FaultOption) : FaultInjection :=
  mkFaultInjection [demo_fault "a" (Some (HttpStatus 404)); demo_fault "b" None] o "h" "fi".
Definition demo_fmanager : fmanager :=
  match Sync (demo_faults FI_UPDATE) NewManager with Returns (_, _, mg) => mg | Panics => NewManager end.

Lemma demo_faults_ok o : fconfig_ok (demo_faults o).
Proof.
  split_and!; [done| |repeat constructor; by eexists].
  apply (bool_decide_eq_true_1 _). reflexivity.
Qed.

Lemma demo_fmanager_wf : fmanager_wf demo_fmanager.
Proof.
  pose proof (fault_Sync_spec NewManager (demo_faults FI_UPDATE) fault_NewManager_wf (demo_faults_ok _)) as Hs.
  unfold demo_fmanager. destruct (Sync _ _) as [[[resp err] mg']|]; [apply Hs|apply fault_NewManager_wf].
Qed.

Lemma fault_Sync_refines_witness :
  match Sync (demo_faults FI_UPDATE) NewManager with
  | Panics => False
  | Returns (resp, err, mg') => fmanager_wf mg' ∧ err = None
  end.
Proof.
  pose proof (fault_Sync_refines NewManager (demo_faults FI_UPDATE) fault_NewManager_wf (demo_faults_ok _)) as Hs.
  destruct (Sync _ _) as [[[resp err] mg']|]; [|by destruct Hs as [? _]].
  destruct Hs as (Hwf & _ & He). split; [exact Hwf|]. apply He. by left.
Defined.

Lemma matched_rules_exact_witness :
  ∃ l, matchResources "ns" "apps" "pods" "get" demo_fmanager = Returns l ∧
    ∀ fi, fi ∈ l ↔ configured demo_fmanager fi ∧ resource_matches fi "ns" "apps" "pods" "get".
Proof.
  destruct (matched_rules_exact demo_fmanager demo_fmanager_wf) as [_ Hr]. apply Hr.
Defined.

Definition night : EffectiveTimeRange := mkEffectiveTimeRange "22:00:00" "06:00:00" [] [] [].

Lemma overnight_range_never_effective_witness : (isEffectiveTimeRange night (mkTicks 0 0)).1 = false.
Proof.
  apply (overnight_range_never_effective night (mkTicks 0 0) 22 0 0 6 0 0); [reflexivity|reflexivity|done].
Defined.

Lemma statusless_abort_masks_witness :
  ∃ wait, Do id false "GET" (getInjector [demo_fault "b" None; demo_fault "a" (Some (HttpStatus 404))]
                         (mkTicks 0 0)).1 = Returns (mkInjected wait None).
Proof.
  eapply (statusless_abort_masks (demo_fault "b" None)); [reflexivity|reflexivity| |by left].
  split_and!; reflexivity.
Defined.

Definition demo_pod_get : RequestInfo := resourceRequest "ns" "apps" "pods" "get".
Lemma withFaultInjection_correct_witness :
  ∃ fi, aborts_with demo_fmanager demo_pod_get 404 fi.
Proof.
  pose proof (withFaultInjection_correct demo_fmanager (Some demo_pod_get) false "GET" (mkTicks 0 0) id demo_fmanager_wf) as Hw.
  assert (Hr : ∃ err tk', withFaultInjection id false (Some demo_pod_get) "GET" demo_fmanager (mkTicks 0 0)
                            = Returns (Aborted 0 err, tk') ∧ s_Code err = 404%Z) by (vm_compute; eexists _, _; split; reflexivity).
  destruct Hr as (err & tk' & Hr & Hcode). rewrite Hr in Hw. destruct Hw as (i & fi & code & [= <-] & Hab & Hok & ->).
  exists fi. assert (code = 404%Z) as <-; [|exact Hab].
  rewrite HttpToAPIError_code in Hcode. unfold WriteHeader_ok in Hok. cbn [orb] in Hok.
  apply andb_true_iff in Hok as [?%Z.leb_le ?%Z.leb_le]. unfold int32 in Hcode. rewrite wrap_id in Hcode by lia. done.
Defined.

Lemma odd_status_panics_witness :
  Do id false "GET" (getInjector [demo_fault "a" (Some (HttpStatus 42))] (mkTicks 0 0)).1 = Panics.
Proof.
  eapply (odd_status_panics (demo_fault "a" (Some (HttpStatus 42)))); [reflexivity|reflexivity| |discriminate|reflexivity].
  split_and!; reflexivity.
Defined.
End witness.
