(* ===== verification/Selector.v ===== *)
(** * Label selectors

    src/pkg/utils/selector.go: merging, negating and combining label
    selectors, and turning them into the matcher of the apimachinery [labels]
    library, whose [Requirement.Matches] is modelled as documented there. *)

From stdpp Require Import sorting.
From S2P Require Import Prelude GoStrings.

(** ** Data *)

(** The operator is a string in the API object, so it may be anything. *)
Inductive LabelSelectorOperator := OpIn | OpNotIn | OpExists | OpDoesNotExist | OpOther (s : string).
#[export] Instance LabelSelectorOperator_eq_dec : EqDecision LabelSelectorOperator.
Proof. solve_decision. Defined.

Record LabelSelectorRequirement := mkReq {
  lr_Key : string; lr_Operator : LabelSelectorOperator; lr_Values : list string;
}.
#[export] Instance LabelSelectorRequirement_eq_dec : EqDecision LabelSelectorRequirement.
Proof. solve_decision. Defined.

Record LabelSelector := mkSel {
  MatchLabels : gmap string string; MatchExpressions : list LabelSelectorRequirement;
}.
#[export] Instance LabelSelector_eq_dec : EqDecision LabelSelector.
Proof. solve_decision. Defined.

Definition emptySelector : LabelSelector := mkSel ∅ [].

(** The operators of the [selection] package the sources use. *)
Inductive selection_Operator := sel_Equals | sel_In | sel_NotIn | sel_Exists | sel_DoesNotExist.

Record labels_Requirement := mkLReq {
  q_key : string; q_operator : selection_Operator; q_strValues : list string;
}.

(** [labels.Selector]: the selector that matches nothing, or a list of
    requirements ([labels.Everything()] is the empty one). *)
Inductive labels_Selector := Nothing | Reqs (rs : list labels_Requirement).
#[export] Instance selection_Operator_eq_dec : EqDecision selection_Operator.
Proof. solve_decision. Defined.
#[export] Instance labels_Requirement_eq_dec : EqDecision labels_Requirement.
Proof. solve_decision. Defined.
#[export] Instance labels_Selector_eq_dec : EqDecision labels_Selector.
Proof. solve_decision. Defined.

Definition hasValue (r : labels_Requirement) (value : string) : bool :=
  bool_decide (value ∈ q_strValues r).

Definition req_Matches (r : labels_Requirement) (ls : gmap string string) : bool :=
  match q_operator r, ls !! q_key r with
  | (sel_In | sel_Equals), Some v => hasValue r v
  | (sel_In | sel_Equals), None => false
  | sel_NotIn, Some v => negb (hasValue r v)
  | sel_NotIn, None => true
  | sel_Exists, o => bool_decide (is_Some o)
  | sel_DoesNotExist, o => bool_decide (o = None)
  end.

Definition sel_Matches (s : labels_Selector) (ls : gmap string string) : bool :=
  match s with Nothing => false | Reqs rs => forallb (λ r, req_Matches r ls) rs end.

(** [Requirements()], without the flag the sources ignore. *)
Definition Requirements (s : labels_Selector) : list labels_Requirement :=
  match s with Nothing => [] | Reqs rs => rs end.

(** ** Operations *)

(** The values of [selB] replace those of [selA] under the same label. *)
Definition MergeLabelSelector (selA selB : option LabelSelector) : option LabelSelector :=
  match selA, selB with
  | _, None => selA
  | None, _ => selB
  | Some a, Some b =>
      Some (mkSel (MatchLabels b ∪ MatchLabels a) (MatchExpressions a ++ MatchExpressions b))
  end.

(** Nil selectors are skipped; the result is nil when all are. *)
Definition CombineLabelSelectors (ls : list (option labels_Selector)) : option labels_Selector :=
  fold_left (λ combined l,
    match l with
    | None => combined
    | Some s => Some (Reqs (Requirements (default (Reqs []) combined) ++ Requirements s))
    end) ls None.

Definition negateOp (o : LabelSelectorOperator) : LabelSelectorOperator :=
  match o with
  | OpIn => OpNotIn | OpNotIn => OpIn
  | OpExists => OpDoesNotExist | OpDoesNotExist => OpExists
  | OpOther _ => OpOther ""
  end.

Definition by_key (a b : LabelSelectorRequirement) : Prop := Is_true (String.leb (lr_Key a) (lr_Key b)).
#[export] Instance by_key_dec : RelDecision by_key.
Proof. intros a b. unfold by_key. apply _. Defined.

Section selector.
Context `{RangeOrder}.

Definition labelPairs (m : gmap string string) : list (string * string) :=
  omap (λ k, (λ v, (k, v)) <$> m !! k) (range_keys m).

Definition NegateLabelSelector (sel : option LabelSelector) : option LabelSelector :=
  (λ sel, mkSel ∅
     (merge_sort by_key ((λ kv, mkReq kv.1 OpNotIn [kv.2]) <$> labelPairs (MatchLabels sel)) ++
      ((λ exp, mkReq (lr_Key exp) (negateOp (lr_Operator exp)) (lr_Values exp))
         <$> MatchExpressions sel))) <$> sel.

Definition convertOp (o : LabelSelectorOperator) : option selection_Operator :=
  match o with
  | OpIn => Some sel_In | OpNotIn => Some sel_NotIn | OpExists => Some sel_Exists
  | OpDoesNotExist => Some sel_DoesNotExist | OpOther _ => None
  end.

Fixpoint convertExprs (es : list LabelSelectorRequirement) : result (list labels_Requirement) :=
  match es with
  | [] => Ok []
  | e :: es' =>
      match convertOp (lr_Operator e) with
      | None => Err "not a valid pod selector operator"
      | Some op => rs ← convertExprs es'; Ok (mkLReq (lr_Key e) op (lr_Values e) :: rs)
      end
  end.

Definition ValidatedLabelSelectorAsSelector (ps : option LabelSelector) : result labels_Selector :=
  match ps with
  | None => Ok Nothing
  | Some ps =>
      rs ← convertExprs (MatchExpressions ps);
      Ok (Reqs (((λ kv, mkLReq kv.1 sel_Equals [kv.2]) <$> labelPairs (MatchLabels ps)) ++ rs))
  end.

(** ** Meaning *)

Definition expr_matches (e : LabelSelectorRequirement) (ls : gmap string string) : Prop :=
  match lr_Operator e with
  | OpIn => ∃ v, ls !! lr_Key e = Some v ∧ v ∈ lr_Values e
  | OpNotIn => ∀ v, ls !! lr_Key e = Some v → v ∉ lr_Values e
  | OpExists => is_Some (ls !! lr_Key e)
  | OpDoesNotExist => ls !! lr_Key e = None
  | OpOther _ => False
  end.

(** What an API label selector means: every label and every expression. *)
Definition selects (s : LabelSelector) (ls : gmap string string) : Prop :=
  MatchLabels s ⊆ ls ∧ Forall (λ e, expr_matches e ls) (MatchExpressions s).

Definition valid_ops (s : LabelSelector) : Prop :=
  Forall (λ e, ∀ x, lr_Operator e ≠ OpOther x) (MatchExpressions s).

Lemma elem_of_labelPairs m k v : (k, v) ∈ labelPairs m ↔ m !! k = Some v.
Proof.
  unfold labelPairs. rewrite list_elem_of_omap. split.
  - intros (k' & _ & (v' & Hv & [= -> ->])%fmap_Some). done.
  - intros Hv. exists k. rewrite elem_of_range_keys, Hv. split; [by eexists|done].
Qed.

Lemma convertOp_matches e op ls :
  convertOp (lr_Operator e) = Some op →
  req_Matches (mkLReq (lr_Key e) op (lr_Values e)) ls = true ↔ expr_matches e ls.
Proof.
  unfold convertOp, req_Matches, hasValue, expr_matches. intros Ho.
  destruct (lr_Operator e); simplify_eq/=; destruct (ls !! lr_Key e) as [v|];
    rewrite ?bool_decide_eq_true, ?negb_true_iff, ?bool_decide_eq_false; try naive_solver.
Qed.

Lemma convertExprs_spec es :
  (∃ rs, convertExprs es = Ok rs ∧
     ∀ ls, forallb (λ r, req_Matches r ls) rs = true ↔ Forall (λ e, expr_matches e ls) es) ∧
    Forall (λ e, ∀ x, lr_Operator e ≠ OpOther x) es ∨
  (∃ msg, convertExprs es = Err msg) ∧ ¬ Forall (λ e, ∀ x, lr_Operator e ≠ OpOther x) es.
Proof.
  induction es as [|e es IH]; simpl.
  { left. split; [|done]. exists []. split; [done|]. intros ls. by split. }
  destruct (convertOp (lr_Operator e)) as [op|] eqn:Ho.
  - assert (Hv : ∀ x, lr_Operator e ≠ OpOther x) by (intros x Hx; by rewrite Hx in Ho).
    destruct IH as [[(rs & -> & Hrs) Hall]|[(msg & ->) Hno]]; [left|right].
    + split; [|by constructor]. eexists. split; [done|]. intros ls. simpl.
      rewrite andb_true_iff, Hrs, Forall_cons. by rewrite (convertOp_matches e op ls).
    + split; [by eexists|]. rewrite Forall_cons. naive_solver.
  - right. split; [by eexists|]. rewrite Forall_cons. intros [Hv _].
    destruct (lr_Operator e); simplify_eq/=. by eapply Hv.
Qed.

Lemma labels_matches m ls :
  forallb (λ r, req_Matches r ls) ((λ kv, mkLReq kv.1 sel_Equals [kv.2]) <$> labelPairs m) = true ↔ m ⊆ ls.
Proof.
  rewrite forallb_forall. setoid_rewrite <- list_elem_of_In. rewrite map_subseteq_spec. split.
  - intros Hall k v Hk. specialize (Hall (mkLReq k sel_Equals [v])).
    unfold req_Matches, hasValue in Hall. simpl in Hall.
    assert (mkLReq k sel_Equals [v] ∈ (λ kv : string * string, mkLReq kv.1 sel_Equals [kv.2]) <$> labelPairs m) as Hin.
    { apply list_elem_of_fmap. exists (k, v). split; [done|]. by apply elem_of_labelPairs. }
    specialize (Hall Hin). destruct (ls !! k); [|done].
    apply bool_decide_eq_true, list_elem_of_singleton in Hall. by subst.
  - intros Hsub r ([k v] & -> & Hkv)%list_elem_of_fmap. apply elem_of_labelPairs, Hsub in Hkv.
    unfold req_Matches, hasValue. simpl. rewrite Hkv. apply bool_decide_eq_true. by left.
Qed.

Lemma matcher_spec s :
  (∃ m, ValidatedLabelSelectorAsSelector (Some s) = Ok m ∧ valid_ops s ∧
     ∀ ls, sel_Matches m ls = true ↔ selects s ls) ∨
  (∃ msg, ValidatedLabelSelectorAsSelector (Some s) = Err msg ∧ ¬ valid_ops s).
Proof.
  unfold ValidatedLabelSelectorAsSelector, valid_ops.
  destruct (convertExprs_spec (MatchExpressions s)) as [[(rs & -> & Hrs) Hall]|[(msg & ->) Hno]];
    [left|right; by eexists].
  simpl. eexists. split_and!; [done|done|]. intros ls.
  simpl. rewrite forallb_app, andb_true_iff, labels_matches, Hrs. done.
Qed.

(** The matcher built from a label selector means what the selector says,
    whatever the map order: the nil selector matches nothing; for any other
    one an error is returned exactly when some operator is unknown, and
    otherwise the matcher accepts exactly the label sets that contain every
    matchLabels entry and satisfy every expression. *)
Theorem ValidatedLabelSelectorAsSelector_correct ps :
  match ps, ValidatedLabelSelectorAsSelector ps with
  | None, r => r = Ok Nothing
  | Some s, Ok m => valid_ops s ∧ ∀ ls, sel_Matches m ls = true ↔ selects s ls
  | Some s, Err _ => ¬ valid_ops s
  end.
Proof.
  destruct ps as [s|]; [|done].
  destruct (matcher_spec s) as [(m & -> & ?)|(msg & -> & ?)]; done.
Qed.

Definition agree (a b : gmap string string) : Prop := ∀ k v w, a !! k = Some v → b !! k = Some w → v = w.

Lemma agree_union_sub a b ls : agree a b → b ∪ a ⊆ ls ↔ a ⊆ ls ∧ b ⊆ ls.
Proof.
  intros Hag. rewrite !map_subseteq_spec. setoid_rewrite lookup_union_Some_raw. split.
  - intros Hall. split; [|naive_solver]. intros k v Hk. apply Hall.
    destruct (b !! k) as [w|] eqn:Hb; [|naive_solver]. left. f_equal. symmetry. by eapply Hag.
  - naive_solver.
Qed.

(** Merging two selectors is their conjunction when they do not demand
    different values of the same label: the merged selector then selects
    exactly what both select. *)
Theorem MergeLabelSelector_conjunction a b ls :
  agree (MatchLabels a) (MatchLabels b) →
  ∃ c, MergeLabelSelector (Some a) (Some b) = Some c ∧ (selects c ls ↔ selects a ls ∧ selects b ls).
Proof.
  intros Hag. eexists. split; [done|]. unfold selects. simpl.
  rewrite Forall_app, agree_union_sub by done. naive_solver.
Qed.

(** Otherwise the second selector wins: for any label the first one
    demands, a second selector that asks for another value of it merges into
    a selector that drops the first one's demand and selects objects the
    first one excludes.  The proxy merges the selector of a client's request
    into its shard's, in this order. *)
Theorem MergeLabelSelector_escape key v w :
  v ≠ w →
  let a := mkSel {[key := v]} [] in
  let b := mkSel {[key := w]} [] in
  ∃ c ls, MergeLabelSelector (Some a) (Some b) = Some c ∧ selects c ls ∧ ¬ selects a ls.
Proof.
  intros Hne a b. eexists _, {[key := w]}. split; [done|]. split.
  - split; simpl; [|done]. apply map_subseteq_spec. intros k x.
    rewrite lookup_union_Some_raw, !lookup_singleton_Some, lookup_singleton_None. naive_solver.
  - intros [Hsub _]. rewrite map_subseteq_spec in Hsub. specialize (Hsub key v). simpl in Hsub.
    rewrite !lookup_singleton_eq in Hsub. naive_solver.
Qed.

(** Negating a selector with a single requirement selects exactly the
    other objects, where the requirement's operator is a known one. *)
Theorem NegateLabelSelector_single s ls :
  valid_ops s →
  (∃ k v, MatchLabels s = {[k := v]} ∧ MatchExpressions s = []) ∨
  (∃ e, MatchLabels s = ∅ ∧ MatchExpressions s = [e]) →
  ∃ n, NegateLabelSelector (Some s) = Some n ∧ (selects n ls ↔ ¬ selects s ls).
Proof.
  intros Hv Hs. eexists. split; [done|]. unfold selects. simpl.
  destruct Hs as [(k & v & Hl & He)|(e & Hl & He)]; rewrite Hl, He; simpl.
  - assert (labelPairs {[k := v]} = [(k, v)]) as ->.
    { unfold labelPairs, range_keys. rewrite dom_singleton_L.
      assert (range_set {[k]} = [k]) as ->.
      { apply Permutation_singleton_r. by rewrite range_set_perm, elements_singleton. }
      simpl. by rewrite lookup_singleton_eq. }
    simpl. rewrite Forall_singleton. unfold expr_matches. simpl.
    rewrite map_singleton_subseteq_l. setoid_rewrite list_elem_of_singleton.
    split; [|intros Hn; split; [apply map_empty_subseteq|naive_solver]]. naive_solver.
  - assert (labelPairs ∅ = []) as ->.
    { unfold labelPairs, range_keys. rewrite dom_empty_L, range_set_empty. done. }
    simpl. unfold valid_ops in Hv. rewrite He, Forall_singleton in Hv.
    rewrite !Forall_singleton. unfold expr_matches. simpl.
    assert (∅ ⊆ ls) by apply map_empty_subseteq.
    destruct (lr_Operator e); simpl; destruct (ls !! lr_Key e) as [v|]; try (by edestruct Hv);
      split; try naive_solver.
    + intros Hn. split; [done|]. exists v. split; [done|].
      destruct (decide (v ∈ lr_Values e)); [done|]. exfalso. apply Hn. naive_solver.
Qed.

Lemma Combine_acc ls rs :
  fold_left (λ combined l,
    match l with
    | None => combined
    | Some s => Some (Reqs (Requirements (default (Reqs []) combined) ++ Requirements s))
    end) ls (Some (Reqs rs)) = Some (Reqs (rs ++ (omap id ls ≫= Requirements))).
Proof.
  revert rs; induction ls as [|[s|] ls IH]; intros rs; simpl; [by rewrite app_nil_r| |by apply IH].
  by rewrite IH, <- app_assoc.
Qed.

Lemma Combine_eq ls :
  CombineLabelSelectors ls =
    match omap id ls with [] => None | ss => Some (Reqs (ss ≫= Requirements)) end.
Proof.
  unfold CombineLabelSelectors. induction ls as [|[s|] ls IH]; simpl; [done| |done].
  by rewrite Combine_acc.
Qed.

Lemma Requirements_matches s lbl :
  forallb (λ r, req_Matches r lbl) (Requirements s) = true ↔ s = Nothing ∨ sel_Matches s lbl = true.
Proof. destruct s; simpl; naive_solver. Qed.

(** Combining selectors conjoins their requirements, skipping nil ones,
    but a selector that matches nothing is not absorbing: it is skipped as
    well, so the combination with it matches as if it were absent. *)
Theorem CombineLabelSelectors_correct ls lbl :
  CombineLabelSelectors ls = None ∧ Forall (eq None) ls ∨
  ∃ c, CombineLabelSelectors ls = Some c ∧
    (sel_Matches c lbl = true ↔ ∀ s, Some s ∈ ls → s = Nothing ∨ sel_Matches s lbl = true).
Proof.
  rewrite Combine_eq. assert (Hin : ∀ s, s ∈ omap id ls ↔ Some s ∈ ls).
  { intros s. rewrite list_elem_of_omap. split; [intros (o & Ho & Hid); unfold id in Hid; by subst|by exists (Some s)]. }
  destruct (omap id ls) as [|s0 ss]; [left|right].
  - split; [done|]. apply Forall_forall. intros [s|] Hs; [|done]. by apply Hin, not_elem_of_nil in Hs.
  - eexists. split; [done|]. cbn [sel_Matches]. rewrite forallb_forall. setoid_rewrite <- list_elem_of_In.
    setoid_rewrite <- Hin. setoid_rewrite <- Requirements_matches. setoid_rewrite forallb_forall.
    setoid_rewrite <- list_elem_of_In. split.
    + intros Hall s Hs r Hr. apply Hall, list_elem_of_bind. by exists s.
    + intros Hall r (s & Hr & Hs)%list_elem_of_bind. by eapply Hall.
Qed.
End selector.

(** ** Concrete selectors *)

Section witness.
#[local] Existing Instance order_fwd.

Lemma MergeLabelSelector_conjunction_witness :
  let a := mkSel {["shard" := "1"]} [] in
  let b := mkSel {["app" := "x"]} [mkReq "tier" OpExists []] in
  let ls : gmap string string := {["shard" := "1"; "app" := "x"; "tier" := "web"]} in
  ∃ c, MergeLabelSelector (Some a) (Some b) = Some c ∧ (selects c ls ↔ selects a ls ∧ selects b ls).
Proof.
  apply MergeLabelSelector_conjunction. simpl.
  intros k v w [<- _]%lookup_singleton_Some [? _]%lookup_singleton_Some. done.
Defined.

Lemma MergeLabelSelector_escape_witness :
  ∃ c ls, MergeLabelSelector (Some (mkSel {["shard" := "1"]} [])) (Some (mkSel {["shard" := "2"]} [])) = Some c ∧
    selects c ls ∧ ¬ selects (mkSel {["shard" := "1"]} []) ls.
Proof. by apply (MergeLabelSelector_escape "shard" "1" "2"). Defined.

Lemma NegateLabelSelector_single_witness :
  ∃ n, NegateLabelSelector (Some (mkSel ∅ [mkReq "a" OpIn ["x"; "y"]])) = Some n ∧
    (selects n {["a" := "z"]} ↔ ¬ selects (mkSel ∅ [mkReq "a" OpIn ["x"; "y"]]) {["a" := "z"]}).
Proof.
  apply NegateLabelSelector_single; [by apply Forall_singleton|]. right. by eexists.
Defined.
End witness.
