(* ===== verification/Sharding.v ===== *)
(** * Automatic sharding

    src/pkg/manager/controllers/shardingconfigserver/auto_sharding.go: a root
    sharding configuration generates a canary shard and [ShardingSize] normal
    shards, which split the pods of a StatefulSet by ordinal and the objects
    by the 32 values of the hash label; the reconciler keeps the generated
    configurations in the API server in line with the root. *)

From Stdlib Require Import SpecFloat.
From S2P Require Import Prelude GoStrings GoTime Selector.

Local Open Scope Z_scope.

(** ** Data (src/pkg/apis/ctrlmesh/v1alpha1/shardingconfig_types.go) *)

Record ResourceGroup := mkResourceGroup { rg_Resources : list string; rg_APIGroups : list string }.
Record ObjectLimiter := mkObjectLimiter {
  RelatedResources : list ResourceGroup; ol_Selector : option LabelSelector;
}.
Record CanaryConfig := mkCanaryConfig {
  Replicas : option Z; InNamespaces : list string; InShardHash : list string;
}.
Record AutoConfig := mkAutoConfig { ShardingSize : Z; EveryShardReplicas : Z }.
Record ShardingConfigRoot := mkRoot {
  Disable : option bool; Prefix : string; TargetStatefulSet : string;
  Canary : option CanaryConfig; Auto : option AutoConfig; ResourceSelector : list ObjectLimiter;
}.
Record ControllerConfiguration := mkController { LeaderElectionName : string }.
Record WebhookConfiguration := mkWebhook { CertDir : string; Port : Z }.
Record ShardingConfig := mkConfig {
  (* metadata *)
  sc_Name : string; sc_Namespace : string;
  sc_Labels : gmap string string; sc_Annotations : gmap string string;
  sc_Finalizers : list string; sc_DeletionTimestamp : option Z;
  (* spec *)
  sc_Selector : option LabelSelector; sc_Controller : option ControllerConfiguration;
  sc_Webhook : option WebhookConfiguration; sc_Limits : list ObjectLimiter;
  sc_Root : option ShardingConfigRoot;
  (* status *)
  sc_Child : list string;
}.

(** src/pkg/apis/ctrlmesh/types.go, with the default label flags. *)
Definition CtrlmeshAutoShardingRootLabel : string := "ctrlmesh.kusionstack.io/auto-sharding-root".
Definition CtrlmeshAutoShardingHashAnno : string := "ctrlmesh.kusionstack.io/auto-sharding-hash".
Definition ProtectFinalizer : string := "finalizer.ctrlmesh.kusionstack.io/protected".
Definition ShardHashLabel : string := "ctrlmesh.kusionstack.io/shard-hash".
Definition NamespaceShardLabel : string := "ctrlmesh.kusionstack.io/namespace".
Definition podNameKey : string := "statefulset.kubernetes.io/pod-name".

(** ** Ranges: the sums and products of the code are 64-bit [int]s *)

(** [int(math.Ceil(x))]. *)
Definition ceil_f64 (x : spec_float) : Z :=
  match x with
  | S754_finite s m e =>
      let v := if s then Zneg m else Zpos m in
      if 0 <=? e then v * 2 ^ e else - ((- v) / 2 ^ (- e))
  | _ => 0
  end.

Definition getRange (id shardingSize all : Z) : Z * Z * list string :=
  let batchSize := ceil_f64 (f64_div (f64_of_Z all) (f64_of_Z shardingSize)) in
  let s := int64 (batchSize * (id - 1)) in
  let t := int64 (batchSize * id - 1) in
  let t := if all - 1 <? t then all else t in
  (s, t, Itoa <$> seqZ s (Z.min t (all - 1) - s + 1)).

(** The inner [continue] only continues the inner loop. *)
Fixpoint clearSame (data target : list string) : list string :=
  match data with
  | [] => []
  | id :: data' =>
      let scanned := fold_left (λ u targetId, if decide (id = targetId) then u else u) target tt in
      match scanned with tt => id :: clearSame data' target end
  end.

(** The bounds are ints.  (At [t = 2^63 - 1] the loop over [i <= t] would not
    end; memory is not modelled.) *)
Definition genNameInRange (prefix : string) (s t : Z) : list string :=
  (λ i, prefix +:+ "-" +:+ Itoa i) <$> seqZ s (t - s + 1).

(** ** Limits *)

Definition with_exprs (l : ObjectLimiter) (es : list LabelSelectorRequirement) : ObjectLimiter :=
  let sel := default emptySelector (ol_Selector l) in
  mkObjectLimiter (RelatedResources l) (Some (mkSel (MatchLabels sel) (MatchExpressions sel ++ es))).

Definition when (b : bool) (e : LabelSelectorRequirement) : list LabelSelectorRequirement :=
  if b then [e] else [].
Definition nonempty {A} (l : list A) : bool := match l with [] => false | _ => true end.

Definition genCanaryLimits (c : CanaryConfig) (origin : list ObjectLimiter) : list ObjectLimiter :=
  (λ l, with_exprs l
     (when (nonempty (InNamespaces c)) (mkReq NamespaceShardLabel OpIn (InNamespaces c)) ++
      when (nonempty (InShardHash c)) (mkReq ShardHashLabel OpIn (InShardHash c)))) <$> origin.

(** [*root.Spec.Root.Canary.Replicas > 0] is reached only when the canary
    configuration has namespaces or hashes; a nil count panics there. *)
Definition genShardingGlobalLimits (canary : option CanaryConfig) (batch : list string)
    (origin : list ObjectLimiter) : outcome (list ObjectLimiter) :=
  let batch := match canary with
               | Some c => if nonempty (InShardHash c) then clearSame batch (InShardHash c) else batch
               | None => batch
               end in
  let excluded := match canary with
    | Some c =>
        if nonempty origin && (nonempty (InNamespaces c) || nonempty (InShardHash c)) then
          rp ← deref (Replicas c);
          Returns (when (nonempty (InNamespaces c) && (0 <? rp)) (mkReq NamespaceShardLabel OpNotIn (InNamespaces c)) ++
                   when (nonempty (InShardHash c) && (0 <? rp)) (mkReq ShardHashLabel OpNotIn (InShardHash c)))
        else Returns []
    | None => Returns []
    end in
  ex ← excluded;
  Returns ((λ l, with_exprs l (ex ++ [mkReq ShardHashLabel OpIn batch])) <$> origin).

(** ** Children *)

(** The MD5 sums of JSON renderings the sources compare. *)
Class Hashes := {
  hash_root : ShardingConfigRoot → string;
  hash_names : list string → string;
}.

Section children.
Context `{Hashes}.

Definition podSelector (root : ShardingConfig) (names : list string) : LabelSelector :=
  let sel := default emptySelector (sc_Selector root) in
  mkSel (MatchLabels sel) (MatchExpressions sel ++ [mkReq podNameKey OpIn names]).

Definition childConfig (root : ShardingConfig) (name hash : string) (names : list string)
    (limits : list ObjectLimiter) : ShardingConfig := {|
  sc_Name := name; sc_Namespace := sc_Namespace root;
  sc_Labels := {[CtrlmeshAutoShardingRootLabel := sc_Name root]};
  sc_Annotations := {[CtrlmeshAutoShardingHashAnno := hash]};
  sc_Finalizers := []; sc_DeletionTimestamp := None;
  sc_Selector := Some (podSelector root names);
  sc_Controller := sc_Controller root; sc_Webhook := sc_Webhook root;
  sc_Limits := limits; sc_Root := None; sc_Child := [] |}.

Definition canaryChild (root : ShardingConfig) (r : ShardingConfigRoot) (c : CanaryConfig) (rp : Z) : ShardingConfig :=
  childConfig root (Prefix r +:+ "-0-canary") (hash_root r)
    (genNameInRange (TargetStatefulSet r) 0 (int64 (rp - 1))) (genCanaryLimits c (ResourceSelector r)).

(** The body of the loop over the shards; [c] is the canary configuration at
    that point and [rp] its replicas. *)
Definition shardChild (root : ShardingConfig) (r : ShardingConfigRoot) (c : CanaryConfig) (rp : Z)
    (a : AutoConfig) (id : Z) : outcome ShardingConfig :=
  let names := genNameInRange (TargetStatefulSet r) (int64 (rp + EveryShardReplicas a * (id - 1)))
                 (int64 (rp + EveryShardReplicas a * id - 1)) in
  let '(_, _, batch) := getRange id (ShardingSize a) 32 in
  limits ← genShardingGlobalLimits (Some c) batch (ResourceSelector r);
  Returns (childConfig root (Prefix r +:+ "-" +:+ Itoa id +:+ "-normal") (hash_root r) names limits).

Definition set_canary (root : ShardingConfig) (r : ShardingConfigRoot) (c : CanaryConfig) : ShardingConfig := {|
  sc_Name := sc_Name root; sc_Namespace := sc_Namespace root; sc_Labels := sc_Labels root;
  sc_Annotations := sc_Annotations root; sc_Finalizers := sc_Finalizers root;
  sc_DeletionTimestamp := sc_DeletionTimestamp root; sc_Selector := sc_Selector root;
  sc_Controller := sc_Controller root; sc_Webhook := sc_Webhook root; sc_Limits := sc_Limits root;
  sc_Root := Some (mkRoot (Disable r) (Prefix r) (TargetStatefulSet r) (Some c) (Auto r) (ResourceSelector r));
  sc_Child := sc_Child root |}.

(** The children, and the root, whose canary replicas are set to zero in
    place when there is no canary shard. *)
Definition getChild (root : ShardingConfig) : outcome (list ShardingConfig * ShardingConfig) :=
  r ← deref (sc_Root root);
  match Auto r with
  | None => Returns ([], root)
  | Some a =>
      c ← deref (Canary r);
      let '(canary, c', rp, root') :=
        match Replicas c with
        | Some rp =>
            if nonempty (InNamespaces c) || nonempty (InShardHash c)
            then ([canaryChild root r c rp], c, rp, root)
            else let c' := mkCanaryConfig (Some 0) (InNamespaces c) (InShardHash c) in
                 ([], c', 0, set_canary root r c')
        | None => let c' := mkCanaryConfig (Some 0) (InNamespaces c) (InShardHash c) in
                  ([], c', 0, set_canary root r c')
        end in
      shards ← foldM (λ acc id, cfg ← shardChild root r c' rp a id; Returns (acc ++ [cfg]))
                 [] (seqZ 1 (ShardingSize a));
      Returns (canary ++ shards, root')
  end.

(** ** Finalizers and status *)

(** The index runs over the length the slice had before the loop. *)
Definition clearFinalizers (key : string) (fin : list string) : outcome (bool * list string) :=
  foldM (λ '(res, fin) i,
    f ← deref (fin !! i);
    Returns (if decide (f = key) then (true, take i fin ++ drop (S i) fin) else (res, fin)))
    (false, fin) (seq 0 (length fin)).

Definition addFinalizers (key : string) (fin : list string) : bool * list string :=
  if existsb (λ f, bool_decide (f = key)) fin then (false, fin) else (true, fin ++ [key]).

Definition syncStatus (child : list string) (scs : list ShardingConfig) : bool * list string :=
  let newScs := sc_Name <$> scs in
  if decide (hash_names child ≠ hash_names newScs) then (true, newScs) else (false, child).

Definition clearStatus (child : list string) : bool * list string :=
  match child with [] => (false, []) | _ => (true, []) end.

End children.

(** ** Ranges: properties *)

Definition batchOf (id n : Z) : list string := (getRange id n 32).2.

Lemma batch_size_exact n :
  1 ≤ n ≤ 1024 → ceil_f64 (f64_div (f64_of_Z 32) (f64_of_Z n)) = (32 + n - 1) / n.
Proof.
  intros Hn.
  assert (Hall : Forall (λ n, ceil_f64 (f64_div (f64_of_Z 32) (f64_of_Z n)) = (32 + n - 1) / n) (seqZ 1 1024)).
  { apply (bool_decide_eq_true_1 _). vm_compute. reflexivity. }
  rewrite Forall_forall in Hall. apply Hall. rewrite elem_of_seqZ. lia.
Qed.

Lemma elem_of_batch n id h :
  1 ≤ n ≤ 1024 → 0 ≤ h < 32 → 1 ≤ id ≤ n →
  Itoa h ∈ batchOf id n ↔ (32 + n - 1) / n * (id - 1) ≤ h < (32 + n - 1) / n * id.
Proof.
  intros Hn Hh Hid. unfold batchOf, getRange. rewrite batch_size_exact by done.
  assert (Hb : 0 ≤ (32 + n - 1) / n ≤ 32).
  { split; [apply Z.div_pos; lia|]. apply Z.lt_succ_r, Z.div_lt_upper_bound; lia. }
  rewrite !int64_id by nia. simpl.
  rewrite list_elem_of_fmap. setoid_rewrite elem_of_seqZ. split.
  - intros (i & ->%Itoa_inj & Hi). case_match; rewrite ?Z.ltb_lt, ?Z.ltb_ge in *; lia.
  - intros Hi. exists h. split; [done|]. case_match; rewrite ?Z.ltb_lt, ?Z.ltb_ge in *; lia.
Qed.

Lemma owner_of n h :
  1 ≤ n ≤ 1024 → 0 ≤ h < 32 →
  let b := (32 + n - 1) / n in
  let id := h / b + 1 in
  1 ≤ id ≤ n ∧ ∀ id', b * (id' - 1) ≤ h < b * id' ↔ id' = id.
Proof.
  intros Hn Hh. simpl. set (b := (32 + n - 1) / n).
  assert (Hb : 1 ≤ b). { apply Z.div_le_lower_bound; lia. }
  assert (Hbn : 32 ≤ b * n). { unfold b. pose proof (Z.div_mod (32 + n - 1) n). pose proof (Z.mod_pos_bound (32 + n - 1) n). nia. }
  pose proof (Z.div_mod h b) as Hdm. pose proof (Z.mod_pos_bound h b) as Hmb.
  assert (h / b < n). { apply Z.div_lt_upper_bound; lia. }
  pose proof (Z.div_pos h b). split; [lia|]. intros id'. split; [|intros ->; nia].
  intros [Hlo Hhi]. assert (h / b = id' - 1); [|lia]. symmetry. apply Z.div_unique with (h - b * (id' - 1)); nia.
Qed.

(** The hash values are partitioned among the shards: for every number of
    shards up to 1024, each of the 32 hash values belongs to the batch of
    exactly one shard.  The batch size is computed in binary64 arithmetic as
    in the source. *)
Theorem getRange_partition n h :
  1 ≤ n ≤ 1024 → 0 ≤ h < 32 →
  ∃ id, (1 ≤ id ≤ n ∧ Itoa h ∈ batchOf id n) ∧ ∀ id', 1 ≤ id' ≤ n → Itoa h ∈ batchOf id' n → id' = id.
Proof.
  intros Hn Hh. destruct (owner_of n h Hn Hh) as [Hid Huniq]. simpl in *.
  exists (h / ((32 + n - 1) / n) + 1). split; [split; [done|]; apply elem_of_batch; [done..|by apply Huniq]|].
  intros id' Hid'. rewrite elem_of_batch by done. apply Huniq.
Qed.

Lemma clearSame_id data target : clearSame data target = data.
Proof. induction data as [|x data IH]; simpl; [done|]. case_match. by rewrite IH. Qed.

(** [clearSame] removes nothing: its [continue] belongs to the inner loop,
    so it returns the data whatever the target is. *)
Theorem clearSame_identity data target : clearSame data target = data.
Proof. apply clearSame_id. Qed.

Lemma elem_of_genName p s t i :
  p +:+ "-" +:+ Itoa i ∈ genNameInRange p s t ↔ s ≤ i ≤ t.
Proof.
  unfold genNameInRange. rewrite list_elem_of_fmap. setoid_rewrite elem_of_seqZ. split.
  - intros (j & Hj & Hr). apply app_inv_head_str in Hj. injection Hj as ->%Itoa_inj. lia.
  - intros Hi. exists i. split; [done|lia].
Qed.

(** ** Finalizers: properties *)

Definition clear1 (key : string) (x : bool * list string) (i : nat) : outcome (bool * list string) :=
  f ← deref (x.2 !! i);
  Returns (if decide (f = key) then (true, take i x.2 ++ drop (S i) x.2) else x).

Lemma clear1_eq key x i :
  clear1 key x i = match x.2 !! i with
    | Some f => Returns (if decide (f = key) then (true, take i x.2 ++ drop (S i) x.2) else x)
    | None => Panics
    end.
Proof. unfold clear1. by destruct (x.2 !! i). Qed.

Lemma clearFinalizers_eq key l :
  clearFinalizers key l = foldM (clear1 key) (false, l) (seq 0 (length l)).
Proof.
  unfold clearFinalizers. generalize (seq 0 (length l)) as ix. generalize false as b. intros b ix.
  revert b l. induction ix as [|i ix IH]; intros b l; [done|]. cbn [foldM]. rewrite clear1_eq. simpl.
  destruct (l !! i) as [f|]; simpl; [|done]. case_decide; apply IH.
Qed.

Lemma clear1_scan key l b ix :
  key ∉ l → (∀ i, i ∈ ix → (i < length l)%nat) → foldM (clear1 key) (b, l) ix = Returns (b, l).
Proof.
  intros Hk Hix. induction ix as [|i ix IH]; [done|]. cbn [foldM]. rewrite clear1_eq. simpl.
  destruct (lookup_lt_is_Some_2 l i) as [f Hf]; [apply Hix; by left|]. rewrite Hf. simpl.
  rewrite decide_False by (intros ->; by apply list_elem_of_lookup_2, Hk in Hf).
  apply IH. intros j Hj. apply Hix. by right.
Qed.

Lemma clear1_panics key x ix n :
  (length x.2 ≤ n)%nat → foldM (clear1 key) x (ix ++ [n]) = Panics.
Proof.
  revert x; induction ix as [|i ix IH]; intros x Hlen; simpl.
  - rewrite clear1_eq. by rewrite lookup_ge_None_2.
  - rewrite clear1_eq. destruct (x.2 !! i) as [f|] eqn:Hi; [|done]. simpl. apply IH.
    case_decide; simpl; [|done]. rewrite length_app, length_take, length_drop.
    apply lookup_lt_Some in Hi. lia.
Qed.

Lemma first_split (key : string) l :
  key ∈ l → ∃ l1 l2, l = l1 ++ key :: l2 ∧ key ∉ l1.
Proof.
  induction l as [|x l IH]; [intros []%not_elem_of_nil|]. intros [->|Hin]%elem_of_cons.
  { exists [], l. split; [done|]. apply not_elem_of_nil. }
  destruct (decide (x = key)) as [->|Hne]; [exists [], l; split; [done|apply not_elem_of_nil]|].
  destruct (IH Hin) as (l1 & l2 & -> & Hn). exists (x :: l1), l2. split; [done|]. set_solver.
Qed.

Lemma clear_upto key l1 l2 b :
  key ∉ l1 →
  foldM (clear1 key) (b, l1 ++ key :: l2) (seq 0 (length l1) ++ [length l1]) = Returns (true, l1 ++ l2).
Proof.
  intros Hn. rewrite foldM_app.
  assert (foldM (clear1 key) (b, l1 ++ key :: l2) (seq 0 (length l1)) = Returns (b, l1 ++ key :: l2)) as ->.
  { assert (Hix : ∀ i, i ∈ seq 0 (length l1) → (i < length l1)%nat) by (intros i; rewrite elem_of_seq; lia).
    revert Hix. generalize (seq 0 (length l1)) as ix. induction ix as [|i ix IH]; intros Hix; [done|].
    cbn [foldM]. rewrite clear1_eq. simpl.
    destruct (lookup_lt_is_Some_2 l1 i) as [f Hf]; [apply Hix; by left|].
    rewrite lookup_app_l by (apply Hix; by left). rewrite Hf. simpl.
    rewrite decide_False by (intros ->; by apply list_elem_of_lookup_2, Hn in Hf).
    apply IH. intros j Hj. apply Hix. by right. }
  simpl. rewrite clear1_eq. simpl. rewrite list_lookup_middle by done. simpl. rewrite decide_True by done.
  rewrite take_app_length. change (key :: l2) with ([key] ++ l2). rewrite app_assoc.
  replace (S (length l1)) with (length (l1 ++ [key])) by (rewrite length_app; simpl; lia).
  by rewrite drop_app_length.
Qed.

(** Removing a finalizer works only when it is the last one: the loop
    indexes the shortened slice with the old bound, so it panics exactly when
    the key occurs before the last position; otherwise it removes the key and
    reports whether it was there. *)
Theorem clearFinalizers_spec key l :
  match clearFinalizers key l with
  | Panics => ∃ i, l !! i = Some key ∧ (S i < length l)%nat
  | Returns (b, l') => (∀ i, l !! i = Some key → S i = length l) ∧
      (b = true ∧ l = l' ++ [key] ∨ b = false ∧ l' = l) ∧ key ∉ l'
  end.
Proof.
  rewrite clearFinalizers_eq. destruct (decide (key ∈ l)) as [Hin|Hn].
  - destruct (first_split key l Hin) as (l1 & l2 & -> & Hn). rewrite length_app. simpl.
    rewrite Nat.add_succ_r, <- Nat.add_succ_l, seq_app, foldM_app, seq_S. simpl.
    rewrite clear_upto by done. simpl. destruct l2 as [|y l2] using rev_ind.
    + simpl. rewrite app_nil_r. split; [|split; [by left|done]].
      intros i Hi. destruct (decide (i < length l1)%nat).
      * rewrite lookup_app_l in Hi by done. by apply list_elem_of_lookup_2 in Hi.
      * apply lookup_lt_Some in Hi. rewrite length_app in Hi. simpl in Hi. lia.
    + rewrite length_app. simpl. rewrite Nat.add_1_r, seq_S, clear1_panics.
      * exists (length l1). rewrite list_lookup_middle by done. split; [done|].
        rewrite ?length_app. simpl. lia.
      * simpl. rewrite !length_app. simpl. lia.
  - rewrite clear1_scan; [|done|intros i; rewrite elem_of_seq; lia]. split; [|split; [by right|done]].
    intros i Hi. by apply list_elem_of_lookup_2 in Hi.
Qed.

(** ** Children: properties *)

Section child_properties.
Context `{Hashes}.

Definition has_canary (c : CanaryConfig) : bool :=
  bool_decide (is_Some (Replicas c)) && (nonempty (InNamespaces c) || nonempty (InShardHash c)).
Definition canary_replicas (c : CanaryConfig) : Z :=
  if has_canary c then default 0 (Replicas c) else 0.

(** The expressions that keep the objects of the canary shard out. *)
Definition excluded_exprs (c : CanaryConfig) (rp : Z) : list LabelSelectorRequirement :=
  when (nonempty (InNamespaces c) && (0 <? rp)) (mkReq NamespaceShardLabel OpNotIn (InNamespaces c)) ++
  when (nonempty (InShardHash c) && (0 <? rp)) (mkReq ShardHashLabel OpNotIn (InShardHash c)).

Definition shard (root : ShardingConfig) (r : ShardingConfigRoot) (c : CanaryConfig) (rp : Z)
    (a : AutoConfig) (id : Z) : ShardingConfig :=
  childConfig root (Prefix r +:+ "-" +:+ Itoa id +:+ "-normal") (hash_root r)
    (genNameInRange (TargetStatefulSet r) (int64 (rp + EveryShardReplicas a * (id - 1)))
       (int64 (rp + EveryShardReplicas a * id - 1)))
    ((λ l, with_exprs l (excluded_exprs c rp ++ [mkReq ShardHashLabel OpIn (batchOf id (ShardingSize a))]))
       <$> ResourceSelector r).

Lemma shardChild_eq root r c rp a id :
  Replicas c = Some rp → shardChild root r c rp a id = Returns (shard root r c rp a id).
Proof.
  intros Hrp. unfold shardChild, shard, batchOf. destruct (getRange id (ShardingSize a) 32) as [[s t] batch].
  simpl. unfold genShardingGlobalLimits.
  assert ((if nonempty (InShardHash c) then clearSame batch (InShardHash c) else batch) = batch) as ->.
  { destruct (nonempty _); [apply clearSame_id|done]. }
  destruct (ResourceSelector r) as [|l ls]; [done|]. unfold excluded_exprs. rewrite Hrp.
  by destruct (nonempty (InNamespaces c)), (nonempty (InShardHash c)).
Qed.

Lemma shards_loop root r c rp a ids acc :
  Replicas c = Some rp →
  foldM (λ acc id, cfg ← shardChild root r c rp a id; Returns (acc ++ [cfg])) acc ids
    = Returns (acc ++ (shard root r c rp a <$> ids)).
Proof.
  intros Hrp. revert acc; induction ids as [|id ids IH]; intros acc; [by rewrite app_nil_r|].
  cbn [foldM]. rewrite shardChild_eq by done. cbn [mbind outcome_bind]. rewrite IH, <- app_assoc. done.
Qed.

(** The canary configuration the shards see, and the root afterwards. *)
Definition final_canary (c : CanaryConfig) : CanaryConfig :=
  if has_canary c then c else mkCanaryConfig (Some 0) (InNamespaces c) (InShardHash c).
Definition final_root (root : ShardingConfig) (r : ShardingConfigRoot) (c : CanaryConfig) : ShardingConfig :=
  if has_canary c then root else set_canary root r (final_canary c).
Definition children (root : ShardingConfig) (r : ShardingConfigRoot) (a : AutoConfig) (c : CanaryConfig)
    : list ShardingConfig :=
  (if has_canary c then [canaryChild root r c (canary_replicas c)] else []) ++
  (shard root r (final_canary c) (canary_replicas c) a <$> seqZ 1 (ShardingSize a)).

(** What [getChild] generates. *)
Lemma getChild_eq root r a c :
  sc_Root root = Some r → Auto r = Some a → Canary r = Some c →
  getChild root = Returns (children root r a c, final_root root r c).
Proof.
  intros Hr Ha Hc. unfold getChild, children, final_root, final_canary, canary_replicas, has_canary.
  rewrite Hr. simpl. rewrite Ha, Hc. simpl.
  destruct (Replicas c) as [rp|] eqn:Hrp; simpl; [|by rewrite shards_loop].
  destruct (nonempty (InNamespaces c) || nonempty (InShardHash c)); by rewrite shards_loop.
Qed.

Lemma getChild_shape root r a c :
  sc_Root root = Some r → Auto r = Some a → Canary r = Some c →
  ∃ c' root', InNamespaces c' = InNamespaces c ∧ InShardHash c' = InShardHash c ∧
    getChild root = Returns ((if has_canary c then [canaryChild root r c (canary_replicas c)] else []) ++
      (shard root r c' (canary_replicas c) a <$> seqZ 1 (ShardingSize a)), root').
Proof.
  intros Hr Ha Hc. exists (final_canary c), (final_root root r c).
  rewrite (getChild_eq root r a c) by done. split; [|split; [|done]]; unfold final_canary;
    by destruct (has_canary c).
Qed.

(** The pods a child is for. *)
Definition pod_values (cfg : ShardingConfig) : list string :=
  match sc_Selector cfg with
  | Some s => from_option lr_Values [] (last (MatchExpressions s))
  | None => []
  end.
Lemma pod_values_child root name hash names limits :
  pod_values (childConfig root name hash names limits) = names.
Proof. unfold pod_values, childConfig. simpl. by rewrite last_snoc. Qed.

Definition podName (r : ShardingConfigRoot) (i : Z) : string := TargetStatefulSet r +:+ "-" +:+ Itoa i.

(** C8. The pods of the StatefulSet are partitioned among the children: with
    counts that are not negative and whose total, the canary replicas plus the
    shards' replicas, is an [int], the generation returns, and every ordinal
    below that total is the pod of exactly one generated configuration.
    (Beyond, the bounds of the ranges wrap around: [wrapped_shard_empty].) *)
Theorem pods_partition root r a c :
  sc_Root root = Some r → Auto r = Some a → Canary r = Some c →
  0 ≤ ShardingSize a → 0 ≤ EveryShardReplicas a → 0 ≤ canary_replicas c →
  canary_replicas c + EveryShardReplicas a * ShardingSize a < 2 ^ 63 →
  ∃ cs root', getChild root = Returns (cs, root') ∧
    ∀ i, 0 ≤ i < canary_replicas c + EveryShardReplicas a * ShardingSize a →
      ∃ cfg, (cfg ∈ cs ∧ podName r i ∈ pod_values cfg) ∧
        ∀ cfg', cfg' ∈ cs → podName r i ∈ pod_values cfg' → cfg' = cfg.
Proof.
  intros Hr Ha Hc Hn He Hrp Hint.
  destruct (getChild_shape root r a c Hr Ha Hc) as (c' & root' & _ & _ & Hg).
  eexists _, root'. split; [exact Hg|]. intros i Hi. set (rp := canary_replicas c) in *.
  assert (Hshard : ∀ id, 1 ≤ id ≤ ShardingSize a → podName r i ∈ pod_values (shard root r c' rp a id) ↔
    rp + EveryShardReplicas a * (id - 1) ≤ i ≤ rp + EveryShardReplicas a * id - 1).
  { intros id Hid. unfold shard. rewrite pod_values_child, !int64_id by nia. apply elem_of_genName. }
  assert (Hcan : podName r i ∈ pod_values (canaryChild root r c rp) ↔ 0 ≤ i ≤ rp - 1).
  { unfold canaryChild. rewrite pod_values_child, int64_id by nia. apply elem_of_genName. }
  destruct (decide (i < rp)) as [Hlt|Hge].
  - assert (has_canary c = true) as ->. { unfold rp, canary_replicas in *. destruct (has_canary c); [done|lia]. }
    exists (canaryChild root r c rp). split; [split; [by left|by apply Hcan; lia]|].
    intros cfg' [->|(id & -> & Hid)%list_elem_of_fmap]%elem_of_cons; [done|].
    apply elem_of_seqZ in Hid. rewrite Hshard by lia. nia.
  - set (e := EveryShardReplicas a) in *. assert (0 < e) by nia.
    pose proof (Z.div_mod (i - rp) e) as Hdm. pose proof (Z.mod_pos_bound (i - rp) e) as Hmb.
    assert (Hq : 0 ≤ (i - rp) / e < ShardingSize a).
    { split; [apply Z.div_pos; lia|apply Z.div_lt_upper_bound; lia]. }
    exists (shard root r c' rp a ((i - rp) / e + 1)). split; [split|].
    + apply elem_of_app. right. apply list_elem_of_fmap_2, elem_of_seqZ. lia.
    + apply Hshard; fold e; nia.
    + intros cfg' [Hin|(id & -> & Hid)%list_elem_of_fmap]%elem_of_app.
      * destruct (has_canary c); [|by apply not_elem_of_nil in Hin].
        apply list_elem_of_singleton in Hin as ->. rewrite Hcan. lia.
      * apply elem_of_seqZ in Hid. rewrite Hshard by lia. fold e. intros Hid'. do 2 f_equal.
        assert ((i - rp) / e = id - 1); [|lia]. symmetry. apply Z.div_unique with (i - rp - e * (id - 1)); nia.
Qed.

(** With replicas per shard near the largest int the range of the first shard
    is empty: its upper bound has wrapped around. *)
Lemma wrapped_shard_empty root r c rp a :
  EveryShardReplicas a = 2 ^ 63 - 1 → 1 < rp < 2 ^ 63 → pod_values (shard root r c rp a 1) = [].
Proof.
  intros He Hrp. unfold shard. rewrite pod_values_child, He.
  assert (Hs : int64 (rp + (2 ^ 63 - 1) * (1 - 1)) = rp) by (rewrite int64_id; lia). rewrite Hs.
  assert (Ht : int64 (rp + (2 ^ 63 - 1) * 1 - 1) = rp - 2 - 2 ^ 63).
  { unfold int64, wrap.
    rewrite <- (Z.mod_unique_pos (rp + (2 ^ 63 - 1) * 1 - 1 + 2 ^ (64 - 1)) (2 ^ 64) 1 (rp - 2)) by lia. lia. }
  rewrite Ht. unfold genNameInRange. rewrite seqZ_nil by lia. done.
Qed.

(** ** Which child an object belongs to *)

(** The [j]-th limit of a configuration selects an object with labels [ls]. *)
Definition limit_selects (cfg : ShardingConfig) (j : nat) (ls : gmap string string) : Prop :=
  ∃ l sel, sc_Limits cfg !! j = Some l ∧ ol_Selector l = Some sel ∧ selects sel ls.

Definition hits (values : list string) (key : string) (ls : gmap string string) : Prop :=
  ∃ v, ls !! key = Some v ∧ v ∈ values.

Lemma limit_selects_exprs cfg f (origin : list ObjectLimiter) j l ls :
  sc_Limits cfg = (λ l, with_exprs l (f l)) <$> origin → origin !! j = Some l →
  selects (default emptySelector (ol_Selector l)) ls →
  limit_selects cfg j ls ↔ Forall (λ e, expr_matches e ls) (f l).
Proof.
  intros Hlim Hj Hsel. unfold limit_selects. rewrite Hlim, list_lookup_fmap, Hj. simpl. split.
  - intros (l' & sel & [= <-] & [= <-] & [_ Hall]). simpl in Hall. by apply Forall_app in Hall as [_ ?].
  - intros Hall. eexists _, _. split; [done|]. split; [done|]. destruct Hsel as [? ?].
    split; [done|]. simpl. by apply Forall_app.
Qed.

Lemma when_matches b e ls : Forall (λ e, expr_matches e ls) (when b e) ↔ (b = true → expr_matches e ls).
Proof. destruct b; simpl; [rewrite Forall_singleton; naive_solver|naive_solver]. Qed.

Lemma nonempty_hits l key ls : hits l key ls → nonempty l = true.
Proof. intros (v & _ & Hv). by destruct l; [apply not_elem_of_nil in Hv|]. Qed.

Section objects.
Variables (root : ShardingConfig) (r : ShardingConfigRoot) (a : AutoConfig) (c c' : CanaryConfig).
Variables (j : nat) (l : ObjectLimiter) (ls : gmap string string) (h : Z).
Hypotheses (Hns : InNamespaces c' = InNamespaces c) (Hsh : InShardHash c' = InShardHash c)
  (Hj : ResourceSelector r !! j = Some l)
  (Hsel : selects (default emptySelector (ol_Selector l)) ls) (Hlab : ls !! ShardHashLabel = Some (Itoa h)).

Lemma canary_selects rp :
  limit_selects (canaryChild root r c rp) j ls ↔
  (nonempty (InNamespaces c) = true → hits (InNamespaces c) NamespaceShardLabel ls) ∧
  (nonempty (InShardHash c) = true → hits (InShardHash c) ShardHashLabel ls).
Proof using Hj Hsel.
  erewrite (limit_selects_exprs _ (λ _, _)); [|done|done|done]. by rewrite Forall_app, !when_matches.
Qed.

Lemma shard_selects rp id :
  limit_selects (shard root r c' rp a id) j ls ↔
  (0 < rp → ¬ hits (InNamespaces c) NamespaceShardLabel ls ∧ ¬ hits (InShardHash c) ShardHashLabel ls) ∧
  Itoa h ∈ batchOf id (ShardingSize a).
Proof using Hns Hsh Hj Hsel Hlab.
  erewrite (limit_selects_exprs _ (λ _, _)); [|done|done|done].
  rewrite Forall_app, Forall_singleton. unfold excluded_exprs. rewrite Forall_app, !when_matches, Hns, Hsh.
  rewrite !andb_true_iff, Z.ltb_lt. unfold expr_matches. simpl. rewrite Hlab.
  assert (Hhash : (∃ v, Some (Itoa h) = Some v ∧ v ∈ batchOf id (ShardingSize a)) ↔
    Itoa h ∈ batchOf id (ShardingSize a)) by naive_solver.
  rewrite Hhash. apply and_iff_compat_r. unfold hits. rewrite Hlab. split.
  - intros [H1 H2] Hrp. split; intros (v & Hv & Hin).
    + eapply H1; [|done|done]. split; [|done]. by destruct (InNamespaces c); [apply not_elem_of_nil in Hin|].
    + simplify_eq. eapply H2; [|done|done]. split; [|done]. by destruct (InShardHash c); [apply not_elem_of_nil in Hin|].
  - intros Hall. split; intros [_ Hrp] v Hv Hin; destruct (Hall Hrp) as [H1 H2]; eauto.
Qed.
End objects.

Lemma objects_exactly_one root r a c j l ls h :
  sc_Root root = Some r → Auto r = Some a → Canary r = Some c →
  1 ≤ ShardingSize a ≤ 1024 → InNamespaces c = [] ∨ InShardHash c = [] →
  (has_canary c = true → 0 < canary_replicas c) →
  ResourceSelector r !! j = Some l → selects (default emptySelector (ol_Selector l)) ls →
  0 ≤ h < 32 → ls !! ShardHashLabel = Some (Itoa h) →
  ∃ cs root', getChild root = Returns (cs, root') ∧
    ∃ cfg, (cfg ∈ cs ∧ limit_selects cfg j ls) ∧
      ∀ cfg', cfg' ∈ cs → limit_selects cfg' j ls → cfg' = cfg.
Proof.
  intros Hr Ha Hc Hn Hone Hpos Hj Hsel Hh Hlab.
  destruct (getChild_shape root r a c Hr Ha Hc) as (c' & root' & Hns & Hsh & Hg).
  eexists _, root'. split; [exact Hg|]. set (rp := canary_replicas c) in *.
  pose proof (canary_selects root r c j l ls Hj Hsel rp) as Hcan.
  pose proof (λ id, shard_selects root r a c c' j l ls h Hns Hsh Hj Hsel Hlab rp id) as Hshd.
  destruct (owner_of (ShardingSize a) h Hn Hh) as [Hid Huniq]. simpl in *.
  set (id := h / ((32 + ShardingSize a - 1) / ShardingSize a) + 1) in *.
  assert (Hb : ∀ id', 1 ≤ id' ≤ ShardingSize a → Itoa h ∈ batchOf id' (ShardingSize a) ↔ id' = id).
  { intros id' Hid'. rewrite elem_of_batch by done. apply Huniq. }
  set (hit := hits (InNamespaces c) NamespaceShardLabel ls ∨ hits (InShardHash c) ShardHashLabel ls).
  assert (Hdec : hit ∨ ¬ hit).
  { assert (∀ vs key, Decision (hits vs key ls)) as Hd.
    { intros vs key. unfold hits. destruct (ls !! key) as [v|]; [|right; naive_solver].
      destruct (decide (v ∈ vs)); [left; eauto|right; naive_solver]. }
    unfold hit. destruct (Hd (InNamespaces c) NamespaceShardLabel), (Hd (InShardHash c) ShardHashLabel); tauto. }
  destruct (has_canary c) eqn:Hhc.
  - specialize (Hpos eq_refl).
    assert (Hce : limit_selects (canaryChild root r c rp) j ls ↔ hit).
    { rewrite Hcan. unfold hit. unfold has_canary in Hhc. apply andb_true_iff in Hhc as [_ Hhc].
      destruct Hone as [Ho|Ho]; rewrite Ho in *; simpl in *; rewrite ?orb_false_r in Hhc.
      - split; [intros [_ Hx]; right; auto|]. intros [(v & _ & []%not_elem_of_nil)|Hx]. by split.
      - split; [intros [Hx _]; left; auto|]. intros [Hx|(v & _ & []%not_elem_of_nil)]. by split. }
    destruct Hdec as [Hit|Hno].
    + exists (canaryChild root r c rp). split; [split; [by left|by apply Hce]|].
      intros cfg' [->|(id' & -> & _)%list_elem_of_fmap]%elem_of_cons; [done|].
      rewrite Hshd. unfold hit in Hit. naive_solver.
    + exists (shard root r c' rp a id). split; [split|].
      * apply elem_of_app. right. apply list_elem_of_fmap_2, elem_of_seqZ. lia.
      * apply Hshd. rewrite Hb by done. unfold hit in Hno. naive_solver.
      * intros cfg' [->|(id' & -> & Hid'%elem_of_seqZ)%list_elem_of_fmap]%elem_of_cons; [naive_solver|].
        rewrite Hshd, Hb by lia. naive_solver.
  - assert (rp = 0) as Hrp0 by (unfold rp, canary_replicas; by rewrite Hhc).
    exists (shard root r c' rp a id). split; [split|].
    + simpl. apply list_elem_of_fmap_2, elem_of_seqZ. lia.
    + apply Hshd. rewrite Hb by done. split; [lia|done].
    + intros cfg' (id' & -> & Hid'%elem_of_seqZ)%list_elem_of_fmap. rewrite Hshd, Hb by lia. naive_solver.
Qed.

(** C7. The objects are partitioned among the children: when the canary
    configuration restricts namespaces or hash values but not both, and has
    replicas if there is a canary shard, and there are 1 to 1024 shards, every
    object that a root limit selects and that carries one of the 32 hash values
    is selected by that limit of exactly one generated configuration. *)
Theorem objects_partition root r a c j l ls h :
  sc_Root root = Some r → Auto r = Some a → Canary r = Some c →
  1 ≤ ShardingSize a ≤ 1024 → InNamespaces c = [] ∨ InShardHash c = [] →
  (has_canary c = true → 0 < canary_replicas c) →
  ResourceSelector r !! j = Some l → selects (default emptySelector (ol_Selector l)) ls →
  0 ≤ h < 32 → ls !! ShardHashLabel = Some (Itoa h) →
  ∃ cs root', getChild root = Returns (cs, root') ∧
    ∃ cfg, (cfg ∈ cs ∧ limit_selects cfg j ls) ∧
      ∀ cfg', cfg' ∈ cs → limit_selects cfg' j ls → cfg' = cfg.
Proof. apply objects_exactly_one. Qed.

(** With both namespaces and hash values in the canary configuration the
    split has a hole: the canary limits demand both, the shard limits exclude
    each, so an object in a canary namespace whose hash is not a canary hash
    is selected by no generated configuration at all. *)
Theorem objects_gap root r a c j l ls h :
  sc_Root root = Some r → Auto r = Some a → Canary r = Some c →
  has_canary c = true → 0 < canary_replicas c →
  InShardHash c ≠ [] → hits (InNamespaces c) NamespaceShardLabel ls →
  ResourceSelector r !! j = Some l → selects (default emptySelector (ol_Selector l)) ls →
  0 ≤ h < 32 → ls !! ShardHashLabel = Some (Itoa h) → Itoa h ∉ InShardHash c →
  ∃ cs root', getChild root = Returns (cs, root') ∧ ∀ cfg, cfg ∈ cs → ¬ limit_selects cfg j ls.
Proof.
  intros Hr Ha Hc Hhc Hpos Hne Hit Hj Hsel Hh Hlab Hnot.
  destruct (getChild_shape root r a c Hr Ha Hc) as (c' & root' & Hns & Hsh & Hg).
  eexists _, root'. split; [exact Hg|]. rewrite Hhc.
  intros cfg [->|(id & -> & _)%list_elem_of_fmap]%elem_of_cons.
  - rewrite (canary_selects root r c j l ls Hj Hsel). intros [_ Hx].
    destruct Hx as (v & Hv & Hin); [by destruct (InShardHash c)|]. naive_solver.
  - rewrite (shard_selects root r a c c' j l ls h Hns Hsh Hj Hsel Hlab). naive_solver.
Qed.
End child_properties.

(** ** Concrete roots *)

(** A stand-in for the MD5 sums: enough of the root to tell the examples apart. *)
Definition demo_hashes : Hashes := {|
  hash_root := λ r, Prefix r +:+ from_option (λ a, Itoa (ShardingSize a)) "-" (Auto r);
  hash_names := Join "," |}.

Definition demo_canary (ns hs : list string) : CanaryConfig := mkCanaryConfig (Some 2) ns hs.
Definition demo_root_spec (size : Z) (ns hs : list string) : ShardingConfigRoot :=
  mkRoot None "shard" "sts" (Some (demo_canary ns hs)) (Some (mkAutoConfig size 3)) [mkObjectLimiter [] None].
Definition demo_root (namespace : string) (size : Z) (ns hs : list string) (sel : option LabelSelector) : ShardingConfig :=
  {| sc_Name := "root"; sc_Namespace := namespace; sc_Labels := ∅; sc_Annotations := ∅;
     sc_Finalizers := []; sc_DeletionTimestamp := None; sc_Selector := sel; sc_Controller := None;
     sc_Webhook := None; sc_Limits := []; sc_Root := Some (demo_root_spec size ns hs); sc_Child := [] |}.

Section witness.
#[local] Existing Instance demo_hashes.

Lemma getRange_partition_witness :
  ∃ id, (1 ≤ id ≤ 5 ∧ Itoa 17 ∈ batchOf id 5) ∧ ∀ id', 1 ≤ id' ≤ 5 → Itoa 17 ∈ batchOf id' 5 → id' = id.
Proof. apply getRange_partition; lia. Defined.

Lemma pods_partition_witness :
  ∃ cs root', getChild (demo_root "ns" 3 ["a"] [] None) = Returns (cs, root') ∧
    ∀ i, 0 ≤ i < 2 + 3 * 3 →
      ∃ cfg, (cfg ∈ cs ∧ podName (demo_root_spec 3 ["a"] []) i ∈ pod_values cfg) ∧
        ∀ cfg', cfg' ∈ cs → podName (demo_root_spec 3 ["a"] []) i ∈ pod_values cfg' → cfg' = cfg.
Proof.
  apply (pods_partition _ _ (mkAutoConfig 3 3) (demo_canary ["a"] [])); [reflexivity|reflexivity|reflexivity|..];
    vm_compute; (discriminate || reflexivity).
Defined.

Definition demo_labels (ns : string) (h : Z) : gmap string string :=
  {[NamespaceShardLabel := ns; ShardHashLabel := Itoa h]}.

Lemma demo_selects ns h : selects (default emptySelector (ol_Selector (mkObjectLimiter [] None))) (demo_labels ns h).
Proof. split; [apply map_empty_subseteq|constructor]. Qed.

Lemma objects_partition_witness :
  ∃ cs root', getChild (demo_root "ns" 3 ["a"] [] None) = Returns (cs, root') ∧
    ∃ cfg, (cfg ∈ cs ∧ limit_selects cfg 0 (demo_labels "a" 7)) ∧
      ∀ cfg', cfg' ∈ cs → limit_selects cfg' 0 (demo_labels "a" 7) → cfg' = cfg.
Proof.
  eapply (objects_partition _ _ (mkAutoConfig 3 3) (demo_canary ["a"] []) 0 (mkObjectLimiter [] None) _ 7).
  - reflexivity.
  - reflexivity.
  - reflexivity.
  - simpl. lia.
  - by right.
  - done.
  - reflexivity.
  - apply demo_selects.
  - lia.
  - reflexivity.
Defined.

Lemma objects_gap_witness :
  ∃ cs root', getChild (demo_root "ns" 3 ["a"] ["1"] None) = Returns (cs, root') ∧
    ∀ cfg, cfg ∈ cs → ¬ limit_selects cfg 0 (demo_labels "a" 7).
Proof.
  eapply (objects_gap _ _ (mkAutoConfig 3 3) (demo_canary ["a"] ["1"]) 0 (mkObjectLimiter [] None) _ 7).
  - reflexivity.
  - reflexivity.
  - reflexivity.
  - reflexivity.
  - done.
  - done.
  - exists "a". split; [reflexivity|by left].
  - reflexivity.
  - apply demo_selects.
  - lia.
  - reflexivity.
  - apply (bool_decide_eq_true_1 _). reflexivity.
Defined.
End witness.
