(* ===== verification/ShardingReconcile.v ===== *)
(** * Reconciling generated sharding configurations

    [AutoSharding] of
    src/pkg/manager/controllers/shardingconfigserver/auto_sharding.go against a
    model of the API server: the stored objects, and calls that may fail. *)

From S2P Require Import Prelude GoStrings Selector Sharding.

(** ** The API server *)

Inductive ApiError := NotFound | AlreadyExists | ApiFailure (msg : string).
#[export] Instance ApiError_eq_dec : EqDecision ApiError.
Proof. solve_decision. Defined.

Record api := mkApi { objs : gmap (string * string) ShardingConfig; calls : nat }.

(** Which calls fail, by the number of the call; a failed call has no effect.
    [api_now] stamps deletions. *)
Class ApiServer := { api_fails : nat → option ApiError; api_now : Z }.

(** A computation against the API server: it may panic, and ends with a value
    or an error. *)
Definition act (A : Type) : Type := api → outcome ((A + ApiError) * api).
#[export] Instance act_ret : MRet act := λ A a s, Returns (inl a, s).
#[export] Instance act_bind : MBind act := λ A B f m s,
  '(x, s) ← m s; match x with inl a => f a s | inr e => Returns (inr e, s) end.
Definition lift {A} (o : outcome A) : act A := λ s, a ← o; Returns (inl a, s).
Definition throw {A} (e : ApiError) : act A := λ s, Returns (inr e, s).
(** [if err != nil && !errors.IsNotFound(err)], with a value for not found. *)
Definition ignoreNotFound {A} (a : A) (m : act A) : act A := λ s,
  '(x, s) ← m s; Returns (match x with inr NotFound => inl a | _ => x end, s).
Definition skip : act unit := mret tt.
Fixpoint foldA {A S} (f : S → A → act S) (s : S) (l : list A) : act S :=
  match l with [] => mret s | x :: l' => s' ← f s x; foldA f s' l' end.

Definition key_of (c : ShardingConfig) : string * string := (sc_Namespace c, sc_Name c).
Definition labelled (rootName : string) (c : ShardingConfig) : bool :=
  bool_decide (sc_Labels c !! CtrlmeshAutoShardingRootLabel = Some rootName).

Definition with_meta (c : ShardingConfig) (fin : list string) (del : option Z) (child : list string) : ShardingConfig := {|
  sc_Name := sc_Name c; sc_Namespace := sc_Namespace c; sc_Labels := sc_Labels c;
  sc_Annotations := sc_Annotations c; sc_Finalizers := fin; sc_DeletionTimestamp := del;
  sc_Selector := sc_Selector c; sc_Controller := sc_Controller c; sc_Webhook := sc_Webhook c;
  sc_Limits := sc_Limits c; sc_Root := sc_Root c; sc_Child := child |}.

Section api.
Context `{ApiServer}.

Definition call {A} (f : gmap (string * string) ShardingConfig →
    (A + ApiError) * gmap (string * string) ShardingConfig) : act A := λ s,
  match api_fails (calls s) with
  | Some e => Returns (inr e, mkApi (objs s) (S (calls s)))
  | None => let '(x, o) := f (objs s) in Returns (x, mkApi o (S (calls s)))
  end.

(** Listing by label, over all namespaces. *)
Definition api_List (rootName : string) : act (list ShardingConfig) :=
  call (λ o, (inl (filter (labelled rootName) (map_to_list o).*2), o)).

(** An object with finalizers is only marked. *)
Definition api_Delete (c : ShardingConfig) : act unit :=
  call (λ o, match o !! key_of c with
             | None => (inr NotFound, o)
             | Some x => (inl tt, match sc_Finalizers x with
                                  | [] => delete (key_of c) o
                                  | fin => <[key_of c := with_meta x fin (Some api_now) (sc_Child x)]> o
                                  end)
             end).
Definition api_Create (c : ShardingConfig) : act unit :=
  call (λ o, match o !! key_of c with
             | Some _ => (inr AlreadyExists, o)
             | None => (inl tt, <[key_of c := c]> o)
             end).

(** Updating keeps the status; an object marked for deletion goes when its
    last finalizer does. *)
Definition api_Update (c : ShardingConfig) : act unit :=
  call (λ o, match o !! key_of c with
             | None => (inr NotFound, o)
             | Some x =>
                 (inl tt, match sc_DeletionTimestamp x, sc_Finalizers c with
                          | Some _, [] => delete (key_of c) o
                          | _, _ => <[key_of c := with_meta c (sc_Finalizers c) (sc_DeletionTimestamp x) (sc_Child x)]> o
                          end)
             end).
Definition api_StatusUpdate (c : ShardingConfig) : act unit :=
  call (λ o, match o !! key_of c with
             | None => (inr NotFound, o)
             | Some x => (inl tt, <[key_of c := with_meta x (sc_Finalizers x) (sc_DeletionTimestamp x) (sc_Child c)]> o)
             end).

(** ** Reconciliation *)

Context `{Hashes}.

Definition with_fin (c : ShardingConfig) (fin : list string) : ShardingConfig :=
  with_meta c fin (sc_DeletionTimestamp c) (sc_Child c).
Definition with_child (c : ShardingConfig) (child : list string) : ShardingConfig :=
  with_meta c (sc_Finalizers c) (sc_DeletionTimestamp c) child.

(** A disabled or deleted root: its children, its status and its finalizer go. *)
Definition teardown (root : ShardingConfig) (oldCfgs : list ShardingConfig) : act unit :=
  foldA (λ _ cfg, api_Delete cfg) tt oldCfgs ;;
  let '(changed, child) := clearStatus (sc_Child root) in
  (if changed then ignoreNotFound tt (api_StatusUpdate (with_child root child)) else skip) ;;
  '(cleared, fin) ← lift (clearFinalizers ProtectFinalizer (sc_Finalizers root));
  if (cleared : bool) then api_Update (with_fin (with_child root child) fin) else skip.

(** Children of another root specification go; the names of the others. *)
Definition prune (newHash : string) (oldMap : gset string) (cfg : ShardingConfig) : act (gset string) :=
  if decide (default EmptyString (sc_Annotations cfg !! CtrlmeshAutoShardingHashAnno) ≠ newHash)
  then api_Delete cfg ;; mret oldMap
  else mret ({[sc_Name cfg]} ∪ oldMap).
Definition create1 (oldMap : gset string) (_ : unit) (cfg : ShardingConfig) : act unit :=
  if decide (sc_Name cfg ∈ oldMap) then skip else api_Create cfg.

Definition isDisabled (r : ShardingConfigRoot) : bool := bool_decide (Disable r = Some true).

Definition AutoSharding (root : ShardingConfig) : act unit :=
  oldCfgs ← ignoreNotFound [] (api_List (sc_Name root));
  r ← lift (deref (sc_Root root));
  if bool_decide (is_Some (sc_DeletionTimestamp root)) || isDisabled r then teardown root oldCfgs else
  let '(added, fin) := addFinalizers ProtectFinalizer (sc_Finalizers root) in
  let root := with_fin root fin in
  (if (added : bool) then api_Update root else skip) ;;
  let newHash := hash_root r in
  oldMap ← foldA (prune newHash) ∅ oldCfgs;
  '(newCfg, root) ← lift (getChild root);
  foldA (create1 oldMap) tt newCfg ;;
  let '(changed, child) := syncStatus (sc_Child root) newCfg in
  if (changed : bool) then api_StatusUpdate (with_child root child) else skip.

End api.

(** ** Fault-free runs *)

Section converges.
Context `{ApiServer} `{Hashes}.
Hypothesis no_faults : ∀ n, api_fails n = None.

(** Objects are stored under their own key. *)
Definition keyed (o : gmap (string * string) ShardingConfig) : Prop := map_Forall (λ k x, key_of x = k) o.

Lemma call_ok {A} (f : gmap (string * string) ShardingConfig → (A + ApiError) * _) s :
  call f s = Returns ((f (objs s)).1, mkApi (f (objs s)).2 (S (calls s))).
Proof using no_faults. unfold call. rewrite no_faults. by destruct (f (objs s)). Qed.

Lemma elem_of_listing o n x : keyed o →
  x ∈ filter (labelled n) (map_to_list o).*2 ↔ o !! key_of x = Some x ∧ labelled n x = true.
Proof.
  intros Hk. rewrite list_elem_of_filter, Is_true_true, list_elem_of_fmap. split.
  - intros [Hl ([k y] & -> & Hin%elem_of_map_to_list)]. simpl in *. by rewrite (Hk k y Hin).
  - intros [Hx Hl]. split; [done|]. exists (key_of x, x). by rewrite elem_of_map_to_list.
Qed.

Lemma listing_NoDup o n : keyed o → NoDup (key_of <$> filter (labelled n) (map_to_list o).*2).
Proof.
  intros Hk. eapply sublist_NoDup; [|apply fmap_sublist, sublist_filter].
  assert (key_of <$> (map_to_list o).*2 = (map_to_list o).*1) as ->; [|apply NoDup_fst_map_to_list].
  rewrite <- list_fmap_compose. apply list_fmap_ext. intros i [k x] Hi. simpl.
  apply list_elem_of_lookup_2, elem_of_map_to_list in Hi. by apply Hk.
Qed.

Definition stale (newHash : string) (c : ShardingConfig) : Prop :=
  default EmptyString (sc_Annotations c !! CtrlmeshAutoShardingHashAnno) ≠ newHash.

Lemma foldA_cons {A S} (f : S → A → act S) a x l s a' s1 :
  f a x s = Returns (inl a', s1) → foldA f a (x :: l) s = foldA f a' l s1.
Proof. simpl. unfold mbind at 1, act_bind. by intros ->. Qed.

Lemma prune_stale h acc c s :
  stale h c → objs s !! key_of c = Some c → sc_Finalizers c = [] →
  prune h acc c s = Returns (inl acc, mkApi (delete (key_of c) (objs s)) (S (calls s))).
Proof using no_faults.
  intros Hst Hin Hfin. unfold prune. rewrite decide_True by done. unfold mbind, act_bind, api_Delete.
  by rewrite call_ok, Hin, Hfin.
Qed.
Lemma prune_keep h acc c s :
  ¬ stale h c → prune h acc c s = Returns (inl ({[sc_Name c]} ∪ acc), s).
Proof. intros Hst. unfold prune. by rewrite decide_False. Qed.

Lemma create1_new old c s :
  sc_Name c ∉ old → objs s !! key_of c = None →
  create1 old tt c s = Returns (inl tt, mkApi (<[key_of c := c]> (objs s)) (S (calls s))).
Proof using no_faults.
  intros Hn Hfree. unfold create1. rewrite decide_False by done. unfold api_Create. by rewrite call_ok, Hfree.
Qed.

Lemma prune_loop h old acc s :
  keyed (objs s) → NoDup (key_of <$> old) →
  Forall (λ c, objs s !! key_of c = Some c ∧ sc_Finalizers c = []) old →
  ∃ acc' s', foldA (prune h) acc old s = Returns (inl acc', s') ∧
    (∀ k x, objs s' !! k = Some x ↔ objs s !! k = Some x ∧ ¬ (x ∈ old ∧ stale h x)) ∧
    (∀ n, n ∈ acc' ↔ n ∈ acc ∨ ∃ c, c ∈ old ∧ ¬ stale h c ∧ sc_Name c = n).
Proof using no_faults.
  revert acc s; induction old as [|c old IH]; intros acc s Hk Hnd Hold.
  { exists acc, s. split; [done|]. split.
    - intros k x. split; [|tauto]. intros Hx. split; [done|]. by intros [[]%not_elem_of_nil _].
    - intros n. split; [by left|]. intros [?|(c & []%not_elem_of_nil & _)]. done. }
  apply NoDup_cons in Hnd as [Hc Hnd]. apply Forall_cons in Hold as [[Hin Hfin] Hold].
  assert (Hother : ∀ x, x ∈ old → key_of x ≠ key_of c).
  { intros x Hx Heq. apply Hc. rewrite <- Heq. by apply list_elem_of_fmap_2. }
  destruct (decide (default EmptyString (sc_Annotations c !! CtrlmeshAutoShardingHashAnno) ≠ h)) as [Hst|Hst].
  - erewrite foldA_cons by (by apply prune_stale).
    set (s1 := mkApi (delete (key_of c) (objs s)) (S (calls s))).
    destruct (IH acc s1) as (acc' & s' & Hf & Hobj & Hacc); [by apply map_Forall_delete|done| |].
    { apply Forall_forall. intros x Hx. rewrite Forall_forall in Hold. simpl.
      rewrite lookup_delete_ne by (by apply not_eq_sym, Hother). by apply Hold. }
    exists acc', s'. split; [exact Hf|]. split.
    + intros k x. rewrite Hobj. simpl. rewrite lookup_delete_Some. split.
      * intros [[Hne Hx] Hno]. split; [done|]. intros [[->|Hxo]%elem_of_cons Hsx]; [|by apply Hno].
        by rewrite <- (Hk k c Hx) in Hne.
      * intros [Hx Hno]. split; [split; [|done]|].
        -- intros <-. simplify_eq. apply Hno. split; [by left|done].
        -- intros [Hxo Hsx]. apply Hno. split; [by right|done].
    + intros n. rewrite Hacc. split.
      { intros [?|(x & Hx & ?)]; [by left|]. right. exists x. split; [by right|done]. }
      intros [?|(x & [->|Hx]%elem_of_cons & Hns & Hn)]; [by left|done|right; by exists x].
  - erewrite foldA_cons by (by apply prune_keep).
    destruct (IH ({[sc_Name c]} ∪ acc) s) as (acc' & s' & Hf & Hobj & Hacc); [done..|].
    exists acc', s'. split; [exact Hf|]. split.
    + intros k x. rewrite Hobj. apply and_iff_compat_l. split; intros Hno [Hx Hsx]; apply Hno; (split; [|done]).
      * by apply elem_of_cons in Hx as [->|?].
      * by right.
    + intros n. rewrite Hacc, elem_of_union, elem_of_singleton. split.
      * intros [[->|?]|(x & Hx & ?)]; [right; exists c; split; [by left|done]|by left|].
        right. exists x. split; [by right|done].
      * intros [?|(x & [->|Hx]%elem_of_cons & Hns & <-)]; [auto|auto|]. right. by exists x.
Qed.

Lemma create_loop old new s :
  NoDup (key_of <$> new) →
  Forall (λ c, sc_Name c ∉ old → objs s !! key_of c = None) new →
  ∃ s', foldA (create1 old) tt new s = Returns (inl tt, s') ∧
    ∀ k x, objs s' !! k = Some x ↔
      objs s !! k = Some x ∨ (x ∈ new ∧ (sc_Name x ∉ old) ∧ key_of x = k).
Proof using no_faults.
  revert s; induction new as [|c new IH]; intros s Hnd Hnew.
  { exists s. split; [done|]. intros k x. split; [by left|]. by intros [?|[[]%not_elem_of_nil _]]. }
  apply NoDup_cons in Hnd as [Hc Hnd]. apply Forall_cons in Hnew as [Hfree Hnew].
  assert (Hother : ∀ x, x ∈ new → key_of x ≠ key_of c).
  { intros x Hx Heq. apply Hc. rewrite <- Heq. by apply list_elem_of_fmap_2. }
  destruct (decide (sc_Name c ∈ old)) as [Hin|Hin].
  - rewrite (foldA_cons _ _ _ _ _ tt s) by (unfold create1; by rewrite decide_True).
    destruct (IH s) as (s' & Hf & Hobj); [done..|]. exists s'. split; [exact Hf|].
    intros k x. rewrite Hobj. split.
    { intros [?|[Hx ?]]; [by left|]. right. split; [by right|done]. }
    intros [?|([->|Hx]%elem_of_cons & Hn & Hk)]; [by left|done|by right].
  - erewrite foldA_cons by (by apply create1_new; auto).
    set (s1 := mkApi (<[key_of c := c]> (objs s)) (S (calls s))).
    destruct (IH s1) as (s' & Hf & Hobj); [done| |].
    { apply Forall_forall. intros x Hx Hn. simpl. rewrite lookup_insert_ne by (by apply not_eq_sym, Hother).
      rewrite Forall_forall in Hnew. by apply Hnew. }
    exists s'. split; [exact Hf|]. intros k x. rewrite Hobj. simpl. rewrite lookup_insert_Some. split.
    + intros [[[<- <-]|[Hne Hx]]|(Hx & ? & ?)]; [right|by left|right]; (split; [|done]);
        [by left|by right].
    + intros [Hx|([->|Hx]%elem_of_cons & Hn & <-)]; [|by left; left|by right].
      left. right. split; [|done]. intros <-. by rewrite (Hfree Hin) in Hx.
Qed.

Lemma app_inv_tail_str s t u : s +:+ u = t +:+ u → s = t.
Proof.
  revert t; induction s as [|x s IH]; intros [|y t] Heq; [done| | |].
  - apply (f_equal String.length) in Heq. rewrite !length_app_str in Heq. simpl in Heq. lia.
  - apply (f_equal String.length) in Heq. rewrite !length_app_str in Heq. simpl in Heq. lia.
  - simpl in Heq. injection Heq as -> Heq%IH. by subst.
Qed.

(** The generated configurations have distinct keys, all in the namespace of
    the root. *)
Lemma children_keys root r a c :
  NoDup (key_of <$> children root r a c) ∧
  Forall (λ x, sc_Namespace x = sc_Namespace root) (children root r a c).
Proof.
  assert (Hns : Forall (λ x, sc_Namespace x = sc_Namespace root) (children root r a c)).
  { unfold children. apply Forall_app. split; [by destruct (has_canary c); repeat constructor|].
    apply Forall_fmap, Forall_true. done. }
  split; [|done]. unfold children. rewrite fmap_app. apply NoDup_app. split_and!.
  - destruct (has_canary c); [apply NoDup_singleton|apply NoDup_nil_2].
  - intros k Hk (x & -> & (id & -> & _)%list_elem_of_fmap)%list_elem_of_fmap.
    destruct (has_canary c); [|by apply not_elem_of_nil in Hk].
    apply list_elem_of_singleton in Hk. injection Hk as Hk. apply app_inv_head_str in Hk.
    injection Hk as Hk. pose proof (f_equal String.length Hk) as Hlen. rewrite length_app_str in Hlen.
    simpl in Hlen. destruct (Itoa id) as [|x [|y t]]; simpl in Hlen; try lia. done.
  - rewrite <- list_fmap_compose. apply NoDup_fmap_2_strong; [|apply NoDup_seqZ].
    intros i i' _ _ Hk. injection Hk as Hk. apply app_inv_head_str in Hk. injection Hk as Hk.
    by apply app_inv_tail_str, Itoa_inj in Hk.
Qed.

Lemma children_with_fin root fin r a c : children (with_fin root fin) r a c = children root r a c.
Proof. reflexivity. Qed.

Lemma key_final_root root r c : key_of (final_root root r c) = key_of root.
Proof. unfold final_root. by destruct (has_canary c). Qed.

(** The finalizer step stores the root with its finalizer, and nothing else. *)
Lemma add_step root s x0 added fin :
  addFinalizers ProtectFinalizer (sc_Finalizers root) = (added, fin) →
  objs s !! key_of root = Some x0 → sc_DeletionTimestamp x0 = None → sc_Labels x0 = sc_Labels root →
  key_of x0 = key_of root →
  ∃ s' x1, (if added then api_Update (with_fin root fin) else skip) s = Returns (inl tt, s') ∧
    objs s' = <[key_of root := x1]> (objs s) ∧ sc_Labels x1 = sc_Labels root ∧ key_of x1 = key_of root.
Proof using no_faults.
  intros _ Hx Hd Hl Hkx. destruct added.
  - unfold api_Update. rewrite call_ok. simpl. change (key_of (with_fin root fin)) with (key_of root).
    rewrite Hx, Hd. simpl. by eexists _, _.
  - exists s, x0. split; [done|]. split; [|done]. by rewrite insert_id.
Qed.

Lemma status_step root root' s x1 changed child :
  key_of root' = key_of root → objs s !! key_of root = Some x1 →
  ∃ s' x2, (if changed : bool then api_StatusUpdate (with_child root' child) else skip) s = Returns (inl tt, s') ∧
    objs s' = <[key_of root := x2]> (objs s) ∧ sc_Labels x2 = sc_Labels x1 ∧ key_of x2 = key_of x1.
Proof using no_faults.
  intros Hk Hx. destruct changed.
  - unfold api_StatusUpdate. rewrite call_ok. change (key_of (with_child root' child)) with (key_of root').
    rewrite Hk, Hx. simpl. by eexists _, _.
  - exists s, x1. split; [done|]. split; [|done]. by rewrite insert_id.
Qed.

Definition hash_of (x : ShardingConfig) : string :=
  default EmptyString (sc_Annotations x !! CtrlmeshAutoShardingHashAnno).

(** Every generated configuration is labelled and carries the root's hash. *)
Lemma children_marked root r a c x :
  x ∈ children root r a c → labelled (sc_Name root) x = true ∧ hash_of x = hash_root r.
Proof.
  unfold children, labelled, hash_of. intros [Hx|(id & -> & _)%list_elem_of_fmap]%elem_of_app.
  - destruct (has_canary c); [apply list_elem_of_singleton in Hx as ->|by apply not_elem_of_nil in Hx].
    simpl. by rewrite !lookup_singleton_eq, bool_decide_eq_true_2.
  - simpl. by rewrite !lookup_singleton_eq, bool_decide_eq_true_2.
Qed.

Lemma not_stale h x : ¬ stale h x ↔ hash_of x = h.
Proof. unfold stale, hash_of. destruct (decide (default EmptyString (sc_Annotations x !! CtrlmeshAutoShardingHashAnno) = h)); tauto. Qed.

(** What a live root relies on: see [AutoSharding_converges]. *)
Record live_root (root : ShardingConfig) (s : api) (x0 : ShardingConfig) : Prop := {
  lr_keyed : keyed (objs s);
  lr_stored : objs s !! key_of root = Some x0;
  lr_alive : sc_DeletionTimestamp x0 = None;
  lr_labels : sc_Labels x0 = sc_Labels root;
  lr_unlabelled : labelled (sc_Name root) root = false;
  lr_children : map_Forall (λ _ x, labelled (sc_Name root) x = true →
                  sc_Namespace x = sc_Namespace root ∧ sc_Finalizers x = []) (objs s);
}.

Lemma relabelled n x y : sc_Labels x = sc_Labels y → labelled n x = labelled n y.
Proof. unfold labelled. by intros ->. Qed.

(** The finalizer and the pruning: the root stays, labelled configurations
    with another hash go, and the kept names are those with the hash. *)
Lemma prune_phase root r s x0 added fin :
  live_root root s x0 → addFinalizers ProtectFinalizer (sc_Finalizers root) = (added, fin) →
  let old := filter (labelled (sc_Name root)) (map_to_list (objs s)).*2 in
  ∃ s1 names s2 x1,
    (if added then api_Update (with_fin root fin) else skip) (mkApi (objs s) (S (calls s))) = Returns (inl tt, s1) ∧
    foldA (prune (hash_root r)) ∅ old s1 = Returns (inl names, s2) ∧
    objs s2 !! key_of root = Some x1 ∧ sc_Labels x1 = sc_Labels root ∧ key_of x1 = key_of root ∧
    (∀ k y, k ≠ key_of root → objs s2 !! k = Some y ↔
       objs s !! k = Some y ∧ (labelled (sc_Name root) y = true → hash_of y = hash_root r)) ∧
    (∀ n, n ∈ names ↔ ∃ y, objs s !! (sc_Namespace root, n) = Some y ∧ labelled (sc_Name root) y = true ∧ hash_of y = hash_root r).
Proof using no_faults.
  intros [Hk Hx0 Hd0 Hl0 Hlab Hall] Hadd old.
  destruct (add_step root (mkApi (objs s) (S (calls s))) x0 added fin Hadd Hx0 Hd0 Hl0 (Hk _ _ Hx0))
    as (s1 & x1 & Hs1 & Ho1 & Hl1 & Hk1). simpl in Ho1.
  assert (Hold : ∀ x, x ∈ old ↔ objs s !! key_of x = Some x ∧ labelled (sc_Name root) x = true).
  { intros x. by apply elem_of_listing. }
  assert (Hne : ∀ x, x ∈ old → key_of x ≠ key_of root).
  { intros x [Hx Hlx]%Hold Heq. rewrite Heq in Hx. simplify_eq.
    rewrite (relabelled _ _ root Hl0) in Hlx. congruence. }
  destruct (prune_loop (hash_root r) old ∅ s1) as (names & s2 & Hs2 & Ho2 & Hn2).
  { rewrite Ho1. by apply map_Forall_insert_2. } { by apply listing_NoDup. }
  { apply Forall_forall. intros x Hx. pose proof (Hne x Hx). apply Hold in Hx as [Hx Hlx].
    split; [by rewrite Ho1, lookup_insert_ne by auto|]. by apply (Hall _ _ Hx). }
  exists s1, names, s2, x1. split_and!; try done.
  - apply Ho2. rewrite Ho1, lookup_insert_eq. split; [done|]. intros [Hx1 _]. by apply (Hne x1).
  - intros k y Hky. rewrite Ho2, Ho1, lookup_insert_ne by done. split; intros [Hy Hst]; (split; [done|]).
    + intros Hly. apply not_stale. intros Hs. apply Hst. split; [|done]. apply Hold. by rewrite (Hk _ _ Hy).
    + intros [[_ Hly]%Hold Hs]. apply Hst in Hly. by apply not_stale in Hly.
  - intros n. rewrite Hn2. split.
    + intros [?%not_elem_of_empty|(y & [Hy Hly]%Hold & Hns%not_stale & <-)]; [done|]. exists y.
      destruct (Hall _ _ Hy Hly) as [<- _]. done.
    + intros (y & Hy & Hly & Hh). right. exists y. pose proof (Hk _ _ Hy) as Hky. split_and!.
      * apply Hold. by rewrite Hky.
      * by apply not_stale.
      * by injection Hky.
Qed.

(** Creation and status: the missing generated configurations are added, the
    root keeps its labels. *)
Lemma create_phase root r a c fin names s2 x1 :
  objs s2 !! key_of root = Some x1 → key_of x1 = key_of root →
  Forall (λ x, sc_Name x ∉ names → objs s2 !! key_of x = None) (children root r a c) →
  ∃ s3 s4 x2, foldA (create1 names) tt (children root r a c) s2 = Returns (inl tt, s3) ∧
    (let '(changed, child) := syncStatus (sc_Child (final_root (with_fin root fin) r c)) (children root r a c) in
     if changed : bool then api_StatusUpdate (with_child (final_root (with_fin root fin) r c) child) else skip) s3
      = Returns (inl tt, s4) ∧
    objs s4 !! key_of root = Some x2 ∧ sc_Labels x2 = sc_Labels x1 ∧
    ∀ k y, k ≠ key_of root → objs s4 !! k = Some y ↔
      objs s2 !! k = Some y ∨ (y ∈ children root r a c ∧ (sc_Name y ∉ names) ∧ key_of y = k).
Proof using no_faults.
  intros Hx1 Hk1 Hfree. destruct (children_keys root r a c) as [Hnd _].
  destruct (create_loop names (children root r a c) s2 Hnd Hfree) as (s3 & Hs3 & Ho3).
  assert (Hx3 : objs s3 !! key_of root = Some x1) by (apply Ho3; by left).
  destruct (syncStatus (sc_Child (final_root (with_fin root fin) r c)) (children root r a c)) as [changed child].
  destruct (status_step root (final_root (with_fin root fin) r c) s3 x1 changed child)
    as (s4 & x2 & Hs4 & Ho4 & Hl4 & _); [by rewrite key_final_root|done|].
  exists s3, s4, x2. split_and!; try done.
  - by rewrite Ho4, lookup_insert_eq.
  - intros k y Hne. by rewrite Ho4, lookup_insert_ne, Ho3 by auto.
Qed.

(** C9. Reconciling a live root converges in one fault-free run.  When the
    root is stored and not itself a labelled child, every labelled
    configuration lives in the root's namespace without finalizers, and no
    other configuration occupies a generated name, [AutoSharding] succeeds;
    afterwards every generated configuration is stored under its name, either
    as generated or as the old one with the current root hash, every labelled
    configuration carries that hash, and unlabelled configurations other than
    the root are untouched. *)
Theorem AutoSharding_converges root r a c s x0 :
  keyed (objs s) → sc_Root root = Some r → Auto r = Some a → Canary r = Some c →
  sc_DeletionTimestamp root = None → isDisabled r = false →
  objs s !! key_of root = Some x0 → sc_DeletionTimestamp x0 = None → sc_Labels x0 = sc_Labels root →
  labelled (sc_Name root) root = false →
  map_Forall (λ _ x, labelled (sc_Name root) x = true →
                     sc_Namespace x = sc_Namespace root ∧ sc_Finalizers x = []) (objs s) →
  Forall (λ x, ∀ y, objs s !! key_of x = Some y → labelled (sc_Name root) y = true) (children root r a c) →
  ∃ s', AutoSharding root s = Returns (inl tt, s') ∧
    (∀ x, x ∈ children root r a c → ∃ y, objs s' !! key_of x = Some y ∧
       (y = x ∨ objs s !! key_of x = Some y ∧ labelled (sc_Name root) y = true ∧ hash_of y = hash_root r)) ∧
    (∀ k y, objs s' !! k = Some y → labelled (sc_Name root) y = true → hash_of y = hash_root r) ∧
    (∀ k y, k ≠ key_of root → labelled (sc_Name root) y = false → objs s' !! k = Some y ↔ objs s !! k = Some y).
Proof using no_faults.
  intros Hk Hr Ha Hc Hd Hdis Hx0 Hd0 Hl0 Hlab Hall Hfree.
  destruct (addFinalizers ProtectFinalizer (sc_Finalizers root)) as [added fin] eqn:Hadd.
  destruct (prune_phase root r s x0 added fin) as (s1 & names & s2 & x1 & Hs1 & Hs2 & Hx1 & Hl1 & Hk1 & Ho2 & Hn);
    [by split|done|].
  destruct (children_keys root r a c) as [_ Hcns]. rewrite Forall_forall in Hcns, Hfree.
  assert (Hkey : ∀ x, x ∈ children root r a c → key_of x = (sc_Namespace root, sc_Name x)).
  { intros x Hx. unfold key_of. by rewrite (Hcns x Hx). }
  assert (Hnroot : ∀ x, x ∈ children root r a c → key_of x ≠ key_of root).
  { intros x Hx Heq. specialize (Hfree x Hx x0). rewrite Heq, (relabelled _ _ root Hl0) in Hfree.
    specialize (Hfree Hx0). congruence. }
  destruct (create_phase root r a c fin names s2 x1) as (s3 & s4 & x2 & Hs3 & Hs4 & Hx2 & Hl2 & Ho4); [done|done| |].
  { apply Forall_forall. intros x Hx Hnn. destruct (objs s2 !! key_of x) as [y|] eqn:Hy; [|done].
    apply Ho2 in Hy as [Hy Hh]; [|by apply Hnroot]. destruct Hnn. apply Hn. exists y.
    rewrite <-(Hkey x Hx). pose proof (Hfree x Hx y Hy). auto. }
  exists s4. split; [|split_and!].
  - unfold AutoSharding, ignoreNotFound, mbind, act_bind, lift, api_List. rewrite call_ok. simpl.
    rewrite Hr. simpl. rewrite Hd, Hdis. simpl. rewrite Hadd, Hs1. simpl. rewrite Hs2. simpl.
    rewrite (getChild_eq (with_fin root fin) r a c) by done. simpl. rewrite children_with_fin, Hs3. simpl. exact Hs4.
  - intros x Hx. destruct (decide (sc_Name x ∈ names)) as [(y & Hy & Hly & Hh)%Hn|Hnin].
    + rewrite <-(Hkey x Hx) in Hy. exists y. split; [|by right]. apply Ho4; [by apply Hnroot|]. left.
      by apply Ho2; [apply Hnroot|].
    + exists x. split; [|by left]. apply Ho4; [by apply Hnroot|]. by right.
  - intros k y Hy Hly. destruct (decide (k = key_of root)) as [->|Hne].
    { simplify_eq. rewrite (relabelled _ _ root) in Hly; congruence. }
    apply Ho4 in Hy as [Hy|(Hy & _)]; [|by apply (children_marked _ _ _ _ _ Hy)|done].
    apply Ho2 in Hy as [_ Hh]; [by apply Hh|done].
  - intros k y Hne Hly. rewrite Ho4, Ho2 by done. split; [|intros ?; left; split; congruence].
    intros [[? _]|(Hy & _)]; [done|]. destruct (children_marked _ _ _ _ _ Hy). congruence.
Qed.

Lemma delete_loop old s :
  keyed (objs s) → NoDup (key_of <$> old) →
  Forall (λ c, objs s !! key_of c = Some c ∧ sc_Finalizers c = []) old →
  ∃ s', foldA (λ _ cfg, api_Delete cfg) tt old s = Returns (inl tt, s') ∧
    ∀ k x, objs s' !! k = Some x ↔ objs s !! k = Some x ∧ x ∉ old.
Proof using no_faults.
  revert s; induction old as [|c old IH]; intros s Hk Hnd Hold.
  { exists s. split; [done|]. intros k x. split; [|tauto]. intros Hx. split; [done|apply not_elem_of_nil]. }
  apply NoDup_cons in Hnd as [Hc Hnd]. apply Forall_cons in Hold as [[Hin Hfin] Hold].
  set (s1 := mkApi (delete (key_of c) (objs s)) (S (calls s))).
  rewrite (foldA_cons _ _ _ _ _ tt s1); [|unfold api_Delete; by rewrite call_ok, Hin, Hfin].
  destruct (IH s1) as (s' & Hf & Hobj); [by apply map_Forall_delete|done| |].
  { apply Forall_forall. intros x Hx. rewrite Forall_forall in Hold. simpl.
    rewrite lookup_delete_ne; [by apply Hold|]. intros Heq. apply Hc. rewrite Heq. by apply list_elem_of_fmap_2. }
  exists s'. split; [exact Hf|]. intros k x. rewrite Hobj. simpl. rewrite lookup_delete_Some, not_elem_of_cons. split.
  - intros [[Hne Hx] Hno]. split_and!; try done. intros ->. by rewrite <- (Hk k c Hx) in Hne.
  - intros [Hx [Hne Hno]]. split_and!; try done. intros <-. by simplify_eq.
Qed.

(** Tearing a root down: a fault-free run for a deleted or disabled root,
    whose labelled configurations carry no finalizers, deletes every one of
    them (in any namespace); it panics exactly when clearing the root's own
    finalizer does, that is, when that finalizer is not the last one, and
    otherwise succeeds. *)
Theorem AutoSharding_teardown root r s x0 :
  keyed (objs s) → sc_Root root = Some r →
  is_Some (sc_DeletionTimestamp root) ∨ isDisabled r = true →
  objs s !! key_of root = Some x0 → sc_Labels x0 = sc_Labels root → labelled (sc_Name root) root = false →
  map_Forall (λ _ x, labelled (sc_Name root) x = true → sc_Finalizers x = []) (objs s) →
  match AutoSharding root s with
  | Panics => clearFinalizers ProtectFinalizer (sc_Finalizers root) = Panics
  | Returns (res, s') => res = inl tt ∧
      ∃ b fin, clearFinalizers ProtectFinalizer (sc_Finalizers root) = Returns (b, fin) ∧
      ∀ k x, objs s' !! k = Some x → labelled (sc_Name root) x = false
  end.
Proof using no_faults.
  intros Hk Hr Hgone Hx0 Hl0 Hlab Hall. set (n := sc_Name root) in *.
  set (old := filter (labelled n) (map_to_list (objs s)).*2). set (s0 := mkApi (objs s) (S (calls s))).
  assert (Hlx0 : labelled n x0 = false) by (unfold labelled in *; by rewrite Hl0).
  destruct (delete_loop old s0) as (s1 & Hs1 & Ho1); [done|by apply listing_NoDup| |].
  { apply Forall_forall. intros x [Hx Hlx]%elem_of_listing; [|done]. split; [done|]. by apply (Hall _ _ Hx). }
  assert (Hunl : ∀ k x, objs s1 !! k = Some x → labelled n x = false).
  { intros k x [Hx Hno]%Ho1. apply not_true_is_false. intros Hlx. apply Hno, elem_of_listing; [done|].
    by rewrite (Hk _ _ Hx). }
  assert (Hroot : objs s1 !! key_of root = Some x0).
  { apply Ho1. split; [done|]. intros [_ ?]%elem_of_listing; [congruence|done]. }
  unfold AutoSharding, ignoreNotFound, mbind, act_bind, lift, api_List. rewrite call_ok. simpl.
  fold n old s0. rewrite Hr. simpl.
  replace (bool_decide (is_Some (sc_DeletionTimestamp root)) || isDisabled r) with true.
  2:{ destruct Hgone as [?| ->]; [by rewrite bool_decide_eq_true_2|by rewrite orb_true_r]. }
  unfold teardown, mbind, act_bind. rewrite Hs1. simpl.
  destruct (clearStatus (sc_Child root)) as [changed child].
  assert (∃ s2 x2, (if changed then ignoreNotFound tt (api_StatusUpdate (with_child root child)) else skip) s1
    = Returns (inl tt, s2) ∧ objs s2 = <[key_of root := x2]> (objs s1) ∧ sc_Labels x2 = sc_Labels x0 ∧
      sc_DeletionTimestamp x2 = sc_DeletionTimestamp x0) as (s2 & x2 & -> & Ho2 & Hl2 & Hd2).
  { destruct changed.
    - unfold ignoreNotFound, api_StatusUpdate. rewrite call_ok.
      change (key_of (with_child root child)) with (key_of root). rewrite Hroot. simpl. by eexists _, _.
    - exists s1, x0. split; [done|]. by rewrite insert_id. }
  simpl. destruct (clearFinalizers ProtectFinalizer (sc_Finalizers root)) as [[b fin]|] eqn:Hfin; simpl; [|done].
  assert (Hgen : ∀ o y, o = <[key_of root := y]> (objs s1) ∨ o = delete (key_of root) (objs s1) →
    sc_Labels y = sc_Labels root → ∀ k x, o !! k = Some x → labelled n x = false).
  { intros o y [-> | ->] Hy k x.
    - rewrite lookup_insert_Some. intros [[_ <-]|[_ ?]]; [unfold labelled in *; by rewrite Hy|eauto].
    - rewrite lookup_delete_Some. intros [_ ?]. eauto. }
  destruct b.
  - unfold api_Update. rewrite call_ok. change (key_of (with_fin (with_child root child) fin)) with (key_of root).
    rewrite Ho2, lookup_insert_eq. simpl. split; [done|]. exists true, fin. split; [done|].
    destruct (sc_DeletionTimestamp x2), fin; simpl; rewrite ?insert_insert_eq, ?delete_insert_eq;
      (eapply Hgen; [by auto|]); try done.
  - split; [done|]. exists false, fin. split; [done|]. rewrite Ho2. eapply Hgen; [by left|]. congruence.
Qed.
End converges.

(** ** Concrete runs *)

Definition no_fault_api : ApiServer := {| api_fails := λ _, None; api_now := 0%Z |}.

Section witness.
#[local] Existing Instances demo_hashes no_fault_api.

Definition stored (l : list ShardingConfig) : api :=
  mkApi (list_to_map ((λ c, (key_of c, c)) <$> l)) 0.
Definition run (root : ShardingConfig) (s : api) : api :=
  match AutoSharding root s with Returns (_, s') => s' | Panics => s end.

(** The hash covers the [root] part of the specification only: after a
    root has been reconciled, changing its pod selector and reconciling again
    leaves the stored children as they were, with the old selector, although
    the children generated now would carry the new one. *)
Theorem selector_change_not_propagated :
  let old_root := demo_root "ns" 1 ["a"] [] None in
  let new_root := demo_root "ns" 1 ["a"] [] (Some (mkSel {["app" := "x"]} [])) in
  let key := ("ns", "shard-1-normal") in
  let s1 := run old_root (stored [old_root]) in
  let s2 := run new_root (mkApi (<[("ns", "root") := new_root]> (objs s1)) (calls s1)) in
  objs s2 !! key = objs s1 !! key ∧
  (sc_Selector <$> objs s2 !! key) =
    Some (Some (mkSel ∅ [mkReq podNameKey OpIn ["sts-2"; "sts-3"; "sts-4"]])) ∧
  ∃ cs root', getChild new_root = Returns (cs, root') ∧
    (sc_Selector <$> cs !! 1) =
      Some (Some (mkSel {["app" := "x"]} [mkReq podNameKey OpIn ["sts-2"; "sts-3"; "sts-4"]])).
Proof.
  split; [vm_compute; reflexivity|]. split; [vm_compute; reflexivity|].
  eexists _, _. split; vm_compute; reflexivity.
Qed.

(** Children are listed by the root's name in every namespace: when two
    roots of the same name live in different namespaces with different
    specifications, reconciling one deletes the children of the other. *)
Theorem same_name_roots_interfere :
  let root_a := demo_root "a" 1 ["x"] [] None in
  let root_b := demo_root "b" 2 ["x"] [] None in
  let s1 := run root_b (stored [root_a; root_b]) in
  is_Some (objs s1 !! ("b", "shard-1-normal")) ∧
  objs (run root_a s1) !! ("b", "shard-1-normal") = None.
Proof. split; vm_compute; [by eexists|reflexivity]. Qed.

Lemma demo_no_faults : ∀ n, api_fails n = None.
Proof. done. Qed.

Lemma demo_keyed (root : ShardingConfig) : keyed (objs (stored [root])).
Proof. simpl. apply map_Forall_insert_2; [done|apply map_Forall_empty]. Qed.

Lemma AutoSharding_converges_witness :
  ∃ s', AutoSharding (demo_root "ns" 2 ["a"] [] None) (stored [demo_root "ns" 2 ["a"] [] None]) = Returns (inl tt, s').
Proof.
  edestruct (AutoSharding_converges demo_no_faults (demo_root "ns" 2 ["a"] [] None) (demo_root_spec 2 ["a"] [])
    (mkAutoConfig 2 3) (demo_canary ["a"] []) (stored [demo_root "ns" 2 ["a"] [] None])) as (s' & Hs' & _);
    [apply demo_keyed|reflexivity..| | |exists s'; exact Hs'].
  - simpl. apply map_Forall_insert_2; [done|apply map_Forall_empty].
  - apply Forall_forall. intros x Hx y Hy. exfalso. revert x Hx y Hy.
    assert (Hall : Forall (λ x, objs (stored [demo_root "ns" 2 ["a"] [] None]) !! key_of x = None)
      (children (demo_root "ns" 2 ["a"] [] None) (demo_root_spec 2 ["a"] []) (mkAutoConfig 2 3) (demo_canary ["a"] []))).
    { repeat constructor. }
    rewrite Forall_forall in Hall. intros x Hx y Hy. by rewrite Hall in Hy.
Defined.

Lemma AutoSharding_teardown_witness :
  match AutoSharding (with_meta (demo_root "ns" 2 ["a"] [] None) [ProtectFinalizer; "other"] (Some 1%Z) [])
          (stored [with_meta (demo_root "ns" 2 ["a"] [] None) [ProtectFinalizer; "other"] (Some 1%Z) []]) with
  | Panics => clearFinalizers ProtectFinalizer [ProtectFinalizer; "other"] = Panics
  | Returns (res, s') => res = inl tt
  end.
Proof.
  pose proof (AutoSharding_teardown demo_no_faults
    (with_meta (demo_root "ns" 2 ["a"] [] None) [ProtectFinalizer; "other"] (Some 1%Z) []) (demo_root_spec 2 ["a"] [])
    (stored [with_meta (demo_root "ns" 2 ["a"] [] None) [ProtectFinalizer; "other"] (Some 1%Z) []])
    (with_meta (demo_root "ns" 2 ["a"] [] None) [ProtectFinalizer; "other"] (Some 1%Z) [])) as Ht.
  destruct (AutoSharding _ _) as [[res s']|].
  - apply Ht; [apply demo_keyed|reflexivity|left; by eexists|reflexivity|reflexivity|reflexivity|].
    simpl. apply map_Forall_insert_2; [done|apply map_Forall_empty].
  - apply Ht; [apply demo_keyed|reflexivity|left; by eexists|reflexivity|reflexivity|reflexivity|].
    simpl. apply map_Forall_insert_2; [done|apply map_Forall_empty].
Defined.
End witness.
