(* ===== verification/ShardServer.v ===== *)
(** * The sharding server

    src/pkg/manager/controllers/shardingconfigserver/shardingconfig_controller.go
    and util.go: the reconciler that checks the pods of a shard against their
    proxies' connections and then deletes pods, or sends them the shard's
    specification; src/pkg/utils/pod.go; the connection object of
    grpc_server.go. *)

From S2P Require Import Prelude GoStrings Selector Sharding ShardingReconcile.

(** ** Pods *)

Record ContainerStatus := mkContainerStatus { cs_Name : string; cs_Running : bool }.
Record PodCondition := mkPodCondition { pc_Type : string; pc_Status : string }.
Record Pod := mkPod {
  p_Name : string; p_UID : string; p_Labels : gmap string string;
  p_Phase : string; p_DeletionTimestamp : option Z; p_CreationTimestamp : Z;
  p_Conditions : list PodCondition; p_ContainerStatuses : list ContainerStatus;
}.

Definition PodPending : string := "Pending".
Definition PodRunning : string := "Running".
Definition PodSucceeded : string := "Succeeded".
Definition PodFailed : string := "Failed".

Definition IsPodActive (p : Pod) : bool :=
  bool_decide (PodSucceeded ≠ p_Phase p) && bool_decide (PodFailed ≠ p_Phase p)
  && bool_decide (p_DeletionTimestamp p = None).

Fixpoint GetPodConditionFromList (conditions : list PodCondition) (conditionType : string) : option PodCondition :=
  match conditions with
  | [] => None
  | c :: cs => if decide (pc_Type c = conditionType) then Some c else GetPodConditionFromList cs conditionType
  end.
Definition IsPodReady (p : Pod) : bool :=
  match GetPodConditionFromList (p_Conditions p) "Ready" with
  | Some c => bool_decide (pc_Status c = "True")
  | None => false
  end.
Definition getRunningContainers (p : Pod) : list string :=
  cs_Name <$> filter (λ c, cs_Running c) (p_ContainerStatuses p).

(** ** Protocol messages and connections *)

Record MetaState_ := mkMetaState { ExpectedHash : string; CurrentHash : string }.
Record LeaderState := mkLeaderState { le_Identity : string; le_IsLeader : bool }.
#[export] Instance LeaderState_eq_dec : EqDecision LeaderState.
Proof. solve_decision. Defined.
Record ProxyStatus := mkProxyStatus {
  MetaState : option MetaState_; LeaderElectionState : option LeaderState;
}.
Record APIGroupResource := mkAGR { agr_ApiGroups : list string; agr_Resources : list string }.
Record LimitMsg := mkLimitMsg { lm_Resources : list APIGroupResource; lm_ObjectSelector : string }.
Record SpecMeta := mkSpecMeta { sm_ShardName : string; sm_Hash : string }.
Record ProxySpec := mkProxySpec { ps_Meta : SpecMeta; ps_Limits : list LimitMsg }.

Record grpcSrvConnection := mkConn { conn_status : ProxyStatus; sendTimes : Z; disconnected : bool }.

(** JSON renderings and their MD5 sums. *)
Class Dumps := {
  dump_selector : option LabelSelector → string;
  hash_limits : list LimitMsg → string;
}.

Definition generateAPIResources (rs : list ResourceGroup) : list APIGroupResource :=
  (λ r, mkAGR (rg_APIGroups r) (rg_Resources r)) <$> rs.

Definition generateProtoConfig `{Dumps} (cfg : ShardingConfig) : ProxySpec :=
  let limits := (λ l, mkLimitMsg (generateAPIResources (RelatedResources l)) (dump_selector (ol_Selector l)))
                  <$> sc_Limits cfg in
  mkProxySpec (mkSpecMeta (sc_Name cfg) (hash_limits limits)) limits.

(** ** The reconciler's state: the expectations and connections it shares with
    the stream handlers, and what it does to the outside. *)

Inductive effect :=
| DeletePod (name : string) (ok : bool)
| SendSpec (uid : string) (spec : ProxySpec) (ok : bool).

Record server := mkServer {
  podHashExpectation : gmap string string;
  podDeletionExpectation : gset string;
  cachedGrpcSrvConnection : gmap string grpcSrvConnection;
  effects : list effect; (* in order *)
  attempts : nat;
}.

(** Which deletions and sends fail, by number. *)
Class Faults := { fault : nat → option string }.

Record syncPod := mkSyncPod {
  sp_pod : Pod; sp_dispatched : bool; sp_status : ProxyStatus;
}.

Inductive reconcile_result := Done | RequeueAfter (d : Z) | Failed (msg : string).
#[export] Instance reconcile_result_eq_dec : EqDecision reconcile_result.
Proof. solve_decision. Defined.

Definition minute : Z := 60000000000.

Definition with_hashExp (s : server) (m : gmap string string) : server :=
  mkServer m (podDeletionExpectation s) (cachedGrpcSrvConnection s) (effects s) (attempts s).

(** What one pod says: stop the round with a result, skip the pod, or sync it. *)
Inductive verdict := Stop (r : reconcile_result) | Skip | Sync1 (sp : syncPod).

Definition checkPod (now : Z) (s : server) (pod : Pod) : verdict * server :=
  if negb (IsPodActive pod) then
    match getRunningContainers pod with
    | [] => (Skip, s)
    | _ => (Stop Done, s)
    end
  else if decide (p_UID pod ∈ podDeletionExpectation s) then (Stop Done, s)
  else
    match cachedGrpcSrvConnection s !! p_UID pod with
    | None =>
        if decide (p_Phase pod = PodRunning ∧ IsPodReady pod = true) then (Stop (RequeueAfter minute), s)
        else if decide (p_Phase pod = PodPending ∧ (now - p_CreationTimestamp pod < minute)%Z)
        then (Stop (RequeueAfter (minute - (now - p_CreationTimestamp pod))), s)
        else (Skip, s)
    | Some conn =>
        if disconnected conn then (Stop Done, s)
        else
          let sp := mkSyncPod pod (0 <? sendTimes conn)%Z (conn_status conn) in
          match podHashExpectation s !! p_UID pod with
          | Some expectHash =>
              match MetaState (conn_status conn) with
              | None => (Stop Done, s)
              | Some ms =>
                  if decide (expectHash ≠ ExpectedHash ms) then (Stop Done, s)
                  else (Sync1 sp, with_hashExp s (delete (p_UID pod) (podHashExpectation s)))
              end
          | None => (Sync1 sp, s)
          end
    end.

(** The loop over the pods: an early result, or the pods to sync. *)
Fixpoint checkPods (now : Z) (pods : list Pod) (acc : list syncPod) (s : server)
    : (reconcile_result + list syncPod) * server :=
  match pods with
  | [] => (inr acc, s)
  | pod :: pods' =>
      match checkPod now s pod with
      | (Stop r, s) => (inl r, s)
      | (Skip, s) => checkPods now pods' acc s
      | (Sync1 sp, s) => checkPods now pods' (acc ++ [sp]) s
      end
  end.

(** What a pod needs. *)
Inductive need := NeedDispatch | NeedUpdate | NeedDeleteLeader | NeedDeleteOther | NeedNothing.
#[export] Instance need_eq_dec : EqDecision need.
Proof. solve_decision. Defined.

Definition classify (newSpec : ProxySpec) (sp : syncPod) : need :=
  match MetaState (sp_status sp) with
  | None => NeedDispatch
  | Some ms =>
      let isLeader := from_option le_IsLeader false (LeaderElectionState (sp_status sp)) in
      if decide (ExpectedHash ms ≠ CurrentHash ms) then
        if (isLeader : bool) then NeedDeleteLeader else NeedDeleteOther
      else if decide (sm_Hash (ps_Meta newSpec) ≠ ExpectedHash ms) then NeedUpdate
      else if negb (sp_dispatched sp) then NeedDispatch
      else NeedNothing
  end.
Definition needing (newSpec : ProxySpec) (n : need) (sps : list syncPod) : list syncPod :=
  filter (λ sp, bool_decide (classify newSpec sp = n)) sps.

Section reconcile.
Context `{Dumps} `{Faults}.

Definition note (s : server) (e : effect) : server :=
  mkServer (podHashExpectation s) (podDeletionExpectation s) (cachedGrpcSrvConnection s)
    (effects s ++ [e]) (S (attempts s)).

(** One deletion; the error is what the loop variable [err] is left with. *)
Definition deletePod (acc : option string * server) (sp : syncPod) : option string * server :=
  let '(_, s) := acc in
  let pod := sp_pod sp in
  match fault (attempts s) with
  | Some e => (Some e, note s (DeletePod (p_Name pod) false))
  | None =>
      let s := note s (DeletePod (p_Name pod) true) in
      (None, mkServer (podHashExpectation s) ({[p_UID pod]} ∪ podDeletionExpectation s)
               (cachedGrpcSrvConnection s) (effects s) (attempts s))
  end.

(** [conn.send]: the counter goes up whether or not the stream takes it. *)
Definition bump (uid : string) (m : gmap string grpcSrvConnection) : gmap string grpcSrvConnection :=
  alter (λ c, mkConn (conn_status c) (sendTimes c + 1) (disconnected c)) uid m.

Definition sendSpec (newSpec : ProxySpec) (acc : option string * server) (sp : syncPod) : option string * server :=
  let '(_, s) := acc in
  let uid := p_UID (sp_pod sp) in
  let s := mkServer (podHashExpectation s) (podDeletionExpectation s)
             (bump uid (cachedGrpcSrvConnection s)) (effects s) (attempts s) in
  match fault (attempts s) with
  | Some e => (Some e, note s (SendSpec uid newSpec false))
  | None =>
      let s := note s (SendSpec uid newSpec true) in
      (None, with_hashExp s (<[uid := sm_Hash (ps_Meta newSpec)]> (podHashExpectation s)))
  end.

Definition finish (x : option string * server) : reconcile_result * server :=
  (match x.1 with Some e => Failed e | None => Done end, x.2).

(** The part of [Reconcile] after the pods of the shard have been listed. *)
Definition reconcilePods (cfg : ShardingConfig) (now : Z) (allPods : list Pod) (s : server)
    : reconcile_result * server :=
  match checkPods now allPods [] s with
  | (inl r, s) => (r, s)
  | (inr sps, s) =>
      let newSpec := generateProtoConfig cfg in
      let nonLeader := needing newSpec NeedDeleteOther sps in
      let podsToDelete := match nonLeader with [] => needing newSpec NeedDeleteLeader sps | _ => nonLeader end in
      let toUpdate := needing newSpec NeedUpdate sps in
      let toDispatch := needing newSpec NeedDispatch sps in
      match podsToDelete with
      | _ :: _ => finish (fold_left deletePod podsToDelete (None, s))
      | [] =>
          match toUpdate with
          | _ :: _ => finish (fold_left (sendSpec newSpec) toUpdate (None, s))
          | [] => finish (fold_left (sendSpec newSpec) toDispatch (None, s))
          end
      end
  end.
End reconcile.

(** ** Properties of a round *)

Section rounds.
Context `{Dumps} `{Faults}.

Lemma checkPod_frame now s pod v s' :
  checkPod now s pod = (v, s') →
  effects s' = effects s ∧ attempts s' = attempts s ∧
  cachedGrpcSrvConnection s' = cachedGrpcSrvConnection s ∧
  podDeletionExpectation s' = podDeletionExpectation s ∧
  (∀ uid, uid ≠ p_UID pod → podHashExpectation s' !! uid = podHashExpectation s !! uid).
Proof.
  unfold checkPod. intros Hc. repeat (case_match; simplify_eq/=; try done).
  split_and!; try done. intros uid Hne. simpl. by rewrite lookup_delete_ne.
Qed.

(** The verdict on a pod depends only on its own entries. *)
Lemma checkPod_local now s s' pod :
  cachedGrpcSrvConnection s' = cachedGrpcSrvConnection s →
  podDeletionExpectation s' = podDeletionExpectation s →
  podHashExpectation s' !! p_UID pod = podHashExpectation s !! p_UID pod →
  (checkPod now s' pod).1 = (checkPod now s pod).1.
Proof.
  intros Hc Hd Hh. unfold checkPod. rewrite Hc, Hd, Hh. repeat (case_match; simplify_eq/=; try done).
Qed.

Lemma checkPods_frame now pods acc s x s' :
  checkPods now pods acc s = (x, s') →
  effects s' = effects s ∧ attempts s' = attempts s ∧
  cachedGrpcSrvConnection s' = cachedGrpcSrvConnection s.
Proof.
  revert acc s; induction pods as [|pod pods IH]; intros acc s; simpl; [by intros [= <- <-]|].
  destruct (checkPod now s pod) as [v s1] eqn:Hc.
  apply checkPod_frame in Hc as (He & Ha & Hconn & _).
  destruct v; [by intros [= <- <-]| |]; intros (He' & Ha' & Hc')%IH; split_and!; congruence.
Qed.

(** A pod that stops the round stops it wherever it stands in the list. *)
Lemma checkPods_blocked now pods acc s pod r :
  NoDup (p_UID <$> pods) → pod ∈ pods → (checkPod now s pod).1 = Stop r →
  ∃ r' s', checkPods now pods acc s = (inl r', s').
Proof.
  revert acc s; induction pods as [|p pods IH]; intros acc s Hnd; [intros []%not_elem_of_nil|].
  apply NoDup_cons in Hnd as [Hp Hnd]. intros [->|Hin]%elem_of_cons Hstop; simpl.
  - destruct (checkPod now s p) as [v s1]. simpl in Hstop. subst. by eexists _, _.
  - destruct (checkPod now s p) as [v s1] eqn:Hc. apply checkPod_frame in Hc as (_ & _ & Hconn & Hd & Hh).
    assert (Hstop1 : (checkPod now s1 pod).1 = Stop r).
    { rewrite <- Hstop. apply checkPod_local; [done|done|]. apply Hh. intros Heq. apply Hp.
      rewrite <- Heq. by apply list_elem_of_fmap_2. }
    destruct v; [by eexists _, _| |]; by apply IH.
Qed.

(** One effect for each pod, in order. *)
Definition acted (act : syncPod → bool → effect) (sps : list syncPod) (es : list effect) : Prop :=
  Forall2 (λ sp e, ∃ ok, e = act sp ok) sps es.
Definition deletes (sp : syncPod) (ok : bool) : effect := DeletePod (p_Name (sp_pod sp)) ok.
Definition sends (spec : ProxySpec) (sp : syncPod) (ok : bool) : effect := SendSpec (p_UID (sp_pod sp)) spec ok.

Lemma acts_in_order (f : option string * server → syncPod → option string * server) act sps acc :
  (∀ acc sp, ∃ ok, effects (f acc sp).2 = effects acc.2 ++ [act sp ok]) →
  ∃ es, effects (fold_left f sps acc).2 = effects acc.2 ++ es ∧ acted act sps es.
Proof.
  intros Hf. revert acc; induction sps as [|sp sps IH]; intros acc; cbn [fold_left].
  { exists []. rewrite app_nil_r. split; [done|constructor]. }
  destruct (Hf acc sp) as [ok Hok], (IH (f acc sp)) as (es & Hes & Hall). exists (act sp ok :: es).
  rewrite Hes, Hok, <- app_assoc. split; [done|]. constructor; [by exists ok|done].
Qed.

Lemma deletePods_effects sps acc :
  ∃ es, effects (fold_left deletePod sps acc).2 = effects acc.2 ++ es ∧ acted deletes sps es.
Proof.
  apply acts_in_order. intros [e s] sp. unfold deletePod. destruct (fault (attempts s)); by eexists.
Qed.

Lemma sendSpecs_effects spec sps acc :
  ∃ es, effects (fold_left (sendSpec spec) sps acc).2 = effects acc.2 ++ es ∧ acted (sends spec) sps es.
Proof.
  apply acts_in_order. intros [e s] sp. unfold sendSpec. cbn. destruct (fault (attempts s)); by eexists.
Qed.

Lemma elem_of_needing spec n sps sp : sp ∈ needing spec n sps ↔ sp ∈ sps ∧ classify spec sp = n.
Proof. unfold needing. rewrite list_elem_of_filter, bool_decide_spec. tauto. Qed.

Lemma needing_nil spec n sps : needing spec n sps = [] → ∀ sp, sp ∈ sps → classify spec sp ≠ n.
Proof. intros Hn sp Hsp Hc. apply (not_elem_of_nil sp). rewrite <- Hn. by apply elem_of_needing. Qed.

(** ** What a round owes to the pods it syncs, read off their reports *)

(** The proxy of an active pod as the server knows it. *)
Definition observed (s : server) (pod : Pod) : option syncPod :=
  if IsPodActive pod then
    (λ conn, mkSyncPod pod (0 <? sendTimes conn)%Z (conn_status conn)) <$> cachedGrpcSrvConnection s !! p_UID pod
  else None.

(** It reports a hash it was told to load, and runs another. *)
Definition unloaded (sp : syncPod) : bool :=
  match MetaState (sp_status sp) with Some ms => bool_decide (CurrentHash ms ≠ ExpectedHash ms) | None => false end.
(** It reports that it leads. *)
Definition leads (sp : syncPod) : bool :=
  match LeaderElectionState (sp_status sp) with Some le => le_IsLeader le | None => false end.
(** It runs what it was told, which is not what the configuration says. *)
Definition outdated (spec : ProxySpec) (sp : syncPod) : bool :=
  match MetaState (sp_status sp) with
  | Some ms => bool_decide (CurrentHash ms = ExpectedHash ms ∧ CurrentHash ms ≠ sm_Hash (ps_Meta spec))
  | None => false
  end.
(** It reports nothing yet, or runs what the configuration says although this
    connection has not carried it. *)
Definition awaiting (spec : ProxySpec) (sp : syncPod) : bool :=
  match MetaState (sp_status sp) with
  | Some ms => bool_decide (CurrentHash ms = sm_Hash (ps_Meta spec) ∧ ExpectedHash ms = sm_Hash (ps_Meta spec))
               && negb (sp_dispatched sp)
  | None => true
  end.

Definition the {A} (p : A → bool) (l : list A) : list A := filter (λ x, p x = true) l.

Lemma the_split {A} (p q : A → bool) l : the (λ x, p x && negb (q x)) l = [] → the (λ x, p x && q x) l = the p l.
Proof.
  unfold the. induction l as [|x l IH]; [done|]. rewrite !filter_cons. destruct (p x), (q x); cbn; intros Hl;
    first [by f_equal; apply IH|by apply IH|done].
Qed.
Lemma the_none {A} (p q : A → bool) l : the p l = [] → the (λ x, p x && negb (q x)) l = [].
Proof. unfold the. induction l as [|x l IH]; [done|]. rewrite !filter_cons. destruct (p x); cbn; auto. done. Qed.

Lemma needing_the spec n p sps : (∀ sp, classify spec sp = n ↔ p sp = true) → needing spec n sps = the p sps.
Proof. intros Hp. unfold needing, the. apply list_filter_iff. intros sp. by rewrite bool_decide_spec. Qed.

(** The classes in terms of the reports. *)
Lemma classes spec sp :
  (classify spec sp = NeedDeleteOther ↔ unloaded sp && negb (leads sp) = true) ∧
  (classify spec sp = NeedDeleteLeader ↔ unloaded sp && leads sp = true) ∧
  (classify spec sp = NeedUpdate ↔ outdated spec sp = true) ∧
  (classify spec sp = NeedDispatch ↔ awaiting spec sp = true).
Proof.
  unfold classify, unloaded, leads, outdated, awaiting. destruct (MetaState (sp_status sp)) as [ms|]; [|naive_solver].
  rewrite !andb_true_iff, !negb_true_iff, !bool_decide_eq_true.
  destruct (LeaderElectionState (sp_status sp)) as [[id []]|]; cbn [from_option le_IsLeader];
    repeat case_decide; destruct (sp_dispatched sp); cbn [negb]; split_and!; split; intros; destruct_and?;
    try done; intuition congruence.
Qed.

Lemma checkPod_observed now s pod v s' : checkPod now s pod = (v, s') →
  match v with Stop _ => True | Skip => observed s pod = None | Sync1 sp => observed s pod = Some sp end.
Proof.
  unfold checkPod, observed. intros Hc. destruct (IsPodActive pod); cbn [negb] in Hc; repeat (case_match; simplify_eq/=; try done).
Qed.

Lemma checkPods_observed now pods acc s sps s' :
  checkPods now pods acc s = (inr sps, s') → sps = acc ++ omap (observed s) pods.
Proof.
  revert acc s; induction pods as [|pod pods IH]; intros acc s; cbn [checkPods omap list_omap].
  { intros [= <- <-]. by rewrite app_nil_r. }
  destruct (checkPod now s pod) as [v s1] eqn:Hc. pose proof (checkPod_observed _ _ _ _ _ Hc) as Hv.
  apply checkPod_frame in Hc as (_ & _ & Hconn & _).
  assert (Ho : omap (observed s1) pods = omap (observed s) pods) by (unfold observed; by rewrite Hconn).
  destruct v as [r| |sp]; [done| |]; intros ->%IH; rewrite Hv, Ho; [done|by rewrite <- app_assoc].
Qed.

(** C6. A round acts in order, and on all it must.  A round that a pod stops
    does nothing.  Otherwise, with the active connected pods as their proxies
    report: if some proxy that does not lead runs another hash than it was told
    to load, exactly those pods are deleted; else, if some leader does, exactly
    those; else, if some proxy runs another hash than the configuration's,
    the specification is sent to exactly those; else to exactly the proxies
    that report nothing yet or have not been sent it over their connection.
    Always one attempt for each pod, in the order of the pods. *)
Theorem reconcile_ordered cfg now pods s :
  let '(r, s') := reconcilePods cfg now pods s in
  ∃ es, effects s' = effects s ++ es ∧
    match checkPods now pods [] s with
    | (inl r', _) => r = r' ∧ es = []
    | (inr _, _) =>
        let spec := generateProtoConfig cfg in
        let sps := omap (observed s) pods in
        match the unloaded sps, the (outdated spec) sps with
        | _ :: _, _ =>
            match the (λ sp, unloaded sp && negb (leads sp)) sps with
            | [] => acted deletes (the unloaded sps) es
            | others => acted deletes others es
            end
        | [], _ :: _ => acted (sends spec) (the (outdated spec) sps) es
        | [], [] => acted (sends spec) (the (awaiting spec) sps) es
        end
    end.
Proof.
  unfold reconcilePods. destruct (checkPods now pods [] s) as [[r|sps] s1] eqn:Hc;
    pose proof (checkPods_frame _ _ _ _ _ _ Hc) as (He & _).
  { exists []. by rewrite app_nil_r. }
  apply checkPods_observed in Hc. cbn [app] in Hc. cbv zeta. rewrite <- Hc. clear Hc.
  set (spec := generateProtoConfig cfg). unfold finish. rewrite <- He. clear He.
  rewrite !(needing_the spec NeedDeleteOther (λ sp, unloaded sp && negb (leads sp))) by apply classes.
  rewrite !(needing_the spec NeedDeleteLeader (λ sp, unloaded sp && leads sp)) by apply classes.
  rewrite !(needing_the spec NeedUpdate (outdated spec)) by apply classes.
  rewrite !(needing_the spec NeedDispatch (awaiting spec)) by apply classes.
  destruct (the (λ sp, unloaded sp && negb (leads sp)) sps) as [|sp0 l0] eqn:Hother.
  - rewrite (the_split _ _ _ Hother). destruct (the unloaded sps) as [|sp1 l1]; [|apply deletePods_effects].
    destruct (the (outdated spec) sps) as [|sp2 l2]; apply sendSpecs_effects.
  - destruct (the unloaded sps) as [|sp1 l1] eqn:Hu; [|apply deletePods_effects].
    by rewrite (the_none _ leads _ Hu) in Hother.
Qed.

Lemma blocked_round cfg now pods s pod r :
  NoDup (p_UID <$> pods) → pod ∈ pods → (checkPod now s pod).1 = Stop r →
  effects (reconcilePods cfg now pods s).2 = effects s.
Proof.
  intros Hnd Hin Hstop. destruct (checkPods_blocked now pods [] s pod r Hnd Hin Hstop) as (r' & s' & Hc).
  unfold reconcilePods. rewrite Hc. simpl. by apply checkPods_frame in Hc as (? & _).
Qed.

(** Nothing is deleted or sent while the shard is unsettled: if any of its
    pods is inactive but still has running containers, is expected to be gone
    already, has a disconnected proxy, or has not acknowledged the
    specification last sent to it, the round has no effect at all. *)
Theorem unsettled_round_does_nothing cfg now pods s pod :
  NoDup (p_UID <$> pods) → pod ∈ pods →
  (IsPodActive pod = false ∧ getRunningContainers pod ≠ []) ∨
  (IsPodActive pod = true ∧ p_UID pod ∈ podDeletionExpectation s) ∨
  (IsPodActive pod = true ∧ ∃ conn, cachedGrpcSrvConnection s !! p_UID pod = Some conn ∧
    (disconnected conn = true ∨
     ∃ h, podHashExpectation s !! p_UID pod = Some h ∧
       ∀ ms, MetaState (conn_status conn) = Some ms → ExpectedHash ms ≠ h)) →
  effects (reconcilePods cfg now pods s).2 = effects s.
Proof.
  intros Hnd Hin Hcase.
  assert (∃ r, (checkPod now s pod).1 = Stop r) as [r Hr]; [|by eapply blocked_round].
  unfold checkPod. destruct Hcase as [[-> Hrun]|[[-> Hd]|[-> (conn & Hconn & Hbad)]]]; simpl.
  - destruct (getRunningContainers pod); [done|]. by eexists.
  - rewrite decide_True by done. by eexists.
  - case_decide; [by eexists|]. rewrite Hconn. destruct (disconnected conn) eqn:Hdis; [by eexists|].
    destruct Hbad as [?|(h & -> & Hms)]; [done|].
    destruct (MetaState (conn_status conn)) as [ms|] eqn:Hm; [|by eexists].
    rewrite decide_True; [by eexists|]. intros ->. by apply (Hms ms).
Qed.

Lemma sendSpecs_expectation spec sps acc :
  (∀ n, fault n = None) →
  let s' := (fold_left (sendSpec spec) sps acc).2 in
  (∀ sp, sp ∈ sps → podHashExpectation s' !! p_UID (sp_pod sp) = Some (sm_Hash (ps_Meta spec))) ∧
  (∀ uid, podHashExpectation acc.2 !! uid = Some (sm_Hash (ps_Meta spec)) →
          podHashExpectation s' !! uid = Some (sm_Hash (ps_Meta spec))) ∧
  podDeletionExpectation s' = podDeletionExpectation acc.2 ∧
  (∀ uid, conn_status <$> cachedGrpcSrvConnection s' !! uid = conn_status <$> cachedGrpcSrvConnection acc.2 !! uid).
Proof.
  intros Hnf. simpl. revert acc; induction sps as [|sp sps IH]; intros [err s]; cbn [fold_left].
  { split_and!; try done. intros sp []%not_elem_of_nil. }
  set (y := sendSpec spec (err, s) sp).
  assert (Hy : podHashExpectation y.2 = <[p_UID (sp_pod sp) := sm_Hash (ps_Meta spec)]> (podHashExpectation s) ∧
    podDeletionExpectation y.2 = podDeletionExpectation s ∧
    cachedGrpcSrvConnection y.2 = bump (p_UID (sp_pod sp)) (cachedGrpcSrvConnection s)).
  { unfold y, sendSpec. simpl. by rewrite Hnf. }
  destruct Hy as (Hh & Hd & Hc). destruct (IH y) as (IH1 & IH2 & IH3 & IH4). simpl in *. split_and!.
  - intros x [->|Hx]%elem_of_cons; [|by apply IH1]. apply IH2. rewrite Hh. by rewrite lookup_insert_eq.
  - intros uid Huid. apply IH2. rewrite Hh, lookup_insert. by case_decide.
  - congruence.
  - intros uid. rewrite IH4, Hc. unfold bump. destruct (decide (uid = p_UID (sp_pod sp))) as [->|Hne].
    + rewrite lookup_alter_eq. by destruct (cachedGrpcSrvConnection s !! _).
    + by rewrite lookup_alter_ne.
Qed.

(** The synced pods come from the listed ones, with their connection's status. *)
Lemma checkPods_synced now pods acc s sps s' :
  checkPods now pods acc s = (inr sps, s') →
  Forall (λ sp, ∃ conn, cachedGrpcSrvConnection s !! p_UID (sp_pod sp) = Some conn ∧
            sp_status sp = conn_status conn ∧ IsPodActive (sp_pod sp) = true) acc →
  Forall (λ sp, sp ∈ acc ∨ sp_pod sp ∈ pods) sps ∧
  Forall (λ sp, ∃ conn, cachedGrpcSrvConnection s !! p_UID (sp_pod sp) = Some conn ∧
            sp_status sp = conn_status conn ∧ IsPodActive (sp_pod sp) = true) sps.
Proof.
  revert acc s; induction pods as [|p pods IH]; intros acc s; simpl.
  { intros [= <- <-] Hacc. split; [|done]. apply Forall_forall. auto. }
  destruct (checkPod now s p) as [v s1] eqn:Hc. pose proof (checkPod_frame _ _ _ _ _ Hc) as (_ & _ & Hconn & _).
  destruct v as [r| |sp]; [done| |]; intros Hrest Hacc; rewrite <- Hconn in Hacc |- *.
  - destruct (IH _ _ Hrest Hacc) as [Hmem Hall]. split; [|done].
    eapply Forall_impl; [exact Hmem|]. intros x [?|?]; [by left|right; by right].
  - assert (Hsp : sp_pod sp = p ∧ ∃ conn, cachedGrpcSrvConnection s1 !! p_UID p = Some conn ∧
      sp_status sp = conn_status conn ∧ IsPodActive p = true).
    { rewrite Hconn. unfold checkPod in Hc. repeat (case_match; simplify_eq/=; try done);
        (split; [done|]); eexists; (split; [done|]); split; try done; by destruct (IsPodActive p). }
    destruct Hsp as [Hpod Hconn']. destruct (IH _ _ Hrest) as [Hmem Hall].
    { apply Forall_app. split; [done|]. apply Forall_singleton. by rewrite Hpod. }
    split; [|done]. eapply Forall_impl; [exact Hmem|].
    intros x [[?|Hx%list_elem_of_singleton]%elem_of_app|?]; [by left| |right; by right].
    right. rewrite Hx, Hpod. by left.
Qed.

(** A specification is not sent twice: when every send succeeds and a
    round updates some pod, the following round, taken before the proxies
    have reported back, does nothing, whatever the configuration and the time
    are by then. *)
Theorem no_resend_before_ack cfg cfg' now now' pods s :
  (∀ n, fault n = None) → NoDup (p_UID <$> pods) →
  match checkPods now pods [] s with
  | (inl _, _) => False
  | (inr sps, _) => needing (generateProtoConfig cfg) NeedDeleteOther sps = [] ∧
      needing (generateProtoConfig cfg) NeedDeleteLeader sps = [] ∧
      needing (generateProtoConfig cfg) NeedUpdate sps ≠ []
  end →
  let s' := (reconcilePods cfg now pods s).2 in
  effects (reconcilePods cfg' now' pods s').2 = effects s'.
Proof.
  intros Hnf Hnd Hc. cbn zeta. remember (reconcilePods cfg now pods s).2 as s2 eqn:Hs2.
  unfold reconcilePods in Hs2. destruct (checkPods now pods [] s) as [[r|sps] s1] eqn:Hck; [done|].
  destruct Hc as (Hn1 & Hn2 & Hu). cbn zeta in Hs2. rewrite Hn1, Hn2 in Hs2. clear Hn1 Hn2.
  set (spec := generateProtoConfig cfg) in *. destruct (needing spec NeedUpdate sps) as [|sp l] eqn:Hup; [done|].
  destruct (sendSpecs_expectation spec (sp :: l) (None, s1) Hnf) as (Hexp & _ & Hdel & Hstat).
  assert (Hsp : sp ∈ needing spec NeedUpdate sps) by (rewrite Hup; by left).
  apply elem_of_needing in Hsp as [Hin Hcl].
  destruct (checkPods_synced _ _ _ _ _ _ Hck) as [Hmem Hall]; [constructor|].
  rewrite Forall_forall in Hmem, Hall. destruct (Hmem sp Hin) as [[]%not_elem_of_nil|Hpod].
  destruct (Hall sp Hin) as (conn & Hconn & Hst & Hact).
  apply checkPods_frame in Hck as (_ & _ & Hconn1). rewrite <- Hconn1 in Hconn.
  specialize (Hexp sp). specialize (Hstat (p_UID (sp_pod sp))). cbn [snd] in Hstat. rewrite Hconn in Hstat.
  unfold finish in Hs2. cbn [snd] in Hs2. rewrite <- Hs2 in *.
  destruct (cachedGrpcSrvConnection s2 !! p_UID (sp_pod sp)) as [conn2|] eqn:Hc2; [|done].
  simpl in Hstat. injection Hstat as Hstat.
  assert (∃ r, (checkPod now' s2 (sp_pod sp)).1 = Stop r) as [r Hr]; [|by eapply blocked_round].
  unfold checkPod. rewrite Hact. simpl. case_decide; [by eexists|]. rewrite Hc2.
  destruct (disconnected conn2); [by eexists|]. rewrite Hexp by (by left).
  destruct (MetaState (conn_status conn2)) as [ms|] eqn:Hms; [|by eexists].
  rewrite decide_True; [by eexists|]. intros Heq. unfold classify in Hcl.
  rewrite Hst, <- Hstat, Hms in Hcl. repeat (case_match; simplify_eq/=; try done).
Qed.

(** The error of a round is the error of its last attempt: a round that
    deletes several pods reports success exactly when the last deletion
    succeeded, so earlier failures are lost. *)
Theorem last_error_wins sps sp s :
  let x := fold_left deletePod (sps ++ [sp]) (None, s) in
  (finish x).1 = Done ↔ last (effects x.2) = Some (DeletePod (p_Name (sp_pod sp)) true).
Proof.
  simpl. rewrite fold_left_app. simpl. destruct (fold_left deletePod sps (None, s)) as [err s1].
  unfold deletePod, finish. destruct (fault (attempts s1)); simpl; rewrite last_snoc; naive_solver.
Qed.
End rounds.

(** ** Pods of configurations that are gone or no longer select them *)

Definition ShardingConfigInjectedKey : string := "ctrlmesh.kusionstack.io/sharding-config-injected".

(** [metav1.LabelSelectorAsSelector] of the apimachinery library: [None] is
    its error, for which the matcher it returns is nil. *)
Class AsSelector := { LabelSelectorAsSelector : option LabelSelector → option labels_Selector }.

(** The namespace's pods, its configurations, and the number of API calls. *)
Record cluster := mkCluster {
  cl_pods : list Pod; cl_configs : gmap string ShardingConfig; cl_calls : nat;
}.

Section clearing.
Context `{ApiServer} `{AsSelector}.

Definition mark_deleted (p : Pod) : Pod :=
  mkPod (p_Name p) (p_UID p) (p_Labels p) (p_Phase p) (Some api_now) (p_CreationTimestamp p)
    (p_Conditions p) (p_ContainerStatuses p).

Definition tick (c : cluster) : cluster := mkCluster (cl_pods c) (cl_configs c) (S (cl_calls c)).

(** Deleting a pod marks it; a pod that has gone is not found. *)
Definition deletePodCall (po : Pod) (c : cluster) : option ApiError * cluster :=
  match api_fails (cl_calls c) with
  | Some e => (Some e, tick c)
  | None =>
      if decide (p_UID po ∈ (p_UID <$> cl_pods c)) then
        (None, mkCluster ((λ p, if decide (p_UID p = p_UID po) then mark_deleted p else p) <$> cl_pods c)
                 (cl_configs c) (S (cl_calls c)))
      else (Some NotFound, tick c)
  end.
Definition getConfigCall (name : string) (c : cluster) : (ShardingConfig + ApiError) * cluster :=
  (match api_fails (cl_calls c) with
   | Some e => inr e
   | None => match cl_configs c !! name with Some x => inl x | None => inr NotFound end
   end, tick c).

(** The loop over the listed pods: [None] is the nil error. *)
Fixpoint clearLoop (pods : list Pod) (c : cluster) : outcome (option ApiError * cluster) :=
  match pods with
  | [] => Returns (None, c)
  | po :: pods' =>
      if decide (is_Some (p_DeletionTimestamp po)) then clearLoop pods' c else
      let shardName := default EmptyString (p_Labels po !! ShardingConfigInjectedKey) in
      if decide (shardName = EmptyString) then clearLoop pods' c else
      match getConfigCall shardName c with
      | (inr NotFound, c) =>
          match deletePodCall po c with
          | (Some NotFound, c) => clearLoop pods' c
          | (err, c) => Returns (err, c)
          end
      | (inr e, c) => Returns (Some e, c)
      | (inl shard, c) =>
          selector ← deref (LabelSelectorAsSelector (sc_Selector shard));
          if negb (sel_Matches selector (p_Labels po)) then
            match deletePodCall po c with
            | (Some NotFound, c) => clearLoop pods' c
            | (err, c) => Returns (err, c)
            end
          else clearLoop pods' c
      end
  end.

Definition clearOldPods (c : cluster) : outcome (option ApiError * cluster) :=
  match api_fails (cl_calls c) with
  | Some e => Returns (Some e, tick c)
  | None => clearLoop (filter (λ p, bool_decide (is_Some (p_Labels p !! ShardingConfigInjectedKey))) (cl_pods c)) (tick c)
  end.

(** The pod belongs to no configuration, or to one that does not select it. *)
Definition obsolete (c : cluster) (po : Pod) : Prop :=
  p_DeletionTimestamp po = None ∧
  let name := default EmptyString (p_Labels po !! ShardingConfigInjectedKey) in
  name ≠ EmptyString ∧
  (cl_configs c !! name = None ∨
   ∃ shard sel, cl_configs c !! name = Some shard ∧ LabelSelectorAsSelector (sc_Selector shard) = Some sel ∧
     sel_Matches sel (p_Labels po) = false).

(** The selector of every configuration of the namespace converts. *)
Definition selectors_convert (c : cluster) : Prop :=
  map_Forall (λ _ shard, is_Some (LabelSelectorAsSelector (sc_Selector shard))) (cl_configs c).

Lemma clearLoop_first pods c :
  (∀ n, api_fails n = None) → selectors_convert c →
  Forall (λ p, p_UID p ∈ (p_UID <$> cl_pods c)) pods →
  ∃ c', clearLoop pods c = Returns (None, c') ∧ cl_configs c' = cl_configs c ∧
    ((∀ p, p ∈ pods → ¬ obsolete c p) ∧ cl_pods c' = cl_pods c ∨
     ∃ pre po post, pods = pre ++ po :: post ∧ (∀ p, p ∈ pre → ¬ obsolete c p) ∧ obsolete c po ∧
       cl_pods c' = (λ p, if decide (p_UID p = p_UID po) then mark_deleted p else p) <$> cl_pods c).
Proof.
  intros Hnf. revert c. induction pods as [|po pods IH]; intros c Hsel Hin.
  { exists c. split; [done|]. split; [done|]. left. split; [|done]. intros p []%not_elem_of_nil. }
  apply Forall_cons in Hin as [Hpo Hin]. cbn [clearLoop].
  assert (Hskip : ∀ c1, cl_pods c1 = cl_pods c → cl_configs c1 = cl_configs c → ¬ obsolete c po →
    ∃ c', clearLoop pods c1 = Returns (None, c') ∧ cl_configs c' = cl_configs c ∧
    ((∀ p, p ∈ po :: pods → ¬ obsolete c p) ∧ cl_pods c' = cl_pods c ∨
     ∃ pre po' post, po :: pods = pre ++ po' :: post ∧ (∀ p, p ∈ pre → ¬ obsolete c p) ∧ obsolete c po' ∧
       cl_pods c' = (λ p, if decide (p_UID p = p_UID po') then mark_deleted p else p) <$> cl_pods c)).
  { intros c1 Hp1 Hc1 Hno.
    assert (Hob : ∀ p, obsolete c1 p ↔ obsolete c p) by (intros p; unfold obsolete; by rewrite Hc1).
    destruct (IH c1) as (c' & Hr & Hcf & Hcase); [unfold selectors_convert; by rewrite Hc1|by rewrite Hp1|]. exists c'. rewrite Hp1, Hc1 in *.
    split; [done|]. split; [done|]. destruct Hcase as [[Hall Hp]|(pre & po' & post & -> & Hpre & Ho & Hp)].
    - left. split; [|done]. intros p [->|Hx]%elem_of_cons; [done|]. rewrite <- Hob. by apply Hall.
    - right. exists (po :: pre), po', post. split; [done|]. split; [|split; [by apply Hob|done]].
      intros p [->|Hx]%elem_of_cons; [done|]. rewrite <- Hob. by apply Hpre. }
  assert (Hdel : ∀ c1, cl_pods c1 = cl_pods c → cl_configs c1 = cl_configs c → obsolete c po →
    ∃ c', match deletePodCall po c1 with
          | (Some NotFound, c) => clearLoop pods c | (err, c) => Returns (err, c) end = Returns (None, c') ∧
      cl_configs c' = cl_configs c ∧
    ((∀ p, p ∈ po :: pods → ¬ obsolete c p) ∧ cl_pods c' = cl_pods c ∨
     ∃ pre po' post, po :: pods = pre ++ po' :: post ∧ (∀ p, p ∈ pre → ¬ obsolete c p) ∧ obsolete c po' ∧
       cl_pods c' = (λ p, if decide (p_UID p = p_UID po') then mark_deleted p else p) <$> cl_pods c)).
  { intros c1 Hp1 Hc1 Hob. unfold deletePodCall. rewrite Hnf, Hp1, decide_True by done.
    eexists. split; [done|]. split; [done|]. right. exists [], po, pods. split_and!; try done.
    intros p []%not_elem_of_nil. }
  case_decide as Hd. { apply Hskip; [done..|]. intros [Hn _]. rewrite Hn in Hd. by destruct Hd. }
  assert (Hd' : p_DeletionTimestamp po = None) by (destruct (p_DeletionTimestamp po); [destruct Hd; by eexists|done]).
  case_decide as Hname. { apply Hskip; [done..|]. by intros (_ & ? & _). }
  unfold getConfigCall. rewrite Hnf.
  destruct (cl_configs c !! default EmptyString (p_Labels po !! ShardingConfigInjectedKey)) as [shard|] eqn:Hcfg.
  - destruct (Hsel _ shard Hcfg) as [sel Hs]. rewrite Hs. cbn [deref mbind outcome_bind].
    destruct (sel_Matches sel (p_Labels po)) eqn:Hm; simpl.
    + apply Hskip; [done..|]. intros (_ & _ & Hx). cbn zeta in Hx. rewrite Hcfg in Hx.
      destruct Hx as [?|(sh' & sel' & ? & ? & ?)]; congruence.
    + apply Hdel; [done..|]. split; [done|]. split; [done|]. right. by exists shard, sel.
  - apply Hdel; [done..|]. split; [done|]. split; [done|]. by left.
Qed.

(** Clearing stops at the first success: in a fault-free call where every
    selector is valid, at most one pod is marked for deletion, the first
    obsolete one in list order, and the call reports success although any
    number of obsolete pods may remain. *)
Theorem clearOldPods_stops_at_first c :
  (∀ n, api_fails n = None) → selectors_convert c →
  let pods := filter (λ p, bool_decide (is_Some (p_Labels p !! ShardingConfigInjectedKey))) (cl_pods c) in
  ∃ c', clearOldPods c = Returns (None, c') ∧
    ((∀ p, p ∈ pods → ¬ obsolete c p) ∧ cl_pods c' = cl_pods c ∨
     ∃ pre po post, pods = pre ++ po :: post ∧ (∀ p, p ∈ pre → ¬ obsolete c p) ∧ obsolete c po ∧
       cl_pods c' = (λ p, if decide (p_UID p = p_UID po) then mark_deleted p else p) <$> cl_pods c).
Proof.
  intros Hnf Hsel pods. unfold clearOldPods. rewrite Hnf.
  destruct (clearLoop_first pods (tick c) Hnf Hsel) as (c' & Hr & _ & Hcase).
  { apply Forall_forall. intros p [_ Hp]%list_elem_of_filter. by apply list_elem_of_fmap_2. }
  exists c'. split; [exact Hr|]. exact Hcase.
Qed.
End clearing.

(** ** Concrete rounds *)

Definition demo_dumps : Dumps := {|
  dump_selector := λ o, match o with Some _ => "some" | None => "none" end;
  hash_limits := λ l, "h" +:+ Itoa (Z.of_nat (length l)) |}.
Definition no_server_faults : Faults := {| fault := λ _, None |}.
Definition everything : AsSelector := {| LabelSelectorAsSelector := λ o, Some (match o with Some _ => Reqs [] | None => Nothing end) |}.

Section witness.
#[local] Existing Instances demo_dumps no_server_faults no_fault_api everything.

Definition demo_pod (n : string) : Pod :=
  mkPod n ("uid-" +:+ n) {[ShardingConfigInjectedKey := "gone"]} PodRunning None 0 [mkPodCondition "Ready" "True"]
    [mkContainerStatus "c" true].
Definition demo_shard : ShardingConfig := demo_root "ns" 1 [] [] None.
Definition demo_server (ms : option MetaState_) (expectations : gmap string string) : server :=
  mkServer expectations ∅ {["uid-a" := mkConn (mkProxyStatus ms None) 1 false]} [] 0.

Lemma unsettled_round_does_nothing_witness :
  effects (reconcilePods demo_shard 0 [demo_pod "a"] (demo_server None {["uid-a" := "h0"]})).2 = [].
Proof.
  apply (unsettled_round_does_nothing demo_shard 0 [demo_pod "a"] (demo_server None {["uid-a" := "h0"]}) (demo_pod "a")).
  - apply NoDup_singleton.
  - by left.
  - right. right. split; [reflexivity|]. eexists. split; [reflexivity|]. right. exists "h0". by split.
Defined.

(** Two proxies that run another hash than they were told to load, the second
    the leader: the round deletes the pod of the first only. *)
Definition demo_two_servers : server :=
  let bad le := mkConn (mkProxyStatus (Some (mkMetaState "new" "old")) (Some (mkLeaderState "b" le))) 1 false in
  mkServer ∅ ∅ {["uid-a" := bad false; "uid-b" := bad true]} [] 0.
Lemma reconcile_ordered_witness :
  ∃ ok, effects (reconcilePods demo_shard 0 [demo_pod "b"; demo_pod "a"] demo_two_servers).2 = [DeletePod "a" ok].
Proof.
  pose proof (reconcile_ordered demo_shard 0 [demo_pod "b"; demo_pod "a"] demo_two_servers) as Ho.
  destruct (reconcilePods demo_shard 0 [demo_pod "b"; demo_pod "a"] demo_two_servers) as [r s'].
  destruct Ho as (es & He & Ho). vm_compute in Ho. cbn [snd]. rewrite He.
  inversion Ho as [|sp e sps es' [ok ->] Hrest]; subst. inversion Hrest; subst. by exists ok.
Defined.

Lemma no_resend_before_ack_witness :
  let s := demo_server (Some (mkMetaState "old" "old")) ∅ in
  let s' := (reconcilePods demo_shard 0 [demo_pod "a"] s).2 in
  length (effects s') = 1 ∧
  effects (reconcilePods demo_shard 0 [demo_pod "a"] s').2 = effects s'.
Proof.
  split; [vm_compute; reflexivity|].
  apply (no_resend_before_ack demo_shard demo_shard 0 0 [demo_pod "a"]).
  - done.
  - apply NoDup_singleton.
  - vm_compute. done.
Defined.

Lemma clearOldPods_stops_at_first_witness :
  ∃ c', clearOldPods (mkCluster [demo_pod "a"; demo_pod "b"] ∅ 0) = Returns (None, c').
Proof.
  destruct (clearOldPods_stops_at_first (mkCluster [demo_pod "a"; demo_pod "b"] ∅ 0)) as (c' & Hr & _);
    [done|apply map_Forall_empty|]. exists c'. exact Hr.
Defined.
End witness.
