(* ===== verification/ManagerState.v ===== *)
(** * The state of the managers

    The registries of gRPC services (src/pkg/grpcregistry), the controller that
    publishes the managers' endpoints
    (src/pkg/manager/controllers/managerstate/managerstate_controller.go), and the
    side of the proxies that reads them to find their manager
    (connect in src/pkg/proxy/proto/grpc.go). *)

From stdpp Require Import sorting.
From S2P Require Import Prelude GoStrings ShardServer.

(** ** Registries of gRPC services *)

Section registry.
Context {RegisterFunc : Type} `{RangeOrder}.

(** The map of functions, the flag of the port, and whether [Start] has run. *)
Record grpcRegistry := mkRegistry { needLeaderElection : bool; registry : gmap string RegisterFunc; port : option Z; started : bool }.

Definition NeedLeaderElection (r : grpcRegistry) : bool := needLeaderElection r.

Definition register (name : string) (rf : RegisterFunc) (r : grpcRegistry) : option string * grpcRegistry :=
  if started r then (Some "can not register gRPC function to a started registry", r)
  else (None, mkRegistry (needLeaderElection r) (<[name := rf]> (registry r)) (port r) (started r)).

(** What [Start] does until it is cancelled: nothing, or the functions it calls
    on the new mux, in order, and the port that is then served. *)
Inductive service := Idle | Serves (calls : list RegisterFunc) (addr : string).

Definition Start (r : grpcRegistry) : service * grpcRegistry :=
  match port r with
  | None | Some 0%Z => (Idle, r)
  | Some p =>
      let r := mkRegistry (needLeaderElection r) (registry r) (port r) true in
      if decide (size (registry r) = 0) then (Idle, r)
      else (Serves (omap (registry r !!.) (range_keys (registry r))) (":" +:+ Itoa p), r)
  end.

Record registries := mkRegistries { leaderElectionRegistry : grpcRegistry; nonLeaderElectionRegistry : grpcRegistry }.

Definition Register (name : string) (needLeaderElection : bool) (rf : RegisterFunc) (rs : registries) : option string * registries :=
  if needLeaderElection then
    let '(e, r) := register name rf (leaderElectionRegistry rs) in (e, mkRegistries r (nonLeaderElectionRegistry rs))
  else
    let '(e, r) := register name rf (nonLeaderElectionRegistry rs) in (e, mkRegistries (leaderElectionRegistry rs) r).

Definition GetGrpcPorts (rs : registries) : Z * Z :=
  (default 0%Z (port (leaderElectionRegistry rs)), default 0%Z (port (nonLeaderElectionRegistry rs))).

(** The registries of the process, with the ports of the flags. *)
Definition new_registries (leaderPort nonLeaderPort : Z) : registries :=
  mkRegistries (mkRegistry true ∅ (Some leaderPort) false) (mkRegistry false ∅ (Some nonLeaderPort) false).
End registry.
Arguments grpcRegistry : clear implicits.
Arguments registries : clear implicits.

(** ** The resource *)

Definition NameOfManager : string := "ctrlmesh-manager".

(** A time: the wall clock in nanoseconds, and the monotonic reading of a time
    that comes from the clock. *)
Record Time := mkTime { wall : Z; mono : option Z }.
#[export] Instance Time_eq_dec : EqDecision Time.
Proof. solve_decision. Defined.

Record ManagerStateEndpoint := mkEndpoint { e_Name : string; e_PodIP : string; e_Leader : bool }.
Record ManagerStatePorts := mkPorts { GrpcLeaderElectionPort : Z; GrpcNonLeaderElectionPort : Z }.
Record ManagerStateStatus := mkStatus {
  Namespace : string; Endpoints : list ManagerStateEndpoint; Ports : option ManagerStatePorts; UpdateTimestamp : option Time;
}.
#[export] Instance Endpoint_eq_dec : EqDecision ManagerStateEndpoint.
Proof. solve_decision. Defined.
#[export] Instance Ports_eq_dec : EqDecision ManagerStatePorts.
Proof. solve_decision. Defined.
#[export] Instance Status_eq_dec : EqDecision ManagerStateStatus.
Proof. solve_decision. Defined.

(** [Less] of the endpoints, as the order the sort needs. *)
Definition Less (a b : ManagerStateEndpoint) : Prop := Is_true (String.leb (e_Name a) (e_Name b)).
#[export] Instance Less_dec : RelDecision Less.
Proof. intros a b. unfold Less. apply _. Defined.

(** ** The API server

    The object with its version.  A creation drops the status, which is a
    subresource; an update of the status names the version it replaces, and
    one that changes nothing makes no new version; a time is kept to the second. *)

Record state_server := mkServer { object : option (ManagerStateStatus * nat); next_version : nat }.

Definition second : Z := 1000000000.
Definition on_wire (st : ManagerStateStatus) : ManagerStateStatus :=
  mkStatus (Namespace st) (Endpoints st) (Ports st) ((λ t, mkTime (wall t / second * second) None) <$> UpdateTimestamp st).
Definition empty_status : ManagerStateStatus := mkStatus EmptyString [] None None.

Inductive api_error := IsAlreadyExists | OtherApi (msg : string).

Definition api_create (fault : option api_error) (sv : state_server) : option api_error * state_server :=
  match fault, object sv with
  | Some e, _ => (Some e, sv)
  | None, Some _ => (Some IsAlreadyExists, sv)
  | None, None => (None, mkServer (Some (empty_status, next_version sv)) (S (next_version sv)))
  end.

Definition api_update_status (fault : option string) (version : nat) (st : ManagerStateStatus) (sv : state_server) : option string * state_server :=
  match fault, object sv with
  | Some e, _ => (Some e, sv)
  | None, None => (Some "not found", sv)
  | None, Some (old, v) =>
      if decide (version = v) then
        if decide (on_wire st = old) then (None, sv)
        else (None, mkServer (Some (on_wire st, next_version sv)) (S (next_version sv)))
      else (Some "the object has been modified", sv)
  end.

(** ** The reconciler *)

(** A pod of the cluster, with its address. *)
Record MPod := mkMPod { mp_Pod : Pod; mp_Namespace : string; mp_IP : string }.

(** What [SetupWithManager] leaves in the package's variables: the pods of the
    webhook's service are those of the managers. *)
Record manager_env := mkManagerEnv { namespace : string; localName : string; podSelector : gmap string string → bool; grpc_ports : Z * Z }.

(** The calls that fail. *)
Record faults := mkFaults { list_error : option string; get_error : option string; create_error : option api_error; update_error : option string }.

Section reconcile.
Context (env : manager_env).

Definition list_pods (pods : list MPod) : list MPod :=
  filter (λ p, mp_Namespace p = namespace env ∧ podSelector env (p_Labels (mp_Pod p)) = true) pods.

Definition endpoint_of (pod : MPod) : ManagerStateEndpoint :=
  mkEndpoint (p_Name (mp_Pod pod)) (mp_IP pod) (bool_decide (p_Name (mp_Pod pod) = localName env)).

Definition unsorted_endpoints (podList : list MPod) : list ManagerStateEndpoint :=
  endpoint_of <$> filter (λ p, IsPodActive (mp_Pod p) = true) podList.

Definition newStatus (start : Time) (podList : list MPod) : ManagerStateStatus :=
  mkStatus (namespace env) (merge_sort Less (unsorted_endpoints podList))
    (Some (mkPorts (grpc_ports env).1 (grpc_ports env).2)) (Some start).

(** [cached] is the object in the reader's cache; the name and the time are
    those of the request. *)
Definition Reconcile (flt : faults) (reqName : string) (start : Time) (pods : list MPod)
    (cached : option (ManagerStateStatus * nat)) (sv : state_server) : option string * state_server :=
  if decide (reqName ≠ NameOfManager) then (None, sv)
  else match list_error flt with
  | Some e => (Some ("list pods in " +:+ namespace env +:+ " error: " +:+ e), sv)
  | None =>
      let podList := list_pods pods in
      let hasLeader := existsb e_Leader (unsorted_endpoints podList) in
      let status := newStatus start podList in
      if negb hasLeader then (Some ("no leader " +:+ localName env +:+ " in new endpoints"), sv)
      else match get_error flt, cached with
      | Some e, _ => (Some ("get ManagerState " +:+ reqName +:+ " error: " +:+ e), sv)
      | None, None =>
          let '(e, sv) := api_create (create_error flt) sv in
          match e with
          | Some (OtherApi e) => (Some ("create ManagerState " +:+ reqName +:+ " error: " +:+ e), sv)
          | _ => (None, sv)
          end
      | None, Some (old, version) =>
          if decide (old = status) then (None, sv)
          else
            let '(e, sv) := api_update_status (update_error flt) version status sv in
            match e with
            | Some e => (Some ("update ManagerState " +:+ reqName +:+ " error: " +:+ e), sv)
            | None => (None, sv)
            end
      end
  end.

(** The requests of the events: a managed object by its own name, a pod of the
    managers, whatever its event, by the name of the resource. *)
Inductive event := StateEvent (name : string) | PodCreate (pod : Pod) | PodUpdate (old new : Pod) | PodDelete (pod : Pod) | PodGeneric (pod : Pod).

Definition enqueueHandler (e : event) : list string :=
  match e with
  | StateEvent name => [name]
  | PodCreate pod | PodUpdate _ pod | PodDelete pod | PodGeneric pod =>
      if podSelector env (p_Labels pod) then [NameOfManager] else []
  end.
End reconcile.

(** ** The proxies *)

(** The manager a connection is made to: its name and its address, or why there
    is none.  [cached] is the resource in the proxy's cache. *)
Definition connect_target (get_error : option string) (cached : option ManagerStateStatus) : result (string * string) :=
  match get_error, cached with
  | Some e, _ => Err ("Failed to get ManagerState " +:+ NameOfManager +:+ ": " +:+ e)
  | None, None => Err ("Not found ManagerState " +:+ NameOfManager)
  | None, Some st =>
      match Ports st with
      | None => Err "No grpc port in ManagerState"
      | Some ports =>
          if decide (GrpcLeaderElectionPort ports = 0%Z) then Err "No grpc port in ManagerState"
          else match List.find e_Leader (Endpoints st) with
          | None => Err "No leader in ManagerState"
          | Some leader => Ok (e_Name leader, "https://" +:+ e_PodIP leader +:+ ":" +:+ Itoa (GrpcLeaderElectionPort ports))
          end
      end
  end.

(** ** Registries *)

Section registry_facts.
Context {F : Type} `{RangeOrder}.

Lemma register_started name rf (r : grpcRegistry F) : started r = true → register name rf r = (Some "can not register gRPC function to a started registry", r).
Proof. unfold register. by intros ->. Qed.

(** What was registered before the start is served on the port the managers
    publish; afterwards nothing can be registered. *)
Lemma Start_serves (r : grpcRegistry F) p :
  port r = Some p → p ≠ 0%Z → registry r ≠ ∅ →
  ∃ calls, (Start r).1 = Serves calls (":" +:+ Itoa p) ∧ (∀ rf, rf ∈ calls ↔ ∃ name, registry r !! name = Some rf) ∧
    ∀ name rf, (register name rf (Start r).2).2 = (Start r).2.
Proof.
  intros Hp Hz Hne. exists (omap (registry r !!.) (range_keys (registry r))).
  assert (HS : Start r = (Serves (omap (registry r !!.) (range_keys (registry r))) (":" +:+ Itoa p),
    mkRegistry (needLeaderElection r) (registry r) (Some p) true)).
  { unfold Start. rewrite Hp. destruct p; [done|..]; simpl; by rewrite decide_False by by rewrite map_size_empty_iff. }
  rewrite HS. split; [done|]. split; [|done]. intros rf. rewrite list_elem_of_omap. split.
  - intros (name & _ & Hn). by exists name.
  - intros [name Hn]. exists name. split; [apply elem_of_range_keys; by exists rf|done].
Qed.
End registry_facts.

(** ** The order of the endpoints *)

Lemma ascii_compare_N a b : Ascii.compare a b = N.compare (Ascii.N_of_ascii a) (Ascii.N_of_ascii b).
Proof. done. Qed.

Lemma leb_cons a s b t : String.leb (String a s) (String b t) =
  match N.compare (Ascii.N_of_ascii a) (Ascii.N_of_ascii b) with Lt => true | Eq => String.leb s t | Gt => false end.
Proof. unfold String.leb. simpl. rewrite ascii_compare_N. by destruct (N.compare _ _). Qed.

#[export] Instance Less_trans : Transitive Less.
Proof.
  intros [a ? ?] [b ? ?] [c ? ?]. unfold Less. simpl. rewrite !Is_true_true. revert b c.
  induction a as [|x a IH]; intros b c; [by destruct c|]. destruct b as [|y b]; [done|]. destruct c as [|z c]; [by rewrite leb_cons|].
  rewrite !leb_cons. destruct (N.compare_spec (Ascii.N_of_ascii x) (Ascii.N_of_ascii y)) as [->|Hxy|]; [..|done].
  - intros Hab. destruct (N.compare _ (Ascii.N_of_ascii z)); [by apply IH|done..].
  - destruct (N.compare_spec (Ascii.N_of_ascii y) (Ascii.N_of_ascii z)) as [Hyz|Hyz|]; [..|done]; intros _ _;
      destruct (N.compare_spec (Ascii.N_of_ascii x) (Ascii.N_of_ascii z)); done || lia.
Qed.
#[export] Instance Less_total : Total Less.
Proof. intros a b. unfold Less. rewrite !Is_true_true. apply String.leb_total. Qed.

Lemma Less_antisym a b : Less a b → Less b a → e_Name a = e_Name b.
Proof. unfold Less. rewrite !Is_true_true. intros. by apply String.leb_antisym. Qed.

Section endpoints.
Context (env : manager_env).

(** The cache lists the pods in any order: the status does not depend on it. *)
Lemma newStatus_perm start l l' :
  NoDup ((p_Name ∘ mp_Pod) <$> l) → l ≡ₚ l' → newStatus env start l = newStatus env start l'.
Proof.
  intros Hnd Hp. unfold newStatus. f_equal. apply (StronglySorted_unique_strong Less); [|apply StronglySorted_merge_sort; apply _..|].
  - intros x y. rewrite !merge_sort_Permutation. unfold unsorted_endpoints. rewrite <- Hp.
    intros (px & -> & [_ Hx]%list_elem_of_filter)%list_elem_of_fmap (py & -> & [_ Hy]%list_elem_of_filter)%list_elem_of_fmap.
    intros H1 H2. f_equal. pose proof (Less_antisym _ _ H1 H2) as Hn. simpl in Hn.
    apply list_elem_of_lookup in Hx as [i Hi], Hy as [j Hj].
    assert (i = j) as ->; [|congruence]. apply (NoDup_lookup _ i j (p_Name (mp_Pod px)) Hnd).
    + by rewrite list_lookup_fmap, Hi.
    + rewrite list_lookup_fmap, Hj. simpl. by rewrite Hn.
  - rewrite !merge_sort_Permutation. unfold unsorted_endpoints. by rewrite Hp.
Qed.

(** The leader is this manager, and no other. *)
Lemma leader_found l pod :
  NoDup ((p_Name ∘ mp_Pod) <$> l) → pod ∈ l → p_Name (mp_Pod pod) = localName env → IsPodActive (mp_Pod pod) = true →
  existsb e_Leader (unsorted_endpoints env l) = true ∧
  ∀ e, e ∈ merge_sort Less (unsorted_endpoints env l) → e_Leader e = true → e = endpoint_of env pod.
Proof.
  intros Hnd Hin Hname Hact. assert (He : endpoint_of env pod ∈ unsorted_endpoints env l).
  { apply list_elem_of_fmap. exists pod. split; [done|]. by apply list_elem_of_filter. }
  split.
  - apply existsb_exists. exists (endpoint_of env pod). split; [by apply list_elem_of_In|]. simpl. by apply bool_decide_true.
  - intros e. rewrite merge_sort_Permutation. intros (p & -> & [_ Hp]%list_elem_of_filter)%list_elem_of_fmap. simpl.
    intros Hn%bool_decide_eq_true. f_equal. apply list_elem_of_lookup in Hp as [i Hi], Hin as [j Hj].
    assert (i = j) as ->; [|congruence]. apply (NoDup_lookup _ i j (localName env) Hnd).
    + by rewrite list_lookup_fmap, Hi; simpl; rewrite Hn.
    + by rewrite list_lookup_fmap, Hj; simpl; rewrite Hname.
Qed.
End endpoints.

(** ** Rounds *)

Definition no_faults : faults := mkFaults None None None None.
(** What the API server keeps has been written through it. *)
Definition server_ok (sv : state_server) : Prop := ∀ st v, object sv = Some (st, v) → on_wire st = st.

Lemma on_wire_idem st : on_wire (on_wire st) = on_wire st.
Proof.
  destruct st as [ns es ps [[w m]|]]; [|done]. unfold on_wire. cbn. by rewrite Z.div_mul.
Qed.

Lemma Reconcile_server_ok env flt req start pods cached sv :
  server_ok sv → server_ok (Reconcile env flt req start pods cached sv).2.
Proof.
  intros Hok. unfold Reconcile. case_decide; [done|]. destruct (list_error flt); [done|]. destruct (negb _); [done|].
  destruct (get_error flt); [done|]. destruct cached as [[old version]|].
  - case_decide; [done|]. unfold api_update_status. destruct (update_error flt); [done|]. destruct (object sv) as [[st v]|]; [|done].
    case_decide; [|done]. case_decide; [done|]. intros st' v'. simpl. intros [= <- <-]. apply on_wire_idem.
  - unfold api_create. destruct (create_error flt) as [[]|]; [done..|]. destruct (object sv); [done|].
    intros st v. simpl. by intros [= <- <-].
Qed.

(** A time from the clock is never equal to one that was stored: the comparison
    that is to spare an update always finds a difference. *)
Lemma stored_status_differs env start podList st : mono start ≠ None → on_wire st = st → st ≠ newStatus env start podList.
Proof.
  intros Hm Hw ->. apply (f_equal UpdateTimestamp) in Hw. unfold on_wire, newStatus in Hw. simpl in Hw.
  injection Hw as Hw. apply Hm. by rewrite <- Hw.
Qed.

Section rounds.
Context (env : manager_env) (pods : list MPod) (pod : MPod).
Context (Hnames : NoDup ((p_Name ∘ mp_Pod) <$> list_pods env pods)).
Context (Hpod : pod ∈ list_pods env pods) (Hlocal : p_Name (mp_Pod pod) = localName env) (Hactive : IsPodActive (mp_Pod pod) = true).

Abbreviation status start := (newStatus env start (list_pods env pods)).

Lemma connect_leader start : (grpc_ports env).1 ≠ 0%Z →
  connect_target None (Some (on_wire (status start))) =
    Ok (localName env, "https://" +:+ mp_IP pod +:+ ":" +:+ Itoa (grpc_ports env).1).
Proof.
  intros Hp. unfold connect_target. simpl. rewrite decide_False by done.
  destruct (leader_found env _ pod Hnames Hpod Hlocal Hactive) as [Hex Hall].
  destruct (List.find e_Leader (merge_sort Less (unsorted_endpoints env (list_pods env pods)))) as [e|] eqn:Hf.
  - apply List.find_some in Hf as [Hin Hl]. rewrite (Hall e) by (done || by apply list_elem_of_In). simpl. by rewrite Hlocal.
  - apply existsb_exists in Hex as (e & Hin & Hl). pose proof (List.find_none _ _ Hf e) as Hn. rewrite Hn in Hl; [done|].
    apply list_elem_of_In. rewrite merge_sort_Permutation. by apply list_elem_of_In.
Qed.

Lemma round_present start st v sv : server_ok sv → object sv = Some (st, v) →
  ∃ v', Reconcile env no_faults NameOfManager start pods (object sv) sv =
    (None, (Reconcile env no_faults NameOfManager start pods (object sv) sv).2) ∧
    object (Reconcile env no_faults NameOfManager start pods (object sv) sv).2 = Some (on_wire (status start), v').
Proof.
  intros Hok Ho. unfold Reconcile. rewrite decide_False by naive_solver. simpl.
  rewrite (proj1 (leader_found env _ pod Hnames Hpod Hlocal Hactive)). simpl. rewrite Ho.
  case_decide as Heq.
  - exists v. split; [done|]. simpl. rewrite <- Heq. by rewrite Ho, (Hok st v Ho).
  - rewrite !(decide_True (P := v = v)) by done. case_decide as Hw; [rewrite Hw|]; by eexists.
Qed.

Lemma round_absent start sv : object sv = None →
  ∃ v, Reconcile env no_faults NameOfManager start pods (object sv) sv = (None, mkServer (Some (empty_status, v)) (S v)).
Proof.
  intros Ho. unfold Reconcile. rewrite decide_False by naive_solver. simpl.
  rewrite (proj1 (leader_found env _ pod Hnames Hpod Hlocal Hactive)). simpl. rewrite Ho.
  by eexists.
Qed.

(** In the second of the last update a round leaves the object alone, in
    whatever order the pods are listed. *)
Lemma round_again start start' pods' v sv :
  object sv = Some (on_wire (status start), v) → pods' ≡ₚ pods → (wall start' / second = wall start / second)%Z →
  Reconcile env no_faults NameOfManager start' pods' (object sv) sv = (None, sv).
Proof.
  intros Ho Hp Hw. assert (Hl : list_pods env pods' ≡ₚ list_pods env pods) by (unfold list_pods; by rewrite Hp).
  assert (Hst : newStatus env start' (list_pods env pods') = status start') by (symmetry; apply newStatus_perm; by rewrite ?Hl).
  unfold Reconcile. rewrite decide_False by naive_solver. simpl. rewrite Hst.
  assert (Hex : existsb e_Leader (unsorted_endpoints env (list_pods env pods')) = true).
  { apply (leader_found env _ pod); [by rewrite Hl..|done|done]. }
  rewrite Hex, Ho. simpl. case_decide; [done|]. rewrite !(decide_True (P := v = v)) by done.
  assert (Hsame : on_wire (status start') = on_wire (status start)) by (unfold on_wire; simpl; by rewrite Hw).
  by rewrite decide_True.
Qed.
End rounds.

(** C14. A manager that is the leader and runs gets every proxy to itself.  When no
    call fails, two rounds succeed whatever the resource was, the first making
    it if it is not there; then the resource holds the active managers of the
    namespace, sorted by name, this one and only this one being the leader,
    and a proxy that reads it connects to this manager's address at the
    published port of the leader's services.  Another round in the same second changes
    nothing, in whatever order its cache lists the pods, so the events of the
    controller's own updates come to an end. *)
Theorem managers_reach_proxies env pods pod sv start1 start2 :
  NoDup ((p_Name ∘ mp_Pod) <$> list_pods env pods) →
  pod ∈ list_pods env pods → p_Name (mp_Pod pod) = localName env → IsPodActive (mp_Pod pod) = true →
  (grpc_ports env).1 ≠ 0%Z → server_ok sv →
  let r1 := Reconcile env no_faults NameOfManager start1 pods (object sv) sv in
  let r2 := Reconcile env no_faults NameOfManager start2 pods (object r1.2) r1.2 in
  r1.1 = None ∧ r2.1 = None ∧
  (∃ st v, object r2.2 = Some (st, v) ∧
    Endpoints st ≡ₚ endpoint_of env <$> filter (λ p, IsPodActive (mp_Pod p) = true) (list_pods env pods) ∧
    StronglySorted Less (Endpoints st) ∧ (∀ e, e ∈ Endpoints st → e_Leader e = true ↔ e = endpoint_of env pod) ∧
    connect_target None (Some st) = Ok (localName env, "https://" +:+ mp_IP pod +:+ ":" +:+ Itoa (grpc_ports env).1)) ∧
  ∀ start3 pods', pods' ≡ₚ pods → (wall start3 / second = wall start2 / second)%Z →
    Reconcile env no_faults NameOfManager start3 pods' (object r2.2) r2.2 = (None, r2.2).
Proof.
  intros Hnd Hin Hl Ha Hp Hok r1 r2.
  assert (H1 : r1.1 = None ∧ ∃ st v, object r1.2 = Some (st, v)).
  { unfold r1. destruct (object sv) as [[st v]|] eqn:Ho.
    - destruct (round_present env pods pod Hnd Hin Hl Ha start1 st v sv Hok Ho) as (v' & He & Ho'). rewrite Ho in He, Ho'.
      split; [by rewrite He|by eexists _, _].
    - destruct (round_absent env pods pod Hnd Hin Hl Ha start1 sv Ho) as (v & He). rewrite Ho in He. rewrite He. by split; [|eexists _, _]. }
  destruct H1 as (H1 & st & v & Ho1). assert (Hok1 : server_ok r1.2) by by apply Reconcile_server_ok.
  destruct (round_present env pods pod Hnd Hin Hl Ha start2 st v r1.2 Hok1 Ho1) as (v2 & He2 & Ho2). fold r2 in He2, Ho2.
  split; [done|]. split; [by rewrite He2|]. split.
  - eexists _, v2. split; [exact Ho2|]. split; [apply merge_sort_Permutation|]. split; [apply StronglySorted_merge_sort; apply _|].
    split; [|by apply connect_leader].
    intros e He. split; [by apply (leader_found env _ pod Hnd Hin Hl Ha)|]. intros ->. simpl. by apply bool_decide_true.
  - intros start3 pods' Hperm Hw. by apply (round_again env pods pod Hnd Hin Hl Ha start2 start3 pods' v2).
Qed.

(** A manager whose pod is not active reports an error and publishes nothing. *)
Lemma no_leader_publishes_nothing env flt start pods cached sv :
  (∀ p, p ∈ list_pods env pods → p_Name (mp_Pod p) = localName env → IsPodActive (mp_Pod p) = false) →
  is_Some (Reconcile env flt NameOfManager start pods cached sv).1 ∧ (Reconcile env flt NameOfManager start pods cached sv).2 = sv.
Proof.
  intros Hno. unfold Reconcile. rewrite decide_False by naive_solver. destruct (list_error flt); [by split; [eexists|]|].
  destruct (existsb e_Leader (unsorted_endpoints env (list_pods env pods))) eqn:Hex; simpl; [|by split; [eexists|]].
  apply existsb_exists in Hex as (e & He & Hl). apply list_elem_of_In in He.
  apply list_elem_of_fmap in He as (p & -> & [Hact Hp]%list_elem_of_filter). simpl in Hl.
  apply bool_decide_eq_true in Hl. by rewrite (Hno p Hp Hl) in Hact.
Qed.

(** The events of the pods of the managers make rounds of the resource. *)
Lemma pod_events_enqueue env pod old :
  podSelector env (p_Labels pod) = true →
  Forall (λ e, enqueueHandler env e = [NameOfManager]) [PodCreate pod; PodUpdate old pod; PodDelete pod; PodGeneric pod].
Proof. intros Hs. repeat constructor; simpl; by rewrite Hs. Qed.

(** ** Witness *)

Definition demo_mpod (name ip phase : string) : MPod :=
  mkMPod (mkPod name name {["app" := "mesh"]} phase None 0 [] []) "kube" ip.
Definition demo_manager_env : manager_env :=
  mkManagerEnv "kube" "mesh-1" (λ l, bool_decide (l !! "app" = Some "mesh")) (8071%Z, 8072%Z).
Definition demo_mpods : list MPod :=
  [demo_mpod "mesh-1" "10.0.0.2" PodRunning; demo_mpod "mesh-0" "10.0.0.1" PodRunning; demo_mpod "mesh-2" "10.0.0.3" PodFailed].

Lemma managers_reach_proxies_witness :
  let r1 := Reconcile demo_manager_env no_faults NameOfManager (mkTime 5 (Some 1%Z)) demo_mpods None (mkServer None 1) in
  let r2 := Reconcile demo_manager_env no_faults NameOfManager (mkTime 6 (Some 2%Z)) demo_mpods (object r1.2) r1.2 in
  fst <$> object r1.2 = Some empty_status ∧
  connect_target None (fst <$> object r2.2) = Ok ("mesh-1", "https://10.0.0.2:8071").
Proof.
  intros r1 r2. split; [vm_compute; reflexivity|].
  assert (Hpods : list_pods demo_manager_env demo_mpods = demo_mpods) by (vm_compute; reflexivity).
  destruct (managers_reach_proxies demo_manager_env demo_mpods (demo_mpod "mesh-1" "10.0.0.2" PodRunning) (mkServer None 1)
    (mkTime 5 (Some 1%Z)) (mkTime 6 (Some 2%Z))) as (_ & _ & (st & v & Ho & _ & _ & _ & Hc) & _).
  - apply (bool_decide_unpack _). vm_compute. exact Logic.I.
  - rewrite Hpods. by left.
  - reflexivity.
  - reflexivity.
  - done.
  - by intros st v.
  - fold r1 in Ho. change (object (mkServer None 1)) with (@None (ManagerStateStatus * nat)) in Ho. fold r1 in Ho. fold r2 in Ho.
    rewrite Ho. exact Hc.
Defined.
