(* ===== verification/ShardRegistry.v ===== *)
(** * Connections of the sharding server

    src/pkg/manager/controllers/shardingconfigserver/grpc_server.go and
    event_handler.go: the streams of the proxies, the connection objects they
    share with the reconciler through pointers, the expectations, and the
    events that wake the reconciler.  The reconciler runs concurrently: its
    accesses to the shared maps are steps of their own. *)

From S2P Require Import Prelude GoStrings Selector Sharding ShardingReconcile ShardServer.

(** ** Registration ([Register], up to the loop) *)

Record SelfInfo_ := mkSelfInfo { si_Namespace : string; si_Name : string }.
(** The first message of a stream. *)
Record FirstStatus := mkFirst { fs_SelfInfo : option SelfInfo_; fs_Status : ProxyStatus }.

Inductive code := Aborted | InvalidArgument | NotFoundCode | Internal | Canceled.

(** The pod and shard a stream registers for, or the status it is refused
    with.  [getPod] is the cached reader. *)
Definition admit_stream (received : option FirstStatus) (getPod : string → string → Pod + ApiError)
    : (Pod * string * (string * string)) + code :=
  match received with
  | None => inr Aborted
  | Some first =>
      match fs_SelfInfo first with
      | None => inr InvalidArgument
      | Some si =>
          if decide (si_Namespace si = EmptyString ∨ si_Name si = EmptyString) then inr InvalidArgument else
          match getPod (si_Namespace si) (si_Name si) with
          | inr NotFound => inr NotFoundCode
          | inr _ => inr Internal
          | inl pod =>
              if negb (IsPodActive pod) then inr Canceled else
              let shardName := default EmptyString (p_Labels pod !! ShardingConfigInjectedKey) in
              if decide (shardName = EmptyString) then inr InvalidArgument
              else inl (pod, shardName, (si_Namespace si, shardName))
          end
      end
  end.

(** ** The shared state *)

Abbreviation ptr := nat.
(** A connection object, with the pod it was made for and the shard its events
    name. *)
Record conn_obj := mkObj { co_conn : grpcSrvConnection; co_uid : string; co_shard : string * string }.
Record registry := mkRegistry {
  rg_heap : gmap ptr conn_obj;
  rg_open : gset ptr;                       (* streams whose handler has not ended *)
  rg_cached : gmap string ptr;              (* cachedGrpcSrvConnection *)
  rg_expect : gmap string string;           (* podHashExpectation *)
  rg_deleting : gset string;                (* podDeletionExpectation *)
  rg_triggers : list (string * string);     (* grpcRecvTriggerChannel *)
}.
Definition registry0 : registry := mkRegistry ∅ ∅ ∅ ∅ ∅ [].

Definition set_conn (f : grpcSrvConnection → grpcSrvConnection) (l : ptr) (r : registry) : registry :=
  mkRegistry (alter (λ o, mkObj (f (co_conn o)) (co_uid o) (co_shard o)) l (rg_heap r))
    (rg_open r) (rg_cached r) (rg_expect r) (rg_deleting r) (rg_triggers r).
Definition set_expect (m : gmap string string) (r : registry) : registry :=
  mkRegistry (rg_heap r) (rg_open r) (rg_cached r) m (rg_deleting r) (rg_triggers r).
Definition trigger (ev : string * string) (r : registry) : registry :=
  mkRegistry (rg_heap r) (rg_open r) (rg_cached r) (rg_expect r) (rg_deleting r) (rg_triggers r ++ [ev]).

(** A stream has been admitted: the new connection object replaces the cached
    one, the expectation goes, the reconciler is woken. *)
Definition do_register (l : ptr) (uid : string) (shard : string * string) (st : ProxyStatus) (r : registry) : registry :=
  trigger shard
    (mkRegistry (<[l := mkObj (mkConn st 0 false) uid shard]> (rg_heap r)) ({[l]} ∪ rg_open r)
       (<[uid := l]> (rg_cached r)) (delete uid (rg_expect r)) (rg_deleting r) (rg_triggers r)).

(** The receiving loop: the whole status is replaced; a change wakes the
    reconciler. *)
Definition status_eqb (a b : ProxyStatus) : bool :=
  bool_decide ((λ m, (ExpectedHash m, CurrentHash m)) <$> MetaState a = (λ m, (ExpectedHash m, CurrentHash m)) <$> MetaState b)
  && bool_decide (LeaderElectionState a = LeaderElectionState b).
Definition do_receive (l : ptr) (st : ProxyStatus) (r : registry) : registry :=
  match rg_heap r !! l with
  | None => r
  | Some o =>
      let r' := set_conn (λ c, mkConn st (sendTimes c) (disconnected c)) l r in
      if status_eqb (conn_status (co_conn o)) st then r' else trigger (co_shard o) r'
  end.

(** The end of a stream's handler. *)
Definition do_close (l : ptr) (r : registry) : registry :=
  match rg_heap r !! l with
  | None => r
  | Some o =>
      let r := set_expect (delete (co_uid o) (rg_expect r)) r in
      let r := set_conn (λ c, mkConn (conn_status c) (sendTimes c) true) l r in
      let r := mkRegistry (rg_heap r) (rg_open r ∖ {[l]}) (rg_cached r) (rg_expect r) (rg_deleting r) (rg_triggers r) in
      trigger (co_shard o) r
  end.

(** The reconciler's accesses: [conn.send] through the pointer it has loaded,
    storing the expectation, and dropping a satisfied one. *)
Definition do_send (l : ptr) : registry → registry :=
  set_conn (λ c, mkConn (conn_status c) (sendTimes c + 1) (disconnected c)) l.
Definition do_expect (uid hash : string) (r : registry) : registry := set_expect (<[uid := hash]> (rg_expect r)) r.
Definition do_satisfy (uid : string) (r : registry) : registry := set_expect (delete uid (rg_expect r)) r.

(** ** Pod events (event_handler.go)

    [cfg] is what [getShardingConfigForPod] finds: nothing for an unlabelled
    pod, an error, or the configuration. *)

Definition shard_pod_Create (cfg : option (ShardingConfig + ApiError)) : list (string * string) :=
  match cfg with Some (inl c) => [(sc_Namespace c, sc_Name c)] | _ => [] end.
Definition shard_pod_Update (cfg : option (ShardingConfig + ApiError)) (oldPod newPod : Pod) : list (string * string) :=
  match cfg with
  | Some (inl c) =>
      let req := [(sc_Namespace c, sc_Name c)] in
      if decide (p_DeletionTimestamp newPod ≠ None) then
        if decide (p_DeletionTimestamp oldPod = None
                   ∨ length (getRunningContainers oldPod) ≠ length (getRunningContainers newPod))
        then req else []
      else if decide (p_Phase oldPod ≠ p_Phase newPod ∨ IsPodReady oldPod ≠ IsPodReady newPod) then req
      else []
  | _ => []
  end.
(** Without its configuration the pod's expectations stay. *)
Definition shard_pod_Delete (cfg : option (ShardingConfig + ApiError)) (uid : string) (r : registry)
    : list (string * string) * registry :=
  match cfg with
  | Some (inl c) =>
      ([(sc_Namespace c, sc_Name c)],
       mkRegistry (rg_heap r) (rg_open r) (rg_cached r) (delete uid (rg_expect r)) (rg_deleting r ∖ {[uid]}) (rg_triggers r))
  | _ => ([], r)
  end.

(** ** Steps

    Streams are independent; the reconciler may hold any pointer it has seen. *)

Inductive rstep : registry → registry → Prop :=
| step_register l uid shard st r :
    rg_heap r !! l = None → rstep r (do_register l uid shard st r)
| step_receive l st r : l ∈ rg_open r → rstep r (do_receive l st r)
| step_close l r : l ∈ rg_open r → rstep r (do_close l r)
| step_send l r : is_Some (rg_heap r !! l) → rstep r (do_send l r)
| step_expect uid hash r : rstep r (do_expect uid hash r)
| step_satisfy uid r : rstep r (do_satisfy uid r)
| step_pod_delete cfg uid r : rstep r (shard_pod_Delete cfg uid r).2.

(** What the reconciler sees of a pod: through the cached pointer. *)
Definition view (r : registry) (uid : string) : option grpcSrvConnection :=
  l ← rg_cached r !! uid; co_conn <$> rg_heap r !! l.
Definition as_server (r : registry) : server :=
  mkServer (rg_expect r) (rg_deleting r) (omap (λ l, co_conn <$> rg_heap r !! l) (rg_cached r)) [] 0.

(** ** Invariant *)

Record registry_wf (r : registry) : Prop := {
  rw_cached uid l : rg_cached r !! uid = Some l → ∃ o, rg_heap r !! l = Some o ∧ co_uid o = uid;
  rw_open l : l ∈ rg_open r → is_Some (rg_heap r !! l);
  rw_disconnected l o : rg_heap r !! l = Some o → disconnected (co_conn o) = true ↔ l ∉ rg_open r;
  rw_sends l o : rg_heap r !! l = Some o → (0 ≤ sendTimes (co_conn o))%Z;
}.

Lemma registry0_wf : registry_wf registry0.
Proof. split; simpl; intros *; rewrite ?lookup_empty; set_solver. Qed.

(** Updating a connection object keeps what the flag does not depend on. *)
Lemma set_conn_wf f l r :
  (∀ c, disconnected (f c) = disconnected c) → (∀ c, (0 ≤ sendTimes c)%Z → (0 ≤ sendTimes (f c))%Z) →
  registry_wf r → registry_wf (set_conn f l r).
Proof.
  intros Hd Hs [Hc Ho Hf Hn]. split; simpl.
  - intros uid l' (o & Hl & Hu)%Hc. rewrite lookup_alter. case_decide; [subst|by exists o].
    rewrite Hl. simpl. by eexists.
  - intros l' [o Hl]%Ho. rewrite lookup_alter. case_decide; [subst|]; rewrite Hl; by eexists.
  - intros l' o. rewrite lookup_alter. case_decide; [subst|by apply Hf].
    intros (o' & Hl & ->)%fmap_Some. simpl. rewrite Hd. by apply Hf.
  - intros l' o. rewrite lookup_alter. case_decide; [subst|by apply Hn].
    intros (o' & Hl & ->)%fmap_Some. simpl. by eapply Hs, Hn.
Qed.

Lemma register_wf l uid shard st r :
  rg_heap r !! l = None → registry_wf r → registry_wf (do_register l uid shard st r).
Proof.
  intros Hl [Hc Ho Hf Hn]. split; simpl.
  - intros uid' l'. rewrite lookup_insert. case_decide; [subst; intros [= <-]|].
    + rewrite lookup_insert_eq. by eexists.
    + intros (o & Hl' & Hu)%Hc. rewrite lookup_insert_ne by congruence. by exists o.
  - intros l'. rewrite elem_of_union, elem_of_singleton. intros [->|Hin]; [rewrite lookup_insert_eq; by eexists|].
    destruct (Ho _ Hin) as [o Hl']. rewrite lookup_insert_ne by congruence. by exists o.
  - intros l' o. rewrite lookup_insert, not_elem_of_union, not_elem_of_singleton. case_decide; [subst|].
    + intros [= <-]. simpl. naive_solver.
    + intros Hl'. rewrite (Hf _ _ Hl'). split; [intros ?; split; congruence|by intros [_ ?]].
  - intros l' o. rewrite lookup_insert. case_decide; [intros [= <-]; simpl; lia|by apply Hn].
Qed.

Lemma close_wf l r : registry_wf r → registry_wf (do_close l r).
Proof.
  intros [Hc Ho Hf Hn]. unfold do_close. destruct (rg_heap r !! l) as [o|] eqn:Hl; [|by split].
  split; simpl.
  - intros uid l' (o' & Hl' & Hu)%Hc. rewrite lookup_alter. case_decide; [subst; rewrite Hl'; by eexists|by exists o'].
  - intros l' [Hin _]%elem_of_difference. destruct (Ho _ Hin) as [o' Hl'].
    rewrite lookup_alter. case_decide; [subst|]; rewrite Hl'; by eexists.
  - intros l' o'. rewrite lookup_alter, not_elem_of_difference, elem_of_singleton. case_decide; [subst|].
    + intros (o1 & Hl' & ->)%fmap_Some. simpl. naive_solver.
    + intros Hl'. rewrite (Hf _ _ Hl'). split; [by left|by intros [?|?]; [done|congruence]].
  - intros l' o'. rewrite lookup_alter. case_decide; [subst|by apply Hn].
    intros (o1 & Hl' & ->)%fmap_Some. simpl. by eapply Hn.
Qed.

Lemma receive_wf l st r : registry_wf r → registry_wf (do_receive l st r).
Proof.
  intros Hwf. unfold do_receive. destruct (rg_heap r !! l) as [o|]; [|done].
  assert (Hr : registry_wf (set_conn (λ c, mkConn st (sendTimes c) (disconnected c)) l r)) by (apply set_conn_wf; done).
  destruct (status_eqb _ _); [done|]. destruct Hr. by split.
Qed.

Lemma rstep_wf r r' : rstep r r' → registry_wf r → registry_wf r'.
Proof.
  intros [l uid shard st ? Hl|l st ? _|l ? _|l ? _|uid hash ?|uid ?|cfg uid ?] Hwf.
  - by apply register_wf.
  - by apply receive_wf.
  - by apply close_wf.
  - apply set_conn_wf; [done|simpl; lia|done].
  - destruct Hwf. by split.
  - destruct Hwf. by split.
  - unfold shard_pod_Delete. destruct cfg as [[c|]|]; [destruct Hwf; by split|done..].
Qed.

Definition rreachable : registry → Prop := rtc rstep registry0.

Lemma rreachable_wf r : rreachable r → registry_wf r.
Proof.
  unfold rreachable. assert (Hgen : ∀ a, rtc rstep a r → registry_wf a → registry_wf r).
  { induction 1; [done|]. eauto using rstep_wf. }
  intros Hr. by apply (Hgen _ Hr), registry0_wf.
Qed.

(** In every reachable interleaving of streams, reconciler and pod events:
    a cached pointer leads to a connection object of that pod, the handlers
    that are still running have objects, and an object is marked disconnected
    exactly when its handler has ended. *)
Theorem registry_reachable_wf r : rreachable r → registry_wf r.
Proof. apply rreachable_wf. Qed.

(** ** Waking the reconciler *)

Lemma status_eqb_eq a b : status_eqb a b = true ↔ a = b.
Proof.
  unfold status_eqb. rewrite andb_true_iff, !bool_decide_eq_true. split; [|by intros ->].
  destruct a as [[[e c]|] la], b as [[[e' c']|] lb]; simpl; intros [Hm Hl]; simplify_eq/=; done.
Qed.

(** What of a connection decides a round, apart from [sendTimes], which only
    the reconciler changes. *)
Definition visible (r : registry) (uid : string) : option (ProxyStatus * bool) :=
  (λ c, (conn_status c, disconnected c)) <$> view r uid.

Lemma visible_lookup r uid :
  visible r uid = (l ← rg_cached r !! uid; o ← rg_heap r !! l; Some (conn_status (co_conn o), disconnected (co_conn o))).
Proof. unfold visible, view. destruct (rg_cached r !! uid) as [l|]; simpl; [|done]. by destruct (rg_heap r !! l). Qed.

(** The reconciler is woken for the pod's shard. *)
Definition woken (r r' : registry) (uid : string) : Prop :=
  ∃ l o, rg_cached r' !! uid = Some l ∧ rg_heap r' !! l = Some o ∧ rg_triggers r' = rg_triggers r ++ [co_shard o].

(** C30. No lost wake-up: whenever what the reconciler sees of a pod changes,
    its connection, the status it reports, or whether it is connected, an
    event for the shard of that connection has been queued by the same step. *)
Theorem no_lost_wakeup r r' uid :
  rreachable r → rstep r r' → visible r' uid ≠ visible r uid → woken r r' uid.
Proof.
  intros Hwf%rreachable_wf Hstep. unfold woken. rewrite !visible_lookup.
  destruct Hstep as [l uid' shard st r Hl|l st r Hin|l r Hin|l r Hin|uid' hash r|uid' r|cfg uid' r]; simpl.
  - destruct (decide (uid = uid')) as [->|Hne].
    + intros _. exists l. rewrite lookup_insert_eq. eexists. rewrite lookup_insert_eq. done.
    + rewrite lookup_insert_ne by done. destruct (rg_cached r !! uid) as [l'|] eqn:Hc; [|done]. simpl.
      destruct (rw_cached _ Hwf _ _ Hc) as (o & Ho & _). rewrite lookup_insert_ne by congruence. done.
  - unfold do_receive. destruct (rw_open _ Hwf _ Hin) as [o Ho]. rewrite Ho.
    destruct (status_eqb (conn_status (co_conn o)) st) eqn:Hs.
    + apply status_eqb_eq in Hs as <-. simpl. destruct (rg_cached r !! uid) as [l'|]; [|done]. simpl.
      rewrite lookup_alter. case_decide; [subst; by rewrite Ho|done].
    + simpl. destruct (rg_cached r !! uid) as [l'|] eqn:Hc; [|done]. simpl.
      destruct (decide (l = l')) as [<-|Hne].
      * intros _. exists l. rewrite lookup_alter_eq, Ho. simpl. by eexists.
      * rewrite lookup_alter_ne by done. done.
  - unfold do_close. destruct (rw_open _ Hwf _ Hin) as [o Ho]. rewrite Ho. simpl.
    destruct (rg_cached r !! uid) as [l'|] eqn:Hc; [|done]. simpl.
    destruct (decide (l = l')) as [<-|Hne].
    + intros _. exists l. rewrite lookup_alter_eq, Ho. simpl. by eexists.
    + rewrite lookup_alter_ne by done. done.
  - destruct (rg_cached r !! uid) as [l'|]; [|done]. simpl. rewrite lookup_alter.
    case_decide; [subst; by destruct (rg_heap r !! l')|done].
  - done.
  - done.
  - unfold shard_pod_Delete. by destruct cfg as [[c|]|].
Qed.

(** ** A send across a reconnection *)

(** A round stops at the pod: the proxy is connected, and it does not report
    the hash that is expected of it. *)
Definition blocked (r : registry) (uid hash : string) : Prop :=
  rg_expect r !! uid = Some hash ∧
  ∃ c, view r uid = Some c ∧ disconnected c = false ∧
    ∀ ms, MetaState (conn_status c) = Some ms → ExpectedHash ms ≠ hash.

Lemma as_server_conn r uid : cachedGrpcSrvConnection (as_server r) !! uid = view r uid.
Proof. simpl. unfold view. by rewrite lookup_omap. Qed.

Lemma blocked_stops r hash now pod :
  blocked r (p_UID pod) hash → IsPodActive pod = true → p_UID pod ∉ rg_deleting r →
  checkPod now (as_server r) pod = (Stop Done, as_server r).
Proof.
  intros (He & c & Hv & Hd & Hms) Ha Hdel. unfold checkPod. rewrite Ha. simpl negb. cbv iota.
  rewrite decide_False by done. rewrite as_server_conn, Hv, Hd. change (podHashExpectation (as_server r)) with (rg_expect r).
  rewrite He. destruct (MetaState (conn_status c)) as [ms|]; [|done]. rewrite decide_True; [done|].
  intros Heq. by apply (Hms ms).
Qed.

(** A send can be lost for good.  The reconciler sends the specification
    through the connection it has loaded, the proxy reconnects with a status
    that does not have the new hash yet, and only then the reconciler stores
    the expectation: the state is reachable, nothing was sent on the new
    stream, and every round stops at the pod. *)
Theorem send_race_blocks_pod uid (shard : string * string) (st1 st2 : ProxyStatus) hash :
  (∀ ms, MetaState st2 = Some ms → ExpectedHash ms ≠ hash) →
  ∃ r, rreachable r ∧ blocked r uid hash ∧ (∃ c, view r uid = Some c ∧ sendTimes c = 0%Z) ∧
    ∀ now pod, p_UID pod = uid → IsPodActive pod = true → (checkPod now (as_server r) pod).1 = Stop Done.
Proof.
  intros Hst. set (r1 := do_register 1 uid shard st1 registry0). set (r2 := do_send 1 r1).
  set (r3 := do_register 2 uid shard st2 r2). set (r4 := do_expect uid hash r3).
  assert (Hview : view r4 uid = Some (mkConn st2 0 false)).
  { unfold view. simpl. rewrite lookup_insert_eq. simpl. by rewrite lookup_insert_eq. }
  assert (Hb : blocked r4 uid hash).
  { split; [simpl; by rewrite lookup_insert_eq|]. by eexists. }
  exists r4. split_and!; [|done|by eexists|].
  - eapply rtc_l; [by apply (step_register 1 uid shard st1 registry0)|]. fold r1.
    eapply rtc_l; [apply (step_send 1 r1); by eexists|]. fold r2.
    eapply rtc_l; [apply (step_register 2 uid shard st2 r2)|]; [|fold r3].
    + simpl. rewrite lookup_alter_ne, lookup_insert_ne by done. apply lookup_empty.
    + eapply rtc_l; [apply (step_expect uid hash r3)|]. apply rtc_refl.
  - intros now pod <- Ha. rewrite (blocked_stops r4 hash now pod); [done|done|done|]. simpl. set_solver.
Qed.

(** The steps that do not concern the pod's expectation: streams of other pods
    opening and closing, messages other than one of its proxy with the hash,
    sends, other pods' expectations and deletions. *)
Inductive quiet (uid hash : string) : registry → registry → Prop :=
| quiet_register l uid' shard st r :
    rg_heap r !! l = None → uid' ≠ uid → quiet uid hash r (do_register l uid' shard st r)
| quiet_receive l st r :
    (∀ ms, rg_cached r !! uid = Some l → MetaState st = Some ms → ExpectedHash ms ≠ hash) →
    quiet uid hash r (do_receive l st r)
| quiet_close l r :
    (∀ o, rg_heap r !! l = Some o → co_uid o ≠ uid) → quiet uid hash r (do_close l r)
| quiet_send l r : quiet uid hash r (do_send l r)
| quiet_expect uid' h r : uid' ≠ uid → quiet uid hash r (do_expect uid' h r)
| quiet_satisfy uid' r : uid' ≠ uid → quiet uid hash r (do_satisfy uid' r)
| quiet_pod_delete cfg uid' r : uid' ≠ uid → quiet uid hash r (shard_pod_Delete cfg uid' r).2.

(** The cached object of the pod, which blocks it. *)
Definition blocking (r : registry) (uid hash : string) (l : ptr) (o : conn_obj) : Prop :=
  rg_cached r !! uid = Some l ∧ rg_heap r !! l = Some o ∧ disconnected (co_conn o) = false ∧
  ∀ ms, MetaState (conn_status (co_conn o)) = Some ms → ExpectedHash ms ≠ hash.

Lemma blocked_lookup r uid hash :
  blocked r uid hash ↔ rg_expect r !! uid = Some hash ∧ ∃ l o, blocking r uid hash l o.
Proof.
  unfold blocked, blocking, view. split; intros [He Hc]; (split; [done|]).
  - destruct Hc as (c & (l & Hl & (o & Ho & ->)%fmap_Some)%bind_Some & Hd & Hm). by exists l, o.
  - destruct Hc as (l & o & Hl & Ho & Hd & Hm). exists (co_conn o). split_and!; [|done..].
    rewrite Hl. simpl. by rewrite Ho.
Qed.

(** A change of a connection object that keeps it blocking. *)
Lemma set_conn_blocking f l r uid hash l0 o0 :
  blocking r uid hash l0 o0 →
  (l = l0 → disconnected (f (co_conn o0)) = false ∧
     ∀ ms, MetaState (conn_status (f (co_conn o0))) = Some ms → ExpectedHash ms ≠ hash) →
  ∃ o, blocking (set_conn f l r) uid hash l0 o.
Proof.
  intros (Hl & Ho & Hd & Hm) Hf. unfold blocking. simpl. rewrite lookup_alter. case_decide as Heq.
  - rewrite <-Heq in Ho. rewrite <-Heq, Ho. simpl. eexists. split_and!; [by rewrite Heq|done|by apply Hf..].
  - by exists o0.
Qed.

(** Nothing else unblocks it: a blocked pod stays blocked through every
    quiet step; only a message of its proxy with the hash, a stream of the pod
    opening or closing, its deletion, or the reconciler, which does not come
    past it, can end the blocking. *)
Theorem blocked_persists r r' uid hash :
  registry_wf r → quiet uid hash r r' → blocked r uid hash → blocked r' uid hash.
Proof.
  intros Hwf Hstep. rewrite !blocked_lookup. intros (He & l0 & o0 & Hb).
  destruct Hstep as [l uid' shard st r Hl Hne|l st r Hms|l r Hother|l r|uid' h r Hne|uid' r Hne|cfg uid' r Hne].
  - simpl. rewrite lookup_delete_ne by done. split; [done|]. exists l0, o0.
    destruct Hb as (Hl0 & Ho0 & Hd). unfold blocking. simpl. rewrite lookup_insert_ne by done.
    rewrite lookup_insert_ne by congruence. done.
  - unfold do_receive. destruct (rg_heap r !! l) as [o|] eqn:Ho; [|by eauto].
    destruct (set_conn_blocking (λ c, mkConn st (sendTimes c) (disconnected c)) l r uid hash l0 o0) as [o1 Hb1].
    + done.
    + intros ->. destruct Hb as (Hl0 & _ & Hd & _). split; [done|]. simpl. intros ms. by apply Hms.
    + by destruct (status_eqb _ _); (split; [|exists l0, o1]).
  - unfold do_close. destruct (rg_heap r !! l) as [o|] eqn:Ho; [|by eauto].
    pose proof (Hother _ eq_refl) as Hne. simpl. rewrite lookup_delete_ne by done. split; [done|].
    destruct Hb as (Hl0 & Ho0 & Hd). destruct (rw_cached _ Hwf _ _ Hl0) as (o' & Ho' & Hu).
    exists l0, o0. unfold blocking. simpl. rewrite lookup_alter_ne by congruence. done.
  - destruct (set_conn_blocking (λ c, mkConn (conn_status c) (sendTimes c + 1) (disconnected c)) l r uid hash l0 o0)
      as [o1 Hb1]; [done|intros _; apply Hb|]. split; [done|by exists l0, o1].
  - simpl. rewrite lookup_insert_ne by done. by eauto.
  - simpl. rewrite lookup_delete_ne by done. by eauto.
  - unfold shard_pod_Delete. destruct cfg as [[c|]|]; simpl; [rewrite lookup_delete_ne by done|..]; by eauto.
Qed.

(** A stream is admitted exactly for a named, known, active pod that carries a
    shard's name. *)
Lemma admit_stream_iff received getPod pod shard ev :
  admit_stream received getPod = inl (pod, shard, ev) ↔
  ∃ first si, received = Some first ∧ fs_SelfInfo first = Some si ∧
    si_Namespace si ≠ EmptyString ∧ si_Name si ≠ EmptyString ∧
    getPod (si_Namespace si) (si_Name si) = inl pod ∧ IsPodActive pod = true ∧
    p_Labels pod !! ShardingConfigInjectedKey = Some shard ∧ shard ≠ EmptyString ∧ ev = (si_Namespace si, shard).
Proof.
  unfold admit_stream. split.
  - destruct received as [first|]; [|done]. destruct (fs_SelfInfo first) as [si|] eqn:Hsi; [|done].
    case_decide as Hne; [done|]. destruct (getPod _ _) as [p|[]] eqn:Hp; [|done..].
    destruct (IsPodActive p) eqn:Ha; [|done]. simpl. case_decide as Hs; [done|]. intros [= <- <- <-].
    exists first, si. destruct (p_Labels p !! ShardingConfigInjectedKey) eqn:Hl; simpl in *; [|done].
    split_and!; try done; tauto.
  - intros (first & si & -> & -> & Hn1 & Hn2 & -> & -> & Hl & Hs & ->). rewrite Hl. simpl.
    rewrite decide_False by tauto. by rewrite decide_False.
Qed.

(** ** Concrete runs *)

Section witness.
Definition demo_status (h : string) : ProxyStatus := mkProxyStatus (Some (mkMetaState h h)) None.
Definition demo_registry : registry := do_register 1 "u" ("ns", "shard") (demo_status "h1") registry0.

Lemma demo_registry_reachable : rreachable demo_registry.
Proof. apply rtc_once. apply step_register. reflexivity. Qed.

Lemma registry_reachable_wf_witness : registry_wf demo_registry.
Proof. apply (registry_reachable_wf demo_registry), demo_registry_reachable. Defined.

Lemma no_lost_wakeup_witness : woken demo_registry (do_close 1 demo_registry) "u".
Proof.
  apply (no_lost_wakeup demo_registry (do_close 1 demo_registry) "u").
  - exact demo_registry_reachable.
  - apply step_close. simpl. set_solver.
  - vm_compute. discriminate.
Defined.

Lemma send_race_blocks_pod_witness :
  ∃ r, rreachable r ∧ blocked r "u" "h2" ∧ (∃ c, view r "u" = Some c ∧ sendTimes c = 0%Z) ∧
    ∀ now pod, p_UID pod = "u" → IsPodActive pod = true → (checkPod now (as_server r) pod).1 = Stop Done.
Proof.
  apply (send_race_blocks_pod "u" ("ns", "shard") (demo_status "h1") (demo_status "h1") "h2").
  intros ms [= <-]. discriminate.
Defined.

Definition demo_blocked : registry := do_expect "u" "h2" demo_registry.

Lemma blocked_persists_witness : blocked (do_receive 1 (demo_status "h3") demo_blocked) "u" "h2".
Proof.
  apply (blocked_persists demo_blocked).
  - assert (Hr : rreachable demo_blocked).
    { eapply rtc_r; [exact demo_registry_reachable|]. apply step_expect. }
    by apply rreachable_wf.
  - apply quiet_receive. intros ms _ [= <-]. discriminate.
  - split; [reflexivity|]. eexists. split; [reflexivity|]. split; [reflexivity|]. intros ms [= <-]. discriminate.
Defined.
End witness.
