(* ===== verification/SpecManager.v ===== *)
(** * The proxy's specification manager

    src/pkg/proxy/proto/proto_manager.go, strorage.go and the receiving side of
    grpc.go: loading the specification a shard is given, refusing another one
    for the life of the process, reporting the two hashes, and persisting
    specifications across restarts. *)

From S2P Require Import Prelude GoStrings Selector Sharding ShardingReconcile ShardServer.

(** ** Storage

    The two files are opened for reading and writing without truncation; once
    their content has been read, every write appends.  A file is the list of
    the messages written to it: protobuf decodes a concatenation of encodings
    to the merge of the messages, which overrides non-empty scalar fields,
    merges embedded messages and concatenates repeated fields. *)

Record storage := mkStorage {
  expectedSpecFile : list ProxySpec; currentSpecFile : list ProxySpec;
  mockFailure : bool; (* the test file that blocks writing exists *)
}.

Definition override (a b : string) : string := if decide (b = EmptyString) then a else b.
Definition mergeMeta (a b : SpecMeta) : SpecMeta :=
  mkSpecMeta (override (sm_ShardName a) (sm_ShardName b)) (override (sm_Hash a) (sm_Hash b)).
Definition mergeSpec (a b : ProxySpec) : ProxySpec :=
  mkProxySpec (mergeMeta (ps_Meta a) (ps_Meta b)) (ps_Limits a ++ ps_Limits b).

(** Decoding a whole file; an empty one holds no message. *)
Definition Unmarshal (file : list ProxySpec) : option ProxySpec :=
  match file with [] => None | m :: ms => Some (fold_left mergeSpec ms m) end.

Definition loadData (s : storage) : option ProxySpec * option ProxySpec :=
  (Unmarshal (expectedSpecFile s), Unmarshal (currentSpecFile s)).

Definition writeExpectedSpec (spec : ProxySpec) (s : storage) : result storage :=
  if mockFailure s then Err "mock failure"
  else Ok (mkStorage (expectedSpecFile s ++ [spec]) (currentSpecFile s) (mockFailure s)).
Definition writeCurrentSpec (spec : ProxySpec) (s : storage) : result storage :=
  if mockFailure s then Err "mock failure"
  else Ok (mkStorage (expectedSpecFile s) (currentSpecFile s ++ [spec]) (mockFailure s)).

(** ** The manager *)

(** [leaderElectionState] is a pointer to a message.  [reports] counts the
    triggers sent to the report channel. *)
Record SpecManager := mkSpecManager {
  sm_storage : storage;
  expectedSpec : option ProxySpec;
  currentSpec : option ProxySpec;
  unloadReason : string;
  leaderElectionState : option LeaderState;
  reports : nat;
}.

Definition checkLoadable (m : SpecManager) : outcome (option string) :=
  match currentSpec m with
  | None => Returns None
  | Some cur =>
      exp ← deref (expectedSpec m);
      if decide (sm_ShardName (ps_Meta cur) ≠ sm_ShardName (ps_Meta exp)) then
        Returns (Some ("ShardingConfig changed from " +:+ sm_ShardName (ps_Meta cur) +:+ " to " +:+
                       sm_ShardName (ps_Meta exp)))
      else if decide (sm_Hash (ps_Meta cur) ≠ sm_Hash (ps_Meta exp)) then
        Returns (Some ("SpecHase changed from " +:+ sm_Hash (ps_Meta cur) +:+ " to " +:+ sm_Hash (ps_Meta exp)))
      else Returns None
  end.

(** A failed write panics. *)
Definition must (r : result storage) : outcome storage :=
  match r with Ok s => Returns s | Err _ => Panics end.

Definition UpdateSpec (spec : ProxySpec) (m : SpecManager) : outcome SpecManager :=
  st ← must (writeExpectedSpec spec (sm_storage m));
  let m := mkSpecManager st (Some spec) (currentSpec m) (unloadReason m) (leaderElectionState m) (reports m) in
  err ← checkLoadable m;
  match err with
  | Some e => Returns (mkSpecManager st (expectedSpec m) (currentSpec m) e (leaderElectionState m) (reports m))
  | None =>
      st ← must (writeCurrentSpec spec st);
      Returns (mkSpecManager st (expectedSpec m) (expectedSpec m) (unloadReason m) (leaderElectionState m) (reports m))
  end.

Definition newSpecManager (s : storage) : outcome SpecManager :=
  let '(exp, cur) := loadData s in
  let m := mkSpecManager s None cur EmptyString None 0 in
  match exp with
  | Some spec => UpdateSpec spec m
  | None => Returns m
  end.

Definition UpdateLeaderElection (le : option LeaderState) (m : SpecManager) : SpecManager :=
  mkSpecManager (sm_storage m) (expectedSpec m) (currentSpec m) (unloadReason m) le
    (if decide (leaderElectionState m ≠ le) then S (reports m) else reports m).

(** [None] is the nil status. *)
Definition GetStatus (m : SpecManager) : outcome (option ProxyStatus * string) :=
  match currentSpec m with
  | None => Returns (None, EmptyString)
  | Some cur =>
      exp ← deref (expectedSpec m);
      Returns (Some (mkProxyStatus (Some (mkMetaState (sm_Hash (ps_Meta exp)) (sm_Hash (ps_Meta cur))))
                       (leaderElectionState m)), unloadReason m)
  end.

(** ** Receiving *)

(** A received message; [None] is a nil message, and so is a nil [Meta]. *)
Record SpecMsg := mkSpecMsg { msg_Meta : option SpecMeta; msg_Limits : list LimitMsg }.

(** [recv]: messages without meta or limits are only logged. *)
Definition recv (msg : option SpecMsg) (m : SpecManager) : outcome SpecManager :=
  match msg with
  | Some (mkSpecMsg (Some meta) ((_ :: _) as limits)) => UpdateSpec (mkProxySpec meta limits) m
  | _ => Returns m
  end.

(** [limitsChanged] of grpc.go, on decidable messages. *)
#[export] Instance APIGroupResource_eq_dec : EqDecision APIGroupResource.
Proof. solve_decision. Defined.
#[export] Instance LimitMsg_eq_dec : EqDecision LimitMsg.
Proof. solve_decision. Defined.
#[export] Instance SpecMeta_eq_dec : EqDecision SpecMeta.
Proof. solve_decision. Defined.
#[export] Instance ProxySpec_eq_dec : EqDecision ProxySpec.
Proof. solve_decision. Defined.

Fixpoint limitsChanged (old new : list LimitMsg) : bool :=
  match old, new with
  | [], [] => true
  | o :: old', n :: new' => if decide (o ≠ n) then false else limitsChanged old' new'
  | _, _ => false
  end.

(** The sending side: the status to send, and what the previous one is then. *)
#[export] Instance MetaState_eq_dec : EqDecision MetaState_.
Proof. solve_decision. Defined.
#[export] Instance ProxyStatus_eq_dec : EqDecision ProxyStatus.
Proof. solve_decision. Defined.
Definition send (prevStatus : option (ProxyStatus * string)) (m : SpecManager)
    : outcome (option (ProxyStatus * string)) :=
  '(st, reason) ← GetStatus m;
  match st with
  | None => Returns None
  | Some st => if decide (prevStatus = Some (st, reason)) then Returns None else Returns (Some (st, reason))
  end.

(** ** Runs of a process *)

Inductive spec_step : SpecManager → SpecManager → Prop :=
| ss_recv msg m m' : recv msg m = Returns m' → spec_step m m'
| ss_leader le m : spec_step m (UpdateLeaderElection le m).

(** What a process can rely on: a loaded specification comes with an expected
    one, and what is on disk decodes to a loaded one only if the expected file
    has something as well. *)
Record spec_wf (m : SpecManager) : Prop := {
  sw_expected : is_Some (currentSpec m) → is_Some (expectedSpec m);
  sw_files : currentSpecFile (sm_storage m) ≠ [] → expectedSpecFile (sm_storage m) ≠ [];
}.

Definition loadable (cur : option ProxySpec) (spec : ProxySpec) : Prop :=
  ∀ c, cur = Some c → ps_Meta c = ps_Meta spec.

Lemma UpdateSpec_spec spec m :
  mockFailure (sm_storage m) = false →
  ∃ m', UpdateSpec spec m = Returns m' ∧ spec_wf m' ∧ mockFailure (sm_storage m') = false ∧
    expectedSpec m' = Some spec ∧ leaderElectionState m' = leaderElectionState m ∧
    expectedSpecFile (sm_storage m') = expectedSpecFile (sm_storage m) ++ [spec] ∧
    ((loadable (currentSpec m) spec ∧ currentSpec m' = Some spec ∧
      currentSpecFile (sm_storage m') = currentSpecFile (sm_storage m) ++ [spec]) ∨
     (¬ loadable (currentSpec m) spec ∧ currentSpec m' = currentSpec m ∧ is_Some (currentSpec m) ∧
      unloadReason m' ≠ EmptyString ∧
      currentSpecFile (sm_storage m') = currentSpecFile (sm_storage m))).
Proof.
  intros Hm. unfold UpdateSpec, writeExpectedSpec, writeCurrentSpec. rewrite Hm. simpl.
  assert (Hf : ∀ cf : list ProxySpec, cf ≠ [] → expectedSpecFile (sm_storage m) ++ [spec] ≠ []).
  { intros cf _ Hn. by apply app_eq_nil in Hn as [_ ?]. }
  unfold checkLoadable, loadable. simpl. destruct (currentSpec m) as [cur|]; simpl.
  2:{ eexists. split; [done|]. simpl. split_and!; try done; [split; simpl; [by eexists|by apply Hf]|].
      left. split; [|done]. intros c Hc. done. }
  destruct (ps_Meta cur) as [sn h] eqn:Hcur, (ps_Meta spec) as [sn' h'] eqn:Hspec. simpl.
  case_decide as Hd1; [|case_decide as Hd2]; simpl; (eexists; split; [done|]); simpl;
    (split; [split; simpl; [by eexists|by apply Hf]|]); split_and!; try done.
  - right. split_and!; [|done|by eexists| |done].
    + intros Hall. specialize (Hall cur eq_refl). congruence.
    + done.
  - right. split_and!; [|done|by eexists| |done].
    + intros Hall. specialize (Hall cur eq_refl). congruence.
    + done.
  - left. split_and!; try done. intros c [= <-]. rewrite Hcur. congruence.
Qed.

(** C38. A process keeps the first specification it loads: over any sequence
    of received messages and leader changes that does not fail to write, once
    a specification is loaded the meta (shard name and hash) of the loaded
    specification never changes, whatever the manager sends. *)
Theorem loaded_spec_is_sticky m m' c :
  mockFailure (sm_storage m) = false → rtc spec_step m m' → currentSpec m = Some c →
  ∃ c', currentSpec m' = Some c' ∧ ps_Meta c' = ps_Meta c.
Proof.
  intros Hm Hr. revert Hm c. induction Hr as [m|m m1 m2 Hs Hr IH]; intros Hm c Hc; [by exists c|].
  destruct Hs as [msg m m1 Hrecv|le m]; [|by apply IH].
  unfold recv in Hrecv. destruct msg as [[[meta|] [|l ls]]|]; simplify_eq; try by apply IH.
  destruct (UpdateSpec_spec (mkProxySpec meta (l :: ls)) m Hm) as (m1' & Hu & _ & Hm1 & _ & _ & _ & Hcase).
  rewrite Hu in Hrecv. injection Hrecv as ->. destruct Hcase as [(Hl & Hcur & _)|(_ & Hcur & _)].
  - destruct (IH Hm1 _ Hcur) as (c' & ? & Heq). exists c'. split; [done|]. rewrite Heq. symmetry. by apply Hl.
  - apply IH; [done|by rewrite Hcur].
Qed.

(** Server and proxy agree on what a status means: after a proxy that runs
    nothing yet, or something else, receives the shard's specification with a
    new hash, the server's classification of the status it then reports is
    "nothing to do" when the proxy had not loaded anything before, and
    "delete the pod" (leaders apart) when it had loaded another hash. *)
Theorem update_then_classify spec m :
  mockFailure (sm_storage m) = false →
  ∃ m' st reason, UpdateSpec spec m = Returns m' ∧ GetStatus m' = Returns (Some st, reason) ∧
    ∀ pod, classify spec (mkSyncPod pod true st) =
      match currentSpec m with
      | None => NeedNothing
      | Some c =>
          if decide (sm_Hash (ps_Meta c) = sm_Hash (ps_Meta spec)) then NeedNothing
          else if (from_option le_IsLeader false (leaderElectionState m) : bool) then NeedDeleteLeader else NeedDeleteOther
      end.
Proof.
  intros Hm. destruct (UpdateSpec_spec spec m Hm) as (m' & Hu & Hwf & _ & He & Hle & _ & Hcase).
  assert (Hst : ∀ cur, currentSpec m' = Some cur → GetStatus m' =
    Returns (Some (mkProxyStatus (Some (mkMetaState (sm_Hash (ps_Meta spec)) (sm_Hash (ps_Meta cur))))
                     (leaderElectionState m)), unloadReason m')).
  { intros cur Hcur. unfold GetStatus. by rewrite Hcur, He, Hle. }
  destruct Hcase as [(Hl & Hcur & _)|(Hl & Hcur & [c Hc] & _)].
  - eexists m', _, _. split; [done|]. split; [by apply Hst|]. intros pod. unfold classify. simpl.
    rewrite decide_False by auto. rewrite decide_False by auto. simpl.
    destruct (currentSpec m) as [c|]; [|done]. by rewrite (Hl c eq_refl), decide_True.
  - rewrite Hc in Hcur. eexists m', _, _. split; [done|]. split; [by apply Hst|]. intros pod.
    unfold classify. simpl. rewrite Hc. destruct (decide (sm_Hash (ps_Meta c) = sm_Hash (ps_Meta spec))) as [Heq|Hne].
    + rewrite Heq, decide_False by auto. by rewrite decide_False by auto.
    + by rewrite decide_True by congruence.
Qed.

Lemma Unmarshal_limits file spec :
  Unmarshal file = Some spec → ps_Limits spec = file ≫= ps_Limits.
Proof.
  destruct file as [|m ms]; [done|]. simpl. intros [= <-]. revert m.
  induction ms as [|x ms IH]; intros m; simpl; [by rewrite app_nil_r|].
  rewrite IH. simpl. by rewrite app_assoc.
Qed.

(** The limits a restart would find. *)
Definition stored_limits (s : storage) : list LimitMsg := expectedSpecFile s ≫= ps_Limits.

(** Every restart doubles the stored specification: the files are appended
    to, and what a restarted process decodes from the expected file, the
    merge of everything in it, is written to it again, so the stored limits
    double in number at every start. *)
Theorem restart_doubles s :
  mockFailure s = false → expectedSpecFile s ≠ [] →
  ∃ m, newSpecManager s = Returns m ∧
    stored_limits (sm_storage m) = stored_limits s ++ stored_limits s ∧
    (∃ spec, expectedSpec m = Some spec ∧ ps_Limits spec = stored_limits s).
Proof.
  intros Hm Hne. unfold newSpecManager, loadData.
  destruct (Unmarshal (expectedSpecFile s)) as [spec|] eqn:Hu.
  2:{ by destruct (expectedSpecFile s). }
  pose proof (Unmarshal_limits _ _ Hu) as Hl.
  destruct (UpdateSpec_spec spec (mkSpecManager s None (Unmarshal (currentSpecFile s)) EmptyString None 0) Hm)
    as (m' & -> & _ & _ & He & _ & Hf & _).
  exists m'. split; [done|]. simpl in Hf. unfold stored_limits. rewrite Hf, bind_app. simpl.
  rewrite app_nil_r, Hl. split; [done|]. by exists spec.
Qed.

(** A renamed shard with the same limits goes unnoticed: the proxy refuses
    to load the specification but reports equal hashes, so the server sees
    nothing to do while the proxy keeps the old shard's specification. *)
Theorem rename_not_reported m c spec :
  mockFailure (sm_storage m) = false → currentSpec m = Some c →
  sm_Hash (ps_Meta c) = sm_Hash (ps_Meta spec) → sm_ShardName (ps_Meta c) ≠ sm_ShardName (ps_Meta spec) →
  ∃ m' st reason, UpdateSpec spec m = Returns m' ∧ currentSpec m' = Some c ∧
    GetStatus m' = Returns (Some st, reason) ∧ reason ≠ EmptyString ∧
    ∀ pod, classify spec (mkSyncPod pod true st) = NeedNothing.
Proof.
  intros Hm Hc Hh Hn. destruct (UpdateSpec_spec spec m Hm) as (m' & Hu & _ & _ & He & Hle & _ & Hcase).
  destruct Hcase as [(Hl & _)|(_ & Hcur & _ & Hr & _)].
  { pose proof (Hl c Hc). congruence. }
  rewrite Hc in Hcur. eexists m', _, _. split; [done|]. split; [done|]. unfold GetStatus.
  rewrite Hcur, He. split; [done|]. split; [done|]. intros pod. unfold classify. simpl.
  rewrite decide_False by auto. by rewrite decide_False by auto.
Qed.

(** ** Concrete runs *)

Definition demo_limit : LimitMsg := mkLimitMsg [] "null".
Definition demo_spec (shard hash : string) : ProxySpec := mkProxySpec (mkSpecMeta shard hash) [demo_limit].
Definition demo_spec_manager (cur : option ProxySpec) : SpecManager :=
  mkSpecManager (mkStorage [] [] false) cur cur EmptyString None 0.

Lemma loaded_spec_is_sticky_witness :
  ∃ m', UpdateSpec (demo_spec "s" "h2") (demo_spec_manager (Some (demo_spec "s" "h1"))) = Returns m' ∧
    ∃ c', currentSpec m' = Some c' ∧ ps_Meta c' = mkSpecMeta "s" "h1".
Proof.
  eexists. split; [reflexivity|].
  apply (loaded_spec_is_sticky (demo_spec_manager (Some (demo_spec "s" "h1"))) _ (demo_spec "s" "h1"));
    [reflexivity| |reflexivity].
  apply rtc_once. apply (ss_recv (Some (mkSpecMsg (Some (mkSpecMeta "s" "h2")) [demo_limit]))). reflexivity.
Defined.

Lemma update_then_classify_witness :
  ∃ m' st reason, UpdateSpec (demo_spec "s" "h2") (demo_spec_manager (Some (demo_spec "s" "h1"))) = Returns m' ∧
    GetStatus m' = Returns (Some st, reason).
Proof.
  destruct (update_then_classify (demo_spec "s" "h2") (demo_spec_manager (Some (demo_spec "s" "h1"))))
    as (m' & st & reason & Hu & Hst & _); [reflexivity|]. exists m', st, reason. split; [exact Hu|exact Hst].
Defined.

Lemma restart_doubles_witness :
  ∃ m, newSpecManager (mkStorage [demo_spec "s" "h1"] [demo_spec "s" "h1"] false) = Returns m ∧
    stored_limits (sm_storage m) = [demo_limit; demo_limit].
Proof.
  destruct (restart_doubles (mkStorage [demo_spec "s" "h1"] [demo_spec "s" "h1"] false))
    as (m & Hm & Hl & _); [reflexivity|done|]. exists m. split; [exact Hm|exact Hl].
Defined.

Lemma rename_not_reported_witness :
  ∃ m' st reason, UpdateSpec (demo_spec "s2" "h1") (demo_spec_manager (Some (demo_spec "s" "h1"))) = Returns m' ∧
    currentSpec m' = Some (demo_spec "s" "h1") ∧ GetStatus m' = Returns (Some st, reason).
Proof.
  destruct (rename_not_reported (demo_spec_manager (Some (demo_spec "s" "h1"))) (demo_spec "s" "h1") (demo_spec "s2" "h1"))
    as (m' & st & reason & Hu & Hc & Hst & _); [reflexivity|reflexivity|reflexivity|done|].
  exists m', st, reason. split; [exact Hu|]. split; [exact Hc|exact Hst].
Defined.
