(* ===== verification/ShardRound.v ===== *)
(** * A whole round of the sharding server

    [Reconcile] of
    src/pkg/manager/controllers/shardingconfigserver/shardingconfig_controller.go:
    the fetched configuration, its generation when it is a root, the clean-up
    of the namespace, the listing of the shard's pods and the round over them;
    the pod events of event_handler.go that wake it; and two rounds together with the proxies of [SpecManager] that answer. *)

From stdpp Require Import sorting.
From S2P Require Import Prelude GoStrings Selector Sharding ShardingReconcile ShardServer ShardRegistry SpecManager.

(** ** The round *)

(** The names of a namespace's pods differ, so that stability of the sort does
    not matter. *)
Definition pods_by_name (a b : Pod) : Prop := Is_true (String.leb (p_Name a) (p_Name b)).
#[export] Instance pods_by_name_dec a b : Decision (pods_by_name a b).
Proof. unfold pods_by_name. apply _. Defined.

(** The server's shared state, the namespace, and the configurations a root
    works on. *)
Record world := mkWorld { w_server : server; w_cluster : cluster; w_api : api }.

Section round.
Context `{ApiServer} `{Hashes} `{Dumps} `{Faults} `{AsSelector}.

Definition getPodsForShardingConfig (cfg : ShardingConfig) (c : cluster) : (list Pod + ApiError) * cluster :=
  (match api_fails (cl_calls c) with
   | Some e => inr e
   | None => inl (merge_sort pods_by_name
       (filter (λ p, p_Labels p !! ShardingConfigInjectedKey = Some (sc_Name cfg)) (cl_pods c)))
   end, tick c).

(** What a round's deletions do to the pods. *)
Definition deleted_in (es : list effect) (p : Pod) : bool :=
  existsb (λ e, match e with DeletePod name true => bool_decide (name = p_Name p) | _ => false end) es.
Definition settle (es : list effect) (c : cluster) : cluster :=
  mkCluster ((λ p, if deleted_in es p then mark_deleted p else p) <$> cl_pods c) (cl_configs c) (cl_calls c).

(** [fetched] is the answer to the first [Get].  A result of the round, or an
    error of the API server. *)
Definition Reconcile (now : Z) (fetched : ShardingConfig + ApiError) (w : world)
    : outcome ((reconcile_result + ApiError) * world) :=
  match fetched with
  | inr NotFound => Returns (inl Done, w)
  | inr e => Returns (inr e, w)
  | inl shardingConfig =>
      if decide (is_Some (sc_Root shardingConfig)) then
        '(x, a) ← AutoSharding shardingConfig (w_api w);
        Returns (match x with inl _ => inl Done | inr e => inr e end, mkWorld (w_server w) (w_cluster w) a)
      else
        '(err, c) ← clearOldPods (w_cluster w);
        match err with
        | Some e => Returns (inr e, mkWorld (w_server w) c (w_api w))
        | None =>
            match getPodsForShardingConfig shardingConfig c with
            | (inr e, c) => Returns (inr e, mkWorld (w_server w) c (w_api w))
            | (inl allPods, c) =>
                let '(r, s) := reconcilePods shardingConfig now allPods (w_server w) in
                let es := drop (length (effects (w_server w))) (effects s) in
                Returns (inl r, mkWorld s (settle es c) (w_api w))
            end
        end
  end.

(** ** Pod events *)

Inductive pod_event := PodCreated (pod : Pod) | PodUpdated (oldPod newPod : Pod) | PodDeleted (pod : Pod) | PodGeneric (pod : Pod).

Definition getShardingConfigForPod (reader : string → string → ShardingConfig + ApiError) (namespace : string) (pod : Pod)
    : option (ShardingConfig + ApiError) :=
  let name := default EmptyString (p_Labels pod !! ShardingConfigInjectedKey) in
  if decide (name = EmptyString) then None else Some (reader namespace name).

(** The requests a pod event enqueues, and what it does to the shared maps. *)
Definition podEventHandler (reader : string → string → ShardingConfig + ApiError) (namespace : string) (e : pod_event)
    (r : registry) : list (string * string) * registry :=
  match e with
  | PodCreated pod => (shard_pod_Create (getShardingConfigForPod reader namespace pod), r)
  | PodUpdated oldPod newPod => (shard_pod_Update (getShardingConfigForPod reader namespace newPod) oldPod newPod, r)
  | PodDeleted pod => shard_pod_Delete (getShardingConfigForPod reader namespace pod) (p_UID pod) r
  | PodGeneric pod => ([], r)
  end.
Definition event_pod (e : pod_event) : Pod :=
  match e with PodCreated pod | PodUpdated _ pod | PodDeleted pod | PodGeneric pod => pod end.

(** An event wakes the round of the pod's own shard and no other. *)
Lemma podEventHandler_own reader namespace e r req :
  (∀ ns n c, reader ns n = inl c → sc_Namespace c = ns ∧ sc_Name c = n) →
  req ∈ (podEventHandler reader namespace e r).1 →
  p_Labels (event_pod e) !! ShardingConfigInjectedKey = Some req.2 ∧ req.1 = namespace ∧ req.2 ≠ EmptyString.
Proof.
  intros Hreader. assert (Hcfg : ∀ pod c, getShardingConfigForPod reader namespace pod = Some (inl c) →
    p_Labels pod !! ShardingConfigInjectedKey = Some (sc_Name c) ∧ sc_Namespace c = namespace ∧ sc_Name c ≠ EmptyString).
  { intros pod c. unfold getShardingConfigForPod. case_decide as Hn; [done|]. intros [= Hr].
    destruct (Hreader _ _ _ Hr) as [-> ->]. by destruct (p_Labels pod !! ShardingConfigInjectedKey). }
  destruct e as [pod|old new|pod|pod]; simpl; [| | |by intros []%not_elem_of_nil];
    destruct (getShardingConfigForPod reader namespace _) as [[c|]|] eqn:Hc; simpl; try (by intros []%not_elem_of_nil);
    apply Hcfg in Hc as (? & ? & ?).
  - by intros ->%list_elem_of_singleton.
  - repeat case_decide; try (by intros []%not_elem_of_nil); by intros ->%list_elem_of_singleton.
  - by intros ->%list_elem_of_singleton.
Qed.

(** ** The proxies answer *)

(** A specification that was sent arrives at the pod's proxy, which reports
    the status it has then; a proxy without a status is silent. *)
Definition deliver1 (x : gmap string SpecManager * server) (e : effect) : outcome (gmap string SpecManager * server) :=
  let '(proxies, s) := x in
  match e with
  | SendSpec uid spec true =>
      match proxies !! uid with
      | None => Returns (proxies, s)
      | Some m =>
          m' ← recv (Some (mkSpecMsg (Some (ps_Meta spec)) (ps_Limits spec))) m;
          '(st, _) ← GetStatus m';
          Returns (<[uid := m']> proxies,
            match st with
            | None => s
            | Some st =>
                mkServer (podHashExpectation s) (podDeletionExpectation s)
                  (alter (λ c, mkConn st (sendTimes c) (disconnected c)) uid (cachedGrpcSrvConnection s))
                  (effects s) (attempts s)
            end)
      end
  | _ => Returns (proxies, s)
  end.
Definition deliver (es : list effect) (proxies : gmap string SpecManager) (s : server) :=
  foldM deliver1 (proxies, s) es.

(** ** Rounds over pods whose proxies are connected *)

Definition sync_of (s : server) (p : Pod) : option syncPod :=
  (λ c, mkSyncPod p (Z.ltb 0 (sendTimes c)) (conn_status c)) <$> (cachedGrpcSrvConnection s !! p_UID p).

(** The proxy is there and has acknowledged what it was sent. *)
Definition acked (s : server) (p : Pod) : Prop :=
  IsPodActive p = true ∧ (p_UID p ∉ podDeletionExpectation s) ∧
  ∃ c, cachedGrpcSrvConnection s !! p_UID p = Some c ∧ disconnected c = false ∧
    ∀ h, podHashExpectation s !! p_UID p = Some h → (ExpectedHash <$> MetaState (conn_status c)) = Some h.

Lemma checkPod_acked now s p : acked s p → ∃ sp, sync_of s p = Some sp ∧
  checkPod now s p = (Sync1 sp, with_hashExp s (delete (p_UID p) (podHashExpectation s))).
Proof.
  intros (Ha & Hd & c & Hc & Hdis & Hh). unfold sync_of, checkPod. rewrite Hc, Ha. simpl. rewrite decide_False by done.
  rewrite Hdis. eexists. split; [done|]. destruct (podHashExpectation s !! p_UID p) as [h|] eqn:He.
  - specialize (Hh h eq_refl). destruct (MetaState (conn_status c)) as [ms|]; [|done]. injection Hh as Hh. simpl.
    rewrite decide_False by (intros Hne; by apply Hne). done.
  - rewrite delete_id by done. by destruct s.
Qed.

Lemma acked_frame s s' p : cachedGrpcSrvConnection s' = cachedGrpcSrvConnection s →
  podDeletionExpectation s' = podDeletionExpectation s →
  podHashExpectation s' ⊆ podHashExpectation s → acked s p → acked s' p.
Proof.
  intros Hc Hd Hh (Ha & Hdel & c & Hl & Hdis & He). split; [done|]. split; [by rewrite Hd|]. exists c. rewrite Hc.
  split_and!; try done. intros h Hp. apply He. by eapply lookup_weaken.
Qed.

Definition forget (uids : list string) (m : gmap string string) : gmap string string :=
  foldl (λ m uid, delete uid m) m uids.
Lemma forget_lookup uids m uid : forget uids m !! uid = if decide (uid ∈ uids) then None else m !! uid.
Proof.
  revert m; induction uids as [|u uids IH]; intros m; simpl; [done|]. rewrite IH.
  destruct (decide (uid ∈ uids)) as [Hin|Hin].
  - rewrite decide_True by by right. done.
  - destruct (decide (uid = u)) as [->|Hne]; [rewrite decide_True by (by left); apply lookup_delete_eq|].
    rewrite decide_False by (by intros [?|?]%elem_of_cons). by apply lookup_delete_ne.
Qed.

(** All of them are synced, and their acknowledgements forgotten. *)
Lemma checkPods_acked now pods acc s : Forall (acked s) pods →
  ∃ sps, Forall2 (λ p sp, sync_of s p = Some sp) pods sps ∧
    checkPods now pods acc s = (inr (acc ++ sps), with_hashExp s (forget (p_UID <$> pods) (podHashExpectation s))).
Proof.
  revert acc s; induction pods as [|p pods IH]; intros acc s Hall.
  { exists []. split; [constructor|]. simpl. rewrite app_nil_r. by destruct s. }
  apply Forall_cons in Hall as [Hp Hall]. destruct (checkPod_acked now s p Hp) as (sp & Hsp & Hck).
  set (s1 := with_hashExp s (delete (p_UID p) (podHashExpectation s))) in *.
  destruct (IH (acc ++ [sp]) s1) as (sps & Hf & Hr).
  { eapply Forall_impl; [exact Hall|]. intros x. apply acked_frame; [done|done|]. apply delete_subseteq. }
  exists (sp :: sps). split; [constructor; [done|]; exact Hf|]. simpl. rewrite Hck, Hr, <- app_assoc. done.
Qed.

Lemma needing_empty spec n sps : (∀ sp, sp ∈ sps → classify spec sp ≠ n) → needing spec n sps = [].
Proof.
  intros Hall. destruct (needing spec n sps) as [|sp l] eqn:Hn; [done|]. exfalso.
  assert (Hin : sp ∈ needing spec n sps) by (rewrite Hn; by left). apply elem_of_needing in Hin as [Hin Hc].
  by apply (Hall sp).
Qed.

(** With all pods acknowledged and none to delete or update, the round sends
    to those that have not been dispatched to. *)
Lemma reconcilePods_dispatch cfg now pods s : Forall (acked s) pods →
  (∀ p sp, p ∈ pods → sync_of s p = Some sp →
     classify (generateProtoConfig cfg) sp = NeedDispatch ∨ classify (generateProtoConfig cfg) sp = NeedNothing) →
  ∃ sps, Forall2 (λ p sp, sync_of s p = Some sp) pods sps ∧
    reconcilePods cfg now pods s =
      finish (fold_left (sendSpec (generateProtoConfig cfg)) (needing (generateProtoConfig cfg) NeedDispatch sps)
        (None, with_hashExp s (forget (p_UID <$> pods) (podHashExpectation s)))).
Proof.
  intros Hack Hcl. destruct (checkPods_acked now pods [] s Hack) as (sps & Hf & Hck).
  exists sps. split; [done|]. unfold reconcilePods. rewrite Hck. simpl.
  assert (Hsps : ∀ sp, sp ∈ sps → classify (generateProtoConfig cfg) sp = NeedDispatch ∨
                                   classify (generateProtoConfig cfg) sp = NeedNothing).
  { intros sp Hsp. apply list_elem_of_lookup in Hsp as [i Hi].
    destruct (Forall2_lookup_r _ _ _ _ _ Hf Hi) as (p & Hp & Hsy). eapply Hcl; [|done]. by eapply list_elem_of_lookup_2. }
  rewrite !needing_empty by (intros sp Hsp Hc; destruct (Hsps sp Hsp); congruence). done.
Qed.

(** ** Sending, without faults *)

Section sending.
Hypothesis no_send_fault : ∀ n, fault n = None.

Lemma sendSpecs_result spec sps e s : ∃ s',
  fold_left (sendSpec spec) sps (e, s) = (match sps with [] => e | _ => None end, s') ∧
  effects s' = effects s ++ ((λ sp, SendSpec (p_UID (sp_pod sp)) spec true) <$> sps) ∧
  podDeletionExpectation s' = podDeletionExpectation s ∧
  (∀ uid, podHashExpectation s' !! uid =
     if decide (uid ∈ ((λ sp, p_UID (sp_pod sp)) <$> sps)) then Some (sm_Hash (ps_Meta spec)) else podHashExpectation s !! uid) ∧
  (∀ uid c, cachedGrpcSrvConnection s !! uid = Some c → ∃ k, (0 ≤ k)%Z ∧
     (uid ∈ ((λ sp, p_UID (sp_pod sp)) <$> sps) → (0 < k)%Z) ∧
     cachedGrpcSrvConnection s' !! uid = Some (mkConn (conn_status c) (sendTimes c + k) (disconnected c))).
Proof.
  revert e s; induction sps as [|sp sps IH]; intros e s.
  { exists s. simpl. rewrite app_nil_r. split_and!; try done. intros uid c Hc. exists 0%Z. split; [lia|].
    split; [by intros []%not_elem_of_nil|]. rewrite Hc, Z.add_0_r. by destruct c. }
  set (u := p_UID (sp_pod sp)). destruct (sendSpec spec (e, s) sp) as [e1 s1] eqn:Hs1.
  unfold sendSpec in Hs1. simpl in Hs1. rewrite no_send_fault in Hs1. injection Hs1 as <- <-.
  destruct (IH None (with_hashExp (note (mkServer (podHashExpectation s) (podDeletionExpectation s)
    (bump u (cachedGrpcSrvConnection s)) (effects s) (attempts s)) (SendSpec u spec true))
    (<[u := sm_Hash (ps_Meta spec)]> (podHashExpectation s)))) as (s' & Hr & He & Hd & Hh & Hc).
  exists s'. split; [|split_and!].
  - simpl. rewrite no_send_fault. fold u. simpl in Hr. rewrite Hr. by destruct sps.
  - rewrite He. simpl. by rewrite <- app_assoc.
  - by rewrite Hd.
  - intros uid. rewrite Hh. simpl. destruct (decide (uid ∈ ((λ sp, p_UID (sp_pod sp)) <$> sps))) as [Hin|Hin].
    + by rewrite decide_True by by right.
    + fold u. destruct (decide (uid = u)) as [->|Hne].
      * rewrite decide_True by by left. apply lookup_insert_eq.
      * rewrite decide_False by by intros [?|?]%elem_of_cons. by apply lookup_insert_ne.
  - intros uid c Hl. simpl in Hc. destruct (decide (uid = u)) as [->|Hne].
    + destruct (Hc u (mkConn (conn_status c) (sendTimes c + 1) (disconnected c))) as (k & Hk & _ & Hl').
      { unfold bump. by rewrite lookup_alter_eq, Hl. }
      exists (1 + k)%Z. split; [lia|]. split; [intros _; lia|]. rewrite Hl'. simpl. do 2 f_equal. lia.
    + destruct (Hc uid c) as (k & Hk & Hpos & Hl').
      { unfold bump. by rewrite lookup_alter_ne. }
      exists k. split; [done|]. split; [|done]. simpl. fold u. by intros [?|?]%elem_of_cons; [|apply Hpos].
Qed.
End sending.

(** ** Receiving *)

(** The proxy runs the specification and says so. *)
Definition status_of (spec : ProxySpec) (le : option LeaderState) : ProxyStatus :=
  mkProxyStatus (Some (mkMetaState (sm_Hash (ps_Meta spec)) (sm_Hash (ps_Meta spec)))) le.

Lemma recv_loads spec m : ps_Limits spec ≠ [] → mockFailure (sm_storage m) = false → loadable (currentSpec m) spec →
  ∃ m' reason, recv (Some (mkSpecMsg (Some (ps_Meta spec)) (ps_Limits spec))) m = Returns m' ∧
    mockFailure (sm_storage m') = false ∧ currentSpec m' = Some spec ∧
    GetStatus m' = Returns (Some (status_of spec (leaderElectionState m)), reason).
Proof.
  intros Hlim Hm Hl. destruct (UpdateSpec_spec spec m Hm) as (m' & Hu & _ & Hm' & He & Hle & _ & Hcase).
  destruct Hcase as [(_ & Hcur & _)|(Hn & _)]; [|done]. exists m', (unloadReason m'). split_and!; try done.
  - destruct spec as [meta [|l ls]]; [done|]. exact Hu.
  - unfold GetStatus. by rewrite Hcur, He, Hle.
Qed.

(** What is sent to pods whose proxies can load it arrives; the others notice
    nothing. *)
Lemma deliver_result spec uids proxies s : ps_Limits spec ≠ [] → NoDup uids →
  (∀ uid, uid ∈ uids → ∃ m, proxies !! uid = Some m ∧ mockFailure (sm_storage m) = false ∧ loadable (currentSpec m) spec) →
  ∃ proxies' s', deliver ((λ uid, SendSpec uid spec true) <$> uids) proxies s = Returns (proxies', s') ∧
    effects s' = effects s ∧ podDeletionExpectation s' = podDeletionExpectation s ∧
    podHashExpectation s' = podHashExpectation s ∧
    (∀ uid, uid ∉ uids → proxies' !! uid = proxies !! uid ∧
       cachedGrpcSrvConnection s' !! uid = cachedGrpcSrvConnection s !! uid) ∧
    (∀ uid, uid ∈ uids → ∃ m' le, proxies' !! uid = Some m' ∧ currentSpec m' = Some spec ∧
       cachedGrpcSrvConnection s' !! uid =
         (λ c, mkConn (status_of spec le) (sendTimes c) (disconnected c)) <$> (cachedGrpcSrvConnection s !! uid)).
Proof.
  intros Hlim Hnd. revert proxies s. induction uids as [|u uids IH]; intros proxies s Hall.
  { exists proxies, s. split_and!; try done. intros uid []%not_elem_of_nil. }
  apply NoDup_cons in Hnd as [Hu Hnd]. destruct (Hall u) as (m & Hpm & Hm & Hl); [by left|].
  destruct (recv_loads spec m Hlim Hm Hl) as (m1 & reason & Hr & Hm1 & Hcur & Hst).
  set (s1 := mkServer (podHashExpectation s) (podDeletionExpectation s)
    (alter (λ c, mkConn (status_of spec (leaderElectionState m)) (sendTimes c) (disconnected c)) u (cachedGrpcSrvConnection s))
    (effects s) (attempts s)).
  destruct (IH Hnd (<[u := m1]> proxies) s1) as (px & s' & Hd & He & Hdel & Hh & Hout & Hin).
  { intros uid Hi. destruct (Hall uid) as (x & ? & ? & ?); [by right|]. exists x. split_and!; try done.
    rewrite lookup_insert_ne by congruence. done. }
  exists px, s'. split; [|split_and!; try done].
  - unfold deliver in *. cbn [fmap list_fmap foldM deliver1]. rewrite Hpm, Hr. cbn [mbind outcome_bind].
    rewrite Hst. exact Hd.
  - intros uid [Hne Hni]%not_elem_of_cons. destruct (Hout uid Hni) as [-> ->]. unfold s1. simpl.
    by rewrite lookup_insert_ne, lookup_alter_ne.
  - intros uid Hi. apply elem_of_cons in Hi as [->|Hi].
    + destruct (Hout u Hu) as [-> ->]. exists m1, (leaderElectionState m). unfold s1. simpl.
      by rewrite lookup_insert_eq, lookup_alter_eq.
    + destruct (Hin uid Hi) as (m' & le & ? & ? & Hconn). exists m', le. rewrite Hconn. unfold s1. simpl.
      rewrite lookup_alter_ne by congruence. done.
Qed.

(** ** Two rounds *)

(** A live proxy that runs nothing yet, or the specification already, and
    reports what it runs. *)
Definition fits (spec : ProxySpec) (s : server) (proxies : gmap string SpecManager) (p : Pod) : Prop :=
  acked s p ∧ ∃ m c, proxies !! p_UID p = Some m ∧ mockFailure (sm_storage m) = false ∧
    cachedGrpcSrvConnection s !! p_UID p = Some c ∧ (0 ≤ sendTimes c)%Z ∧
    (currentSpec m = None ∧ MetaState (conn_status c) = None ∨
     (∃ cur, currentSpec m = Some cur ∧ ps_Meta cur = ps_Meta spec) ∧
     MetaState (conn_status c) = Some (mkMetaState (sm_Hash (ps_Meta spec)) (sm_Hash (ps_Meta spec)))).

(** The proxy runs the specification and the server knows. *)
Definition serves (spec : ProxySpec) (s : server) (proxies : gmap string SpecManager) (p : Pod) : Prop :=
  acked s p ∧ (∃ m cur, proxies !! p_UID p = Some m ∧ currentSpec m = Some cur ∧ ps_Meta cur = ps_Meta spec) ∧
  ∃ c, cachedGrpcSrvConnection s !! p_UID p = Some c ∧ (0 < sendTimes c)%Z ∧
    MetaState (conn_status c) = Some (mkMetaState (sm_Hash (ps_Meta spec)) (sm_Hash (ps_Meta spec))).

Lemma classify_loaded spec sp : MetaState (sp_status sp) = Some (mkMetaState (sm_Hash (ps_Meta spec)) (sm_Hash (ps_Meta spec))) →
  classify spec sp = if sp_dispatched sp then NeedNothing else NeedDispatch.
Proof.
  intros Hm. unfold classify. rewrite Hm. simpl. rewrite decide_False by auto. rewrite decide_False by auto.
  by destruct (sp_dispatched sp).
Qed.

Lemma fits_classify spec s proxies p sp : fits spec s proxies p → sync_of s p = Some sp →
  classify spec sp = NeedDispatch ∨
  classify spec sp = NeedNothing ∧ ∃ c, cachedGrpcSrvConnection s !! p_UID p = Some c ∧ (0 < sendTimes c)%Z ∧
    MetaState (conn_status c) = Some (mkMetaState (sm_Hash (ps_Meta spec)) (sm_Hash (ps_Meta spec))).
Proof.
  intros (_ & m & c & _ & _ & Hc & _ & Hcase). unfold sync_of. rewrite Hc. intros [= <-].
  destruct Hcase as [(_ & Hn)|(_ & Hst)].
  - left. unfold classify. simpl. by rewrite Hn.
  - rewrite classify_loaded by done. simpl. destruct (Z.ltb_spec 0 (sendTimes c)); [right|by left].
    split; [done|]. by exists c.
Qed.

Lemma fits_loadable spec s proxies p : fits spec s proxies p →
  ∃ m, proxies !! p_UID p = Some m ∧ mockFailure (sm_storage m) = false ∧ loadable (currentSpec m) spec.
Proof.
  intros (_ & m & c & Hm & Hmock & _ & _ & Hcase). exists m. split_and!; [done|done|]. intros x Hx.
  destruct Hcase as [[Hn _]|[(cur & Hcur & Heq) _]]; [by rewrite Hn in Hx|]. congruence.
Qed.

(** The pods' entries among those to be synced. *)
Lemma synced_of s pods sps spec : Forall2 (λ p sp, sync_of s p = Some sp) pods sps → NoDup (p_UID <$> pods) →
  let uids := (λ sp, p_UID (sp_pod sp)) <$> needing spec NeedDispatch sps in
  NoDup uids ∧ uids ⊆ p_UID <$> pods ∧
  ∀ p, p ∈ pods → p_UID p ∉ uids → ∃ sp, sync_of s p = Some sp ∧ classify spec sp ≠ NeedDispatch.
Proof.
  intros Hf Hnd uids. assert (Hpods : sp_pod <$> sps = pods).
  { clear -Hf. induction Hf as [|p sp pods sps Hsy _ IH]; [done|]. simpl. f_equal; [|done]. unfold sync_of in Hsy.
    by destruct (cachedGrpcSrvConnection s !! p_UID p); simplify_eq/=. }
  assert (Hsub : uids `sublist_of` p_UID <$> pods).
  { rewrite <- Hpods, <- list_fmap_compose. apply fmap_sublist, sublist_filter. }
  split; [by eapply sublist_NoDup|]. split; [by apply sublist_subseteq|].
  intros p Hp Hno. apply list_elem_of_lookup in Hp as [i Hi].
  destruct (Forall2_lookup_l _ _ _ _ _ Hf Hi) as (sp & Hsp & Hsy). exists sp. split; [done|]. intros Hcl. apply Hno.
  assert (Hps : sp_pod sp = p).
  { unfold sync_of in Hsy. by destruct (cachedGrpcSrvConnection s !! p_UID p); simplify_eq/=. }
  rewrite <- Hps. apply (list_elem_of_fmap_2 (λ sp, p_UID (sp_pod sp))). apply elem_of_needing. split; [|done].
  by eapply list_elem_of_lookup_2.
Qed.

(** The round sends to the pods it must send to, and then they serve. *)
Lemma first_round cfg now pods s proxies :
  (∀ n, fault n = None) → sc_Limits cfg ≠ [] → NoDup (p_UID <$> pods) →
  (∀ p, p ∈ pods → fits (generateProtoConfig cfg) s proxies p) →
  ∃ s1 uids proxies' s2, reconcilePods cfg now pods s = (Done, s1) ∧
    effects s1 = effects s ++ ((λ uid, SendSpec uid (generateProtoConfig cfg) true) <$> uids) ∧ uids ⊆ p_UID <$> pods ∧
    deliver ((λ uid, SendSpec uid (generateProtoConfig cfg) true) <$> uids) proxies s1 = Returns (proxies', s2) ∧
    ∀ p, p ∈ pods → serves (generateProtoConfig cfg) s2 proxies' p.
Proof.
  intros Hnf Hlim Hnd Hfit.
  set (spec := generateProtoConfig cfg) in *.
  assert (Hlim' : ps_Limits spec ≠ []) by (simpl; by destruct (sc_Limits cfg)).
  destruct (reconcilePods_dispatch cfg now pods s) as (sps & Hf & Hr).
  { apply Forall_forall. intros p Hp. apply (Hfit p Hp). }
  { intros p sp Hp Hsy. destruct (fits_classify _ _ _ _ _ (Hfit p Hp) Hsy) as [?|[? _]]; [by left|by right]. }
  fold spec in Hr. destruct (synced_of s pods sps spec Hf Hnd) as (Hnduids & Hsub & Hother).
  destruct (sendSpecs_result Hnf spec (needing spec NeedDispatch sps) None
    (with_hashExp s (forget (p_UID <$> pods) (podHashExpectation s)))) as (s1 & Hfold & He & Hd & Hh & Hc).
  set (uids := (λ sp, p_UID (sp_pod sp)) <$> needing spec NeedDispatch sps) in *.
  destruct (deliver_result spec uids proxies s1 Hlim' Hnduids) as (px & s2 & Hdel & He2 & Hd2 & Hh2 & Hout & Hin).
  { intros uid Hu. apply Hsub, list_elem_of_fmap in Hu as (p & -> & Hp). eapply fits_loadable, Hfit, Hp. }
  exists s1, uids, px, s2. split; [rewrite Hr, Hfold; unfold finish; by destruct (needing spec NeedDispatch sps)|].
  split; [rewrite He; unfold uids; by rewrite <- list_fmap_compose|]. split; [done|]. split; [done|].
  intros p Hp. destruct (Hfit p Hp) as ((Ha & Hnd0 & _) & m & c & Hm & _ & Hconn & Hs0 & _). destruct (Hfit p Hp) as ((_ & _ & c' & Hc' & Hdis & _) & _).
  rewrite Hconn in Hc'. injection Hc' as <-. destruct (Hc (p_UID p) c Hconn) as (k & Hk & Hpos & Hs1).
  destruct (decide (p_UID p ∈ uids)) as [Hu|Hu].
  - destruct (Hin _ Hu) as (m' & le & Hm' & Hcur & Hs2). rewrite Hs1 in Hs2. simpl in Hs2. split; [|split].
    + split; [done|]. split; [by rewrite Hd2, Hd|]. eexists. split; [exact Hs2|]. split; [done|].
      intros h. rewrite Hh2, Hh, decide_True by done. by intros [= <-].
    + by exists m', spec.
    + eexists. split; [exact Hs2|]. split; [|done]. simpl. specialize (Hpos Hu). lia.
  - destruct (Hout _ Hu) as [Hm' Hs2]. rewrite Hs1 in Hs2. destruct (Hother p Hp Hu) as (sp & Hsy & Hcl).
    destruct (fits_classify _ _ _ _ _ (Hfit p Hp) Hsy) as [?|(_ & c' & Hc' & Hst & Hms)]; [done|].
    rewrite Hconn in Hc'. injection Hc' as <-. split; [|split].
    + split; [done|]. split; [by rewrite Hd2, Hd|]. eexists. split; [exact Hs2|]. split; [done|].
      intros h. rewrite Hh2, Hh, decide_False by done. simpl. rewrite forget_lookup, decide_True; [done|].
      by apply list_elem_of_fmap_2.
    + destruct (Hfit p Hp) as (_ & m2 & c2 & Hm2 & _ & Hc2 & _ & Hcase). destruct Hcase as [[_ Hn]|[(cur & Hcur & Heq) _]].
      * congruence.
      * exists m2, cur. by rewrite Hm'.
    + eexists. split; [exact Hs2|]. simpl. split; [lia|done].
Qed.

(** When all serve there is nothing to do. *)
Lemma serving_round cfg now pods s proxies :
  (∀ p, p ∈ pods → serves (generateProtoConfig cfg) s proxies p) →
  ∃ s', reconcilePods cfg now pods s = (Done, s') ∧ effects s' = effects s.
Proof.
  intros Hserve. set (spec := generateProtoConfig cfg) in *.
  assert (Hcl : ∀ p sp, p ∈ pods → sync_of s p = Some sp → classify spec sp = NeedNothing).
  { intros p sp Hp. destruct (Hserve p Hp) as (_ & _ & c & Hc & Hs & Hm). unfold sync_of. rewrite Hc. intros [= <-].
    rewrite classify_loaded by done. simpl. by destruct (Z.ltb_spec 0 (sendTimes c)); [|lia]. }
  destruct (reconcilePods_dispatch cfg now pods s) as (sps & Hf & Hr).
  { apply Forall_forall. intros p Hp. apply (Hserve p Hp). }
  { intros p sp Hp Hsy. right. by eapply Hcl. }
  fold spec in Hr. rewrite needing_empty in Hr.
  - eexists. split; [exact Hr|done].
  - intros sp Hsp. apply list_elem_of_lookup in Hsp as [i Hi].
    destruct (Forall2_lookup_r _ _ _ _ _ Hf Hi) as (p & Hp & Hsy). rewrite (Hcl p sp); [done| |done].
    by eapply list_elem_of_lookup_2.
Qed.

(** The pods of the shard. *)
Definition pods_of (cfg : ShardingConfig) (c : cluster) : list Pod :=
  merge_sort pods_by_name (filter (λ p, p_Labels p !! ShardingConfigInjectedKey = Some (sc_Name cfg)) (cl_pods c)).

(** Nothing obsolete, and no failing call: the round over the pods. *)
Lemma Reconcile_live cfg now s c a :
  (∀ n, api_fails n = None) → selectors_convert c → sc_Root cfg = None →
  (∀ p, p ∈ cl_pods c → ¬ obsolete c p) →
  ∃ c', cl_pods c' = cl_pods c ∧ cl_configs c' = cl_configs c ∧
    Reconcile now (inl cfg) (mkWorld s c a) =
      let '(r, s') := reconcilePods cfg now (pods_of cfg c) s in
      Returns (inl r, mkWorld s' (settle (drop (length (effects s)) (effects s')) c') a).
Proof.
  intros Hnf Hsel Hroot Hob. unfold Reconcile. rewrite decide_False by (rewrite Hroot; by intros []). simpl.
  unfold clearOldPods. rewrite Hnf.
  destruct (clearLoop_first (filter (λ p, bool_decide (is_Some (p_Labels p !! ShardingConfigInjectedKey))) (cl_pods c))
    (tick c) Hnf Hsel) as (c' & -> & Hcf & Hcase).
  { apply Forall_forall. intros p [_ Hp]%list_elem_of_filter. by apply list_elem_of_fmap_2. }
  assert (Hp : cl_pods c' = cl_pods c).
  { destruct Hcase as [[_ Hp]|(pre & po & post & Heq & _ & Ho & _)]; [exact Hp|]. exfalso. apply (Hob po); [|exact Ho].
    assert (Hin : po ∈ filter (λ p, bool_decide (is_Some (p_Labels p !! ShardingConfigInjectedKey))) (cl_pods c)).
    { rewrite Heq. apply elem_of_app. right. by left. }
    by apply list_elem_of_filter in Hin as [_ Hin]. }
  exists (tick c'). split; [exact Hp|]. split; [exact Hcf|]. cbn [mbind outcome_bind]. unfold getPodsForShardingConfig.
  rewrite Hnf, Hp. done.
Qed.

Lemma settle_sends spec uids c : cl_pods (settle ((λ uid, SendSpec uid spec true) <$> uids) c) = cl_pods c.
Proof.
  simpl. rewrite <- (list_fmap_id (cl_pods c)) at 2. apply list_fmap_ext. intros i p _.
  replace (deleted_in _ p) with false; [done|]. by induction uids.
Qed.

Lemma shard_pods_NoDup cfg c : NoDup (p_UID <$> cl_pods c) → NoDup (p_UID <$> pods_of cfg c).
Proof.
  intros Hnd. unfold pods_of. rewrite (merge_sort_Permutation pods_by_name).
  eapply sublist_NoDup; [exact Hnd|]. apply fmap_sublist, sublist_filter.
Qed.

(** C5. The specification of a shard reaches its proxies, end to end, for a
    configuration with at least one limit (without one nothing ever arrives:
    [empty_limits_block]) that is not the root of an automatic sharding. When
    no call fails, the selectors of the namespace's configurations convert, no
    pod of the namespace is obsolete, and the shard's pods are active with live
    proxies that run nothing yet or the specification already, a round of the server succeeds, sending to pods of the shard
    only, and deleting none; once what was sent has been received, every
    proxy of the shard runs the specification of the configuration, and the
    next round, whenever it comes, has no effect. *)
Theorem shard_reaches_proxies cfg now now' s c a proxies :
  (∀ n, api_fails n = None) → (∀ n, fault n = None) → selectors_convert c →
  sc_Root cfg = None → sc_Limits cfg ≠ [] → NoDup (p_UID <$> cl_pods c) →
  (∀ p, p ∈ cl_pods c → ¬ obsolete c p) →
  (∀ p, p ∈ pods_of cfg c → fits (generateProtoConfig cfg) s proxies p) →
  ∃ w1 uids proxies' s2 w3,
    Reconcile now (inl cfg) (mkWorld s c a) = Returns (inl Done, w1) ∧ cl_pods (w_cluster w1) = cl_pods c ∧
    effects (w_server w1) = effects s ++ ((λ uid, SendSpec uid (generateProtoConfig cfg) true) <$> uids) ∧
    uids ⊆ p_UID <$> pods_of cfg c ∧
    deliver ((λ uid, SendSpec uid (generateProtoConfig cfg) true) <$> uids) proxies (w_server w1) = Returns (proxies', s2) ∧
    (∀ p, p ∈ pods_of cfg c → ∃ m cur, proxies' !! p_UID p = Some m ∧ currentSpec m = Some cur ∧
       ps_Meta cur = ps_Meta (generateProtoConfig cfg)) ∧
    Reconcile now' (inl cfg) (mkWorld s2 (w_cluster w1) a) = Returns (inl Done, w3) ∧
    effects (w_server w3) = effects s2 ∧ cl_pods (w_cluster w3) = cl_pods c.
Proof.
  intros Hnf Hns Hsel Hroot Hlim Hnd Hob Hfit.
  destruct (first_round cfg now (pods_of cfg c) s proxies Hns Hlim (shard_pods_NoDup cfg c Hnd) Hfit)
    as (s1 & uids & px & s2 & Hr1 & He1 & Hu & Hdel & Hserve).
  destruct (Reconcile_live cfg now s c a Hnf Hsel Hroot Hob) as (c1 & Hp1 & Hc1 & HR1). rewrite Hr1 in HR1.
  rewrite He1, drop_app_length in HR1. set (c1' := settle _ c1) in HR1.
  assert (Hp1' : cl_pods c1' = cl_pods c) by (rewrite <- Hp1; apply settle_sends).
  assert (Hc1' : cl_configs c1' = cl_configs c) by exact Hc1.
  destruct (Reconcile_live cfg now' s2 c1' a Hnf) as (c2 & Hp2 & Hc2 & HR2); [unfold selectors_convert; by rewrite Hc1'|done|..].
  { intros p Hp. rewrite Hp1' in Hp. unfold obsolete. rewrite Hc1'. by apply Hob. }
  assert (Hpods : pods_of cfg c1' = pods_of cfg c) by (unfold pods_of; by rewrite Hp1').
  destruct (serving_round cfg now' (pods_of cfg c) s2 px Hserve) as (s3 & Hr3 & He3). rewrite Hpods, Hr3 in HR2.
  exists (mkWorld s1 c1' a), uids, px, s2. eexists. split; [exact HR1|]. split; [exact Hp1'|]. split; [exact He1|].
  split; [exact Hu|]. split; [exact Hdel|]. split; [|split; [exact HR2|split; [exact He3|]]].
  - intros p Hp. apply (Hserve p Hp).
  - simpl. rewrite He3, drop_all. rewrite <- Hp1', <- Hp2. apply (settle_sends (generateProtoConfig cfg) [] c2).
Qed.
End round.

(** ** Concrete rounds *)

Section witness.
#[local] Existing Instances demo_dumps no_server_faults no_fault_api everything demo_hashes.

Definition demo_config (limits : list ObjectLimiter) : ShardingConfig := {|
  sc_Name := "s"; sc_Namespace := "ns"; sc_Labels := ∅; sc_Annotations := ∅; sc_Finalizers := [];
  sc_DeletionTimestamp := None; sc_Selector := Some emptySelector; sc_Controller := None; sc_Webhook := None;
  sc_Limits := limits; sc_Root := None; sc_Child := [] |}.
Definition demo_shard_pod : Pod :=
  mkPod "a" "uid-a" {[ShardingConfigInjectedKey := "s"]} PodRunning None 0 [mkPodCondition "Ready" "True"]
    [mkContainerStatus "c" true].
Definition demo_cluster (limits : list ObjectLimiter) : cluster :=
  mkCluster [demo_shard_pod] {["s" := demo_config limits]} 0.
Definition demo_proxies : gmap string SpecManager := {["uid-a" := demo_spec_manager None]}.
Definition demo_shard_world (limits : list ObjectLimiter) : world :=
  mkWorld (demo_server None ∅) (demo_cluster limits) (mkApi ∅ 0).

(** A configuration without limits is sent, and ignored by the proxy, which
    has nothing to report: the server waits for its acknowledgement, and no
    later round does anything for the shard. *)
Theorem empty_limits_block : ∃ w1 s2,
  Reconcile 0 (inl (demo_config [])) (demo_shard_world []) = Returns (inl Done, w1) ∧
  length (effects (w_server w1)) = 1 ∧
  deliver (effects (w_server w1)) demo_proxies (w_server w1) = Returns (demo_proxies, s2) ∧
  ∀ cfg now, effects (reconcilePods cfg now [demo_shard_pod] s2).2 = effects s2.
Proof.
  eexists _, _. split; [vm_compute; reflexivity|]. split; [reflexivity|]. split; [vm_compute; reflexivity|].
  intros cfg now. apply (unsettled_round_does_nothing cfg now _ _ demo_shard_pod).
  - apply NoDup_singleton.
  - by left.
  - right. right. split; [reflexivity|]. eexists. split; [reflexivity|]. right. eexists. split; [reflexivity|]. done.
Qed.

Lemma shard_reaches_proxies_witness : ∃ w1,
  Reconcile 0 (inl (demo_config [mkObjectLimiter [] None])) (demo_shard_world [mkObjectLimiter [] None]) = Returns (inl Done, w1) ∧
  length (effects (w_server w1)) = 1.
Proof.
  destruct (shard_reaches_proxies (demo_config [mkObjectLimiter [] None]) 0 0 (demo_server None ∅)
    (demo_cluster [mkObjectLimiter [] None]) (mkApi ∅ 0) demo_proxies)
    as (w1 & uids & px & s2 & w3 & Hr & _);
    [done|done|apply map_Forall_singleton; by eexists|done|done|apply NoDup_singleton|..].
  - intros p ->%list_elem_of_singleton (_ & _ & [Hn|(sh & sel & Hs & Hsel & Hm)]); [vm_compute in Hn; discriminate|].
    vm_compute in Hs. injection Hs as <-. vm_compute in Hsel. injection Hsel as <-. vm_compute in Hm. discriminate.
  - intros p Hp. vm_compute in Hp. apply list_elem_of_singleton in Hp as ->. split.
    + split; [reflexivity|]. split; [by vm_compute|]. eexists. split; [reflexivity|]. split; [reflexivity|]. done.
    + eexists _, _. split; [reflexivity|]. split; [reflexivity|]. split; [reflexivity|]. split; [done|]. by left.
  - exists w1. split; [exact Hr|]. vm_compute in Hr. injection Hr as <-. reflexivity.
Defined.
End witness.
