(* ===== verification/LeaderElection.v ===== *)
(** * Leader election of the managed operators

    src/pkg/proxy/leaderelection/handler.go and adapter.go, with [LastReplace]
    of src/pkg/utils/string.go: the proxy renames the resource lock of the
    operator to one lock per shard, and records in the specification manager
    who holds it.  The serializers of the API machinery and [mime] are
    parameters. *)

From S2P Require Import Prelude GoStrings Http Selector Sharding ShardingReconcile ShardServer SpecManager.

(** [utils.LastReplace]. *)
Definition LastReplace (s old new : string) : string :=
  match LastIndex s old with
  | None => s
  | Some idx => take_bytes idx s +:+ new +:+ drop_bytes (idx + String.length old) s
  end.

Definition setSubsetIntoName (name subset : string) : string := name +:+ "---" +:+ subset.

(** ** Lock objects and their adapters *)

Record LockMeta := mkLockMeta {
  lm_Name : string; lm_Labels : option (gmap string string); lm_Annotations : gmap string string;
}.
Definition with_name (n : string) (o : LockMeta) : LockMeta := mkLockMeta n (lm_Labels o) (lm_Annotations o).
Definition with_label (k v : string) (o : LockMeta) : LockMeta :=
  mkLockMeta (lm_Name o) (Some (<[k := v]> (default ∅ (lm_Labels o)))) (lm_Annotations o).

(** The two kinds an object adapter is created for. *)
Inductive objectKind := ConfigMap | Endpoints.

(** A configmap or endpoints object, its other fields as a text. *)
Record objectAdapter (k : objectKind) := mkObject { oa_metaObj : LockMeta; oa_rest : string }.
Arguments mkObject {k} _ _.
Arguments oa_metaObj {k} _.
Arguments oa_rest {k} _.

(** A lease; [la_HolderIdentity] is a pointer. *)
Record leaseAdapter := mkLease { la_meta : LockMeta; la_HolderIdentity : option string; la_rest : string }.

(** What the serializers do.  [ParseMediaType] is [mime.ParseMediaType];
    [holder_of_record] reads the holder out of the JSON record that client-go
    keeps in an annotation. *)
Class Codec := {
  ParseMediaType : string → option string;
  SupportedMediaTypes : list string;
  decode_object (k : objectKind) : string → string → option (objectAdapter k);
  encode_object (k : objectKind) : string → objectAdapter k → string;
  decode_lease : string → string → option leaseAdapter;
  encode_lease : string → leaseAdapter → string;
  holder_of_record : string → option string;
}.

Definition LeaderElectionRecordAnnotationKey : string := "control-plane.alpha.kubernetes.io/leader".

(** The [adapter] interface. *)
Class Adapter (A : Type) := {
  a_Decode : string → string → option A; (* media type, body *)
  a_Encode : string → A → string;
  GetHoldIdentity : A → option string; (* [None]: not ok *)
  GetName : A → string;
  SetName : string → A → A;
  SetLabel : string → string → A → A;
}.

#[export] Instance object_Adapter `{Codec} (k : objectKind) : Adapter (objectAdapter k) := {|
  a_Decode := decode_object k;
  a_Encode := encode_object k;
  GetHoldIdentity o :=
    recordStr ← lm_Annotations (oa_metaObj o) !! LeaderElectionRecordAnnotationKey;
    Some (default EmptyString (holder_of_record recordStr));
  GetName o := lm_Name (oa_metaObj o);
  SetName n o := mkObject (with_name n (oa_metaObj o)) (oa_rest o);
  SetLabel key v o := mkObject (with_label key v (oa_metaObj o)) (oa_rest o);
|}.

#[export] Instance lease_Adapter `{Codec} : Adapter leaseAdapter := {|
  a_Decode := decode_lease;
  a_Encode := encode_lease;
  GetHoldIdentity l := la_HolderIdentity l;
  GetName l := lm_Name (la_meta l);
  SetName n l := mkLease (with_name n (la_meta l)) (la_HolderIdentity l) (la_rest l);
  SetLabel k v l := mkLease (with_label k v (la_meta l)) (la_HolderIdentity l) (la_rest l);
|}.

(** ** Requests *)

(** What the handler reads and writes of an [http.Request]: a nil body is
    [None], and reading one may fail. *)
Record HttpReq := mkHttpReq {
  hr_ContentType : string; hr_Body : option (result string); hr_Path : string;
  hr_ContentLength : Z; hr_ContentLengthHeader : string;
}.

Definition getSerializer `{Codec} (r : HttpReq) : result string :=
  if decide (hr_ContentType r = EmptyString) then Err "no mediaType in request" else
  match ParseMediaType (hr_ContentType r) with
  | None => Err "invalid mediaType in response"
  | Some mediaType =>
      if decide (mediaType ∈ SupportedMediaTypes) then Ok mediaType
      else Err ("not found supported serializer for mediaType " +:+ mediaType)
  end.

Definition decodeObject `{Codec} `{Adapter A} (ser : string) (body : option (result string)) : result A :=
  match body with
  | None => Err "body is empty"
  | Some (Err e) => Err ("failed to read the body: " +:+ e)
  | Some (Ok bytes) =>
      match a_Decode ser bytes with Some a => Ok a | None => Err "unabled to decode the response" end
  end.

Definition DecodeFrom `{Codec} `{Adapter A} (r : HttpReq) : result A :=
  ser ← getSerializer r; decodeObject ser (hr_Body r).

(** The serializer is the one the request was decoded with; without one the
    call on it panics. *)
Definition EncodeInto `{Codec} `{Adapter A} (a : A) (r : HttpReq) : outcome HttpReq :=
  match getSerializer r with
  | Err _ => Panics
  | Ok ser =>
      let body := a_Encode ser a in
      let length := Z.of_nat (String.length body) in
      Returns (mkHttpReq (hr_ContentType r) (Some (Ok body)) (hr_Path r) length (Itoa length))
  end.

(** ** The handler *)

Record handler := mkHandler { h_namespace : string; h_lockName : string; h_shardingConfig : string }.

(** [New] reads the current specification, a nil pointer before the first one. *)
Definition New (m : SpecManager) (podNamespace lockName : string) : outcome handler :=
  protoSpec ← deref (currentSpec m);
  Returns (mkHandler podNamespace lockName (sm_ShardName (ps_Meta protoSpec))).

(** The result of [Handle] with the request it leaves.  [modifyResponse] is
    the closure: the state it records. *)
Record handled := mkHandled {
  hd_handled : bool; hd_modifyResponse : option LeaderState; hd_err : option string; hd_req : HttpReq;
}.

(** The closure applied to a response of status [code]. *)
Definition modifyResponse (le : LeaderState) (code : Z) (m : SpecManager) : SpecManager :=
  if decide (code = StatusOK) then UpdateLeaderElection (Some le) m else m.

Definition noHoldIdentity : string := "find no hold identity resource lock".

Section handle.
Context `{Codec}.

Definition handle_create `{Adapter A} (h : handler) (adp : A) (r : HttpReq) : outcome handled :=
  if decide (GetName adp ≠ h_lockName h) then
    r' ← EncodeInto adp r; Returns (mkHandled false None None r')
  else match GetHoldIdentity adp with
  | None => Returns (mkHandled true None (Some noHoldIdentity) r)
  | Some holdIdentity =>
      let adp := if decide (h_shardingConfig h ≠ EmptyString)
                 then SetName (setSubsetIntoName (h_lockName h) (h_shardingConfig h)) adp else adp in
      r' ← EncodeInto adp r;
      Returns (mkHandled true (Some (mkLeaderState holdIdentity true)) None r')
  end.

Definition handle_update `{Adapter A} (h : handler) (adp : A) (r : HttpReq) : outcome handled :=
  match GetHoldIdentity adp with
  | None => Returns (mkHandled true None (Some noHoldIdentity) r)
  | Some holdIdentity =>
      r' ← EncodeInto adp r;
      Returns (mkHandled true (Some (mkLeaderState holdIdentity true)) None r')
  end.

Definition handle_get (h : handler) (r : HttpReq) : HttpReq :=
  if decide (h_shardingConfig h ≠ EmptyString)
  then mkHttpReq (hr_ContentType r) (hr_Body r)
         (LastReplace (hr_Path r) (h_lockName h) (setSubsetIntoName (h_lockName h) (h_shardingConfig h)))
         (hr_ContentLength r) (hr_ContentLengthHeader r)
  else r.

(** The switch over the verb, for the adapter the resource selects. *)
Definition handle_verb (A : Type) `{Adapter A} (h : handler) (verb : string) (r : HttpReq) : outcome handled :=
  if decide (verb = "create" ∨ verb = "update") then
    match DecodeFrom (A := A) r with
    | Err e => Returns (mkHandled true None (Some e) r)
    | Ok adp => if decide (verb = "create") then handle_create h adp r else handle_update h adp r
    end
  else if decide (verb = "get") then Returns (mkHandled true None None (handle_get h r))
  else Returns (mkHandled false None None r).

Definition Handle (h : handler) (req : RequestInfo) (r : HttpReq) : outcome handled :=
  let ignored := Returns (mkHandled false None None r) in
  if negb (ri_IsResourceRequest req) || bool_decide (ri_Subresource req ≠ EmptyString) then ignored
  else if decide (ri_Namespace req ≠ h_namespace h) then ignored
  else if bool_decide (ri_Verb req ≠ "create") && bool_decide (ri_Name req ≠ h_lockName h)
       && negb (HasPrefix (ri_Name req) (h_lockName h +:+ "---")) then ignored
  else
    let gvr := (ri_APIGroup req, ri_APIVersion req, ri_Resource req) in
    if decide (gvr = (EmptyString, "v1", "configmaps")) then handle_verb (objectAdapter ConfigMap) h (ri_Verb req) r
    else if decide (gvr = (EmptyString, "v1", "endpoints")) then handle_verb (objectAdapter Endpoints) h (ri_Verb req) r
    else if decide (gvr = ("coordination.k8s.io", "v1", "leases")) then handle_verb leaseAdapter h (ri_Verb req) r
    else ignored.

End handle.

(** ** Facts about [LastReplace] *)

Lemma LastIndex_short s old : String.length s < String.length old → LastIndex s old = None.
Proof.
  induction s as [|a s IH]; intros Hl; destruct old as [|b old]; simpl in Hl; try lia; [done|].
  cbn [LastIndex]. rewrite IH by (simpl; lia). unfold HasPrefix.
  destruct (String.prefix (String b old) (String a s)) eqn:Hp; [|done].
  apply prefix_spec in Hp as [t Ht]. apply (f_equal String.length) in Ht.
  rewrite length_app_str in Ht. simpl in *. lia.
Qed.

Lemma LastIndex_app p old : LastIndex (p +:+ old) old = Some (String.length p).
Proof.
  induction p as [|a p IH].
  - destruct old as [|b old]; [done|]. change (EmptyString +:+ String b old) with (String b old).
    cbn [LastIndex]. rewrite LastIndex_short by (simpl; lia). unfold HasPrefix.
    pose proof (prefix_app (String b old) EmptyString) as Hp. rewrite app_nil_r_str in Hp. by rewrite Hp.
  - change (String a p +:+ old) with (String a (p +:+ old)). cbn [LastIndex]. by rewrite IH.
Qed.

Lemma drop_bytes_all n s : String.length s ≤ n → drop_bytes n s = EmptyString.
Proof. revert s. induction n; intros [|a s] Hl; simpl in *; try lia; auto with lia. Qed.

(** The last occurrence of a suffix is the suffix. *)
Lemma LastReplace_app p old new : LastReplace (p +:+ old) old new = p +:+ new.
Proof.
  unfold LastReplace. rewrite LastIndex_app, take_bytes_app, drop_bytes_all.
  - by rewrite app_nil_r_str.
  - rewrite length_app_str. lia.
Qed.

Lemma LastReplace_absent s old new : LastIndex s old = None → LastReplace s old new = s.
Proof. unfold LastReplace. by intros ->. Qed.

(** The lock of a shard; different shards have different locks. *)
Lemma setSubsetIntoName_inj name s s' : setSubsetIntoName name s = setSubsetIntoName name s' → s = s'.
Proof. unfold setSubsetIntoName. intros H. by apply app_inv_head_str, app_inv_head_str in H. Qed.

Lemma setSubsetIntoName_prefix name s : HasPrefix (setSubsetIntoName name s) (name +:+ "---") = true.
Proof. unfold HasPrefix, setSubsetIntoName. rewrite <- app_assoc_str. apply prefix_app. Qed.

(** ** The interface of the adapters *)

(** What the handler relies on: renaming changes the name only, and what is
    encoded decodes to the same object. *)
Class AdapterLaws (A : Type) `{Adapter A} := {
  GetName_SetName n a : GetName (SetName n a) = n;
  Holder_SetName n a : GetHoldIdentity (SetName n a) = GetHoldIdentity a;
  GetName_SetLabel k v a : GetName (SetLabel k v a) = GetName a;
  Holder_SetLabel k v a : GetHoldIdentity (SetLabel k v a) = GetHoldIdentity a;
}.
#[export] Instance object_laws `{Codec} k : AdapterLaws (objectAdapter k).
Proof. by split. Qed.
#[export] Instance lease_laws `{Codec} : AdapterLaws leaseAdapter.
Proof. by split. Qed.

(** The round trip of a serializer of the API machinery. *)
Definition roundtrips (A : Type) `{Codec} `{Adapter A} : Prop :=
  ∀ ser (a : A), ser ∈ SupportedMediaTypes → a_Decode ser (a_Encode ser a) = Some a.

(** The resources that can be locks, with their adapters. *)
Inductive lock_resource `{Codec} : string * string * string → ∀ A, Adapter A → Prop :=
| lr_configmaps : lock_resource (EmptyString, "v1", "configmaps") _ (object_Adapter ConfigMap)
| lr_endpoints : lock_resource (EmptyString, "v1", "endpoints") _ (object_Adapter Endpoints)
| lr_leases : lock_resource ("coordination.k8s.io", "v1", "leases") _ lease_Adapter.

Section handle_properties.
Context `{Codec}.

Definition gvr_of (req : RequestInfo) : string * string * string :=
  (ri_APIGroup req, ri_APIVersion req, ri_Resource req).

(** A request the handler looks into: for the lock, in the namespace of the pod. *)
Definition concerns (h : handler) (req : RequestInfo) : Prop :=
  ri_IsResourceRequest req = true ∧ ri_Subresource req = EmptyString ∧ ri_Namespace req = h_namespace h ∧
  (ri_Verb req = "create" ∨ ri_Name req = h_lockName h ∨ HasPrefix (ri_Name req) (h_lockName h +:+ "---") = true).

Lemma Handle_switch h req r A (HA : Adapter A) :
  concerns h req → lock_resource (gvr_of req) A HA → Handle h req r = handle_verb A h (ri_Verb req) r.
Proof.
  intros (Hr & Hs & Hn & Hc) Hres. unfold Handle. rewrite Hr, Hs. cbn [negb orb].
  rewrite bool_decide_false by (by intros ?). rewrite decide_False by (by intros ?).
  replace (bool_decide _ && _ && _) with false.
  2:{ symmetry. destruct Hc as [-> | [-> | ->]].
      - rewrite bool_decide_false by (by intros ?). done.
      - rewrite (bool_decide_false (h_lockName h ≠ h_lockName h)) by (by intros ?). by rewrite andb_false_r.
      - cbn. by rewrite andb_false_r. }
  unfold gvr_of in Hres. destruct req as [? ? ? g v res ? ? ?]; simpl in *.
  remember (g, v, res) as t eqn:Ht. destruct Hres; simplify_eq/=; repeat (case_decide; simplify_eq/=); done.
Qed.

(** Requests for anything else pass unchanged. *)
Lemma Handle_ignores h req r :
  ¬ concerns h req ∨ (∀ A HA, ¬ lock_resource (gvr_of req) A HA) →
  Handle h req r = Returns (mkHandled false None None r).
Proof.
  intros Hno. unfold Handle. destruct req as [b ? ns g v res sub n verb]; simpl in *.
  destruct (negb b || _) eqn:Hb; [done|]. apply orb_false_iff in Hb as [Hb Hs].
  destruct (decide (ns ≠ h_namespace h)) as [Hns|Hns]; [done|].
  destruct (_ && _ && _) eqn:Hv; [done|]. destruct Hno as [Hno|Hno].
  - destruct Hno. split_and!; simpl.
    + by destruct b.
    + apply bool_decide_eq_false in Hs. destruct (decide (sub = EmptyString)); [done|by destruct Hs].
    + destruct (decide (ns = h_namespace h)); [done|by destruct Hns].
    + rewrite !andb_false_iff, negb_false_iff, !bool_decide_eq_false in Hv.
      destruct Hv as [[Hv|Hv]|Hv]; [left|right; left|by right; right]; by apply dec_stable.
  - assert (Hg := λ A HA E, Hno A HA E). unfold gvr_of in Hg; simpl in Hg.
    repeat case_decide; simplify_eq/=; try done; exfalso;
      first [exact (Hg _ _ lr_configmaps) | exact (Hg _ _ lr_endpoints) | exact (Hg _ _ lr_leases)].
Qed.

(** The lock a handler works on. *)
Definition lock_of (h : handler) : string :=
  if decide (h_shardingConfig h ≠ EmptyString) then setSubsetIntoName (h_lockName h) (h_shardingConfig h)
  else h_lockName h.

Lemma EncodeInto_decodes `{HA : Adapter A} (a : A) r r' :
  roundtrips A → EncodeInto a r = Returns r' →
  DecodeFrom r' = Ok a ∧ hr_Path r' = hr_Path r ∧
  ∃ body, hr_Body r' = Some (Ok body) ∧ hr_ContentLength r' = Z.of_nat (String.length body).
Proof.
  intros Hrt. unfold EncodeInto, DecodeFrom. destruct (getSerializer r) as [ser|] eqn:Hs; [|done].
  intros [= <-].
  assert (ser ∈ SupportedMediaTypes) as Hin by (unfold getSerializer in Hs; split_matches; done).
  change (getSerializer (mkHttpReq _ _ _ _ _)) with (getSerializer r). rewrite Hs.
  unfold decodeObject; cbn [mbind result_bind hr_Body]. rewrite Hrt by done. eauto.
Qed.

Lemma DecodeFrom_encodes `{HA : Adapter A} (a a' : A) r :
  DecodeFrom r = Ok a → ∃ r', EncodeInto a' r = Returns r'.
Proof.
  unfold DecodeFrom, EncodeInto. destruct (getSerializer r); [|done]. intros _. by eexists.
Qed.
End handle_properties.

Section theorems.
Context `{Codec}.

Lemma handle_create_renames `{HA : Adapter A} `{!AdapterLaws A} h (a : A) r id :
  roundtrips A → DecodeFrom r = Ok a → GetName a = h_lockName h → GetHoldIdentity a = Some id →
  ∃ r' a', handle_create h a r = Returns (mkHandled true (Some (mkLeaderState id true)) None r') ∧
    DecodeFrom r' = Ok a' ∧ GetName a' = lock_of h ∧ GetHoldIdentity a' = Some id ∧ hr_Path r' = hr_Path r.
Proof.
  intros Hrt Hd Hn Hid. unfold handle_create, lock_of. rewrite decide_False by (by intros ?). rewrite Hid.
  set (a' := if decide _ then _ else _).
  destruct (DecodeFrom_encodes a a' r Hd) as [r' Hr']. rewrite Hr'. cbn [mbind outcome_bind].
  destruct (EncodeInto_decodes a' r r' Hrt Hr') as (Hd' & Hp & _).
  exists r', a'. split_and!; [done|done| |..|done].
  - subst a'. case_decide; [apply GetName_SetName|done].
  - subst a'. case_decide; [by rewrite Holder_SetName|done].
Qed.

(** [Handle] moves the lock of an operator to its shard.  For each of the
    three resources that can be a lock (configmaps, endpoints and leases): a
    creation of the lock is forwarded with a body that decodes to an object
    named after the shard and held by the same identity; a read of it is
    forwarded with the path of the shard's lock; an update is forwarded under
    the name it has, with the holder unchanged.  In the two writes the returned
    closure records exactly the holder of the request, and no write without a
    holder is forwarded. *)
Theorem Handle_moves_lock h req r A (HA : Adapter A) (HL : AdapterLaws A) :
  roundtrips A → concerns h req → lock_resource (gvr_of req) A HA →
  (ri_Verb req = "get" → ∀ p, hr_Path r = p +:+ h_lockName h →
     ∃ r', Handle h req r = Returns (mkHandled true None None r') ∧
       hr_Path r' = p +:+ lock_of h ∧ hr_Body r' = hr_Body r) ∧
  (∀ a, DecodeFrom r = Ok a →
     (ri_Verb req = "create" → ∀ id, GetName a = h_lockName h → GetHoldIdentity a = Some id →
        ∃ r' a', Handle h req r = Returns (mkHandled true (Some (mkLeaderState id true)) None r') ∧
          DecodeFrom r' = Ok a' ∧ GetName a' = lock_of h ∧ GetHoldIdentity a' = Some id) ∧
     (ri_Verb req = "update" → ∀ id, GetHoldIdentity a = Some id →
        ∃ r', Handle h req r = Returns (mkHandled true (Some (mkLeaderState id true)) None r') ∧
          DecodeFrom r' = Ok a ∧ hr_Path r' = hr_Path r) ∧
     (GetHoldIdentity a = None → (ri_Verb req = "create" ∧ GetName a = h_lockName h) ∨ ri_Verb req = "update" →
        Handle h req r = Returns (mkHandled true None (Some noHoldIdentity) r))).
Proof.
  intros Hrt Hc Hres. rewrite (Handle_switch h req r A HA Hc Hres). unfold handle_verb. split.
  - intros -> p Hp. rewrite decide_False by (intros [|]; done). rewrite decide_True by done.
    eexists. split; [reflexivity|]. unfold handle_get, lock_of. case_decide; simpl; [|done].
    by rewrite Hp, LastReplace_app.
  - intros a Hd. rewrite Hd. split_and!.
    + intros -> id Hn Hid. rewrite decide_True by auto.
      destruct (handle_create_renames h a r id Hrt Hd Hn Hid) as (r' & a' & Hh & H1 & H2 & H3 & _).
      rewrite decide_True by done. rewrite Hh. by exists r', a'.
    + intros -> id Hid. rewrite decide_True by auto. rewrite decide_False by done.
      unfold handle_update. rewrite Hid. destruct (DecodeFrom_encodes a a r Hd) as [r' Hr'].
      rewrite Hr'. destruct (EncodeInto_decodes a r r' Hrt Hr') as (Hd' & Hp & _). by exists r'.
    + intros Hid [[-> Hn] | ->]; rewrite decide_True by auto.
      * rewrite decide_True by done. unfold handle_create. rewrite decide_False by (by intros ?). by rewrite Hid.
      * rewrite decide_False by done. unfold handle_update. by rewrite Hid.
Qed.
End theorems.

(** ** The shards of an operator electing their leaders

    The operator of every shard runs the client-go elector against the same
    lock name: it reads the lock, creates it when there is none, and updates
    the object it last saw.  The API server keeps the leases of a namespace;
    [copies] are the objects the operators hold.  A lease remembers which shard
    wrote it last. *)

Record cluster := mkCluster { locks : gmap string (leaseAdapter * string); copies : gmap string leaseAdapter }.

Section cluster.
Context `{Codec} (ns lockName : string).

Definition shard_handler (s : string) : handler := mkHandler ns lockName s.
Definition lock_info (verb name : string) : RequestInfo :=
  mkRequestInfo true "/apis" ns "coordination.k8s.io" "v1" "leases" EmptyString name verb.
Definition collection : string := "/apis/coordination.k8s.io/v1/namespaces/" +:+ ns +:+ "/leases/".

Inductive lock_step : cluster → cluster → Prop :=
| ls_create s l r hd a c :
    s ≠ EmptyString → DecodeFrom r = Ok l → GetName l = lockName →
    Handle (shard_handler s) (lock_info "create" EmptyString) r = Returns hd → hd_err hd = None →
    DecodeFrom (A := leaseAdapter) (hd_req hd) = Ok a → locks c !! GetName a = None →
    lock_step c (mkCluster (<[GetName a := (a, s)]> (locks c)) (<[s := a]> (copies c)))
| ls_get s r hd n a w c :
    s ≠ EmptyString → hr_Path r = collection +:+ lockName →
    Handle (shard_handler s) (lock_info "get" lockName) r = Returns hd →
    hr_Path (hd_req hd) = collection +:+ n → locks c !! n = Some (a, w) →
    lock_step c (mkCluster (locks c) (<[s := a]> (copies c)))
| ls_update s old l r hd n a c :
    s ≠ EmptyString → copies c !! s = Some old → GetName l = GetName old →
    DecodeFrom r = Ok l → hr_Path r = collection +:+ GetName old →
    Handle (shard_handler s) (lock_info "update" (GetName old)) r = Returns hd → hd_err hd = None →
    hr_Path (hd_req hd) = collection +:+ n → DecodeFrom (hd_req hd) = Ok a → GetName a = n →
    is_Some (locks c !! n) →
    lock_step c (mkCluster (<[n := (a, s)]> (locks c)) (<[s := a]> (copies c))).

Record cluster_wf (c : cluster) : Prop := {
  cw_locks n a s : locks c !! n = Some (a, s) → GetName a = n ∧ n = setSubsetIntoName lockName s;
  cw_copies s a : copies c !! s = Some a → GetName a = setSubsetIntoName lockName s;
}.

Lemma lock_of_shard s : s ≠ EmptyString → lock_of (shard_handler s) = setSubsetIntoName lockName s.
Proof. intros Hs. unfold lock_of. by rewrite decide_True. Qed.

Lemma concerns_lock s verb name :
  verb = "create" ∨ name = lockName ∨ (∃ t, name = setSubsetIntoName lockName t) →
  concerns (shard_handler s) (lock_info verb name).
Proof.
  intros Hv. split_and!; [done|done|done|]. destruct Hv as [|[|[t ->]]]; [by left|by right; left|].
  right; right. apply setSubsetIntoName_prefix.
Qed.

Lemma Handle_lease s verb name r :
  concerns (shard_handler s) (lock_info verb name) →
  Handle (shard_handler s) (lock_info verb name) r = handle_verb leaseAdapter (shard_handler s) verb r.
Proof. intros Hc. by apply (Handle_switch _ _ r leaseAdapter lease_Adapter Hc lr_leases). Qed.

Lemma create_addresses s l r hd a :
  roundtrips leaseAdapter → s ≠ EmptyString → DecodeFrom r = Ok l → GetName l = lockName →
  Handle (shard_handler s) (lock_info "create" EmptyString) r = Returns hd → hd_err hd = None →
  DecodeFrom (A := leaseAdapter) (hd_req hd) = Ok a → GetName a = setSubsetIntoName lockName s.
Proof.
  intros Hrt Hs Hd Hn Hh He Ha. rewrite Handle_lease in Hh by (apply concerns_lock; by left).
  unfold handle_verb in Hh. rewrite decide_True, Hd, decide_True in Hh by auto.
  destruct (GetHoldIdentity l) as [id|] eqn:Hid.
  - destruct (handle_create_renames (shard_handler s) l r id Hrt Hd Hn Hid) as (r' & a' & Hh' & Hd' & Hn' & _).
    rewrite Hh in Hh'. injection Hh' as ->. simpl in Ha. rewrite Hd' in Ha. injection Ha as ->.
    by rewrite Hn', lock_of_shard.
  - unfold handle_create in Hh. rewrite decide_False, Hid in Hh by (by intros ?). by simplify_eq/=.
Qed.

Lemma get_addresses s r hd n :
  s ≠ EmptyString → hr_Path r = collection +:+ lockName →
  Handle (shard_handler s) (lock_info "get" lockName) r = Returns hd →
  hr_Path (hd_req hd) = collection +:+ n → n = setSubsetIntoName lockName s.
Proof.
  intros Hs Hp Hh Hn. rewrite Handle_lease in Hh by (apply concerns_lock; auto).
  unfold handle_verb in Hh. rewrite decide_False, decide_True in Hh by (try intros [|]; done).
  injection Hh as <-. unfold handle_get in Hn. rewrite decide_True in Hn by done. cbn [hd_req hr_Path] in Hn.
  rewrite Hp, LastReplace_app in Hn. by apply app_inv_head_str in Hn.
Qed.

Lemma update_addresses s (old l : leaseAdapter) r hd n (a : leaseAdapter) :
  roundtrips leaseAdapter → DecodeFrom r = Ok l → GetName l = GetName old →
  GetName old = setSubsetIntoName lockName s → hr_Path r = collection +:+ GetName old →
  Handle (shard_handler s) (lock_info "update" (GetName old)) r = Returns hd → hd_err hd = None →
  hr_Path (hd_req hd) = collection +:+ n → DecodeFrom (hd_req hd) = Ok a →
  n = GetName old ∧ a = l.
Proof.
  intros Hrt Hd Hl Ho Hp Hh He Hn Ha. rewrite Handle_lease in Hh by (apply concerns_lock; eauto).
  unfold handle_verb in Hh. rewrite decide_True, Hd, decide_False in Hh by auto.
  unfold handle_update in Hh. destruct (GetHoldIdentity l) as [id|]; [|by simplify_eq/=].
  destruct (DecodeFrom_encodes l l r Hd) as [r' Hr']. rewrite Hr' in Hh. cbn in Hh.
  destruct (EncodeInto_decodes l r r' Hrt Hr') as (Hd' & Hp' & _). injection Hh as <-. cbn [hd_req] in *.
  rewrite Hp', Hp in Hn. apply app_inv_head_str in Hn as <-. split; [done|]. by rewrite Hd' in Ha; injection Ha.
Qed.

Lemma lock_step_wf c c' : roundtrips leaseAdapter → cluster_wf c → lock_step c c' → cluster_wf c'.
Proof.
  intros Hrt Hwf Hs. destruct Hs as [s l r hd a c Hne Hd Hn Hh He Ha Hfree
    |s r hd n a w c Hne Hp Hh Hn Hl|s old l r hd n a c Hne Hc Hl Hd Hp Hh He Hn Ha Hna Hex].
  - pose proof (create_addresses s l r hd a Hrt Hne Hd Hn Hh He Ha) as Hname.
    split; cbn [locks copies]; intros *; rewrite lookup_insert_Some; intros [[<- Heq]|[_ Heq]].
    + by simplify_eq.
    + by apply (cw_locks c Hwf).
    + by simplify_eq.
    + by apply (cw_copies c Hwf).
  - pose proof (get_addresses s r hd n Hne Hp Hh Hn) as Hname. destruct (cw_locks c Hwf n a w Hl) as [Hna _].
    split; cbn [locks copies]; [apply (cw_locks c Hwf)|]. intros s' a'. rewrite lookup_insert_Some.
    intros [[<- <-]|[_ Heq]]; [by rewrite Hna|by apply (cw_copies c Hwf)].
  - pose proof (cw_copies c Hwf s old Hc) as Ho.
    destruct (update_addresses s old l r hd n a Hrt Hd Hl Ho Hp Hh He Hn Ha) as [-> ->].
    split; cbn [locks copies]; intros *; rewrite lookup_insert_Some; intros [[<- Heq]|[_ Heq]].
    + simplify_eq. by rewrite <- Ho.
    + by apply (cw_locks c Hwf).
    + simplify_eq. by rewrite <- Ho.
    + by apply (cw_copies c Hwf).
Qed.

Lemma cluster_reachable_wf c : roundtrips leaseAdapter → rtc lock_step (mkCluster ∅ ∅) c → cluster_wf c.
Proof.
  intros Hrt Hr. assert (cluster_wf (mkCluster ∅ ∅)) as H0 by (split; cbn [locks copies]; intros *; rewrite lookup_empty; done).
  revert H0. induction Hr as [|c0 c1 c2 Hs _ IH]; eauto using lock_step_wf.
Qed.

Lemma lock_step_keeps c c' n : lock_step c c' → is_Some (locks c !! n) → is_Some (locks c' !! n).
Proof.
  intros Hs [x Hx]. destruct Hs; simpl; [|by eexists|]; (rewrite lookup_insert; case_decide; by eexists).
Qed.

(** C13. The shards of an operator elect their leaders independently.  However
    the operators of any number of shards, each behind its proxy, read, create
    and update what they all know under one lock name: every lease of the API
    server is named after the shard that wrote it, what an operator holds is
    its own shard's lease, and a lease written by one shard is never written
    by another one later. *)
Theorem shards_elect_independently c c' :
  roundtrips leaseAdapter → rtc lock_step (mkCluster ∅ ∅) c → rtc lock_step c c' →
  (∀ n a s, locks c !! n = Some (a, s) →
     GetName a = n ∧ n = setSubsetIntoName lockName s ∧ ∃ a', locks c' !! n = Some (a', s)) ∧
  (∀ s a, copies c !! s = Some a → GetName a = setSubsetIntoName lockName s).
Proof.
  intros Hrt Hr Hr'. destruct (cluster_reachable_wf c Hrt Hr) as [Hl Hc].
  assert (rtc lock_step (mkCluster ∅ ∅) c') as Hr2 by (etrans; eassumption).
  destruct (cluster_reachable_wf c' Hrt Hr2) as [Hl' _].
  split; [|done]. intros n a s Hn. destruct (Hl _ _ _ Hn) as [Hna Hns]. split_and!; [done|done|].
  assert (is_Some (locks c' !! n)) as [[a' s'] Ha'].
  { assert (is_Some (locks c !! n)) as Hsome by by eexists.
    clear -Hr' Hsome. induction Hr'; eauto using lock_step_keeps. }
  exists a'. destruct (Hl' _ _ _ Ha') as [_ Hns']. rewrite Hns in Hns'. apply setSubsetIntoName_inj in Hns'. by subst.
Qed.
End cluster.

(** ** What the proxy reports *)

(** A process of the proxy: specifications arrive, and responses to handled
    writes are passed to their closures. *)
Inductive election_step `{Codec} : SpecManager → SpecManager → Prop :=
| es_recv msg m m' : recv msg m = Returns m' → election_step m m'
| es_response h req r hd le code m :
    Handle h req r = Returns hd → hd_modifyResponse hd = Some le → election_step m (modifyResponse le code m).

Section reporting.
Context `{Codec}.

Lemma handle_verb_leader `{HA : Adapter A} h verb r hd le :
  handle_verb A h verb r = Returns hd → hd_modifyResponse hd = Some le → le_IsLeader le = true.
Proof.
  unfold handle_verb, handle_create, handle_update. intros Hh Hm.
  destruct (decide (verb = "create" ∨ verb = "update")).
  2:{ destruct (decide (verb = "get")); by simplify_eq/=. }
  destruct (DecodeFrom r) as [adp|]; [|by simplify_eq/=].
  destruct (decide (verb = "create")); [destruct (decide (GetName adp ≠ h_lockName h))|].
  - apply bind_Returns in Hh as (r' & _ & Hh). by simplify_eq/=.
  - destruct (GetHoldIdentity adp); [|by simplify_eq/=].
    apply bind_Returns in Hh as (r' & _ & Hh). by simplify_eq/=.
  - destruct (GetHoldIdentity adp); [|by simplify_eq/=].
    apply bind_Returns in Hh as (r' & _ & Hh). by simplify_eq/=.
Qed.

Lemma Handle_leader h req r hd le :
  Handle h req r = Returns hd → hd_modifyResponse hd = Some le → le_IsLeader le = true.
Proof.
  unfold Handle. intros Hh Hm. destruct (_ || _); [by simplify_eq/=|].
  destruct (decide (ri_Namespace req ≠ _)); [by simplify_eq/=|]. destruct (_ && _); [by simplify_eq/=|].
  destruct (decide (_ = (_, _, "configmaps"))); [exact (handle_verb_leader _ _ _ _ _ Hh Hm)|].
  destruct (decide (_ = (_, _, "endpoints"))); [exact (handle_verb_leader _ _ _ _ _ Hh Hm)|].
  destruct (decide (_ = (_, _, "leases"))); [exact (handle_verb_leader _ _ _ _ _ Hh Hm)|]. by simplify_eq/=.
Qed.

Lemma UpdateSpec_leader spec m m' : UpdateSpec spec m = Returns m' → leaderElectionState m' = leaderElectionState m.
Proof.
  unfold UpdateSpec. intros Hu. apply bind_Returns in Hu as (st & _ & Hu).
  apply bind_Returns in Hu as ([e|] & _ & Hu); [by simplify_eq/=|].
  apply bind_Returns in Hu as (st' & _ & Hu). by simplify_eq/=.
Qed.

Lemma recv_leader msg m m' : recv msg m = Returns m' → leaderElectionState m' = leaderElectionState m.
Proof. unfold recv. intros Hr. repeat (case_match; simplify_eq/=; try done); by eapply UpdateSpec_leader. Qed.

(** A proxy that has reported its operator as the leader reports it as the
    leader for the rest of its life: no response to any request, of any code,
    and no specification makes the reported state say anything else, and the
    only change left is the holder's identity.  A lost or released lease (an
    update with another holder, a restart of the operator's container) is not
    seen by the manager. *)
Theorem leadership_never_withdrawn m m' id :
  rtc election_step m m' → leaderElectionState m = Some (mkLeaderState id true) →
  ∃ id', leaderElectionState m' = Some (mkLeaderState id' true).
Proof.
  intros Hr. revert id. induction Hr as [m|m m1 m2 Hs _ IH]; intros id Hm; [by exists id|].
  destruct Hs as [msg m m1 Hrecv|h req r hd le code m Hh Hle].
  - apply (IH id). by rewrite (recv_leader msg m m1 Hrecv).
  - unfold modifyResponse in IH. case_decide; [|by apply (IH id)].
    apply (IH (le_Identity le)). simpl. pose proof (Handle_leader h req r hd le Hh Hle). by destruct le; simplify_eq/=.
Qed.

(** A created lock is not reported: a successful creation is answered 201,
    and the closure that [Handle] returns acts on 200 only, so the manager
    keeps its state and its status, and triggers no report; only the first
    renewal, an update answered 200, makes the holder known. *)
Theorem created_leader_not_reported h req r A (HA : Adapter A) (HL : AdapterLaws A) (a : A) id m :
  roundtrips A → concerns h req → lock_resource (gvr_of req) A HA →
  ri_Verb req = "create" → DecodeFrom r = Ok a → GetName a = h_lockName h → GetHoldIdentity a = Some id →
  ∃ r' a' le, Handle h req r = Returns (mkHandled true (Some le) None r') ∧
    DecodeFrom r' = Ok a' ∧ GetName a' = lock_of h ∧
    modifyResponse le 201 m = m ∧ leaderElectionState (modifyResponse le 200 m) = Some (mkLeaderState id true).
Proof.
  intros Hrt Hc Hres Hv Hd Hn Hid. rewrite (Handle_switch h req r A HA Hc Hres), Hv.
  unfold handle_verb. rewrite decide_True, Hd, decide_True by auto.
  destruct (handle_create_renames h a r id Hrt Hd Hn Hid) as (r' & a' & Hh & Hd' & Hn' & _).
  by exists r', a', (mkLeaderState id true).
Qed.
End reporting.

(** ** Examples

    A codec that loses nothing: objects are countable, and a number is
    written in binary. *)

#[export] Instance LockMeta_eq_dec : EqDecision LockMeta.
Proof. solve_decision. Defined.
#[export] Instance objectAdapter_eq_dec k : EqDecision (objectAdapter k).
Proof. solve_decision. Defined.
#[export] Instance leaseAdapter_eq_dec : EqDecision leaseAdapter.
Proof. solve_decision. Defined.
#[export] Instance LockMeta_countable : Countable LockMeta.
Proof.
  refine (inj_countable' (λ o, (lm_Name o, lm_Labels o, lm_Annotations o))
            (λ '(n, l, a), mkLockMeta n l a) _). by intros [].
Defined.
#[export] Instance objectAdapter_countable k : Countable (objectAdapter k).
Proof. refine (inj_countable' (λ o, (oa_metaObj o, oa_rest o)) (λ '(m, r), mkObject m r) _). by intros []. Defined.
#[export] Instance leaseAdapter_countable : Countable leaseAdapter.
Proof.
  refine (inj_countable' (λ o, (la_meta o, la_HolderIdentity o, la_rest o))
            (λ '(m, h, r), mkLease m h r) _). by intros [].
Defined.

Fixpoint demo_text (p : positive) : string :=
  match p with xH => EmptyString | xO p => String "0" (demo_text p) | xI p => String "1" (demo_text p) end.
Fixpoint demo_number (s : string) : positive :=
  match s with
  | EmptyString => xH
  | String a s => if decide (a = "0"%char) then xO (demo_number s) else xI (demo_number s)
  end.
Lemma demo_number_text p : demo_number (demo_text p) = p.
Proof. induction p as [p IH|p IH|]; simpl; by rewrite ?IH. Qed.

#[local] Instance demo_codec : Codec := {|
  ParseMediaType := Some;
  SupportedMediaTypes := ["application/json"];
  decode_object k ser body := decode (demo_number body);
  encode_object k ser o := demo_text (encode o);
  decode_lease ser body := decode (demo_number body);
  encode_lease ser o := demo_text (encode o);
  holder_of_record := Some;
|}.

Lemma demo_lease_roundtrips : roundtrips leaseAdapter.
Proof. intros ser a _. cbn. by rewrite demo_number_text, decode_encode. Qed.
Lemma demo_object_roundtrips k : roundtrips (objectAdapter k).
Proof. intros ser a _. cbn. by rewrite demo_number_text, decode_encode. Qed.

Definition demo_handler : handler := mkHandler "ns" "op" "s1".
Definition demo_lease (name : string) : leaseAdapter := mkLease (mkLockMeta name None ∅) (Some "op-0_x") EmptyString.
Definition demo_req (path : string) (l : leaseAdapter) : HttpReq :=
  mkHttpReq "application/json" (Some (Ok (demo_text (encode l)))) path 0 EmptyString.

Lemma demo_req_decodes path l : DecodeFrom (demo_req path l) = Ok l.
Proof.
  unfold DecodeFrom, getSerializer, decodeObject, demo_req; cbn [hr_ContentType hr_Body].
  rewrite decide_False by done. cbn. by rewrite demo_number_text, decode_encode.
Qed.

Lemma Handle_moves_lock_witness :
  ∃ r' a', Handle demo_handler (lock_info "ns" "create" EmptyString) (demo_req "/leases" (demo_lease "op"))
           = Returns (mkHandled true (Some (mkLeaderState "op-0_x" true)) None r') ∧
    DecodeFrom r' = Ok a' ∧ GetName (a' : leaseAdapter) = "op---s1" ∧ GetHoldIdentity a' = Some "op-0_x".
Proof.
  destruct (Handle_moves_lock demo_handler (lock_info "ns" "create" EmptyString)
              (demo_req "/leases" (demo_lease "op")) leaseAdapter lease_Adapter _ demo_lease_roundtrips) as [_ Hw].
  - split_and!; try reflexivity. by left.
  - constructor.
  - destruct (Hw (demo_lease "op") (demo_req_decodes _ _)) as [Hc _]. by apply Hc.
Defined.

Lemma created_leader_not_reported_witness :
  ∃ r' a' le, Handle demo_handler (lock_info "ns" "create" EmptyString) (demo_req "/leases" (demo_lease "op"))
           = Returns (mkHandled true (Some le) None r') ∧
    DecodeFrom (A := leaseAdapter) r' = Ok a' ∧ GetName a' = "op---s1" ∧
    modifyResponse le 201 (demo_spec_manager None) = demo_spec_manager None ∧
    leaderElectionState (modifyResponse le 200 (demo_spec_manager None)) = Some (mkLeaderState "op-0_x" true).
Proof.
  apply (created_leader_not_reported demo_handler (lock_info "ns" "create" EmptyString)
           (demo_req "/leases" (demo_lease "op")) leaseAdapter lease_Adapter _ (demo_lease "op") "op-0_x"
           (demo_spec_manager None) demo_lease_roundtrips); try reflexivity.
  - split_and!; try reflexivity. by left.
  - constructor.
Defined.

Definition demo_leader : SpecManager :=
  UpdateLeaderElection (Some (mkLeaderState "op-0_x" true)) (demo_spec_manager None).

Lemma leadership_never_withdrawn_witness :
  ∃ id', leaderElectionState (modifyResponse (mkLeaderState EmptyString true) 200 demo_leader)
         = Some (mkLeaderState id' true).
Proof.
  apply (leadership_never_withdrawn demo_leader _ "op-0_x"); [|reflexivity].
  apply rtc_once. eapply (es_response demo_handler (lock_info "ns" "update" "op---s1")
    (demo_req "/leases/op---s1" (mkLease (mkLockMeta "op---s1" None ∅) (Some EmptyString) EmptyString)));
    [vm_compute; reflexivity|reflexivity].
Defined.

(** Two shards, each of which has created its lease. *)
Definition demo_cluster1 : cluster :=
  mkCluster {["op---s1" := (demo_lease "op---s1", "s1")]} {["s1" := demo_lease "op---s1"]}.
Definition demo_cluster2 : cluster :=
  mkCluster (<["op---s2" := (demo_lease "op---s2", "s2")]> (locks demo_cluster1))
            (<["s2" := demo_lease "op---s2"]> (copies demo_cluster1)).

Lemma demo_create s c :
  s ≠ EmptyString → locks c !! setSubsetIntoName "op" s = None →
  lock_step "ns" "op" c
    (mkCluster (<[setSubsetIntoName "op" s := (demo_lease (setSubsetIntoName "op" s), s)]> (locks c))
               (<[s := demo_lease (setSubsetIntoName "op" s)]> (copies c))).
Proof.
  intros Hs Hfree.
  destruct (handle_create_renames (shard_handler "ns" "op" s) (demo_lease "op")
              (demo_req "/leases" (demo_lease "op")) "op-0_x" demo_lease_roundtrips
              (demo_req_decodes _ _) eq_refl eq_refl) as (r' & a' & Hh & Hd & _ & _).
  assert (a' = demo_lease (setSubsetIntoName "op" s)) as ->.
  { unfold handle_create in Hh. rewrite decide_False in Hh by (by intros ?). cbn -[setSubsetIntoName demo_text] in Hh.
    rewrite decide_True in Hh by done. injection Hh as <-. unfold DecodeFrom, decodeObject in Hd. cbn -[setSubsetIntoName] in Hd.
    rewrite demo_number_text, decode_encode in Hd. by injection Hd as <-. }
  eapply (ls_create "ns" "op" s (demo_lease "op") (demo_req "/leases" (demo_lease "op"))
            (mkHandled true (Some (mkLeaderState "op-0_x" true)) None r')
            (demo_lease (setSubsetIntoName "op" s)) c); [done|apply demo_req_decodes|done| |done|apply Hd|exact Hfree].
  rewrite Handle_lease by (apply concerns_lock; by left). unfold handle_verb.
  rewrite decide_True, demo_req_decodes, decide_True by auto. apply Hh.
Qed.

Lemma shards_elect_independently_witness :
  rtc (lock_step "ns" "op") (mkCluster ∅ ∅) demo_cluster1 ∧
  rtc (lock_step "ns" "op") demo_cluster1 demo_cluster2 ∧
  ∃ a', locks demo_cluster2 !! "op---s1" = Some (a', "s1").
Proof.
  assert (rtc (lock_step "ns" "op") (mkCluster ∅ ∅) demo_cluster1) as H1 by (apply rtc_once; by apply (demo_create "s1")).
  assert (rtc (lock_step "ns" "op") demo_cluster1 demo_cluster2) as H2 by (apply rtc_once; by apply (demo_create "s2")).
  split_and!; [done|done|].
  destruct (shards_elect_independently "ns" "op" demo_cluster1 demo_cluster2 demo_lease_roundtrips H1 H2) as [Hl _].
  apply (Hl "op---s1" (demo_lease "op---s1") "s1"). reflexivity.
Defined.
