(* ===== verification/ProxyClient.v ===== *)
(** * The proxy's client of the manager

    src/pkg/proxy/proto/grpc.go, with the locking of proto_manager.go: the
    goroutine that connects, greets and receives, the goroutine every stream
    starts to send statuses, the channel of triggers between them, and the
    updates of the leader that take the same lock and feed the same channel.
    Every access that another goroutine may come between is a step. *)

From stdpp Require Export relations.
From S2P Require Import Prelude GoStrings Selector Sharding ShardingReconcile ShardServer ShardRegistry SpecManager ManagerState.

(** ** The two halves of [UpdateSpec]

    The expected specification is set and written before the lock is taken;
    the check and the loading are under the lock. *)

Definition expectSpec (spec : ProxySpec) (m : SpecManager) : outcome SpecManager :=
  st ← must (writeExpectedSpec spec (sm_storage m));
  Returns (mkSpecManager st (Some spec) (currentSpec m) (unloadReason m) (leaderElectionState m) (reports m)).

Definition loadSpec (m : SpecManager) : outcome SpecManager :=
  err ← checkLoadable m;
  match err with
  | Some e =>
      Returns (mkSpecManager (sm_storage m) (expectedSpec m) (currentSpec m) e (leaderElectionState m) (reports m))
  | None =>
      spec ← deref (expectedSpec m);
      st ← must (writeCurrentSpec spec (sm_storage m));
      Returns (mkSpecManager st (expectedSpec m) (expectedSpec m) (unloadReason m) (leaderElectionState m) (reports m))
  end.

Lemma UpdateSpec_halves spec m : UpdateSpec spec m = (m' ← expectSpec spec m; loadSpec m').
Proof. unfold UpdateSpec, expectSpec, loadSpec. by destruct (must _). Qed.

(** The specification in a received message; one without meta or limits is
    only logged. *)
Definition recv_spec (msg : option SpecMsg) : option ProxySpec :=
  match msg with
  | Some (mkSpecMsg (Some meta) ((_ :: _) as limits)) => Some (mkProxySpec meta limits)
  | _ => None
  end.

Lemma recv_halves msg m :
  recv msg m = match recv_spec msg with
               | Some spec => m' ← expectSpec spec m; loadSpec m'
               | None => Returns m
               end.
Proof. destruct msg as [[[meta|] [|l ls]]|]; try done. simpl. by rewrite UpdateSpec_halves. Qed.

(** ** State *)

(** A status with the reason a specification was not loaded. *)
Abbreviation Told := (ProxyStatus * string)%type.

(** A message on a stream. *)
Record Report := mkReport { rp_SelfInfo : option SelfInfo_; rp_Status : ProxyStatus; rp_Reason : string }.
Definition told_of (r : Report) : Told := (rp_Status r, rp_Reason r).

(** Where [connect] is.  Streams are numbered in the order of [Register]. *)
Inductive main_pc :=
| Connecting                            (* looking for the manager *)
| Registered (id : nat)                 (* about to read the first status *)
| Greeting (id : nat) (first : Told)    (* about to send it *)
| Receiving (id : nat)                  (* in Receive *)
| Loading (id : nat)                    (* in UpdateSpec, before the lock *)
| Received (id : nat)                   (* about to close initChan, once *)
| Reporting (id : nat).                 (* about to send a trigger *)

(** Where a sending goroutine is. *)
Inductive sender_pc :=
| WaitInit                              (* before the first message *)
| Selecting                             (* in the select *)
| Woken                                 (* about to read the status *)
| Sending (st : Told).                  (* about to send it *)

(** A timer runs, and has fired when its channel holds a value; stopping it
    leaves the value there. *)
Record sender := mkSender {
  sd_pc : sender_pc;
  sd_prevStatus : option Told;
  sd_running : bool;
  sd_fired : bool;
}.

Record client := mkClient {
  cl_spec : SpecManager;
  cl_locked : bool;              (* by an UpdateLeaderElection that has a trigger to send *)
  cl_triggers : nat;             (* in reportTriggerChan *)
  cl_init : bool;                (* initChan is closed *)
  cl_main : main_pc;
  cl_next : nat;
  cl_senders : gmap nat sender;  (* by their stream *)
  cl_sent : gmap nat (list Report);
}.

(** The capacity of reportTriggerChan. *)
Definition triggerCap : nat := 1000.

Definition NewGrpcClient (m : SpecManager) : client := mkClient m false 0 false Connecting 0 ∅ ∅.

Definition sent (s : client) (id : nat) : list Report := default [] (cl_sent s !! id).

(** The stream of [connect]. *)
Definition main_stream (pc : main_pc) : option nat :=
  match pc with
  | Connecting => None
  | Registered id | Greeting id _ | Receiving id | Loading id | Received id | Reporting id => Some id
  end.
(** The stream whose sender has not been stopped. *)
Definition open_stream (pc : main_pc) : option nat :=
  match pc with
  | Connecting | Registered _ | Greeting _ _ => None
  | Receiving id | Loading id | Received id | Reporting id => Some id
  end.

Definition at_main (pc : main_pc) (s : client) : client :=
  mkClient (cl_spec s) (cl_locked s) (cl_triggers s) (cl_init s) pc (cl_next s) (cl_senders s) (cl_sent s).
Definition with_spec (m : SpecManager) (s : client) : client :=
  mkClient m (cl_locked s) (cl_triggers s) (cl_init s) (cl_main s) (cl_next s) (cl_senders s) (cl_sent s).
Definition with_lock (b : bool) (s : client) : client :=
  mkClient (cl_spec s) b (cl_triggers s) (cl_init s) (cl_main s) (cl_next s) (cl_senders s) (cl_sent s).
Definition with_triggers (n : nat) (s : client) : client :=
  mkClient (cl_spec s) (cl_locked s) n (cl_init s) (cl_main s) (cl_next s) (cl_senders s) (cl_sent s).
Definition with_senders (sds : gmap nat sender) (s : client) : client :=
  mkClient (cl_spec s) (cl_locked s) (cl_triggers s) (cl_init s) (cl_main s) (cl_next s) sds (cl_sent s).
Definition with_sent (id : nat) (r : Report) (s : client) : client :=
  mkClient (cl_spec s) (cl_locked s) (cl_triggers s) (cl_init s) (cl_main s) (cl_next s) (cl_senders s)
    (<[id := sent s id ++ [r]]> (cl_sent s)).
Definition put (id : nat) (sd : sender) (s : client) : client := with_senders (<[id := sd]> (cl_senders s)) s.
Definition closed_init (s : client) : client :=
  mkClient (cl_spec s) (cl_locked s) (cl_triggers s) true (cl_main s) (cl_next s) (cl_senders s) (cl_sent s).
Definition opened (s : client) : client :=
  mkClient (cl_spec s) (cl_locked s) (cl_triggers s) (cl_init s) (Registered (cl_next s)) (S (cl_next s))
    (cl_senders s) (cl_sent s).

(** ** The operations *)

(** The first status: an empty one before a specification is loaded. *)
Definition firstStatus (m : SpecManager) : outcome Told :=
  '(st, reason) ← GetStatus m;
  Returns (default (mkProxyStatus None None) st, reason).

(** The first message has been sent: it carries the identity of the pod, and
    the stream gets its sender. *)
Definition greet (self : SelfInfo_) (id : nat) (st : Told) (s : client) : client :=
  put id (mkSender WaitInit None false false)
    (at_main (Receiving id) (with_sent id (mkReport (Some self) st.1 st.2) s)).

(** A new timer of a minute. *)
Definition start_sender (sd : sender) : sender := mkSender Selecting (sd_prevStatus sd) true (sd_fired sd).
(** Out of the select, with the timer stopped. *)
Definition wake (fired : bool) (sd : sender) : sender := mkSender Woken (sd_prevStatus sd) false fired.
(** Back to the select after [send] returned without an error: the timer is
    reset, and a status that was sent is remembered. *)
Definition sent_ok (status : option Told) (sd : sender) : sender :=
  mkSender Selecting (match status with Some st => Some st | None => sd_prevStatus sd end) true (sd_fired sd).
(** After an error: nothing. *)
Definition sent_err (sd : sender) : sender := mkSender Selecting (sd_prevStatus sd) false (sd_fired sd).
Definition report_of (st : Told) : Report := mkReport None st.1 st.2.

(** [UpdateLeaderElection] up to the trigger, which is sent with the lock held. *)
Definition begin_leader (le : option LeaderState) (s : client) : client :=
  with_lock (bool_decide (leaderElectionState (cl_spec s) ≠ le))
    (with_spec (UpdateLeaderElection le (cl_spec s)) s).

(** [AcquireSpec] takes the lock for reading: it waits ([None]) while an update
    of the leader holds it. *)
Definition AcquireSpec (s : client) : option (option ProxySpec) :=
  if cl_locked s then None else Some (currentSpec (cl_spec s)).

(** ** Steps *)

Section steps.
Context (self : SelfInfo_).

(** What the process does by itself, as long as its open stream works. *)
Inductive istep : client → client → Prop :=
| i_status id st s : cl_main s = Registered id → cl_locked s = false →
    firstStatus (cl_spec s) = Returns st → istep s (at_main (Greeting id st) s)
| i_greet id st s : cl_main s = Greeting id st → istep s (greet self id st s)
| i_load id m s : cl_main s = Loading id → cl_locked s = false → loadSpec (cl_spec s) = Returns m →
    istep s (at_main (Received id) (with_spec m s))
| i_received id s : cl_main s = Received id → istep s (at_main (Reporting id) (closed_init s))
| i_report id s : cl_main s = Reporting id → cl_triggers s < triggerCap →
    istep s (at_main (Receiving id) (with_triggers (S (cl_triggers s)) s))
| i_leader s : cl_locked s = true → cl_triggers s < triggerCap →
    istep s (with_lock false (with_triggers (S (cl_triggers s)) s))
| i_start id sd s : cl_senders s !! id = Some sd → sd_pc sd = WaitInit → cl_init s = true →
    istep s (put id (start_sender sd) s)
| i_wake id sd n s : cl_senders s !! id = Some sd → sd_pc sd = Selecting →
    open_stream (cl_main s) = Some id → cl_triggers s = S n →
    istep s (put id (wake (sd_fired sd) sd) (with_triggers n s))
| i_timer id sd s : cl_senders s !! id = Some sd → sd_pc sd = Selecting → sd_fired sd = true →
    istep s (put id (wake false sd) s)
| i_stop id sd s : cl_senders s !! id = Some sd → sd_pc sd = Selecting →
    open_stream (cl_main s) ≠ Some id → istep s (with_senders (delete id (cl_senders s)) s)
| i_skip id sd s : cl_senders s !! id = Some sd → sd_pc sd = Woken → cl_locked s = false →
    send (sd_prevStatus sd) (cl_spec s) = Returns None → istep s (put id (sent_ok None sd) s)
| i_make id sd st s : cl_senders s !! id = Some sd → sd_pc sd = Woken → cl_locked s = false →
    send (sd_prevStatus sd) (cl_spec s) = Returns (Some st) →
    istep s (put id (mkSender (Sending st) (sd_prevStatus sd) (sd_running sd) (sd_fired sd)) s)
| i_send id sd st s : cl_senders s !! id = Some sd → sd_pc sd = Sending st →
    open_stream (cl_main s) = Some id →
    istep s (put id (sent_ok (Some st) sd) (with_sent id (report_of st) s))
| i_broken id sd st s : cl_senders s !! id = Some sd → sd_pc sd = Sending st →
    open_stream (cl_main s) ≠ Some id → istep s (put id (sent_err sd) s).

(** A sender that is to stop may take a trigger first: the select does not
    prefer the closed channel. *)
Inductive steal : client → client → Prop :=
| i_steal id sd n s : cl_senders s !! id = Some sd → sd_pc sd = Selecting →
    open_stream (cl_main s) ≠ Some id → cl_triggers s = S n →
    steal s (put id (wake (sd_fired sd) sd) (with_triggers n s)).

(** What comes from outside: the manager, the operator's elections, time. *)
Inductive estep : client → client → Prop :=
| e_connect get_error cached leader s : cl_main s = Connecting →
    connect_target get_error cached = Ok leader → estep s (opened s)
| e_ungreeted id st s : cl_main s = Greeting id st → estep s (at_main Connecting s)
| e_disconnect id s : cl_main s = Receiving id → estep s (at_main Connecting s)
| e_ignore id msg s : cl_main s = Receiving id → recv_spec msg = None → estep s (at_main (Received id) s)
| e_recv id msg spec m s : cl_main s = Receiving id → recv_spec msg = Some spec →
    expectSpec spec (cl_spec s) = Returns m → estep s (at_main (Loading id) (with_spec m s))
| e_leader le s : cl_locked s = false → estep s (begin_leader le s)
| e_timer id sd s : cl_senders s !! id = Some sd → sd_running sd = true →
    estep s (put id (mkSender (sd_pc sd) (sd_prevStatus sd) false true) s).

(** A send that fails although the stream is still open. *)
Inductive fail : client → client → Prop :=
| e_fail id sd st s : cl_senders s !! id = Some sd → sd_pc sd = Sending st →
    open_stream (cl_main s) = Some id → fail s (put id (sent_err sd) s).

Inductive cstep : client → client → Prop :=
| c_internal s s' : istep s s' → cstep s s'
| c_steal s s' : steal s s' → cstep s s'
| c_external s s' : estep s s' → cstep s s'
| c_fail s s' : fail s s' → cstep s s'.
#[local] Hint Constructors cstep : core.
End steps.
