(* ===== verification/ClientRuns.v ===== *)
(** * Runs of the proxy's client

    The invariants of [ProxyClient] and what follows: what the manager is told
    on a stream, that nothing goes unreported, and the runs in which a status
    is late or the process hangs. *)

From S2P Require Import Prelude GoStrings Selector Sharding ShardingReconcile ShardServer ShardRegistry SpecManager LeaderElection ManagerState ProxyClient.

(** ** What a stream carries *)

Section runs.
Context (self : SelfInfo_).

(** The pod introduces itself first and only then, and no status is repeated
    after that. *)
Definition introduced (l : list Report) : Prop :=
  l = [] ∨ ∃ first rest, l = first :: rest ∧ rp_SelfInfo first = Some self ∧
    Forall (λ r, rp_SelfInfo r = None) rest ∧
    ∀ i a b, rest !! i = Some a → rest !! S i = Some b → told_of a ≠ told_of b.

Lemma told_report st : told_of (report_of st) = st.
Proof. by destruct st. Qed.

Lemma introduced_snoc first rest st :
  introduced (first :: rest) → told_of <$> last rest ≠ Some st →
  introduced ((first :: rest) ++ [report_of st]).
Proof.
  intros [|(f & r & [= <- <-] & Hf & Hr & Hd)] Hl; [done|]. right. exists first, (rest ++ [report_of st]).
  split_and!; [done|done| |].
  { apply Forall_app; split; [done|by apply Forall_singleton]. }
  intros i a b Ha Hb. pose proof (lookup_lt_Some _ _ _ Hb) as Hlt. rewrite length_app in Hlt. simpl in Hlt.
  rewrite lookup_app_l in Ha by lia.
  destruct (decide (S i < length rest)) as [Hi|Hi].
  - rewrite lookup_app_l in Hb by lia. by eapply Hd.
  - assert (S i = length rest) as Hi' by lia. rewrite Hi' in Hb. rewrite list_lookup_middle in Hb by done.
    injection Hb as <-. rewrite told_report. intros <-. apply Hl. rewrite last_lookup, <- Hi'. simpl. by rewrite Ha.
Qed.

(** What the sender of a stream knows. *)
Record sender_wf (s : client) (id : nat) (sd : sender) : Prop := {
  sw_id : id < cl_next s;
  sw_prev : ∃ first rest, sent s id = first :: rest ∧ sd_prevStatus sd = told_of <$> last rest;
  sw_new : ∀ st, sd_pc sd = Sending st → sd_prevStatus sd ≠ Some st;
  sw_init : sd_pc sd ≠ WaitInit → cl_init s = true;
}.

Record client_wf (s : client) : Prop := {
  cw_main : ∀ id, main_stream (cl_main s) = Some id → id < cl_next s;
  cw_senders : ∀ id sd, cl_senders s !! id = Some sd → sender_wf s id sd;
  cw_future : ∀ id, cl_next s ≤ id → sent s id = [];
  cw_greeting : ∀ id, main_stream (cl_main s) = Some id → open_stream (cl_main s) = None →
    sent s id = [] ∧ cl_senders s !! id = None;
  cw_open : ∀ id, open_stream (cl_main s) = Some id → is_Some (cl_senders s !! id);
  cw_sent : ∀ id, introduced (sent s id);
  cw_reporting : ∀ id, cl_main s = Reporting id → cl_init s = true;
  cw_triggers : cl_triggers s ≤ triggerCap;
}.

Lemma NewGrpcClient_wf m : client_wf (NewGrpcClient m).
Proof.
  split; simpl; try done; try (intros; lia).
  intros id. left. unfold sent. simpl. by rewrite lookup_empty.
Qed.

Lemma sent_with_sent id id' r s : sent (with_sent id r s) id' = if decide (id = id') then sent s id ++ [r] else sent s id'.
Proof. unfold sent at 1. simpl. case_decide as Hd; [subst; by rewrite lookup_insert_eq|]. by rewrite lookup_insert_ne. Qed.

(** Steps that leave the senders, the streams and the messages alone. *)
Lemma client_wf_main s s' :
  cl_senders s' = cl_senders s → cl_sent s' = cl_sent s → cl_next s' = cl_next s →
  (cl_init s = true → cl_init s' = true) → cl_triggers s' ≤ triggerCap →
  (main_stream (cl_main s') = main_stream (cl_main s) ∧ open_stream (cl_main s') = open_stream (cl_main s)
   ∨ cl_main s' = Connecting) →
  (∀ id, cl_main s' = Reporting id → cl_init s' = true) →
  client_wf s → client_wf s'.
Proof.
  intros Hsd Hse Hn Hi Ht Hm Hr [Hw1 Hw2 Hw3 Hw4 Hw5 Hw6 Hw7 Hw8].
  assert (Hs : ∀ id, sent s' id = sent s id) by (intros id; unfold sent; by rewrite Hse).
  assert (Hmain : ∀ id, main_stream (cl_main s') = Some id →
    main_stream (cl_main s) = Some id ∧ open_stream (cl_main s') = open_stream (cl_main s)).
  { intros id Hid. destruct Hm as [[<- <-]|Hm]; [done|]. by rewrite Hm in Hid. }
  split; try done.
  - intros id [Hid _]%Hmain. rewrite Hn. by apply Hw1.
  - rewrite Hsd. intros id sd [H1 H2 H3 H4]%Hw2. split; [by rewrite Hn|by rewrite Hs|done|auto].
  - intros id Hid. rewrite Hs. apply Hw3. by rewrite <- Hn.
  - intros id [Hid ->]%Hmain Ho. rewrite Hs, Hsd. by apply Hw4.
  - intros id Hid. rewrite Hsd. apply Hw5. destruct Hm as [[_ <-]|Hm]; [done|]. by rewrite Hm in Hid.
  - intros id. rewrite Hs. apply Hw6.
Qed.

(** Steps of one sender that send nothing. *)
Lemma client_wf_put s id sd' n :
  n ≤ triggerCap → client_wf s → sender_wf s id sd' → client_wf (put id sd' (with_triggers n s)).
Proof.
  intros Hn [Hw1 Hw2 Hw3 Hw4 Hw5 Hw6 Hw7 Hw8] Hsd. split; try done; simpl.
  - intros id' sd [[<- <-]|[Hne Hl]]%lookup_insert_Some; [by destruct Hsd; split|].
    destruct (Hw2 _ _ Hl). by split.
  - intros id' Hid Ho. destruct (Hw4 _ Hid Ho) as [? Hnone]. split; [done|].
    destruct (decide (id = id')) as [<-|Hne]; [|by simplify_map_eq].
    exfalso. destruct Hsd as [_ (f & r & Hs & _) _ _]. congruence.
  - intros id' Ho. destruct (decide (id = id')) as [<-|Hne]; simplify_map_eq; eauto.
Qed.

Lemma with_triggers_same s : with_triggers (cl_triggers s) s = s.
Proof. by destruct s. Qed.

Lemma sender_wf_pc s id sd sd' : sender_wf s id sd → sd_prevStatus sd' = sd_prevStatus sd →
  (∀ st, sd_pc sd' = Sending st → sd_prevStatus sd ≠ Some st) → (sd_pc sd' ≠ WaitInit → cl_init s = true) →
  sender_wf s id sd'.
Proof. intros [? ? _ _] Hp Hs Hi. split; try done; rewrite Hp; done. Qed.

Lemma greet_wf id st s : cl_main s = Greeting id st → client_wf s → client_wf (greet self id st s).
Proof.
  intros Hm [Hw1 Hw2 Hw3 Hw4 Hw5 Hw6 Hw7 Hw8]. rewrite Hm in *. simpl in *.
  destruct (Hw4 id eq_refl eq_refl) as [Hs0 Hnone]. pose proof (Hw1 id eq_refl) as Hid.
  assert (Hsent : ∀ id', sent (greet self id st s) id' =
    if decide (id = id') then [mkReport (Some self) st.1 st.2] else sent s id').
  { intros id'. transitivity (sent (with_sent id (mkReport (Some self) st.1 st.2) s) id'); [done|].
    rewrite sent_with_sent. case_decide; [by rewrite Hs0|done]. }
  split; simpl; try done.
  - intros id' sd [[<- <-]|[Hne Hl]]%lookup_insert_Some.
    + split; try done. eexists _, []. rewrite Hsent, decide_True by done. done.
    + destruct (Hw2 _ _ Hl) as [H1 H2 H3 H4]. split; try done. rewrite Hsent, decide_False by done. done.
  - intros id' Hge. rewrite Hsent, decide_False by lia. by apply Hw3.
  - intros id' [= <-]. by simplify_map_eq.
  - intros id'. rewrite Hsent. case_decide; [|apply Hw6]. right. eexists _, []. by split_and!.
Qed.

Lemma send_wf id sd st s : cl_senders s !! id = Some sd → sd_pc sd = Sending st →
  client_wf s → client_wf (put id (sent_ok (Some st) sd) (with_sent id (report_of st) s)).
Proof.
  intros Hl Hpc [Hw1 Hw2 Hw3 Hw4 Hw5 Hw6 Hw7 Hw8].
  destruct (Hw2 _ _ Hl) as [Hid (f & r & Hs & Hp) Hnew Hi].
  assert (Hsent : ∀ id', sent (put id (sent_ok (Some st) sd) (with_sent id (report_of st) s)) id' =
    if decide (id = id') then (f :: r) ++ [report_of st] else sent s id').
  { intros id'. transitivity (sent (with_sent id (report_of st) s) id'); [done|].
    rewrite sent_with_sent. case_decide; [by rewrite Hs|done]. }
  split; simpl; try done.
  - intros id' sd' [[<- <-]|[Hne Hl']]%lookup_insert_Some.
    + split; try done; simpl.
      * exists f, (r ++ [report_of st]). rewrite Hsent, decide_True by done. split; [done|].
        rewrite last_snoc. simpl. by rewrite told_report.
      * intros _. apply Hi. by rewrite Hpc.
    + destruct (Hw2 _ _ Hl') as [H1 H2 H3 H4]. split; try done. rewrite Hsent, decide_False by done. done.
  - intros id' Hge. rewrite Hsent, decide_False by lia. by apply Hw3.
  - intros id' Hm Ho. destruct (Hw4 _ Hm Ho) as [Hse Hnone]. rewrite Hsent, decide_False by congruence.
    split; [done|]. rewrite lookup_insert_ne by congruence. done.
  - intros id' Ho. destruct (decide (id = id')) as [<-|Hne]; simplify_map_eq; eauto.
  - intros id'. rewrite Hsent. case_decide as Hd; [|apply Hw6]. rewrite <- Hs, Hs.
    apply introduced_snoc; [rewrite <- Hs; apply Hw6|]. rewrite <- Hp. by apply Hnew.
Qed.

Lemma stop_wf id s : open_stream (cl_main s) ≠ Some id → client_wf s →
  client_wf (with_senders (delete id (cl_senders s)) s).
Proof.
  intros Hne [Hw1 Hw2 Hw3 Hw4 Hw5 Hw6 Hw7 Hw8]. split; try done; simpl.
  - intros id' sd [_ [H1 H2 H3 H4]%Hw2]%lookup_delete_Some. by split.
  - intros id' Hm Ho. destruct (Hw4 _ Hm Ho) as [? ?]. split; [done|]. apply lookup_delete_None. by right.
  - intros id' Ho. rewrite lookup_delete_ne by congruence. by apply Hw5.
Qed.

Lemma opened_wf s : cl_main s = Connecting → client_wf s → client_wf (opened s).
Proof.
  intros Hm [Hw1 Hw2 Hw3 Hw4 Hw5 Hw6 Hw7 Hw8]. split; simpl; try done.
  - intros id [= <-]. lia.
  - intros id sd [H1 H2 H3 H4]%Hw2. split; simpl; try done. lia.
  - intros id Hge. apply Hw3. lia.
  - intros id [= <-] _. split; [by apply Hw3|]. destruct (cl_senders s !! cl_next s) eqn:Hl; [|done].
    apply Hw2 in Hl as [? _ _ _]. lia.
Qed.

Lemma send_new prev m st : send prev m = Returns (Some st) → prev ≠ Some st.
Proof.
  unfold send. destruct (GetStatus m) as [[[x|] r]|]; simpl; [|done..]. case_decide as Hd; [done|]. by intros [= <-].
Qed.

Lemma begin_leader_main le s : cl_main (begin_leader le s) = cl_main s.
Proof. done. Qed.

Ltac main_only Hm := apply client_wf_main; simpl; rewrite ?Hm; auto; try (intros; simplify_eq; fail); try lia.

Lemma istep_wf s s' : istep self s s' → client_wf s → client_wf s'.
Proof.
  intros Hs Hw. pose proof (cw_triggers _ Hw) as Ht.
  destruct Hs as [id st s Hm Hlk|id st s Hm|id m s Hm Hlk|id s Hm|id s Hm Hlt|s Hlk Hlt|id sd s Hl Hpc Hi|id sd n s Hl Hpc Ho Hn|
    id sd s Hl Hpc Hf|id sd s Hl Hpc Ho|id sd s Hl Hpc Hlk Hsn|id sd st s Hl Hpc Hlk Hsn|id sd st s Hl Hpc Ho|id sd st s Hl Hpc Ho].
  - revert Hw. main_only Hm.
  - by apply greet_wf.
  - revert Hw. main_only Hm.
  - revert Hw. main_only Hm.
  - revert Hw. main_only Hm.
  - pose proof (cw_reporting _ Hw) as Hr. revert Hw. main_only Hlk.
  - rewrite <- (with_triggers_same s) at 1. apply client_wf_put; [done|done|].
    eapply sender_wf_pc; [by eapply cw_senders|done|done|done].
  - apply client_wf_put; [lia|done|]. pose proof (cw_senders _ Hw _ _ Hl) as Hsd.
    eapply sender_wf_pc; [done|done|done|]. intros _. apply Hsd. by rewrite Hpc.
  - rewrite <- (with_triggers_same s) at 1. apply client_wf_put; [done|done|]. pose proof (cw_senders _ Hw _ _ Hl) as Hsd.
    eapply sender_wf_pc; [done|done|done|]. intros _. apply Hsd. by rewrite Hpc.
  - by apply stop_wf.
  - rewrite <- (with_triggers_same s) at 1. apply client_wf_put; [done|done|]. pose proof (cw_senders _ Hw _ _ Hl) as Hsd.
    eapply sender_wf_pc; [done|done|done|]. intros _. apply Hsd. by rewrite Hpc.
  - rewrite <- (with_triggers_same s) at 1. apply client_wf_put; [done|done|]. pose proof (cw_senders _ Hw _ _ Hl) as Hsd.
    eapply sender_wf_pc; [done|done| |]; simpl.
    + intros st' [= <-]. by eapply send_new.
    + intros _. apply Hsd. by rewrite Hpc.
  - by apply send_wf.
  - rewrite <- (with_triggers_same s) at 1. apply client_wf_put; [done|done|]. pose proof (cw_senders _ Hw _ _ Hl) as Hsd.
    eapply sender_wf_pc; [done|done|done|]. intros _. apply Hsd. by rewrite Hpc.
Qed.

Lemma steal_wf s s' : steal s s' → client_wf s → client_wf s'.
Proof.
  intros [id sd n s0 Hl Hpc Ho Hn] Hw. pose proof (cw_triggers _ Hw). apply client_wf_put; [lia|done|].
  pose proof (cw_senders _ Hw _ _ Hl) as Hsd. eapply sender_wf_pc; [done|done|done|]. intros _. apply Hsd. by rewrite Hpc.
Qed.

Lemma fail_wf s s' : fail s s' → client_wf s → client_wf s'.
Proof.
  intros [id sd st s0 Hl Hpc Ho] Hw. pose proof (cw_triggers _ Hw).
  rewrite <- (with_triggers_same s0) at 1. apply client_wf_put; [done|done|].
  pose proof (cw_senders _ Hw _ _ Hl) as Hsd. eapply sender_wf_pc; [done|done|done|]. intros _. apply Hsd. by rewrite Hpc.
Qed.

Lemma estep_wf s s' : estep s s' → client_wf s → client_wf s'.
Proof.
  intros Hs Hw. pose proof (cw_triggers _ Hw) as Ht.
  destruct Hs as [ge cached leader s Hm Hc|id st s Hm|id s Hm|id msg s Hm Hr|id msg spec m s Hm Hr He|le s Hlk|id sd s Hl Hrun].
  - by apply opened_wf.
  - revert Hw. main_only Hm.
  - revert Hw. main_only Hm.
  - revert Hw. main_only Hm.
  - revert Hw. main_only Hm.
  - pose proof (cw_reporting _ Hw) as Hrep. revert Hw. main_only Hlk.
  - rewrite <- (with_triggers_same s) at 1. apply client_wf_put; [done|done|]. pose proof (cw_senders _ Hw _ _ Hl) as Hsd.
    eapply sender_wf_pc; [done|done|apply Hsd|apply Hsd].
Qed.

Lemma cstep_wf s s' : cstep self s s' → client_wf s → client_wf s'.
Proof. intros []; [by eapply istep_wf|by eapply steal_wf|by eapply estep_wf|by eapply fail_wf]. Qed.

Lemma client_reachable_wf m s : rtc (cstep self) (NewGrpcClient m) s → client_wf s.
Proof.
  intros Hr. assert (Hw : client_wf (NewGrpcClient m)) by apply NewGrpcClient_wf. revert Hw.
  induction Hr as [|s1 s2 s3 Hs Hr IH]; [done|]. intros Hw. apply IH. by eapply cstep_wf.
Qed.

(** C29. On every stream the pod introduces itself in the first message and in
    no other, and after that no status is sent twice in a row, however the
    goroutines of the client, the operator's elections and failures of
    streams interleave: the manager admits the stream with its first message
    exactly if it knows the pod, the pod is active and carries its shard's
    name. *)
Theorem streams_introduced m s id :
  rtc (cstep self) (NewGrpcClient m) s → si_Namespace self ≠ EmptyString → si_Name self ≠ EmptyString →
  introduced (sent s id) ∧
  ∀ first, head (sent s id) = Some first → ∀ getPod pod shard ev,
    admit_stream (Some (mkFirst (rp_SelfInfo first) (rp_Status first))) getPod = inl (pod, shard, ev) ↔
    getPod (si_Namespace self) (si_Name self) = inl pod ∧ IsPodActive pod = true ∧
    p_Labels pod !! ShardingConfigInjectedKey = Some shard ∧ shard ≠ EmptyString ∧ ev = (si_Namespace self, shard).
Proof.
  intros Hr Hns Hn. pose proof (cw_sent _ (client_reachable_wf _ _ Hr) id) as Hi. split; [done|].
  intros first Hf getPod pod shard ev. rewrite admit_stream_iff.
  destruct Hi as [Hi|(f & r & Hi & Hs & _)]; rewrite Hi in Hf; [done|]. injection Hf as <-. split.
  - intros (f' & si & [= <-] & Hsi & _ & _ & Hrest). simpl in Hsi. rewrite Hs in Hsi. by injection Hsi as <-.
  - intros Hrest. exists (mkFirst (rp_SelfInfo f) (rp_Status f)), self.
    split; [done|]. split; [done|]. split; [done|]. split; [done|]. exact Hrest.
Qed.

(** ** Nothing goes unreported *)

(** The status the client would report now. *)
Definition now (m : SpecManager) : option Told :=
  match GetStatus m with Returns (Some st, reason) => Some (st, reason) | _ => None end.
Definition agrees (m : SpecManager) (t : option Told) : Prop := ∀ st, now m = Some st → t = Some st.
(** The last status on a stream. *)
Definition told (s : client) (id : nat) : option Told := told_of <$> last (sent s id).
(** What it will be when the sender is back in its select. *)
Definition aim (s : client) (id : nat) (sd : sender) : option Told :=
  match sd_pc sd with Sending st => Some st | _ => told s id end.

Definition busy (pc : main_pc) : bool :=
  match pc with Loading _ | Received _ | Reporting _ => true | _ => false end.
(** A trigger is there or about to come. *)
Definition pending (s : client) : Prop := cl_triggers s ≠ 0 ∨ cl_locked s = true ∨ busy (cl_main s) = true.

(** The steps of a client none of whose sends fails on an open stream, and
    none of whose stopped senders takes a trigger. *)
Definition clean (s s' : client) : Prop := istep self s s' ∨ estep s s'.

Record reporting (s : client) : Prop := {
  re_greeting : ∀ id st, cl_main s = Greeting id st → pending s ∨ agrees (cl_spec s) (Some st);
  re_sender : ∀ id sd, open_stream (cl_main s) = Some id → cl_senders s !! id = Some sd → sd_pc sd ≠ Woken →
    pending s ∨ agrees (cl_spec s) (aim s id sd);
}.

Lemma reporting_pending s : pending s → reporting s.
Proof. intros Hp. split; by left. Qed.

Lemma reporting_closed s : (∀ id st, cl_main s ≠ Greeting id st) → open_stream (cl_main s) = None → reporting s.
Proof. intros Hg Ho. split; [|congruence]. intros id st Hm. by destruct (Hg id st). Qed.

Lemma put_lookup s id sd id' sd' : cl_senders (put id sd s) !! id' = Some sd' →
  id = id' ∧ sd = sd' ∨ id ≠ id' ∧ cl_senders s !! id' = Some sd'.
Proof. apply lookup_insert_Some. Qed.
Lemma stop_lookup s id id' sd : cl_senders (with_senders (delete id (cl_senders s)) s) !! id' = Some sd →
  id ≠ id' ∧ cl_senders s !! id' = Some sd.
Proof. apply lookup_delete_Some. Qed.

Lemma reporting_put s id sd' :
  (open_stream (cl_main s) = Some id → sd_pc sd' ≠ Woken → pending s ∨ agrees (cl_spec s) (aim s id sd')) →
  reporting s → reporting (put id sd' s).
Proof.
  intros Hsd [Hg Hs]. split; [done|]. intros id' sd Ho [[<- <-]|[Hne Hl]]%put_lookup Hpc; [by apply Hsd|].
  by eapply Hs.
Qed.

Lemma send_None prev m : send prev m = Returns None → agrees m prev.
Proof.
  unfold send, agrees, now. destruct (GetStatus m) as [[[x|] r]|]; simpl; [|done..].
  case_decide as Hd; [|done]. intros _ st [= <-]. done.
Qed.
Lemma send_Some prev m st : send prev m = Returns (Some st) → now m = Some st.
Proof.
  unfold send, now. destruct (GetStatus m) as [[[x|] r]|]; simpl; [|done..]. case_decide; [done|]. by intros [= <-].
Qed.
Lemma firstStatus_now m st : firstStatus m = Returns st → agrees m (Some st).
Proof.
  unfold firstStatus, agrees, now. destruct (GetStatus m) as [[[x|] r]|]; simpl; [|done..]. by intros [= <-] st' [= <-].
Qed.

(** Nothing new since the last send: the stream was told the current status. *)
Lemma skip_told s id sd : sender_wf s id sd → send (sd_prevStatus sd) (cl_spec s) = Returns None →
  agrees (cl_spec s) (told s id).
Proof.
  intros [_ (f & r & Hs & Hp) _ _] Hn%send_None st Hst. specialize (Hn st Hst). rewrite Hp in Hn. unfold told. rewrite Hs.
  destruct r as [|x r]; [done|]. done.
Qed.

Lemma begin_leader_now le m : leaderElectionState m = le → now (UpdateLeaderElection le m) = now m.
Proof. intros <-. unfold now, GetStatus. simpl. by destruct (currentSpec m). Qed.

Lemma told_sent s id sd st : told (put id sd (with_sent id (report_of st) s)) id = Some st.
Proof.
  unfold told. change (sent (put _ _ _) id) with (sent (with_sent id (report_of st) s) id).
  rewrite sent_with_sent, decide_True by done. rewrite last_snoc. simpl. by rewrite told_report.
Qed.

Lemma told_greet id st s : sent s id = [] → told (greet self id st s) id = Some st.
Proof.
  intros Hs. unfold told. change (sent (greet self id st s) id) with (sent (with_sent id (mkReport (Some self) st.1 st.2) s) id).
  rewrite sent_with_sent, decide_True, Hs by done. by destruct st.
Qed.

Lemma istep_reporting s s' : client_wf s → istep self s s' → reporting s → reporting s'.
Proof.
  intros Hw Hs Hr.
  destruct Hs as [id st s Hm Hlk Hst|id st s Hm|id m s Hm Hlk|id s Hm|id s Hm Hlt|s Hlk Hlt|id sd s Hl Hpc Hi|id sd n s Hl Hpc Ho Hn|
    id sd s Hl Hpc Hf|id sd s Hl Hpc Ho|id sd s Hl Hpc Hlk Hsn|id sd st s Hl Hpc Hlk Hsn|id sd st s Hl Hpc Ho|id sd st s Hl Hpc Ho].
  - split; [|done]. intros id' st' [= <- <-]. right. by apply firstStatus_now.
  - split; [done|]. intros id' sd [= <-] [[_ <-]|[Hne _]]%put_lookup _; [|done].
    destruct (cw_greeting _ Hw id) as [Hs0 _]; [by rewrite Hm..|]. unfold aim. simpl. rewrite told_greet by done.
    destruct (re_greeting _ Hr id st Hm) as [[Hp|[Hp|Hp]]|Ha]; [left; left; done|left; right; left; done|by rewrite Hm in Hp|by right].
  - apply reporting_pending. right. by right.
  - apply reporting_pending. right. by right.
  - apply reporting_pending. by left.
  - apply reporting_pending. by left.
  - apply reporting_put; [|done]. intros Ho _. destruct (re_sender _ Hr id sd Ho Hl) as [Hp|Ha]; [by rewrite Hpc|by left|].
    right. unfold aim in *. by rewrite Hpc in Ha.
  - split; [by intros id' st Hm; simpl in Hm; rewrite Hm in Ho|].
    intros id' sd' Ho' [[<- <-]|[Hne _]]%put_lookup Hpc'; [done|]. simpl in Ho'. congruence.
  - by apply reporting_put.
  - destruct Hr as [Hg Hsd]. split; [done|]. intros id' sd' Ho' [_ Hl']%stop_lookup. by eapply Hsd.
  - apply reporting_put; [|done]. intros Ho _. right. eapply skip_told; [by eapply cw_senders|done].
  - apply reporting_put; [|done]. intros Ho _. right. unfold aim. simpl. intros st' Hst'.
    apply send_Some in Hsn. congruence.
  - split; [by intros id' st' Hm; simpl in Hm; rewrite Hm in Ho|].
    intros id' sd' Ho' Hl' _. simpl in Ho'. assert (id' = id) as -> by congruence.
    simpl in Hl'. rewrite lookup_insert_eq in Hl'. injection Hl' as <-. unfold aim. simpl. rewrite told_sent.
    destruct (re_sender _ Hr id sd Ho Hl) as [Hp|Ha]; [by rewrite Hpc|by left|]. right. unfold aim in Ha. by rewrite Hpc in Ha.
  - by apply reporting_put.
Qed.

Lemma estep_reporting s s' : estep s s' → reporting s → reporting s'.
Proof.
  intros Hs Hr.
  destruct Hs as [ge cached leader s Hm Hc|id st s Hm|id s Hm|id msg s Hm Hrc|id msg spec m s Hm Hrc He|le s Hlk|id sd s Hl Hrun];
    try (by apply reporting_closed); try (apply reporting_pending; right; by right).
  - unfold begin_leader. case_bool_decide as Hd; [apply reporting_pending; right; by left|].
    pose proof (begin_leader_now le (cl_spec s) Hd) as Hnow.
    destruct Hr as [Hg Hsd]. split; unfold agrees; simpl; rewrite Hnow.
    + intros id st Hm. destruct (Hg id st Hm) as [[Hp|[Hp|Hp]]|Ha]; [left; by left|congruence|left; right; by right|by right].
    + intros id sd Ho Hl Hpc. destruct (Hsd id sd Ho Hl Hpc) as [[Hp|[Hp|Hp]]|Ha]; [left; by left|congruence|left; right; by right|by right].
  - apply reporting_put; [|done]. intros Ho Hpc. by destruct (re_sender _ Hr id sd Ho Hl Hpc); [left|right].
Qed.

(** The sender of the open stream has its timer. *)
Definition timed (s : client) : Prop :=
  ∀ id sd, open_stream (cl_main s) = Some id → cl_senders s !! id = Some sd → sd_pc sd = Selecting →
    sd_running sd = true ∨ sd_fired sd = true.

Lemma timed_main s s' : cl_senders s' = cl_senders s →
  (open_stream (cl_main s') = open_stream (cl_main s) ∨ open_stream (cl_main s') = None) → timed s → timed s'.
Proof. intros Hsd Ho Ht id sd Hid. rewrite Hsd. destruct Ho as [Ho|Ho]; [rewrite Ho in Hid; by apply Ht|congruence]. Qed.

Lemma timed_put s s' id sd' : cl_senders s' = <[id := sd']> (cl_senders s) → cl_main s' = cl_main s →
  (open_stream (cl_main s) = Some id → sd_pc sd' = Selecting → sd_running sd' = true ∨ sd_fired sd' = true) →
  timed s → timed s'.
Proof.
  intros Hsd Hm Hn Ht id' sd. rewrite Hsd, Hm. intros Ho [[<- <-]|[Hne Hl]]%lookup_insert_Some; [by apply Hn|by eapply Ht].
Qed.

Lemma clean_timed s s' : clean s s' → timed s → timed s'.
Proof.
  intros [Hs|Hs].
  - destruct Hs as [id st s Hm Hlk Hst|id st s Hm|id m s Hm Hlk|id s Hm|id s Hm Hlt|s Hlk Hlt|id sd s Hl Hpc Hi|id sd n s Hl Hpc Ho Hn|
      id sd s Hl Hpc Hf|id sd s Hl Hpc Ho|id sd s Hl Hpc Hlk Hsn|id sd st s Hl Hpc Hlk Hsn|id sd st s Hl Hpc Ho|id sd st s Hl Hpc Ho];
      try (apply timed_main; [done|simpl; rewrite ?Hm; tauto]); try (eapply timed_put; [done|done|simpl; tauto || done]).
    + intros Ht id' sd [= <-] [[_ <-]|[Hne _]]%put_lookup Hpc; [done|done].
    + intros Ht id' sd' Ho' [_ Hl']%stop_lookup. by eapply Ht.
  - destruct Hs as [ge cached leader s Hm Hc|id st s Hm|id s Hm|id msg s Hm Hrc|id msg spec m s Hm Hrc He|le s Hlk|id sd s Hl Hrun];
      try (apply timed_main; [done|simpl; rewrite ?Hm; tauto]). eapply timed_put; [done|done|]. by right.
Qed.

(** ** The work left ends *)

Definition main_work (pc : main_pc) : nat :=
  match pc with
  | Connecting | Receiving _ => 0
  | Reporting _ => 5 | Received _ => 6 | Loading _ => 7
  | Greeting _ _ => 4 | Registered _ => 5
  end.
Definition sender_work (sd : sender) : nat :=
  match sd_pc sd with WaitInit => 2 | Selecting => 1 | Woken => 3 | Sending _ => 2 end
  + (if sd_fired sd then 3 else 0).
Definition senders_work (sds : gmap nat sender) : nat := map_fold (λ _ sd n, sender_work sd + n) 0 sds.
Definition work (s : client) : nat :=
  4 * cl_triggers s + (if cl_locked s then 5 else 0) + main_work (cl_main s) + senders_work (cl_senders s).

Lemma senders_work_delete sds id sd : sds !! id = Some sd →
  senders_work sds = sender_work sd + senders_work (delete id sds).
Proof. intros Hl. unfold senders_work. apply (map_fold_delete_L (λ _ sd n, sender_work sd + n) 0 id sd sds); [intros; lia|done]. Qed.

Lemma senders_work_insert sds id sd : senders_work (<[id := sd]> sds) = sender_work sd + senders_work (delete id sds).
Proof.
  rewrite (senders_work_delete _ id sd) by apply lookup_insert_eq. f_equal. f_equal. apply delete_insert_eq.
Qed.

Lemma senders_work_new sds id sd : sds !! id = None → senders_work (<[id := sd]> sds) = sender_work sd + senders_work sds.
Proof. intros Hn. rewrite senders_work_insert. f_equal. f_equal. by apply delete_id. Qed.

Lemma put_work s id sd sd' n : cl_senders s !! id = Some sd → sender_work sd' + 4 * n < sender_work sd + 4 * cl_triggers s →
  work (put id sd' (with_triggers n s)) < work s.
Proof.
  intros Hl Hlt. unfold work. simpl. rewrite senders_work_insert, (senders_work_delete _ id sd Hl). lia.
Qed.

Lemma istep_work s s' : client_wf s → istep self s s' → work s' < work s.
Proof.
  intros Hw Hs.
  destruct Hs as [id st s Hm Hlk|id st s Hm|id m s Hm Hlk|id s Hm|id s Hm Hlt|s Hlk Hlt|id sd s Hl Hpc Hi|id sd n s Hl Hpc Ho Hn|
    id sd s Hl Hpc Hf|id sd s Hl Hpc Ho|id sd s Hl Hpc Hlk Hsn|id sd st s Hl Hpc Hlk Hsn|id sd st s Hl Hpc Ho|id sd st s Hl Hpc Ho];
    try (unfold work; simpl; rewrite ?Hm, ?Hlk; simpl; lia);
    try (rewrite <- (with_triggers_same s) at 1; eapply put_work; [done|]; unfold sender_work; simpl; rewrite Hpc;
         rewrite ?Hf; simpl; repeat case_match; lia).
  - unfold greet. destruct (cw_greeting _ Hw id) as [_ Hnone]; [by rewrite Hm..|].
    unfold work. simpl. rewrite senders_work_new, Hm by done. simpl. lia.
  - eapply put_work; [done|]. unfold sender_work. simpl. rewrite Hpc. lia.
  - unfold work. simpl. rewrite (senders_work_delete _ id sd Hl). unfold sender_work. rewrite Hpc. lia.
  - unfold work. simpl. rewrite senders_work_insert, (senders_work_delete _ id sd Hl). unfold sender_work.
    simpl. rewrite Hpc. lia.
Qed.

Lemma steal_work s s' : steal s s' → work s' < work s.
Proof.
  intros [id sd n s0 Hl Hpc Ho Hn]. eapply put_work; [done|]. unfold sender_work. simpl. rewrite Hpc. lia.
Qed.

(** Left to itself, the client comes to rest. *)
Lemma work_ends s : client_wf s → Acc (λ s2 s1, istep self s1 s2 ∨ steal s1 s2) s.
Proof.
  induction (Wf_nat.well_founded_ltof client work s) as [s _ IH]. intros Hw. constructor. intros s2 Hs. apply IH.
  - unfold Wf_nat.ltof. destruct Hs as [Hs|Hs]; [by apply istep_work|by apply steal_work].
  - destruct Hs as [Hs|Hs]; [by eapply istep_wf|by eapply steal_wf].
Qed.

(** ** At rest *)

(** What keeps the manager of specifications from panicking. *)
Record spec_ok (s : client) : Prop := {
  so_mock : mockFailure (sm_storage (cl_spec s)) = false;
  so_current : is_Some (currentSpec (cl_spec s)) → is_Some (expectedSpec (cl_spec s));
  so_loading : ∀ id, cl_main s = Loading id → is_Some (expectedSpec (cl_spec s));
}.

Lemma expectSpec_ok spec m : mockFailure (sm_storage m) = false →
  ∃ st, mockFailure st = false ∧ expectSpec spec m =
    Returns (mkSpecManager st (Some spec) (currentSpec m) (unloadReason m) (leaderElectionState m) (reports m)).
Proof. intros Hm. unfold expectSpec, writeExpectedSpec. rewrite Hm. eexists. by split; [|reflexivity]. Qed.

Lemma loadSpec_ok m : mockFailure (sm_storage m) = false → is_Some (expectedSpec m) →
  ∃ m', loadSpec m = Returns m' ∧ mockFailure (sm_storage m') = false ∧ is_Some (expectedSpec m').
Proof.
  intros Hm [spec He]. unfold loadSpec, checkLoadable, writeCurrentSpec. rewrite He, Hm.
  destruct (currentSpec m) as [cur|]; simpl; [|by eexists].
  repeat case_decide; simpl; rewrite ?Hm; simpl; eexists; (split; [done|]); simpl; by rewrite ?He.
Qed.

Lemma clean_spec_ok s s' : clean s s' → spec_ok s → spec_ok s'.
Proof.
  intros [Hs|Hs] [Hm Hc Hl].
  - destruct Hs as [|id st s|id m s Hmain Hlk Hload| | | | | | | | | | |]; try (by split).
    destruct (loadSpec_ok (cl_spec s) Hm) as (m' & Hload' & Hm' & He'); [by eapply Hl|].
    rewrite Hload in Hload'. injection Hload' as <-. by split.
  - destruct Hs as [| | | |id msg spec m s Hmain Hr He| |]; try (by split).
    destruct (expectSpec_ok spec (cl_spec s) Hm) as (st & Hst & He'). rewrite He in He'. injection He' as ->.
    split; simpl; [done|by eexists|by eexists].
Qed.

Lemma GetStatus_returns m : (is_Some (currentSpec m) → is_Some (expectedSpec m)) → ∃ st, GetStatus m = Returns st.
Proof.
  intros Hc. unfold GetStatus. destruct (currentSpec m) as [cur|]; [|by eexists].
  destruct Hc as [e ->]; [by eexists|]. simpl. by eexists.
Qed.

Record client_ok (s : client) : Prop := {
  co_wf : client_wf s; co_spec : spec_ok s; co_reporting : reporting s; co_timed : timed s;
}.

Lemma clean_ok s s' : clean s s' → client_ok s → client_ok s'.
Proof.
  intros Hs [Hw Hsp Hr Ht]. split.
  - destruct Hs; [by eapply istep_wf|by eapply estep_wf].
  - by eapply clean_spec_ok.
  - destruct Hs; [by eapply istep_reporting|by eapply estep_reporting].
  - by eapply clean_timed.
Qed.

Lemma NewGrpcClient_ok m : mockFailure (sm_storage m) = false → spec_wf m → client_ok (NewGrpcClient m).
Proof.
  intros Hm [He _]. split; [apply NewGrpcClient_wf|by split|by apply reporting_closed|]. by intros id sd Ho.
Qed.

Lemma clean_reachable_ok m s : mockFailure (sm_storage m) = false → spec_wf m →
  rtc clean (NewGrpcClient m) s → client_ok s.
Proof.
  intros Hm Hw Hr. pose proof (NewGrpcClient_ok m Hm Hw) as Hok. revert Hok. clear Hm Hw.
  induction Hr as [|s1 s2 s3 Hs Hr IH]; [done|]. intros Hok. apply IH. by eapply clean_ok.
Qed.

Section rest.
Context (s : client) (id : nat) (Hok : client_ok s) (Hrest : nf (istep self) s).
Context (Hopen : open_stream (cl_main s) = Some id) (Hinit : cl_init s = true) (Hcap : cl_triggers s < triggerCap).

Lemma rest_unlocked : cl_locked s = false.
Proof. destruct (cl_locked s) eqn:Hl; [|done]. exfalso. apply Hrest. eexists. by apply i_leader. Qed.

Lemma rest_receiving : cl_main s = Receiving id.
Proof.
  destruct (cl_main s) eqn:Hm; simplify_eq/=; [done|exfalso; apply Hrest..].
  - destruct (loadSpec_ok (cl_spec s)) as (m & Hload & _); [apply Hok|by eapply so_loading; [apply Hok|]|].
    eexists. eapply i_load; [done|apply rest_unlocked|done].
  - eexists. by eapply i_received.
  - eexists. by eapply i_report.
Qed.

Lemma rest_selecting : ∃ sd, cl_senders s !! id = Some sd ∧ sd_pc sd = Selecting ∧ sd_fired sd = false.
Proof.
  destruct (cw_open _ (co_wf _ Hok) id Hopen) as [sd Hl]. exists sd. split; [done|].
  destruct (sd_pc sd) as [| | |st] eqn:Hpc.
  - exfalso. apply Hrest. eexists. by eapply i_start.
  - split; [done|]. destruct (sd_fired sd) eqn:Hf; [|done]. exfalso. apply Hrest. eexists. by eapply i_timer.
  - exfalso. apply Hrest. destruct (GetStatus_returns (cl_spec s)) as [[[st|] reason] Hg]; [apply Hok| |].
    + destruct (decide (sd_prevStatus sd = Some (st, reason))) as [Hd|Hd]; eexists;
        [eapply i_skip|eapply i_make]; try done; try apply rest_unlocked; unfold send; rewrite Hg; simpl;
        [by rewrite decide_True|by rewrite decide_False].
    + eexists. eapply i_skip; [done|done|apply rest_unlocked|]. unfold send. by rewrite Hg.
  - exfalso. apply Hrest. eexists. by eapply i_send.
Qed.

Lemma rest_untriggered : cl_triggers s = 0.
Proof.
  destruct (decide (cl_triggers s = 0)) as [|[n Hn]%Nat.neq_0_r]; [done|]. exfalso. apply Hrest.
  destruct rest_selecting as (sd & Hl & Hpc & _). eexists. by eapply i_wake.
Qed.
End rest.

(** C28. Nothing goes unreported. Take the client of a process whose files can
    be written, in any interleaving of its goroutines with connections, lost
    streams, received messages and elections, in which sends fail only with
    their stream and stopped senders take no trigger. Left to itself it comes
    to rest. At rest on an open stream, after the first message and with room
    for triggers, it waits for the next message, its lock is free and no
    trigger is left; the last status on the stream is the status it has now,
    and the sender's timer runs. *)
Theorem client_reports m s : mockFailure (sm_storage m) = false → spec_wf m → rtc clean (NewGrpcClient m) s →
  Acc (λ s2 s1, istep self s1 s2 ∨ steal s1 s2) s ∧
  ∀ id, nf (istep self) s → open_stream (cl_main s) = Some id → cl_init s = true → cl_triggers s < triggerCap →
    cl_main s = Receiving id ∧ cl_locked s = false ∧ cl_triggers s = 0 ∧ agrees (cl_spec s) (told s id) ∧
    ∃ sd, cl_senders s !! id = Some sd ∧ sd_pc sd = Selecting ∧ sd_running sd = true.
Proof.
  intros Hm Hwf Hr. pose proof (clean_reachable_ok m s Hm Hwf Hr) as Hok.
  split; [by apply work_ends, co_wf|]. intros id Hrest Ho Hi Hc.
  pose proof (rest_receiving s id Hok Hrest Ho Hc) as Hmain. pose proof (rest_unlocked s Hrest Hc) as Hlk.
  pose proof (rest_untriggered s id Hok Hrest Ho Hi Hc) as Htr.
  destruct (rest_selecting s id Hok Hrest Ho Hi Hc) as (sd & Hl & Hpc & Hf). split_and!; try done.
  - destruct (re_sender _ (co_reporting _ Hok) id sd Ho Hl) as [[Hp|[Hp|Hp]]|Ha]; [by rewrite Hpc|done|congruence|by rewrite Hmain in Hp|].
    unfold aim in Ha. by rewrite Hpc in Ha.
  - exists sd. split_and!; [done|done|]. destruct (co_timed _ Hok id sd Ho Hl Hpc); congruence.
Qed.

(** ** A process that hangs *)

(** An update of the leader holds the lock and waits for room in the channel,
    and who could make room waits for the lock. *)
Record hung (s : client) : Prop := {
  hg_locked : cl_locked s = true;
  hg_full : cl_triggers s = triggerCap;
  hg_senders : ∀ id sd, cl_senders s !! id = Some sd → sd_pc sd = Woken;
  hg_main : ∀ id st, cl_main s ≠ Greeting id st;
}.

Lemma hung_step s s' : cstep self s s' → hung s → hung s'.
Proof.
  intros Hs [Hlk Hfull Hsd Hmain].
  assert (Hpc : ∀ id sd pc, cl_senders s !! id = Some sd → sd_pc sd = pc → pc = Woken).
  { intros id sd pc Hl <-. by eapply Hsd. }
  destruct Hs as [s s' Hs|s s' Hs|s s' Hs|s s' Hs]; destruct Hs; try congruence;
    try (exfalso; by eapply Hmain); try (exfalso; lia);
    try (match goal with Hl : cl_senders _ !! _ = Some _, Hp : sd_pc _ = _ |- _ => by pose proof (Hpc _ _ _ Hl Hp) end);
    try (by split).
  split; simpl; try done. intros id' sd' [[<- <-]|[Hne Hl]]%lookup_insert_Some; simpl; by eapply Hsd.
Qed.

Definition other_leader (le : option LeaderState) : option LeaderState :=
  match le with None => Some (mkLeaderState EmptyString true) | Some _ => None end.
Lemma other_leader_ne le : le ≠ other_leader le.
Proof. by destruct le. Qed.

Definition offline (s : client) (n : nat) : Prop :=
  cl_main s = Connecting ∧ cl_senders s = ∅ ∧ cl_locked s = false ∧ cl_triggers s = n.

(** While there is no stream, every change of the leader fills the channel. *)
Lemma flood m n : n ≤ triggerCap → ∃ s, rtc (cstep self) (NewGrpcClient m) s ∧ offline s n.
Proof.
  induction n as [|n IH]; intros Hn.
  { exists (NewGrpcClient m). split; [apply rtc_refl|]. by split_and!. }
  destruct IH as (s & Hr & Hm & Hsd & Hlk & Htr); [lia|].
  set (s1 := begin_leader (other_leader (leaderElectionState (cl_spec s))) s).
  assert (Hlk1 : cl_locked s1 = true).
  { unfold s1. simpl. apply bool_decide_eq_true. apply other_leader_ne. }
  exists (with_lock false (with_triggers (S (cl_triggers s1)) s1)). split.
  - eapply rtc_r; [eapply rtc_r; [done|by apply c_external, e_leader]|]. apply c_internal, i_leader; [done|].
    change (cl_triggers s1) with (cl_triggers s). lia.
  - change (cl_triggers s1) with (cl_triggers s). split_and!; simpl; try done. lia.
Qed.

(** The report channel is bounded and written to with the lock held: while
    the manager is away, enough changes of the leader fill it, and the next
    one keeps the lock for good.  No step of any run from there gives the
    specification to a request again, and no stream reports another status. *)
Theorem client_can_hang m : ∃ s, rtc (cstep self) (NewGrpcClient m) s ∧
  ∀ s', rtc (cstep self) s s' → AcquireSpec s' = None ∧ ∀ id, sent s' id = sent s id.
Proof.
  destruct (flood m triggerCap) as (s & Hr & Hm & Hsd & Hlk & Htr); [lia|].
  set (s1 := begin_leader (other_leader (leaderElectionState (cl_spec s))) s).
  assert (Hh : hung s1).
  { split; simpl; try done.
    - apply bool_decide_eq_true, other_leader_ne.
    - intros id sd. by rewrite Hsd, lookup_empty.
    - intros id st. by rewrite Hm. }
  exists s1. split; [eapply rtc_r; [done|by apply c_external, e_leader]|].
  intros s' Hr'. clearbody s1. clear Hr. induction Hr' as [s1|s1 s2 s3 Hs Hr' IH].
  - split; [|done]. unfold AcquireSpec. by rewrite (hg_locked _ Hh).
  - pose proof (hung_step _ _ Hs Hh) as Hh2. destruct (IH Hh2) as [Ha Hsent]. split; [done|]. intros id. rewrite Hsent.
    destruct Hh as [Hlk1 _ Hsd1 Hmain1]. destruct Hs as [? ? Hs|? ? Hs|? ? Hs|? ? Hs]; destruct Hs; try done.
    + by exfalso; eapply Hmain1.
    + match goal with Hl : cl_senders _ !! _ = Some _ |- _ => pose proof (Hsd1 _ _ Hl); congruence end.
Qed.

(** Who is at rest. *)
Lemma at_rest s id : cl_main s = Receiving id → cl_locked s = false → cl_triggers s = 0 →
  map_Forall (λ id' sd, id' = id ∧ sd_pc sd = Selecting ∧ sd_fired sd = false) (cl_senders s) → nf (istep self) s.
Proof.
  intros Hm Hlk Htr Hall [s' Hs].
  assert (Hsd : ∀ id' sd, cl_senders s !! id' = Some sd → id' = id ∧ sd_pc sd = Selecting ∧ sd_fired sd = false).
  { intros id' sd Hl. by apply (map_Forall_lookup_1 _ _ id' sd Hall). }
  destruct Hs; try congruence;
    match goal with Hl : cl_senders _ !! _ = Some _ |- _ => destruct (Hsd _ _ Hl) as (-> & Hpc & Hf) end; try congruence.
  rewrite Hm in *. simpl in *. congruence.
Qed.
End runs.

(** ** Concrete runs *)

Definition demo_self : SelfInfo_ := mkSelfInfo "ns" "op-0".
Definition demo_client : client := NewGrpcClient (demo_spec_manager None).
Definition demo_states : ManagerStateStatus :=
  ManagerState.mkStatus "ns" [mkEndpoint "m" "10.0.0.1" true] (Some (mkPorts 5453 5454)) None.
Definition demo_msg : option SpecMsg := Some (mkSpecMsg (Some (mkSpecMeta "s" "h1")) [demo_limit]).
Definition demo_told (le : option LeaderState) : Told :=
  (mkProxyStatus (Some (mkMetaState "h1" "h1")) le, EmptyString).

(** The first specification has been loaded and reported. *)
Definition demo_rest (spec : SpecManager) : client :=
  mkClient spec false 0 true (Receiving 0) 1 {[0 := mkSender Selecting (Some (demo_told None)) true false]}
    {[0 := [mkReport (Some demo_self) (mkProxyStatus None None) EmptyString; report_of (demo_told None)]]}.
Definition demo_loaded : SpecManager :=
  mkSpecManager (mkStorage [demo_spec "s" "h1"] [demo_spec "s" "h1"] false)
    (Some (demo_spec "s" "h1")) (Some (demo_spec "s" "h1")) EmptyString None 0.

Lemma demo_run : rtc (clean demo_self) demo_client (demo_rest demo_loaded).
Proof.
  eapply rtc_l; [right; apply (e_connect None (Some demo_states) ("m", "https://10.0.0.1:5453")); reflexivity|].
  eapply rtc_l; [left; apply (i_status _ 0 (mkProxyStatus None None, EmptyString)); reflexivity|].
  eapply rtc_l; [left; apply (i_greet _ 0 (mkProxyStatus None None, EmptyString)); reflexivity|].
  eapply rtc_l; [right; eapply (e_recv 0 demo_msg); reflexivity|].
  eapply rtc_l; [left; apply (i_load _ 0 demo_loaded); reflexivity|].
  eapply rtc_l; [left; apply (i_received _ 0); reflexivity|].
  eapply rtc_l; [left; apply (i_report _ 0); [reflexivity|vm_compute; lia]|].
  eapply rtc_l; [left; eapply (i_start _ 0); reflexivity|].
  eapply rtc_l; [left; eapply (i_wake _ 0); reflexivity|].
  eapply rtc_l; [left; eapply (i_make _ 0); reflexivity|].
  eapply rtc_l; [left; eapply (i_send _ 0); reflexivity|].
  apply rtc_refl.
Qed.

Lemma clean_run self s s' : rtc (clean self) s s' → rtc (cstep self) s s'.
Proof.
  induction 1 as [|s1 s2 s3 [Hs|Hs] _ IH]; [done|..]; (eapply rtc_l; [|done]); [by apply c_internal|by apply c_external].
Qed.

(** The operator became the leader since. *)
Definition demo_le : option LeaderState := Some (mkLeaderState "op-0" true).

(** The sender of a lost stream takes the trigger that was meant for the new
    one: the status has changed, and the manager is not told before the
    sender's timer fires. *)
Theorem stolen_trigger : ∃ s, rtc (cstep demo_self) demo_client s ∧ nf (istep demo_self) s ∧
  open_stream (cl_main s) = Some 1 ∧ cl_triggers s = 0 ∧ ¬ agrees (cl_spec s) (told s 1).
Proof.
  eexists. split; [etransitivity; [apply clean_run, demo_run|]|].
  - eapply rtc_l; [apply c_external, (e_disconnect 0); reflexivity|].
    eapply rtc_l; [apply c_external, (e_connect None (Some demo_states) ("m", "https://10.0.0.1:5453")); reflexivity|].
    eapply rtc_l; [apply c_internal, (i_status _ 1 (demo_told None)); reflexivity|].
    eapply rtc_l; [apply c_internal, (i_greet _ 1 (demo_told None)); reflexivity|].
    eapply rtc_l; [apply c_external; eapply (e_leader demo_le); reflexivity|].
    eapply rtc_l; [apply c_internal, i_leader; [reflexivity|vm_compute; lia]|].
    eapply rtc_l; [apply c_internal; eapply (i_start _ 1); reflexivity|].
    eapply rtc_l; [apply c_steal; eapply (i_steal 0); (reflexivity || done)|].
    eapply rtc_l; [apply c_internal; eapply (i_make _ 0); reflexivity|].
    eapply rtc_l; [apply c_internal; eapply (i_broken _ 0); (reflexivity || done)|].
    eapply rtc_l; [apply c_internal; eapply (i_stop _ 0); (reflexivity || done)|].
    apply rtc_refl.
  - split_and!; [|reflexivity|reflexivity|].
    + apply (at_rest _ _ 1); [reflexivity..|]. apply map_Forall_to_list. vm_compute. repeat constructor.
    + intros Ha. specialize (Ha _ eq_refl). vm_compute in Ha. congruence.
Qed.

(** After a send that fails the timer is not set again: the new status waits
    for the next trigger, whenever that comes. *)
Theorem failed_send_waits : ∃ s sd, rtc (cstep demo_self) demo_client s ∧ nf (istep demo_self) s ∧
  open_stream (cl_main s) = Some 0 ∧ cl_triggers s = 0 ∧ ¬ agrees (cl_spec s) (told s 0) ∧
  cl_senders s !! 0 = Some sd ∧ sd_pc sd = Selecting ∧ sd_running sd = false ∧ sd_fired sd = false.
Proof.
  eexists _, _. split; [etransitivity; [apply clean_run, demo_run|]|].
  - eapply rtc_l; [apply c_external; eapply (e_leader demo_le); reflexivity|].
    eapply rtc_l; [apply c_internal, i_leader; [reflexivity|vm_compute; lia]|].
    eapply rtc_l; [apply c_internal; eapply (i_wake _ 0); reflexivity|].
    eapply rtc_l; [apply c_internal; eapply (i_make _ 0); reflexivity|].
    eapply rtc_l; [apply c_fail; eapply (e_fail 0); reflexivity|].
    apply rtc_refl.
  - split_and!; [|reflexivity|reflexivity| |reflexivity..].
    + apply (at_rest _ _ 0); [reflexivity..|]. apply map_Forall_to_list. vm_compute. repeat constructor.
    + intros Ha. specialize (Ha _ eq_refl). vm_compute in Ha. congruence.
Qed.

(** A first message without limits is ignored and yet lets the process start,
    without a specification: making the handler of its operator's lock
    panics. *)
Theorem starts_without_spec : ∃ s, rtc (clean demo_self) demo_client s ∧
  cl_init s = true ∧ ∀ ns lock, LeaderElection.New (cl_spec s) ns lock = Panics.
Proof.
  eexists. split.
  - eapply rtc_l; [right; apply (e_connect None (Some demo_states) ("m", "https://10.0.0.1:5453")); reflexivity|].
    eapply rtc_l; [left; apply (i_status _ 0 (mkProxyStatus None None, EmptyString)); reflexivity|].
    eapply rtc_l; [left; apply (i_greet _ 0 (mkProxyStatus None None, EmptyString)); reflexivity|].
    eapply rtc_l; [right; apply (e_ignore 0 (Some (mkSpecMsg (Some (mkSpecMeta "s" "h1")) []))); reflexivity|].
    eapply rtc_l; [left; apply (i_received _ 0); reflexivity|].
    apply rtc_refl.
  - split; reflexivity.
Qed.

Lemma streams_introduced_witness :
  introduced demo_self (sent (demo_rest demo_loaded) 0) ∧ length (sent (demo_rest demo_loaded) 0) = 2.
Proof.
  split; [|reflexivity].
  destruct (streams_introduced demo_self (demo_spec_manager None) (demo_rest demo_loaded) 0) as [Hi _];
    [apply clean_run, demo_run|done|done|exact Hi].
Defined.

Lemma client_reports_witness :
  cl_triggers (demo_rest demo_loaded) = 0 ∧ agrees demo_loaded (told (demo_rest demo_loaded) 0) ∧
  now demo_loaded = Some (demo_told None).
Proof.
  destruct (client_reports demo_self (demo_spec_manager None) (demo_rest demo_loaded)) as [_ Hr];
    [reflexivity|by split|apply demo_run|].
  destruct (Hr 0) as (_ & _ & Ht & Ha & _); [|reflexivity|reflexivity|vm_compute; lia|].
  - apply (at_rest _ _ 0); [reflexivity..|]. apply map_Forall_to_list. vm_compute. repeat constructor.
  - split; [exact Ht|]. split; [exact Ha|reflexivity].
Defined.
