(* ===== verification/Rollout.v ===== *)
(** * The rollout controller

    src/pkg/manager/controllers/rollout/rollout_controller.go, expectation.go
    and event_handler.go, with src/pkg/utils/expectation/expectation.go: the
    reconciler that replaces the pods of a stateful set shard by shard, the
    leader of every shard last. *)

From stdpp Require Import sorting.
From S2P Require Import Prelude GoStrings Json Http Selector Sharding ShardingReconcile ShardServer SpecManager LeaderElection.

(** ** Expectations (utils/expectation) *)

Record Expectation := mkExpectation { ex_value : Z; ex_timestamp : Z }.
Record Expectations := mkExpectations { ex_store : gmap string Expectation; ex_timeOut : Z }.

Definition second : Z := 1000000000.
Definition ExpectationsTimeout : Z := 3 * 60 * second.

Definition NewExpectations (timeOut : Z) : Expectations :=
  mkExpectations ∅ (if decide (timeOut = 0%Z) then ExpectationsTimeout else timeOut).

(** [SetExpectation] at the time [now]; the store replaces the item. *)
Definition SetExpectation (now : Z) (key : string) (value : Z) (e : Expectations) : Expectations :=
  mkExpectations (<[key := mkExpectation value now]> (ex_store e)) (ex_timeOut e).
Definition GetExpectation (key : string) (e : Expectations) : option Expectation := ex_store e !! key.
Definition DeleteExpectation (key : string) (e : Expectations) : Expectations :=
  match ex_store e !! key with
  | Some _ => mkExpectations (delete key (ex_store e)) (ex_timeOut e)
  | None => e
  end.
Definition isExpired (now : Z) (ex : Expectation) : bool := (ExpectationsTimeout <=? now - ex_timestamp ex)%Z.
Definition Satisfied (now : Z) (key : string) (timestamp : Z) (e : Expectations) : outcome bool :=
  match GetExpectation key e with
  | None => Returns true
  | Some ex =>
      if (ex_value ex <=? timestamp)%Z then Returns true
      else if isExpired now ex then Panics else Returns false
  end.

(** ** Stateful sets and their pods *)

(** Annotations are a map that may be nil. *)
Record StatefulSet := mkSts {
  st_Name : string; st_Namespace : string; st_Labels : gmap string string;
  st_Annotations : option (gmap string string); st_DeletionTimestamp : option Z;
  st_Replicas : option Z; st_Selector : option LabelSelector; st_UpdateStrategyType : string;
  st_StatusReplicas : Z; st_UpdateRevision : string; st_CurrentRevision : string;
}.
Definition with_annotations (a : option (gmap string string)) (s : StatefulSet) : StatefulSet :=
  mkSts (st_Name s) (st_Namespace s) (st_Labels s) a (st_DeletionTimestamp s) (st_Replicas s) (st_Selector s)
    (st_UpdateStrategyType s) (st_StatusReplicas s) (st_UpdateRevision s) (st_CurrentRevision s).
Definition with_labels (l : gmap string string) (s : StatefulSet) : StatefulSet :=
  mkSts (st_Name s) (st_Namespace s) l (st_Annotations s) (st_DeletionTimestamp s) (st_Replicas s) (st_Selector s)
    (st_UpdateStrategyType s) (st_StatusReplicas s) (st_UpdateRevision s) (st_CurrentRevision s).

Record OwnerReference := mkOwner { ow_Kind : string; ow_Name : string; ow_Controller : bool }.
Record RPod := mkRPod { rp_Namespace : string; rp_Pod : Pod; rp_Owners : list OwnerReference }.
#[export] Instance PodCondition_eq_dec : EqDecision PodCondition.
Proof. solve_decision. Defined.
#[export] Instance ContainerStatus_eq_dec : EqDecision ContainerStatus.
Proof. solve_decision. Defined.
#[export] Instance Pod_eq_dec : EqDecision Pod.
Proof. solve_decision. Defined.
#[export] Instance OwnerReference_eq_dec : EqDecision OwnerReference.
Proof. solve_decision. Defined.
#[export] Instance RPod_eq_dec : EqDecision RPod.
Proof. solve_decision. Defined.
Definition rp_Name (p : RPod) : string := p_Name (rp_Pod p).
Definition rp_Labels (p : RPod) : gmap string string := p_Labels (rp_Pod p).
(** The key of a pod's deletion. *)
Definition pod_key (p : RPod) : string := rp_Namespace p +:+ "/" +:+ rp_Name p.

Definition CtrlmeshInRollingLabel : string := "ctrlmesh.kusionstack.io/rolling".
Definition CtrlmeshRollingStatusAnno : string := "ctrlmesh.kusionstack.io/roll-status".
Definition CtrlmeshRollingExpectedAnno : string := "ctrlmesh.kusionstack.io/roll-expected".
Definition CtrlmeshEnableProxyLabel : string := "ctrlmesh.kusionstack.io/enable-proxy".
Definition ShardingConfigInjectedKey : string := "ctrlmesh.kusionstack.io/sharding-config-injected".
Definition ControllerRevisionHashLabelKey : string := "controller-revision-hash".
Definition OnDeleteStatefulSetStrategyType : string := "OnDelete".

(** A missing key of a map of strings reads as the empty string. *)
Definition read (m : gmap string string) (k : string) : string := default EmptyString (m !! k).

Definition isOnDeleteStrategy (s : StatefulSet) : bool :=
  bool_decide (st_UpdateStrategyType s = OnDeleteStatefulSetStrategyType).
Definition constantsLabelKey (labels : gmap string string) (key : string) : bool := bool_decide (is_Some (labels !! key)).
(** Whether there was a label to delete, and the object without it. *)
Definition deleteLabel (s : StatefulSet) (key : string) : bool * StatefulSet :=
  match st_Labels s !! key with
  | Some _ => (true, with_labels (delete key (st_Labels s)) s)
  | None => (false, s)
  end.

(** ** expectation.go *)

Definition recentRevision (s : StatefulSet) : string :=
  if decide (st_UpdateRevision s ≠ EmptyString) then st_UpdateRevision s else st_CurrentRevision s.
Definition isUpdatedRevision (s : StatefulSet) (po : RPod) : bool :=
  bool_decide (read (rp_Labels po) ControllerRevisionHashLabelKey = recentRevision s).

Record ExpectedRevision := mkExpectedRevision { er_UpdateRevision : string; er_PodRevision : gmap string string }.
Definition json_expected (r : ExpectedRevision) : string :=
  "{" +:+ json_string "updateRevision" +:+ ":" +:+ json_string (er_UpdateRevision r) +:+ "," +:+
  json_string "podRevision" +:+ ":" +:+ json_map (er_PodRevision r) +:+ "}".

Lemma json_expected_nonempty r : json_expected r ≠ EmptyString.
Proof. unfold json_expected. generalize (json_string "updateRevision"). intros x. by generalize (x +:+ ":" +:+ json_string (er_UpdateRevision r) +:+ "," +:+ json_string "podRevision" +:+ ":" +:+ json_map (er_PodRevision r) +:+ "}"). Qed.

(** Writing to a nil map panics; reading one does not. *)
Definition SetExpectedRevision (s : StatefulSet) (podRevision : gmap string string) : outcome (bool * StatefulSet) :=
  let val := read (default ∅ (st_Annotations s)) CtrlmeshRollingExpectedAnno in
  let byt := json_expected (mkExpectedRevision (recentRevision s) podRevision) in
  if decide (byt = val) then Returns (false, s)
  else match st_Annotations s with
  | None => Panics
  | Some annos => Returns (true, with_annotations (Some (<[CtrlmeshRollingExpectedAnno := byt]> annos)) s)
  end.

Definition updateRolloutAnno (s : StatefulSet) (upgradedPods : list string) : bool * StatefulSet :=
  let val := match upgradedPods with [] => EmptyString | _ => json_list upgradedPods end in
  match st_Annotations s with
  | None => (true, with_annotations (Some {[CtrlmeshRollingStatusAnno := val]}) s)
  | Some annos =>
      if decide (read annos CtrlmeshRollingStatusAnno ≠ val)
      then (true, with_annotations (Some (<[CtrlmeshRollingStatusAnno := val]> annos)) s)
      else (false, s)
  end.

(** ** Leaders *)

Definition hostnameLabel : string := "meta.k8s.alipay.com/hostname".
Definition isLeader (po : RPod) (identity : string) : bool :=
  HasPrefix identity (rp_Name po) ||
  match rp_Labels po !! hostnameLabel with
  | Some host => HasPrefix identity host
  | None => false
  end.

(** The API server as the controller reads and writes it.  [get_lease] answers
    with the holder of a lease, itself a pointer; an error of a write has a
    text. *)
Class RolloutApi := {
  get_sts : result (option StatefulSet); (* [Ok None]: not found *)
  list_configs : result (list ShardingConfig);
  list_pods : option labels_Selector → result (option (list RPod)); (* a nil slice is [None] *)
  get_lease : string → option (option string);
  update_sts : StatefulSet → option string;
  delete_pod : RPod → option string;
  clock : RPod → Z; (* when the deletion of a pod is recorded *)
}.

Definition leaseName (cfg : ShardingConfig) (leaderElectionName : string) : string :=
  leaderElectionName +:+ "---default-" +:+ sc_Name cfg.
Definition getHolderIdentity `{RolloutApi} (cfg : ShardingConfig) : option string :=
  controller ← sc_Controller cfg;
  holder ← get_lease (leaseName cfg (LeaderElectionName controller));
  holder.

(** ** One shard *)

Section upgrade.
Context `{RangeOrder} `{RolloutApi}.

(** The first loop: [None] when it returns, on a replaced pod that is not
    ready; else whether a pod is on its way out, and the pods to delete. *)
Fixpoint scan_pods (sts : StatefulSet) (e : Expectations) (pods : list RPod)
    (hasTerminatingPod : bool) (expectDeletePods : gmap string RPod) : option (bool * gmap string RPod) :=
  match pods with
  | [] => Some (hasTerminatingPod, expectDeletePods)
  | po :: pods =>
      let hasTerminatingPod :=
        hasTerminatingPod || bool_decide (p_DeletionTimestamp (rp_Pod po) ≠ None)
        || bool_decide (GetExpectation (pod_key po) e ≠ None) in
      if isUpdatedRevision sts po then
        if negb (IsPodReady (rp_Pod po)) then None
        else scan_pods sts e pods hasTerminatingPod expectDeletePods
      else scan_pods sts e pods hasTerminatingPod (<[rp_Name po := po]> expectDeletePods)
  end.

(** The effects of the controller, in order. *)
Inductive action := UpdatedSts (s : StatefulSet) | DeletedPod (po : RPod).

(** The state of the second loop. *)
Record deleting := mkDeleting {
  d_size : nat; d_err : option string; d_leader : option RPod;
  d_actions : list action; d_expectations : Expectations;
}.
Definition delete_one (holderIdentity : string) (d : deleting) (po : RPod) : deleting :=
  if isLeader po holderIdentity then
    mkDeleting (d_size d) (d_err d) (Some po) (d_actions d) (d_expectations d)
  else match delete_pod po with
  | Some err => mkDeleting (d_size d) (Some err) (d_leader d) (d_actions d) (d_expectations d)
  | None =>
      mkDeleting (S (d_size d)) (d_err d) (d_leader d) (d_actions d ++ [DeletedPod po])
        (SetExpectation (clock po) (pod_key po) (clock po / second) (d_expectations d))
  end.

Record upgraded := mkUpgraded {
  u_finish : bool; u_requeue : bool; u_err : option string;
  u_actions : list action; u_expectations : Expectations;
}.

(** The pods of a map in the order of a range over it. *)
Definition range_pods (m : gmap string RPod) : list RPod := omap (λ k, m !! k) (range_keys m).

Definition upgrade (sts : StatefulSet) (cfg : ShardingConfig) (pods : list RPod) (e : Expectations) : upgraded :=
  match scan_pods sts e pods false ∅ with
  | None => mkUpgraded false false None [] e
  | Some (true, _) => mkUpgraded false false None [] e
  | Some (false, expectDeletePods) =>
      if decide (expectDeletePods = ∅) then mkUpgraded true false None [] e
      else match getHolderIdentity cfg with
      | None => mkUpgraded false true None [] e
      | Some holderIdentity =>
          let d := fold_left (delete_one holderIdentity) (range_pods expectDeletePods) (mkDeleting 0 None None [] e) in
          if decide (0 < d_size d ∨ d_err d ≠ None) then
            mkUpgraded false (bool_decide (d_err d ≠ None)) (d_err d) (d_actions d) (d_expectations d)
          else match d_leader d with
          | Some leaderPo =>
              match delete_pod leaderPo with
              | Some err => mkUpgraded false true (Some err) (d_actions d) (d_expectations d)
              | None => mkUpgraded false true None (d_actions d ++ [DeletedPod leaderPo]) (d_expectations d)
              end
          | None => mkUpgraded true false None (d_actions d) (d_expectations d)
          end
      end
  end.
End upgrade.

(** ** The reconciler *)

Section reconcile.
Context `{RangeOrder} `{AsSelector} `{RolloutApi}.

Record rollout_result := mkResult { rr_RequeueAfter : Z; rr_err : option string }.
(** How a round ends, what it did, and the expectations it leaves. *)
Record round := mkRound {
  rd_end : outcome rollout_result; rd_actions : list action; rd_expectations : Expectations;
}.

(** [metav1.GetControllerOf]. *)
Definition GetControllerOf (po : RPod) : option OwnerReference := head (filter (λ o, ow_Controller o = true) (rp_Owners po)).
Definition owned (sts : StatefulSet) (po : RPod) : bool :=
  match GetControllerOf po with Some owner => bool_decide (ow_Name owner = st_Name sts) | None => false end.

(** The pods by the sharding configuration they were injected with. *)
Definition group_pod (sts : StatefulSet) (m : gmap string (list RPod)) (po : RPod) : gmap string (list RPod) :=
  match rp_Owners po with
  | [] => m
  | owner :: _ =>
      if decide (ow_Name owner ≠ st_Name sts) then m
      else match rp_Labels po !! ShardingConfigInjectedKey with
      | None => m
      | Some configName => <[configName := default [] (m !! configName) ++ [po]]> m
      end
  end.
Definition shardingPods (sts : StatefulSet) (stsPods : list RPod) : gmap string (list RPod) :=
  fold_left (group_pod sts) stsPods ∅.
Definition pods_of (m : gmap string (list RPod)) (cfg : ShardingConfig) : list RPod := default [] (m !! sc_Name cfg).

Definition by_name (a b : ShardingConfig) : Prop := Is_true (String.leb (sc_Name a) (sc_Name b)).
#[export] Instance by_name_dec : RelDecision by_name.
Proof. intros a b. unfold by_name. apply _. Defined.
Definition allConfigs (m : gmap string (list RPod)) (configs : list ShardingConfig) : list ShardingConfig :=
  merge_sort by_name (filter (λ cfg, is_Some (m !! sc_Name cfg)) configs).

(** Whether the label value leaves a configuration out of the rollout. *)
Definition skipped (rollType : string) (cfg : ShardingConfig) : bool :=
  bool_decide (rollType ≠ "all") && bool_decide (rollType ≠ EmptyString) && negb (Contains (sc_Name cfg) rollType).

(** The expected revision of every pod: the recent one in the configurations
    of the rollout, its own in the others. *)
Definition expect_pods (sts : StatefulSet) (rollType : string) (pods : list RPod) (cfg : ShardingConfig)
    (m : gmap string string) : gmap string string :=
  fold_left (λ m po, <[rp_Name po :=
    if skipped rollType cfg then read (rp_Labels po) ControllerRevisionHashLabelKey else recentRevision sts]> m) pods m.
Definition expectedPodRevision (sts : StatefulSet) (rollType : string) (m : gmap string (list RPod))
    (cfgs : list ShardingConfig) : gmap string string :=
  fold_left (λ acc cfg, expect_pods sts rollType (pods_of m cfg) cfg acc) cfgs ∅.
Definition upgradedPods (sts : StatefulSet) (m : gmap string (list RPod)) (cfgs : list ShardingConfig) : list string :=
  cfgs ≫= λ cfg, rp_Name <$> filter (λ po, isUpdatedRevision sts po = true) (pods_of m cfg).

(** The deferred function. *)
Definition finally (sts : StatefulSet) (upgraded : list string) (finishRollout : bool) (r : round) : round :=
  let '(updateAnno, sts) := updateRolloutAnno sts upgraded in
  let '(deleted, sts) := if finishRollout then deleteLabel sts CtrlmeshInRollingLabel else (false, sts) in
  if updateAnno || deleted then
    match update_sts sts with
    | None => mkRound (rd_end r) (rd_actions r ++ [UpdatedSts sts]) (rd_expectations r)
    | Some err =>
        mkRound (res ← rd_end r; Returns (mkResult (rr_RequeueAfter res) (Some err))) (rd_actions r) (rd_expectations r)
    end
  else r.

(** The loop over the configurations: the first one that is not finished ends
    the round; [true] when there is none. *)
Fixpoint upgrade_all (sts : StatefulSet) (rollType : string) (m : gmap string (list RPod))
    (cfgs : list ShardingConfig) (acts : list action) (e : Expectations) : bool * round :=
  match cfgs with
  | [] => (true, mkRound (Returns (mkResult 0 None)) acts e)
  | cfg :: cfgs =>
      if skipped rollType cfg then upgrade_all sts rollType m cfgs acts e
      else
        let u := upgrade sts cfg (pods_of m cfg) e in
        if u_finish u then upgrade_all sts rollType m cfgs (acts ++ u_actions u) (u_expectations u)
        else (false, mkRound (Returns (mkResult (if u_requeue u then 3 * second else 0) (u_err u)))
                       (acts ++ u_actions u) (u_expectations u))
  end.

Definition ended (requeueAfter : Z) (err : option string) (e : Expectations) : round :=
  mkRound (Returns (mkResult requeueAfter err)) [] e.

(** From the listed configurations and pods of the stateful set on. *)
Definition roll (sts : StatefulSet) (rollType : string) (configs : list ShardingConfig) (stsPods : list RPod)
    (e : Expectations) : round :=
  let m := shardingPods sts stsPods in
  let cfgs := allConfigs m configs in
  let upgraded := upgradedPods sts m cfgs in
  match SetExpectedRevision sts (expectedPodRevision sts rollType m cfgs) with
  | Panics => finally sts upgraded false (mkRound Panics [] e)
  | Returns (false, sts) =>
      let '(finished, r) := upgrade_all sts rollType m cfgs [] e in finally sts upgraded finished r
  | Returns (true, sts) =>
      match update_sts sts with
      | Some err => finally sts upgraded false (ended 0 (Some err) e)
      | None =>
          let '(finished, r) := upgrade_all sts rollType m cfgs [UpdatedSts sts] e in finally sts upgraded finished r
      end
  end.

Definition Reconcile (e : Expectations) : round :=
  match get_sts with
  | Err err => ended 0 (Some err) e
  | Ok None => ended 0 None e
  | Ok (Some sts) =>
      if bool_decide (st_DeletionTimestamp sts ≠ None) || bool_decide (st_Replicas sts = None) then ended 0 None e
      else if decide (Some (st_StatusReplicas sts) ≠ st_Replicas sts) then
        ended (3 * second) (Some "wait sts create pods") e
      else match st_Labels sts !! CtrlmeshInRollingLabel with
      | None => ended 0 None e
      | Some rollType =>
          if negb (isOnDeleteStrategy sts) then
            let sts := (deleteLabel sts CtrlmeshInRollingLabel).2 in
            match update_sts sts with
            | None => mkRound (Returns (mkResult 0 None)) [UpdatedSts sts] e
            | Some err => ended 0 (Some err) e
            end
          else match list_configs with
          | Err err => ended 0 (Some err) e
          | Ok configs =>
              match list_pods (LabelSelectorAsSelector (st_Selector sts)) with
              | Err err => ended 0 (Some err) e
              | Ok None => ended 0 None e
              | Ok (Some pods) =>
                  let stsPods := filter (λ po, owned sts po = true) pods in
                  if decide (Some (Z.of_nat (length stsPods)) ≠ st_Replicas sts) then
                    ended 0 (Some ("wait sts " +:+ st_Name sts +:+ " create pods")) e
                  else roll sts rollType configs stsPods e
              end
          end
      end
  end.
End reconcile.

(** ** event_handler.go

    [get] reads a stateful set by name; the handlers return the requests they
    add to the queue. *)

Section events.
Variable get : string → string → option StatefulSet.

Definition onMeshStsControl (po : RPod) : bool :=
  match rp_Labels po !! CtrlmeshEnableProxyLabel, rp_Owners po with
  | Some _, owner :: _ => bool_decide (ow_Kind owner = "StatefulSet")
  | _, _ => false
  end.
Definition inRolling (namespace name : string) : bool :=
  match get namespace name with
  | None => false
  | Some sts => constantsLabelKey (st_Labels sts) CtrlmeshInRollingLabel
  end.

(** [Update] of the new pod and [Create] are the same. *)
Definition podEvent (po : RPod) : list (string * string) :=
  match rp_Owners po with
  | owner :: _ =>
      if negb (onMeshStsControl po) || negb (inRolling (rp_Namespace po) (ow_Name owner)) then []
      else [(rp_Namespace po, ow_Name owner)]
  | [] => []
  end.
Definition podDelete (po : RPod) (e : Expectations) : Expectations := DeleteExpectation (pod_key po) e.
Definition stsEvent (namespace name : string) : list (string * string) :=
  if inRolling namespace name then [(namespace, name)] else [].
(** The predicate of the controller. *)
Definition stsPredicate (s : StatefulSet) : bool := constantsLabelKey (st_Labels s) CtrlmeshInRollingLabel.
End events.

(** ** Facts about one shard *)

Section upgrade_properties.
Context `{RangeOrder} `{RolloutApi}.

Definition ready (po : RPod) : bool := IsPodReady (rp_Pod po).
Definition leaving (e : Expectations) (po : RPod) : bool :=
  bool_decide (p_DeletionTimestamp (rp_Pod po) ≠ None) || bool_decide (GetExpectation (pod_key po) e ≠ None).
(** A replaced pod that is not ready stops everything. *)
Definition unready_update (sts : StatefulSet) (po : RPod) : bool := isUpdatedRevision sts po && negb (ready po).
Definition outdated (sts : StatefulSet) (pods : list RPod) : list RPod :=
  filter (λ po, isUpdatedRevision sts po = false) pods.
Definition by_pod_name (m : gmap string RPod) (pods : list RPod) : gmap string RPod :=
  fold_left (λ m po, <[rp_Name po := po]> m) pods m.

Lemma scan_pods_closed sts e pods t m :
  scan_pods sts e pods t m =
    if existsb (unready_update sts) pods then None
    else Some (t || existsb (leaving e) pods, by_pod_name m (outdated sts pods)).
Proof.
  revert t m. induction pods as [|po pods IH]; intros t m; [by cbn; rewrite orb_false_r|].
  cbn [scan_pods existsb]. unfold unready_update at 1, outdated. rewrite filter_cons.
  destruct (isUpdatedRevision sts po) eqn:Hu; cbn [andb].
  - unfold ready. destruct (IsPodReady (rp_Pod po)); cbn [negb orb]; [|done].
    rewrite IH. destruct (existsb _ pods); [done|]. unfold leaving at 2.
    rewrite decide_False by done. by rewrite !orb_assoc.
  - cbn [orb]. rewrite IH. destruct (existsb _ pods); [done|]. unfold leaving at 2.
    rewrite decide_True by done. by rewrite !orb_assoc.
Qed.

Lemma by_pod_name_lookup m l k po :
  NoDup (rp_Name <$> l) →
  by_pod_name m l !! k = Some po ↔ (po ∈ l ∧ rp_Name po = k) ∨ ((k ∉ (rp_Name <$> l)) ∧ m !! k = Some po).
Proof.
  revert m. induction l as [|q l IH]; intros m Hnd; cbn [by_pod_name fold_left fmap list_fmap].
  { set_solver. }
  apply NoDup_cons in Hnd as [Hq Hnd]. change (fold_left _ l ?x) with (by_pod_name x l).
  rewrite IH, not_elem_of_cons, elem_of_cons, lookup_insert_Some by done. split.
  - intros [[Hp Hn]|[Hk [[<- <-]|[Hne Hm]]]]; [by left; auto|by left; auto|right; auto].
  - intros [[[->|Hp] Hn]|[[Hne Hk] Hm]].
    + right. subst k. auto.
    + left. auto.
    + right. auto.
Qed.

(** Visiting that map is visiting the outdated pods in some order. *)
Lemma range_pods_spec sts pods po :
  NoDup (rp_Name <$> pods) →
  po ∈ range_pods (by_pod_name ∅ (outdated sts pods)) ↔ po ∈ pods ∧ isUpdatedRevision sts po = false.
Proof.
  intros Hnd. assert (NoDup (rp_Name <$> outdated sts pods)) as Hnd'.
  { eapply sublist_NoDup; [exact Hnd|]. apply fmap_sublist, sublist_filter. }
  unfold range_pods. rewrite list_elem_of_omap. split.
  - intros (k & _ & Hk). apply by_pod_name_lookup in Hk as [[Hp _]|[_ Hk]]; [|by rewrite lookup_empty in Hk|done].
    apply list_elem_of_filter in Hp. tauto.
  - intros [Hp Hu]. exists (rp_Name po).
    assert (by_pod_name ∅ (outdated sts pods) !! rp_Name po = Some po) as Hk.
    { apply by_pod_name_lookup; [done|]. left. split; [|done]. by apply list_elem_of_filter. }
    split; [|done]. apply elem_of_range_keys. by eexists.
Qed.

Definition followers (id : string) (l : list RPod) : list RPod := filter (λ po, isLeader po id = false) l.

(** The deletions of a loop: every pod that is not a leader, in order. *)
Lemma delete_fold id l d :
  let d' := fold_left (delete_one id) l d in
  d_actions d' = d_actions d ++ (DeletedPod <$> filter (λ po, delete_pod po = None) (followers id l)) ∧
  d_size d' = d_size d + length (filter (λ po, delete_pod po = None) (followers id l)) ∧
  (d_err d' = None ↔ d_err d = None ∧ Forall (λ po, delete_pod po = None) (followers id l)) ∧
  (∀ po, d_leader d' = Some po → (po ∈ l ∧ isLeader po id = true) ∨ d_leader d = Some po) ∧
  (d_leader d' = None → d_leader d = None ∧ ∀ po, po ∈ l → isLeader po id = false).
Proof.
  revert d. induction l as [|po l IH]; intros d; cbn [fold_left].
  { cbn. rewrite app_nil_r. split_and!; [done|lia| |by auto|].
    - split; [|by intros [? _]]. intros ?. split; [done|constructor].
    - intros ?. split; [done|]. set_solver. }
  destruct (IH (delete_one id d po)) as (Ha & Hs & He & Hl & Hn). cbv zeta.
  set (d' := fold_left _ l _) in *. rewrite Ha, Hs, He. clear Ha Hs He IH. clearbody d'.
  unfold delete_one, followers in *. rewrite filter_cons.
  destruct (isLeader po id) eqn:Hpo; [|destruct (delete_pod po) as [err|] eqn:Hd]; cbn [d_actions d_size d_err d_leader] in *.
  - rewrite decide_False by done. split_and!; [done|done|done| |].
    + intros q Hq. destruct (Hl q Hq) as [[? ?]|[= <-]]; left; rewrite elem_of_cons; auto.
    + intros Hq. by destruct (Hn Hq).
  - rewrite decide_True by done. rewrite filter_cons, decide_False, Forall_cons, Hd by (by rewrite Hd).
    split_and!; [done|done| | |].
    + split; [by intros [? _]|by intros [_ [? _]]].
    + intros q Hq. rewrite elem_of_cons. destruct (Hl q Hq) as [[? ?]|?]; auto.
    + intros Hq. destruct (Hn Hq) as [? Hall]. split; [done|]. intros q. rewrite elem_of_cons. intros [->|]; auto.
  - rewrite decide_True by done. rewrite filter_cons, decide_True, Forall_cons, <- app_assoc by done.
    split_and!; [done|cbn; lia|tauto| |].
    + intros q Hq. rewrite elem_of_cons. destruct (Hl q Hq) as [[? ?]|?]; auto.
    + intros Hq. destruct (Hn Hq) as [? Hall]. split; [done|]. intros q. rewrite elem_of_cons. intros [->|]; auto.
Qed.

Lemma by_pod_name_nil sts pods : by_pod_name ∅ (outdated sts pods) = ∅ ↔ outdated sts pods = [].
Proof.
  split; [|by intros ->]. destruct (outdated sts pods) as [|po l] eqn:Ho; [done|]. intros He. exfalso.
  assert (∀ k m, is_Some (m !! k) → ∀ l, is_Some (by_pod_name m l !! k)) as Hkeep.
  { intros k m Hm l'. revert m Hm. induction l' as [|q l' IH]; intros m Hm; [done|]. apply IH.
    rewrite lookup_insert. case_decide; [by eexists|done]. }
  destruct (Hkeep (rp_Name po) (<[rp_Name po := po]> ∅) ltac:(rewrite lookup_insert_eq; by eexists) l) as [x Hx].
  cbn [by_pod_name fold_left] in He. change (fold_left _ l ?m) with (by_pod_name m l) in He.
  by rewrite He, lookup_empty in Hx.
Qed.

Definition blocked (sts : StatefulSet) (e : Expectations) (pods : list RPod) : bool :=
  existsb (unready_update sts) pods || existsb (leaving e) pods.

Lemma blocked_false sts e pods :
  blocked sts e pods = false ↔
  ∀ q, q ∈ pods → leaving e q = false ∧ (isUpdatedRevision sts q = true → ready q = true).
Proof.
  unfold blocked. rewrite orb_false_iff, <- !not_true_iff_false, !existsb_exists'. split.
  - intros [Hu Hl] q Hq. split.
    + apply not_true_iff_false. intros Hx. apply Hl. eauto.
    + intros Hup. apply not_false_iff_true. intros Hx. apply Hu. exists q. split; [done|].
      unfold unready_update. by rewrite Hup, Hx.
  - intros Hall. split; intros (q & Hq & Hx); destruct (Hall q Hq) as [Hl Hr]; [|congruence].
    unfold unready_update in Hx. apply andb_true_iff in Hx as [Hup Hx]. by rewrite Hr in Hx.
Qed.

Lemma blocked_pods sts e pods :
  blocked sts e pods = false ↔
  ∀ q, q ∈ pods → p_DeletionTimestamp (rp_Pod q) = None ∧ GetExpectation (pod_key q) e = None ∧
    (isUpdatedRevision sts q = true → ready q = true).
Proof.
  rewrite blocked_false. unfold leaving. setoid_rewrite orb_false_iff. setoid_rewrite bool_decide_eq_false.
  split; intros Hall q Hq; destruct (Hall q Hq) as [H1 H2].
  - destruct H1 as [H1 H3]. split_and!; [by apply dec_stable|by apply dec_stable|done].
  - destruct H2 as [H2 H3]. split; [split; by intros ?|done].
Qed.

(** The branches of [upgrade], the loop kept as one fold. *)
Lemma upgrade_unfold sts cfg pods e :
  upgrade sts cfg pods e =
    if blocked sts e pods then mkUpgraded false false None [] e
    else if decide (outdated sts pods = []) then mkUpgraded true false None [] e
    else match getHolderIdentity cfg with
    | None => mkUpgraded false true None [] e
    | Some id =>
        let d := fold_left (delete_one id) (range_pods (by_pod_name ∅ (outdated sts pods))) (mkDeleting 0 None None [] e) in
        if decide (0 < d_size d ∨ d_err d ≠ None) then
          mkUpgraded false (bool_decide (d_err d ≠ None)) (d_err d) (d_actions d) (d_expectations d)
        else match d_leader d with
        | Some leaderPo =>
            match delete_pod leaderPo with
            | Some err => mkUpgraded false true (Some err) (d_actions d) (d_expectations d)
            | None => mkUpgraded false true None (d_actions d ++ [DeletedPod leaderPo]) (d_expectations d)
            end
        | None => mkUpgraded true false None (d_actions d) (d_expectations d)
        end
    end.
Proof.
  unfold upgrade, blocked. rewrite scan_pods_closed. destruct (existsb (unready_update sts) pods); [done|].
  cbn [orb]. destruct (existsb (leaving e) pods); [done|].
  destruct (decide (outdated sts pods = [])) as [Ho|Ho].
  - by rewrite decide_True by by apply by_pod_name_nil.
  - rewrite decide_False; [done|]. by rewrite by_pod_name_nil.
Qed.

(** What one round does to a shard that is not blocked and has pods to
    replace, when the holder is known: either it deletes followers, or there
    are none left and it deletes a leader; it never finishes. *)
Lemma upgrade_round sts cfg pods e id :
  NoDup (rp_Name <$> pods) → blocked sts e pods = false → outdated sts pods ≠ [] → getHolderIdentity cfg = Some id →
  let u := upgrade sts cfg pods e in
  u_finish u = false ∧
  ((∃ l, u_actions u = DeletedPod <$> l ∧
      ∀ po, po ∈ l → po ∈ outdated sts pods ∧ isLeader po id = false ∧ delete_pod po = None) ∧
   (u_actions u = [] → ∃ po, po ∈ outdated sts pods ∧ is_Some (delete_pod po))
   ∨ (∃ po, u_actions u = [DeletedPod po] ∧ po ∈ outdated sts pods ∧ isLeader po id = true ∧
      ∀ q, q ∈ outdated sts pods → isLeader q id = true)).
Proof.
  intros Hnd Hb Ho Hid. cbv zeta. rewrite upgrade_unfold, Hb, decide_False, Hid by done.
  set (l := range_pods _). assert (∀ po, po ∈ l ↔ po ∈ outdated sts pods) as Hin.
  { intros po. unfold l. rewrite range_pods_spec by done. unfold outdated. rewrite list_elem_of_filter. tauto. }
  destruct (delete_fold id l (mkDeleting 0 None None [] e)) as (Ha & Hs & He & Hl & Hn).
  set (d := fold_left _ l _) in *. cbv zeta. cbn [d_actions d_size d_err d_leader app Nat.add] in *. clearbody d.
  case_decide as Hd; cbn [u_finish u_actions].
  - split; [done|]. left. split.
    + exists (filter (λ po, delete_pod po = None) (followers id l)). split; [done|].
      intros po. unfold followers. rewrite !list_elem_of_filter, Hin. tauto.
    + intros Hnil. rewrite Hnil in Ha. symmetry in Ha. apply fmap_nil_inv in Ha. rewrite Ha in Hs. cbn in Hs.
      destruct (decide (Forall (λ po, delete_pod po = None) (followers id l))) as [Hf|Hf].
      { destruct Hd as [Hd|Hd]; [lia|]. destruct Hd. by apply He. }
      apply not_Forall_Exists in Hf; [|apply _]. apply Exists_exists in Hf as (po & Hpo & Hx). exists po.
      unfold followers in Hpo. rewrite list_elem_of_filter, Hin in Hpo. split; [tauto|].
      by apply not_eq_None_Some.
  - apply Decidable.not_or in Hd as [Hd1 Hd2]. apply dec_stable in Hd2.
    assert (followers id l = []) as Hf.
    { apply He in Hd2 as [_ Hall]. destruct (followers id l) as [|x fs]; [done|].
      apply Forall_cons in Hall as [Hx _]. rewrite filter_cons, decide_True in Hs by done. cbn in Hs. lia. }
    assert (∀ q, q ∈ outdated sts pods → isLeader q id = true) as Hlead.
    { intros q Hq%Hin. apply not_false_iff_true. intros Hx.
      assert (q ∈ followers id l) as Hy by (unfold followers; by apply list_elem_of_filter). rewrite Hf in Hy. set_solver. }
    rewrite Hf in Ha. cbn in Ha. rewrite Ha.
    destruct (d_leader d) as [po|] eqn:Hld.
    + destruct (Hl po eq_refl) as [[Hpo Hlp]|?]; [|done]. apply Hin in Hpo.
      destruct (delete_pod po) as [err|] eqn:Hdel; cbn [u_finish u_actions app]; (split; [done|]).
      * left. split; [exists []; split; [done|]; set_solver|]. intros _. exists po. split; [done|by rewrite Hdel].
      * right. by exists po.
    + destruct (Hn eq_refl) as [_ Hall]. destruct (outdated sts pods) as [|q o]; [done|].
      assert (q ∈ l) as Hq by (apply Hin; set_solver).
      specialize (Hall q Hq). rewrite Hlead in Hall by set_solver. done.
Qed.
End upgrade_properties.

(** ** The properties of a shard's rollout *)

Section shard_theorems.
Context `{RangeOrder} `{RolloutApi}.

Lemma outdated_nil sts pods : outdated sts pods = [] ↔ ∀ q, q ∈ pods → isUpdatedRevision sts q = true.
Proof.
  unfold outdated. split.
  - intros Hn q Hq. apply not_false_iff_true. intros Hx.
    assert (q ∈ filter (λ po, isUpdatedRevision sts po = false) pods) as Hy by by apply list_elem_of_filter.
    rewrite Hn in Hy. set_solver.
  - intros Hall. destruct (filter _ pods) as [|q l] eqn:Hf; [done|].
    assert (q ∈ filter (λ po, isUpdatedRevision sts po = false) pods) as Hy by (rewrite Hf; set_solver).
    apply list_elem_of_filter in Hy as [Hu Hq]. rewrite Hall in Hu; done.
Qed.

(** A shard is finished when every pod runs the recent revision and is ready
    and none is on its way out; a finishing round does nothing. *)
Lemma upgrade_finish sts cfg pods e :
  NoDup (rp_Name <$> pods) →
  (u_finish (upgrade sts cfg pods e) = true ↔
   ∀ q, q ∈ pods → isUpdatedRevision sts q = true ∧ ready q = true ∧ leaving e q = false) ∧
  (u_finish (upgrade sts cfg pods e) = true → upgrade sts cfg pods e = mkUpgraded true false None [] e).
Proof.
  intros Hnd. destruct (blocked sts e pods) eqn:Hb.
  { rewrite upgrade_unfold, Hb. cbn. split; [|done]. split; [done|]. intros Hall.
    assert (blocked sts e pods = false) as Hb' by (apply blocked_false; intros q Hq; by destruct (Hall q Hq) as (? & ? & ?)).
    congruence. }
  pose proof (proj1 (blocked_false sts e pods) Hb) as Hq.
  destruct (decide (outdated sts pods = [])) as [Ho|Ho].
  { rewrite upgrade_unfold, Hb, decide_True by done. split; [|done]. split; [|done]. intros _ q Hin.
    destruct (Hq q Hin) as [Hl Hr]. pose proof (proj1 (outdated_nil sts pods) Ho q Hin). auto. }
  assert (¬ ∀ q, q ∈ pods → isUpdatedRevision sts q = true ∧ ready q = true ∧ leaving e q = false) as Hno.
  { intros Hall. apply Ho, outdated_nil. intros q Hin. by destruct (Hall q Hin). }
  assert (u_finish (upgrade sts cfg pods e) = false) as Hf.
  { destruct (getHolderIdentity cfg) as [id|] eqn:Hid.
    - by destruct (upgrade_round sts cfg pods e id Hnd Hb Ho Hid).
    - by rewrite upgrade_unfold, Hb, decide_False, Hid. }
  rewrite Hf. split; [|done]. split; [done|]. intros Hall. by destruct Hno.
Qed.

Lemma upgrade_deletes sts cfg pods e po :
  NoDup (rp_Name <$> pods) → DeletedPod po ∈ u_actions (upgrade sts cfg pods e) →
  blocked sts e pods = false ∧ outdated sts pods ≠ [] ∧ ∃ id, getHolderIdentity cfg = Some id.
Proof.
  intros Hnd. rewrite upgrade_unfold. destruct (blocked sts e pods); [set_solver|].
  case_decide; [set_solver|]. destruct (getHolderIdentity cfg); [by eauto|set_solver].
Qed.

(** C15. Replacing the pods of a shard is safe.  A pod is deleted only if it
    belongs to the shard and runs an old revision, while no pod of the shard
    is being deleted and every replaced pod is ready; and when the pod of the
    holder of the shard's lease is deleted, nothing else is in that round, and
    the pods still to replace are all pods that match the holder. *)
Theorem upgrade_safe sts cfg pods e po :
  NoDup (rp_Name <$> pods) → DeletedPod po ∈ u_actions (upgrade sts cfg pods e) →
  po ∈ pods ∧ isUpdatedRevision sts po = false ∧
  (∀ q, q ∈ pods → p_DeletionTimestamp (rp_Pod q) = None ∧ GetExpectation (pod_key q) e = None ∧
     (isUpdatedRevision sts q = true → ready q = true)) ∧
  ∃ id, getHolderIdentity cfg = Some id ∧
    (isLeader po id = true →
     u_actions (upgrade sts cfg pods e) = [DeletedPod po] ∧
     ∀ q, q ∈ pods → isUpdatedRevision sts q = false → isLeader q id = true).
Proof.
  intros Hnd Hdel. destruct (upgrade_deletes sts cfg pods e po Hnd Hdel) as (Hb & Ho & id & Hid).
  assert (∀ q, q ∈ outdated sts pods ↔ isUpdatedRevision sts q = false ∧ q ∈ pods) as Hout.
  { intros q. unfold outdated. by rewrite list_elem_of_filter. }
  destruct (upgrade_round sts cfg pods e id Hnd Hb Ho Hid) as [_ [[(l & Ha & Hl) _]|(p & Ha & Hp & Hlp & Hall)]].
  - assert (po ∈ l) as Hpo.
    { rewrite Ha in Hdel. apply list_elem_of_fmap in Hdel as (q & [= <-] & Hq). done. }
    destruct (Hl po Hpo) as (Hin & Hnl & _). apply Hout in Hin as [Hu Hin].
    split_and!; [done|done| |exists id; split; [done|congruence]].
    by apply blocked_pods.
  - rewrite Ha in Hdel. apply list_elem_of_singleton in Hdel as [= <-]. apply Hout in Hp as [Hu Hin].
    split_and!; [done|done| |exists id; split; [done|]].
    + by apply blocked_pods.
    + intros _. split; [done|]. intros q Hq Huq. by apply Hall, Hout.
Qed.

(** An expectation that is recorded after the pod's deletion event was
    handled is never dropped: the deletion and its event are concurrent, and
    when the event comes first, [DeleteExpectation] finds nothing, and the
    entry stays for the pod that replaces the deleted one under the same name.
    Whatever the time (the time-out the store is created with is not read) and
    however the pods change, every later round of the shard does nothing and
    asks for no other round, as long as a pod of that name is there. *)
Theorem late_record_blocks_shard sts cfg pods po po' (e : Expectations) now value :
  GetExpectation (pod_key po) e = None → po' ∈ pods → pod_key po' = pod_key po →
  let e' := SetExpectation now (pod_key po) value (podDelete po e) in
  ex_timeOut e' = ex_timeOut e ∧
  upgrade sts cfg pods e' = mkUpgraded false false None [] e'.
Proof.
  intros Hnone Hin Hkey e'. split; [by unfold e', podDelete, DeleteExpectation; cbn; case_match|].
  rewrite upgrade_unfold. assert (blocked sts e' pods = true) as ->; [|done].
  unfold blocked. apply orb_true_iff. right. apply existsb_exists'. exists po'. split; [done|].
  unfold leaving. apply orb_true_iff. right. apply bool_decide_eq_true.
  unfold e', GetExpectation, SetExpectation. cbn. by rewrite Hkey, lookup_insert_eq.
Qed.

End shard_theorems.

(** ** A shard's rollout ends

    Between two rounds the rest of the cluster works: deleted pods terminate,
    the stateful set controller creates their successors, the successors
    become ready, and the events of the deletions reach [podDelete].  The
    contract below says what the rollout relies on, not when it happens. *)

Definition deleted_of (acts : list action) : list RPod :=
  omap (λ a, match a with DeletedPod po => Some po | UpdatedSts _ => None end) acts.
Definition terminating (po : RPod) : Prop := p_DeletionTimestamp (rp_Pod po) ≠ None.

(** What the next round finds under the name of a pod.  [arrived] are the pods
    whose deletion events were handled in between. *)
Record pod_next (sts : StatefulSet) (arrived : list RPod) (po po' : RPod) : Prop := {
  next_name : rp_Name po' = rp_Name po;
  next_key : pod_key po' = pod_key po;
  (** a pod of the recent revision is not replaced by an older one *)
  next_updated : isUpdatedRevision sts po = true → isUpdatedRevision sts po' = true;
  (** the pod that follows a deleted one has the recent revision *)
  next_arrived : pod_key po ∈ pod_key <$> arrived → isUpdatedRevision sts po' = true;
  (** a terminating pod stays until its successor is there *)
  next_terminating : terminating po → terminating po' ∨ isUpdatedRevision sts po' = true;
}.

(** One round of the controller and what happens before the next one.  The
    deletion of a holder's pod, which leaves no expectation, is visible. *)
Definition shard_step `{RangeOrder} `{RolloutApi} (sts : StatefulSet) (cfg : ShardingConfig)
    (st st' : list RPod * Expectations) : Prop :=
  let u := upgrade sts cfg st.1 st.2 in
  ∃ arrived, st'.2 = fold_left (λ e po, podDelete po e) arrived (u_expectations u) ∧
    Forall2 (λ po po', pod_next sts arrived po po' ∧
      ∀ id, getHolderIdentity cfg = Some id → isLeader po id = true → DeletedPod po ∈ u_actions u →
        terminating po' ∨ isUpdatedRevision sts po' = true) st.1 st'.1.

(** The pods that are neither replaced nor about to be. *)
Definition waiting (sts : StatefulSet) (e : Expectations) (pods : list RPod) : list RPod :=
  filter (λ po, isUpdatedRevision sts po = false ∧ leaving e po = false) pods.

Section converge.
Context `{RangeOrder} `{RolloutApi} (sts : StatefulSet) (cfg : ShardingConfig).

Lemma delete_events_lookup l e k :
  GetExpectation k (fold_left (λ e po, podDelete po e) l e) =
  if decide (k ∈ pod_key <$> l) then None else GetExpectation k e.
Proof.
  revert e. induction l as [|po l IH]; intros e; cbn [fold_left fmap list_fmap].
  { by rewrite decide_False by set_solver. }
  rewrite IH. assert (GetExpectation k (podDelete po e) = if decide (k = pod_key po) then None else GetExpectation k e) as ->.
  { unfold podDelete, DeleteExpectation, GetExpectation. destruct (ex_store e !! pod_key po) eqn:Hk; cbn.
    - destruct (decide (k = pod_key po)) as [->|]; [apply lookup_delete_eq|by apply lookup_delete_ne].
    - destruct (decide (k = pod_key po)) as [->|]; done. }
  destruct (decide (k ∈ pod_key <$> l)); [by rewrite decide_True by set_solver|].
  case_decide; [by rewrite decide_True by set_solver|by rewrite decide_False by set_solver].
Qed.

(** The loop records an expectation for every pod it deletes. *)
Lemma delete_fold_records id l d k :
  k ∈ (pod_key <$> filter (λ po, delete_pod po = None) (followers id l)) ∨ GetExpectation k (d_expectations d) ≠ None →
  GetExpectation k (d_expectations (fold_left (delete_one id) l d)) ≠ None.
Proof.
  revert d. induction l as [|po l IH]; intros d Hk; cbn [fold_left].
  { destruct Hk as [Hk|Hk]; [by apply elem_of_nil in Hk|done]. }
  apply IH. unfold followers, delete_one in *. rewrite filter_cons in Hk.
  destruct (isLeader po id) eqn:Hl; [by rewrite decide_False in Hk by done|].
  rewrite decide_True, filter_cons in Hk by done. destruct (delete_pod po) eqn:Hd.
  { by rewrite decide_False in Hk by done. }
  rewrite decide_True in Hk by done. cbn [fmap list_fmap] in Hk. rewrite elem_of_cons in Hk.
  destruct (decide (k = pod_key po)) as [->|Hne].
  { right. unfold GetExpectation, SetExpectation; cbn. by rewrite lookup_insert_eq. }
  destruct Hk as [[?|Hk]|Hk]; [done|by left|right].
  unfold GetExpectation, SetExpectation in *; cbn. by rewrite lookup_insert_ne by congruence.
Qed.

Lemma deleted_of_elem acts po : po ∈ deleted_of acts ↔ DeletedPod po ∈ acts.
Proof.
  unfold deleted_of. rewrite list_elem_of_omap. split; [|by exists (DeletedPod po)].
  intros ([?|?] & Ha & Heq); by simplify_eq.
Qed.

(** So a round leaves an expectation for every deleted pod but a holder's. *)
Lemma upgrade_records pods e po id :
  getHolderIdentity cfg = Some id → isLeader po id = false →
  DeletedPod po ∈ u_actions (upgrade sts cfg pods e) →
  GetExpectation (pod_key po) (u_expectations (upgrade sts cfg pods e)) ≠ None.
Proof.
  intros Hid Hl. rewrite upgrade_unfold. destruct (blocked sts e pods); [by rewrite elem_of_nil|].
  case_decide; [by rewrite elem_of_nil|]. rewrite Hid. set (l := range_pods _).
  pose proof (delete_fold_records id l (mkDeleting 0 None None [] e) (pod_key po)) as Hrec.
  destruct (delete_fold id l (mkDeleting 0 None None [] e)) as (Ha & _ & _ & Hld & _).
  set (d := fold_left _ l _) in *. cbn [d_actions app] in Ha. cbv zeta. clearbody d.
  assert (Hin : DeletedPod po ∈ d_actions d → GetExpectation (pod_key po) (d_expectations d) ≠ None).
  { rewrite Ha. intros (q & [= <-] & Hq)%list_elem_of_fmap. apply Hrec. left. by apply list_elem_of_fmap_2. }
  case_decide; [done|]. destruct (d_leader d) as [q|] eqn:Hq; [|done]. destruct (delete_pod q); [done|].
  cbn [u_actions u_expectations]. intros [Hx|Hx%list_elem_of_singleton]%elem_of_app; [by apply Hin|].
  injection Hx as <-. destruct (Hld po eq_refl) as [[_ ?]|?]; [congruence|done].
Qed.

Lemma leaving_spec e po : leaving e po = true ↔ terminating po ∨ GetExpectation (pod_key po) e ≠ None.
Proof. unfold leaving, terminating. by rewrite orb_true_iff, !bool_decide_eq_true. Qed.

(** A pod that is leaving, or is deleted in the round, leaves until its
    successor is there. *)
Lemma step_leaves (st st' : list RPod * Expectations) arrived po po' :
  let u := upgrade sts cfg st.1 st.2 in
  st'.2 = fold_left (λ e po, podDelete po e) arrived (u_expectations u) →
  pod_next sts arrived po po' →
  (∀ id, getHolderIdentity cfg = Some id → isLeader po id = true → DeletedPod po ∈ u_actions u →
     terminating po' ∨ isUpdatedRevision sts po' = true) →
  NoDup (rp_Name <$> st.1) → po ∈ st.1 →
  leaving st.2 po = true ∨ DeletedPod po ∈ u_actions u →
  leaving st'.2 po' = true ∨ isUpdatedRevision sts po' = true.
Proof.
  intros u He [_ Hk _ Harr Hterm] Hlead Hnd Hin Hpo. rewrite leaving_spec.
  assert (Hrec : GetExpectation (pod_key po) (u_expectations u) ≠ None →
    (terminating po' ∨ GetExpectation (pod_key po') st'.2 ≠ None) ∨ isUpdatedRevision sts po' = true).
  { intros Hg. destruct (decide (pod_key po ∈ pod_key <$> arrived)) as [Ha|Ha]; [by right; apply Harr|].
    left. right. rewrite He, delete_events_lookup, Hk. by rewrite decide_False by done. }
  destruct Hpo as [Hl|Hd].
  - assert (Hb : blocked sts st.2 st.1 = true).
    { apply not_false_iff_true. intros Hb. destruct (proj1 (blocked_false _ _ _) Hb po Hin). congruence. }
    apply leaving_spec in Hl as [Hl|Hl]; [destruct (Hterm Hl); tauto|]. apply Hrec. unfold u.
    by rewrite upgrade_unfold, Hb.
  - destruct (upgrade_deletes sts cfg st.1 st.2 po Hnd Hd) as (_ & _ & id & Hid).
    destruct (isLeader po id) eqn:Hl; [destruct (Hlead id Hid Hl Hd); tauto|].
    apply Hrec. by eapply upgrade_records.
Qed.

(** Mapping the pods of a list can only shorten what waits; it does when one
    that waited no longer does. *)
Lemma waiting_shorter e e' pods pods' :
  Forall2 (λ po po', isUpdatedRevision sts po' = false ∧ leaving e' po' = false →
                     isUpdatedRevision sts po = false ∧ leaving e po = false) pods pods' →
  length (waiting sts e' pods') ≤ length (waiting sts e pods) ∧
  (∀ i po po', pods !! i = Some po → pods' !! i = Some po' →
     isUpdatedRevision sts po = false ∧ leaving e po = false →
     ¬ (isUpdatedRevision sts po' = false ∧ leaving e' po' = false) →
   length (waiting sts e' pods') < length (waiting sts e pods)).
Proof.
  unfold waiting. induction 1 as [|po po' pods pods' Hp _ [IH1 IH2]]; [by split|].
  rewrite !filter_cons. split.
  - repeat case_decide; cbn [length]; [lia|tauto|lia|lia].
  - intros [|i] q q'; cbn [lookup list_lookup]; [intros [= ->] [= ->]|intros Hi Hi'] ; intros Hw Hn.
    + rewrite decide_False, decide_True by done. cbn [length]. lia.
    + specialize (IH2 i q q' Hi Hi' Hw Hn). repeat case_decide; cbn [length]; [lia|tauto|lia|lia].
Qed.

Lemma shard_step_names st st' : shard_step sts cfg st st' → rp_Name <$> st'.1 = rp_Name <$> st.1.
Proof.
  intros (arrived & _ & Hf). induction Hf as [|po po' l l' [[Hn _ _ _ _] _] _ IH]; [done|]. cbn. by rewrite Hn, IH.
Qed.

(** A step never adds to the waiting pods, and takes one away when the round
    was not blocked, had pods to replace, and could. *)
Lemma shard_step_waiting st st' :
  shard_step sts cfg st st' → NoDup (rp_Name <$> st.1) →
  length (waiting sts st'.2 st'.1) ≤ length (waiting sts st.2 st.1) ∧
  ((∃ id, getHolderIdentity cfg = Some id) → (∀ po, delete_pod po = None) →
   blocked sts st.2 st.1 = false → outdated sts st.1 ≠ [] →
   length (waiting sts st'.2 st'.1) < length (waiting sts st.2 st.1)).
Proof.
  intros (arrived & He & Hf) Hnd. rewrite Forall2_lookup in Hf.
  assert (Hstep : ∀ i po po', st.1 !! i = Some po → st'.1 !! i = Some po' →
    (isUpdatedRevision sts po = true → isUpdatedRevision sts po' = true) ∧
    (leaving st.2 po = true ∨ DeletedPod po ∈ u_actions (upgrade sts cfg st.1 st.2) →
     leaving st'.2 po' = true ∨ isUpdatedRevision sts po' = true)).
  { intros i po po' Hi Hi'. specialize (Hf i). rewrite Hi, Hi' in Hf. inversion Hf as [? ? [Hn Hlead]|]; subst.
    split; [by destruct Hn|]. eapply step_leaves; [done..|]. by eapply list_elem_of_lookup_2. }
  destruct (waiting_shorter st.2 st'.2 st.1 st'.1) as [Hle Hlt].
  { apply Forall2_lookup. intros i. specialize (Hf i). specialize (Hstep i).
    destruct (st.1 !! i) as [po|], (st'.1 !! i) as [po'|]; inversion Hf; constructor.
    destruct (Hstep po po' eq_refl eq_refl) as [Hu Hl]. intros [Hu' Hl'].
    split; apply not_true_iff_false; intros Hx; [rewrite Hu in Hu'; done|].
    destruct Hl as [?|?]; [by left|congruence..]. }
  split; [done|]. intros [id Hid] Hdel Hb Ho.
  assert (∃ po, DeletedPod po ∈ u_actions (upgrade sts cfg st.1 st.2) ∧ po ∈ outdated sts st.1) as (po & Hpo & Hout).
  { destruct (upgrade_round sts cfg st.1 st.2 id Hnd Hb Ho Hid) as [_ [[(l & Ha & Hl) Hnil]|(p & Ha & Hp & _)]].
    - destruct l as [|p l]; [destruct (Hnil Ha) as (q & _ & [x Hx]); by rewrite Hdel in Hx|].
      exists p. destruct (Hl p) as (Hp & _); [by left|]. split; [|done]. rewrite Ha. by left.
    - exists p. rewrite Ha. split; [by apply list_elem_of_singleton|done]. }
  apply list_elem_of_filter in Hout as [Hu Hin]. pose proof Hin as [i Hi]%list_elem_of_lookup_1.
  pose proof (Hf i) as Hfi. rewrite Hi in Hfi. destruct (st'.1 !! i) as [po'|] eqn:Hi'; [|by inversion Hfi].
  apply (Hlt i po po' Hi Hi').
  - split; [done|]. by apply (proj1 (blocked_false sts st.2 st.1) Hb).
  - intros [Hu' Hl']. destruct (Hstep i po po' Hi Hi') as [_ Hx]. destruct Hx as [?|?]; [by right|congruence..].
Qed.
End converge.

Section runs.
Context (sts : StatefulSet) (cfg : ShardingConfig).

Lemma shard_done `{RangeOrder} `{RolloutApi} pods e : blocked sts e pods = false → outdated sts pods = [] →
  u_finish (upgrade sts cfg pods e) = true ∧
  ∀ q, q ∈ pods → isUpdatedRevision sts q = true ∧ ready q = true ∧ ¬ terminating q.
Proof.
  intros Hb Ho. rewrite upgrade_unfold, Hb, decide_True by done. split; [done|]. intros q Hq.
  pose proof (proj1 (outdated_nil sts pods) Ho q Hq) as Hu.
  destruct (proj1 (blocked_pods sts e pods) Hb q Hq) as (Ht & _ & Hr). unfold terminating. rewrite Ht. auto.
Qed.

Lemma waiting_outdated e pods : length (waiting sts e pods) ≤ length (outdated sts pods).
Proof.
  unfold waiting, outdated. induction pods as [|po pods IH]; [done|]. rewrite !filter_cons.
  repeat case_decide; cbn [length]; [lia|tauto|lia|lia].
Qed.

(** The rounds from [n] on that find no pod on its way and none unready. *)
Definition open_rounds (run : nat → list RPod * Expectations) (n k : nat) : nat :=
  length (filter (λ i, blocked sts (run i).2 (run i).1 = false) (seq n k)).

Lemma open_rounds_app run n k k' : open_rounds run n (k + k') = open_rounds run n k + open_rounds run (n + k) k'.
Proof. unfold open_rounds. by rewrite seq_app, filter_app, length_app. Qed.

(** The next such round. *)
Lemma next_open run n :
  (∃ m, n ≤ m ∧ blocked sts (run m).2 (run m).1 = false) →
  ∃ k, blocked sts (run (n + k)).2 (run (n + k)).1 = false ∧ open_rounds run n k = 0.
Proof.
  intros (m & Hm & Hb). replace m with (n + (m - n)) in Hb by lia. set (k := m - n) in Hb. clearbody k. clear m Hm.
  revert n Hb. induction k as [|k IH]; intros n Hb; [by exists 0|].
  destruct (blocked sts (run n).2 (run n).1) eqn:Hn; [|by exists 0; rewrite Nat.add_0_r].
  rewrite Nat.add_succ_r in Hb. destruct (IH (S n) Hb) as (k' & Hk & Ho). exists (S k').
  rewrite Nat.add_succ_r. split; [done|]. unfold open_rounds in *. cbn [seq]. rewrite filter_cons, decide_False; [done|].
  by rewrite Hn.
Qed.

(** C17. The rollout of a shard ends, whatever the order of its rounds and of
    what the cluster does in between, under this contract: the successor of a
    deleted pod has the recent revision, a terminating pod is listed until
    its successor is, the deletion of the holder's pod is visible in the next
    round, and again and again a round finds no pod on its way out and every
    replaced one ready.  When in every round a holder of the lease the
    controller reads is known and deletions succeed, then after at most as many such
    rounds as there are pods to replace, a round reports that the shard is
    finished: every pod has the recent revision, is ready and not terminating.  The
    last part of the contract fails when an expectation is recorded after its
    event ([late_record_blocks_shard]); and with the leases that the proxies
    keep the holder is not known ([rollout_never_finds_holder]). *)
Theorem shard_rollout_ends (order : nat → RangeOrder) (api : nat → RolloutApi) (run : nat → list RPod * Expectations) :
  NoDup (rp_Name <$> (run 0).1) →
  (∀ n, @shard_step (order n) (api n) sts cfg (run n) (run (S n))) →
  (∀ n, ∃ m, n ≤ m ∧ blocked sts (run m).2 (run m).1 = false) →
  (∀ n, ∃ id, @getHolderIdentity (api n) cfg = Some id) →
  (∀ n po, @delete_pod (api n) po = None) →
  ∃ n, open_rounds run 0 n ≤ length (outdated sts (run 0).1) ∧
    u_finish (@upgrade (order n) (api n) sts cfg (run n).1 (run n).2) = true ∧
    ∀ q, q ∈ (run n).1 → isUpdatedRevision sts q = true ∧ ready q = true ∧ ¬ terminating q.
Proof.
  intros Hnd0 Hstep Hfair Hid Hdel.
  assert (Hnd : ∀ n, NoDup (rp_Name <$> (run n).1)).
  { induction n as [|n IH]; [done|]. by rewrite (shard_step_names _ _ _ _ (Hstep n)). }
  assert (Hle : ∀ n k, length (waiting sts (run (n + k)).2 (run (n + k)).1) ≤ length (waiting sts (run n).2 (run n).1)).
  { intros n k. induction k as [|k IH]; [by rewrite Nat.add_0_r|]. rewrite Nat.add_succ_r.
    etrans; [|exact IH]. by apply (shard_step_waiting _ _ _ _ (Hstep (n + k))). }
  assert (Hgo : ∀ w n, length (waiting sts (run n).2 (run n).1) ≤ w → ∃ k, open_rounds run n k ≤ w ∧
    blocked sts (run (n + k)).2 (run (n + k)).1 = false ∧ outdated sts (run (n + k)).1 = []).
  { induction w as [|w IH]; intros n Hw; destruct (next_open run n (Hfair n)) as (k & Hb & Hk);
      (destruct (decide (outdated sts (run (n + k)).1 = [])) as [Ho|Ho]; [by exists k; rewrite Hk; split; [lia|]|]);
      pose proof (Hle n k); destruct (shard_step_waiting _ _ _ _ (Hstep (n + k)) (Hnd _)) as [_ Hlt];
      specialize (Hlt (Hid _) (Hdel _) Hb Ho); [lia|].
    destruct (IH (S (n + k))) as (k' & Hk' & Hend); [lia|]. exists (k + S k').
    replace (n + (k + S k')) with (S (n + k) + k') by lia. split; [|done].
    rewrite open_rounds_app, Hk. change (S k') with (1 + k'). rewrite open_rounds_app, Nat.add_1_r.
    assert (open_rounds run (n + k) 1 ≤ 1); [|lia]. unfold open_rounds. cbn [seq]. rewrite filter_cons. by case_decide. }
  destruct (Hgo _ 0 (waiting_outdated _ _)) as (k & Hk & Hb & Ho). exists k. split; [done|]. by apply shard_done.
Qed.
End runs.

(** ** The whole round *)

Section round_theorems.
Context `{RangeOrder} {HAS : AsSelector} `{RolloutApi}.

(** The pods of a configuration, as the grouping finds them. *)
Definition injected_with (sts : StatefulSet) (n : string) (po : RPod) : bool :=
  match rp_Owners po with
  | [] => false
  | owner :: _ => bool_decide (ow_Name owner = st_Name sts) && bool_decide (rp_Labels po !! ShardingConfigInjectedKey = Some n)
  end.

Lemma group_pod_spec sts m po n :
  default [] (group_pod sts m po !! n) = default [] (m !! n) ++ (if injected_with sts n po then [po] else []).
Proof.
  unfold group_pod, injected_with. destruct (rp_Owners po) as [|owner ?]; [by rewrite app_nil_r|].
  destruct (decide (ow_Name owner = st_Name sts)) as [Ho|Ho].
  2:{ rewrite decide_True, (bool_decide_false (ow_Name owner = st_Name sts)) by done. cbn. by rewrite app_nil_r. }
  rewrite decide_False, (bool_decide_true (ow_Name owner = st_Name sts)) by (try intros ?; done). cbn [andb].
  destruct (rp_Labels po !! ShardingConfigInjectedKey) as [c|]; [|by rewrite app_nil_r].
  destruct (decide (c = n)) as [->|Hne].
  - by rewrite lookup_insert_eq, bool_decide_true.
  - rewrite lookup_insert_ne, bool_decide_false by congruence. by rewrite app_nil_r.
Qed.

Lemma pods_of_spec sts pods cfg :
  pods_of (shardingPods sts pods) cfg = filter (λ po, injected_with sts (sc_Name cfg) po = true) pods.
Proof.
  unfold pods_of, shardingPods.
  assert (∀ m, default [] (fold_left (group_pod sts) pods m !! sc_Name cfg) =
    default [] (m !! sc_Name cfg) ++ filter (λ po, injected_with sts (sc_Name cfg) po = true) pods) as Hm.
  { induction pods as [|po pods IH]; intros m; cbn [fold_left]; [by rewrite app_nil_r|].
    rewrite IH, group_pod_spec, <- app_assoc, filter_cons. f_equal.
    destruct (injected_with sts (sc_Name cfg) po); [by rewrite decide_True|by rewrite decide_False]. }
  by rewrite Hm, lookup_empty.
Qed.

Lemma pods_of_NoDup sts pods cfg :
  NoDup (rp_Name <$> pods) → NoDup (rp_Name <$> pods_of (shardingPods sts pods) cfg).
Proof.
  intros Hnd. rewrite pods_of_spec. eapply sublist_NoDup; [exact Hnd|]. apply fmap_sublist, sublist_filter.
Qed.

(** A configuration the rollout has finished with. *)
Definition shard_finished (sts : StatefulSet) (e : Expectations) (pods : list RPod) : Prop :=
  ∀ q, q ∈ pods → isUpdatedRevision sts q = true ∧ ready q = true ∧ leaving e q = false.

Lemma upgrade_actions_deletions sts cfg pods e s : ¬ UpdatedSts s ∈ u_actions (upgrade sts cfg pods e).
Proof.
  rewrite upgrade_unfold. destruct (blocked sts e pods); [set_solver|]. case_decide; [set_solver|].
  destruct (getHolderIdentity cfg) as [id|]; [|set_solver]. set (l := range_pods _).
  destruct (delete_fold id l (mkDeleting 0 None None [] e)) as (Ha & _). set (d := fold_left _ l _) in *.
  cbn [d_actions app] in Ha. cbv zeta. clearbody d.
  assert (UpdatedSts s ∉ d_actions d) as Hno.
  { rewrite Ha. intros (q & Hq & _)%list_elem_of_fmap. done. }
  case_decide; [done|]. destruct (d_leader d); [|done]. destruct (delete_pod r); [done|]. cbn. set_solver.
Qed.

(** The loop stops at the first configuration that is not finished. *)
Definition loop_outcome (sts : StatefulSet) (rollType : string) (m : gmap string (list RPod)) (cfgs : list ShardingConfig)
    (acts : list action) (e : Expectations) (res : bool * round) : Prop :=
  (res = (true, mkRound (Returns (mkResult 0 None)) acts e) ∧
   ∀ cfg, cfg ∈ cfgs → skipped rollType cfg = false → shard_finished sts e (pods_of m cfg)) ∨
  (res.1 = false ∧ ∃ cfgs1 cfg cfgs2, cfgs = cfgs1 ++ cfg :: cfgs2 ∧ skipped rollType cfg = false ∧
     (∀ c, c ∈ cfgs1 → skipped rollType c = false → shard_finished sts e (pods_of m c)) ∧
     rd_actions res.2 = acts ++ u_actions (upgrade sts cfg (pods_of m cfg) e)).

Lemma loop_outcome_cons sts rollType m cfg cfgs acts e res :
  (skipped rollType cfg = false → shard_finished sts e (pods_of m cfg)) →
  loop_outcome sts rollType m cfgs acts e res → loop_outcome sts rollType m (cfg :: cfgs) acts e res.
Proof.
  intros Hcfg [(Hr & Hall)|(Hf & cfgs1 & c & cfgs2 & -> & Hc & Hall & Ha)]; [left|right].
  - split; [done|]. intros c [->|Hc]%elem_of_cons; auto.
  - split; [done|]. exists (cfg :: cfgs1), c, cfgs2. split_and!; [done|done| |done].
    intros c' [->|Hc']%elem_of_cons; auto.
Qed.

Lemma upgrade_all_spec sts rollType m cfgs acts e :
  (∀ cfg, cfg ∈ cfgs → NoDup (rp_Name <$> pods_of m cfg)) →
  loop_outcome sts rollType m cfgs acts e (upgrade_all sts rollType m cfgs acts e).
Proof.
  intros Hnd. revert acts. induction cfgs as [|cfg cfgs IH]; intros acts; cbn [upgrade_all].
  { left. split; [done|]. set_solver. }
  destruct (skipped rollType cfg) eqn:Hs.
  { apply loop_outcome_cons; [congruence|]. apply IH. set_solver. }
  destruct (upgrade_finish sts cfg (pods_of m cfg) e) as [Hfin Hu]; [apply Hnd; set_solver|].
  destruct (u_finish (upgrade sts cfg (pods_of m cfg) e)) eqn:Hf.
  - rewrite (Hu eq_refl). cbn [u_actions u_expectations]. rewrite app_nil_r.
    pose proof (proj1 Hfin eq_refl) as Hdone.
    apply loop_outcome_cons; [done|]. apply IH. set_solver.
  - right. split; [done|]. exists [], cfg, cfgs. split_and!; [done|done|set_solver|done].
Qed.

(** The deferred function adds at most one update of the stateful set, and
    takes the rolling label only when the rollout is finished. *)
Lemma finally_actions sts upgraded fin r :
  rd_actions (finally sts upgraded fin r) = rd_actions r ∨
  ∃ s, rd_actions (finally sts upgraded fin r) = rd_actions r ++ [UpdatedSts s] ∧
    (fin = false → st_Labels s = st_Labels sts).
Proof.
  unfold finally. assert (st_Labels (updateRolloutAnno sts upgraded).2 = st_Labels sts) as Hl.
  { unfold updateRolloutAnno. destruct (st_Annotations sts); [|done]. by case_decide. }
  destruct (updateRolloutAnno sts upgraded) as [upd s1]; cbn in Hl.
  destruct fin.
  - destruct (deleteLabel s1 CtrlmeshInRollingLabel) as [del s2]. destruct (upd || del); [|by left].
    destruct (update_sts s2); [by left|]. right. by exists s2.
  - destruct (upd || false); [|by left]. destruct (update_sts s1); [by left|]. right. by exists s1.
Qed.

Lemma finally_deleted sts upgraded fin r po :
  DeletedPod po ∈ rd_actions (finally sts upgraded fin r) → DeletedPod po ∈ rd_actions r.
Proof.
  destruct (finally_actions sts upgraded fin r) as [->|(s & -> & _)]; [done|].
  rewrite elem_of_app, list_elem_of_singleton. by intros [|].
Qed.
Lemma finally_updated sts upgraded fin r s :
  UpdatedSts s ∈ rd_actions (finally sts upgraded fin r) →
  UpdatedSts s ∈ rd_actions r ∨ (fin = false → st_Labels s = st_Labels sts).
Proof.
  destruct (finally_actions sts upgraded fin r) as [->|(s' & -> & Hs)]; [by left|].
  rewrite elem_of_app, list_elem_of_singleton. intros [|[= ->]]; [by left|by right].
Qed.

(** The state of the stateful set the loop runs with. *)
Lemma SetExpectedRevision_same sts rev b sts' :
  SetExpectedRevision sts rev = Returns (b, sts') →
  st_Labels sts' = st_Labels sts ∧ st_UpdateRevision sts' = st_UpdateRevision sts ∧ st_CurrentRevision sts' = st_CurrentRevision sts.
Proof.
  unfold SetExpectedRevision. case_decide; [by intros [= <- <-]|]. destruct (st_Annotations sts); [|done].
  by intros [= <- <-].
Qed.
Lemma shard_finished_same sts sts' e pods :
  st_UpdateRevision sts' = st_UpdateRevision sts → st_CurrentRevision sts' = st_CurrentRevision sts →
  shard_finished sts' e pods → shard_finished sts e pods.
Proof.
  intros Hu Hc Hf q Hq. destruct (Hf q Hq) as (H1 & H2). split; [|done].
  unfold isUpdatedRevision, recentRevision in *. by rewrite Hu, Hc in H1.
Qed.

Lemma upgrade_deletes_members sts cfg pods e po :
  NoDup (rp_Name <$> pods) → DeletedPod po ∈ u_actions (upgrade sts cfg pods e) → po ∈ pods.
Proof.
  intros Hnd Hdel. destruct (upgrade_deletes sts cfg pods e po Hnd Hdel) as (Hb & Ho & id & Hid).
  assert (po ∈ outdated sts pods) as Hin; [|unfold outdated in Hin; by apply list_elem_of_filter in Hin as [_ ?]].
  destruct (upgrade_round sts cfg pods e id Hnd Hb Ho Hid) as [_ [[(l & Ha & Hl) _]|(p & Ha & Hp & _)]]; rewrite Ha in Hdel.
  - apply list_elem_of_fmap in Hdel as (q & [= <-] & Hq). by apply Hl.
  - by apply list_elem_of_singleton in Hdel as [= <-].
Qed.

(** A round is the deferred function after a loop, or after no loop. *)
Lemma roll_cases sts rollType configs pods e :
  let m := shardingPods sts pods in
  let cfgs := allConfigs m configs in
  ∃ sts' fin r, roll sts rollType configs pods e = finally sts' (upgradedPods sts m cfgs) fin r ∧
    st_Labels sts' = st_Labels sts ∧ st_UpdateRevision sts' = st_UpdateRevision sts ∧
    st_CurrentRevision sts' = st_CurrentRevision sts ∧
    ((fin = false ∧ rd_actions r = []) ∨
     ∃ acts, (acts = [] ∨ acts = [UpdatedSts sts']) ∧ (fin, r) = upgrade_all sts' rollType m cfgs acts e).
Proof.
  intros m cfgs. unfold roll. fold m cfgs.
  destruct (SetExpectedRevision sts _) as [[b sts']|] eqn:Hset.
  2:{ exists sts, false, (mkRound Panics [] e). split_and!; try done. by left. }
  destruct (SetExpectedRevision_same _ _ _ _ Hset) as (Hl & Hu & Hc).
  destruct b; [destruct (update_sts sts') as [err|]|].
  - exists sts', false, (ended 0 (Some err) e). split_and!; try done. by left.
  - destruct (upgrade_all sts' rollType m cfgs [UpdatedSts sts'] e) as [fin r] eqn:Hr.
    exists sts', fin, r. split_and!; try done. right. exists [UpdatedSts sts']. by auto.
  - destruct (upgrade_all sts' rollType m cfgs [] e) as [fin r] eqn:Hr.
    exists sts', fin, r. split_and!; try done. right. exists []. by auto.
Qed.

(** A round from the listed objects on: every deleted pod belongs to one
    configuration of the rollout, and the ones before it are finished; the
    label goes only when all are. *)
Lemma roll_in_order sts rollType configs pods e :
  NoDup (rp_Name <$> pods) →
  let m := shardingPods sts pods in
  let cfgs := allConfigs m configs in
  let acts := rd_actions (roll sts rollType configs pods e) in
  ((∀ po, DeletedPod po ∉ acts) ∨
   ∃ cfgs1 cfg cfgs2, cfgs = cfgs1 ++ cfg :: cfgs2 ∧ skipped rollType cfg = false ∧
     (∀ po, DeletedPod po ∈ acts → po ∈ pods_of m cfg) ∧
     ∀ c, c ∈ cfgs1 → skipped rollType c = false → shard_finished sts e (pods_of m c)) ∧
  (∀ s, UpdatedSts s ∈ acts → is_Some (st_Labels sts !! CtrlmeshInRollingLabel) →
     st_Labels s !! CtrlmeshInRollingLabel = None →
     ∀ c, c ∈ cfgs → skipped rollType c = false → shard_finished sts e (pods_of m c)).
Proof.
  intros Hnd m cfgs acts.
  destruct (roll_cases sts rollType configs pods e) as (sts' & fin & r & Hroll & Hlab & Hu & Hc & Hcase).
  fold m cfgs in Hroll, Hcase. unfold acts. rewrite Hroll. clear Hroll acts.
  assert (∀ cfg, cfg ∈ cfgs → NoDup (rp_Name <$> pods_of m cfg)) as Hnd' by (intros ? _; by apply pods_of_NoDup).
  assert (Hdel := λ po, finally_deleted sts' (upgradedPods sts m cfgs) fin r po).
  assert (Hupd := λ s, finally_updated sts' (upgradedPods sts m cfgs) fin r s). rewrite Hlab in Hupd.
  assert (∀ pds, shard_finished sts' e pds → shard_finished sts e pds) as Hsame.
  { intros pds. by apply shard_finished_same. }
  destruct Hcase as [[-> Hr]|(acts & Hacts & Hloop)].
  { split; [left; intros po Hpo%Hdel; rewrite Hr in Hpo; set_solver|].
    intros s Hs [x Hx] Hno. destruct (Hupd s Hs) as [Hs'|Hs']; [rewrite Hr in Hs'; set_solver|].
    rewrite Hs' in Hno by done. congruence. }
  assert (∀ s, UpdatedSts s ∈ acts → st_Labels s = st_Labels sts) as Hkeep.
  { intros s Hs. destruct Hacts as [-> | ->]; [set_solver|]. apply list_elem_of_singleton in Hs as [= ->]. done. }
  pose proof (upgrade_all_spec sts' rollType m cfgs acts e Hnd') as Ho. rewrite <- Hloop in Ho.
  assert (∀ po, DeletedPod po ∉ acts) as Hnod.
  { intros po. destruct Hacts as [-> | ->]; [set_solver|]. rewrite list_elem_of_singleton. done. }
  destruct Ho as [[[= -> ->] Hall]|[Hff (cfgs1 & cfg & cfgs2 & Heq & Hsk & Hall & Ha)]]; cbn [fst snd] in *.
  - split; [left; intros po Hpo%Hdel; by apply (Hnod po)|]. intros s _ _ _ c Hcin Hcs. by apply Hsame, Hall.
  - subst fin. split.
    + right. exists cfgs1, cfg, cfgs2. split_and!; [done|done| |eauto].
      intros po Hpo%Hdel. rewrite Ha in Hpo. apply elem_of_app in Hpo as [Hpo|Hpo]; [by destruct (Hnod po)|].
      eapply upgrade_deletes_members; [|exact Hpo]. by apply pods_of_NoDup.
    + intros s Hs [x Hx] Hno. destruct (Hupd s Hs) as [Hs'|Hs']; [|rewrite Hs' in Hno by done; congruence].
      rewrite Ha in Hs'. apply elem_of_app in Hs' as [Hs'|Hs']; [rewrite (Hkeep s Hs') in Hno; congruence|].
      by apply upgrade_actions_deletions in Hs'.
Qed.

#[export] Instance by_name_trans : Transitive by_name.
Proof. intros a b c. unfold by_name. apply (transitivity (R := String.le)). Qed.
#[export] Instance by_name_total : Total by_name.
Proof. intros a b. apply (total String.le). Qed.

(** In the sorted list, what comes earlier by name comes first. *)
Lemma earlier_before m configs cfgs1 cfg cfgs2 c :
  allConfigs m configs = cfgs1 ++ cfg :: cfgs2 → c ∈ allConfigs m configs →
  String.ltb (sc_Name c) (sc_Name cfg) = true → c ∈ cfgs1.
Proof.
  intros Heq Hc Hlt. pose proof (StronglySorted_merge_sort by_name (filter (λ cfg, is_Some (m !! sc_Name cfg)) configs)) as Hs.
  change (merge_sort _ _) with (allConfigs m configs) in Hs. rewrite Heq in Hc, Hs.
  apply elem_of_app in Hc as [Hc|Hc]; [done|exfalso].
  assert (Hle : String.leb (sc_Name cfg) (sc_Name c) = true).
  { apply elem_of_cons in Hc as [->|Hc]; [destruct (String.leb_total (sc_Name cfg) (sc_Name cfg)); done|].
    apply StronglySorted_app_1_r, StronglySorted_inv in Hs as [_ Hs]. rewrite Forall_forall in Hs.
    apply Is_true_true. by apply Hs. }
  unfold String.ltb in Hlt. unfold String.leb in Hle. rewrite String.compare_antisym in Hle.
  by destruct (String.compare (sc_Name c) (sc_Name cfg)).
Qed.

(** The configurations a rollout is for, by the value of the label. *)
Definition chosen (rollType : string) (cfg : ShardingConfig) : Prop :=
  rollType = "all" ∨ rollType = EmptyString ∨ Contains (sc_Name cfg) rollType = true.
Lemma skipped_chosen rollType cfg : skipped rollType cfg = false ↔ chosen rollType cfg.
Proof.
  unfold skipped, chosen. rewrite !andb_false_iff, negb_false_iff, !bool_decide_eq_false.
  destruct (decide (rollType = "all")), (decide (rollType = EmptyString)); tauto.
Qed.

(** The pods of the stateful set that were injected with a configuration. *)
Definition members (sts : StatefulSet) (pods : list RPod) (cfg : ShardingConfig) : list RPod :=
  filter (λ po, injected_with sts (sc_Name cfg) po = true) (filter (λ po, owned sts po = true) pods).

Lemma in_allConfigs sts pods configs c po :
  c ∈ configs → po ∈ pods_of (shardingPods sts pods) c → c ∈ allConfigs (shardingPods sts pods) configs.
Proof.
  intros Hc Hpo. unfold allConfigs. rewrite merge_sort_Permutation, list_elem_of_filter. split; [|done].
  unfold pods_of in Hpo. destruct (shardingPods sts pods !! sc_Name c); [by eexists|by apply elem_of_nil in Hpo].
Qed.

(** C16. A rollout goes shard by shard and ends with all of them.  In a round of
    the reconciler for a stateful set with the rolling label, either no pod is
    deleted, or every deleted pod belongs to one sharding configuration that
    the label chooses, and every chosen configuration whose name comes before
    is finished: its pods of the set run the recent revision, are ready and
    none is on its way out.  A set with the update strategy [OnDelete] loses
    the label only when every chosen configuration is finished; another one
    loses it in a round that deletes nothing. *)
Theorem rollout_one_shard_at_a_time sts rollType configs pods e :
  get_sts = Ok (Some sts) → st_Labels sts !! CtrlmeshInRollingLabel = Some rollType →
  list_configs = Ok configs → list_pods (LabelSelectorAsSelector (st_Selector sts)) = Ok (Some pods) →
  NoDup (rp_Name <$> pods) →
  let acts := rd_actions (Reconcile e) in
  let finished c := shard_finished sts e (members sts pods c) in
  ((∀ po, DeletedPod po ∉ acts) ∨
   ∃ cfg, cfg ∈ configs ∧ chosen rollType cfg ∧ (∀ po, DeletedPod po ∈ acts → po ∈ members sts pods cfg) ∧
     ∀ c, c ∈ configs → chosen rollType c → String.ltb (sc_Name c) (sc_Name cfg) = true → finished c) ∧
  ((∃ s, UpdatedSts s ∈ acts ∧ st_Labels s !! CtrlmeshInRollingLabel = None) →
   if decide (st_UpdateStrategyType sts = "OnDelete")
   then ∀ c, c ∈ configs → chosen rollType c → finished c
   else ∀ po, DeletedPod po ∉ acts).
Proof.
  intros Hsts Hlab Hcfgs Hpods Hnd. cbv zeta. unfold Reconcile. rewrite Hsts.
  assert (Hquiet : ∀ t err, (∀ po, DeletedPod po ∉ rd_actions (ended t err e)) ∧ ¬ ∃ s, UpdatedSts s ∈ rd_actions (ended t err e) ∧ st_Labels s !! CtrlmeshInRollingLabel = None).
  { intros t err. cbn. split; [intros po Hpo; by apply elem_of_nil in Hpo|intros (s & Hs & _); by apply elem_of_nil in Hs]. }
  destruct (_ || _); [split; [left; apply Hquiet|intros Hx; by apply Hquiet in Hx]|].
  destruct (decide (Some (st_StatusReplicas sts) ≠ st_Replicas sts)); [split; [left; apply Hquiet|intros Hx; by apply Hquiet in Hx]|].
  rewrite Hlab. unfold isOnDeleteStrategy, OnDeleteStatefulSetStrategyType.
  destruct (decide (st_UpdateStrategyType sts = "OnDelete")) as [Hod|Hod].
  2: { rewrite bool_decide_eq_false_2 by done. cbn [negb]. set (s' := (deleteLabel sts _).2).
    destruct (update_sts s'); cbn [rd_actions ended]; (split; [left|intros _]); intros po Hpo;
      first [by apply elem_of_nil in Hpo|by apply list_elem_of_singleton in Hpo]. }
  rewrite bool_decide_eq_true_2 by done. cbn [negb]. rewrite Hcfgs, Hpods.
  destruct (decide (Some (Z.of_nat _) ≠ st_Replicas sts)); [split; [left; apply Hquiet|intros Hx; by apply Hquiet in Hx]|].
  set (stsPods := filter (λ po, owned sts po = true) pods).
  assert (Hnd' : NoDup (rp_Name <$> stsPods)) by (eapply sublist_NoDup; [exact Hnd|]; apply fmap_sublist, sublist_filter).
  assert (Hmem : ∀ c, pods_of (shardingPods sts stsPods) c = members sts pods c) by (intros c; apply pods_of_spec).
  assert (Hfin : ∀ c, c ∈ configs → chosen rollType c →
    (c ∈ allConfigs (shardingPods sts stsPods) configs → skipped rollType c = false → shard_finished sts e (pods_of (shardingPods sts stsPods) c)) →
    shard_finished sts e (members sts pods c)).
  { intros c Hc Hch Hf q Hq. rewrite <- Hmem in Hq.
    apply Hf; [by eapply in_allConfigs|by apply skipped_chosen|done]. }
  destruct (roll_in_order sts rollType configs stsPods e Hnd') as [Hdel Hend]. split.
  - destruct Hdel as [Hno|(cfgs1 & cfg & cfgs2 & Heq & Hsk & Hpo & Hbefore)]; [by left|right].
    exists cfg. assert (Hin : cfg ∈ allConfigs (shardingPods sts stsPods) configs) by (rewrite Heq; set_solver).
    split_and!; [|by apply skipped_chosen|intros po Hx; rewrite <- Hmem; by apply Hpo|].
    + unfold allConfigs in Hin. rewrite merge_sort_Permutation in Hin. by apply list_elem_of_filter in Hin as [_ ?].
    + intros c Hc Hch Hlt. apply Hfin; [done..|]. intros Hca Hs. apply Hbefore; [|done]. by eapply earlier_before.
  - intros (s & Hs & Hl) c Hc Hch. apply Hfin; [done..|]. intros Hca Hsk. eapply Hend; [exact Hs|by rewrite Hlab|exact Hl|exact Hca|exact Hsk].
Qed.

(** The first round of a rollout panics on a stateful set without
    annotations: [SetExpectedRevision] writes to the nil map.  The deferred
    function still runs and stores the status annotation, so what the next
    round reads has a map to write to. *)
Theorem nil_annotations_panic sts rollType configs pods e :
  st_Annotations sts = None → (∀ s, update_sts s = None) →
  let r := roll sts rollType configs pods e in
  rd_end r = Panics ∧ rd_expectations r = e ∧
  ∃ s a, rd_actions r = [UpdatedSts s] ∧ st_Annotations s = Some a ∧
    ∀ rev, ∃ res, SetExpectedRevision s rev = Returns res.
Proof.
  intros Hn Hup r.
  assert (∀ rev, SetExpectedRevision sts rev = Panics) as Hset.
  { intros rev. unfold SetExpectedRevision. rewrite Hn.
    replace (read _ _) with EmptyString by (unfold read; cbn; by rewrite lookup_empty).
    rewrite decide_False; [done|]. apply json_expected_nonempty. }
  unfold r, roll. rewrite Hset. unfold finally, updateRolloutAnno. rewrite Hn, Hup.
  cbn [rd_end rd_actions rd_expectations app]. split_and!; [done|done|].
  eexists _, _. split_and!; [reflexivity|reflexivity|]. intros rev. unfold SetExpectedRevision.
  case_decide; by eexists.
Qed.
End round_theorems.

(** ** The holder the controller looks for

    The controller reads the lease [<name>---default-<config>]; the proxies of
    a shard keep [<name>---<config>] (LeaderElection.v), the shard's name being
    the configuration's. *)

Section holder.
Context `{Codec} `{RangeOrder} (ns lockName : string).

Definition lease_in (c : cluster) (name : string) : option (option string) :=
  (λ x, la_HolderIdentity x.1) <$> locks c !! name.

(** The rollout never sees the leader that the proxies elect.  Let the API
    server's leases be any state the proxies of the shards can bring about.
    Unless there is a shard named [default-] and the configuration's name, the
    lookup finds no lease, although the configuration's own lease may exist
    and have a holder; and then no round deletes any pod of the configuration,
    whatever its pods: the rollout requeues forever. *)
Theorem rollout_never_finds_holder c cfg (api : RolloutApi) :
  roundtrips leaseAdapter → rtc (lock_step ns lockName) (mkCluster ∅ ∅) c →
  (∀ n, get_lease n = lease_in c n) → sc_Controller cfg = Some (mkController lockName) →
  (∀ n a s, locks c !! n = Some (a, s) → s ≠ "default-" +:+ sc_Name cfg) →
  getHolderIdentity cfg = None ∧
  ∀ sts pods e po, NoDup (rp_Name <$> pods) → DeletedPod po ∉ u_actions (upgrade sts cfg pods e).
Proof.
  intros Hrt Hr Hget Hctl Hshards.
  assert (getHolderIdentity cfg = None) as Hnone.
  { unfold getHolderIdentity. rewrite Hctl. cbn [mbind option_bind LeaderElectionName]. rewrite Hget. unfold lease_in.
    destruct (locks c !! leaseName cfg lockName) as [[a s]|] eqn:Hl; [|done]. exfalso.
    destruct (cluster_reachable_wf ns lockName c Hrt Hr) as [Hlocks _].
    destruct (Hlocks _ _ _ Hl) as [_ Hn]. apply (Hshards _ _ _ Hl).
    unfold leaseName, setSubsetIntoName in Hn. apply app_inv_head_str in Hn.
    change ("---default-" +:+ sc_Name cfg) with ("---" +:+ "default-" +:+ sc_Name cfg) in Hn.
    by apply app_inv_head_str in Hn. }
  split; [done|]. intros sts pods e po Hnd Hdel.
  destruct (upgrade_deletes sts cfg pods e po Hnd Hdel) as (_ & _ & id & Hid). congruence.
Qed.
End holder.

(** ** Examples *)

Section examples.
#[local] Existing Instance order_fwd.
#[local] Existing Instance demo_codec.

Definition demo_sts (annos : option (gmap string string)) : StatefulSet :=
  mkSts "op" "ns" {[CtrlmeshInRollingLabel := "all"]} annos None (Some 2%Z) None OnDeleteStatefulSetStrategyType 2 "new" "old".
Definition demo_rpod (name revision : string) : RPod :=
  mkRPod "ns"
    (mkPod name name (<[ControllerRevisionHashLabelKey := revision]> {[ShardingConfigInjectedKey := "s1"]})
       "Running" None 0 [mkPodCondition "Ready" "True"] [])
    [mkOwner "StatefulSet" "op" true].
Definition demo_config : ShardingConfig :=
  mkConfig "s1" "ns" ∅ ∅ [] None None (Some (mkController "op")) None [] None [].
#[local] Instance demo_api : RolloutApi := {|
  get_sts := Ok (Some (demo_sts None)); list_configs := Ok [demo_config];
  list_pods _ := Ok (Some [demo_rpod "op-0" "old"; demo_rpod "op-1" "old"]);
  get_lease n := if decide (n = "op---default-s1") then Some (Some "op-0_x") else None;
  update_sts _ := None; delete_pod _ := None; clock _ := second;
|}.
Definition demo_pods : list RPod := [demo_rpod "op-0" "old"; demo_rpod "op-1" "old"].
Definition demo_expectations : Expectations := NewExpectations (600 * second).

Lemma demo_pods_NoDup : NoDup (rp_Name <$> demo_pods).
Proof. apply NoDup_cons. split; [set_solver|apply NoDup_singleton]. Qed.

Lemma upgrade_safe_witness :
  isUpdatedRevision (demo_sts None) (demo_rpod "op-1" "old") = false ∧
  GetExpectation "ns/op-0" demo_expectations = None.
Proof.
  destruct (upgrade_safe (demo_sts None) demo_config demo_pods demo_expectations (demo_rpod "op-1" "old") demo_pods_NoDup)
    as (_ & Hu & Hall & _).
  - assert (u_actions (upgrade (demo_sts None) demo_config demo_pods demo_expectations) = [DeletedPod (demo_rpod "op-1" "old")])
      as -> by (vm_compute; reflexivity). by apply list_elem_of_singleton.
  - split; [done|]. destruct (Hall (demo_rpod "op-0" "old")) as (_ & Hg & _); [by left|]. exact Hg.
Defined.

Lemma late_record_blocks_shard_witness :
  let e' := SetExpectation second "ns/op-0" 1 (podDelete (demo_rpod "op-0" "old") demo_expectations) in
  upgrade (demo_sts None) demo_config [demo_rpod "op-0" "old"] e' = mkUpgraded false false None [] e'.
Proof.
  apply (late_record_blocks_shard (demo_sts None) demo_config [demo_rpod "op-0" "old"] (demo_rpod "op-0" "old")
           (demo_rpod "op-0" "old") demo_expectations second 1); [reflexivity|by left|reflexivity].
Defined.

(** A rollout of two pods: the follower is replaced first, seen terminating,
    then with a successor that is not ready, then ready; then the holder's. *)
Definition demo_phase (name revision : string) (deletion : option Z) (condition : string) : RPod :=
  mkRPod "ns"
    (mkPod name name (<[ControllerRevisionHashLabelKey := revision]> {[ShardingConfigInjectedKey := "s1"]})
       "Running" deletion 0 [mkPodCondition "Ready" condition] [])
    [mkOwner "StatefulSet" "op" true].
Definition demo_run (n : nat) : list RPod * Expectations :=
  let noted := SetExpectation second "ns/op-1" 1 demo_expectations in
  let after := DeleteExpectation "ns/op-1" noted in
  match n with
  | 0 => (demo_pods, demo_expectations)
  | 1 => ([demo_rpod "op-0" "old"; demo_phase "op-1" "old" (Some 1%Z) "True"], noted)
  | 2 => ([demo_rpod "op-0" "old"; demo_phase "op-1" "new" None "False"], after)
  | 3 => ([demo_rpod "op-0" "old"; demo_rpod "op-1" "new"], after)
  | 4 => ([demo_phase "op-0" "old" (Some 2%Z) "True"; demo_rpod "op-1" "new"], after)
  | _ => ([demo_rpod "op-0" "new"; demo_rpod "op-1" "new"], after)
  end.
(** The pods whose deletion events are handled after round [n]. *)
Definition demo_arrived (n : nat) : list RPod :=
  match n with 1 => [demo_rpod "op-1" "old"] | 4 => [demo_rpod "op-0" "old"] | _ => [] end.

(** A concrete step, clause by clause. *)
Ltac step_clause :=
  lazymatch goal with
  | |- _ ∈ _ → _ => intros Hx; first [vm_compute; reflexivity
        | exfalso; revert Hx; apply (bool_decide_unpack (¬ _)); vm_compute; exact I]
  | |- terminating _ → _ => intros Hx; first [right; vm_compute; reflexivity | left; discriminate | by destruct Hx]
  | |- isUpdatedRevision _ _ = true → _ => intros Hx; first [vm_compute; reflexivity | vm_compute in Hx; discriminate]
  | |- _ => vm_compute; reflexivity
  end.
Ltac leader_clause :=
  intros id Hid Hl Hd; first [right; vm_compute; reflexivity | left; discriminate
    | vm_compute in Hid; injection Hid as <-; vm_compute in Hl; discriminate
    | apply list_elem_of_lookup_1 in Hd as [i Hi]; vm_compute in Hi; destruct i as [|[|i]]; discriminate].

Lemma demo_run_steps n : shard_step (demo_sts None) demo_config (demo_run n) (demo_run (S n)).
Proof.
  exists (demo_arrived n).
  do 5 (destruct n as [|n]; [split; [vm_compute; reflexivity|];
    repeat (constructor; [split; [split; step_clause|leader_clause]|]); constructor|]).
  split; [vm_compute; reflexivity|].
  repeat (constructor; [split; [split; step_clause|leader_clause]|]); constructor.
Qed.

Lemma shard_rollout_ends_witness :
  u_actions (upgrade (demo_sts None) demo_config (demo_run 0).1 (demo_run 0).2) = [DeletedPod (demo_rpod "op-1" "old")] ∧
  u_actions (upgrade (demo_sts None) demo_config (demo_run 3).1 (demo_run 3).2) = [DeletedPod (demo_rpod "op-0" "old")] ∧
  ∃ n, u_finish (upgrade (demo_sts None) demo_config (demo_run n).1 (demo_run n).2) = true.
Proof.
  split; [vm_compute; reflexivity|]. split; [vm_compute; reflexivity|].
  destruct (shard_rollout_ends (demo_sts None) demo_config (λ _, order_fwd) (λ _, demo_api) demo_run)
    as (n & _ & Hf & _); [apply demo_pods_NoDup|apply demo_run_steps| | |done|by exists n].
  - intros n. exists (5 + n). split; [lia|]. vm_compute. reflexivity.
  - intros n. exists "op-0_x". vm_compute. reflexivity.
Defined.

(** A set whose pod of the configuration [s0] is replaced already: the round
    deletes the follower of [s1], the next one by name. *)
Definition demo_named (n : string) : ShardingConfig :=
  mkConfig n "ns" ∅ ∅ [] None None (Some (mkController "op")) None [] None [].
Definition demo_member (cfg name revision : string) : RPod :=
  mkRPod "ns"
    (mkPod name name (<[ControllerRevisionHashLabelKey := revision]> {[ShardingConfigInjectedKey := cfg]})
       "Running" None 0 [mkPodCondition "Ready" "True"] [])
    [mkOwner "StatefulSet" "op" true].
Definition demo_members : list RPod := [demo_member "s1" "op-0" "old"; demo_member "s1" "op-1" "old"; demo_member "s0" "op-2" "new"].
Definition demo_rolling : StatefulSet :=
  mkSts "op" "ns" {[CtrlmeshInRollingLabel := "all"]} (Some ∅) None (Some 3%Z) None OnDeleteStatefulSetStrategyType 3 "new" "old".
Definition demo_rolling_api : RolloutApi := {|
  get_sts := Ok (Some demo_rolling); list_configs := Ok [demo_named "s1"; demo_named "s0"];
  list_pods _ := Ok (Some demo_members);
  get_lease n := if decide (n = "op---default-s1") then Some (Some "op-0_x") else None;
  update_sts _ := None; delete_pod _ := None; clock _ := second;
|}.
#[local] Existing Instance everything.

Lemma rollout_one_shard_at_a_time_witness :
  DeletedPod (demo_member "s1" "op-1" "old") ∈ rd_actions (@Reconcile _ _ demo_rolling_api demo_expectations) ∧
  shard_finished demo_rolling demo_expectations (members demo_rolling demo_members (demo_named "s0")).
Proof.
  assert (Hd : DeletedPod (demo_member "s1" "op-1" "old") ∈ rd_actions (@Reconcile _ _ demo_rolling_api demo_expectations)).
  { assert (rd_actions (@Reconcile _ _ demo_rolling_api demo_expectations) !! 1 = Some (DeletedPod (demo_member "s1" "op-1" "old")))
      as Hl by (vm_compute; reflexivity). by eapply list_elem_of_lookup_2. }
  split; [exact Hd|].
  destruct (@rollout_one_shard_at_a_time _ _ demo_rolling_api demo_rolling "all" [demo_named "s1"; demo_named "s0"] demo_members
    demo_expectations eq_refl eq_refl eq_refl eq_refl) as [Hdel _].
  { apply (bool_decide_unpack _). vm_compute. exact I. }
  destruct Hdel as [Hno|(cfg & Hc & _ & Hm & Hbefore)]; [by apply Hno in Hd|].
  apply elem_of_cons in Hc as [->|[->|[]%elem_of_nil]%elem_of_cons].
  - apply Hbefore; [right; by left|by left|reflexivity].
  - apply Hm in Hd. vm_compute in Hd. apply list_elem_of_singleton in Hd. discriminate.
Defined.

Lemma nil_annotations_panic_witness :
  rd_end (roll (demo_sts None) "all" [demo_config] demo_pods demo_expectations) = Panics.
Proof.
  apply (nil_annotations_panic (demo_sts None) "all" [demo_config] demo_pods demo_expectations); [reflexivity|reflexivity].
Defined.

(** [isLeader] compares prefixes: the pod [op-1] passes for the holder when
    [op-10] holds the lease.  With both to replace, the order of the map
    decides which one goes first, so the holder may be replaced while another
    pod of the old revision is still there. *)
Definition api_holder (id : string) : RolloutApi := {|
  get_sts := Ok None; list_configs := Ok []; list_pods _ := Ok None; get_lease _ := Some (Some id);
  update_sts _ := None; delete_pod _ := None; clock _ := second;
|}.
Definition prefix_pods : list RPod := [demo_rpod "op-1" "old"; demo_rpod "op-10" "old"].
Lemma holder_may_go_first :
  let acts (o : RangeOrder) := u_actions (@upgrade o (api_holder "op-10_x") (demo_sts None) demo_config prefix_pods demo_expectations) in
  acts order_bwd = [DeletedPod (demo_rpod "op-10" "old")] ∨ acts order_fwd = [DeletedPod (demo_rpod "op-10" "old")].
Proof. first [left; vm_compute; reflexivity | right; vm_compute; reflexivity]. Qed.

Definition lease_api (c : cluster) : RolloutApi := {|
  get_sts := Ok None; list_configs := Ok []; list_pods _ := Ok None; get_lease := lease_in c;
  update_sts _ := None; delete_pod _ := None; clock _ := 0%Z;
|}.

(** The lease of the shard is there, with a holder. *)
Lemma rollout_never_finds_holder_witness :
  lease_in demo_cluster1 (setSubsetIntoName "op" (sc_Name demo_config)) = Some (Some "op-0_x") ∧
  @getHolderIdentity (lease_api demo_cluster1) demo_config = None.
Proof.
  split; [reflexivity|].
  apply (rollout_never_finds_holder "ns" "op" demo_cluster1 demo_config (lease_api demo_cluster1));
    [apply demo_lease_roundtrips|apply rtc_once; by apply (demo_create "s1")|reflexivity|reflexivity|].
  intros n a s. unfold demo_cluster1; cbn [locks]. rewrite lookup_singleton_Some. intros [_ [= _ <-]]. done.
Defined.
End examples.
