(* ===== verification/PodInjector.v ===== *)
(** * The injector of the proxy container

    src/pkg/webhook/pod/injector.go and pod_mutating_handler.go, with
    [GetContainerEnvVar] of src/pkg/utils/pod.go and the keys of
    src/pkg/apis/ctrlmesh/constants/constants.go: the webhook that puts the
    proxy into the pods of an operator.  The decoders of the JSON annotations
    are parameters. *)

From S2P Require Import Prelude GoStrings Selector Sharding ShardingReconcile ShardServer.

(** ** Pods *)

(** [ev_ValueFrom] is a field path, as a text. *)
Record EnvVar := mkEnv { ev_Name : string; ev_Value : string; ev_ValueFrom : option string }.
Definition env (name value : string) : EnvVar := mkEnv name value None.
Definition env_field (name path : string) : EnvVar := mkEnv name EmptyString (Some path).
Record VolumeMount := mkMount { vm_Name : string; vm_MountPath : string; vm_ReadOnly : bool }.

(** The parts of a container the injector reads or writes; the rest is a text. *)
Record Container := mkContainer {
  c_Name : string; c_Image : string; c_ImagePullPolicy : string;
  c_Args : list string; c_Env : list EnvVar; c_VolumeMounts : list VolumeMount;
  c_Resources : string; c_Rest : string;
}.
Definition with_args (a : list string) (c : Container) : Container :=
  mkContainer (c_Name c) (c_Image c) (c_ImagePullPolicy c) a (c_Env c) (c_VolumeMounts c) (c_Resources c) (c_Rest c).
Definition with_env (e : list EnvVar) (c : Container) : Container :=
  mkContainer (c_Name c) (c_Image c) (c_ImagePullPolicy c) (c_Args c) e (c_VolumeMounts c) (c_Resources c) (c_Rest c).
Definition with_mounts (m : list VolumeMount) (c : Container) : Container :=
  mkContainer (c_Name c) (c_Image c) (c_ImagePullPolicy c) (c_Args c) (c_Env c) m (c_Resources c) (c_Rest c).
Definition add_env (e : list EnvVar) (c : Container) : Container := with_env (c_Env c ++ e) c.
Definition add_args (a : list string) (c : Container) : Container := with_args (c_Args c ++ a) c.
Definition add_mount (m : VolumeMount) (c : Container) : Container := with_mounts (c_VolumeMounts c ++ [m]) c.

Inductive VolumeSource := ConfigMapVolume (name : string) | EmptyDir | OtherVolume (text : string).
Record Volume := mkVolume { vol_Name : string; vol_Source : VolumeSource }.

(** Labels are not nil where the injector writes them; a nil map of
    annotations reads as an empty one. *)
Record IPod := mkIPod {
  ip_Namespace : string; ip_Name : string; ip_Labels : gmap string string; ip_Annotations : gmap string string;
  ip_HostNetwork : bool; ip_InitContainers : list Container; ip_Containers : list Container;
  ip_Volumes : list Volume;
}.
Definition with_containers (cs : list Container) (p : IPod) : IPod :=
  mkIPod (ip_Namespace p) (ip_Name p) (ip_Labels p) (ip_Annotations p) (ip_HostNetwork p) (ip_InitContainers p) cs (ip_Volumes p).
Definition with_init (cs : list Container) (p : IPod) : IPod :=
  mkIPod (ip_Namespace p) (ip_Name p) (ip_Labels p) (ip_Annotations p) (ip_HostNetwork p) cs (ip_Containers p) (ip_Volumes p).
Definition with_volumes (vs : list Volume) (p : IPod) : IPod :=
  mkIPod (ip_Namespace p) (ip_Name p) (ip_Labels p) (ip_Annotations p) (ip_HostNetwork p) (ip_InitContainers p) (ip_Containers p) vs.
Definition with_pod_labels (l : gmap string string) (p : IPod) : IPod :=
  mkIPod (ip_Namespace p) (ip_Name p) l (ip_Annotations p) (ip_HostNetwork p) (ip_InitContainers p) (ip_Containers p) (ip_Volumes p).

Definition label (p : IPod) (k : string) : string := default EmptyString (ip_Labels p !! k).

(** ** Constants *)

Definition ProxyContainerName : string := "ctrlmesh-proxy".
Definition InitContainerName : string := "ctrlmesh-init".
Definition EnvIPTable : string := "ENABLE_IPTABLE_PROXY".
Definition EnvEnableWebHookProxy : string := "ENABLE_WEBHOOK_PROXY".
Definition EnvInboundWebhookPort : string := "INBOUND_WEBHOOK_PORT".
Definition AllProxySyncEnvKey : list string :=
  ["ENABLE_SIM"; EnvIPTable; EnvEnableWebHookProxy; "DISABLE_CIRCUIT_BREAKER"; "ENABLE_FAULT_INJECTION";
   "ENABLE_API_SERVER_BREAKER"; "ENABLE_REST_BREAKER"; "ENABLE_REST_FAULT_INJECTION"].
Definition CtrlmeshEnableProxyLabel : string := "ctrlmesh.kusionstack.io/enable-proxy".
Definition CtrlmeshEnableIptableMode : string := "ctrlmesh.kusionstack.io/enable-iptables".
Definition CtrlmeshDisableFakeKubeconfigArgLabel : string := "ctrlmesh.kusionstack.io/disable-fake-kubeconfig-arg".
Definition CtrlmeshDisableFakeKubeconfigEnvLabel : string := "ctrlmesh.kusionstack.io/disable-fake-kubeconfig-env".
Definition CtrlmeshWatchOnLimitLabel : string := "ctrlmesh.kusionstack.io/watching".
Definition CtrlmeshProxyKubeConfigVolumeLabel : string := "ctrlmesh.kusionstack.io/kubeconfig-volume".
Definition CtrlmeshSharedLogPathAnno : string := "ctrlmesh.kusionstack.io/log-path".
Definition CtrlmeshWebhookEnvConfigAnno : string := "ctrlmesh.kusionstack.io/env-sync".
Definition CtrlmeshEnvInjectAnno : string := "ctrlmesh.kusionstack.io/env-inject".
Definition CtrlmeshProxyContainerResourceAnno : string := "ctrlmesh.kusionstack.io/proxy-resource".
Definition ShardingConfigInjectedKey : string := "ctrlmesh.kusionstack.io/sharding-config-injected".

(** ** The parts of the injection *)

(** [utils.GetContainerEnvVar]: the first variable of that name. *)
Fixpoint find_env (key : string) (es : list EnvVar) : option EnvVar :=
  match es with
  | [] => None
  | e :: es => if decide (ev_Name e = key) then Some e else find_env key es
  end.
Definition GetContainerEnvVar (c : Container) (key : string) : option EnvVar := find_env key (c_Env c).

Definition getEnv (cs : list Container) (key : string) : list EnvVar :=
  match head (omap (λ c, GetContainerEnvVar c key) cs) with Some e => [e] | None => [] end.

(** The value of the first variable of that name in any container. *)
Definition getEnvValFromPod (cs : list Container) (key : string) : string :=
  match head (omap (λ c, GetContainerEnvVar c key) cs) with Some e => ev_Value e | None => EmptyString end.

(** One item of the annotation [env-sync]. *)
Definition anno_env (cs : list Container) (e : string) : list EnvVar :=
  if decide (e = EmptyString) then []
  else match Split "="%char e with
  | name :: value :: _ => [env name value]
  | name :: [] =>
      let val := getEnvValFromPod cs name in
      if decide (val ≠ EmptyString) then [env name val] else []
  | [] => []
  end.
Definition getEnvFromAnno (p : IPod) : list EnvVar :=
  match ip_Annotations p !! CtrlmeshWebhookEnvConfigAnno with
  | None => []
  | Some envStr => Split ","%char envStr ≫= anno_env (ip_Containers p)
  end.

Definition getExtraEnvs (proxyExtraEnvs : string) : list EnvVar :=
  if decide (proxyExtraEnvs = EmptyString) then []
  else Split ";"%char proxyExtraEnvs ≫= λ str,
    match Split "="%char str with [k; v] => [env k v] | _ => [] end.

(** The two variables of the API server's address, over the containers. *)
Definition same_env (key : string) (c : Container) (found : option EnvVar) : result (option EnvVar) :=
  match GetContainerEnvVar c key, found with
  | None, _ => Ok found
  | Some e, Some f =>
      if decide (ev_Value f ≠ ev_Value e)
      then Err ("found multiple " +:+ key +:+ " values: " +:+ ev_Value f +:+ ", " +:+ ev_Value e)
      else Ok (Some e)
  | Some e, None => Ok (Some e)
  end.
Fixpoint host_port (cs : list Container) (hostEnv portEnv : option EnvVar) : result (option EnvVar * option EnvVar) :=
  match cs with
  | [] => Ok (hostEnv, portEnv)
  | c :: cs =>
      hostEnv ← same_env "KUBERNETES_SERVICE_HOST" c hostEnv;
      portEnv ← same_env "KUBERNETES_SERVICE_PORT" c portEnv;
      host_port cs hostEnv portEnv
  end.
Definition getKubernetesServiceHostPort (cs : list Container) : result (list EnvVar) :=
  '(hostEnv, portEnv) ← host_port cs None None;
  Ok (option_list hostEnv ++ option_list portEnv).

(** Mounts of a directory, marked read-only. *)
Definition getVolumeMountsWithDir (cs : list Container) (cerDir : string) : list VolumeMount :=
  cs ≫= λ c, (λ m, mkMount (vm_Name m) (vm_MountPath m) true) <$> filter (λ m, vm_MountPath m = cerDir) (c_VolumeMounts c).

(** [pickVolume]: [append(c.VolumeMounts[:i], c.VolumeMounts[i+1:]...)] is
    stored in a copy of the container, so the container keeps its length, and
    the shared array has the tail moved one place to the left. *)
Fixpoint first_mount (name : string) (ms : list VolumeMount) : option nat :=
  match ms with
  | [] => None
  | m :: ms => if decide (vm_Name m = name) then Some 0 else S <$> first_mount name ms
  end.
Definition shift_left (i : nat) (ms : list VolumeMount) : list VolumeMount :=
  let tail := drop (S i) ms in take i ms ++ tail ++ drop (i + length tail) ms.
Definition pick_container (name : string) (c : Container) : Container :=
  match first_mount name (c_VolumeMounts c) with
  | Some i => with_mounts (shift_left i (c_VolumeMounts c)) c
  | None => c
  end.
Definition pickVolume (p : IPod) (name : string) : IPod := with_containers (pick_container name <$> ip_Containers p) p.

(** ** The fake kubeconfig *)

Definition fakePath (name : string) : string := "/etc/kubernetes/kubeconfig/" +:+ name +:+ ".yaml".
Definition fakeMount (name : string) : VolumeMount := mkMount name "/etc/kubernetes/kubeconfig" true.
Definition is_kubeconfig_arg (v : string) : bool := HasPrefix v "--kubeconfig" || HasPrefix v "-kubeconfig".

(** The loop over the volumes: whether one of that name exists, an error when
    it is not the expected configmap. *)
Fixpoint find_fake_volume (name : string) (vs : list Volume) : result bool :=
  match vs with
  | [] => Ok false
  | v :: vs =>
      if decide (vol_Name v = name) then
        match vol_Source v with
        | ConfigMapVolume cm =>
            if decide (cm ≠ name) then Err ("conflict volume of " +:+ name)
            else found ← find_fake_volume name vs; Ok true
        | _ => Err ("conflict volume of " +:+ name)
        end
      else find_fake_volume name vs
  end.

Definition fake_args (name disableArg : string) (args : list string) : list string :=
  let arg := "--kubeconfig=" +:+ fakePath name in
  if decide (disableArg = "true") then args ++ [arg]
  else if existsb is_kubeconfig_arg args
  then (λ v, if is_kubeconfig_arg v then arg else v) <$> args
  else args ++ [arg].
Definition fake_env (name disableEnv : string) (es : list EnvVar) : list EnvVar :=
  if decide (disableEnv = "true") then es
  else if existsb (λ e, bool_decide (ev_Name e = "KUBECONFIG")) es
  then (λ e, if decide (ev_Name e = "KUBECONFIG") then mkEnv (ev_Name e) (fakePath name) (ev_ValueFrom e) else e) <$> es
  else es ++ [env "KUBECONFIG" (fakePath name)].
Definition fake_mounts (name : string) (ms : list VolumeMount) : list VolumeMount :=
  if existsb (λ m, bool_decide (vm_Name m = name)) ms then ms else ms ++ [fakeMount name].
Definition fake_container (name disableArg disableEnv : string) (c : Container) : Container :=
  with_env (fake_env name disableEnv (c_Env c))
    (with_args (fake_args name disableArg (c_Args c)) (with_mounts (fake_mounts name (c_VolumeMounts c)) c)).

Definition mountFakeKubeConfig (p : IPod) (name : string) : result IPod :=
  findCm ← find_fake_volume name (ip_Volumes p);
  let p := if (findCm : bool) then p
           else with_volumes (ip_Volumes p ++ [mkVolume name (ConfigMapVolume "fake-kubeconfig")]) p in
  Ok (with_containers (fake_container name (label p CtrlmeshDisableFakeKubeconfigArgLabel)
                         (label p CtrlmeshDisableFakeKubeconfigEnvLabel) <$> ip_Containers p) p).

(** ** Environments and logs *)

Record ContainerEnv := mkContainerEnv { ce_Name : string; ce_Env : list (string * string) }.

(** The first variable of that name gets the value; [None] without one. *)
Fixpoint set_env (name value : string) (es : list EnvVar) : option (list EnvVar) :=
  match es with
  | [] => None
  | e :: es =>
      if decide (ev_Name e = name) then Some (mkEnv (ev_Name e) value (ev_ValueFrom e) :: es)
      else (e ::.) <$> set_env name value es
  end.
Definition merge_env (st : list EnvVar * list EnvVar) (kv : string * string) : list EnvVar * list EnvVar :=
  match set_env kv.1 kv.2 st.1 with
  | Some es => (es, st.2)
  | None => (st.1, st.2 ++ [env kv.1 kv.2])
  end.
Definition mergeContainerEnvs (envs : list (string * string)) (c : Container) : Container :=
  let '(es, newEnvs) := fold_left merge_env envs (c_Env c, []) in with_env (es ++ newEnvs) c.

(** The JSON decoders of the two annotations; [parse_resources] gives the
    requirements as a text. *)
Class PodAnnotations := {
  parse_resources : string → option string;
  parse_envs : string → option (list ContainerEnv);
}.

Definition inject_container (ce : ContainerEnv) (c : Container) : Container :=
  if decide (c_Name c = ce_Name ce) then mergeContainerEnvs (ce_Env ce) c else c.
Definition injectEnv `{PodAnnotations} (p : IPod) : IPod :=
  match ip_Annotations p !! CtrlmeshEnvInjectAnno with
  | None => p
  | Some envStr =>
      match parse_envs envStr with
      | None => p
      | Some envs => with_containers (fold_left (λ cs ce, inject_container ce <$> cs) envs (ip_Containers p)) p
      end
  end.

Definition log_mount (path name : string) (c : Container) : Container :=
  if existsb (λ m, bool_decide (vm_Name m = name)) (c_VolumeMounts c) then c else add_mount (mkMount name path false) c.
Definition mountLogVolume (p : IPod) (path name : string) : IPod :=
  let existing := head (filter (λ m, vm_MountPath m = path) (ip_Containers p ≫= c_VolumeMounts)) in
  let name := match existing with Some m => vm_Name m | None => name end in
  let finVL := existsb (λ v, bool_decide (vol_Name v = name)) (ip_Volumes p) in
  let vols := if negb finVL && bool_decide (existing = None) then ip_Volumes p ++ [mkVolume name EmptyDir] else ip_Volumes p in
  with_containers (log_mount path name <$> ip_Containers p) (with_volumes vols p).

(** ** The injection *)

(** The flags of the manager.  [fl_Resources] is [None] when a quantity does
    not parse, which panics. *)
Record Flags := mkFlags {
  fl_InitImage : string; fl_ProxyImage : string; fl_FakeKubeconfig : string;
  fl_PullPolicy : string; fl_Resources : option string; fl_ProxyExtraEnvs : string;
}.

Inductive get_result := CmFound | CmNotFound | CmFailed (msg : string).
Inductive create_result := CmCreated | CmExists | CmConflict | CmRefused (msg : string).
Class InjectorApi := {
  list_shardings : string → result (list ShardingConfig);
  get_cm : string → string → get_result;
  create_cm : string → string → create_result;
  get_cm_data : string → string → result (gmap string string);
}.

Section inject.
Context `{AsSelector} `{PodAnnotations} `{InjectorApi} (fl : Flags).

(** The configuration of a pod. *)
Definition matches_config (labels : gmap string string) (cfg : ShardingConfig) : bool :=
  bool_decide (sc_Root cfg = None) &&
  match LabelSelectorAsSelector (sc_Selector cfg) with Some sel => sel_Matches sel labels | None => false end.
Fixpoint match_config (labels : gmap string string) (cfgs : list ShardingConfig) (matched : option ShardingConfig)
    : result (option ShardingConfig) :=
  match cfgs with
  | [] => Ok matched
  | cfg :: cfgs =>
      if matches_config labels cfg then
        match matched with
        | Some m => Err ("multiple ShardingConfig " +:+ sc_Name m +:+ " " +:+ sc_Name cfg +:+ " matched")
        | None => match_config labels cfgs (Some cfg)
        end
      else match_config labels cfgs matched
  end.
Definition noConfig : string :=
  "can not find ShardingConfig to inject proxy container, if don't need it please disable ctrlmesh webhook label".

Definition imagePullPolicy : string := if decide (fl_PullPolicy fl = "IfNotPresent") then "IfNotPresent" else "Always".
Definition enableIpTable (p : IPod) : bool := bool_decide (label p CtrlmeshEnableIptableMode = "true").

(** The two containers before anything of the pod or the configuration. *)
Definition base_proxy (p : IPod) : outcome Container :=
  res ← deref (fl_Resources fl);
  let c := mkContainer ProxyContainerName (fl_ProxyImage fl) imagePullPolicy []
             [env_field "POD_NAME" "metadata.name"; env_field "POD_NAMESPACE" "metadata.namespace";
              env_field "POD_IP" "status.podIP"] [] res "poststart, readyz, privileged" in
  let c := if enableIpTable p then add_env [env EnvIPTable "true"] c else c in
  Returns (match ip_Annotations p !! CtrlmeshProxyContainerResourceAnno ≫= parse_resources with
           | Some req => mkContainer (c_Name c) (c_Image c) (c_ImagePullPolicy c) (c_Args c) (c_Env c) (c_VolumeMounts c) req (c_Rest c)
           | None => c
           end).
Definition base_init : Container :=
  mkContainer InitContainerName (fl_InitImage fl) imagePullPolicy [] [] [] EmptyString "privileged, NET_ADMIN".

(** The configmap in the namespace; its name was fixed before the flags were
    parsed.  Returns what is created. *)
Definition fakeConfigMapName : string := "fake-kubeconfig".
Definition applyFakeConfigMap (p : IPod) : list (string * string) * option string :=
  match get_cm (ip_Namespace p) (fl_FakeKubeconfig fl) with
  | CmFound => ([], None)
  | CmFailed e => ([], Some ("fail to get configMap fake-kubeconfig " +:+ e))
  | CmNotFound =>
      match create_cm (ip_Namespace p) fakeConfigMapName with
      | CmCreated => ([(ip_Namespace p, fakeConfigMapName)], None)
      | CmExists | CmConflict => ([], None)
      | CmRefused e => ([], Some ("fail to apply configMap fake-kubeconfig " +:+ e))
      end
  end.

(** What the containers of the pod give to the proxy, and the webhook's
    environment to the init container. *)
Definition sync_envs (p : IPod) (proxy init : Container) : Container * Container :=
  (add_env (AllProxySyncEnvKey ≫= getEnv (ip_Containers p)) proxy,
   add_env (getEnv (ip_Containers p) EnvEnableWebHookProxy) init).

(** The controller and webhook sections of the configuration.  The error on
    several mounts leaves out the list of mounts the code prints after the
    directory. *)
Definition config_args (p : IPod) (cfg : ShardingConfig) (proxy init : Container) : result (Container * Container) :=
  let proxy := match sc_Controller cfg with
    | Some c => add_args ["--leader-election-name=" +:+ LeaderElectionName c] proxy
    | None => proxy
    end in
  match sc_Webhook cfg with
  | None => Ok (proxy, init)
  | Some w =>
      let init := add_env [env EnvInboundWebhookPort (Itoa (Port w))] init in
      let proxy := add_args ["--webhook-cert-dir=" +:+ CertDir w; "--webhook-serve-port=" +:+ Itoa (Port w)] proxy in
      match getVolumeMountsWithDir (ip_Containers p) (CertDir w) with
      | [] => Err ("find no volume mounts that mount at " +:+ CertDir w)
      | [m] => Ok (add_mount m proxy, init)
      | _ => Err ("find multiple volume mounts that mount at " +:+ CertDir w)
      end
  end.

(** The kubeconfig the pod keeps in a volume.  The error on a volume of another
    kind leaves out the volume as JSON, the last part of its text. *)
Definition kubeconfig_volume (p : IPod) (proxy : Container) : result (IPod * Container) :=
  match ip_Labels p !! CtrlmeshProxyKubeConfigVolumeLabel with
  | None => Ok (p, proxy)
  | Some volumeName =>
      let p := pickVolume p volumeName in
      cmName ← match head (filter (λ v, vol_Name v = volumeName) (ip_Volumes p)) with
               | None => Ok EmptyString
               | Some v => match vol_Source v with
                           | ConfigMapVolume cm => Ok cm
                           | _ => Err ("get kubeconfig from volume " +:+ volumeName +:+ " error: only support configmap volume")
                           end
               end;
      data ← get_cm_data (ip_Namespace p) cmName;
      if decide (1 < size (dom data)) then Err ("kubeconfig config map " +:+ cmName +:+ " data size > 1")
      else
        let fileName := default EmptyString (head (elements (dom data))) in
        Ok (p, add_mount (mkMount volumeName "/etc/kubernetes/kubeconfig" true)
                 (add_args ["--kubeconfig=/etc/kubernetes/kubeconfig/" +:+ fileName] proxy))
  end.

(** The proxy goes first; the init container first among its kind. *)
Definition place (p : IPod) (cfg : ShardingConfig) (proxy : Container) : IPod :=
  let p := injectEnv (with_containers (proxy :: ip_Containers p) p) in
  let p := with_pod_labels (<[ShardingConfigInjectedKey := sc_Name cfg]> (ip_Labels p)) p in
  match ip_Annotations p !! CtrlmeshSharedLogPathAnno with
  | Some logPath => mountLogVolume p logPath "app-shared-logs"
  | None => p
  end.

Definition fill (p : IPod) (cfg : ShardingConfig) (proxy init : Container) : result IPod :=
  let '(proxy, init) := sync_envs p proxy init in
  '(proxy, init) ← config_args p cfg proxy init;
  let p := if enableIpTable p && bool_decide (fl_InitImage fl ≠ EmptyString)
           then with_init (init :: ip_InitContainers p) p else p in
  '(p, proxy) ← kubeconfig_volume p proxy;
  Ok (place p cfg proxy).

(** What is created in the cluster, and the injected pod. *)
Definition injectByShardingConfig (p : IPod) : outcome (list (string * string) * result IPod) :=
  match cfgs ← list_shardings (ip_Namespace p); match_config (ip_Labels p) cfgs None with
  | Err e => Returns ([], Err e)
  | Ok None => Returns ([], Err noConfig)
  | Ok (Some cfg) =>
      if ip_HostNetwork p then Returns ([], Err "can not use ControllerMesh for Pod with host network")
      else if decide (fl_ProxyImage fl = EmptyString) then
        Returns ([], Err "the images for ControllerMesh init or proxy container have not set in args")
      else
        proxy ← base_proxy p;
        let proxy := add_env (getExtraEnvs (fl_ProxyExtraEnvs fl) ++ getEnvFromAnno p) proxy in
        match getKubernetesServiceHostPort (ip_Containers p) with
        | Err e => Returns ([], Err e)
        | Ok apiserver =>
            let init := add_env apiserver base_init in
            let proxy := add_env apiserver proxy in
            if enableIpTable p then Returns ([], fill p cfg proxy init)
            else match applyFakeConfigMap p with
            | (created, Some e) => Returns (created, Err e)
            | (created, None) => Returns (created, p ← mountFakeKubeConfig p (fl_FakeKubeconfig fl); fill p cfg proxy init)
            end
        end
  end.

(** ** The admission handler *)

Inductive admission := Allowed | Patched (p : IPod) | Errored (code : Z) (msg : string).
Record PodRequest := mkPodRequest { pr_Operation : string; pr_Namespace : string; pr_Object : result IPod }.

Definition Handle (req : PodRequest) : outcome (list (string * string) * admission) :=
  if decide (pr_Operation req ≠ "CREATE") then Returns ([], Allowed)
  else match pr_Object req with
  | Err e => Returns ([], Errored 400 e)
  | Ok obj =>
      let obj := mkIPod (if decide (ip_Namespace obj = EmptyString) then pr_Namespace req else ip_Namespace obj)
        (ip_Name obj) (ip_Labels obj) (ip_Annotations obj) (ip_HostNetwork obj) (ip_InitContainers obj)
        (ip_Containers obj) (ip_Volumes obj) in
      if decide (label obj CtrlmeshEnableProxyLabel ≠ "true") then Returns ([], Allowed)
      else
        let obj := with_pod_labels (<[CtrlmeshWatchOnLimitLabel := "true"]> (ip_Labels obj)) obj in
        '(created, r) ← injectByShardingConfig obj;
        Returns (created, match r with Ok p => Patched p | Err e => Errored 400 e end)
  end.
End inject.

(** ** The match *)

Section inject_theorems.
Context `{AsSelector} `{PodAnnotations} `{InjectorApi} (fl : Flags).

Lemma match_config_some labels cfgs m :
  match filter (λ cfg, matches_config labels cfg = true) cfgs with
  | [] => match_config labels cfgs (Some m) = Ok (Some m)
  | _ => ∃ e, match_config labels cfgs (Some m) = Err e
  end.
Proof.
  induction cfgs as [|cfg cfgs IH]; [done|]. rewrite filter_cons. cbn [match_config].
  destruct (matches_config labels cfg); [rewrite decide_True by done; by eexists|by rewrite decide_False].
Qed.

(** The match succeeds on exactly one configuration. *)
Lemma match_config_spec labels cfgs :
  match filter (λ cfg, matches_config labels cfg = true) cfgs with
  | [] => match_config labels cfgs None = Ok None
  | [cfg] => match_config labels cfgs None = Ok (Some cfg)
  | _ => ∃ e, match_config labels cfgs None = Err e
  end.
Proof.
  induction cfgs as [|cfg cfgs IH]; [done|]. rewrite filter_cons. cbn [match_config].
  destruct (matches_config labels cfg) eqn:Hm; [rewrite decide_True by done|by rewrite decide_False].
  pose proof (match_config_some labels cfgs cfg) as Hs. by destruct (filter _ cfgs).
Qed.

(** ** What the injection keeps *)

(** Names and arguments are not touched by environments and mounts. *)
Lemma mergeContainerEnvs_keeps envs c :
  c_Name (mergeContainerEnvs envs c) = c_Name c ∧ c_Args (mergeContainerEnvs envs c) = c_Args c ∧
  c_VolumeMounts (mergeContainerEnvs envs c) = c_VolumeMounts c.
Proof. unfold mergeContainerEnvs. by destruct (fold_left _ _ _). Qed.

Definition keeps (c c' : Container) : Prop :=
  c_Name c' = c_Name c ∧ c_Args c' = c_Args c ∧ ∃ ms, c_VolumeMounts c' = c_VolumeMounts c ++ ms.
#[local] Instance keeps_refl : Reflexive keeps.
Proof. intros c. split_and!; [done|done|]. exists []. by rewrite app_nil_r. Qed.
#[local] Instance keeps_trans : Transitive keeps.
Proof.
  intros c1 c2 c3 (Hn & Ha & ms & Hm) (Hn' & Ha' & ms' & Hm'). split_and!; [congruence|congruence|].
  exists (ms ++ ms'). by rewrite Hm', Hm, app_assoc.
Qed.

Lemma inject_container_keeps ce c : keeps c (inject_container ce c).
Proof.
  unfold inject_container. case_decide; [|done]. destruct (mergeContainerEnvs_keeps (ce_Env ce) c) as (? & ? & ?).
  split_and!; [done|done|]. exists []. by rewrite app_nil_r.
Qed.
Lemma log_mount_keeps path name c : keeps c (log_mount path name c).
Proof. unfold log_mount. destruct (existsb _ _); [done|]. split_and!; [done|done|]. by eexists. Qed.

Lemma Forall2_keeps_fmap f cs : (∀ c, keeps c (f c)) → Forall2 keeps cs (f <$> cs).
Proof. intros Hf. apply Forall2_fmap_r, Forall_Forall2_diag, Forall_forall. auto. Qed.

Lemma injectEnv_keeps p :
  Forall2 keeps (ip_Containers p) (ip_Containers (injectEnv p)) ∧ ip_Labels (injectEnv p) = ip_Labels p ∧
  ip_Annotations (injectEnv p) = ip_Annotations p ∧ ip_Volumes (injectEnv p) = ip_Volumes p ∧
  ip_InitContainers (injectEnv p) = ip_InitContainers p.
Proof.
  assert (Forall2 keeps (ip_Containers p) (ip_Containers p)) as Hr by (apply Forall_Forall2_diag, Forall_forall; by intros).
  unfold injectEnv. destruct (ip_Annotations p !! _) as [e|]; [|done]. destruct (parse_envs e) as [envs|]; [|done].
  split; [|done]. cbn [ip_Containers with_containers].
  assert (∀ cs, Forall2 keeps (ip_Containers p) cs →
    Forall2 keeps (ip_Containers p) (fold_left (λ cs ce, inject_container ce <$> cs) envs cs)) as Hfold; [|by apply Hfold].
  induction envs as [|ce envs IH]; intros cs Hcs; [done|]. apply IH. etrans; [exact Hcs|].
  apply Forall2_keeps_fmap. apply inject_container_keeps.
Qed.

Lemma mountLogVolume_keeps p path name :
  Forall2 keeps (ip_Containers p) (ip_Containers (mountLogVolume p path name)) ∧
  ip_Labels (mountLogVolume p path name) = ip_Labels p ∧ ip_Volumes p ⊆ ip_Volumes (mountLogVolume p path name) ∧
  ip_InitContainers (mountLogVolume p path name) = ip_InitContainers p.
Proof.
  unfold mountLogVolume. split_and!; [apply Forall2_keeps_fmap, log_mount_keeps|done| |done].
  cbn. case_match; set_solver.
Qed.

Lemma place_keeps p cfg proxy :
  ∃ proxy' rest, ip_Containers (place p cfg proxy) = proxy' :: rest ∧ keeps proxy proxy' ∧
    Forall2 keeps (ip_Containers p) rest ∧
    ip_Labels (place p cfg proxy) = <[ShardingConfigInjectedKey := sc_Name cfg]> (ip_Labels p) ∧
    ip_Volumes p ⊆ ip_Volumes (place p cfg proxy) ∧ ip_InitContainers (place p cfg proxy) = ip_InitContainers p.
Proof.
  unfold place. set (p1 := with_containers (proxy :: ip_Containers p) p).
  destruct (injectEnv_keeps p1) as (Hc & Hl & Ha & Hv & Hi). set (p2 := with_pod_labels _ _).
  assert (Forall2 keeps (proxy :: ip_Containers p) (ip_Containers p2)) as Hc2 by done.
  destruct (ip_Annotations p2 !! CtrlmeshSharedLogPathAnno) as [path|].
  - destruct (mountLogVolume_keeps p2 path "app-shared-logs") as (Hc3 & Hl3 & Hv3 & Hi3).
    assert (Forall2 keeps (proxy :: ip_Containers p) (ip_Containers (mountLogVolume p2 path "app-shared-logs"))) as Hc4
      by (etrans; eassumption).
    apply Forall2_cons_inv_l in Hc4 as (proxy' & rest & Hp & Hr & Heq). exists proxy', rest.
    split_and!; [done|done|done|rewrite Hl3; cbn; by rewrite Hl| |rewrite Hi3; done].
    etrans; [|exact Hv3]. cbn. by rewrite Hv.
  - apply Forall2_cons_inv_l in Hc2 as (proxy' & rest & Hp & Hr & Heq). exists proxy', rest.
    split_and!; [done|done|done|cbn; by rewrite Hl|cbn; by rewrite Hv|done].
Qed.

Definition controller_args (cfg : ShardingConfig) : list string :=
  match sc_Controller cfg with Some c => ["--leader-election-name=" +:+ LeaderElectionName c] | None => [] end.
Definition webhook_args (cfg : ShardingConfig) : list string :=
  match sc_Webhook cfg with
  | Some w => ["--webhook-cert-dir=" +:+ CertDir w; "--webhook-serve-port=" +:+ Itoa (Port w)]
  | None => []
  end.

Lemma getVolumeMountsWithDir_elem cs dir m :
  m ∈ getVolumeMountsWithDir cs dir → vm_MountPath m = dir ∧ vm_ReadOnly m = true.
Proof.
  unfold getVolumeMountsWithDir. rewrite list_elem_of_bind. intros (c & Hm & _).
  apply list_elem_of_fmap in Hm as (m' & -> & Hm'). by apply list_elem_of_filter in Hm' as [? _].
Qed.

(** The certificates' directory is mounted read-only in the proxy. *)
Definition has_cert_mount (cfg : ShardingConfig) (c : Container) : Prop :=
  ∀ w, sc_Webhook cfg = Some w → ∃ m, m ∈ c_VolumeMounts c ∧ vm_MountPath m = CertDir w ∧ vm_ReadOnly m = true.

Lemma config_args_ok p cfg proxy init proxy' init' :
  config_args p cfg proxy init = Ok (proxy', init') →
  c_Name proxy' = c_Name proxy ∧ c_Args proxy' = c_Args proxy ++ controller_args cfg ++ webhook_args cfg ∧
  has_cert_mount cfg proxy'.
Proof.
  unfold config_args, controller_args, webhook_args, has_cert_mount.
  set (proxy1 := match sc_Controller cfg with Some _ => _ | None => _ end).
  assert (c_Name proxy1 = c_Name proxy ∧ c_Args proxy1 = c_Args proxy ++
    match sc_Controller cfg with Some c => ["--leader-election-name=" +:+ LeaderElectionName c] | None => [] end) as [Hn Ha].
  { unfold proxy1. destruct (sc_Controller cfg); [done|]. by rewrite app_nil_r. }
  clearbody proxy1. destruct (sc_Webhook cfg) as [w|].
  - pose proof (getVolumeMountsWithDir_elem (ip_Containers p) (CertDir w)) as Hm.
    destruct (getVolumeMountsWithDir _ _) as [|m [|? ?]]; [done| |done]. intros [= <- <-].
    cbn [c_Name c_Args add_mount add_args with_mounts with_args c_VolumeMounts]. split_and!; [done| |].
    + by rewrite Ha, <- app_assoc.
    + intros w' [= <-]. exists m. destruct (Hm m) as [? ?]; [set_solver|]. split_and!; [set_solver|done|done].
  - intros [= <- <-]. split_and!; [done|by rewrite Ha, app_nil_r|done].
Qed.

Lemma pick_names p v : c_Name <$> ip_Containers (pickVolume p v) = c_Name <$> ip_Containers p.
Proof.
  cbn. rewrite <- list_fmap_compose. apply list_fmap_ext. intros _ c _. cbn. unfold pick_container.
  by destruct (first_mount v (c_VolumeMounts c)).
Qed.

Lemma kubeconfig_volume_ok p proxy p' proxy' :
  kubeconfig_volume p proxy = Ok (p', proxy') →
  c_Name <$> ip_Containers p' = c_Name <$> ip_Containers p ∧ ip_Labels p' = ip_Labels p ∧
  ip_Annotations p' = ip_Annotations p ∧ ip_Volumes p' = ip_Volumes p ∧
  c_Name proxy' = c_Name proxy ∧ (∃ args, c_Args proxy' = c_Args proxy ++ args) ∧
  ∃ ms, c_VolumeMounts proxy' = c_VolumeMounts proxy ++ ms.
Proof.
  unfold kubeconfig_volume. destruct (ip_Labels p !! _) as [v|].
  2:{ intros [= <- <-]. split_and!; try done; exists []; by rewrite app_nil_r. }
  cbv zeta. destruct (match head _ with Some _ => _ | None => _ end) as [cm|]; [|done]. cbn [mbind result_bind].
  destruct (get_cm_data _ cm) as [data|]; [|done]. cbn [mbind result_bind]. case_decide; [done|].
  intros [= <- <-]. split_and!; [apply pick_names|done|done|done|done|by eexists|by eexists].
Qed.

Lemma fill_ok p cfg proxy init p' :
  fill fl p cfg proxy init = Ok p' →
  ∃ proxy' rest tail, ip_Containers p' = proxy' :: rest ∧ c_Name proxy' = c_Name proxy ∧
    c_Args proxy' = c_Args proxy ++ controller_args cfg ++ webhook_args cfg ++ tail ∧ has_cert_mount cfg proxy' ∧
    c_Name <$> rest = c_Name <$> ip_Containers p ∧
    ip_Labels p' = <[ShardingConfigInjectedKey := sc_Name cfg]> (ip_Labels p) ∧ ip_Volumes p ⊆ ip_Volumes p'.
Proof.
  unfold fill, sync_envs. intros Hf. destruct (config_args _ _ _ _) as [[proxy1 init1]|] eqn:Hc; [|done].
  cbn [mbind result_bind] in Hf. apply config_args_ok in Hc as (Hn1 & Ha1 & Hm1).
  set (p1 := if _ && _ then _ else _) in Hf.
  assert (ip_Containers p1 = ip_Containers p ∧ ip_Labels p1 = ip_Labels p ∧ ip_Volumes p1 = ip_Volumes p) as (Hc1 & Hl1 & Hv1).
  { unfold p1. by destruct (_ && _). }
  clearbody p1. destruct (kubeconfig_volume p1 proxy1) as [[p2 proxy2]|] eqn:Hk; [|done].
  cbn [mbind result_bind] in Hf. injection Hf as <-.
  apply kubeconfig_volume_ok in Hk as (Hn2 & Hl2 & _ & Hv2 & Hp2 & [args Ha2] & ms & Hm2).
  destruct (place_keeps p2 cfg proxy2) as (proxy' & rest & Heq & (Hn3 & Ha3 & ms' & Hm3) & Hall & Hl3 & Hv3 & _).
  exists proxy', rest, args. split_and!.
  - done.
  - by rewrite Hn3, Hp2, Hn1.
  - rewrite Ha3, Ha2, Ha1. cbn. by rewrite <- !app_assoc.
  - intros w Hw. destruct (Hm1 w Hw) as (m & Hin & ? & ?). exists m. rewrite Hm3, Hm2. split_and!; [set_solver|done|done].
  - rewrite <- Hc1, <- Hn2. clear -Hall. induction Hall as [|c c' l l' [Hn _] _ IH]; [done|]. cbn. by rewrite Hn, IH.
  - by rewrite Hl3, Hl2, Hl1.
  - rewrite <- Hv1, <- Hv2. done.
Qed.

Lemma mountFakeKubeConfig_keeps p name p' :
  mountFakeKubeConfig p name = Ok p' →
  c_Name <$> ip_Containers p' = c_Name <$> ip_Containers p ∧ ip_Labels p' = ip_Labels p ∧ ip_Volumes p ⊆ ip_Volumes p'.
Proof.
  unfold mountFakeKubeConfig. destruct (find_fake_volume _ _) as [b|]; [|done]. cbn [mbind result_bind].
  intros [= <-]. split_and!.
  - cbn. rewrite <- list_fmap_compose. destruct b; cbn; by apply list_fmap_ext.
  - by destruct b.
  - destruct b; cbn; set_solver.
Qed.

(** C23. A pod that is let in carries the proxy of exactly one configuration.
    When the injection succeeds, the pod is not on the host network; exactly
    one configuration of its namespace without a root selects its labels; the
    first container is the proxy, started with the leader election name and
    the webhook arguments of that configuration, in that order and before
    anything else, and with its certificates' directory mounted read-only;
    the pod's own containers follow under their names and in their order;
    its volumes are kept; and the only change of its labels is the name of the
    configuration. *)
Theorem injection_correct p created p' :
  injectByShardingConfig fl p = Returns (created, Ok p') →
  ∃ cfgs cfg proxy rest tail,
    list_shardings (ip_Namespace p) = Ok cfgs ∧
    filter (λ c, matches_config (ip_Labels p) c = true) cfgs = [cfg] ∧
    ip_HostNetwork p = false ∧
    ip_Containers p' = proxy :: rest ∧ c_Name proxy = ProxyContainerName ∧
    c_Args proxy = controller_args cfg ++ webhook_args cfg ++ tail ∧ has_cert_mount cfg proxy ∧
    c_Name <$> rest = c_Name <$> ip_Containers p ∧ ip_Volumes p ⊆ ip_Volumes p' ∧
    ip_Labels p' = <[ShardingConfigInjectedKey := sc_Name cfg]> (ip_Labels p).
Proof.
  unfold injectByShardingConfig. intros Hi. destruct (list_shardings _) as [cfgs|] eqn:Hls; [|done].
  cbn [mbind result_bind] in Hi. pose proof (match_config_spec (ip_Labels p) cfgs) as Hm.
  destruct (match_config _ _ _) as [[cfg|]|] eqn:Hmc; [|done|done].
  assert (filter (λ c, matches_config (ip_Labels p) c = true) cfgs = [cfg]) as Hf.
  { destruct (filter _ cfgs) as [|c [|]]; [done|by injection Hm as ->|by destruct Hm]. }
  destruct (ip_HostNetwork p) eqn:Hh; [done|]. case_decide; [done|].
  apply bind_Returns in Hi as (proxy0 & Hbase & Hi).
  assert (c_Name proxy0 = ProxyContainerName ∧ c_Args proxy0 = []) as [Hn0 Ha0].
  { unfold base_proxy in Hbase. apply bind_Returns in Hbase as (res & _ & Hbase). injection Hbase as <-.
    destruct (_ ≫= _); by destruct (enableIpTable p). }
  destruct (getKubernetesServiceHostPort _) as [apiserver|]; [|done].
  assert (∃ p1 proxy1 init1, fill fl p1 cfg proxy1 init1 = Ok p' ∧ c_Name proxy1 = ProxyContainerName ∧ c_Args proxy1 = [] ∧
    c_Name <$> ip_Containers p1 = c_Name <$> ip_Containers p ∧ ip_Labels p1 = ip_Labels p ∧ ip_Volumes p ⊆ ip_Volumes p1)
    as (p1 & proxy1 & init1 & Hfill & Hn1 & Ha1 & Hc1 & Hl1 & Hv1).
  { destruct (enableIpTable p).
    - injection Hi as _ Hi. by exists p, (add_env apiserver (add_env (getExtraEnvs (fl_ProxyExtraEnvs fl) ++ getEnvFromAnno p) proxy0)),
        (add_env apiserver (base_init fl)).
    - destruct (applyFakeConfigMap fl p) as [cr [e|]]; [done|]. injection Hi as _ Hi.
      destruct (mountFakeKubeConfig p _) as [p1|] eqn:Hfk; [|done]. cbn [mbind result_bind] in Hi.
      apply mountFakeKubeConfig_keeps in Hfk as (? & ? & ?). eauto 10. }
  apply fill_ok in Hfill as (proxy & rest & tail & Heq & Hn & Ha & Hcm & Hr & Hl & Hv).
  exists cfgs, cfg, proxy, rest, tail. split_and!; try done.
  - by rewrite Hn.
  - by rewrite Ha, Ha1.
  - by rewrite Hr.
  - etrans; eassumption.
  - by rewrite Hl, Hl1.
Qed.
End inject_theorems.

(** ** The fake kubeconfig *)

Section kubeconfig.

Lemma existsb_map_const {A} (f : A → bool) (g : A → A) l :
  (∀ x, f x = true → f (g x) = true) → existsb f l = true → existsb f (g <$> l) = true.
Proof.
  intros Hg. rewrite !existsb_exists'. intros (x & Hx & Hf). exists (g x). split; [|auto].
  by apply list_elem_of_fmap_2.
Qed.

Lemma is_kubeconfig_arg_fake name : is_kubeconfig_arg ("--kubeconfig=" +:+ fakePath name) = true.
Proof. by destruct name. Qed.

Lemma fake_mounts_idem name ms : fake_mounts name (fake_mounts name ms) = fake_mounts name ms.
Proof.
  unfold fake_mounts at 2 3. destruct (existsb _ ms) eqn:He.
  - unfold fake_mounts. by rewrite He.
  - unfold fake_mounts. rewrite existsb_app. cbn. by rewrite bool_decide_true, orb_true_r.
Qed.
Lemma fake_env_idem name d es : fake_env name d (fake_env name d es) = fake_env name d es.
Proof.
  unfold fake_env. case_decide; [done|]. set (f := λ e, if decide (ev_Name e = "KUBECONFIG") then _ else e).
  assert (∀ e, f (f e) = f e) as Hff.
  { intros e. unfold f. destruct (decide (ev_Name e = "KUBECONFIG")) as [He|He]; cbn.
    - by rewrite decide_True.
    - by rewrite decide_False. }
  destruct (existsb _ es) eqn:He.
  - rewrite existsb_map_const; [|intros e Hx%bool_decide_eq_true; apply bool_decide_eq_true; unfold f; by rewrite decide_True|done].
    rewrite <- list_fmap_compose. apply list_fmap_ext. intros _ e _. apply Hff.
  - rewrite existsb_app. cbn. rewrite bool_decide_true, orb_true_r by done. rewrite fmap_app. cbn. f_equal.
    assert (f <$> es = id <$> es) as ->; [|by rewrite list_fmap_id].
    apply list_fmap_ext. intros i e Hi. unfold f. rewrite decide_False; [done|]. intros Hn.
    assert (existsb (λ e, bool_decide (ev_Name e = "KUBECONFIG")) es = true) as Hx; [|congruence].
    apply existsb_exists'. exists e. split; [by eapply list_elem_of_lookup_2|by rewrite bool_decide_true].
Qed.
Lemma fake_args_idem name d args : d ≠ "true" → fake_args name d (fake_args name d args) = fake_args name d args.
Proof.
  intros Hd. unfold fake_args. rewrite !decide_False by done. set (arg := "--kubeconfig=" +:+ fakePath name).
  assert (is_kubeconfig_arg arg = true) as Harg by apply is_kubeconfig_arg_fake.
  set (f := λ v, if is_kubeconfig_arg v then arg else v). clearbody arg.
  assert (∀ v, f (f v) = f v) as Hff.
  { intros v. unfold f. destruct (is_kubeconfig_arg v) eqn:Hv; [by rewrite Harg|by rewrite Hv]. }
  destruct (existsb is_kubeconfig_arg args) eqn:He.
  - rewrite existsb_map_const; [|intros v Hx; unfold f; by rewrite Hx|done].
    rewrite <- list_fmap_compose. apply list_fmap_ext. intros _ v _. apply Hff.
  - rewrite existsb_app. cbn. rewrite Harg, orb_true_r. rewrite fmap_app. cbn. unfold f at 2. rewrite Harg. f_equal.
    assert (f <$> args = id <$> args) as ->; [|by rewrite list_fmap_id].
    apply list_fmap_ext. intros i v Hi. unfold f. destruct (is_kubeconfig_arg v) eqn:Hv; [|done].
    assert (existsb is_kubeconfig_arg args = true) as Hx; [|congruence].
    apply existsb_exists'. exists v. split; [by eapply list_elem_of_lookup_2|done].
Qed.

Lemma find_fake_volume_spec name vs :
  match find_fake_volume name vs with
  | Ok b => (∀ v, v ∈ vs → vol_Name v = name → vol_Source v = ConfigMapVolume name) ∧
            (b = true ↔ ∃ v, v ∈ vs ∧ vol_Name v = name)
  | Err _ => ∃ v, v ∈ vs ∧ vol_Name v = name ∧ vol_Source v ≠ ConfigMapVolume name
  end.
Proof.
  induction vs as [|v vs IH]; cbn [find_fake_volume]; [split; [set_solver|split; [done|set_solver]]|].
  case_decide as Hv.
  - destruct (vol_Source v) as [cm| |t] eqn:Hs; [|exists v; split_and!; [set_solver|done|by rewrite Hs]..].
    case_decide as Hcm; [exists v; split_and!; [set_solver|done|rewrite Hs; congruence]|]. subst cm.
    destruct (find_fake_volume name vs) as [b|]; cbn [mbind result_bind].
    + destruct IH as [IH _]. split; [intros u [->|Hu]%elem_of_cons Hn; auto|]. split; [|done]. intros _. exists v. split; [by left|done].
    + destruct IH as (u & ? & ? & ?). exists u. split_and!; [by right|done|done].
  - destruct (find_fake_volume name vs) as [b|].
    + destruct IH as [IH1 IH2]. split; [intros u [->|Hu]%elem_of_cons Hn; [done|auto]|]. rewrite IH2. split.
      * intros (u & ? & ?). exists u. split; [by right|done].
      * intros (u & [->|Hu]%elem_of_cons & Hn); [done|eauto].
    + destruct IH as (u & ? & ? & ?). exists u. split_and!; [by right|done|done].
Qed.

(** Mounting the fake kubeconfig (under its default name) does what a pod
    needs, and only once.  It fails exactly when a volume of that name is not
    that configmap; when it succeeds the pod has that volume, every container
    mounts it and, unless the label disables it, has a [KUBECONFIG] variable;
    and unless the label for the argument is set, doing it again changes
    nothing. *)
Theorem mountFakeKubeConfig_correct p :
  let name := "fake-kubeconfig" in
  match mountFakeKubeConfig p name with
  | Err _ => ∃ v, v ∈ ip_Volumes p ∧ vol_Name v = name ∧ vol_Source v ≠ ConfigMapVolume name
  | Ok p' =>
      (∀ v, v ∈ ip_Volumes p' → vol_Name v = name → vol_Source v = ConfigMapVolume name) ∧
      (∃ v, v ∈ ip_Volumes p' ∧ vol_Name v = name) ∧
      Forall (λ c, (∃ m, m ∈ c_VolumeMounts c ∧ vm_Name m = name) ∧
        (label p CtrlmeshDisableFakeKubeconfigEnvLabel ≠ "true" → ∃ e, e ∈ c_Env c ∧ ev_Name e = "KUBECONFIG"))
        (ip_Containers p') ∧
      (label p CtrlmeshDisableFakeKubeconfigArgLabel ≠ "true" → mountFakeKubeConfig p' name = Ok p')
  end.
Proof.
  intros name. unfold mountFakeKubeConfig at 1. pose proof (find_fake_volume_spec name (ip_Volumes p)) as Hf.
  destruct (find_fake_volume name (ip_Volumes p)) as [b|]; cbn [mbind result_bind]; [|done]. destruct Hf as [Hall Hb].
  set (vols := if b then ip_Volumes p else ip_Volumes p ++ [mkVolume name (ConfigMapVolume "fake-kubeconfig")]).
  set (da := label p CtrlmeshDisableFakeKubeconfigArgLabel). set (de := label p CtrlmeshDisableFakeKubeconfigEnvLabel).
  set (cs := fake_container name da de <$> ip_Containers p).
  assert ((if b then p else with_volumes (ip_Volumes p ++ [mkVolume name (ConfigMapVolume "fake-kubeconfig")]) p)
    = with_volumes vols p) as -> by (destruct b; [by destruct p|done]).
  cbn [label ip_Labels with_volumes ip_Containers]. fold da de cs.
  assert (∀ v, v ∈ vols → vol_Name v = name → vol_Source v = ConfigMapVolume name) as Hvols.
  { unfold vols. destruct b; [done|]. intros v [Hv|Hv]%elem_of_app; [auto|]. by apply list_elem_of_singleton in Hv as ->. }
  assert (∃ v, v ∈ vols ∧ vol_Name v = name) as Hex.
  { unfold vols. destruct b; [by apply Hb|]. eexists. split; [apply elem_of_app; right; by apply list_elem_of_singleton|done]. }
  split_and!; [done|done| |].
  - apply Forall_fmap, Forall_forall. intros c _. cbn. split.
    + unfold fake_mounts. destruct (existsb _ _) eqn:He.
      * apply existsb_exists' in He as (m & Hm & Hn%bool_decide_eq_true). by exists m.
      * exists (fakeMount name). split; [set_solver|done].
    + intros Hd. unfold fake_env. rewrite decide_False by done. destruct (existsb _ _) eqn:He.
      * apply existsb_exists' in He as (e & He & Hn%bool_decide_eq_true).
        eexists. split; [by apply list_elem_of_fmap_2|]. cbn. by rewrite decide_True.
      * exists (env "KUBECONFIG" (fakePath name)). split; [set_solver|done].
  - intros Hd. unfold mountFakeKubeConfig. cbn [ip_Volumes with_containers with_volumes].
    pose proof (find_fake_volume_spec name vols) as Hf2. destruct (find_fake_volume name vols) as [b2|].
    2:{ destruct Hf2 as (v & Hv & Hn & Hs). by destruct Hs; apply Hvols. }
    destruct Hf2 as [_ Hb2]. rewrite (proj2 Hb2 Hex). cbn [mbind result_bind]. f_equal.
    unfold with_containers; cbn. f_equal. fold da de. unfold cs. rewrite <- list_fmap_compose.
    apply list_fmap_ext. intros _ c _. cbn. unfold fake_container; cbn.
    unfold with_env, with_args, with_mounts; cbn. by rewrite fake_env_idem, fake_args_idem, fake_mounts_idem.
Qed.
End kubeconfig.

(** The label that should leave the arguments alone does not: with
    [disable-fake-kubeconfig-arg] set to true, every container still gets the
    argument for the fake kubeconfig appended, after its own (which are kept),
    whether or not it has one already. *)
Theorem disabled_arg_still_added p name p' :
  label p CtrlmeshDisableFakeKubeconfigArgLabel = "true" → mountFakeKubeConfig p name = Ok p' →
  Forall2 (λ c c', c_Args c' = c_Args c ++ ["--kubeconfig=" +:+ fakePath name]) (ip_Containers p) (ip_Containers p').
Proof.
  intros Hl. unfold mountFakeKubeConfig. destruct (find_fake_volume _ _) as [b|]; [|done]. cbn [mbind result_bind].
  assert (∀ b : bool, label (if b then p else with_volumes (ip_Volumes p ++ [mkVolume name (ConfigMapVolume "fake-kubeconfig")]) p)
    CtrlmeshDisableFakeKubeconfigArgLabel = "true") as Hl' by (by intros []).
  rewrite Hl'. intros [= <-]. cbn [ip_Containers with_containers].
  assert (ip_Containers (if b then p else with_volumes (ip_Volumes p ++ [mkVolume name (ConfigMapVolume "fake-kubeconfig")]) p)
    = ip_Containers p) as -> by (by destruct b).
  apply Forall2_fmap_r, Forall_Forall2_diag, Forall_forall. intros c _. cbn. unfold fake_args. by rewrite decide_True.
Qed.

Lemma first_mount_lt name ms i : first_mount name ms = Some i → i < length ms.
Proof.
  revert i. induction ms as [|m ms IH]; intros i; cbn [first_mount]; [done|].
  case_decide; [intros [= <-]; cbn; lia|]. intros (j & Hj & ->)%fmap_Some. cbn. specialize (IH j Hj). lia.
Qed.

(** [pickVolume] does not take a volume out of a container: the number of
    mounts stays the same.  The mount of that name goes, but the last mount of
    the container is then there twice; and when the mount of that name is the
    last one, the container is unchanged. *)
Theorem pickVolume_keeps_mounts c name i :
  first_mount name (c_VolumeMounts c) = Some i →
  let ms := c_VolumeMounts c in
  let ms' := c_VolumeMounts (pick_container name c) in
  length ms' = length ms ∧
  (S i = length ms → ms' = ms) ∧
  (S i < length ms → ∃ m, last ms = Some m ∧ ms' = take i ms ++ drop (S i) ms ++ [m] ∧ ¬ NoDup ms').
Proof.
  intros Hi ms ms'. pose proof (first_mount_lt _ _ _ Hi) as Hlt. fold ms in Hlt.
  assert (ms' = take i ms ++ drop (S i) ms ++ drop (pred (length ms)) ms) as Hms'.
  { unfold ms', pick_container. rewrite Hi. cbn. unfold shift_left. fold ms. rewrite length_drop.
    by replace (i + (length ms - S i)) with (pred (length ms)) by lia. }
  destruct (last ms) as [m|] eqn:Hm; [|apply last_None in Hm; rewrite Hm in Hlt; cbn in Hlt; lia].
  assert (drop (pred (length ms)) ms = [m]) as Hd.
  { apply last_Some in Hm as [l' ->]. rewrite length_app. cbn. replace (pred (length l' + 1)) with (length l') by lia.
    by rewrite drop_app_length. }
  rewrite Hd in Hms'. split_and!.
  - rewrite Hms', !length_app, length_take, length_drop. cbn. lia.
  - intros Hl. rewrite Hms', Hl, drop_ge by lia. cbn. rewrite <- Hd. replace i with (pred (length ms)) by lia.
    apply take_drop.
  - intros Hl. exists m. split_and!; [done|done|]. rewrite Hms', app_assoc. intros Hnd.
    apply NoDup_app in Hnd as (_ & Hno & _). apply (Hno m); [|by apply list_elem_of_singleton].
    apply elem_of_app. right. rewrite last_lookup in Hm. apply (list_elem_of_lookup_2 _ (pred (length ms) - S i)).
    rewrite lookup_drop. by replace (S i + (pred (length ms) - S i)) with (pred (length ms)) by lia.
Qed.

(** The flag [fake-kubeconfig] cannot be changed: the configmap that is
    created keeps the default name and file, so with another name the variable
    points to a file the mounted configmap does not have. *)
Definition fakeConfigMapFiles : list string := ["fake-kubeconfig.yaml"].
Lemma renamed_kubeconfig_missing name :
  name ≠ fakeConfigMapName → name +:+ ".yaml" ∉ fakeConfigMapFiles.
Proof.
  intros Hn Hin. apply list_elem_of_singleton in Hin. apply Hn.
  change "fake-kubeconfig.yaml" with (fakeConfigMapName +:+ ".yaml") in Hin.
  apply (f_equal (λ s, TrimSuffix s ".yaml")) in Hin. by rewrite !TrimSuffix_app in Hin.
Qed.

(** The variables of one name, of all containers. *)
Definition env_values (key : string) (cs : list Container) : list EnvVar := omap (λ c, GetContainerEnvVar c key) cs.
Definition all_same (es : list EnvVar) : Prop := ∀ e e', e ∈ es → e' ∈ es → ev_Value e = ev_Value e'.

Lemma same_env_spec key c cs found :
  all_same (option_list found ++ env_values key (c :: cs)) ↔
  ∃ found', same_env key c found = Ok found' ∧ all_same (option_list found' ++ env_values key cs).
Proof.
  unfold same_env, env_values. cbn [omap list_omap]. destruct (GetContainerEnvVar c key) as [e|]; [destruct found as [f|]|].
  - cbn. case_decide as Hv.
    + split; [|by intros (? & ? & _)]. intros Hs. destruct Hv. apply Hs; set_solver.
    + split.
      * intros Hs. exists (Some e). split; [done|]. intros x y Hx Hy. apply Hs; set_solver.
      * intros (? & [= <-] & Hs). intros x y Hx Hy. cbn in Hs.
        assert (∀ z, z ∈ f :: e :: omap (λ c, GetContainerEnvVar c key) cs → ev_Value z = ev_Value e) as Hz; [|by rewrite Hz, (Hz y)].
        intros z [->|Hz]%elem_of_cons; [done|]. apply Hs; set_solver.
  - cbn. split; [intros Hs; by exists (Some e)|by intros (? & [= <-] & Hs)].
  - split; [intros Hs; by exists found|by intros (? & [= <-] & Hs)].
Qed.

Lemma host_port_spec cs h p :
  (∃ r, host_port cs h p = Ok r) ↔
  all_same (option_list h ++ env_values "KUBERNETES_SERVICE_HOST" cs) ∧
  all_same (option_list p ++ env_values "KUBERNETES_SERVICE_PORT" cs).
Proof.
  revert h p. induction cs as [|c cs IH]; intros h p; cbn [host_port].
  - split; [|by eexists]. intros _. destruct h, p; cbn; split; intros x y Hx Hy; set_solver.
  - rewrite !same_env_spec. destruct (same_env _ c h) as [h'|]; cbn [mbind result_bind].
    2:{ split; [by intros [? ?]|by intros [(? & ? & _) _]]. }
    destruct (same_env _ c p) as [p'|]; cbn [mbind result_bind].
    2:{ split; [by intros [? ?]|by intros [_ (? & ? & _)]]. }
    rewrite IH. split; [intros [? ?]; split; by eexists|]. by intros [(? & [= <-] & ?) (? & [= <-] & ?)].
Qed.

(** The address of the API server that goes to the proxy is the
    containers': the look-up fails exactly when two containers that set one of
    the two variables set it to different values. *)
Theorem host_port_agree cs :
  (∃ vars, getKubernetesServiceHostPort cs = Ok vars) ↔
  all_same (env_values "KUBERNETES_SERVICE_HOST" cs) ∧ all_same (env_values "KUBERNETES_SERVICE_PORT" cs).
Proof.
  rewrite <- (host_port_spec cs None None). unfold getKubernetesServiceHostPort.
  destruct (host_port cs None None) as [[h p]|]; cbn; [split; intros _; eexists; reflexivity|].
  by split; intros [? ?].
Qed.

(** ** Examples *)

Section examples.
Definition demo_flags : Flags := mkFlags "init" "proxy" "fake-kubeconfig" "Always" (Some "500m") EmptyString.
Definition demo_container (name : string) (mounts : list VolumeMount) : Container :=
  mkContainer name "image" "Always" ["--kubeconfig=/mine"] [] mounts EmptyString EmptyString.
Definition demo_ipod (labels : gmap string string) : IPod :=
  mkIPod "ns" "op-0" labels ∅ false [] [demo_container "op" [mkMount "certs" "/certs" false]] [].
Definition demo_shard_config (name : string) : ShardingConfig :=
  mkConfig name "ns" ∅ ∅ [] None (Some Selector.emptySelector) (Some (mkController "op"))
    (Some (mkWebhook "/certs" 9443)) [] None [].
#[local] Instance demo_annotations : PodAnnotations := {| parse_resources _ := None; parse_envs _ := None |}.
#[local] Instance demo_injector_api : InjectorApi := {|
  list_shardings _ := Ok [demo_shard_config "s1"]; get_cm _ _ := CmNotFound; create_cm _ _ := CmCreated;
  get_cm_data _ _ := Ok ∅;
|}.
#[local] Existing Instance everything.

Definition demo_injected : option IPod :=
  match injectByShardingConfig demo_flags (demo_ipod ∅) with Returns (_, Ok p) => Some p | _ => None end.

Lemma injection_correct_witness :
  ∃ p' proxy rest, injectByShardingConfig demo_flags (demo_ipod ∅) = Returns ([("ns", "fake-kubeconfig")], Ok p') ∧
    ip_Containers p' = proxy :: rest ∧ c_Name proxy = ProxyContainerName ∧ c_Name <$> rest = ["op"].
Proof.
  assert (∃ p', injectByShardingConfig demo_flags (demo_ipod ∅) = Returns ([("ns", "fake-kubeconfig")], Ok p')) as [p' Hp']
    by (eexists; vm_compute; reflexivity).
  destruct (injection_correct demo_flags (demo_ipod ∅) _ p' Hp') as (cfgs & cfg & proxy & rest & tail & H).
  exists p', proxy, rest. destruct H as (_ & _ & _ & Hc & Hn & _ & _ & Hr & _). done.
Defined.

Lemma disabled_arg_still_added_witness :
  ∃ p', mountFakeKubeConfig (demo_ipod {[CtrlmeshDisableFakeKubeconfigArgLabel := "true"]}) "fake-kubeconfig" = Ok p' ∧
    Forall2 (λ c c', c_Args c' = c_Args c ++ ["--kubeconfig=/etc/kubernetes/kubeconfig/fake-kubeconfig.yaml"])
      [demo_container "op" [mkMount "certs" "/certs" false]] (ip_Containers p').
Proof.
  eexists. split; [reflexivity|].
  apply (disabled_arg_still_added (demo_ipod {[CtrlmeshDisableFakeKubeconfigArgLabel := "true"]}) "fake-kubeconfig"); reflexivity.
Defined.

Lemma pickVolume_keeps_mounts_witness :
  let c := demo_container "op" [mkMount "kube" "/k" false; mkMount "certs" "/certs" false] in
  length (c_VolumeMounts (pick_container "kube" c)) = 2.
Proof.
  apply (pickVolume_keeps_mounts (demo_container "op" [mkMount "kube" "/k" false; mkMount "certs" "/certs" false]) "kube" 0).
  reflexivity.
Defined.
End examples.
