(* ===== verification/Utilities.v ===== *)
(** * Utilities

    src/pkg/utils/controller.go: calling a function many times in batches that
    grow; src/pkg/utils/pool/bytes.go: the pool of buffers the proxies copy
    bodies with. *)

From stdpp Require Import relations.
From S2P Require Import Prelude GoStrings.
#[local] Open Scope Z_scope.

(** ** Growing batches *)

Definition SlowStartInitialBatchSize : Z := 1.
Definition intMin (l r : Z) : Z := if decide (l < r) then l else r.

Definition Key (namespace name : string) : string := namespace +:+ "/" +:+ name.

Section slow.
Context {E : Type}.
(** The error of a call, given its index and the error so far; the goroutines
    of a batch put their errors into the channel in some order. *)
Context (fn : Z → option E → option E) (arrive : list E → list E).

Definition batch (index batchSize : Z) (gotErr : option E) : list E :=
  arrive (omap (λ i, fn i gotErr) (seqZ index batchSize)).

(** The loop; [None] when the fuel runs out. *)
Fixpoint batches (fuel : nat) (shortCircuit : bool) (maxBatchSize remaining successes index batchSize : Z)
    (gotErr : option E) : option (Z * option E) :=
  match fuel with
  | O => None
  | S fuel =>
      if decide (batchSize <= 0) then Some (successes, gotErr) else
      let errCh := batch index batchSize gotErr in
      let successes := successes + (batchSize - Z.of_nat (length errCh)) in
      let next gotErr :=
        batches fuel shortCircuit maxBatchSize (remaining - batchSize) successes (index + batchSize)
          (intMin maxBatchSize (intMin (int64 (2 * batchSize)) (remaining - batchSize))) gotErr in
      match errCh with
      | [] => next gotErr
      | e :: _ => if shortCircuit then Some (successes, Some e) else next (Some e)
      end
  end.

Definition SlowStartBatch (count initialBatchSize : Z) (shortCircuit : bool) (maxBatchSize : Z) : option (Z * option E) :=
  batches (S (Z.to_nat count)) shortCircuit maxBatchSize count 0 0 (intMin count initialBatchSize) None.

(** The calls that fail, of those with an index in a range. *)
Definition failures (r : Z → option E) (index n : Z) : list E := omap r (seqZ index n).

Lemma intMin_le l r : intMin l r <= l ∧ intMin l r <= r.
Proof. unfold intMin. case_decide; lia. Qed.
Lemma intMin_pos l r : 0 < l → 0 < r → 0 < intMin l r.
Proof. unfold intMin. case_decide; lia. Qed.

Lemma omap_same {A B} (f g : A → option B) (l : list A) : (∀ x, f x = g x) → omap f l = omap g l.
Proof. intros Hfg. induction l as [|x l IH]; [done|]. csimpl. by rewrite Hfg, IH. Qed.

Lemma seqZ_split index n m : 0 <= n → 0 <= m → seqZ index (n + m) = seqZ index n ++ seqZ (index + n) m.
Proof. intros. by rewrite seqZ_app. Qed.

Lemma failures_split r index n m : 0 <= n → 0 <= m →
  failures r index (n + m) = failures r index n ++ failures r (index + n) m.
Proof. intros. unfold failures. by rewrite seqZ_split, omap_app by done. Qed.

Lemma failures_length r index n : 0 <= n → Z.of_nat (length (failures r index n)) <= n.
Proof.
  intros Hn. unfold failures. transitivity (Z.of_nat (length (seqZ index n))).
  - apply Nat2Z.inj_le. induction (seqZ index n) as [|x l IH]; [done|]. csimpl. destruct (r x); csimpl; lia.
  - rewrite length_seqZ. lia.
Qed.

(** What a run of the loop ends with: the first [done] calls were made and no
    other, the successes among them are counted, an error is reported exactly
    if one of them failed, and calls are left out only after a failure that
    ends the run early, or for a bound on the batches that is not positive. *)
Definition batches_end (r : Z → option E) (shortCircuit : bool) (maxBatchSize count : Z) (x : Z * option E) (done : Z) : Prop :=
  0 <= done <= count ∧ x.1 = done - Z.of_nat (length (failures r 0 done)) ∧
  (x.2 = None ↔ failures r 0 done = []) ∧ (∀ e, x.2 = Some e → e ∈ failures r 0 done) ∧
  (done < count → shortCircuit = true ∧ x.2 ≠ None ∨ maxBatchSize <= 0).

Hypothesis arrive_perm : ∀ l, arrive l ≡ₚ l.

Lemma batches_spec r shortCircuit maxBatchSize count : (∀ i e, fn i e = r i) → 0 <= count < 2 ^ 62 →
  ∀ fuel done successes batchSize gotErr, 0 <= done <= count → batchSize <= count - done →
  (batchSize <= 0 → done = count ∨ maxBatchSize <= 0) → (Z.to_nat (count - done) < fuel)%nat →
  successes = done - Z.of_nat (length (failures r 0 done)) →
  (gotErr = None ↔ failures r 0 done = []) → (∀ e, gotErr = Some e → e ∈ failures r 0 done) →
  ∃ x done', batches fuel shortCircuit maxBatchSize (count - done) successes done batchSize gotErr = Some x ∧
    batches_end r shortCircuit maxBatchSize count x done'.
Proof.
  intros Hfn Hcount. induction fuel as [|fuel IH]; intros done successes batchSize gotErr Hdone Hle Hz Hfuel Hs Hnone Herr; [lia|].
  simpl. case_decide as Hb.
  { exists (successes, gotErr), done. split; [done|]. split_and!; try done; try lia. }
  assert (Hperm : batch done batchSize gotErr ≡ₚ failures r done batchSize).
  { unfold batch, failures. rewrite arrive_perm. erewrite omap_same; [done|]. intros i. apply Hfn. }
  assert (Hlen : length (batch done batchSize gotErr) = length (failures r done batchSize)) by by rewrite Hperm.
  assert (Hsplit : failures r 0 (done + batchSize) = failures r 0 done ++ failures r done batchSize).
  { rewrite failures_split by lia. done. }
  assert (Hnext : ∀ e', (e' = None ↔ failures r 0 (done + batchSize) = []) →
    (∀ e, e' = Some e → e ∈ failures r 0 (done + batchSize)) →
    ∃ x done', batches fuel shortCircuit maxBatchSize (count - done - batchSize)
      (successes + (batchSize - Z.of_nat (length (batch done batchSize gotErr)))) (done + batchSize)
      (intMin maxBatchSize (intMin (int64 (2 * batchSize)) (count - done - batchSize))) e' = Some x ∧
      batches_end r shortCircuit maxBatchSize count x done').
  { intros e' Hn He. replace (count - done - batchSize) with (count - (done + batchSize)) by lia.
    apply IH; try done; try lia.
    - etransitivity; [apply intMin_le|]. apply intMin_le.
    - intros Hz'. destruct (decide (maxBatchSize <= 0)) as [|Hm]; [by right|]. left.
      assert (¬ 0 < count - (done + batchSize)); [|lia]. intros Hpos.
      assert (0 < int64 (2 * batchSize)).
      { unfold int64. rewrite wrap_id by lia. lia. }
      pose proof (intMin_pos maxBatchSize (intMin (int64 (2 * batchSize)) (count - (done + batchSize)))).
      pose proof (intMin_pos (int64 (2 * batchSize)) (count - (done + batchSize))). lia.
    - rewrite Hsplit, length_app, Hlen. lia. }
  destruct (batch done batchSize gotErr) as [|e l] eqn:Hbatch.
  - apply Permutation_nil_l in Hperm. symmetry in Hperm. apply Hnext; rewrite Hsplit, Hperm, app_nil_r; done.
  - assert (Hin : e ∈ failures r 0 (done + batchSize)).
    { rewrite Hsplit. apply elem_of_app. right. rewrite <- Hperm. by left. }
    assert (Hne : failures r 0 (done + batchSize) ≠ []) by (intros Hnil; rewrite Hnil in Hin; by apply not_elem_of_nil in Hin).
    destruct shortCircuit.
    + eexists _, (done + batchSize). split; [done|]. rewrite Hlen. split_and!; simpl; try done; try lia.
      * rewrite Hsplit, length_app. lia.
      * by intros e' [= <-].
      * by left.
    + apply Hnext; [done|]. by intros e' [= <-].
Qed.

(** Calling in batches: the call returns. The calls made are those with the
    smallest indices, each once; their successes are counted, and an error is
    reported exactly if one of them failed, the error of one that did. All are
    made unless one fails and that is to end the run, or the bound on the
    batches is not positive. *)
Theorem SlowStartBatch_correct r count initialBatchSize shortCircuit maxBatchSize :
  (∀ i e, fn i e = r i) → 0 <= count < 2 ^ 62 → 0 < initialBatchSize →
  ∃ x done, SlowStartBatch count initialBatchSize shortCircuit maxBatchSize = Some x ∧
    batches_end r shortCircuit maxBatchSize count x done.
Proof.
  intros Hfn Hcount Hinit. unfold SlowStartBatch.
  destruct (batches_spec r shortCircuit maxBatchSize count Hfn Hcount (S (Z.to_nat count)) 0 0 (intMin count initialBatchSize) None)
    as (x & done & Hx & He); try reflexivity; try done; try lia.
  - rewrite Z.sub_0_r. apply intMin_le.
  - intros Hle. left. destruct (decide (0 < count)) as [Hpos|]; [|lia]. pose proof (intMin_pos count initialBatchSize Hpos Hinit). lia.
  - by split.
  - intros e ?. discriminate.
  - exists x, done. by rewrite Z.sub_0_r in Hx.
Qed.

(** With a bound of zero the loop stops after the first batch, without an
    error. *)
Lemma SlowStartBatch_unbounded r count initialBatchSize : (∀ i e, fn i e = r i) →
  0 < initialBatchSize < count → (∀ i, r i = None) → SlowStartBatch count initialBatchSize false 0 = Some (initialBatchSize, None).
Proof.
  intros Hfn Hlt Hr. assert (Hb : ∀ i n e, batch i n e = []).
  { intros i n e. apply Permutation_nil_r. rewrite <- (arrive_perm []). unfold batch. rewrite !arrive_perm.
    induction (seqZ i n) as [|x l IH]; [done|]. csimpl. by rewrite Hfn, Hr. }
  unfold SlowStartBatch. simpl. rewrite decide_False by (unfold intMin; case_decide; lia). rewrite Hb.
  replace (intMin count initialBatchSize) with initialBatchSize by (unfold intMin; case_decide; lia).
  destruct (Z.to_nat count) as [|n] eqn:Hn; [lia|]. simpl. rewrite decide_True.
  - do 2 f_equal. lia.
  - apply (proj1 (intMin_le 0 _)).
Qed.
End slow.

(** ** The pool of buffers

    A buffer is known by its address; the pool is a channel of them. *)

Definition baseWidth : Z := 32 * 1024.
Definition poolCap : nat := 1000.

Record bytesPool := mkPool { bp_pool : list nat; bp_cap : gmap nat Z }.

Definition pool_Get (p : bytesPool) : nat * bytesPool :=
  match bp_pool p with
  | b :: rest => (b, mkPool rest (bp_cap p))
  | [] => let b := fresh (dom (bp_cap p)) in (b, mkPool [] (<[b := baseWidth]> (bp_cap p)))
  end.
Definition pool_Put (b : nat) (p : bytesPool) : bytesPool :=
  if decide (default 0 (bp_cap p !! b) < baseWidth) then p
  else if decide (length (bp_pool p) < poolCap)%nat then mkPool (bp_pool p ++ [b]) (bp_cap p) else p.

(** Users hold buffers, from the pool or their own, and give each back at
    most once. *)
Inductive pool_step : bytesPool * list nat → bytesPool * list nat → Prop :=
| ps_get p held : pool_step (p, held) ((pool_Get p).2, (pool_Get p).1 :: held)
| ps_put p b before after : pool_step (p, before ++ b :: after) (pool_Put b p, before ++ after)
| ps_own p held b c : bp_cap p !! b = None → pool_step (p, held) (mkPool (bp_pool p) (<[b := c]> (bp_cap p)), b :: held).

Record pool_wf (x : bytesPool * list nat) : Prop := {
  pw_distinct : NoDup (bp_pool x.1 ++ x.2);
  pw_known : ∀ b, b ∈ bp_pool x.1 ++ x.2 → is_Some (bp_cap x.1 !! b);
  pw_wide : ∀ b, b ∈ bp_pool x.1 → baseWidth <= default 0 (bp_cap x.1 !! b);
  pw_bound : (length (bp_pool x.1) ≤ poolCap)%nat;
}.

Lemma add_buffer p held b c : bp_cap p !! b = None → pool_wf (p, held) →
  pool_wf (mkPool (bp_pool p) (<[b := c]> (bp_cap p)), b :: held).
Proof.
  intros Hb [Hd Hk Hw Hl]; simpl in *.
  assert (Hnew : b ∉ bp_pool p ++ held) by (intros Hin; destruct (Hk b Hin); congruence).
  split; simpl; [| | |done].
  - rewrite <- Permutation_middle. by apply NoDup_cons.
  - intros b'. rewrite <- Permutation_middle. intros [->|Hin]%elem_of_cons; [by rewrite lookup_insert_eq|].
    rewrite lookup_insert_ne by (intros ->; done). by apply Hk.
  - intros b' Hin. rewrite lookup_insert_ne; [by apply Hw|]. intros ->. apply Hnew, elem_of_app. by left.
Qed.

Lemma pool_step_wf x y : pool_step x y → pool_wf x → pool_wf y.
Proof.
  intros [p held|p b before after|p held b c Hb] Hwf.
  - unfold pool_Get. destruct (bp_pool p) as [|b rest] eqn:Hp.
    + pose proof (add_buffer p held (fresh (dom (bp_cap p))) baseWidth) as Ha. rewrite Hp in Ha. simpl. apply Ha; [|done].
      apply not_elem_of_dom, is_fresh.
    + destruct Hwf as [Hd Hk Hw Hl]; simpl in *. rewrite Hp in *. split; simpl in *.
      * by rewrite <- Permutation_middle.
      * intros b'. rewrite <- Permutation_middle. apply Hk.
      * intros b' Hin. apply Hw. by right.
      * lia.
  - destruct Hwf as [Hd Hk Hw Hl]; simpl in *.
    assert (Hperm : bp_pool p ++ before ++ b :: after ≡ₚ b :: (bp_pool p ++ before ++ after)).
    { by rewrite <- !Permutation_middle. }
    assert (Hkeep : pool_wf (p, before ++ after)).
    { rewrite Hperm in Hd. apply NoDup_cons in Hd as [_ Hd]. split; simpl; try done. intros b' Hin. apply Hk. rewrite Hperm. by right. }
    unfold pool_Put. case_decide as Hc; [done|]. case_decide as Hlen; [|done]. split; simpl.
    + rewrite <- app_assoc. simpl. rewrite <- Permutation_middle, <- Hperm. done.
    + intros b'. rewrite <- app_assoc. simpl. rewrite <- Permutation_middle, <- Hperm. apply Hk.
    + intros b' [Hin|Hin%list_elem_of_singleton]%elem_of_app; [by apply Hw|]. subst. lia.
    + rewrite length_app. simpl. lia.
  - by apply add_buffer.
Qed.

(** A buffer is never handed to two users, nor to one while it lies in the
    pool; what the pool hands out is at least as wide as a new buffer; and the
    pool keeps at most its thousand. *)
Theorem pool_exclusive x : rtc pool_step (mkPool [] ∅, []) x →
  pool_wf x ∧ ((pool_Get x.1).1 ∉ x.2) ∧
  baseWidth <= default 0 (bp_cap (pool_Get x.1).2 !! (pool_Get x.1).1).
Proof.
  intros Hr. assert (Hwf : pool_wf x).
  { assert (H0 : pool_wf (mkPool [] ∅, [])).
    { split; simpl; [constructor|intros b []%not_elem_of_nil|intros b []%not_elem_of_nil|lia]. }
    revert H0. induction Hr as [x|x y z Hs Hr IH]; [done|]. intros H0. apply IH. by eapply pool_step_wf. }
  split; [done|]. pose proof (pool_step_wf x ((pool_Get x.1).2, (pool_Get x.1).1 :: x.2)) as Hstep.
  destruct x as [p held]; simpl in *. specialize (Hstep (ps_get p held) Hwf). split.
  - pose proof (pw_distinct _ Hstep) as Hd. simpl in Hd. rewrite <- Permutation_middle in Hd. apply NoDup_cons in Hd as [Hd _].
    intros Hin. apply Hd, elem_of_app. by right.
  - unfold pool_Get in *. destruct (bp_pool p) as [|b rest] eqn:Hp; simpl; [by rewrite lookup_insert_eq|].
    apply (pw_wide _ Hwf). simpl. rewrite Hp. by left.
Qed.

Lemma SlowStartBatch_correct_witness :
  SlowStartBatch (λ i _, if decide (i = 5) then Some "failed" else None) id 9 1 true 100 = Some (6, Some "failed") ∧
  ∃ x done, SlowStartBatch (λ i _, if decide (i = 5) then Some "failed" else None) id 9 1 true 100 = Some x ∧
    batches_end (λ i, if decide (i = 5) then Some "failed" else None) true 100 9 x done.
Proof.
  split; [vm_compute; reflexivity|].
  apply (SlowStartBatch_correct _ id (λ l, Permutation_refl l)); [done|lia|lia].
Defined.

Lemma pool_exclusive_witness : pool_wf ((pool_Get (mkPool [] ∅)).2, [(pool_Get (mkPool [] ∅)).1]).
Proof. apply (pool_exclusive ((pool_Get (mkPool [] ∅)).2, [(pool_Get (mkPool [] ∅)).1])). apply rtc_once, ps_get. Defined.
