(* ===== verification/WebhookServer.v ===== *)
(** * The webhook server's surroundings

    src/pkg/webhook/server.go and src/pkg/webhook/util/health/checker.go: the
    registered paths, the readiness check and the wait for it; the events the
    certificate controller listens to (src/pkg/webhook/util/controller/
    webhook_controller.go); the settings (src/pkg/utils/env.go). *)

From S2P Require Import Prelude GoStrings GoTime.
#[local] Open Scope Z_scope.

(** ** Settings

    A variable that is not set reads as the empty string. *)

Class Environment := { Getenv : string → string }.

(** [strconv.ParseInt(s, 10, 32)]: an optional sign and digits, in range. *)
Fixpoint decimal (acc : Z) (s : string) : option Z :=
  match s with
  | EmptyString => Some acc
  | String a s => if is_digit a then decimal (acc * 10 + digit_val a) s else None
  end.
Definition ParseInt32 (s : string) : option Z :=
  let unsigned s := if decide (s = EmptyString) then None else decimal 0 s in
  n ← match s with
      | String "-" s => Z.opp <$> unsigned s
      | String "+" s => unsigned s
      | _ => unsigned s
      end;
  if decide (- 2 ^ 31 <= n < 2 ^ 31) then Some n else None.

Section env.
Context `{Environment}.

Definition getenv_or (name fallback : string) : string :=
  let v := Getenv name in if decide (v = EmptyString) then fallback else v.

Definition GetHost : string := Getenv "WEBHOOK_HOST".
Definition GetNamespace : string := getenv_or "POD_NAMESPACE" "ctrlmesh".
Definition GetSecretName : string := getenv_or "SECRET_NAME" "ctrlmesh-webhook-certs".
Definition GetServiceName : string := getenv_or "SERVICE_NAME" "ctrlmesh-webhook-service".
(** [None]: the process ends. *)
Definition GetPort : option Z :=
  let p := Getenv "WEBHOOK_PORT" in if decide (p = EmptyString) then Some 9443 else ParseInt32 p.
Definition GetCertDir : string := getenv_or "WEBHOOK_CERT_DIR" "/tmp/ctrlmesh-webhook-certs".
Definition GetCertWriter : string := Getenv "WEBHOOK_CERT_WRITER".
End env.

(** ** The handlers' paths *)

Definition absolute (path : string) : string := if HasPrefix path "/" then path else "/" +:+ path.

(** One package's handlers, in the order of the range; a later handler of a
    path replaces an earlier one. *)
Definition addHandlers {A} (m : list (string * A)) (handlers : gmap string A) : gmap string A :=
  fold_left (λ handlers '(path, handler),
    if decide (path = EmptyString) then handlers else <[absolute path := handler]> handlers) m handlers.

(** ** The events of the certificate controller *)

Inductive event :=
| SecretAdded (name : string) | SecretUpdated (name : string)
| MutatingAdded (name : string) | MutatingUpdated (name : string)
| ValidatingAdded (name : string) | ValidatingUpdated (name : string).

Definition mutatingWebhookConfigurationName : string := "ctrlmesh-mutating".
Definition validatingWebhookConfigurationName : string := "ctrlmesh-validating".

(** After how long the one key of the queue is added, if it is. *)
Definition enqueued (secretName : string) (e : event) : option Z :=
  let add name wanted := if decide (name = wanted) then Some 0 else None in
  let addAfter name wanted := if decide (name = wanted) then Some 100000000 else None in
  match e with
  | SecretAdded n => add n secretName
  | SecretUpdated n => addAfter n secretName
  | MutatingAdded n => add n mutatingWebhookConfigurationName
  | MutatingUpdated n => addAfter n mutatingWebhookConfigurationName
  | ValidatingAdded n => add n validatingWebhookConfigurationName
  | ValidatingUpdated n => addAfter n validatingWebhookConfigurationName
  end.

(** ** The readiness check *)

(** What the first check has left: the error of reading the CA certificate, or
    the certificate the client trusts. *)
Abbreviation health := (option (result string)).

(** One check: [read] is what reading the file gives now, [get] the error of a
    request to the server by a client that trusts a certificate. *)
Definition Checker (read : result string) (get : string → option string) (h : health) : option string * health :=
  let client := match h with Some c => c | None => read end in
  (match client with Err e => Some e | Ok ca => get ca end, Some client).

(** A sequence of checks. *)
Fixpoint checks (cs : list (result string * (string → option string))) (h : health) : list (option string) :=
  match cs with
  | [] => []
  | (read, get) :: cs => let '(err, h) := Checker read get h in err :: checks cs h
  end.

Definition second : Z := 1000000000.
Definition minute : Z := 60 * second.

(** [WaitReady]: [elapsed n] is the time since its start before the [n]-th
    check. [None] when the fuel runs out; [Some None] is success. *)
Fixpoint wait_loop (fuel n : nat) (elapsed : nat → Z) (reads : nat → result string)
    (gets : nat → string → option string) (h : health) : option (option string) :=
  match fuel with
  | O => None
  | S fuel =>
      match Checker (reads n) (gets n) h with
      | (None, _) => Some None
      | (Some err, h) =>
          if decide (elapsed n > minute) then Some (Some err)
          else wait_loop fuel (S n) elapsed reads gets h
      end
  end.
Definition wait_fuel : nat := 32.
Definition WaitReady (elapsed : nat → Z) (reads : nat → result string) (gets : nat → string → option string) :=
  wait_loop wait_fuel 0 elapsed reads gets None.

(** The first check decides for all: when it cannot read the certificate,
    every later check fails with its error, and otherwise every later check
    trusts the certificate it has read, whatever the file has become. *)
Theorem first_check_decides read get cs :
  checks ((read, get) :: cs) None =
    (λ c, match read with Err e => Some e | Ok ca => c.2 ca end) <$> (read, get) :: cs.
Proof.
  assert (Hall : ∀ cs, checks cs (Some read) = (λ c, match read with Err e => Some e | Ok ca => c.2 ca end) <$> cs).
  { clear. induction cs as [|[r g] cs IH]; [done|]. simpl. by rewrite IH. }
  simpl. by rewrite Hall.
Qed.

Section waiting.
Context (elapsed : nat → Z) (reads : nat → result string) (gets : nat → string → option string).
Hypothesis elapsed_start : 0 <= elapsed 0.
Hypothesis elapsed_sleep : ∀ n, elapsed n + 2 * second <= elapsed (S n).

Lemma elapsed_bound n : Z.of_nat n * (2 * second) <= elapsed n.
Proof. induction n as [|n IH]; [done|]. pose proof (elapsed_sleep n). lia. Qed.

(** The [n]-th check, with what the first one has read. *)
Definition nth_check (n : nat) : option string :=
  match reads 0 with Err e => Some e | Ok ca => gets n ca end.

Lemma Checker_nth n h : h = (if decide (n = 0)%nat then None else Some (reads 0)) →
  Checker (reads n) (gets n) h = (nth_check n, Some (reads 0)).
Proof. intros ->. unfold Checker, nth_check. by case_decide; subst. Qed.

Lemma wait_loop_spec fuel n h : h = (if decide (n = 0)%nat then None else Some (reads 0)) → (n + fuel = wait_fuel)%nat →
  (∀ i, (i < n)%nat → nth_check i ≠ None ∧ elapsed i <= minute) →
  ∃ k, wait_loop fuel n elapsed reads gets h = Some (nth_check k) ∧ (k < wait_fuel)%nat ∧
    (∀ i, (i < k)%nat → nth_check i ≠ None ∧ elapsed i <= minute) ∧ (nth_check k ≠ None → minute < elapsed k).
Proof.
  revert n h. induction fuel as [|fuel IH]; intros n h Hh Hn Hprev.
  { exfalso. destruct (Hprev 31%nat) as [_ He]; [unfold wait_fuel in Hn; lia|]. pose proof (elapsed_bound 31). unfold minute in He.
    unfold second in *. lia. }
  cbn [wait_loop]. rewrite (Checker_nth n h Hh). destruct (nth_check n) as [err|] eqn:Hc.
  - destruct (decide (elapsed n > minute)) as [He|He].
    + exists n. rewrite Hc. split_and!; [done|lia|done|lia].
    + apply IH; [by rewrite decide_False by lia|lia|]. intros i Hi. destruct (decide (i = n)) as [->|Hne]; [|apply Hprev; lia].
      split; [by rewrite Hc|lia].
  - exists n. rewrite Hc. by split_and!; [|lia| |].
Qed.

(** Waiting ends, after at most [wait_fuel] checks: with success at the first
    check that succeeds, or with the error of the first check made after more
    than a minute. *)
Theorem WaitReady_ends : ∃ k, WaitReady elapsed reads gets = Some (nth_check k) ∧ (k < wait_fuel)%nat ∧
  (∀ i, (i < k)%nat → nth_check i ≠ None ∧ elapsed i <= minute) ∧ (nth_check k ≠ None → minute < elapsed k).
Proof. apply wait_loop_spec; [reflexivity|reflexivity|lia]. Qed.

(** A certificate that appears after the first check is not seen: waiting
    fails. *)
Theorem late_certificate_unseen e : reads 0 = Err e → WaitReady elapsed reads gets = Some (Some e).
Proof.
  intros He. destruct WaitReady_ends as (k & -> & _). unfold nth_check. by rewrite He.
Qed.
End waiting.

Example ParseInt32_port : ParseInt32 "8443" = Some 8443 ∧ ParseInt32 "4294967296" = None ∧ ParseInt32 "84x" = None.
Proof. by vm_compute. Qed.

Lemma WaitReady_ends_witness : ∃ k,
  WaitReady (λ n, Z.of_nat n * (2 * second)) (λ n, if decide (n = 0)%nat then Err "no such file" else Ok "ca") (λ _ _, None)
    = Some (nth_check (λ n, if decide (n = 0)%nat then Err "no such file" else Ok "ca") (λ _ _, None) k) ∧ (k < wait_fuel)%nat.
Proof.
  destruct (WaitReady_ends (λ n, Z.of_nat n * (2 * second))
    (λ n, if decide (n = 0)%nat then Err "no such file" else Ok "ca") (λ _ _, None)) as (k & Hr & Hk & _);
    [done|intros n; lia|]. exists k. split; [exact Hr|exact Hk].
Defined.
