(* ===== verification/Labels.v ===== *)
(** * The labels that carry the shards

    src/pkg/webhook/ns, src/pkg/webhook/resources,
    src/pkg/manager/controllers/patchrunnable and src/pkg/utils/rand: every
    namespace is labelled with a hash of its name, and every object in it with
    the labels of its namespace, by the webhooks when it is written and by a
    task of the manager for what was there before.  The shards select on these
    labels (Sharding.v). *)

From S2P Require Import Prelude GoStrings Utf8 Selector Sharding.

(** ** The hash (utils/rand) *)

(** [int] has 64 bits; a zero modulus panics. *)
Definition hash_step (mod_ hash char : Z) : Z := Z.rem (int64 (int64 (hash * 33) + char)) mod_.
Definition Hash (str : string) (mod_ : Z) : outcome Z :=
  if decide (mod_ = 0%Z) then match runes str with [] => Returns 0%Z | _ => Panics end
  else Returns (fold_left (hash_step mod_) (runes str) 0%Z).

Definition DefaultShardingSize : Z := 32.

(** ** The labels *)

Definition MeshControlLabel : string := "ctrlmesh.kusionstack.io/control".
Definition ShouldSyncLabels : list string := [ShardHashLabel; MeshControlLabel; NamespaceShardLabel].
Definition IsControlledByMesh (labels : gmap string string) : bool :=
  match labels !! MeshControlLabel with Some val => bool_decide (val = "true") | None => false end.

(** The hash of a namespace as a label. *)
Definition nsHash (name : string) : outcome string := Itoa <$> Hash name DefaultShardingSize.

(** ** The webhook of namespaces (webhook/ns) *)

Record Namespace := mkNamespace { n_Name : string; n_Labels : gmap string string; n_Deleting : bool }.
Definition with_ns_labels (l : gmap string string) (ns : Namespace) : Namespace := mkNamespace (n_Name ns) l (n_Deleting ns).

(** Each step answers whether it changed anything. *)
Definition shouldUpdateNs (ns : Namespace) : outcome (bool * Namespace) :=
  let '(u1, l) := match n_Labels ns !! MeshControlLabel with
    | None => (true, <[MeshControlLabel := "true"]> (n_Labels ns))
    | Some _ => (false, n_Labels ns)
    end in
  let '(u2, l) := if decide (l !! NamespaceShardLabel = Some (n_Name ns)) then (u1, l)
                  else (true, <[NamespaceShardLabel := n_Name ns]> l) in
  h ← nsHash (n_Name ns);
  let '(u3, l) := if decide (l !! ShardHashLabel = Some h) then (u2, l) else (true, <[ShardHashLabel := h]> l) in
  Returns (u3, with_ns_labels l ns).

Inductive operation := OpCreate | OpUpdate | OpOtherOperation.
(** The answers of a webhook; a patch of labels is the new labels. *)
Inductive answer := Allow | PatchTo (ns : Namespace) | Refuse (code : Z) (msg : string).

Definition ns_Handle (op : operation) (decoded : result Namespace) : outcome answer :=
  match op with
  | OpOtherOperation => Returns Allow
  | _ =>
      match decoded with
      | Err e => Returns (Refuse 400 e)
      | Ok ns =>
          '(update, ns') ← shouldUpdateNs ns;
          Returns (if (update : bool) then PatchTo ns' else Allow)
      end
  end.

(** ** The webhook of objects (webhook/resources) *)

(** [getNamespaceWithRetry]: the loop over [i], every attempt [get i] being an
    error or none; [fuel] bounds the loop.  Returns the error and the number
    of attempts. *)
Fixpoint getNamespaceWithRetry (fuel : nat) (get : nat → option string) (cnt : Z) (i : nat) : option (option string * nat) :=
  match fuel with
  | O => None
  | S fuel =>
      match get i with
      | Some err => if (cnt - 1 <=? Z.of_nat i)%Z then Some (Some err, S i) else getNamespaceWithRetry fuel get cnt (S i)
      | None => Some (None, S i)
      end
  end.

Definition sync_labels (labels : gmap string string) : gmap string string :=
  filter (λ kv, kv.1 ∈ ShouldSyncLabels) labels.
Definition getSyncLabels (labels : gmap string string) : gmap string string :=
  if negb (IsControlledByMesh labels) then ∅ else sync_labels labels.

(** An operation of a JSON patch; [None] is the value null. *)
Record jsonpatch := mkPatch { jp_Operation : string; jp_Path : string; jp_Value : option string }.
Definition filterOperation (ops : list jsonpatch) : list jsonpatch :=
  filter (λ o, (jp_Operation o = "add" ∨ jp_Operation o = "replace") ∧ jp_Value o ≠ None) ops.

(** The namespace from the cache and from the API server, and the library that
    compares two documents: the object as it came, and its metadata reduced to
    the labels. *)
Class ResourceApi := {
  cached_ns : nat → result (option (gmap string string)); (* by attempt; [Ok None]: not found *)
  direct_ns : option (result (gmap string string)); (* [None] without a client *)
  CreatePatch : string → gmap string string → result (list jsonpatch);
}.
Record ObjectRequest := mkObjectRequest { or_Operation : operation; or_Namespace : string; or_Kind : string; or_Raw : string }.
Inductive object_answer := ObjAllow | ObjPatch (ops : list jsonpatch) | ObjRefuse (code : Z) (msg : string).

Section resources.
Context `{ResourceApi}.

Definition notFound : string := "namespace not found".
Definition cached_attempt (i : nat) : option string :=
  match cached_ns i with Ok (Some _) => None | Ok None => Some notFound | Err e => Some e end.

(** The labels of the namespace: the cached ones, or the API server's when the
    last attempt did not find it. *)
Definition namespace_labels : result (gmap string string) :=
  match getNamespaceWithRetry 5 cached_attempt 5 0 with
  | None => Err "does not happen" (* the loop ends within five attempts *)
  | Some (None, n) => match cached_ns (pred n) with Ok (Some l) => Ok l | _ => Err "does not happen" end
  | Some (Some err, n) =>
      match cached_ns (pred n), direct_ns with
      | Ok None, Some (Ok l) => Ok l
      | Ok None, Some (Err e) => Err e
      | _, _ => Err err
      end
  end.

Definition obj_Handle (req : ObjectRequest) : object_answer :=
  match or_Operation req with
  | OpOtherOperation => ObjAllow
  | _ =>
      if decide (or_Namespace req = EmptyString) then ObjAllow
      else if decide (or_Kind req = "ShardingConfig") then ObjAllow
      else match namespace_labels with
      | Err e => ObjRefuse 400 e
      | Ok labels =>
          let patchLabel := getSyncLabels labels in
          if decide (patchLabel = ∅) then ObjAllow
          else match CreatePatch (or_Raw req) patchLabel with
          | Err e => ObjRefuse 500 e
          | Ok patches =>
              match filterOperation patches with
              | [] => ObjAllow
              | ops => ObjPatch ops
              end
          end
      end
  end.
End resources.

(** ** The task that labels what was there before (patchrunnable) *)

Definition updateLabel (ns : Namespace) : outcome (result bool * Namespace) :=
  h ← nsHash (n_Name ns);
  let l := n_Labels ns in
  match l !! MeshControlLabel with
  | None =>
      if decide (is_Some (l !! ShardHashLabel)) then
        Returns (Err ("label " +:+ ShardHashLabel +:+ " already exist but can not find " +:+ MeshControlLabel), ns)
      else if decide (is_Some (l !! NamespaceShardLabel)) then
        Returns (Err ("label " +:+ NamespaceShardLabel +:+ " already exist but can not find " +:+ MeshControlLabel), ns)
      else Returns (Ok true, with_ns_labels (<[ShardHashLabel := h]> (<[NamespaceShardLabel := n_Name ns]> (<[MeshControlLabel := "true"]> l))) ns)
  | Some _ =>
      if decide (l !! ShardHashLabel ≠ Some h) then
        Returns (Ok true, with_ns_labels (<[ShardHashLabel := h]> (<[NamespaceShardLabel := n_Name ns]> l)) ns)
      else if decide (l !! NamespaceShardLabel ≠ Some (n_Name ns)) then
        Returns (Ok true, with_ns_labels (<[NamespaceShardLabel := n_Name ns]> l) ns)
      else Returns (Ok false, ns)
  end.

Definition ignoredSystemNamespace : list string := ["kube-system"; "kube-public"; "default"; EmptyString].

(** The API server for namespaces, by attempt: a read, and the error of an
    update with whether it is a conflict. *)
Class NamespaceApi := {
  get_ns : nat → result Namespace;
  update_ns : nat → Namespace → option (bool * string);
}.

(** The function that [RetryOnConflict] repeats: its error, the namespace it
    leaves in memory, and what it stored. *)
Definition label_attempt `{NamespaceApi} (i : nat) (ns : Namespace) : outcome (option (bool * string) * Namespace * option Namespace) :=
  match get_ns i with
  | Err e => Returns (Some (false, e), ns, None)
  | Ok ns =>
      '(ok, ns') ← updateLabel ns;
      match ok with
      | Ok true => Returns (match update_ns i ns' with None => (None, ns', Some ns') | Some e => (Some e, ns', None) end)
      | _ => Returns (None, ns', None)
      end
  end.
(** Twenty attempts at most, only after conflicts. *)
Fixpoint RetryOnConflict `{NamespaceApi} (steps : nat) (i : nat) (ns : Namespace)
    : outcome (option string * Namespace * option Namespace) :=
  '(err, ns, stored) ← label_attempt i ns;
  match err, steps with
  | None, _ => Returns (None, ns, stored)
  | Some (true, _), S steps => RetryOnConflict steps (S i) ns
  | Some (_, e), _ => Returns (Some e, ns, stored)
  end.
(** A listed namespace, which the items collected later refer to. *)
Definition label_namespace `{NamespaceApi} (ns : Namespace) : outcome (option string * Namespace * option Namespace) :=
  if bool_decide (n_Name ns ∈ ignoredSystemNamespace) || n_Deleting ns then Returns (None, ns, None)
  else RetryOnConflict 19 0 ns.

Definition getShardingLabel (labels : gmap string string) : gmap string string := getSyncLabels labels.

Definition shouldPatchLabel (old target : gmap string string) : gmap string string :=
  filter (λ kv, old !! kv.1 ≠ Some kv.2) target.
(** What the API server makes of a merge patch of labels. *)
Definition merge_patch (old patch : gmap string string) : gmap string string := patch ∪ old.

Record Item := mkItem { it_Kind : string; it_Namespace : string; it_Name : string; it_Labels : gmap string string }.

Definition item_patch (shardingLabels : gmap string string) (item : Item) : list (Item * gmap string string) :=
  let patch := shouldPatchLabel (it_Labels item) shardingLabels in
  if decide (patch = ∅) then [] else [(item, patch)].

(** One kind of a namespace: the patches, and the kinds found invalid. *)
Definition collect_kind (list_items : string → result (list Item)) (shardingLabels : gmap string string)
    (acc : list (Item * gmap string string) * gset string) (gvk : string) : list (Item * gmap string string) * gset string :=
  let '(patches, invalid) := acc in
  if decide (gvk ∈ invalid) then (patches, invalid)
  else match list_items gvk with
  | Err e => (patches, if Contains e "no matches" then {[gvk]} ∪ invalid else invalid)
  | Ok [] => (patches, invalid)
  | Ok ((first :: _) as items) =>
      if decide (it_Namespace first = EmptyString) then (patches, invalid)
      else (patches ++ (items ≫= item_patch shardingLabels), invalid)
  end.
Definition getResourceInNamespace (list_items : string → result (list Item)) (nsLabels : gmap string string)
    (gvks : list string) (invalid : gset string) : list (Item * gmap string string) * gset string :=
  fold_left (collect_kind list_items (getShardingLabel nsLabels)) gvks ([], invalid).

(** The configured kinds (resource.go).  The names of a group and version and
    of its kinds come from the cluster. *)
Class Discovery := {
  ParseGroupVersion : string → option string; (* printed *)
  ServerResources : string → result (list string);
}.
Fixpoint expand_kinds `{Discovery} (gv groupVersion : string) (kinds : list string) (gvks : gset string) : gset string :=
  match kinds with
  | [] => gvks
  | kind :: kinds =>
      if decide (kind ≠ "*") then expand_kinds gv groupVersion kinds ({[groupVersion +:+ "/" +:+ kind]} ∪ gvks)
      else match ServerResources gv with
      | Err _ => gvks
      | Ok resources => list_to_set ((λ k, groupVersion +:+ "/" +:+ k) <$> resources) ∪ gvks
      end
  end.
Definition LoadGroupVersionKind `{RangeOrder} `{Discovery} (config : gmap string (list string)) : gset string :=
  fold_left (λ gvks gv,
    match ParseGroupVersion gv, config !! gv with
    | Some groupVersion, Some kinds => expand_kinds gv groupVersion kinds gvks
    | _, _ => gvks
    end) (range_keys config) ∅.

(** ** The hash *)

(** The value without overflow. *)
Definition hash_spec (mod_ : Z) (rs : list Z) : Z := fold_left (λ h c, (h * 33 + c) mod mod_)%Z rs 0%Z.

Lemma hash_step_exact mod_ h c :
  (0 < mod_ ≤ 2 ^ 57)%Z → (0 ≤ h < mod_)%Z → (0 ≤ c < 2 ^ 21)%Z →
  hash_step mod_ h c = ((h * 33 + c) mod mod_)%Z ∧ (0 ≤ (h * 33 + c) mod mod_ < mod_)%Z.
Proof.
  intros Hm Hh Hc. unfold hash_step, int64.
  assert (wrap 64 (h * 33) = h * 33)%Z as -> by (apply wrap_id; lia).
  assert (wrap 64 (h * 33 + c) = h * 33 + c)%Z as -> by (apply wrap_id; lia).
  split; [apply Z.rem_mod_nonneg; lia|apply Z.mod_pos_bound; lia].
Qed.

Lemma hash_fold mod_ rs h :
  (0 < mod_ ≤ 2 ^ 57)%Z → (0 ≤ h < mod_)%Z → Forall (λ r, 0 ≤ r < 2 ^ 21)%Z rs →
  fold_left (hash_step mod_) rs h = fold_left (λ h c, (h * 33 + c) mod mod_)%Z rs h ∧
  (0 ≤ fold_left (hash_step mod_) rs h < mod_)%Z.
Proof.
  intros Hm Hh Hrs. revert h Hh. induction Hrs as [|c rs Hc _ IH]; intros h Hh; [done|]. cbn [fold_left].
  destruct (hash_step_exact mod_ h c Hm Hh Hc) as [-> Hb]. by apply IH.
Qed.

Lemma Hash_correct str mod_ :
  (0 < mod_ ≤ 2 ^ 57)%Z → ∃ h, Hash str mod_ = Returns h ∧ h = hash_spec mod_ (runes str) ∧ (0 ≤ h < mod_)%Z.
Proof.
  intros Hm. unfold Hash. rewrite decide_False by lia. eexists. split; [done|].
  destruct (hash_fold mod_ (runes str) 0 Hm ltac:(lia) (runes_bound str)) as [Heq Hb].
  split; [exact Heq|exact Hb].
Qed.

(** C36. The hash of a namespace is in range and does not overflow: for every
    modulus up to 2^57 and every string, of valid UTF-8 or not, the 64-bit
    computation gives the value of the polynomial in 33 over the integers,
    between 0 and the modulus; a zero modulus panics on a non-empty string. *)
Theorem Hash_bounds str mod_ :
  ((0 < mod_ ≤ 2 ^ 57)%Z → ∃ h, Hash str mod_ = Returns h ∧ h = hash_spec mod_ (runes str) ∧ (0 ≤ h < mod_)%Z) ∧
  (Hash str 0 = Panics ↔ runes str ≠ []).
Proof.
  split; [apply Hash_correct|]. unfold Hash. rewrite decide_True by done.
  destruct (runes str); naive_solver.
Qed.

Lemma nsHash_range name : ∃ h, (0 ≤ h < 32)%Z ∧ nsHash name = Returns (Itoa h).
Proof.
  destruct (Hash_correct name DefaultShardingSize) as (h & Hh & _ & Hb); [done|]. exists h. split; [done|].
  unfold nsHash. by rewrite Hh.
Qed.

(** ** Namespaces *)

(** What a labelled namespace carries. *)
Definition labelled (ns : Namespace) (h : string) : Prop :=
  n_Labels ns !! NamespaceShardLabel = Some (n_Name ns) ∧ n_Labels ns !! ShardHashLabel = Some h ∧
  is_Some (n_Labels ns !! MeshControlLabel).

(** The labels a namespace should have: its name and hash, and the control
    label it has, or true. *)
Definition target_labels (ns : Namespace) (h : string) : gmap string string :=
  <[ShardHashLabel := h]> (<[NamespaceShardLabel := n_Name ns]>
    (<[MeshControlLabel := default "true" (n_Labels ns !! MeshControlLabel)]> (n_Labels ns))).

Lemma shouldUpdateNs_labels ns h :
  nsHash (n_Name ns) = Returns h →
  ∃ u, shouldUpdateNs ns = Returns (u, with_ns_labels (target_labels ns h) ns) ∧
    (u = false ↔ target_labels ns h = n_Labels ns).
Proof.
  intros Hh. unfold shouldUpdateNs, target_labels. rewrite Hh. cbn [mbind outcome_bind].
  set (l1 := <[MeshControlLabel := default "true" (n_Labels ns !! MeshControlLabel)]> (n_Labels ns)).
  assert (∃ u1, (match n_Labels ns !! MeshControlLabel with
    | None => (true, <[MeshControlLabel := "true"]> (n_Labels ns)) | Some _ => (false, n_Labels ns) end) = (u1, l1) ∧
    (u1 = false ↔ l1 = n_Labels ns)) as (u1 & -> & Hu1).
  { unfold l1. destruct (n_Labels ns !! MeshControlLabel) as [v|] eqn:Hc; cbn [default].
    - exists false. by rewrite insert_id.
    - exists true. split; [done|]. split; [done|]. intros Heq. rewrite <- Heq in Hc. by rewrite lookup_insert_eq in Hc. }
  set (l2 := <[NamespaceShardLabel := n_Name ns]> l1).
  assert (∃ u2, (if decide (l1 !! NamespaceShardLabel = Some (n_Name ns)) then (u1, l1) else (true, l2)) = (u2, l2) ∧
    (u2 = false ↔ u1 = false ∧ l2 = l1)) as (u2 & -> & Hu2).
  { case_decide as Hd; unfold l2; [exists u1; rewrite insert_id by done; naive_solver|].
    exists true. split; [done|]. split; [done|]. intros [_ Heq]. destruct Hd. rewrite <- Heq. by rewrite lookup_insert_eq. }
  set (l3 := <[ShardHashLabel := h]> l2).
  assert (∃ u3, (if decide (l2 !! ShardHashLabel = Some h) then (u2, l2) else (true, l3)) = (u3, l3) ∧
    (u3 = false ↔ u2 = false ∧ l3 = l2)) as (u3 & -> & Hu3).
  { case_decide as Hd; unfold l3; [exists u2; rewrite insert_id by done; naive_solver|].
    exists true. split; [done|]. split; [done|]. intros [_ Heq]. destruct Hd. rewrite <- Heq. by rewrite lookup_insert_eq. }
  exists u3. split; [done|]. rewrite Hu3, Hu2, Hu1. split; [intros ((-> & ->) & ->); done|].
  intros Heq. assert (l2 = n_Labels ns ∧ l1 = n_Labels ns) as [-> ->]; [|done].
  assert (l1 = n_Labels ns) as Hl1.
  { apply map_eq. intros k. destruct (decide (k = ShardHashLabel)) as [->|Hk1]; [by unfold l1; rewrite lookup_insert_ne|].
    destruct (decide (k = NamespaceShardLabel)) as [->|Hk2]; [by unfold l1; rewrite lookup_insert_ne|].
    rewrite <- Heq. unfold l3, l2. by rewrite !lookup_insert_ne. }
  split; [|done]. apply map_eq. intros k. destruct (decide (k = ShardHashLabel)) as [->|Hk1].
  { unfold l2. rewrite lookup_insert_ne by done. by rewrite Hl1. }
  rewrite <- Heq. unfold l3. by rewrite lookup_insert_ne.
Qed.

Lemma target_lookups ns h :
  target_labels ns h !! ShardHashLabel = Some h ∧ target_labels ns h !! NamespaceShardLabel = Some (n_Name ns) ∧
  target_labels ns h !! MeshControlLabel = Some (default "true" (n_Labels ns !! MeshControlLabel)).
Proof.
  unfold target_labels. split_and!.
  - apply lookup_insert_eq.
  - rewrite lookup_insert_ne by done. apply lookup_insert_eq.
  - rewrite 2!lookup_insert_ne by done. apply lookup_insert_eq.
Qed.

Lemma target_labels_idem ns h : target_labels (with_ns_labels (target_labels ns h) ns) h = target_labels ns h.
Proof.
  destruct (target_lookups ns h) as (Hs & Hn & Hc). unfold target_labels at 1; cbn [n_Labels n_Name with_ns_labels].
  rewrite Hc. set (t := target_labels ns h) in *. clearbody t.
  rewrite (insert_id t MeshControlLabel) by done. rewrite (insert_id t NamespaceShardLabel) by done. by apply insert_id.
Qed.

Lemma updateLabel_labels ns h :
  nsHash (n_Name ns) = Returns h →
  (n_Labels ns !! MeshControlLabel = None ∧
   (is_Some (n_Labels ns !! ShardHashLabel) ∨ is_Some (n_Labels ns !! NamespaceShardLabel)) ∧
   ∃ e, updateLabel ns = Returns (Err e, ns)) ∨
  ((is_Some (n_Labels ns !! MeshControlLabel) ∨
    (n_Labels ns !! ShardHashLabel = None ∧ n_Labels ns !! NamespaceShardLabel = None)) ∧
   ∃ u, updateLabel ns = Returns (Ok u, with_ns_labels (target_labels ns h) ns) ∧
     (u = false ↔ target_labels ns h = n_Labels ns)).
Proof.
  intros Hh. unfold updateLabel. rewrite Hh. cbn [mbind outcome_bind].
  destruct (n_Labels ns !! MeshControlLabel) as [v|] eqn:Hc.
  - right. split; [left; by eexists|]. unfold target_labels. rewrite Hc. cbn [default]. rewrite (insert_id _ MeshControlLabel v) by done.
    destruct (decide (n_Labels ns !! ShardHashLabel = Some h)) as [Hs|Hs].
    + rewrite decide_False by (by intros ?).
      rewrite (insert_id (<[NamespaceShardLabel := n_Name ns]> _) ShardHashLabel) by (by rewrite lookup_insert_ne).
      destruct (decide (n_Labels ns !! NamespaceShardLabel = Some (n_Name ns))) as [Hn|Hn].
      * rewrite decide_False by (by intros ?). rewrite insert_id by done. exists false. by destruct ns.
      * rewrite decide_True by done. exists true. split; [done|]. split; [done|]. intros Heq. destruct Hn.
        rewrite <- Heq. by rewrite lookup_insert_eq.
    + rewrite decide_True by done. exists true. split; [done|]. split; [done|]. intros Heq. destruct Hs.
      rewrite <- Heq. by rewrite lookup_insert_eq.
  - destruct (decide (is_Some (n_Labels ns !! ShardHashLabel))) as [Hs|Hs]; [left; split_and!; eauto|].
    destruct (decide (is_Some (n_Labels ns !! NamespaceShardLabel))) as [Hn|Hn]; [left; split_and!; eauto|].
    right. split; [right; by rewrite !eq_None_not_Some|]. unfold target_labels. rewrite Hc. cbn [default].
    exists true. split; [done|]. split; [done|]. intros Heq. rewrite <- Heq in Hc.
    rewrite !lookup_insert_ne in Hc by done. by rewrite lookup_insert_eq in Hc.
Qed.

(** C27. The webhook and the task of the manager give a namespace the same
    labels.  There is a hash in 0 to 31 for the namespace's name such that the
    webhook labels it with its name, that hash, and the control label it has
    or true, reports a change exactly when there is one, and changes nothing
    when it runs again; and the task does exactly the same, unless the
    namespace has one of the two labels without the control label: then it
    refuses and changes nothing, where the webhook overwrites the label. *)
Theorem namespace_labelling_agrees ns :
  ∃ h, (0 ≤ h < 32)%Z ∧
    let ns' := with_ns_labels (target_labels ns (Itoa h)) ns in
    labelled ns' (Itoa h) ∧
    (∃ u, shouldUpdateNs ns = Returns (u, ns') ∧ (u = false ↔ n_Labels ns' = n_Labels ns)) ∧
    shouldUpdateNs ns' = Returns (false, ns') ∧
    ((n_Labels ns !! MeshControlLabel = None ∧
      (is_Some (n_Labels ns !! ShardHashLabel) ∨ is_Some (n_Labels ns !! NamespaceShardLabel)) ∧
      ∃ e, updateLabel ns = Returns (Err e, ns)) ∨
     ∃ u, updateLabel ns = Returns (Ok u, ns') ∧ (u = false ↔ n_Labels ns' = n_Labels ns)).
Proof.
  destruct (nsHash_range (n_Name ns)) as (h & Hb & Hh). exists h. split; [done|]. intros ns'.
  split_and!; cbn.
  - destruct (target_lookups ns (Itoa h)) as (Hs & Hn & Hc). split_and!; [done|done|by eexists].
  - by apply shouldUpdateNs_labels.
  - destruct (shouldUpdateNs_labels ns' (Itoa h)) as (u & Hu & Hiff); [done|]. rewrite Hu.
    unfold ns' in *. rewrite target_labels_idem in *. by rewrite (proj2 Hiff).
  - destruct (updateLabel_labels ns (Itoa h) Hh) as [?|[_ ?]]; [by left|by right].
Qed.

(** ** Objects *)

Lemma synced_labels nsLabels old :
  let S := getShardingLabel nsLabels in
  merge_patch old (shouldPatchLabel old S) = S ∪ old ∧
  ∀ k, IsControlledByMesh nsLabels = true → k ∈ ShouldSyncLabels → is_Some (nsLabels !! k) →
     merge_patch old (shouldPatchLabel old S) !! k = nsLabels !! k.
Proof.
  intros S. assert (merge_patch old (shouldPatchLabel old S) = S ∪ old) as Hm.
  { unfold merge_patch, shouldPatchLabel. apply map_eq. intros k. destruct (S !! k) as [w|] eqn:Hs.
    - rewrite (lookup_union_Some_l S old k w) by done. destruct (decide (old !! k = Some w)) as [Ho|Ho].
      + rewrite lookup_union_r; [done|]. apply map_lookup_filter_None. right. intros x Hx Hne. cbn in Hne. congruence.
      + apply lookup_union_Some_l. by apply map_lookup_filter_Some.
    - rewrite !lookup_union_r; [done|done|]. apply map_lookup_filter_None. by left. }
  split; [done|]. intros k Hc Hk [v Hv]. rewrite Hm, Hv. apply lookup_union_Some_raw. left.
  unfold S, getShardingLabel, getSyncLabels, sync_labels. rewrite Hc. cbn [negb]. by apply map_lookup_filter_Some.
Qed.

(** The labels of an object after the task are those of its namespace
    where the namespace has them, and its own elsewhere; there is a patch
    exactly when the object does not have them yet, and after it there is
    none.  In a namespace that is not controlled by the mesh no object is
    touched. *)
Theorem object_labels_synced nsLabels item :
  let S := getShardingLabel nsLabels in
  let old := it_Labels item in
  merge_patch old (shouldPatchLabel old S) = S ∪ old ∧
  (item_patch S item = [] ↔ S ⊆ old) ∧
  shouldPatchLabel (merge_patch old (shouldPatchLabel old S)) S = ∅ ∧
  (IsControlledByMesh nsLabels = false → item_patch S item = []) ∧
  (∀ k, IsControlledByMesh nsLabels = true → k ∈ ShouldSyncLabels → is_Some (nsLabels !! k) →
     merge_patch old (shouldPatchLabel old S) !! k = nsLabels !! k).
Proof.
  intros S old. destruct (synced_labels nsLabels old) as [Hm Hsync]. fold S in Hm, Hsync.
  assert (shouldPatchLabel old S = ∅ ↔ S ⊆ old) as Hp.
  { unfold shouldPatchLabel. rewrite map_subseteq_spec, map_empty. setoid_rewrite map_lookup_filter_None. cbn. split.
    - intros Hall k v Hk. destruct (Hall k) as [Hn|Hn]; [congruence|]. apply dec_stable. by apply (Hn v).
    - intros Hall k. right. intros v Hk Hne. apply Hne. by apply Hall. }
  split_and!.
  - done.
  - rewrite <- Hp. unfold item_patch. fold old. case_decide; by split.
  - rewrite Hm. unfold shouldPatchLabel. apply map_empty. intros k. apply map_lookup_filter_None. right. intros v Hk Hne.
    apply Hne. cbn. rewrite lookup_union_Some_raw. by left.
  - intros Hc. unfold item_patch. rewrite decide_True; [done|]. apply Hp. unfold S, getShardingLabel, getSyncLabels.
    rewrite Hc. cbn. apply map_empty_subseteq.
  - done.
Qed.

(** ** The retry loop *)

Lemma retry_from fuel get cnt i :
  Z.to_nat cnt ≤ fuel + i → 0 < fuel →
  ∃ err n, getNamespaceWithRetry fuel get cnt i = Some (err, n) ∧ i < n ≤ Nat.max (S i) (Z.to_nat cnt) ∧
    err = get (pred n) ∧ (∀ j, i ≤ j < pred n → is_Some (get j)) ∧
    (err = None ∨ n = Nat.max (S i) (Z.to_nat cnt)).
Proof.
  revert i. induction fuel as [|fuel IH]; intros i Hf Hpos; [lia|]. cbn [getNamespaceWithRetry].
  destruct (get i) as [e|] eqn:Hg.
  - destruct (cnt - 1 <=? Z.of_nat i)%Z eqn:Hc.
    + apply Z.leb_le in Hc. exists (Some e), (S i). split_and!; [done|lia|lia|done|lia|right; lia].
    + apply Z.leb_gt in Hc. destruct (IH (S i)) as (err & n & -> & Hn & He & Hall & Hlast); [lia|lia|].
      exists err, n. split_and!; [done|lia|lia|done| |].
      * intros j Hj. destruct (decide (j = i)) as [->|]; [by eexists|]. apply Hall. lia.
      * destruct Hlast as [?|?]; [by left|right; lia].
  - exists None, (S i). split_and!; [done|lia|lia|done|lia|by left].
Qed.

(** The retry loop of the webhook ends.  For every count and every
    sequence of answers it makes between one attempt and the count (one when
    the count is not positive), stops at the first success with no error, and
    otherwise returns the error of the last attempt. *)
Theorem getNamespaceWithRetry_terminates get cnt :
  ∃ err n, getNamespaceWithRetry (S (Z.to_nat cnt)) get cnt 0 = Some (err, n) ∧
    1 ≤ n ≤ Nat.max 1 (Z.to_nat cnt) ∧ err = get (pred n) ∧
    (∀ j, j < pred n → is_Some (get j)) ∧ (err = None ∨ n = Nat.max 1 (Z.to_nat cnt)).
Proof.
  destruct (retry_from (S (Z.to_nat cnt)) get cnt 0) as (err & n & Hr & Hn & He & Hall & Hlast); [lia|lia|].
  exists err, n. split_and!; [done|lia|lia|done| |done]. intros j Hj. apply Hall. lia.
Qed.

(** The webhook of objects never reaches the branches that do not happen. *)
Lemma namespace_labels_total `{ResourceApi} :
  namespace_labels ≠ Err "does not happen" ∨ ∃ i, cached_attempt i = Some "does not happen" ∨ direct_ns = Some (Err "does not happen").
Proof.
  unfold namespace_labels. destruct (retry_from 5 cached_attempt 5 0) as (err & n & -> & Hn & He & _); [lia|lia|].
  destruct err as [e|].
  - destruct (cached_ns (pred n)) as [[l|]|e'] eqn:Hc; [| |].
    + left. unfold cached_attempt in He. by rewrite Hc in He.
    + destruct direct_ns as [[l|e']|] eqn:Hd; [by left| |].
      * destruct (decide (e' = "does not happen")) as [->|]; [right; exists 0; by right|left; congruence].
      * left. unfold cached_attempt in He. rewrite Hc in He. injection He as ->. done.
    + destruct (decide (e = "does not happen")) as [->|]; [right; exists (pred n); by left|left; congruence].
  - unfold cached_attempt in He. destruct (cached_ns (pred n)) as [[l|]|e']; [by left|done|done].
Qed.

(** ** From the namespace to the shard *)

(** C26. Every object of a labelled namespace belongs to one shard.  Take a
    namespace the webhook has labelled, controlled by the mesh, and an object
    in it after the task has patched it; when a limit of the root of an
    automatic sharding selects the object (and the root fits the conditions of
    the partition: see [objects_partition]), the sharding generates children
    of which exactly one selects the object by that limit. *)
Theorem labelled_objects_routed `{Hashes} ns u ns' item root r a c j l :
  shouldUpdateNs ns = Returns (u, ns') → IsControlledByMesh (n_Labels ns') = true →
  let ls := merge_patch (it_Labels item) (shouldPatchLabel (it_Labels item) (getShardingLabel (n_Labels ns'))) in
  sc_Root root = Some r → Auto r = Some a → Canary r = Some c →
  (1 ≤ ShardingSize a ≤ 1024)%Z → InNamespaces c = [] ∨ InShardHash c = [] →
  (has_canary c = true → (0 < canary_replicas c)%Z) →
  ResourceSelector r !! j = Some l → selects (default emptySelector (ol_Selector l)) ls →
  ls !! NamespaceShardLabel = Some (n_Name ns) ∧
  ∃ cs root', getChild root = Returns (cs, root') ∧
    ∃ cfg, (cfg ∈ cs ∧ limit_selects cfg j ls) ∧ ∀ cfg', cfg' ∈ cs → limit_selects cfg' j ls → cfg' = cfg.
Proof.
  intros Hu Hc ls Hr Ha Hcan Hsize Hone Hpos Hj Hsel.
  destruct (nsHash_range (n_Name ns)) as (h & Hb & Hh).
  destruct (shouldUpdateNs_labels ns (Itoa h) Hh) as (u' & Hu' & _). rewrite Hu' in Hu. injection Hu as <- <-.
  destruct (target_lookups ns (Itoa h)) as (Hs & Hn & _). cbn [n_Labels with_ns_labels] in *.
  destruct (synced_labels (target_labels ns (Itoa h)) (it_Labels item)) as [_ Hk].
  split; [rewrite <- Hn; apply Hk; [done|set_solver|by eexists]|].
  apply (objects_exactly_one root r a c j l ls h); try done.
  rewrite <- Hs. apply Hk; [done|set_solver|by eexists].
Qed.

(** ** Examples *)

Section examples.
#[local] Existing Instance demo_hashes.

Definition demo_namespace : Namespace := mkNamespace "team-a" ∅ false.
Definition demo_item : Item := mkItem "Pod" "team-a" "p" {["app" := "x"]}.
Definition demo_labelled : Namespace := with_ns_labels (target_labels demo_namespace "21") demo_namespace.

Lemma labelled_objects_routed_witness :
  ∃ cs root', getChild (demo_root "ns" 3 ["a"] [] None) = Returns (cs, root') ∧
    ∃ cfg, (cfg ∈ cs ∧ limit_selects cfg 0 (merge_patch (it_Labels demo_item)
        (shouldPatchLabel (it_Labels demo_item) (getShardingLabel (n_Labels demo_labelled))))) ∧
      ∀ cfg', cfg' ∈ cs → limit_selects cfg' 0 (merge_patch (it_Labels demo_item)
        (shouldPatchLabel (it_Labels demo_item) (getShardingLabel (n_Labels demo_labelled)))) → cfg' = cfg.
Proof.
  apply (labelled_objects_routed demo_namespace true demo_labelled demo_item
           (demo_root "ns" 3 ["a"] [] None) (demo_root_spec 3 ["a"] []) (mkAutoConfig 3 3) (demo_canary ["a"] []) 0
           (mkObjectLimiter [] None)).
  - vm_compute. reflexivity.
  - reflexivity.
  - reflexivity.
  - reflexivity.
  - reflexivity.
  - simpl. lia.
  - by right.
  - done.
  - reflexivity.
  - split; [apply map_empty_subseteq|constructor].
Defined.

Lemma Hash_bounds_witness : ∃ h, Hash "team-a" 32 = Returns h ∧ h = hash_spec 32 (runes "team-a") ∧ (0 ≤ h < 32)%Z.
Proof. apply (Hash_bounds "team-a" 32). lia. Defined.
End examples.
