(* ===== verification/LabelTask.v ===== *)
(** * The task that patches labels, with its goroutines

    PatchRunnable.Start, getAllResources, getResourceInNamespace and patch of
    src/pkg/manager/controllers/patchrunnable/labelpatch_runnable.go after the
    namespaces are labelled: goroutines list the objects of the namespaces and
    send patches through a bounded channel to the workers.  What is sent for
    one kind is the model of [Labels]; here the goroutines, the semaphores, the
    channel and its closing are a step relation. *)

From S2P Require Import Prelude GoStrings Sharding Labels.

(** A patch of the labels of an object. *)
Abbreviation work := (Item * gmap string string)%type.
Definition key_of (item : Item) : string * string * string := (it_Kind item, it_Namespace item, it_Name item).

(** ** Calls that are repeated while the server has too many requests *)

(** [RetryOnToManyRequests]: an error says whether it is that one; the last is
    returned when the steps are used up. *)
Fixpoint RetryOnToManyRequests {A : Type} (steps : nat) (fn : nat → (bool * string) + A) (i : nat) : string + A :=
  match steps with
  | 0 => inl "timed out waiting for the condition"
  | S steps =>
      match fn i with
      | inr a => inr a
      | inl (true, e) => if decide (steps = 0) then inl e else RetryOnToManyRequests steps fn (S i)
      | inl (false, e) => inl e
      end
  end.

Definition default429Steps : nat := 50.
Definition patchWorkerSize : nat := 10.
Definition listWorkerSize : nat := 2.
Definition patchItemCacheSize : nat := 200.
(** The goroutines of namespaces that run at a time. *)
Definition namespaceWorkerSize : nat := 10.

(** The API server, by attempt. *)
Class TaskApi := {
  list_call (namespace gvk : string) (attempt : nat) : (bool * string) + list Item;
  patch_call (w : work) (attempt : nat) : (bool * string) + unit;
}.

Section task.
Context `{TaskApi} (groupVersionKinds : list string).

Definition list_items (namespace gvk : string) : result (list Item) :=
  match RetryOnToManyRequests default429Steps (list_call namespace gvk) 0 with inl e => Err e | inr l => Ok l end.
Definition patch (w : work) : option string :=
  match RetryOnToManyRequests default429Steps (patch_call w) 0 with inl e => Some e | inr _ => None end.

(** ** The state *)

(** The goroutine of a kind, before its list and while it sends. *)
Inductive lister := Starting (gvk : string) | Sending (ws : list work).
(** The goroutine of a namespace: the kinds it has not started. *)
Record job := mkJob { j_ns : Namespace; j_kinds : list string; j_listers : list lister }.
Inductive worker := Idle | Busy (w : work) | Exited.

Record task := mkTask {
  t_waiting : list Namespace; t_jobs : list job; t_invalid : gset string;
  t_queue : list work; t_closed : bool; t_panicked : bool;
  t_workers : list worker; t_objects : gmap (string * string * string) (gmap string string);
}.

Definition with_jobs (js : list job) (s : task) : task :=
  mkTask (t_waiting s) js (t_invalid s) (t_queue s) (t_closed s) (t_panicked s) (t_workers s) (t_objects s).
Definition with_workers (ws : list worker) (s : task) : task :=
  mkTask (t_waiting s) (t_jobs s) (t_invalid s) (t_queue s) (t_closed s) (t_panicked s) ws (t_objects s).

(** [setInvalid] after a list that finds no such kind. *)
Definition listed (ns : Namespace) (gvk : string) (invalid : gset string) : list work * gset string :=
  collect_kind (list_items (n_Name ns)) (getShardingLabel (n_Labels ns)) ([], invalid) gvk.

(** The effect of a worker's call. *)
Definition apply_patch (w : work) (objs : gmap (string * string * string) (gmap string string))
    : gmap (string * string * string) (gmap string string) :=
  match patch w with
  | Some _ => objs
  | None => alter (λ old, merge_patch old w.2) (key_of w.1) objs
  end.

(** ** The steps

    [tstep] are the steps of the goroutines, [run_step] the steps of the task:
    its context may be cancelled at any time, and then a worker's select may
    choose to leave, and a patch, which is called with the context, may fail.
    The goroutines that list and send do not look at the context. *)

Inductive tstep : task → task → Prop :=
| start_namespace s ns rest :
    t_waiting s = ns :: rest → (length (t_jobs s) < namespaceWorkerSize)%nat →
    tstep s (mkTask rest (t_jobs s ++ [mkJob ns groupVersionKinds []]) (t_invalid s) (t_queue s) (t_closed s) (t_panicked s)
      (t_workers s) (t_objects s))
| start_kind s i ns gvk kinds ls :
    t_jobs s !! i = Some (mkJob ns (gvk :: kinds) ls) → (length ls < listWorkerSize)%nat →
    tstep s (with_jobs (<[i := mkJob ns kinds (ls ++ [Starting gvk])]> (t_jobs s)) s)
| list_kind s i ns kinds ls j gvk :
    t_jobs s !! i = Some (mkJob ns kinds ls) → ls !! j = Some (Starting gvk) →
    tstep s (mkTask (t_waiting s) (<[i := mkJob ns kinds (<[j := Sending (listed ns gvk (t_invalid s)).1]> ls)]> (t_jobs s))
      (listed ns gvk (t_invalid s)).2 (t_queue s) (t_closed s) (t_panicked s) (t_workers s) (t_objects s))
(** A send to a closed channel panics. *)
| send_item s i ns kinds ls j w ws :
    t_jobs s !! i = Some (mkJob ns kinds ls) → ls !! j = Some (Sending (w :: ws)) →
    (length (t_queue s) < patchItemCacheSize)%nat →
    tstep s (mkTask (t_waiting s) (<[i := mkJob ns kinds (<[j := Sending ws]> ls)]> (t_jobs s)) (t_invalid s) (t_queue s ++ [w])
      (t_closed s) (t_panicked s || t_closed s) (t_workers s) (t_objects s))
| kind_done s i ns kinds ls j :
    t_jobs s !! i = Some (mkJob ns kinds ls) → ls !! j = Some (Sending []) →
    tstep s (with_jobs (<[i := mkJob ns kinds (delete j ls)]> (t_jobs s)) s)
| namespace_done s i ns :
    t_jobs s !! i = Some (mkJob ns [] []) → tstep s (with_jobs (delete i (t_jobs s)) s)
(** All goroutines are waited for; then the channel is looked at until it is empty. *)
| close_channel s :
    t_waiting s = [] → t_jobs s = [] → t_queue s = [] → t_closed s = false →
    tstep s (mkTask [] [] (t_invalid s) [] true (t_panicked s) (t_workers s) (t_objects s))
| receive s k w q :
    t_workers s !! k = Some Idle → t_queue s = w :: q →
    tstep s (mkTask (t_waiting s) (t_jobs s) (t_invalid s) q (t_closed s) (t_panicked s) (<[k := Busy w]> (t_workers s)) (t_objects s))
| patched s k w :
    t_workers s !! k = Some (Busy w) →
    tstep s (mkTask (t_waiting s) (t_jobs s) (t_invalid s) (t_queue s) (t_closed s) (t_panicked s) (<[k := Idle]> (t_workers s))
      (apply_patch w (t_objects s)))
| worker_exits s k :
    t_workers s !! k = Some Idle → t_queue s = [] → t_closed s = true →
    tstep s (with_workers (<[k := Exited]> (t_workers s)) s).

(** The task with whether its context is cancelled. *)
Inductive run_step : task * bool → task * bool → Prop :=
| go s s' cancelled : tstep s s' → run_step (s, cancelled) (s', cancelled)
| cancel s : run_step (s, false) (s, true)
| worker_leaves s k :
    t_workers s !! k = Some Idle → run_step (s, true) (with_workers (<[k := Exited]> (t_workers s)) s, true)
| patch_cancelled s k w :
    t_workers s !! k = Some (Busy w) → run_step (s, true) (with_workers (<[k := Idle]> (t_workers s)) s, true).

Definition start (namespaces : list Namespace) (objs : gmap (string * string * string) (gmap string string)) : task :=
  mkTask namespaces [] ∅ [] false false (replicate patchWorkerSize Idle) objs.

Definition finished (s : task) : Prop :=
  t_waiting s = [] ∧ t_jobs s = [] ∧ t_queue s = [] ∧ t_closed s = true ∧ Forall (λ w, w = Exited) (t_workers s).
End task.

(** ** Safety *)

Section proofs.
Context `{TaskApi} (gvks : list string).

Record task_wf (s : task) : Prop := {
  wf_queue : (length (t_queue s) ≤ patchItemCacheSize)%nat;
  wf_jobs : (length (t_jobs s) ≤ namespaceWorkerSize)%nat;
  wf_listers : Forall (λ j, (length (j_listers j) ≤ listWorkerSize)%nat) (t_jobs s);
  wf_closed : t_closed s = true → t_waiting s = [] ∧ t_jobs s = [] ∧ t_queue s = [];
  wf_panicked : t_panicked s = false;
}.
(** Without a cancellation no worker leaves before the channel is closed. *)
Definition none_left (s : task) : Prop := t_closed s = false → Forall (λ w, w ≠ Exited) (t_workers s).

Lemma start_wf namespaces objs : task_wf (start namespaces objs).
Proof. split; unfold patchItemCacheSize, namespaceWorkerSize; simpl; try done; lia. Qed.

Lemma jobs_not_closed s i j : task_wf s → t_jobs s !! i = Some j → t_closed s = false.
Proof. intros Hwf Hi. destruct (t_closed s) eqn:Hc; [|done]. destruct (wf_closed s Hwf Hc) as (_ & Hj & _). by rewrite Hj in Hi. Qed.

Lemma job_listers s i ns kinds ls : task_wf s → t_jobs s !! i = Some (mkJob ns kinds ls) → (length ls ≤ listWorkerSize)%nat.
Proof. intros Hwf Hi. by apply (Forall_lookup_1 _ _ _ _ (wf_listers s Hwf) Hi). Qed.

(** A change of one goroutine of a namespace. *)
Lemma job_wf s i j' q :
  task_wf s → is_Some (t_jobs s !! i) → (length (j_listers j') ≤ listWorkerSize)%nat → (length q ≤ patchItemCacheSize)%nat →
  ∀ inv, task_wf (mkTask (t_waiting s) (<[i := j']> (t_jobs s)) inv q (t_closed s) (t_panicked s || t_closed s) (t_workers s) (t_objects s)).
Proof.
  intros Hwf [j Hi] Hl Hq inv. pose proof (jobs_not_closed s i j Hwf Hi) as Hc. split; simpl; rewrite ?length_insert, ?Hc.
  - done.
  - by apply wf_jobs.
  - apply Forall_insert; [by apply wf_listers|done].
  - done.
  - by rewrite (wf_panicked s Hwf).
Qed.

Lemma job_step_eq s js inv :
  t_closed s = false → mkTask (t_waiting s) js inv (t_queue s) (t_closed s) (t_panicked s) (t_workers s) (t_objects s) =
    mkTask (t_waiting s) js inv (t_queue s) (t_closed s) (t_panicked s || t_closed s) (t_workers s) (t_objects s).
Proof. intros ->. by rewrite orb_false_r. Qed.

Lemma tstep_wf s s' : tstep gvks s s' → task_wf s → task_wf s'.
Proof.
  intros Hst Hwf. destruct Hst as [s ns rest Hw Hl|s i ns gvk kinds ls Hi Hl|s i ns kinds ls j gvk Hi Hj|s i ns kinds ls j w ws Hi Hj Hq
    |s i ns kinds ls j Hi Hj|s i ns Hi|s Hw Hjs Hq Hc|s k w q Hk Hq|s k w Hk|s k Hk Hq Hc].
  - assert (Hc : t_closed s = false).
    { destruct (t_closed s) eqn:Hc; [|done]. destruct (wf_closed s Hwf Hc) as (Hn & _). congruence. }
    split; simpl; try apply Hwf; try congruence.
    + rewrite length_app. simpl. unfold namespaceWorkerSize in *. lia.
    + apply Forall_app. split; [by apply wf_listers|]. constructor; [simpl; lia|constructor].
  - unfold with_jobs. rewrite job_step_eq by by eapply jobs_not_closed. apply job_wf; [done|by eexists| |by apply wf_queue].
    simpl. rewrite length_app. simpl. lia.
  - rewrite job_step_eq by by eapply jobs_not_closed. apply job_wf; [done|by eexists| |by apply wf_queue].
    simpl. rewrite length_insert. by eapply job_listers.
  - apply job_wf; [done|by eexists| |]; simpl; [rewrite length_insert; by eapply job_listers|]. rewrite length_app. simpl. lia.
  - unfold with_jobs. rewrite job_step_eq by by eapply jobs_not_closed. apply job_wf; [done|by eexists| |by apply wf_queue].
    simpl. rewrite length_delete by by eexists. pose proof (job_listers _ _ _ _ _ Hwf Hi). lia.
  - pose proof (jobs_not_closed s i _ Hwf Hi) as Hc. split; simpl; try apply Hwf; try congruence.
    + rewrite length_delete by by eexists. pose proof (wf_jobs s Hwf). lia.
    + by apply Forall_delete, wf_listers.
  - split; simpl; try apply Hwf; try done; lia.
  - split; simpl; try apply Hwf.
    + pose proof (wf_queue s Hwf) as Hl. rewrite Hq in Hl. simpl in Hl. lia.
    + intros Hc. destruct (wf_closed s Hwf Hc) as (_ & _ & Hn). congruence.
  - split; simpl; apply Hwf.
  - split; simpl; apply Hwf.
Qed.

Lemma tstep_none_left s s' : tstep gvks s s' → none_left s → none_left s'.
Proof.
  unfold none_left. intros Hst Hn. destruct Hst; simpl in *; try done; try congruence;
    intros Hc; apply Forall_insert; auto; done.
Qed.

Lemma with_workers_wf s ws : task_wf s → task_wf (with_workers ws s).
Proof. intros Hwf. split; simpl; apply Hwf. Qed.

(** ** Progress *)

Lemma lister_step s i ns kinds l ls :
  t_jobs s !! i = Some (mkJob ns kinds (l :: ls)) → (length (t_queue s) < patchItemCacheSize)%nat → ∃ s', tstep gvks s s'.
Proof.
  intros Hi Hq. destruct l as [gvk|[|w ws]].
  - eexists. by apply (list_kind gvks s i ns kinds (Starting gvk :: ls) 0 gvk).
  - eexists. by apply (kind_done gvks s i ns kinds (Sending [] :: ls) 0).
  - eexists. by apply (send_item gvks s i ns kinds (Sending (w :: ws) :: ls) 0 w ws).
Qed.

Lemma job_step s i j : t_jobs s !! i = Some j → (length (t_queue s) < patchItemCacheSize)%nat → ∃ s', tstep gvks s s'.
Proof.
  destruct j as [ns kinds [|l ls]]; intros Hi Hq; [|by eapply lister_step].
  destruct kinds as [|gvk kinds]; eexists; [by eapply namespace_done|].
  eapply start_kind; [exact Hi|]. simpl. unfold listWorkerSize. lia.
Qed.

Definition is_busy (w : worker) : bool := match w with Busy _ => true | _ => false end.
Definition is_idle (w : worker) : bool := match w with Idle => true | _ => false end.

Lemma task_progress s : task_wf s → none_left s → t_workers s ≠ [] → finished s ∨ ∃ s', tstep gvks s s'.
Proof.
  intros Hwf Hleft Hne. destruct (decide (Exists (λ w, is_busy w = true) (t_workers s))) as [([| x|] & Hin & Hb)%Exists_exists|Hnb]; try done.
  { right. apply list_elem_of_lookup in Hin as [k Hk]. eexists. by eapply patched. }
  destruct (decide (Exists (λ w, is_idle w = true) (t_workers s))) as [([| |] & [k Hk]%list_elem_of_lookup & Hb)%Exists_exists|Hni]; try done.
  - destruct (t_queue s) as [|x q] eqn:Hq; [|right; eexists; by eapply receive].
    assert (Hq0 : (length (t_queue s) < patchItemCacheSize)%nat) by (rewrite Hq; unfold patchItemCacheSize; simpl; lia).
    right. destruct (t_jobs s) as [|j js] eqn:Hj; [|by apply (job_step s 0 j); [rewrite Hj|]].
    destruct (t_waiting s) as [|ns rest] eqn:Hw.
    + destruct (t_closed s) eqn:Hc; [eexists; by eapply worker_exits|eexists; by eapply close_channel].
    + eexists. eapply start_namespace; [done|]. rewrite Hj. simpl. unfold namespaceWorkerSize. lia.
  - assert (Hex : Forall (λ w, w = Exited) (t_workers s)).
    { apply Forall_forall. intros [|x|] Hin; [destruct Hni|destruct Hnb|done]; apply Exists_exists; by eexists. }
    left. destruct (t_closed s) eqn:Hc.
    + destruct (wf_closed s Hwf Hc) as (? & ? & ?). done.
    + pose proof (Hleft Hc) as Hno. destruct (t_workers s) as [|w ws]; [done|].
      inversion Hno as [|? ? Hw _]; subst. inversion Hex; subst. done.
Qed.

(** ** Termination *)

Lemma sum_insert {A : Type} (f : A → nat) (l : list A) i x y :
  l !! i = Some x → (sum_list_with f (<[i := y]> l) + f x = sum_list_with f l + f y)%nat.
Proof.
  revert i. induction l as [|z l IH]; intros [|i]; simpl; [done..|by intros [= ->]; lia|]. intros Hi. specialize (IH i Hi). lia.
Qed.
Lemma sum_delete {A : Type} (f : A → nat) (l : list A) i x :
  l !! i = Some x → (sum_list_with f (delete i l) + f x = sum_list_with f l)%nat.
Proof.
  revert i. induction l as [|z l IH]; intros [|i]; simpl; [done..|by intros [= ->]; lia|]. intros Hi. specialize (IH i Hi). lia.
Qed.

(** The steps each part is still good for. *)
Definition items_of (ns : Namespace) (gvk : string) : nat := length (listed ns gvk ∅).1.
Definition m_kind (ns : Namespace) (gvk : string) : nat := 3 + 3 * items_of ns gvk.
Definition m_lister (ns : Namespace) (l : lister) : nat :=
  match l with Starting gvk => 2 + 3 * items_of ns gvk | Sending ws => 1 + 3 * length ws end.
Definition m_job (j : job) : nat := 1 + sum_list_with (m_kind (j_ns j)) (j_kinds j) + sum_list_with (m_lister (j_ns j)) (j_listers j).
Lemma m_job_eq ns kinds ls :
  m_job (mkJob ns kinds ls) = 1 + sum_list_with (m_kind ns) kinds + sum_list_with (m_lister ns) ls.
Proof. done. Qed.
Definition m_namespace (ns : Namespace) : nat := 2 + sum_list_with (m_kind ns) gvks.
Definition m_worker (w : worker) : nat := match w with Idle => 1 | Busy _ => 2 | Exited => 0 end.
Definition measure (s : task) : nat :=
  sum_list_with m_namespace (t_waiting s) + sum_list_with m_job (t_jobs s) + 2 * length (t_queue s) +
  (if t_closed s then 0 else 1) + sum_list_with m_worker (t_workers s).

(** A kind found invalid yields nothing, any other the same whatever is invalid. *)
Lemma listed_cases ns gvk inv : (listed ns gvk inv).1 = [] ∨ (listed ns gvk inv).1 = (listed ns gvk ∅).1.
Proof.
  unfold listed, collect_kind. destruct (decide (gvk ∈ inv)); [by left|right]. rewrite decide_False by set_solver.
  destruct (list_items _ _) as [[|first items]|]; [done| |done]. by case_decide.
Qed.

Lemma listed_le ns gvk inv : (length (listed ns gvk inv).1 ≤ items_of ns gvk)%nat.
Proof. unfold items_of. destruct (listed_cases ns gvk inv) as [->| ->]; simpl; lia. Qed.

Lemma tstep_measure s s' : tstep gvks s s' → (measure s' < measure s)%nat.
Proof.
  intros Hst. destruct Hst as [s ns rest Hw Hl|s i ns gvk kinds ls Hi Hl|s i ns kinds ls j gvk Hi Hj|s i ns kinds ls j w ws Hi Hj Hq
    |s i ns kinds ls j Hi Hj|s i ns Hi|s Hw Hjs Hq Hc|s k w q Hk Hq|s k w Hk|s k Hk Hq Hc]; unfold measure; simpl.
  - rewrite Hw, sum_list_with_app. simpl. unfold m_namespace, m_job. simpl. lia.
  - pose proof (sum_insert m_job _ _ _ (mkJob ns kinds (ls ++ [Starting gvk])) Hi) as Hs.
    rewrite !m_job_eq in Hs. simpl in Hs. rewrite sum_list_with_app in Hs. simpl in Hs. lia.
  - pose proof (listed_le ns gvk (t_invalid s)) as Hle. revert Hle. generalize (listed ns gvk (t_invalid s)).1 as ws. intros ws Hle.
    pose proof (sum_insert m_job _ _ _ (mkJob ns kinds (<[j := Sending ws]> ls)) Hi) as Hs.
    pose proof (sum_insert (m_lister ns) _ _ _ (Sending ws) Hj) as Hs'.
    rewrite !m_job_eq in Hs. simpl in Hs'. lia.
  - pose proof (sum_insert m_job _ _ _ (mkJob ns kinds (<[j := Sending ws]> ls)) Hi) as Hs.
    pose proof (sum_insert (m_lister ns) _ _ _ (Sending ws) Hj) as Hs'.
    rewrite !m_job_eq in Hs. simpl in Hs'. rewrite length_app. simpl. lia.
  - pose proof (sum_insert m_job _ _ _ (mkJob ns kinds (delete j ls)) Hi) as Hs.
    pose proof (sum_delete (m_lister ns) _ _ _ Hj) as Hs'.
    rewrite !m_job_eq in Hs. simpl in Hs'. lia.
  - pose proof (sum_delete m_job _ _ _ Hi) as Hs. rewrite m_job_eq in Hs. simpl in Hs. lia.
  - rewrite Hw, Hjs, Hq, Hc. simpl. lia.
  - rewrite Hq. pose proof (sum_insert m_worker _ _ _ (Busy w) Hk) as Hs. simpl in *. lia.
  - pose proof (sum_insert m_worker _ _ _ Idle Hk) as Hs. simpl in *. lia.
  - pose proof (sum_insert m_worker _ _ _ Exited Hk) as Hs. simpl in *. lia.
Qed.

(** ** What is patched *)

Lemma bind_insert {A B : Type} (f : A → list B) (l : list A) i x :
  l !! i = Some x → ∃ rest, l ≫= f ≡ₚ f x ++ rest ∧ delete i l ≫= f ≡ₚ rest ∧ ∀ y, <[i := y]> l ≫= f ≡ₚ f y ++ rest.
Proof.
  revert i. induction l as [|z l IH]; intros [|i]; simpl; [done..| |].
  - intros [= ->]. exists (l ≫= f). by repeat split.
  - intros Hi. destruct (IH i Hi) as (rest & H1 & H2 & H3). exists (f z ++ rest). split; [|split].
    + rewrite H1. solve_Permutation.
    + by rewrite H2.
    + intros y. rewrite H3. solve_Permutation.
Qed.

Context (Hlist : ∀ ns gvk, ∃ l, list_items ns gvk = Ok l).

Definition collected (ns : Namespace) (gvk : string) : list work := (listed ns gvk ∅).1.
Definition lister_works (ns : Namespace) (l : lister) : list work :=
  match l with Starting gvk => collected ns gvk | Sending ws => ws end.
Definition job_works (j : job) : list work :=
  (j_kinds j ≫= collected (j_ns j)) ++ (j_listers j ≫= lister_works (j_ns j)).
Definition namespace_works (ns : Namespace) : list work := gvks ≫= collected ns.
Definition worker_works (w : worker) : list work := match w with Busy w => [w] | _ => [] end.
(** The patches that are still to be made. *)
Definition open_works (s : task) : list work :=
  (t_waiting s ≫= namespace_works) ++ (t_jobs s ≫= job_works) ++ t_queue s ++ (t_workers s ≫= worker_works).

Lemma listed_valid ns gvk : listed ns gvk ∅ = (collected ns gvk, ∅).
Proof.
  unfold collected, listed, collect_kind. rewrite decide_False by set_solver. destruct (Hlist (n_Name ns) gvk) as [l ->].
  destruct l as [|first items]; [done|]. by case_decide.
Qed.

Definition apply_all (ws : list work) (objs : gmap (string * string * string) (gmap string string)) :
    gmap (string * string * string) (gmap string string) := fold_left (λ o w, apply_patch w o) ws objs.

(** The patches that have been made and the open ones are those of the start. *)
Definition accounted (all : list work) (objs : gmap (string * string * string) (gmap string string)) (s : task) : Prop :=
  t_invalid s = ∅ ∧ ∃ ws, ws ++ open_works s ≡ₚ all ∧ t_objects s = apply_all ws objs.

Lemma accounted_same all objs s s' :
  accounted all objs s → t_invalid s' = ∅ → open_works s' ≡ₚ open_works s → t_objects s' = t_objects s → accounted all objs s'.
Proof. intros (_ & ws & Hp & Ho) Hi Hw Hobj. split; [done|]. exists ws. by rewrite Hw, Hobj. Qed.

Lemma job_change s i ns kinds ls kinds' ls' inv :
  t_jobs s !! i = Some (mkJob ns kinds ls) → job_works (mkJob ns kinds' ls') ≡ₚ job_works (mkJob ns kinds ls) →
  open_works (mkTask (t_waiting s) (<[i := mkJob ns kinds' ls']> (t_jobs s)) inv (t_queue s) (t_closed s) (t_panicked s)
    (t_workers s) (t_objects s)) ≡ₚ open_works s.
Proof.
  intros Hi Hw. destruct (bind_insert job_works _ _ _ Hi) as (rest & H1 & _ & H3). unfold open_works. simpl.
  by rewrite H1, H3, Hw.
Qed.

Lemma tstep_accounted all objs s s' : tstep gvks s s' → accounted all objs s → accounted all objs s'.
Proof.
  intros Hst Ha. pose proof Ha as (Hinv & ws0 & Hp & Ho).
  destruct Hst as [s ns rest Hw Hl|s i ns gvk kinds ls Hi Hl|s i ns kinds ls j gvk Hi Hj|s i ns kinds ls j w ws Hi Hj Hq
    |s i ns kinds ls j Hi Hj|s i ns Hi|s Hw Hjs Hq Hc|s k w q Hk Hq|s k w Hk|s k Hk Hq Hc].
  - apply (accounted_same _ _ s); [done..| |done]. unfold open_works. simpl. rewrite Hw, bind_app. simpl.
    unfold job_works at 2. simpl. unfold namespace_works at 3. rewrite !app_nil_r. solve_Permutation.
  - apply (accounted_same _ _ s); [done..| |done]. eapply job_change; [done|]. unfold job_works. simpl. rewrite bind_app. simpl.
    rewrite app_nil_r. solve_Permutation.
  - rewrite Hinv, listed_valid in *. apply (accounted_same _ _ s); [done..| |done]. eapply job_change; [done|].
    destruct (bind_insert (lister_works ns) _ _ _ Hj) as (r & H1 & _ & H3). unfold job_works. simpl. by rewrite H1, H3.
  - apply (accounted_same _ _ s); [done..| |done].
    destruct (bind_insert (lister_works ns) _ _ _ Hj) as (r & H1 & _ & H3).
    destruct (bind_insert job_works _ _ _ Hi) as (rest & H4 & _ & H6). unfold open_works. simpl. rewrite H4, H6.
    unfold job_works. simpl. rewrite H1, H3. simpl. solve_Permutation.
  - apply (accounted_same _ _ s); [done..| |done]. eapply job_change; [done|].
    destruct (bind_insert (lister_works ns) _ _ _ Hj) as (r & H1 & H2 & _). unfold job_works. simpl. by rewrite H1, H2.
  - apply (accounted_same _ _ s); [done..| |done].
    destruct (bind_insert job_works _ _ _ Hi) as (rest & H4 & H5 & _). unfold open_works. simpl. by rewrite H4, H5.
  - apply (accounted_same _ _ s); [done..| |done]. unfold open_works. simpl. by rewrite Hw, Hjs, Hq.
  - apply (accounted_same _ _ s); [done..| |done].
    destruct (bind_insert worker_works _ _ _ Hk) as (rest & H4 & _ & H6). unfold open_works. simpl. rewrite Hq, H4, H6. simpl.
    solve_Permutation.
  - split; [done|]. exists (ws0 ++ [w]). destruct (bind_insert worker_works _ _ _ Hk) as (rest & H4 & _ & H6). split.
    + rewrite <- Hp. unfold open_works. simpl. rewrite H4, H6. simpl. solve_Permutation.
    + simpl. rewrite Ho. unfold apply_all. by rewrite fold_left_app.
  - apply (accounted_same _ _ s); [done..| |done].
    destruct (bind_insert worker_works _ _ _ Hk) as (rest & H4 & _ & H6). unfold open_works. simpl. by rewrite H4, H6.
Qed.

(** ** The labels at the end *)

Section key.
Context (k : string * string * string) (p old : gmap string string).
Definition patches_key (ws : list work) : Prop := ∀ w, w ∈ ws → key_of w.1 = k → w.2 = p ∧ patch w = None.

Lemma apply_other w objs : key_of w.1 ≠ k → apply_patch w objs !! k = objs !! k.
Proof. intros Hk. unfold apply_patch. destruct (patch w); [done|]. by rewrite lookup_alter_ne. Qed.

Lemma apply_same w objs x : key_of w.1 = k → w.2 = p → patch w = None → objs !! k = Some x → apply_patch w objs !! k = Some (p ∪ x).
Proof. intros <- <- Hok Hx. unfold apply_patch. rewrite Hok, lookup_alter_eq, Hx. done. Qed.

Lemma apply_all_other ws objs : (∀ w, w ∈ ws → key_of w.1 ≠ k) → apply_all ws objs !! k = objs !! k.
Proof.
  revert objs. induction ws as [|w ws IH]; intros objs Hno; [done|]. simpl. unfold apply_all in *. rewrite IH by set_solver.
  apply apply_other. apply Hno. by left.
Qed.

Lemma apply_all_stays ws objs : patches_key ws → objs !! k = Some (p ∪ old) → apply_all ws objs !! k = Some (p ∪ old).
Proof.
  revert objs. induction ws as [|w ws IH]; intros objs Hp Ho; [done|]. simpl. unfold apply_all in *. apply IH; [intros x Hx; apply Hp; by right|].
  destruct (decide (key_of w.1 = k)) as [Hk|Hk]; [|by rewrite apply_other].
  destruct (Hp w) as [Hw Hok]; [by left|done|]. rewrite (apply_same w objs (p ∪ old)) by done.
  f_equal. rewrite (assoc_L (∪)). by rewrite (idemp_L (∪)).
Qed.

Lemma apply_all_hit ws objs :
  patches_key ws → (∃ w, w ∈ ws ∧ key_of w.1 = k) → objs !! k = Some old → apply_all ws objs !! k = Some (p ∪ old).
Proof.
  revert objs. induction ws as [|w ws IH]; intros objs Hp [x [Hx Hk]] Ho; [by apply elem_of_nil in Hx|].
  assert (Hp' : patches_key ws) by (intros y Hy; apply Hp; by right). unfold apply_all in *. simpl.
  destruct (decide (key_of w.1 = k)) as [Hw|Hw].
  - destruct (Hp w) as [Hw2 Hok]; [by left|done|]. apply apply_all_stays; [done|]. by apply apply_same.
  - apply IH; [done| |by rewrite apply_other]. exists x. split; [|done]. apply elem_of_cons in Hx as [->|?]; done.
Qed.
End key.

Context (namespaces : list Namespace) (objs : gmap (string * string * string) (gmap string string)).
(** The lists give the objects of their namespace as they are at the start, and
    the patches are made. *)
Definition lists_agree : Prop :=
  NoDup (n_Name <$> namespaces) ∧ (EmptyString ∉ (n_Name <$> namespaces)) ∧
  (∀ ns gvk l item, list_items (n_Name ns) gvk = Ok l → item ∈ l →
     it_Namespace item = n_Name ns ∧ objs !! key_of item = Some (it_Labels item)) ∧
  ∀ w, patch w = None.

Definition all_works : list work := namespaces ≫= namespace_works.

Lemma elem_of_collected ns gvk l w :
  lists_agree → ns ∈ namespaces → list_items (n_Name ns) gvk = Ok l →
  (w ∈ collected ns gvk ↔ ∃ item, item ∈ l ∧ w ∈ item_patch (getShardingLabel (n_Labels ns)) item).
Proof.
  intros (_ & Hne & Hl & _) Hns Hlk. unfold collected, listed, collect_kind. rewrite decide_False by set_solver. rewrite Hlk.
  destruct l as [|first items]; [simpl; split; [by intros ?%elem_of_nil|by intros (? & ?%elem_of_nil & _)]|].
  rewrite decide_False; [|destruct (Hl ns gvk _ first Hlk) as [-> _]; [by left|]; intros He; apply Hne; rewrite <- He; by apply list_elem_of_fmap_2].
  cbn [fst]. rewrite app_nil_l, list_elem_of_bind. split; intros (x & ? & ?); by exists x.
Qed.

Lemma elem_of_item_patch S item w :
  w ∈ item_patch S item ↔ shouldPatchLabel (it_Labels item) S ≠ ∅ ∧ w = (item, shouldPatchLabel (it_Labels item) S).
Proof. unfold item_patch. case_decide; [split; [by intros ?%elem_of_nil|by intros [? _]]|]. rewrite list_elem_of_singleton. naive_solver. Qed.

Lemma works_of_key ns gvk l item w :
  lists_agree → ns ∈ namespaces → list_items (n_Name ns) gvk = Ok l → item ∈ l → w ∈ all_works → key_of w.1 = key_of item →
  w.2 = shouldPatchLabel (it_Labels item) (getShardingLabel (n_Labels ns)) ∧
  shouldPatchLabel (it_Labels item) (getShardingLabel (n_Labels ns)) ≠ ∅.
Proof.
  intros Ha Hns Hlk Hin Hw Hkey. pose proof Ha as (Hnd & _ & Hl & _).
  unfold all_works, namespace_works in Hw. apply list_elem_of_bind in Hw as (ns' & Hw & Hns').
  apply list_elem_of_bind in Hw as (gvk' & Hw & _). destruct (Hlist (n_Name ns') gvk') as [l' Hlk'].
  apply (elem_of_collected ns' gvk' l') in Hw as (item' & Hin' & Hw); [|done..]. apply elem_of_item_patch in Hw as [Hne ->]. simpl in *.
  destruct (Hl ns gvk l item Hlk Hin) as [Hn Ho], (Hl ns' gvk' l' item' Hlk' Hin') as [Hn' Ho'].
  rewrite Hkey in Ho'. assert (it_Labels item' = it_Labels item) as Hlab by congruence. rewrite Hlab in *.
  assert (n_Name ns' = n_Name ns) as Hnn by (unfold key_of in Hkey; congruence).
  assert (ns' = ns) as ->; [|done]. apply list_elem_of_lookup in Hns as [i Hi], Hns' as [i' Hi'].
  assert (i = i') as ->; [|congruence]. apply (NoDup_lookup _ i i' (n_Name ns) Hnd); rewrite list_lookup_fmap.
  - by rewrite Hi.
  - rewrite Hi'. simpl. by rewrite Hnn.
Qed.

Lemma labels_at_end ns gvk l item ws :
  lists_agree → ns ∈ namespaces → gvk ∈ gvks → list_items (n_Name ns) gvk = Ok l → item ∈ l → ws ≡ₚ all_works →
  apply_all ws objs !! key_of item = Some (getShardingLabel (n_Labels ns) ∪ it_Labels item).
Proof.
  intros Ha Hns Hg Hlk Hin Hp. pose proof Ha as (_ & _ & Hl & Hok). destruct (Hl ns gvk l item Hlk Hin) as [_ Ho].
  set (S := getShardingLabel (n_Labels ns)) in *. pose proof (proj1 (synced_labels (n_Labels ns) (it_Labels item))) as Hm.
  fold S in Hm. unfold merge_patch in Hm. rewrite <- Hm.
  destruct (decide (shouldPatchLabel (it_Labels item) S = ∅)) as [He|He].
  - rewrite He, (left_id_L ∅ (∪)), apply_all_other; [done|]. intros w Hw Hk. rewrite Hp in Hw.
    by destruct (works_of_key ns gvk l item w Ha Hns Hlk Hin Hw Hk) as [_ ?].
  - apply apply_all_hit; [| |done].
    + intros w Hw Hk. rewrite Hp in Hw. split; [|apply Hok]. by apply (works_of_key ns gvk l item w).
    + exists (item, shouldPatchLabel (it_Labels item) S). split; [|done]. rewrite Hp. unfold all_works, namespace_works.
      apply list_elem_of_bind. exists ns. split; [|done]. apply list_elem_of_bind. exists gvk. split; [|done].
      apply (elem_of_collected ns gvk l); [done..|]. exists item. split; [done|]. by apply elem_of_item_patch.
Qed.

Lemma task_reachable_accounted s : rtc (tstep gvks) (start namespaces objs) s → accounted all_works objs s.
Proof.
  apply (rtc_ind_r (accounted all_works objs)).
  - split; [done|]. exists []. split; [|done]. unfold open_works, start. simpl. by rewrite app_nil_r.
  - intros s1 s2 _ Hst Ha. by eapply tstep_accounted.
Qed.
End proofs.

(** Before a cancellation a run is one of the goroutines' steps. *)
Lemma run_uncancelled `{TaskApi} gvks x y : rtc (run_step gvks) x y → y.2 = false → x.2 = false ∧ rtc (tstep gvks) x.1 y.1.
Proof.
  induction 1 as [x|x x' y Hst _ IH]; intros Hy; [done|]. destruct (IH Hy) as [Hx Hr].
  destruct Hst; simpl in *; try done. split; [done|]. by eapply rtc_l.
Qed.

Lemma run_step_safe `{TaskApi} gvks x y : run_step gvks x y →
  (task_wf x.1 → task_wf y.1) ∧ length (t_workers y.1) = length (t_workers x.1) ∧
  (S (measure gvks y.1) ≤ measure gvks x.1 + (Nat.b2n y.2 - Nat.b2n x.2))%nat.
Proof.
  destruct 1 as [s s' c Hst|s|s k Hk|s k w Hk]; simpl.
  - split; [intros Hwf; by eapply tstep_wf|]. split; [destruct Hst; simpl; by rewrite ?length_insert|].
    apply tstep_measure in Hst. lia.
  - split; [done|]. split; [done|lia].
  - split; [apply with_workers_wf|]. split; [apply length_insert|]. unfold measure; simpl.
    pose proof (sum_insert m_worker _ k _ Exited Hk). simpl in *. lia.
  - split; [apply with_workers_wf|]. split; [apply length_insert|]. unfold measure; simpl.
    pose proof (sum_insert m_worker _ k _ Idle Hk). simpl in *. lia.
Qed.

Lemma run_safe `{TaskApi} gvks n x y : nsteps (run_step gvks) n x y → task_wf x.1 →
  task_wf y.1 ∧ length (t_workers y.1) = length (t_workers x.1) ∧
  (Nat.b2n x.2 ≤ Nat.b2n y.2)%nat ∧ (n + measure gvks y.1 ≤ measure gvks x.1 + (Nat.b2n y.2 - Nat.b2n x.2))%nat.
Proof.
  induction 1 as [x|n x z y Hst _ IH]; intros Hwf; [by split_and!; [..|lia]|].
  destruct (run_step_safe gvks x z Hst) as (Hwf' & Hl & Hm). destruct (IH (Hwf' Hwf)) as (Hy & Hly & Hc & Hmy).
  assert (Nat.b2n x.2 ≤ Nat.b2n z.2)%nat by (destruct Hst; simpl; lia). split_and!; [done|congruence|lia|lia].
Qed.

Lemma tstep_reachable `{TaskApi} gvks namespaces objs s :
  rtc (tstep gvks) (start namespaces objs) s → none_left s.
Proof.
  apply (rtc_ind_r none_left); [intros _; by repeat constructor|]. intros s1 s2 _ Hst. by apply (tstep_none_left gvks).
Qed.

Lemma go_rtc `{TaskApi} gvks n s s' : nsteps (tstep gvks) n s s' → nsteps (run_step gvks) n (s, false) (s', false).
Proof. induction 1 as [s|n s s1 s2 Hst _ IH]; [constructor|]. eapply nsteps_l; [by apply go|exact IH]. Qed.

(** Some run ends: every one that is not cut short does. *)
Lemma task_finishes `{TaskApi} gvks namespaces objs :
  ∃ n s, nsteps (run_step gvks) n (start namespaces objs, false) (s, false) ∧ finished s.
Proof.
  assert (Hm : ∀ m s, (measure gvks s < m)%nat → rtc (tstep gvks) (start namespaces objs) s →
    ∃ s', rtc (tstep gvks) (start namespaces objs) s' ∧ finished s').
  { intros m. induction m as [|m IH]; intros s Hs Hr; [lia|]. pose proof (tstep_reachable gvks _ _ _ Hr) as Hleft.
    pose proof Hr as [n Hn]%rtc_nsteps. apply go_rtc in Hn. apply run_safe in Hn as (Hwf & Hlen & _); [|apply start_wf].
    destruct (task_progress gvks s Hwf Hleft) as [Hf|[s' Hst]]; [intros He; simpl in Hlen; by rewrite He in Hlen|by exists s|].
    apply (IH s'); [apply tstep_measure in Hst; lia|]. by eapply rtc_r. }
  destruct (Hm (S (measure gvks (start namespaces objs))) (start namespaces objs)) as (s & Hr & Hf); [lia|done|].
  apply rtc_nsteps in Hr as [n Hn]. exists n, s. split; [by apply go_rtc|done].
Qed.

(** Every worker has left and something is left in the open channel. *)
Definition left_over (s : task) : Prop :=
  Forall (λ w, w = Exited) (t_workers s) ∧ t_queue s ≠ [] ∧ t_closed s = false.

Lemma left_over_stays `{TaskApi} gvks x y : run_step gvks x y → left_over x.1 → left_over y.1.
Proof.
  intros Hst (Hex & Hq & Hc). assert (Hno : ∀ k w, t_workers x.1 !! k = Some w → w = Exited).
  { intros k w. apply (Forall_lookup_1 _ _ _ _ Hex). }
  unfold left_over. destruct Hst as [s s' c Hst|s|s k Hk|s k w Hk]; simpl in *;
    [|done|by apply Hno in Hk|by apply Hno in Hk].
  destruct Hst as [s|s|s|s|s|s|s|s k w q Hk|s k w Hk|s k Hk]; simpl in *; try done; try (by apply Hno in Hk).
  by destruct (t_queue s).
Qed.

(** After a cancellation that every worker has followed, what is left in the
    channel stays there: [getAllResources] waits for ever for it to be empty
    and never closes it. *)
Lemma cancelled_never_closes `{TaskApi} gvks x y : left_over x.1 → rtc (run_step gvks) x y → t_closed y.1 = false.
Proof.
  intros Hx Hr. assert (left_over y.1) as (_ & _ & ?); [|done].
  revert Hx. induction Hr as [x|x z y Hst _ IH]; [done|]. intros Hx. by eapply IH, left_over_stays.
Qed.

(** C35. The task that labels the objects ends, whatever the order in which
    its goroutines run and whether or when its context is cancelled.  A run has
    no more steps than the measure of its start, and the cancellation; nothing
    is sent to the closed channel, which never holds more than its capacity.
    Without a cancellation a run can go on until every goroutine has returned
    and every worker has left; and when then every list has succeeded, with the
    objects as they were at the start, and every patch as well, each object
    listed in a namespace has the labels of the namespace, beside its own. *)
Theorem label_task_ends `{TaskApi} gvks namespaces objs n s cancelled :
  nsteps (run_step gvks) n (start namespaces objs, false) (s, cancelled) →
  (n ≤ measure gvks (start namespaces objs) + Nat.b2n cancelled)%nat ∧
  t_panicked s = false ∧ (length (t_queue s) ≤ patchItemCacheSize)%nat ∧
  (cancelled = false → finished s ∨ ∃ s', run_step gvks (s, false) (s', false)) ∧
  (cancelled = false → finished s → (∀ ns gvk, ∃ l, list_items ns gvk = Ok l) → lists_agree namespaces objs →
   ∀ ns gvk l item, ns ∈ namespaces → gvk ∈ gvks → list_items (n_Name ns) gvk = Ok l → item ∈ l →
     t_objects s !! key_of item = Some (getShardingLabel (n_Labels ns) ∪ it_Labels item)).
Proof.
  intros Hn. destruct (run_safe gvks _ _ _ Hn (start_wf _ _)) as (Hwf & Hlen & _ & Hm). simpl in *.
  split; [lia|]. split; [by apply wf_panicked|]. split; [by apply wf_queue|].
  assert (Hr : cancelled = false → rtc (tstep gvks) (start namespaces objs) s).
  { intros ->. apply (run_uncancelled gvks (start namespaces objs, false) (s, false)); [|done]. apply rtc_nsteps. by exists n. }
  split.
  { intros Hr0%Hr. destruct (task_progress gvks s Hwf) as [?|[s' ?]]; [by eapply tstep_reachable|intros He; by rewrite He in Hlen|by left|].
    right. exists s'. by apply go. }
  intros Hr0%Hr (Hw & Hj & Hq & _ & Hex) Hlist Hagree ns gvk l item Hns Hg Hlk Hin.
  destruct (task_reachable_accounted gvks Hlist _ _ _ Hr0) as (_ & ws & Hp & ->).
  apply (labels_at_end gvks Hlist namespaces objs ns gvk l); try done.
  rewrite <- Hp. unfold open_works. rewrite Hw, Hj, Hq. simpl.
  assert (Hno : t_workers s ≫= worker_works = []) by (clear -Hex; induction Hex as [|w ws1 -> _ IH]; [done|exact IH]).
  by rewrite Hno, app_nil_r.
Qed.

(** ** Witness *)

Definition demo_key : string * string * string := key_of demo_item.
#[local] Instance demo_task_api : TaskApi := {|
  list_call ns gvk i :=
    if decide (i = 0) then inl (true, "too many requests")
    else inr (if decide (ns = "team-a" ∧ gvk = "v1/Pod") then [demo_item] else []);
  patch_call w i := if decide (i = 3) then inr () else inl (true, "too many requests");
|}.

Lemma demo_lists ns gvk : list_items ns gvk = Ok (if decide (ns = "team-a" ∧ gvk = "v1/Pod") then [demo_item] else []).
Proof. reflexivity. Qed.

Lemma demo_lists_agree : lists_agree [demo_labelled] {[demo_key := it_Labels demo_item]}.
Proof.
  split; [repeat constructor; by intros ?%elem_of_nil|]. split; [by intros [?|?%elem_of_nil]%elem_of_cons|]. split; [|done].
  intros ns gvk l item. rewrite demo_lists. intros [= <-]. case_decide as Hd; [|by intros ?%elem_of_nil].
  intros ->%list_elem_of_singleton. destruct Hd as [-> _]. split; [done|apply lookup_singleton_eq].
Qed.

Lemma label_task_ends_witness :
  ∃ n s, nsteps (run_step ["v1/Pod"; "v1/Service"]) n (start [demo_labelled] {[demo_key := it_Labels demo_item]}, false) (s, false) ∧
    finished s ∧
    ∃ ls, t_objects s !! demo_key = Some ls ∧ ls !! NamespaceShardLabel = Some "team-a".
Proof.
  destruct (task_finishes ["v1/Pod"; "v1/Service"] [demo_labelled] {[demo_key := it_Labels demo_item]}) as (n & s & Hn & Hf).
  exists n, s. split; [done|]. split; [done|].
  destruct (label_task_ends _ _ _ n s false Hn) as (_ & _ & _ & _ & Hend).
  eexists. split; [apply (Hend eq_refl Hf (λ ns gvk, ex_intro _ _ (demo_lists ns gvk)) demo_lists_agree demo_labelled "v1/Pod" [demo_item] demo_item)|].
  - by left.
  - by left.
  - reflexivity.
  - by left.
  - vm_compute. reflexivity.
Defined.
