(* ===== verification/Route.v ===== *)
(** * Routing API requests to the shard

    src/pkg/apis/ctrlmesh/conv/convert.go: the limits of a specification and
    the label selector they impose on a resource; src/pkg/utils/http/request.go
    and src/pkg/proxy/apiserver/injector.go: injecting it into the query of
    list and watch requests; src/pkg/proxy/apiserver/request.go: trimming the
    URL prefix before the request info is resolved. *)

From S2P Require Import Prelude GoStrings Http Selector Sharding ShardServer SpecManager.

(** ** Percent encoding ([net/url], query components) *)

Definition between (lo hi : nat) (a : ascii) : bool :=
  let n := nat_of_ascii a in (lo <=? n)%nat && (n <=? hi)%nat.
(** Letters, digits and [-_.~]. *)
Definition unreserved (a : ascii) : bool :=
  between 48 57 a || between 65 90 a || between 97 122 a
  || existsb (λ c, bool_decide (a = c)) ["-"%char; "_"%char; "."%char; "~"%char].
Definition upperhex (n : nat) : ascii := ascii_of_nat (if (n <? 10)%nat then 48 + n else 55 + n).
Definition unhex (a : ascii) : option nat :=
  let n := nat_of_ascii a in
  if between 48 57 a then Some (n - 48)
  else if between 65 70 a then Some (n - 55)
  else if between 97 102 a then Some (n - 87)
  else None.

Definition escape1 (a : ascii) (rest : string) : string :=
  if unreserved a then String a rest
  else if decide (a = " "%char) then String "+" rest
  else let n := nat_of_ascii a in
       String "%" (String (upperhex (n / 16)) (String (upperhex (n mod 16)) rest)).
Fixpoint QueryEscape (s : string) : string :=
  match s with EmptyString => EmptyString | String a s' => escape1 a (QueryEscape s') end.

Fixpoint QueryUnescape (s : string) : option string :=
  match s with
  | EmptyString => Some EmptyString
  | String a s' =>
      if decide (a = "%"%char) then
        match s' with
        | String h (String l s'') =>
            h ← unhex h; l ← unhex l; r ← QueryUnescape s'';
            Some (String (ascii_of_nat (16 * h + l)) r)
        | _ => None
        end
      else r ← QueryUnescape s'; Some (String (if decide (a = "+"%char) then " "%char else a) r)
  end.

(** ** Raw queries *)

Definition invalidQuery (rawQuery : string) : string := "invalid url query: " +:+ rawQuery.

(** Later pairs replace earlier ones under the same key. *)
Fixpoint parsePairs (rawQuery : string) (pairs : list string) (acc : gmap string string)
    : result (gmap string string) :=
  match pairs with
  | [] => Ok acc
  | p :: pairs' =>
      match Split "="%char p with
      | [k; v] => parsePairs rawQuery pairs' (<[k := v]> acc)
      | _ => Err (invalidQuery rawQuery)
      end
  end.
Definition ParseRawQuery (rawQuery : string) : result (gmap string string) :=
  if decide (rawQuery = EmptyString) then Ok ∅
  else parsePairs rawQuery (Split "&"%char rawQuery) ∅.

Definition marshalPair (res : string) (kv : string * string) : string :=
  if decide (res = EmptyString) then kv.1 +:+ "=" +:+ kv.2
  else res +:+ "&" +:+ kv.1 +:+ "=" +:+ kv.2.

(** ** Limits of a specification *)

(** Decoding the JSON of a label selector: the value afterwards, also when the
    text is malformed. *)
Class JsonSelector := { json_selector : string → LabelSelector }.
(** Printing and parsing the text form of selectors. *)
Class SelectorText := {
  sel_String : labels_Selector → string;
  ParseToLabelSelector : string → result LabelSelector;
}.

Record internalMatchLimitRule := mkIMLR {
  objectSelector : option LabelSelector; im_resources : list APIGroupResource;
}.
Record GroupResource := mkGR { gr_Group : string; gr_Resource : string }.

Definition ResourceAll : string := "*".

Definition containsString (x : string) (list : list string) (wildcard : string) : bool :=
  if decide (list = [wildcard]) then true else existsb (λ y, bool_decide (x = y)) list.

Definition isGRMatchedAPIResources (gr : GroupResource) (resources : list APIGroupResource) : bool :=
  existsb (λ r, containsString (gr_Group gr) (agr_ApiGroups r) ResourceAll
                && containsString (gr_Resource gr) (agr_Resources r) ResourceAll) resources.

(** The limit constrains requests for the resource. *)
Definition applies (gr : GroupResource) (l : internalMatchLimitRule) : bool :=
  match im_resources l with [] => true | rs => isGRMatchedAPIResources gr rs end.

Definition getObjectSelector (limits : list internalMatchLimitRule) (gr : GroupResource) : option LabelSelector :=
  fold_left (λ sel limit,
    match objectSelector limit with
    | None => sel
    | Some s => if negb (applies gr limit) then sel else MergeLabelSelector sel (Some s)
    end) limits None.

(** ** Injection *)

(** What of an HTTP request the injector reads and writes. *)
Record Request := mkRequest { RawQuery : string; oldRawQuery : list string }.

Definition labelSelectorKey : string := "labelSelector".

Section route.
Context `{JsonSelector} `{SelectorText} `{RangeOrder}.

Definition convertLimit (l : LimitMsg) : internalMatchLimitRule :=
  mkIMLR (if decide (lm_ObjectSelector l = EmptyString) then None
          else Some (json_selector (lm_ObjectSelector l))) (lm_Resources l).
Definition ConvertProtoSpecToInternal (spec : ProxySpec) : list internalMatchLimitRule :=
  convertLimit <$> ps_Limits spec.

Definition MarshalRawQuery (m : gmap string string) : string :=
  fold_left marshalPair (labelPairs m) EmptyString.

(** The selector a request already carries. *)
Definition oldLabelSelector (raw : gmap string string) : result (option LabelSelector) :=
  match raw !! labelSelectorKey with
  | None => Ok None
  | Some esc =>
      match QueryUnescape esc with
      | None => Err "invalid URL escape"
      | Some text => sel ← ParseToLabelSelector text; Ok (Some sel)
      end
  end.

Definition injectSelector (r : Request) (sel : LabelSelector) : result Request :=
  raw ← ParseRawQuery (RawQuery r);
  old ← oldLabelSelector raw;
  selector ← ValidatedLabelSelectorAsSelector (MergeLabelSelector (Some sel) old);
  Ok (mkRequest (MarshalRawQuery (<[labelSelectorKey := QueryEscape (sel_String selector)]> raw))
        (oldRawQuery r ++ [RawQuery r])).

(** [Inject]: only list and watch requests for resources are touched; the nil
    specification panics there. *)
Definition Inject (spec : option ProxySpec) (r : Request) (info : RequestInfo) : outcome (result Request) :=
  if negb (ri_IsResourceRequest info) then Returns (Ok r) else
  if decide (ri_Verb info = "list" ∨ ri_Verb info = "watch") then
    spec ← deref spec;
    match getObjectSelector (ConvertProtoSpecToInternal spec) (mkGR (ri_APIGroup info) (ri_Resource info)) with
    | None => Returns (Ok r)
    | Some sel => Returns (injectSelector r sel)
    end
  else Returns (Ok r).
End route.

(** ** Trimming the URL *)

Definition clear (items : list string) : list string := filter (λ s, s ≠ EmptyString) items.

Fixpoint matchPrefix (pre segments : list string) : bool :=
  match pre, segments with
  | [], _ => true
  | item :: pre', seg :: segments' =>
      if decide (item = "*" ∨ item = seg) then matchPrefix pre' segments' else false
  | _ :: _, [] => false
  end.

(** [TrimUrl]: the URL (nil when the rest does not parse) and the error. *)
Definition TrimUrl `{UrlParser} (inUrl : URL) (prePath : string) : option URL * option string :=
  if decide (prePath = EmptyString) then (Some inUrl, None) else
  let segments := clear (Split "/"%char (Path inUrl)) in
  let preSegments := clear (Split "/"%char prePath) in
  if (length segments <? length preSegments)%nat then
    (Some inUrl, Some (prePath +:+ " is too long than " +:+ Path inUrl))
  else if negb (matchPrefix preSegments segments) then
    (Some inUrl, Some ("fail to trim url, " +:+ prePath +:+ " is not " +:+ Path inUrl +:+ " prefix"))
  else
    let resultPath := fold_left (λ p s, p +:+ "/" +:+ s) (drop (length preSegments) segments) EmptyString in
    match url_Parse resultPath with
    | Some u => (Some u, None)
    | None => (None, Some "parse error")
    end.

(** What [WithRequestInfo] writes or calls, in order.  After a failed [url.Parse]
    the URL is nil and the resolver, which reads its path, panics. *)
Inductive info_event := InternalError (msg : string) | ServeWith (info : RequestInfo) | NilURL.
Definition WithRequestInfo `{UrlParser} (newRequestInfo : URL → result RequestInfo) (prefix : string)
    (u : URL) : list info_event :=
  let '(localUrl, err) := TrimUrl u prefix in
  match err with Some e => [InternalError ("failed to trim url by: " +:+ prefix +:+ ", " +:+ e)] | None => [] end ++
  match localUrl with
  | None => [NilURL]
  | Some localUrl =>
      match newRequestInfo localUrl with
      | Err e => [InternalError ("failed to create RequestInfo: " +:+ e)]
      | Ok info => [ServeWith info]
      end
  end.

(** ** Properties of encodings *)

Lemma unescape_escape1 a rest :
  QueryUnescape (escape1 a rest) = String a <$> QueryUnescape rest.
Proof. destruct a as [[] [] [] [] [] [] [] []]; reflexivity. Qed.

Lemma QueryUnescape_Escape s : QueryUnescape (QueryEscape s) = Some s.
Proof. induction s as [|a s IH]; [done|]. cbn [QueryEscape]. by rewrite unescape_escape1, IH. Qed.

Lemma escape1_free c a rest :
  c = "&"%char ∨ c = "="%char → free_of c (escape1 a rest) = free_of c rest.
Proof. intros [-> | ->]; destruct a as [[] [] [] [] [] [] [] []]; reflexivity. Qed.

Lemma QueryEscape_free c s : c = "&"%char ∨ c = "="%char → free_of c (QueryEscape s) = true.
Proof. intros Hc. induction s as [|a s IH]; [done|]. cbn [QueryEscape]. by rewrite escape1_free. Qed.

(** A query component: free of the separators. *)
Definition component (s : string) : Prop := free_of "&" s = true ∧ free_of "=" s = true.
Definition components (m : gmap string string) : Prop := map_Forall (λ k v, component k ∧ component v) m.

Lemma Split_keeps_free c d s p : free_of c s = true → p ∈ Split d s → free_of c p = true.
Proof.
  revert p; induction s as [|a s IH]; intros p; simpl.
  { by intros _ ->%list_elem_of_singleton. }
  rewrite andb_true_iff, bool_decide_eq_true. intros [Hac Hs].
  destruct (decide (a = d)) as [->|Had].
  { intros [->|?]%elem_of_cons; auto. }
  destruct (Split d s) as [|q qs].
  { intros ->%list_elem_of_singleton. simpl. by rewrite bool_decide_eq_true_2. }
  intros [->|?]%elem_of_cons; [|apply IH; [done|by right]].
  simpl. rewrite bool_decide_eq_true_2 by done. apply IH; [done|by left].
Qed.

Lemma Split_Join c l :
  l ≠ [] → Forall (λ p, free_of c p = true) l → Split c (Join (String c EmptyString) l) = l.
Proof.
  induction l as [|p l IH]; [done|]. intros _ [Hp Hl]%Forall_cons. destruct l as [|q l].
  - simpl. by apply Split_free.
  - change (Split c (p +:+ String c (Join (String c EmptyString) (q :: l))) = p :: q :: l).
    rewrite Split_app by done. by rewrite IH.
Qed.

Lemma component_not_pair s t : component s → component t → ∀ x, x = s +:+ "=" +:+ t → free_of "&" x = true.
Proof. intros [Hs _] [Ht _] x ->. rewrite !free_of_app, Hs, Ht. done. Qed.

Section route_properties.
Context `{JsonSelector} `{SelectorText} `{RangeOrder}.

Definition pairText (kv : string * string) : string := kv.1 +:+ "=" +:+ kv.2.

Lemma pairText_nonempty kv : pairText kv ≠ EmptyString.
Proof. destruct kv as [k v]. unfold pairText. simpl. by destruct k. Qed.

Lemma marshalPair_next s kv : s ≠ EmptyString → marshalPair s kv = s +:+ "&" +:+ pairText kv.
Proof. intros Hs. unfold marshalPair. by rewrite decide_False. Qed.

Lemma marshal_Join ps :
  fold_left marshalPair ps EmptyString = Join "&" (pairText <$> ps).
Proof.
  assert (Hgen : ∀ qs s, s ≠ EmptyString →
    fold_left marshalPair qs s = Join "&" (s :: (pairText <$> qs))).
  { induction qs as [|kv ps' IH]; intros s Hs; [reflexivity|].
    cbn [fold_left fmap list_fmap Join].
    rewrite (marshalPair_next s kv Hs). rewrite IH.
    - destruct ps'; cbn [fmap list_fmap Join]; unfold pairText; rewrite ?app_assoc_str; reflexivity.
    - by destruct s. }
  destruct ps as [|kv ps]; [reflexivity|]. cbn [fold_left].
  apply (Hgen ps (pairText kv)), pairText_nonempty.
Qed.

Lemma parsePairs_texts raw ps acc :
  Forall (λ kv, component kv.1 ∧ component kv.2) ps →
  parsePairs raw (pairText <$> ps) acc = Ok (fold_left (λ m kv, <[kv.1 := kv.2]> m) ps acc).
Proof.
  revert acc; induction ps as [|[k v] ps IH]; intros acc; [done|]. intros [[[_ Hk] [_ Hv]] Hps]%Forall_cons.
  simpl in Hk, Hv. cbn [fmap list_fmap parsePairs fold_left]. unfold pairText at 1. simpl.
  rewrite Split_app by done. rewrite Split_free by done. by apply IH.
Qed.

Lemma insert_pairs_lookup ps (acc : gmap string string) k v :
  NoDup ps.*1 → fold_left (λ m kv, <[kv.1 := kv.2]> m) ps acc !! k = Some v ↔
  (k, v) ∈ ps ∨ (acc !! k = Some v ∧ k ∉ ps.*1).
Proof.
  revert acc; induction ps as [|[k' v'] ps IH]; intros acc; simpl; [set_solver|].
  intros [Hk Hnd]%NoDup_cons. rewrite IH, lookup_insert_Some by done.
  rewrite !elem_of_cons. assert (∀ w, (k', w) ∈ ps → False) as Hno.
  { intros w Hw. apply Hk. apply list_elem_of_fmap. by exists (k', w). }
  split.
  - intros [?|[[[<- <-]|[Hne Hacc]] Hnot]]; [by left; right|by left; left|right]. split; [done|]. naive_solver.
  - intros [[[= -> ->]|?]|[Hacc Hnot]]; [right; split; [by left|done]|by left|right].
    split; [right; split; [naive_solver|done]|naive_solver].
Qed.

Lemma labelPairs_keys m : (labelPairs m).*1 = range_keys m.
Proof.
  unfold labelPairs. assert (Hall : Forall (λ k, is_Some (m !! k)) (range_keys m)).
  { apply Forall_forall. intros k. by rewrite elem_of_range_keys. }
  induction Hall as [|k l [v Hv] _ IH]; [done|].
  cbn [omap list_omap]. rewrite Hv. cbn. f_equal. exact IH.
Qed.

Lemma roundtrip m : components m → ParseRawQuery (MarshalRawQuery m) = Ok m.
Proof.
  intros Hm. unfold MarshalRawQuery. rewrite marshal_Join.
  assert (Hall : Forall (λ kv, component kv.1 ∧ component kv.2) (labelPairs m)).
  { apply Forall_forall. intros [k v] Hkv%elem_of_labelPairs. by apply (Hm k v). }
  assert (Hres : ∀ raw, parsePairs raw (pairText <$> labelPairs m) ∅ = Ok m).
  { intros raw. rewrite parsePairs_texts by done. f_equal. apply map_eq. intros k. apply option_eq. intros v.
    rewrite insert_pairs_lookup by (rewrite labelPairs_keys; apply NoDup_range_keys).
    rewrite elem_of_labelPairs, lookup_empty. naive_solver. }
  destruct (labelPairs m) as [|kv ps] eqn:Hps.
  - simpl. specialize (Hres EmptyString). simpl in Hres. injection Hres as <-. done.
  - unfold ParseRawQuery. rewrite decide_False.
    + change "&" with (String "&" EmptyString). rewrite Split_Join; [apply Hres|done|].
      apply Forall_fmap. eapply Forall_impl; [exact Hall|]. intros [k v] [Hk Hv]. simpl.
      by eapply (component_not_pair k v).
    + intros He. destruct kv as [[|a k] v], ps; discriminate He.
Qed.

(** C37. Query parameters survive the proxy: for keys and values free of [&]
    and [=], which is what a raw query can carry, parsing the rendered query
    gives the parameters back, whatever the map order. *)
Theorem query_roundtrip m : components m → ParseRawQuery (MarshalRawQuery m) = Ok m.
Proof. apply roundtrip. Qed.

Lemma parsePairs_components raw pairs acc m :
  Forall (λ p, free_of "&" p = true) pairs → components acc →
  parsePairs raw pairs acc = Ok m → components m.
Proof.
  revert acc; induction pairs as [|p pairs IH]; intros acc Hp Hacc; simpl; [by intros [= <-]|].
  apply Forall_cons in Hp as [Hp Hps]. destruct (Split "="%char p) as [|k [|v [|]]] eqn:Hs; try done.
  apply IH; [done|]. assert (Hin : k ∈ Split "="%char p ∧ v ∈ Split "="%char p).
  { rewrite Hs. split; [by left|by right; left]. }
  destruct Hin as [Hk Hv]. apply map_Forall_insert_2; [|done].
  repeat split; first [by eapply Split_keeps_free|by eapply Split_pieces_free].
Qed.

Lemma ParseRawQuery_components raw m : ParseRawQuery raw = Ok m → components m.
Proof.
  unfold ParseRawQuery. case_decide; [intros [= <-]; apply map_Forall_empty|].
  apply parsePairs_components; [|apply map_Forall_empty].
  apply Forall_forall. intros p. apply Split_pieces_free.
Qed.

(** ** Selectors of a specification *)

Definition applicable (limits : list internalMatchLimitRule) (gr : GroupResource) : list LabelSelector :=
  omap (λ l, if applies gr l then objectSelector l else None) limits.

Lemma getObjectSelector_fold limits gr acc :
  fold_left (λ sel limit,
    match objectSelector limit with
    | None => sel
    | Some s => if negb (applies gr limit) then sel else MergeLabelSelector sel (Some s)
    end) limits acc = fold_left (λ sel s, MergeLabelSelector sel (Some s)) (applicable limits gr) acc.
Proof.
  revert acc; induction limits as [|l limits IH]; intros acc; [done|]. simpl. rewrite IH.
  unfold applicable. simpl. destruct (objectSelector l), (applies gr l); done.
Qed.

Definition consistent (ss : list LabelSelector) : Prop :=
  ∀ a b, a ∈ ss → b ∈ ss → agree (MatchLabels a) (MatchLabels b).

(** Membership in an explicit list. *)
Ltac mem := rewrite ?elem_of_cons in *; tauto.

Lemma merge_all ss acc ls :
  (∀ a b, a ∈ acc :: ss → b ∈ acc :: ss → agree (MatchLabels a) (MatchLabels b)) →
  ∃ c, fold_left (λ sel s, MergeLabelSelector sel (Some s)) ss (Some acc) = Some c ∧
    (selects c ls ↔ Forall (λ s, selects s ls) (acc :: ss)).
Proof.
  revert acc; induction ss as [|s ss IH]; intros acc Hag; simpl.
  { exists acc. split; [done|]. by rewrite Forall_singleton. }
  destruct (IH (mkSel (MatchLabels s ∪ MatchLabels acc) (MatchExpressions acc ++ MatchExpressions s)))
    as (c & Hc & Hsel).
  { assert (Hu : ∀ b, b ∈ acc :: s :: ss → ∀ k v w, (MatchLabels s ∪ MatchLabels acc) !! k = Some v →
      MatchLabels b !! k = Some w → v = w).
    { intros b Hb k v w [Hs|[_ Ha]]%lookup_union_Some_raw Hw;
        [apply (Hag s b) with k|apply (Hag acc b) with k]; try done; mem. }
    intros a b Ha Hb k v w Hv Hw. apply elem_of_cons in Ha, Hb. destruct Ha as [->|Ha], Hb as [->|Hb]; simpl in *.
    - by simplify_eq.
    - apply (Hu b) with k; [mem|done..].
    - symmetry. apply (Hu a) with k; [mem|done..].
    - apply (Hag a b) with k; try done; mem. }
  exists c. split; [done|]. rewrite Hsel.
  assert (Hm : selects (mkSel (MatchLabels s ∪ MatchLabels acc) (MatchExpressions acc ++ MatchExpressions s)) ls ↔
    selects acc ls ∧ selects s ls).
  { unfold selects. simpl. rewrite Forall_app, agree_union_sub; [tauto|]. apply Hag; mem. }
  rewrite !Forall_cons, Hm. tauto.
Qed.

(** The selector of a resource is the conjunction of its limits: with no
    applicable limit there is none; otherwise, when the applicable limits do
    not demand different values of one label, it selects exactly the objects
    that every applicable limit selects. *)
Theorem getObjectSelector_conjunction limits gr ls :
  consistent (applicable limits gr) →
  match getObjectSelector limits gr with
  | None => applicable limits gr = []
  | Some c => applicable limits gr ≠ [] ∧ (selects c ls ↔ Forall (λ s, selects s ls) (applicable limits gr))
  end.
Proof.
  intros Hc. unfold getObjectSelector. rewrite getObjectSelector_fold.
  destruct (applicable limits gr) as [|s ss]; [done|]. cbn [fold_left MergeLabelSelector].
  destruct (merge_all ss s ls Hc) as (c & -> & Hsel). done.
Qed.

#[local] Arguments MergeLabelSelector : simpl never.

(** The selectors the limits of a specification put on a resource, read off
    the messages: those of the limits that name the resource, or no resource. *)
Definition names_resource (group resource : string) (l : LimitMsg) : Prop :=
  lm_Resources l = [] ∨
  ∃ r, r ∈ lm_Resources l ∧ (agr_ApiGroups r = ["*"] ∨ group ∈ agr_ApiGroups r) ∧
       (agr_Resources r = ["*"] ∨ resource ∈ agr_Resources r).
Definition demanded (sp : ProxySpec) (group resource : string) (s : LabelSelector) : Prop :=
  ∃ l, l ∈ ps_Limits sp ∧ lm_ObjectSelector l ≠ EmptyString ∧ names_resource group resource l ∧
       s = json_selector (lm_ObjectSelector l).

Lemma containsString_spec x l : containsString x l ResourceAll = true ↔ l = ["*"] ∨ x ∈ l.
Proof.
  unfold containsString, ResourceAll. destruct (decide (l = ["*"])) as [->|Hne]; [by split; [left|]|].
  rewrite existsb_exists. setoid_rewrite <- list_elem_of_In. setoid_rewrite bool_decide_eq_true. naive_solver.
Qed.

Lemma applies_spec group resource l : applies (mkGR group resource) (convertLimit l) = true ↔ names_resource group resource l.
Proof.
  unfold applies, names_resource, convertLimit. cbn [im_resources].
  assert (Hr : isGRMatchedAPIResources (mkGR group resource) (lm_Resources l) = true ↔
    ∃ r, r ∈ lm_Resources l ∧ (agr_ApiGroups r = ["*"] ∨ group ∈ agr_ApiGroups r) ∧
         (agr_Resources r = ["*"] ∨ resource ∈ agr_Resources r)).
  { unfold isGRMatchedAPIResources. rewrite existsb_exists. setoid_rewrite <- list_elem_of_In.
    setoid_rewrite andb_true_iff. by setoid_rewrite containsString_spec. }
  destruct (lm_Resources l) as [|r rs]; [by split; [left|]|]. rewrite Hr. split; [by right|]. by intros [|].
Qed.

Lemma elem_of_applicable sp group resource s :
  s ∈ applicable (ConvertProtoSpecToInternal sp) (mkGR group resource) ↔ demanded sp group resource s.
Proof.
  unfold applicable, ConvertProtoSpecToInternal, demanded. rewrite list_elem_of_omap. split.
  - intros (l' & (l & -> & Hl)%list_elem_of_fmap & Hs). exists l. destruct (applies _ _) eqn:Ha; [|done].
    apply applies_spec in Ha. cbn [objectSelector convertLimit] in Hs. case_decide; by simplify_eq.
  - intros (l & Hl & Hne & Hn & ->). exists (convertLimit l). split; [by apply list_elem_of_fmap_2|].
    rewrite (proj2 (applies_spec _ _ _) Hn). cbn [objectSelector convertLimit]. by rewrite decide_False.
Qed.

Lemma merge_expressions ss acc c :
  fold_left (λ sel s, MergeLabelSelector sel (Some s)) ss (Some acc) = Some c →
  MatchExpressions c = MatchExpressions acc ++ (ss ≫= MatchExpressions).
Proof.
  revert acc. induction ss as [|s ss IH]; intros acc; cbn [fold_left].
  { intros [= ->]. by rewrite app_nil_r. }
  intros Hc. apply IH in Hc. rewrite Hc. cbn [MatchExpressions]. by rewrite <- app_assoc.
Qed.

Lemma merge_none ss acc : fold_left (λ sel s, MergeLabelSelector sel (Some s)) ss (Some acc) ≠ None.
Proof. revert acc. induction ss as [|s ss IH]; intros acc; [done|]. cbn [fold_left MergeLabelSelector]. apply IH. Qed.

(** The merge of the limits of a resource with the selector of a request, when
    there is a limit: it keeps every expression, and where no two of them
    demand different values of one label it is their conjunction. *)
Lemma merge_demanded sp group resource own sel c :
  getObjectSelector (ConvertProtoSpecToInternal sp) (mkGR group resource) = Some sel →
  MergeLabelSelector (Some sel) own = Some c →
  let given s := demanded sp group resource s ∨ own = Some s in
  (∀ s e, given s → e ∈ MatchExpressions s → e ∈ MatchExpressions c) ∧
  ((∀ a b, given a → given b → agree (MatchLabels a) (MatchLabels b)) →
   ∀ ls, selects c ls ↔ ∀ s, given s → selects s ls).
Proof.
  intros Hsel Hc. cbv zeta. unfold getObjectSelector in Hsel. rewrite getObjectSelector_fold in Hsel.
  set (all := applicable (ConvertProtoSpecToInternal sp) (mkGR group resource) ++ option_list own).
  assert (Hall : ∀ s, s ∈ all ↔ demanded sp group resource s ∨ own = Some s).
  { intros s. unfold all. rewrite elem_of_app, elem_of_applicable. destruct own; simpl; set_solver. }
  assert (Hfold : fold_left (λ sel s, MergeLabelSelector sel (Some s)) all None = Some c).
  { unfold all. rewrite fold_left_app, Hsel. by destruct own. }
  setoid_rewrite <- Hall. clearbody all. destruct all as [|s0 ss]; [done|]. cbn [fold_left MergeLabelSelector] in Hfold. split.
  - intros s e Hs He. rewrite (merge_expressions _ _ _ Hfold).
    apply elem_of_cons in Hs as [->|Hs]; apply elem_of_app; [by left|right]. apply list_elem_of_bind. by exists s.
  - intros Hag ls. destruct (merge_all ss s0 ls Hag) as (c' & Hc' & Hs).
    change (fold_left (λ sel s, MergeLabelSelector sel (Some s)) ss (Some s0) = Some c) in Hfold.
    rewrite Hfold in Hc'. injection Hc' as <-. by rewrite Hs, Forall_forall.
Qed.

(** A successful injection: the parameters stay except the label selector,
    which decodes to the text of a matcher for the merge of both selectors. *)
Definition injected_into (r r' : Request) (sel : LabelSelector) : Prop :=
  ∃ raw old c m, ParseRawQuery (RawQuery r) = Ok raw ∧ oldLabelSelector raw = Ok old ∧
    MergeLabelSelector (Some sel) old = Some c ∧
    ParseRawQuery (RawQuery r') = Ok (<[labelSelectorKey := QueryEscape (sel_String m)]> raw) ∧
    QueryUnescape (QueryEscape (sel_String m)) = Some (sel_String m) ∧
    ∀ ls, sel_Matches m ls = true ↔ selects c ls.

Lemma injectSelector_spec r sel r' : injectSelector r sel = Ok r' → injected_into r r' sel.
Proof.
  unfold injectSelector. destruct (ParseRawQuery (RawQuery r)) as [raw|] eqn:Hp; [|done]. simpl.
  destruct (oldLabelSelector raw) as [old|] eqn:Ho; [|done]. simpl.
  assert (∃ c, MergeLabelSelector (Some sel) old = Some c) as [c Hc] by (destruct old; by eexists).
  rewrite Hc. destruct (matcher_spec c) as [(m & -> & _ & Hm)|(msg & -> & _)]; [|done].
  simpl. intros [= <-]. exists raw, old, c, m. split_and!; try done.
  - apply roundtrip, map_Forall_insert_2; [|by eapply ParseRawQuery_components].
    split; split; try reflexivity; apply QueryEscape_free; auto.
  - apply QueryUnescape_Escape.
Qed.

(** What injection does to a request: unless the request lists or watches
    a resource some limit applies to, it is left as it is (without a
    specification, a list or watch panics).  Otherwise, when it succeeds, the
    new query has the same parameters except the label selector, and that one
    decodes to the text of a matcher that accepts exactly what the merge of
    the shard's selector and the request's own selects. *)
Theorem Inject_correct spec r info :
  let listing := ri_IsResourceRequest info = true ∧ (ri_Verb info = "list" ∨ ri_Verb info = "watch") in
  match Inject spec r info with
  | Panics => listing ∧ spec = None
  | Returns (Err _) => listing
  | Returns (Ok r') =>
      r' = r ∨
      ∃ sp sel, listing ∧ spec = Some sp ∧
        getObjectSelector (ConvertProtoSpecToInternal sp) (mkGR (ri_APIGroup info) (ri_Resource info)) = Some sel ∧
        injected_into r r' sel
  end.
Proof.
  simpl. unfold Inject. destruct (ri_IsResourceRequest info); [|by left]. simpl.
  case_decide as Hv; [|by left]. destruct spec as [sp|]; [|done]. simpl.
  destruct (getObjectSelector _ _) as [sel|] eqn:Hg; [|by left].
  destruct (injectSelector r sel) as [r'|] eqn:Hr; [|done]. right. exists sp, sel. split_and!; try done.
  by apply injectSelector_spec.
Qed.
End route_properties.

(** ** The hypotheses hold of concrete queries and limits *)

Definition demo_query : gmap string string := {[ "labelSelector" := "a%3Db"; "watch" := "true" ]}.

Lemma query_roundtrip_witness :
  components demo_query ∧
  @ParseRawQuery (@MarshalRawQuery order_fwd demo_query) = Ok demo_query.
Proof.
  assert (Hc : components demo_query).
  { apply map_Forall_insert_2; [|apply map_Forall_singleton]; repeat split; reflexivity. }
  split; [exact Hc|]. exact (@query_roundtrip order_fwd demo_query Hc).
Defined.

Definition demo_limits : list internalMatchLimitRule :=
  [mkIMLR (Some (mkSel {[ "shard" := "0" ]} [])) [];
   mkIMLR (Some (mkSel {[ "tier" := "db" ]} [])) [mkAGR ["apps"] ["*"]]].

Lemma getObjectSelector_conjunction_witness :
  consistent (applicable demo_limits (mkGR "" "pods")) ∧
  getObjectSelector demo_limits (mkGR "" "pods") = Some (mkSel {[ "shard" := "0" ]} []) ∧
  (selects (mkSel {[ "shard" := "0" ]} []) {[ "shard" := "0" ]} ↔
   Forall (λ s, selects s {[ "shard" := "0" ]}) (applicable demo_limits (mkGR "" "pods"))).
Proof.
  assert (Hc : consistent (applicable demo_limits (mkGR "" "pods"))).
  { intros a b Ha%list_elem_of_singleton Hb%list_elem_of_singleton. subst. intros k v w Hv Hw.
    rewrite Hv in Hw. by injection Hw. }
  split; [exact Hc|]. split; [reflexivity|].
  exact (proj2 (getObjectSelector_conjunction demo_limits (mkGR "" "pods") {[ "shard" := "0" ]} Hc)).
Defined.

(** A URL outside the prefix is answered with an error and served as well:
    after the error there is no return. *)
Lemma untrimmed_url_still_served `{UrlParser} f prefix u u' e info :
  TrimUrl u prefix = (Some u', Some e) → f u' = Ok info →
  ∃ msg, WithRequestInfo f prefix u = [InternalError msg; ServeWith info].
Proof.
  unfold WithRequestInfo. intros -> ->. by eexists.
Qed.
