(* ===== verification/ReverseProxy.v ===== *)
(** * The reverse proxy

    src/pkg/utils/http/reverse_proxy.go: headers, the director that rewrites a
    request for its target, the request that goes out and the response that
    comes back, the loop that copies a body, and the writer that flushes it
    within a latency.  Bodies are strings of bytes; a header is the map of
    [net/http], its keys canonical. *)

From S2P Require Import Prelude GoStrings Http.

(** ** Headers ([net/http], [net/textproto]) *)

Abbreviation Header := (gmap string (list string)).

Definition between (lo hi c : Ascii.ascii) : bool := (Ascii.nat_of_ascii lo <=? Ascii.nat_of_ascii c)%nat && (Ascii.nat_of_ascii c <=? Ascii.nat_of_ascii hi)%nat.
Definition lower_letter (c : Ascii.ascii) : bool := between "a" "z" c.
Definition upper_letter (c : Ascii.ascii) : bool := between "A" "Z" c.
Definition ToUpper1 (c : Ascii.ascii) : Ascii.ascii :=
  if lower_letter c then Ascii.ascii_of_nat (Ascii.nat_of_ascii c - 32) else c.
Definition ToLower1 (c : Ascii.ascii) : Ascii.ascii :=
  if upper_letter c then Ascii.ascii_of_nat (Ascii.nat_of_ascii c + 32) else c.
Fixpoint map_bytes (f : Ascii.ascii → Ascii.ascii) (s : string) : string :=
  match s with EmptyString => EmptyString | String a s' => String (f a) (map_bytes f s') end.
Definition ToLower (s : string) : string := map_bytes ToLower1 s.

(** The bytes of a token (RFC 7230). *)
Definition token_byte (c : Ascii.ascii) : bool :=
  lower_letter c || upper_letter c || between "0" "9" c ||
  bool_decide (c ∈ ["!"; "#"; "$"; "%"; "&"; "'"; "*"; "+"; "-"; "."; "^"; "_"; "`"; "|"; "~"]%char).
Fixpoint all_bytes (p : Ascii.ascii → bool) (s : string) : bool :=
  match s with EmptyString => true | String a s' => p a && all_bytes p s' end.
Fixpoint canon (upper : bool) (s : string) : string :=
  match s with
  | EmptyString => EmptyString
  | String a s' => String (if upper then ToUpper1 a else ToLower1 a) (canon (bool_decide (a = "-"%char)) s')
  end.
(** [CanonicalMIMEHeaderKey]: a key that is no token stays as it is. *)
Definition CanonicalMIMEHeaderKey (s : string) : string := if all_bytes token_byte s then canon true s else s.

Definition Values (h : Header) (key : string) : list string := default [] (h !! CanonicalMIMEHeaderKey key).
Definition Get (h : Header) (key : string) : string := default EmptyString (head (Values h key)).
Definition Set_ (key v : string) (h : Header) : Header := <[CanonicalMIMEHeaderKey key := [v]]> h.
Definition Add (key v : string) (h : Header) : Header :=
  <[CanonicalMIMEHeaderKey key := Values h key ++ [v]]> h.
Definition Del (key : string) (h : Header) : Header := delete (CanonicalMIMEHeaderKey key) h.

Definition is_space (c : Ascii.ascii) : bool :=
  bool_decide (c ∈ [" "; Ascii.ascii_of_nat 9; Ascii.ascii_of_nat 10; Ascii.ascii_of_nat 13]%char).
Fixpoint trim_left (s : string) : string :=
  match s with String a s' => if is_space a then trim_left s' else s | EmptyString => EmptyString end.
Fixpoint rev_bytes (acc s : string) : string :=
  match s with EmptyString => acc | String a s' => rev_bytes (String a acc) s' end.
Definition TrimString (s : string) : string :=
  rev_bytes EmptyString (trim_left (rev_bytes EmptyString (trim_left s))).

(** [httpguts.HeaderValuesContainsToken]: a comma-separated element of a value
    that equals the token up to case. *)
Definition HeaderValuesContainsToken (values : list string) (token : string) : bool :=
  existsb (λ v, existsb (λ e, bool_decide (ToLower (TrimString e) = ToLower token)) (Split "," v)) values.

(** [copyHeader]: the keys come in an unknown order, which makes no difference
    to the result. *)
Definition copyHeader `{RangeOrder} (dst src : Header) : Header :=
  fold_left (λ h k, fold_left (λ h v, Add k v h) (default [] (src !! k)) h) (range_keys src) dst.

Definition hopHeaders : list string :=
  ["Connection"; "Proxy-Connection"; "Keep-Alive"; "Proxy-Authenticate"; "Proxy-Authorization";
   "Te"; "Trailer"; "Transfer-Encoding"; "Upgrade"].

(** ** Requests and their URLs *)

Record RURL := mkRURL { u_Scheme : string; u_Host : string; u_Path : string; u_RawPath : string; u_RawQuery : string }.

(** [URL.EscapedPath]: the encoding of the path. *)
Class UrlEscape := { EscapedPath : RURL → string }.

Record Req := mkReq {
  q_URL : RURL; q_Host : string; q_Header : Header; q_RemoteAddr : string; q_ContentLength : Z; q_Body : option string;
}.
Definition with_url (u : RURL) (r : Req) : Req :=
  mkReq u (q_Host r) (q_Header r) (q_RemoteAddr r) (q_ContentLength r) (q_Body r).
Definition with_host (x : string) (r : Req) : Req :=
  mkReq (q_URL r) x (q_Header r) (q_RemoteAddr r) (q_ContentLength r) (q_Body r).
Definition with_header (h : Header) (r : Req) : Req :=
  mkReq (q_URL r) (q_Host r) h (q_RemoteAddr r) (q_ContentLength r) (q_Body r).
Definition with_body (b : option string) (r : Req) : Req :=
  mkReq (q_URL r) (q_Host r) (q_Header r) (q_RemoteAddr r) (q_ContentLength r) b.

Definition HasSuffix (s suf : string) : bool := HasPrefix (rev_bytes EmptyString s) (rev_bytes EmptyString suf).

Definition singleJoiningSlash (a b : string) : string :=
  let aslash := HasSuffix a "/" in
  let bslash := HasPrefix b "/" in
  if aslash && bslash then a +:+ drop_bytes 1 b
  else if negb aslash && negb bslash then a +:+ "/" +:+ b
  else a +:+ b.

Definition joinURLPath `{UrlEscape} (a b : RURL) : string * string :=
  if decide (u_RawPath a = EmptyString ∧ u_RawPath b = EmptyString) then
    (singleJoiningSlash (u_Path a) (u_Path b), EmptyString)
  else
    let apath := EscapedPath a in
    let bpath := EscapedPath b in
    let aslash := HasSuffix apath "/" in
    let bslash := HasPrefix bpath "/" in
    if aslash && bslash then (u_Path a +:+ drop_bytes 1 (u_Path b), apath +:+ drop_bytes 1 bpath)
    else if negb aslash && negb bslash then (u_Path a +:+ "/" +:+ u_Path b, apath +:+ "/" +:+ bpath)
    else (u_Path a +:+ u_Path b, apath +:+ bpath).

Definition joinQuery (targetQuery query : string) : string :=
  if decide (targetQuery = EmptyString ∨ query = EmptyString) then targetQuery +:+ query
  else targetQuery +:+ "&" +:+ query.

(** The director of [NewSingleHostReverseProxy]. *)
Definition NewSingleHostReverseProxy `{UrlEscape} (target : RURL) (req : Req) : Req :=
  let u := q_URL req in
  let '(path, rawpath) := joinURLPath target u in
  let req := with_url (mkRURL (u_Scheme target) (u_Host target) path rawpath
                         (joinQuery (u_RawQuery target) (u_RawQuery u))) req in
  match q_Header req !! "User-Agent" with
  | Some _ => req
  | None => with_header (Set_ "User-Agent" EmptyString (q_Header req)) req
  end.

(** ** The request that goes out *)

Definition upgradeType (h : Header) : string :=
  if negb (HeaderValuesContainsToken (default [] (h !! "Connection")) "Upgrade") then EmptyString
  else ToLower (Get h "Upgrade").

(** The names listed in the values of [Connection]. *)
Definition connection_names (h : Header) : list string :=
  filter (λ s, s ≠ EmptyString) (TrimString <$> (default [] (h !! "Connection") ≫= Split ",")).
Definition removeConnectionHeaders (h : Header) : Header :=
  fold_left (λ h sf, Del sf h) (connection_names h) h.

(** One turn of the loop over [hopHeaders]. *)
Definition strip_hop (h : Header) (name : string) : Header :=
  let hv := Get h name in
  if decide (hv = EmptyString) then h
  else if decide (name = "Te" ∧ hv = "trailers") then h
  else Del name h.

(** [net.SplitHostPort] is given by its host. *)
Class HostPort := { SplitHost : string → option string }.

Definition forwardedFor `{HostPort} (remoteAddr : string) (h : Header) : Header :=
  match SplitHost remoteAddr with
  | None => h
  | Some clientIP =>
      match h !! "X-Forwarded-For" with
      | Some [] => h
      | Some prior => Set_ "X-Forwarded-For" (Join ", " prior +:+ ", " +:+ clientIP) h
      | None => Set_ "X-Forwarded-For" clientIP h
      end
  end.

Definition outgoing_header `{HostPort} (remoteAddr : string) (h : Header) : Header :=
  let reqUpType := upgradeType h in
  let h := removeConnectionHeaders h in
  let h := fold_left strip_hop hopHeaders h in
  let h := if decide (reqUpType ≠ EmptyString)
           then Set_ "Upgrade" reqUpType (Set_ "Connection" "Upgrade" h) else h in
  forwardedFor remoteAddr h.

(** The clone of the request that [ServeHTTP] hands to the transport. *)
Definition outgoing `{HostPort} (director : Req → Req) (req : Req) : Req :=
  let outreq := if decide (q_ContentLength req = 0%Z) then with_body None req else req in
  let outreq := director outreq in
  with_header (outgoing_header (q_RemoteAddr req) (q_Header outreq)) outreq.

(** ** Copying a body *)

Inductive read_err := EOF | Canceled | ReadFailed (msg : string) | HashChangedError (oldHash newHash : string).
Inductive copy_err := WriteError (msg : string) | ErrShortWrite | ReadError (e : read_err).
Definition IsHashChangedError (e : copy_err) : bool :=
  match e with ReadError (HashChangedError _ _) => true | _ => false end.

(** A reader as its caller sees it: the segments still to arrive (possibly
    empty ones) and the error after them, which may come with the last one. *)
Record source := mkSource { segs : list string; s_end : read_err; s_together : bool }.
Definition content (src : source) : string := String.concat EmptyString (segs src).

(** [Read] into a buffer of [n] bytes. *)
Definition Read (n : nat) (src : source) : string * option read_err * source :=
  match segs src with
  | [] => (EmptyString, Some (s_end src), src)
  | s :: rest =>
      if (String.length s <=? n)%nat then
        let last := match rest with [] => s_together src | _ => false end in
        (s, if last then Some (s_end src) else None, mkSource rest (s_end src) (s_together src))
      else (take_bytes n s, None, mkSource (drop_bytes n s :: rest) (s_end src) (s_together src))
  end.

(** [io.Writer] and [http.Flusher]. *)
Class Writer (W : Type) := { Write : string → W → nat * option string * W }.
Class Flusher (W : Type) := { Flush : W → W }.

Definition defaultBuffer : nat := 32 * 1024.

(** [copyBuffer]: the bytes written and the error.  The fuel bounds the turns. *)
Fixpoint copyBuffer `{Writer W} (fuel : nat) (buf : nat) (src : source) (dst : W) (written : Z)
    : option (Z * option copy_err * W) :=
  match fuel with
  | O => None
  | S fuel =>
      let '(data, rerr, src) := Read buf src in
      let nr := String.length data in
      let '(nw, werr, dst, written) :=
        if (0 <? nr)%nat then
          let '(nw, werr, dst) := Write data dst in
          (nw, werr, dst, if (0 <? nw)%nat then int64 (written + Z.of_nat nw) else written)
        else (nr, None, dst, written) in
      match werr with
      | Some e => Some (written, Some (WriteError e), dst)
      | None =>
          if decide (nr ≠ nw) then Some (written, Some ErrShortWrite, dst)
          else match rerr with
          | Some EOF => Some (written, None, dst)
          | Some e => Some (written, Some (ReadError e), dst)
          | None => copyBuffer fuel buf src dst written
          end
      end
  end.

(** Enough turns for a source: one per segment and per byte. *)
Definition turns (src : source) : nat :=
  S (length (segs src) + String.length (content src)).

(** ** The writer that flushes within a latency *)

(** [m_t] is the timer: none, or whether it is armed; [m_firing] counts the
    goroutines of the timer that have started and not yet taken the lock. *)
Record maxLatencyWriter (W : Type) := mkMLW {
  m_dst : W; m_latency : Z; m_t : option bool; m_flushPending : bool; m_firing : nat;
}.
Arguments mkMLW {W} _ _ _ _ _. Arguments m_dst {W} _. Arguments m_latency {W} _.
Arguments m_t {W} _. Arguments m_flushPending {W} _. Arguments m_firing {W} _.

Section latency.
Context {W : Type} `{Writer W} `{Flusher W}.

Definition mlw_Write (p : string) (m : maxLatencyWriter W) : nat * option string * maxLatencyWriter W :=
  let '(n, err, dst) := Write p (m_dst m) in
  let m := mkMLW dst (m_latency m) (m_t m) (m_flushPending m) (m_firing m) in
  (n, err,
   if (m_latency m <? 0)%Z then mkMLW (Flush dst) (m_latency m) (m_t m) (m_flushPending m) (m_firing m)
   else if m_flushPending m then m
   else mkMLW dst (m_latency m) (Some true) true (m_firing m)).

Definition delayedFlush (m : maxLatencyWriter W) : maxLatencyWriter W :=
  if negb (m_flushPending m) then m
  else mkMLW (Flush (m_dst m)) (m_latency m) (m_t m) false (m_firing m).

Definition stop (m : maxLatencyWriter W) : maxLatencyWriter W :=
  mkMLW (m_dst m) (m_latency m) (match m_t m with Some _ => Some false | None => None end) false (m_firing m).

(** The writer [copyResponse] sets up: the timer is already running. *)
Definition newLatencyWriter (dst : W) (flushInterval : Z) : maxLatencyWriter W :=
  mkMLW dst flushInterval (Some true) true 0.

#[export] Instance mlw_Writer : Writer (maxLatencyWriter W) := {| Write := mlw_Write |}.

(** What can happen to the writer while the body is copied: a write, the timer
    going off, the goroutine it started. *)
Inductive mlw_step : maxLatencyWriter W → maxLatencyWriter W → Prop :=
| mlw_write p m n err m' : mlw_Write p m = (n, err, m') → mlw_step m m'
| mlw_fire m : m_t m = Some true →
    mlw_step m (mkMLW (m_dst m) (m_latency m) (Some false) (m_flushPending m) (S (m_firing m)))
| mlw_run m k : m_firing m = S k →
    mlw_step m (let m' := delayedFlush m in
                mkMLW (m_dst m') (m_latency m') (m_t m') (m_flushPending m') k).

(** [copyResponse] without the timer's steps: the copy, then [stop]. *)
Definition copyResponse (fuel buf : nat) (dst : W) (src : source) (flushInterval : Z)
    : option (option copy_err * W) :=
  if decide (flushInterval ≠ 0%Z) then
    '(_, err, m) ← copyBuffer fuel buf src (newLatencyWriter dst flushInterval) 0; Some (err, m_dst (stop m))
  else '(_, err, dst) ← copyBuffer fuel buf src dst 0; Some (err, dst).
End latency.

(** ** The answer to the client *)

(** [http.ResponseWriter]: its header map, the status and header already sent,
    the body, and how much of it is flushed.  It is the writer of an
    exchange whose answer may have a body of any length (a HEAD request and the
    codes 204 and 304 have none); informational answers are not recorded.  A code that [WriteHeader_ok]
    refuses panics; [relay], which alone writes a code that is not a constant,
    asks first. *)
Record responseWriter := mkRW {
  w_Header : Header; w_Sent : option (Z * Header); w_Body : string; w_Flushed : nat;
}.
Definition WriteHeader (code : Z) (w : responseWriter) : responseWriter :=
  match w_Sent w with
  | Some _ => w
  | None => if informational code then w else mkRW (w_Header w) (Some (code, w_Header w)) (w_Body w) (w_Flushed w)
  end.
Definition set_header (h : Header) (w : responseWriter) : responseWriter :=
  mkRW h (w_Sent w) (w_Body w) (w_Flushed w).
#[export] Instance rw_Writer : Writer responseWriter := {|
  Write p w := (String.length p, None,
    let w := WriteHeader 200 w in mkRW (w_Header w) (w_Sent w) (w_Body w +:+ p) (w_Flushed w)) |}.
#[export] Instance rw_Flusher : Flusher responseWriter := {|
  Flush w := let w := WriteHeader 200 w in mkRW (w_Header w) (w_Sent w) (w_Body w) (String.length (w_Body w)) |}.

(** A response: the trailer keys announced before the body and the trailer
    after it; whether the body can be written to (for an upgrade). *)
Record Resp := mkResp {
  p_StatusCode : Z; p_Header : Header; p_ContentLength : Z; p_Body : source;
  p_Announced : list string; p_Trailer : Header; p_Writable : bool;
}.

Definition StatusSwitchingProtocols : Z := 101.
Definition StatusBadGateway : Z := 502.
Definition TrailerPrefix : string := "Trailer:".

(** The proxy; [ModifyResponse] may change a state of the caller's. *)
Record ReverseProxy (S : Type) := mkProxy {
  Director : Req → Req; FlushInterval : Z; BufferLen : nat;
  ModifyResponse : option (Resp → S → option string * S);
}.
Arguments mkProxy {S} _ _ _ _. Arguments Director {S} _. Arguments FlushInterval {S} _.
Arguments BufferLen {S} _. Arguments ModifyResponse {S} _.

(** What the server lets the handler do with the connection. *)
Record connection := mkConn { k_Hijacker : bool; k_HijackErr : option string }.

(** How [ServeHTTP] ends: normally, by the panic with [http.ErrAbortHandler],
    by the panic of [WriteHeader] at the backend's code, or with the two
    connections joined. *)
Inductive served :=
| Finished (w : responseWriter) | ErrAbortHandler (w : responseWriter) | CodePanic (code : Z) | Tunnel (head : Resp).

Definition headerSent (w : responseWriter) : bool := bool_decide (is_Some (w_Sent w)).

Definition flushInterval {S} (p : ReverseProxy S) (res : Resp) : Z :=
  if decide (Get (p_Header res) "Content-Type" = "text/event-stream") then (-1)%Z
  else if decide (p_ContentLength res = (-1)%Z) then (-1)%Z
  else FlushInterval p.

(** [modifyResponse]: [None] when the request should proceed. *)
Definition modifyResponse {S} (p : ReverseProxy S) (res : Resp) (s : S) : option string * S :=
  match ModifyResponse p with None => (None, s) | Some f => f res s end.

Section serve.
Context `{RangeOrder} `{HostPort}.

Definition with_resp_header (h : Header) (r : Resp) : Resp :=
  mkResp (p_StatusCode r) h (p_ContentLength r) (p_Body r) (p_Announced r) (p_Trailer r) (p_Writable r).

Definition handleUpgradeResponse (conn : connection) (w : responseWriter) (req : Req) (res : Resp) : served :=
  let refuse := Finished (WriteHeader StatusBadGateway w) in
  if decide (upgradeType (q_Header req) ≠ upgradeType (p_Header res)) then refuse
  else
    let res := with_resp_header (copyHeader (p_Header res) (w_Header w)) res in
    if negb (k_Hijacker conn) then refuse
    else if negb (p_Writable res) then refuse
    else match k_HijackErr conn with Some _ => refuse | None => Tunnel res end.

(** The headers and trailers after the body. *)
Definition trailers (res : Resp) (w : responseWriter) : responseWriter :=
  let w := if decide (0 < size (p_Trailer res)) then Flush w else w in
  if decide (size (p_Trailer res) = length (p_Announced res)) then
    set_header (copyHeader (w_Header w) (p_Trailer res)) w
  else
    set_header (fold_left (λ h k, fold_left (λ h v, Add (TrailerPrefix +:+ k) v h) (default [] (p_Trailer res !! k)) h)
                  (range_keys (p_Trailer res)) (w_Header w)) w.

(** The response relayed once the hop-by-hop headers are gone and
    [ModifyResponse] has agreed. *)
Definition relay {S} (p : ReverseProxy S) (res : Resp) (w : responseWriter) : served :=
  let w := set_header (copyHeader (w_Header w) (p_Header res)) w in
  let w := if decide (p_Announced res ≠ [])
           then set_header (Add "Trailer" (Join ", " (p_Announced res)) (w_Header w)) w else w in
  if negb (WriteHeader_ok (headerSent w) (p_StatusCode res)) then CodePanic (p_StatusCode res) else
  let w := WriteHeader (p_StatusCode res) w in
  let buf := if decide (BufferLen p = 0) then defaultBuffer else BufferLen p in
  match copyResponse (turns (p_Body res)) buf w (p_Body res) (flushInterval p res) with
  | None => ErrAbortHandler w
  | Some (Some e, w) => if IsHashChangedError e then Finished (WriteHeader StatusBadGateway w) else ErrAbortHandler w
  | Some (None, w) => Finished (trailers res w)
  end.

Definition incoming_header (h : Header) : Header :=
  fold_left (λ h name, Del name h) hopHeaders (removeConnectionHeaders h).

(** [ServeHTTP], given what the transport answers. *)
Definition ServeHTTP {S} (p : ReverseProxy S) (RoundTrip : Req → result Resp) (conn : connection)
    (w : responseWriter) (req : Req) (s : S) : served * S :=
  let outreq := outgoing (Director p) req in
  match RoundTrip outreq with
  | Err _ => (Finished (WriteHeader StatusBadGateway w), s)
  | Ok res =>
      if decide (p_StatusCode res = StatusSwitchingProtocols) then
        match modifyResponse p res s with
        | (Some _, s) => (Finished (WriteHeader StatusBadGateway w), s)
        | (None, s) => (handleUpgradeResponse conn w outreq res, s)
        end
      else
        let res := with_resp_header (incoming_header (p_Header res)) res in
        match modifyResponse p res s with
        | (Some _, s) => (Finished (WriteHeader StatusBadGateway w), s)
        | (None, s) => (relay p res w, s)
        end
  end.
End serve.

(** ** Headers: what reaches the other side *)

Lemma hop_canonical name : name ∈ hopHeaders → CanonicalMIMEHeaderKey name = name.
Proof. revert name. apply Forall_forall. repeat constructor. Qed.

Lemma lookup_dels l h k :
  fold_left (λ h sf, Del sf h) l h !! k = if decide (k ∈ CanonicalMIMEHeaderKey <$> l) then None else h !! k.
Proof.
  revert h. induction l as [|s l IH]; intros h; cbn [fold_left].
  { destruct (decide _) as [Hk|]; [|done]. by apply elem_of_nil in Hk. }
  rewrite IH. unfold Del. rewrite fmap_cons. destruct (decide (k = CanonicalMIMEHeaderKey s)) as [->|Hne].
  - rewrite lookup_delete_eq. do 2 case_decide; try done; exfalso; set_solver.
  - rewrite lookup_delete_ne by done. do 2 case_decide; try done; exfalso; set_solver.
Qed.

(** The names a [Connection] header lists, canonical. *)
Definition listed (h : Header) (k : string) : Prop := k ∈ CanonicalMIMEHeaderKey <$> connection_names h.
#[export] Instance listed_dec h k : Decision (listed h k).
Proof. unfold listed. apply _. Defined.

Lemma lookup_removeConnection h k :
  removeConnectionHeaders h !! k = if decide (listed h k) then None else h !! k.
Proof. apply lookup_dels. Qed.

(** When the loop deletes a hop-by-hop header. *)
Definition stripped (h : Header) (name : string) : Prop :=
  Get h name ≠ EmptyString ∧ ¬ (name = "Te" ∧ Get h name = "trailers").
#[export] Instance stripped_dec h name : Decision (stripped h name).
Proof. unfold stripped. apply _. Defined.

Lemma strip_hop_lookup h name k : CanonicalMIMEHeaderKey name = name →
  strip_hop h name !! k = if decide (k = name ∧ stripped h name) then None else h !! k.
Proof.
  intros Hc. unfold strip_hop, stripped, Del. rewrite Hc.
  destruct (decide (Get h name = EmptyString)) as [He|He]; [by rewrite decide_False by naive_solver|].
  destruct (decide (name = "Te" ∧ _)) as [Ht|Ht]; [by rewrite decide_False by naive_solver|].
  destruct (decide (k = name)) as [->|Hne].
  - by rewrite decide_True, lookup_delete_eq by done.
  - by rewrite decide_False, lookup_delete_ne by naive_solver.
Qed.

Lemma Get_ext h h' name : CanonicalMIMEHeaderKey name = name → h !! name = h' !! name → Get h name = Get h' name.
Proof. intros Hc Hl. unfold Get, Values. by rewrite Hc, Hl. Qed.

Lemma strip_hops_lookup l h k : NoDup l → (∀ x, x ∈ l → CanonicalMIMEHeaderKey x = x) →
  fold_left strip_hop l h !! k = if decide (k ∈ l ∧ stripped h k) then None else h !! k.
Proof.
  revert h. induction l as [|x l IH]; intros h Hnd Hc; cbn [fold_left].
  { rewrite decide_False; [done|]. intros [Hk _]. by apply elem_of_nil in Hk. }
  apply NoDup_cons in Hnd as [Hx Hnd]. rewrite IH; [|done|intros y Hy; apply Hc; set_solver].
  pose proof (Hc x ltac:(set_solver)) as Hcx. rewrite strip_hop_lookup by done.
  destruct (decide (k = x)) as [->|Hne].
  - rewrite (decide_ext (x ∈ x :: l ∧ stripped h x) (x = x ∧ stripped h x)) by (rewrite elem_of_cons; tauto).
    destruct (decide (x ∈ l ∧ stripped (strip_hop h x) x)) as [[? _]|]; done.
  - assert (Hk : strip_hop h x !! k = h !! k).
    { rewrite strip_hop_lookup by done. destruct (decide (k = x ∧ _)) as [[? _]|]; done. }
    rewrite (decide_ext (k ∈ l ∧ stripped (strip_hop h x) k) (k ∈ x :: l ∧ stripped h k)); [by destruct (decide (k = x ∧ _)) as [[? _]|]|].
    rewrite elem_of_cons. unfold stripped.
    destruct (decide (k ∈ l)) as [Hin|]; [|naive_solver].
    rewrite (Get_ext _ h k (Hc k ltac:(set_solver)) Hk). tauto.
Qed.

Lemma lookup_Set key v h k : CanonicalMIMEHeaderKey key = key →
  Set_ key v h !! k = if decide (k = key) then Some [v] else h !! k.
Proof.
  intros Hc. unfold Set_. rewrite Hc. case_decide; subst; [apply lookup_insert_eq|by apply lookup_insert_ne].
Qed.

Section headers.
Context `{HostPort}.

(** The value of [X-Forwarded-For] that goes out. *)
Definition forwarded (remoteAddr : string) (v : option (list string)) : option (list string) :=
  match SplitHost remoteAddr with
  | None => v
  | Some ip => match v with
               | Some [] => Some []
               | Some prior => Some [Join ", " prior +:+ ", " +:+ ip]
               | None => Some [ip]
               end
  end.

Lemma forwardedFor_lookup a h k :
  forwardedFor a h !! k = if decide (k = "X-Forwarded-For") then forwarded a (h !! k) else h !! k.
Proof.
  unfold forwardedFor, forwarded. destruct (SplitHost a) as [ip|]; [|by case_decide].
  destruct (h !! "X-Forwarded-For") as [[|p ps]|] eqn:Hx.
  - case_decide as Hk; [subst; by rewrite Hx|done].
  - rewrite lookup_Set by done. case_decide as Hk; [subst; by rewrite Hx|done].
  - rewrite lookup_Set by done. case_decide as Hk; [subst; by rewrite Hx|done].
Qed.

(** The header of the request that goes out, key by key.  A protocol
    upgrade is announced again; [X-Forwarded-For] gains the client's address;
    of the others, the headers the client listed in [Connection] are gone, and
    so is every hop-by-hop header, except [Te: trailers] and one whose first
    value is empty, which the loop takes for absent; every other header is as
    the client sent it. *)
Theorem outgoing_header_correct remoteAddr h k :
  outgoing_header remoteAddr h !! k =
    if decide (k = "X-Forwarded-For") then
      forwarded remoteAddr (if decide (listed h k) then None else h !! k)
    else if decide (upgradeType h ≠ EmptyString ∧ k = "Connection") then Some ["Upgrade"]
    else if decide (upgradeType h ≠ EmptyString ∧ k = "Upgrade") then Some [upgradeType h]
    else if decide (listed h k ∨ (k ∈ hopHeaders ∧ stripped h k)) then None
    else h !! k.
Proof.
  unfold outgoing_header. rewrite forwardedFor_lookup. set (h1 := removeConnectionHeaders h).
  assert (Hstrip : fold_left strip_hop hopHeaders h1 !! k =
    if decide (listed h k ∨ (k ∈ hopHeaders ∧ stripped h k)) then None else h !! k).
  { rewrite strip_hops_lookup; [|by apply (bool_decide_unpack _); vm_compute|by apply hop_canonical].
    change (h1 !! k) with (removeConnectionHeaders h !! k). rewrite lookup_removeConnection.
    destruct (decide (listed h k)) as [Hl|Hl]; [rewrite (decide_True _ _ (P := listed h k ∨ _)) by tauto; by case_decide|].
    assert (Hs : k ∈ hopHeaders → stripped h1 k ↔ stripped h k).
    { intros Hk. unfold stripped. rewrite (Get_ext h1 h k); [done|by apply hop_canonical|].
      unfold h1. rewrite lookup_removeConnection. by rewrite decide_False. }
    do 2 case_decide; try done; exfalso; tauto. }
  destruct (decide (k = "X-Forwarded-For")) as [->|Hx].
  - f_equal.
    assert (Hn : "X-Forwarded-For" ∉ hopHeaders) by (apply (bool_decide_unpack _); vm_compute; exact I).
    assert (Hd : ∀ (A : Type) (a b : A), (if decide (listed h "X-Forwarded-For" ∨ ("X-Forwarded-For" ∈ hopHeaders ∧ stripped h "X-Forwarded-For")) then a else b)
       = if decide (listed h "X-Forwarded-For") then a else b) by (intros; do 2 case_decide; tauto).
    rewrite Hd in Hstrip. destruct (decide (upgradeType h ≠ EmptyString)); [|done].
    rewrite !lookup_Set by done. by rewrite !decide_False by done.
  - destruct (decide (upgradeType h ≠ EmptyString)) as [Hu|Hu].
    + rewrite !lookup_Set, Hstrip by done. clear Hstrip.
      rewrite (decide_ext (upgradeType h ≠ EmptyString ∧ k = "Connection") (k = "Connection")) by tauto.
      rewrite (decide_ext (upgradeType h ≠ EmptyString ∧ k = "Upgrade") (k = "Upgrade")) by tauto.
      destruct (decide (k = "Connection")) as [->|]; [by destruct (decide _)|].
      by destruct (decide (k = "Upgrade")).
    + rewrite Hstrip. clear Hstrip.
      destruct (decide (_ ∧ k = "Connection")) as [[? _]|]; [done|].
      by destruct (decide (_ ∧ k = "Upgrade")) as [[? _]|].
Qed.

(** What comes back loses the hop-by-hop headers whatever their values. *)
Lemma lookup_incoming h k :
  incoming_header h !! k = if decide (listed h k ∨ k ∈ hopHeaders) then None else h !! k.
Proof.
  unfold incoming_header. rewrite lookup_dels, lookup_removeConnection.
  assert (Hmap : CanonicalMIMEHeaderKey <$> hopHeaders = hopHeaders) by (vm_compute; reflexivity). rewrite Hmap.
  destruct (decide (k ∈ hopHeaders)), (decide (listed h k)); case_decide; naive_solver.
Qed.
End headers.

(** ** Copying: every turn makes progress, and the bytes arrive in order *)

Lemma take_drop_bytes n s : take_bytes n s +:+ drop_bytes n s = s.
Proof. revert s. induction n as [|n IH]; intros [|a s]; simpl; try done. f_equal. apply IH. Qed.
Lemma length_take_bytes n s : String.length (take_bytes n s) = n `min` String.length s.
Proof. revert s. induction n as [|n IH]; intros [|a s]; simpl; try done. f_equal. apply IH. Qed.
Lemma take_bytes_full s : take_bytes (String.length s) s = s.
Proof. pose proof (take_bytes_app s EmptyString) as Ht. by rewrite app_nil_r_str in Ht. Qed.

Lemma content_cons s rest e tg : content (mkSource (s :: rest) e tg) = s +:+ content (mkSource rest e tg).
Proof. unfold content. simpl. destruct rest; simpl; [by rewrite app_nil_r_str|done]. Qed.

(** One [Read]: the bytes it returns come off the front of the content; an
    error comes only at the end; otherwise fewer turns are left. *)
Lemma Read_spec n src data rerr src' : (0 < n)%nat → Read n src = (data, rerr, src') →
  content src = data +:+ content src' ∧ s_end src' = s_end src ∧ (String.length data ≤ n)%nat ∧
  match rerr with
  | Some e => e = s_end src ∧ content src' = EmptyString
  | None => (turns src' < turns src)%nat
  end.
Proof.
  intros Hn. unfold Read, turns. destruct src as [[|s rest] e tg]; cbn [segs s_end s_together].
  { intros [= <- <- <-]. split_and!; [done|done|simpl; lia|done|done]. }
  rewrite content_cons. destruct (Nat.leb_spec (String.length s) n) as [Hle|Hlt]; intros [= <- <- <-].
  - split_and!; [done|done|done|]. rewrite length_app_str. destruct rest; [destruct tg; [done|]|]; simpl; lia.
  - rewrite content_cons, <- app_assoc_str, take_drop_bytes. split_and!; [done|done|rewrite length_take_bytes; lia|].
    rewrite !length_app_str. pose proof (f_equal String.length (take_drop_bytes n s)) as Hl.
    rewrite length_app_str, length_take_bytes in Hl. simpl. lia.
Qed.

(** What the copy needs to know of a writer: it takes a prefix of what it is
    given. *)
Class LawfulWriter (W : Type) `{Writer W} := {
  written_of : W → string;
  write_prefix p w n e w' : Write p w = (n, e, w') →
    (n ≤ String.length p)%nat ∧ written_of w' = written_of w +:+ take_bytes n p;
}.
(** A writer that never fails. *)
Definition total_writer (W : Type) `{Writer W} : Prop :=
  ∀ p w n e w', Write p w = (n, e, w') → n = String.length p ∧ e = None.

Lemma int64_add_l a b : int64 (int64 a + b) = int64 (a + b).
Proof.
  unfold int64, wrap. change (64 - 1)%Z with 63%Z.
  replace ((a + 2 ^ 63) `mod` 2 ^ 64 - 2 ^ 63 + b + 2 ^ 63)%Z with ((a + 2 ^ 63) `mod` 2 ^ 64 + b)%Z by lia.
  rewrite Z.add_mod_idemp_l by lia. f_equal. f_equal. lia.
Qed.

Lemma int64_idemp z : int64 (int64 z) = int64 z.
Proof. pose proof (int64_add_l z 0) as Hz. by rewrite !Z.add_0_r in Hz. Qed.

Section copying.
Context {W : Type} `{LawfulWriter W}.

(** What a copy has done when it returns. *)
Definition copied (src : source) (dst : W) (written0 written : Z) (err : option copy_err) (dst' : W) : Prop :=
  ∃ got rest, content src = got +:+ rest ∧ written_of dst' = written_of dst +:+ got ∧
    written = int64 (written0 + Z.of_nat (String.length got)) ∧
    match err with
    | None => rest = EmptyString ∧ s_end src = EOF
    | Some (ReadError e) => rest = EmptyString ∧ e = s_end src ∧ e ≠ EOF
    | Some _ => True
    end.

Lemma copyBuffer_loop fuel buf src dst written :
  (0 < buf)%nat → (turns src ≤ fuel)%nat → int64 written = written →
  ∃ written' err dst', copyBuffer fuel buf src dst written = Some (written', err, dst') ∧
    copied src dst written written' err dst'.
Proof.
  intros Hbuf. revert src dst written. induction fuel as [|fuel IH]; intros src dst written Hf Hw; [unfold turns in Hf; lia|].
  cbn [copyBuffer]. destruct (Read buf src) as [[data rerr] src'] eqn:Hr.
  destruct (Read_spec _ _ _ _ _ Hbuf Hr) as (Hc & He & _ & Hrest).
  assert (Hstep : ∃ nw werr dst1 written1,
    (if (0 <? String.length data)%nat then
       let '(nw, werr, dst) := Write data dst in
       (nw, werr, dst, if (0 <? nw)%nat then int64 (written + Z.of_nat nw) else written)
     else (String.length data, None, dst, written)) = (nw, werr, dst1, written1) ∧
    (nw ≤ String.length data)%nat ∧ written_of dst1 = written_of dst +:+ take_bytes nw data ∧
    written1 = int64 (written + Z.of_nat nw)).
  { destruct (Nat.ltb_spec 0 (String.length data)) as [Hpos|Hzero].
    - destruct (Write data dst) as [[nw werr] dst1] eqn:Hwr. destruct (write_prefix _ _ _ _ _ Hwr) as [Hle Heq].
      exists nw, werr, dst1. eexists. split_and!; try done. destruct (Nat.ltb_spec 0 nw); [done|].
      replace nw with 0 by lia. by rewrite Z.add_0_r.
    - exists (String.length data), None, dst, written. destruct data; [|simpl in Hzero; lia].
      split_and!; [done|done|simpl; by rewrite app_nil_r_str|simpl; by rewrite Z.add_0_r]. }
  destruct Hstep as (nw & werr & dst1 & written1 & -> & Hle & Hdst & Hwr1).
  assert (Hpart : ∀ err, (∀ e, err ≠ ReadError e) → copied src dst written written1 (Some err) dst1).
  { intros err Hne. exists (take_bytes nw data), (drop_bytes nw data +:+ content src').
    split_and!; [by rewrite <- app_assoc_str, take_drop_bytes|done|rewrite length_take_bytes, Nat.min_l by lia; done|].
    destruct err; [done|done|by destruct (Hne e)]. }
  destruct werr as [e|]; [eexists _, _, _; split; [done|by apply Hpart]|].
  destruct (decide (String.length data ≠ nw)) as [?|Hn]; [eexists _, _, _; split; [done|by apply Hpart]|].
  apply dec_stable in Hn. subst nw. rewrite take_bytes_full in Hdst.
  destruct rerr as [e|].
  - destruct Hrest as [-> Hend].
    assert (Hall : content src = data +:+ EmptyString ∧ written_of dst1 = written_of dst +:+ data ∧
      written1 = int64 (written + Z.of_nat (String.length data))) by (rewrite Hc, Hend; done).
    destruct (s_end src) eqn:Hse; eexists _, _, _; (split; [done|]);
      exists data, EmptyString; rewrite ?Hse; naive_solver.
  - destruct (IH src' dst1 written1) as (written' & err & dst' & Hcopy & got & rest & Hc' & Hd' & Hw' & Herr).
    { lia. } { subst written1. apply int64_idemp. }
    exists written', err, dst'. split; [done|]. exists (data +:+ got), rest. rewrite He in Herr.
    split_and!; [by rewrite Hc, Hc', app_assoc_str|by rewrite Hd', Hdst, app_assoc_str| |done].
    rewrite Hw', Hwr1, int64_add_l, length_app_str. f_equal. lia.
Qed.
End copying.

(** The copy of a body ends and loses nothing: for a buffer of at least
    one byte, whatever the sizes of the segments that arrive and whatever the
    writer does, the loop returns within one turn per segment and byte; the
    bytes written are the front of the content in order, counted in 64 bits;
    it reports no error only when the whole content was written and the source
    ended with EOF, and a read error only after everything before it was
    written. *)
Theorem copyBuffer_terminates {W} `{LawfulWriter W} buf src dst :
  (0 < buf)%nat →
  ∃ written err dst', copyBuffer (turns src) buf src dst 0 = Some (written, err, dst') ∧
    copied src dst 0 written err dst'.
Proof. intros Hbuf. by apply copyBuffer_loop. Qed.

(** ** The latency writer: no byte waits for ever *)

(** A writer that may hold bytes back until it is flushed. *)
Class FlushLaws (W : Type) `{LawfulWriter W} `{Flusher W} := {
  dirty : W → bool;
  flush_clean w : dirty (Flush w) = false;
  flush_written w : written_of (Flush w) = written_of w;
}.

Section latency_properties.
Context {W : Type} `{FlushLaws W}.
Implicit Types m : maxLatencyWriter W.

#[export] Instance mlw_lawful : LawfulWriter (maxLatencyWriter W).
Proof.
  refine {| written_of m := written_of (m_dst m) |}.
  intros p w n e w'. cbn [Write mlw_Writer]. unfold mlw_Write.
  destruct (Write p (m_dst w)) as [[n1 e1] dst] eqn:Hw. destruct (write_prefix _ _ _ _ _ Hw) as [Hn Hd].
  intros [= <- <- <-]. split; [done|]. cbn [m_latency m_flushPending].
  destruct (m_latency w <? 0)%Z; cbn [m_dst]; [by rewrite flush_written|]. by destruct (m_flushPending w).
Defined.

Lemma mlw_total : total_writer W → total_writer (maxLatencyWriter W).
Proof.
  intros Ht p w n e w'. cbn [Write mlw_Writer]. unfold mlw_Write.
  destruct (Write p (m_dst w)) as [[n1 e1] dst] eqn:Hw. intros [= <- <- _]. by eapply Ht.
Qed.

(** Bytes held back have a flush on its way: the timer is armed or its
    goroutine is running. *)
Definition flush_coming m : Prop :=
  (m_flushPending m = true → m_t m = Some true ∨ (0 < m_firing m)%nat) ∧
  (m_flushPending m = false → dirty (m_dst m) = false).

Lemma mlw_step_coming m m' : (0 ≤ m_latency m)%Z → mlw_step m m' →
  flush_coming m → flush_coming m' ∧ m_latency m' = m_latency m.
Proof.
  intros Hl Hs [Hp Hd]. destruct Hs as [p m n err m' Hw|m Ht|m k Hk].
  - revert Hw. unfold mlw_Write. destruct (Write p (m_dst m)) as [[n1 e1] dst] eqn:Hw. intros [= <- <- <-].
    cbn [m_latency m_flushPending]. destruct (Z.ltb_spec (m_latency m) 0); [lia|].
    destruct (m_flushPending m) eqn:Hf; (split; [|done]); split; cbn [m_flushPending m_t m_firing m_dst]; rewrite ?Hf; try done; auto.
  - split; [|done]. split; cbn [m_flushPending m_t m_firing m_dst]; [intros _; right; lia|done].
  - unfold delayedFlush. destruct (m_flushPending m) eqn:Hf; cbn [negb]; (split; [|done]);
      split; cbn [m_flushPending m_dst]; rewrite ?Hf; try done; intros _; first [apply flush_clean|auto].
Qed.

(** The latency writer of a streamed response: from the state
    [copyResponse] sets up, with a positive latency and until it is stopped,
    whatever the interleaving of writes, of the timer and of its goroutine, if
    some written byte is not flushed then the timer is armed or its goroutine
    has started, and letting those two run flushes everything and writes
    nothing. *)
Theorem latency_writer_flushes (dst : W) latency m :
  (0 < latency)%Z → rtc mlw_step (newLatencyWriter dst latency) m → dirty (m_dst m) = true →
  (m_t m = Some true ∨ (0 < m_firing m)%nat) ∧
  ∃ m', rtc mlw_step m m' ∧ dirty (m_dst m') = false ∧ written_of (m_dst m') = written_of (m_dst m).
Proof.
  intros Hl Hr Hdirty.
  assert (Hinv : flush_coming m ∧ m_latency m = latency).
  { clear Hdirty. revert m Hr.
    apply (rtc_ind_r (λ m, flush_coming m ∧ m_latency m = latency) (newLatencyWriter dst latency)).
    - split; [split; [by left|done]|done].
    - intros y z _ Hs [Hi Hlat]. destruct (mlw_step_coming y z) as [Hz ->]; [lia|done|done|]. done. }
  destruct Hinv as [[Hp Hd] Hlat].
  destruct (m_flushPending m) eqn:Hf; [|by rewrite Hd in Hdirty]. specialize (Hp eq_refl). split; [done|].
  assert (Hrun : ∀ m1 k, m_firing m1 = S k → m_flushPending m1 = true → m_dst m1 = m_dst m →
    ∃ m', rtc mlw_step m1 m' ∧ dirty (m_dst m') = false ∧ written_of (m_dst m') = written_of (m_dst m)).
  { intros m1 k Hk Hf1 Hm1. eexists. split; [by apply rtc_once, (mlw_run _ k)|].
    unfold delayedFlush. rewrite Hf1. cbn [negb m_dst]. rewrite flush_written, Hm1. by rewrite flush_clean. }
  destruct Hp as [Ht|Hk].
  - destruct (Hrun (mkMLW (m_dst m) (m_latency m) (Some false) (m_flushPending m) (S (m_firing m))) (m_firing m))
      as (m' & Hm' & Hrest); [done..|].
    exists m'. split; [|done]. eapply rtc_l; [by apply mlw_fire|done].
  - destruct (m_firing m) as [|k] eqn:Hkk; [lia|]. by apply (Hrun m k).
Qed.

(** A writer whose latency is negative flushes with every write. *)
Lemma immediate_flush m p n err m' : (m_latency m < 0)%Z → mlw_Write p m = (n, err, m') → dirty (m_dst m') = false.
Proof.
  intros Hl. unfold mlw_Write. destruct (Write p (m_dst m)) as [[n1 e1] dst]. intros [= <- <- <-].
  cbn [m_latency]. destruct (Z.ltb_spec (m_latency m) 0); [apply flush_clean|lia].
Qed.
End latency_properties.

#[export] Instance rw_lawful : LawfulWriter responseWriter.
Proof.
  refine {| written_of := w_Body |}. cbn. intros p w n e w' [= <- <- <-]. split; [done|]. rewrite take_bytes_full.
  unfold WriteHeader. by destruct (w_Sent w).
Defined.
#[export] Instance rw_flush_laws : FlushLaws responseWriter.
Proof.
  refine {| dirty w := negb (bool_decide (w_Flushed w = String.length (w_Body w))) |}.
  - intros w. cbn. unfold WriteHeader. destruct (w_Sent w); cbn; by rewrite bool_decide_eq_true_2.
  - intros w. cbn. unfold WriteHeader. by destruct (w_Sent w).
Defined.
Lemma rw_total : total_writer responseWriter.
Proof. by intros p w n e w' [= <- <- _]. Qed.

(** ** The whole exchange *)

Section serve_properties.
Context {W : Type} `{FlushLaws W}.

(** The body copied to a writer that does not fail: all of it, and the error
    the source ended with. *)
Lemma copyBuffer_total {V} `{LawfulWriter V} fuel buf src (dst : V) written :
  total_writer V → (0 < buf)%nat → (turns src ≤ fuel)%nat → int64 written = written →
  ∃ written' dst', copyBuffer fuel buf src dst written =
      Some (written', match s_end src with EOF => None | e => Some (ReadError e) end, dst') ∧
    written_of dst' = written_of dst +:+ content src.
Proof.
  intros Ht Hb Hf Hw.
  destruct (copyBuffer_loop fuel buf src dst written Hb Hf Hw) as (w' & err & dst' & Hc & got & rest & Hcont & Hd & _ & Herr).
  assert (Hno : ∀ fuel src dst written w' err dst', copyBuffer fuel buf src dst written = Some (w', err, dst') →
    match err with Some (WriteError _) | Some ErrShortWrite => False | _ => True end).
  { clear -Ht. induction fuel as [|fuel IH]; intros src dst written w' err dst'; [done|]. cbn [copyBuffer].
    destruct (Read buf src) as [[data rerr] src']. destruct (Nat.ltb_spec 0 (String.length data)).
    - destruct (Write data dst) as [[nw werr] dst1] eqn:Hwr. destruct (Ht _ _ _ _ _ Hwr) as [-> ->].
      destruct (decide _) as [Hx|_]; [done|]. destruct rerr as [[]|]; [by intros [= <- <- <-]..|apply IH].
    - destruct (decide _) as [Hx|_]; [done|]. destruct rerr as [[]|]; [by intros [= <- <- <-]..|apply IH]. }
  specialize (Hno _ _ _ _ _ _ _ Hc). exists w', dst'. rewrite Hc.
  assert (Hrest : rest = EmptyString ∧ err = match s_end src with EOF => None | e => Some (ReadError e) end).
  { destruct err as [[| |e]|]; [done..| |]; [destruct Herr as (-> & -> & Hne); by destruct (s_end src)|].
    destruct Herr as [-> ->]. done. }
  destruct Hrest as [-> ->]. split; [done|]. by rewrite Hd, Hcont, app_nil_r_str.
Qed.

Lemma copyResponse_total buf src (dst : W) interval :
  total_writer W → (0 < buf)%nat →
  ∃ dst', copyResponse (turns src) buf dst src interval =
      Some (match s_end src with EOF => None | e => Some (ReadError e) end, dst') ∧
    written_of dst' = written_of dst +:+ content src.
Proof.
  intros Ht Hb. unfold copyResponse. destruct (decide (interval ≠ 0%Z)).
  - destruct (copyBuffer_total (turns src) buf src (newLatencyWriter dst interval) 0) as (w' & m & -> & Hm);
      [by apply mlw_total|done|done|done|]. exists (m_dst m). done.
  - destruct (copyBuffer_total (turns src) buf src dst 0) as (w' & m & -> & Hm); [done..|]. by exists m.
Qed.
End serve_properties.

Definition canonical_keys (h : Header) : Prop := ∀ k, is_Some (h !! k) → CanonicalMIMEHeaderKey k = k.

Lemma add_all_lookup key vs h k : CanonicalMIMEHeaderKey key = key →
  fold_left (λ h v, Add key v h) vs h !! k =
    if decide (k = key ∧ vs ≠ []) then Some (default [] (h !! k) ++ vs) else h !! k.
Proof.
  intros Hc. revert h. induction vs as [|v vs IH]; intros h; cbn [fold_left]; [by destruct (decide _) as [[_ ?]|]|].
  rewrite IH. unfold Add, Values. rewrite Hc. destruct (decide (k = key)) as [->|Hne].
  - rewrite lookup_insert_eq. rewrite (decide_True (P := key = key ∧ v :: vs ≠ [])) by done. cbn [default].
    destruct vs as [|v' vs]; [by destruct (decide _) as [[_ ?]|]|].
    rewrite decide_True by done. cbn. by rewrite <- app_assoc.
  - rewrite lookup_insert_ne by done. by do 2 destruct (decide (k = key ∧ _)) as [[? _]|].
Qed.

Lemma copyHeader_lookup `{RangeOrder} dst src k : canonical_keys src →
  copyHeader dst src !! k =
    match src !! k with Some (v :: vs) => Some (default [] (dst !! k) ++ v :: vs) | _ => dst !! k end.
Proof.
  intros Hc. unfold copyHeader.
  assert (Hloop : ∀ l h, NoDup l → (∀ x, x ∈ l → is_Some (src !! x)) →
    fold_left (λ h k, fold_left (λ h v, Add k v h) (default [] (src !! k)) h) l h !! k =
      if decide (k ∈ l ∧ default [] (src !! k) ≠ []) then Some (default [] (h !! k) ++ default [] (src !! k)) else h !! k).
  { induction l as [|x l IH]; intros h Hnd Hs; cbn [fold_left].
    { destruct (decide _) as [[Hk _]|]; [by apply elem_of_nil in Hk|done]. }
    apply NoDup_cons in Hnd as [Hx Hnd]. rewrite IH; [|done|intros y Hy; apply Hs; set_solver].
    rewrite add_all_lookup by (apply Hc, Hs; set_solver).
    destruct (decide (k = x)) as [->|Hne].
    - destruct (decide (x ∈ l ∧ _)) as [[? _]|]; [done|]. apply decide_ext. rewrite elem_of_cons. naive_solver.
    - destruct (decide (k = x ∧ _)) as [[? _]|]; [done|]. apply decide_ext. rewrite elem_of_cons. naive_solver. }
  rewrite Hloop; [|apply NoDup_range_keys|intros x; apply elem_of_range_keys].
  destruct (src !! k) as [[|v vs]|] eqn:Hk; cbn [default].
  - by destruct (decide _) as [[_ ?]|].
  - rewrite decide_True; [done|]. split; [|done]. apply elem_of_range_keys. by eexists.
  - by destruct (decide _) as [[_ ?]|].
Qed.

Lemma incoming_canonical h : canonical_keys h → canonical_keys (incoming_header h).
Proof.
  intros Hc k [v Hv]. rewrite lookup_incoming in Hv.
  destruct (decide (listed h k ∨ k ∈ hopHeaders)); [done|]. apply Hc. by exists v.
Qed.

(** What every write preserves, the copy preserves. *)
Lemma copyBuffer_preserves {V} `{Writer V} (P : V → Prop) fuel buf src dst written w' err dst' :
  (∀ p v n e v', Write p v = (n, e, v') → P v → P v') →
  copyBuffer fuel buf src dst written = Some (w', err, dst') → P dst → P dst'.
Proof.
  intros HP. revert src dst written. induction fuel as [|fuel IH]; intros src dst written; [done|]. cbn [copyBuffer].
  destruct (Read buf src) as [[data rerr] src']. destruct (0 <? String.length data)%nat.
  - destruct (Write data dst) as [[nw werr] dst1] eqn:Hw. intros Hc Hd. specialize (HP _ _ _ _ _ Hw Hd).
    destruct werr; [by simplify_eq|]. destruct (decide _); [by simplify_eq|].
    destruct rerr as [[]|]; [by simplify_eq..|by eapply IH].
  - destruct (decide _); [by intros; simplify_eq|]. destruct rerr as [[]|]; [by intros; simplify_eq..|by apply IH].
Qed.

Lemma flush_sent (w : responseWriter) sent : w_Sent w = Some sent → w_Sent (Flush w) = Some sent.
Proof. intros Hs. cbn. unfold WriteHeader. by rewrite Hs. Qed.

Lemma copyResponse_sent buf src (w w' : responseWriter) interval err sent :
  w_Sent w = Some sent → copyResponse (turns src) buf w src interval = Some (err, w') → w_Sent w' = Some sent.
Proof.
  intros Hs. unfold copyResponse.
  assert (Hwr : ∀ p (v : responseWriter) n e v', Write p v = (n, e, v') → w_Sent v = Some sent → w_Sent v' = Some sent).
  { cbn. intros p v n e v' [= <- <- <-] Hv. unfold WriteHeader. by rewrite Hv. }
  destruct (decide _).
  - destruct (copyBuffer _ _ _ _ _) as [[[wr er] m]|] eqn:Hc; [|done]. cbn. intros [= <- <-].
    eapply (copyBuffer_preserves (λ m : maxLatencyWriter responseWriter, w_Sent (m_dst m) = Some sent)) in Hc; [done| |done].
    cbn [Write mlw_Writer]. intros q v k e v'. unfold mlw_Write. destruct (Write q (m_dst v)) as [[n1 e1] dst] eqn:Hw. intros [= <- <- <-] Hv.
    pose proof (Hwr _ _ _ _ _ Hw Hv) as Hd. cbn [m_latency m_flushPending].
    destruct (m_latency v <? 0)%Z; cbn [m_dst]; [exact (flush_sent _ _ Hd)|]. by destruct (m_flushPending v).
  - destruct (copyBuffer _ _ _ _ _) as [[[wr er] m]|] eqn:Hc; [|done]. cbn. intros [= <- <-].
    by eapply (copyBuffer_preserves (λ v, w_Sent v = Some sent)) in Hc.
Qed.

Lemma trailers_keep `{RangeOrder} res w sent : w_Sent w = Some sent →
  w_Sent (trailers res w) = Some sent ∧ w_Body (trailers res w) = w_Body w.
Proof.
  intros Hs. unfold trailers. assert (Hf : w_Sent (Flush w) = Some sent ∧ w_Body (Flush w) = w_Body w).
  { cbn. unfold WriteHeader. rewrite Hs. done. }
  destruct (decide (0 < _)); destruct (decide _); cbn; done.
Qed.

Section exchange.
Context `{RangeOrder} `{HostPort}.

(** Whether a body that ended with [e] still ends the exchange normally. *)
Definition ends_normally (e : read_err) : bool :=
  match e with EOF | HashChangedError _ _ => true | _ => false end.

(** C39. A response that is no protocol switch reaches the client as it is: for
    a fresh response writer, if the transport answers with a final code of HTTP
    (200 to 999) and header keys in their canonical form, and the caller's hook
    agrees, the client gets the backend's status; every header of the backend
    except the hop-by-hop ones and those it lists in [Connection] (and
    [Trailer], which the proxy announces itself), appended to what the writer
    had; and, where the answer may have one, the whole body in order, whatever
    the buffer and the flush interval.  A body that breaks off aborts the connection after everything
    that arrived was written. *)
Theorem ServeHTTP_relays {S} (p : ReverseProxy S) RoundTrip conn w req (s s' : S) res :
  RoundTrip (outgoing (Director p) req) = Ok res → p_StatusCode res ≠ StatusSwitchingProtocols →
  (200 ≤ p_StatusCode res ≤ 999)%Z →
  modifyResponse p (with_resp_header (incoming_header (p_Header res)) res) s = (None, s') →
  canonical_keys (p_Header res) → w_Sent w = None → w_Body w = EmptyString →
  ∃ w' h, ServeHTTP p RoundTrip conn w req s =
      ((if ends_normally (s_end (p_Body res)) then Finished w' else ErrAbortHandler w'), s') ∧
    w_Sent w' = Some (p_StatusCode res, h) ∧ w_Body w' = content (p_Body res) ∧
    ∀ k, k ≠ "Trailer" →
      h !! k = match p_Header res !! k with
               | Some (v :: vs) => if decide (listed (p_Header res) k ∨ k ∈ hopHeaders) then w_Header w !! k
                                   else Some (default [] (w_Header w !! k) ++ v :: vs)
               | _ => w_Header w !! k
               end.
Proof.
  intros Hrt Hcode Hrange Hmod Hcan Hsent Hbody. unfold ServeHTTP. rewrite Hrt, decide_False, Hmod by done.
  unfold relay. cbn [p_Header p_Announced p_StatusCode p_Body with_resp_header].
  rewrite WriteHeader_ok_range by lia. cbn [negb].
  set (h1 := copyHeader (w_Header w) (incoming_header (p_Header res))).
  set (w2 := if decide (p_Announced res ≠ []) then _ else _).
  set (w3 := WriteHeader (p_StatusCode res) w2). set (interval := flushInterval _ _).
  assert (Hw2 : w_Sent w2 = None ∧ w_Body w2 = EmptyString ∧ ∀ k, k ≠ "Trailer" → w_Header w2 !! k = h1 !! k).
  { unfold w2. destruct (decide _); cbn; [|done]. split_and!; [done|done|]. intros k Hk. unfold Add.
    by rewrite lookup_insert_ne. }
  destruct Hw2 as (Hs2 & Hb2 & Hh2).
  assert (Hs3 : w_Sent w3 = Some (p_StatusCode res, w_Header w2) ∧ w_Body w3 = EmptyString).
  { unfold w3, WriteHeader. rewrite Hs2, final_code by lia. done. } destruct Hs3 as [Hs3 Hb3].
  set (buf := if decide (BufferLen p = 0) then _ else _).
  assert (Hbuf : (0 < buf)%nat) by (unfold buf; destruct (decide (BufferLen p = 0)); [unfold defaultBuffer|]; lia).
  destruct (copyResponse_total buf (p_Body res) w3 interval rw_total Hbuf) as (w4 & Hc & Hb4). rewrite Hc.
  pose proof (copyResponse_sent _ _ _ _ _ _ _ Hs3 Hc) as Hs4.
  change (w_Body w4 = w_Body w3 +:+ content (p_Body res)) in Hb4. rewrite Hb3 in Hb4.
  change (w_Body w4 = content (p_Body res)) in Hb4.
  assert (Hk : ∀ k, k ≠ "Trailer" → w_Header w2 !! k = match p_Header res !! k with
    | Some (v :: vs) => if decide (listed (p_Header res) k ∨ k ∈ hopHeaders) then w_Header w !! k
                        else Some (default [] (w_Header w !! k) ++ v :: vs)
    | _ => w_Header w !! k end).
  { intros k Hk. rewrite Hh2 by done. unfold h1.
    rewrite copyHeader_lookup by by apply incoming_canonical.
    rewrite lookup_incoming.
    destruct (decide (listed (p_Header res) k ∨ k ∈ hopHeaders)); by destruct (p_Header res !! k) as [[|v vs]|]. }
  destruct (trailers_keep (with_resp_header (incoming_header (p_Header res)) res) w4 _ Hs4) as [Hs5 Hb5].
  assert (Hfin : w_Sent (WriteHeader StatusBadGateway w4) = Some (p_StatusCode res, w_Header w2) ∧
    w_Body (WriteHeader StatusBadGateway w4) = w_Body w4) by (unfold WriteHeader; by rewrite Hs4).
  destruct (s_end (p_Body res)) eqn:He; cbn [ends_normally IsHashChangedError]; eexists _, (w_Header w2);
    (split; [done|]); split_and!; try done;
    first [by rewrite Hb5|by destruct Hfin as [? ->]|by destruct Hfin as [-> ?]].
Qed.

(** Without an answer from the backend, or when the caller's hook refuses
    the answer, a fresh client gets 502 and an empty body, and without an answer
    the hook is not run. *)
Theorem ServeHTTP_bad_gateway {S} (p : ReverseProxy S) RoundTrip conn w req (s : S) :
  w_Sent w = None →
  match RoundTrip (outgoing (Director p) req) with
  | Err _ => ServeHTTP p RoundTrip conn w req s =
      (Finished (mkRW (w_Header w) (Some (StatusBadGateway, w_Header w)) (w_Body w) (w_Flushed w)), s)
  | Ok res => ∀ msg s', (∀ h, modifyResponse p (with_resp_header h res) s = (Some msg, s')) →
      ServeHTTP p RoundTrip conn w req s =
      (Finished (mkRW (w_Header w) (Some (StatusBadGateway, w_Header w)) (w_Body w) (w_Flushed w)), s')
  end.
Proof.
  intros Hs. unfold ServeHTTP. assert (Hw : WriteHeader StatusBadGateway w =
    mkRW (w_Header w) (Some (StatusBadGateway, w_Header w)) (w_Body w) (w_Flushed w)) by (unfold WriteHeader; by rewrite Hs).
  destruct (RoundTrip _) as [res|e]; [|by rewrite Hw]. intros msg s' Hm. destruct (decide _).
  - specialize (Hm (p_Header res)). assert (Hres : with_resp_header (p_Header res) res = res) by by destruct res.
    rewrite Hres in Hm. rewrite Hm. by rewrite Hw.
  - rewrite Hm. by rewrite Hw.
Qed.
End exchange.

(** ** Deviations *)

(** A header whose first value is empty escapes the loop over [hopHeaders]: a
    client that sends [Connection] twice, first empty, keeps its [Connection]
    header on the way to the backend. *)
Lemma empty_connection_value_passes `{HostPort} remoteAddr h vs :
  h !! "Connection" = Some (EmptyString :: vs) → upgradeType h = EmptyString → ¬ listed h "Connection" →
  outgoing_header remoteAddr h !! "Connection" = Some (EmptyString :: vs).
Proof.
  intros Hh Hu Hl. unfold outgoing_header. rewrite forwardedFor_lookup, decide_False by done.
  rewrite (decide_False (P := upgradeType h ≠ EmptyString)) by naive_solver.
  rewrite strip_hops_lookup; [|by apply (bool_decide_unpack _); vm_compute|by apply hop_canonical].
  rewrite decide_False.
  - by rewrite lookup_removeConnection, decide_False.
  - intros [_ [Hne _]]. apply Hne. unfold Get, Values.
    change (CanonicalMIMEHeaderKey "Connection") with "Connection".
    by rewrite lookup_removeConnection, decide_False, Hh by done.
Qed.

(** The slash between a target and a path is there exactly once. *)
Lemma singleJoiningSlash_plain a b :
  HasSuffix a "/" = false → singleJoiningSlash a ("/" +:+ b) = a +:+ "/" +:+ b.
Proof. intros Ha. unfold singleJoiningSlash. rewrite Ha. unfold HasPrefix. by rewrite prefix_app. Qed.

(** ** Witnesses *)

Section witness.
#[local] Instance demo_hostport : HostPort := {| SplitHost a := if decide (a = EmptyString) then None else Some a |}.
#[local] Existing Instance order_fwd.

Definition demo_header : Header :=
  {["Connection" := ["close, X-Trace"]; "X-Trace" := ["1"]; "Te" := ["trailers"]; "Accept" := ["*/*"];
    "Keep-Alive" := ["5"]; "X-Forwarded-For" := ["10.0.0.1"]]}.
Example demo_outgoing :
  outgoing_header "10.0.0.2" demo_header =
    {["Te" := ["trailers"]; "Accept" := ["*/*"]; "X-Forwarded-For" := ["10.0.0.1, 10.0.0.2"]]}.
Proof. vm_compute. reflexivity. Qed.

Example demo_leak :
  outgoing_header EmptyString {["Connection" := [EmptyString; "x-secret"]]} !! "Connection" = Some [EmptyString; "x-secret"].
Proof. vm_compute. reflexivity. Qed.

Definition demo_source : source := mkSource ["hello "; "world"] EOF true.
Lemma copyBuffer_terminates_witness :
  ∃ written err dst', copyBuffer (turns demo_source) 4 demo_source (mkRW ∅ None EmptyString 0) 0
                      = Some (written, err, dst').
Proof.
  destruct (copyBuffer_terminates 4 demo_source (mkRW ∅ None EmptyString 0)) as (written & err & dst' & Hc & _);
    [lia|]. exists written, err, dst'. exact Hc.
Defined.

Definition demo_stuck : maxLatencyWriter responseWriter :=
  mkMLW (mkRW ∅ (Some (200%Z, ∅)) "x" 0) 500 (Some true) true 0.
Lemma latency_writer_flushes_witness :
  ∃ m', rtc mlw_step demo_stuck m' ∧ dirty (m_dst m') = false.
Proof.
  destruct (latency_writer_flushes (mkRW ∅ (Some (200%Z, ∅)) EmptyString 0) 500 demo_stuck) as (_ & m' & Hm & Hd & _);
    [lia|eapply rtc_once, (mlw_write "x"); reflexivity|reflexivity|]. by exists m'.
Defined.

Definition demo_resp : Resp :=
  mkResp 200 {["Content-Type" := ["text/plain"]; "Connection" := ["close"]]} 11 demo_source [] ∅ false.
Definition demo_proxy : ReverseProxy unit := mkProxy id 0 0 None.
Lemma ServeHTTP_relays_witness :
  ∃ w' h, ServeHTTP demo_proxy (λ _, Ok demo_resp) (mkConn false None) (mkRW ∅ None EmptyString 0)
      (mkReq (mkRURL "http" "h" "/x" EmptyString EmptyString) "h" demo_header "10.0.0.2" 0 None) tt = (Finished w', tt) ∧
    w_Sent w' = Some (200%Z, h) ∧ w_Body w' = "hello world".
Proof.
  destruct (ServeHTTP_relays demo_proxy (λ _, Ok demo_resp) (mkConn false None) (mkRW ∅ None EmptyString 0)
    (mkReq (mkRURL "http" "h" "/x" EmptyString EmptyString) "h" demo_header "10.0.0.2" 0 None) tt tt demo_resp)
    as (w' & h & Hs & Hsent & Hb & _); [reflexivity|discriminate|cbn; lia|reflexivity| |reflexivity|reflexivity|].
  - intros k [v Hv]. revert k v Hv.
    change (map_Forall (λ k (_ : list string), CanonicalMIMEHeaderKey k = k) (p_Header demo_resp)).
    apply (bool_decide_unpack _). vm_compute. exact I.
  - exists w', h. split; [exact Hs|]. split; [exact Hsent|]. exact Hb.
Defined.

Lemma ServeHTTP_bad_gateway_witness :
  ServeHTTP demo_proxy (λ _, Err "refused") (mkConn false None) (mkRW ∅ None EmptyString 0)
    (mkReq (mkRURL "http" "h" "/x" EmptyString EmptyString) "h" demo_header "10.0.0.2" 0 None) tt =
  (Finished (mkRW ∅ (Some (502%Z, ∅)) EmptyString 0), tt).
Proof.
  exact (ServeHTTP_bad_gateway demo_proxy (λ _, Err "refused") (mkConn false None) (mkRW ∅ None EmptyString 0)
    (mkReq (mkRURL "http" "h" "/x" EmptyString EmptyString) "h" demo_header "10.0.0.2" 0 None) tt eq_refl).
Defined.
End witness.
