(* ===== verification/ApiProxy.v ===== *)
(** * The proxies of an operator

    The chain of filters and the handler of the API-server proxy
    (src/pkg/proxy/apiserver/handler.go, src/pkg/proxy/filters), and the
    transparent HTTP proxy (src/pkg/proxy/http/http_proxy.go), composed from
    the circuit breaker, the fault injector, the leader-election handler, the
    selector injection and the reverse proxy as the code composes them. *)

From S2P Require Import Prelude GoStrings GoTime GoFloat Named Http BreakerTypes LimiterStore InterceptStore.
From S2P Require Import Lease BreakerManager BreakerRuns FaultInjection Selector ShardServer SpecManager LeaderElection Route ReverseProxy.

(** [url.Parse] with all the fields the reverse proxy reads; the other parts
    of the model read three of them. *)
Class URLParse := { url_ParseR : string → option RURL; ToStr : RURL → string }.
Definition to_URL (u : RURL) : URL := mkURL (u_Scheme u) (u_Host u) (u_Path u).
#[export] Instance parser_of `{URLParse} : UrlParser := {| url_Parse s := to_URL <$> url_ParseR s |}.

(** ** The views of a request *)

(** What the leader-election handler reads of a request, and the request it
    leaves. *)
Definition lock_view (r : Req) : HttpReq :=
  mkHttpReq (Get (q_Header r) "Content-Type") (Ok <$> q_Body r) (u_Path (q_URL r))
    (q_ContentLength r) (Get (q_Header r) "Content-Length").
Definition set_path (path : string) (u : RURL) : RURL :=
  mkRURL (u_Scheme u) (u_Host u) path (u_RawPath u) (u_RawQuery u).
Definition of_lock_view (r : Req) (v : HttpReq) : Req :=
  mkReq (set_path (hr_Path v) (q_URL r)) (q_Host r)
    (if decide (hr_ContentLengthHeader v = Get (q_Header r) "Content-Length") then q_Header r
     else Set_ "Content-Length" (hr_ContentLengthHeader v) (q_Header r))
    (q_RemoteAddr r) (hr_ContentLength v)
    (match hr_Body v with Some (Ok b) => Some b | _ => None end).

(** What the injector reads and writes. *)
Definition query_view (r : Req) : Request := mkRequest (u_RawQuery (q_URL r)) [].
Definition set_query (q : string) (u : RURL) : RURL :=
  mkRURL (u_Scheme u) (u_Host u) (u_Path u) (u_RawPath u) q.
Definition of_query_view (r : Req) (v : Request) : Req :=
  with_header (fold_left (λ h old, Add "OLD-RAW-QUERY" old h) (oldRawQuery v) (q_Header r))
    (with_url (set_query (RawQuery v) (q_URL r)) r).

(** ** The handler *)

(** What a proxy did with a request: called [WriteHeader] with the code and
    wrote the text (the client sees the first final code of a request), handed the connection to the upgrade-aware handler of the API-server
    library, sent [sent] on, or left the handler by a panic, which [net/http]
    recovers by closing the connection. *)
Inductive api_event :=
| Answered (code : Z) (msg : string)
| Upgrading (target : RURL) (r : Req)
| Proxied (sent : Req) (out : served)
| Repanicked.

(** [http.Error]. *)
Definition Error (w : responseWriter) (msg : string) (code : Z) : responseWriter :=
  let h := Set_ "X-Content-Type-Options" "nosniff" (Set_ "Content-Type" "text/plain; charset=utf-8" (w_Header w)) in
  (Write (msg +:+ String (Ascii.ascii_of_nat 10) EmptyString) (WriteHeader code (set_header h w))).2.

Definition StatusBadRequest : Z := 400.
Definition StatusForbidden : Z := 403.
Definition upgradeSubresources : list string := ["exec"; "attach"].
Definition FlushMillis : Z := 500 * 1000000.
Definition BytesPoolWidth : nat := 32 * 1024.
#[global] Arguments BytesPoolWidth : simpl never.

(** The environment of a proxy process: the flag for iptables, [cfg.Host] (a
    host without a percent sign, which [Sprintf] leaves alone), and the handler
    of leader election, absent without a lock name. *)
Record apihandler := mkApiHandler {
  ah_enableIpTable : bool; ah_cfgHost : string; ah_election : option LeaderElection.handler;
}.

Section handler.
Context `{URLParse} `{UrlEscape} `{HostPort} `{RangeOrder} `{JsonSelector} `{SelectorText} `{Codec}.
(** The transport and what the server lets the handler do. *)
Context (RoundTrip : Req → result Resp) (conn : connection) (w : responseWriter).

(** [getURL]: the target, nil when it does not parse, and the request with the
    host cleared outside iptables mode. *)
Definition getURL (h : apihandler) (r : Req) : option RURL * Req :=
  if ah_enableIpTable h then (url_ParseR ("https://" +:+ q_Host r), r)
  else (url_ParseR (ah_cfgHost h), with_host EmptyString r).

(** [newProxy] and the call of its [ServeHTTP]; a nil target panics. *)
Definition proxy_with {S} (h : apihandler) (modify : option (Resp → S → option string * S)) (r : Req) (s : S)
    : outcome (api_event * S) :=
  let '(u, r) := getURL h r in
  target ← deref u;
  let p := mkProxy (NewSingleHostReverseProxy target) FlushMillis BytesPoolWidth modify in
  let '(out, s) := ServeHTTP p RoundTrip conn w r s in
  Returns (Proxied (outgoing (Director p) r) out, s).

(** The closure of the leader-election handler as a hook of the proxy. *)
Definition leader_hook (le : LeaderState) (res : Resp) (m : SpecManager) : option string * SpecManager :=
  (None, LeaderElection.modifyResponse le (p_StatusCode res) m).
(** The hook that remembers the status for the log. *)
Definition log_hook (res : Resp) (m : SpecManager) : option string * SpecManager := (None, m).

Definition inject_and_proxy (h : apihandler) (i : RequestInfo) (r : Req) (m : SpecManager)
    : outcome (api_event * SpecManager) :=
  q ← Inject (currentSpec m) (query_view r) i;
  match q with
  | Err e => Returns (Answered StatusInternalServerError e, m)
  | Ok q => proxy_with h (Some log_hook) (of_query_view r q) m
  end.

(** [ServeHTTP] of the handler. *)
Definition handler_ServeHTTP (h : apihandler) (info : option RequestInfo) (r : Req) (m : SpecManager)
    : outcome (api_event * SpecManager) :=
  match info with
  | None => Returns (Answered StatusBadRequest "no request info in context", m)
  | Some i =>
      if ri_IsResourceRequest i && bool_decide (ri_Subresource i ∈ upgradeSubresources) then
        let '(u, r) := getURL h r in target ← deref u; Returns (Upgrading target r, m)
      else match ah_election h with
      | None => inject_and_proxy h i r m
      | Some e =>
          hd ← LeaderElection.Handle e i (lock_view r);
          let r := of_lock_view r (hd_req hd) in
          match hd_err hd with
          | Some msg => Returns (Answered StatusBadRequest msg, m)
          | None => if hd_handled hd then proxy_with h (leader_hook <$> hd_modifyResponse hd) r m
                    else inject_and_proxy h i r m
          end
      end
  end.
End handler.

(** ** The chain *)

(** The state the filters share. *)
Record world `{RateLimiter} `{Regexp} := mkWorld {
  wd_breaker : BreakerManager.manager; wd_faults : fmanager; wd_ticks : ticks; wd_spec : SpecManager;
}.
Arguments mkWorld {_ _} _ _ _ _.

Section chain.
Context `{RateLimiter} `{Clock} `{Regexp} `{RangeOrder} `{FaultEnv}.
Context `{URLParse} `{UrlEscape} `{HostPort} `{JsonSelector} `{SelectorText} `{Codec}.
Context (RoundTrip : Req → result Resp) (conn : connection) (quote : string → string).

Definition Handler := option RequestInfo → string → Req → responseWriter → world → outcome (api_event * world).

Definition inner (h : apihandler) : Handler := λ info method r w wd,
  '(ev, m) ← handler_ServeHTTP RoundTrip conn w h info r (wd_spec wd);
  Returns (ev, mkWorld (wd_breaker wd) (wd_faults wd) (wd_ticks wd) m).

(** [BreakerWrapperFunc] and [FaultInjectionWrapperFunc]. *)
Definition breakerWrapper (next : Handler) : Handler := λ info method r w wd,
  '(rep, mg) ← withBreaker info (wd_breaker wd);
  let wd := mkWorld mg (wd_faults wd) (wd_ticks wd) (wd_spec wd) in
  match rep with HttpError code msg => Returns (Answered code msg, wd) | ServeNext => next info method r w wd end.

Definition faultWrapper (next : Handler) : Handler := λ info method r w wd,
  '(rep, tk) ← withFaultInjection quote (headerSent w) info method (wd_faults wd) (wd_ticks wd);
  let wd := mkWorld (wd_breaker wd) (wd_faults wd) tk (wd_spec wd) in
  match rep with
  | NoInfo => Returns (Answered StatusInternalServerError "no RequestInfo found in the context", wd)
  | Aborted _ err => Returns (Answered (s_Code err) (s_Message err), wd)
  | Serve _ => next info method r w wd
  end.

Definition panicMessage : string := "This request caused ctrlmesh-proxy to panic. Look in the logs for details.".

(** [runtime.HandleCrash] with the handler of [WithPanicRecovery]: the handler
    answers, except to [http.ErrAbortHandler], and the panic goes on. *)
Definition HandleCrash : list api_event := [Answered StatusInternalServerError panicMessage; Repanicked].
Definition recovery (ev : api_event) : list api_event :=
  match ev with
  | Proxied _ (CodePanic _) => HandleCrash
  | Proxied _ (ErrAbortHandler _) => [Repanicked]
  | _ => []
  end.

(** [WithPanicRecovery] around [WithRequestInfo]: what is done for the request,
    in order, and the state afterwards, unless the panic of a filter leaves it
    half-way.  The text of an internal error is written without the request's
    URI that the library puts before it. *)
Definition serve1 (next : Handler) (method : string) (r : Req) (acc : list api_event * responseWriter * option world)
    (ev : info_event) : list api_event * responseWriter * option world :=
  let '(evs, w, wd) := acc in
  match wd with
  | None => acc
  | Some wd =>
      match ev with
      | InternalError msg => (evs ++ [Answered StatusInternalServerError msg], Error w msg StatusInternalServerError, Some wd)
      | ServeWith info =>
          match next (Some info) method r w wd with
          | Returns (ev, wd) => (evs ++ ev :: recovery ev, w, Some wd)
          | Panics => (evs ++ HandleCrash, w, None)
          end
      | NilURL => (evs ++ HandleCrash, w, Some wd)
      end
  end.
Definition serve (resolver : URL → result RequestInfo) (prefix : string) (next : Handler)
    (method : string) (r : Req) (w : responseWriter) (wd : world) : list api_event * responseWriter * option world :=
  fold_left (serve1 next method r) (WithRequestInfo resolver prefix (to_URL (q_URL r))) ([], w, Some wd).

(** The switches of [NewProxy]. *)
Record switches := mkSwitches { disableCircuitBreaker : bool; enableFaultInjection : bool }.

Definition NewProxy (sw : switches) (h : apihandler) : Handler :=
  let handler := inner h in
  let handler := if disableCircuitBreaker sw then handler else breakerWrapper handler in
  if enableFaultInjection sw then faultWrapper handler else handler.
End chain.

(** ** The transparent proxy *)

Record tproxy_switches := mkTSwitches { enableRestBreaker : bool; enableRestFaultInjection : bool }.

Section tproxy.
Context `{RateLimiter} `{Clock} `{Regexp} `{RangeOrder} `{FaultEnv} `{URLParse} `{HostPort}.
Context (RoundTrip : Req → result Resp) (conn : connection) (w : responseWriter) (quote : string → string).

Definition HeaderMeshRealEndpoint : string := "Mesh-Real-Endpoint".

(** The real endpoint of a request: [None] when the header does not parse. *)
Definition realEndpoint (r : Req) : option RURL :=
  let realEp := Get (q_Header r) HeaderMeshRealEndpoint in
  if decide (realEp = EmptyString) then Some (q_URL r) else url_ParseR realEp.

Definition tproxy_director (u : RURL) (r : Req) : Req :=
  with_host (u_Host u) (with_url u (with_header (Set_ "Pass-Via-Go-TProxy" "1" (q_Header r)) r)).

Definition reject (name : string) (res : ValidateResult) : api_event :=
  Answered StatusForbidden ("Forbidden by " +:+ name +:+ " breaker, " +:+ vr_Message res +:+ ", " +:+ Reason res).

(** The part after the fault injector: the intercept rules, then the limiters,
    then the proxy. *)
Definition check_and_proxy (sw : tproxy_switches) (u : RURL) (method : string) (r : Req) (mg : BreakerManager.manager)
    : outcome (api_event * BreakerManager.manager) :=
  let intercept := InterceptStore.ValidateTrafficIntercept (u_Host u) method (interceptStore mg) in
  if enableRestBreaker sw && negb (Allowed intercept) then Returns (reject " ValidateTrafficIntercept" intercept, mg)
  else
    '(res, mg) ← ValidateRest (Get (q_Header r) HeaderMeshRealEndpoint) method mg;
    if negb (Allowed res) then Returns (reject "circuit ValidateRest" res, mg)
    else
      let p := mkProxy (S := unit) (tproxy_director u) FlushMillis 0 None in
      Returns (Proxied (outgoing (Director p) r) (ServeHTTP p RoundTrip conn w r tt).1, mg).

(** The handler of the transparent proxy.  The answer to a header that does not
    parse leaves out the text of the parser's error, at its end. *)
Definition handleHTTP (sw : tproxy_switches) (method : string) (r : Req)
    (mg : BreakerManager.manager) (fm : fmanager) (tk : ticks)
    : outcome (api_event * BreakerManager.manager * ticks) :=
  match realEndpoint r with
  | None => Returns (Answered StatusInternalServerError "Can not find real endpoint in header", mg, tk)
  | Some u =>
      if enableRestFaultInjection sw then
        '(injector, tk) ← GetInjectorByUrl (to_URL u) method fm tk;
        d ← Do quote (headerSent w) method injector;
        match answer d with
        | Some err => Returns (Answered (s_Code err) (s_Message err), mg, tk)
        | None => '(ev, mg) ← check_and_proxy sw u method r mg; Returns (ev, mg, tk)
        end
      else '(ev, mg) ← check_and_proxy sw u method r mg; Returns (ev, mg, tk)
  end.
End tproxy.

(** ** Views put back *)

Lemma of_lock_view_id r : of_lock_view r (lock_view r) = r.
Proof.
  unfold of_lock_view, lock_view. cbn [hr_Path hr_ContentLengthHeader hr_ContentLength hr_Body].
  rewrite decide_True by done. destruct r as [[] ? ? ? ? []]; done.
Qed.

Section properties.
Context `{RateLimiter} `{Clock} `{Regexp} `{RangeOrder} `{FaultEnv}.
Context `{URLParse} `{UrlEscape} `{HostPort} `{JsonSelector} `{SelectorText} `{Codec}.
Context (RoundTrip : Req → result Resp) (conn : connection) (quote : string → string).
Abbreviation NewProxy := (NewProxy RoundTrip conn quote).
Abbreviation inner := (inner RoundTrip conn).
Abbreviation handler_ServeHTTP := (handler_ServeHTTP RoundTrip conn).

(** A list or watch is none of the lock requests. *)
Lemma Handle_listing e i v : ri_Verb i = "list" ∨ ri_Verb i = "watch" →
  LeaderElection.Handle e i v = Returns (mkHandled false None None v).
Proof.
  intros Hv. unfold LeaderElection.Handle, handle_verb. cbv zeta.
  assert (Hd : ri_Verb i ≠ "create" ∧ ri_Verb i ≠ "update" ∧ ri_Verb i ≠ "get") by (destruct Hv as [-> | ->]; done).
  destruct Hd as (Hc & Hu & Hg).
  repeat match goal with |- (if ?b then _ else _) = _ => destruct b; try first [done|exfalso; tauto] end.
Qed.

(** The request [r] as it stood when it was handed to the reverse proxy. *)
Definition handed (h : apihandler) (i : RequestInfo) (m : SpecManager) (r r1 : Req) : Prop :=
  (∃ e hd, ah_election h = Some e ∧ LeaderElection.Handle e i (lock_view r) = Returns hd ∧
     hd_handled hd = true ∧ hd_err hd = None ∧ r1 = of_lock_view r (hd_req hd)) ∨
  (∃ r0 q, Inject (currentSpec m) (query_view r0) i = Returns (Ok q) ∧ r1 = of_query_view r0 q ∧
     match ah_election h with
     | None => r0 = r
     | Some e => ∃ hd, LeaderElection.Handle e i (lock_view r) = Returns hd ∧ hd_handled hd = false ∧
                       hd_err hd = None ∧ r0 = of_lock_view r (hd_req hd)
     end).

(** The request the transport was given for [r1]. *)
Definition sent_for (h : apihandler) (r1 sent : Req) : Prop :=
  ∃ target, (getURL h r1).1 = Some target ∧
    sent = outgoing (NewSingleHostReverseProxy target) (getURL h r1).2.

Lemma proxy_with_sent {S} w h modify r1 (s s' : S) ev :
  proxy_with RoundTrip conn w h modify r1 s = Returns (ev, s') →
  ∃ sent out, ev = Proxied sent out ∧ sent_for h r1 sent.
Proof.
  unfold proxy_with, sent_for. destruct (getURL h r1) as [[target|] r2]; cbn; [|done].
  destruct (ServeHTTP _ _ _ _ _ _) as [out s1]. intros [= <- <-]. eexists _, _. split; [done|]. by exists target.
Qed.

Lemma inject_and_proxy_sent w h i r m ev m' sent out :
  inject_and_proxy RoundTrip conn w h i r m = Returns (ev, m') → ev = Proxied sent out →
  ∃ q, Inject (currentSpec m) (query_view r) i = Returns (Ok q) ∧ sent_for h (of_query_view r q) sent.
Proof.
  unfold inject_and_proxy. intros Hi Hev. apply bind_Returns in Hi as (q & Hq & Hi).
  destruct q as [q|msg]; [|by simplify_eq]. exists q. split; [done|].
  apply proxy_with_sent in Hi as (sent' & out' & -> & Hs). by simplify_eq.
Qed.

Lemma handler_sent w h info r m m' sent out :
  handler_ServeHTTP w h info r m = Returns (Proxied sent out, m') →
  ∃ i r1, info = Some i ∧ handed h i m r r1 ∧ sent_for h r1 sent.
Proof.
  unfold ApiProxy.handler_ServeHTTP. destruct info as [i|]; [|done]. intros Hh. exists i.
  destruct (ri_IsResourceRequest i && _).
  { destruct (getURL h r) as [[u|] r2]; done. }
  destruct (ah_election h) as [e|] eqn:He.
  - apply bind_Returns in Hh as (hd & Hhd & Hh). cbv zeta in Hh.
    destruct (hd_err hd) eqn:Herr; [done|]. destruct (hd_handled hd) eqn:Hhandled.
    + apply proxy_with_sent in Hh as (sent' & out' & [= -> ->] & Hs). exists (of_lock_view r (hd_req hd)).
      split_and!; [done| |done]. left. by exists e, hd.
    + eapply inject_and_proxy_sent in Hh as (q & Hq & Hs); [|done]. eexists _. split_and!; [done| |done].
      right. exists (of_lock_view r (hd_req hd)), q. rewrite He. split_and!; [done|done|]. by exists hd.
  - eapply inject_and_proxy_sent in Hh as (q & Hq & Hs); [|done]. eexists _. split_and!; [done| |done].
    right. exists r, q. by rewrite He.
Qed.

Definition allowed_by (mg mg' : BreakerManager.manager) (i : RequestInfo) : Prop :=
  ∃ res, ValidateResource (ri_Namespace i) (ri_APIGroup i) (ri_Resource i) (ri_Verb i) mg = Returns (res, mg') ∧
         Allowed res = true.

Lemma breakerWrapper_sent next info method r w wd sent out wd' :
  breakerWrapper next info method r w wd = Returns (Proxied sent out, wd') →
  ∃ i mg, info = Some i ∧ allowed_by (wd_breaker wd) mg i ∧
    next info method r w (mkWorld mg (wd_faults wd) (wd_ticks wd) (wd_spec wd)) = Returns (Proxied sent out, wd').
Proof.
  unfold breakerWrapper. intros Hb. apply bind_Returns in Hb as ([rep mg] & Hrep & Hb).
  destruct rep; [|done]. destruct info as [i|]; cbn in Hrep; [|done].
  apply bind_Returns in Hrep as ([res mg1] & Hv & Hrep). destruct (Allowed res) eqn:Ha; cbn in Hrep; simplify_eq.
  exists i, mg. split_and!; [done| |done]. by exists res.
Qed.

Lemma faultWrapper_sent next info method r w wd sent out wd' :
  faultWrapper quote next info method r w wd = Returns (Proxied sent out, wd') →
  ∃ wait tk, withFaultInjection quote (headerSent w) info method (wd_faults wd) (wd_ticks wd) = Returns (Serve wait, tk) ∧
    next info method r w (mkWorld (wd_breaker wd) (wd_faults wd) tk (wd_spec wd)) = Returns (Proxied sent out, wd').
Proof.
  unfold faultWrapper. intros Hb. apply bind_Returns in Hb as ([rep tk] & Hrep & Hb).
  destruct rep as [wait| |]; [|done|done]. by exists wait, tk.
Qed.

Lemma inner_sent h info method r w wd sent out wd' :
  inner h info method r w wd = Returns (Proxied sent out, wd') →
  wd_breaker wd' = wd_breaker wd ∧ wd_faults wd' = wd_faults wd ∧ wd_ticks wd' = wd_ticks wd ∧
  ∃ i r1, info = Some i ∧ handed h i (wd_spec wd) r r1 ∧ sent_for h r1 sent.
Proof.
  unfold ApiProxy.inner. intros Hi. apply bind_Returns in Hi as ([ev m] & Hev & Hi). injection Hi as -> <-.
  split_and!; [done..|]. by eapply handler_sent.
Qed.

(** C10. A request reaches the API server only through every check: when the
    chain of the API-server proxy sends a request on, the circuit breaker, if
    it is in the chain, allowed it and its state is the one that decision left;
    no fault rule, if they are enabled, answered it; and what was sent is the
    reverse proxy's rewriting of either the lock request that leader election
    renamed, or the request with the shard's selector injected. *)
Theorem api_proxy_checks sw h info method r w wd sent out wd' :
  NewProxy sw h info method r w wd = Returns (Proxied sent out, wd') →
  ∃ i, info = Some i ∧
    (if disableCircuitBreaker sw then wd_breaker wd' = wd_breaker wd
     else allowed_by (wd_breaker wd) (wd_breaker wd') i) ∧
    (if enableFaultInjection sw
     then ∃ wait, withFaultInjection quote (headerSent w) info method (wd_faults wd) (wd_ticks wd) = Returns (Serve wait, wd_ticks wd')
     else wd_ticks wd' = wd_ticks wd) ∧
    wd_faults wd' = wd_faults wd ∧
    ∃ r1, handed h i (wd_spec wd) r r1 ∧ sent_for h r1 sent.
Proof.
  unfold ApiProxy.NewProxy. intros Hn.
  destruct (enableFaultInjection sw); [apply faultWrapper_sent in Hn as (wait & tk & Hw & Hn)|];
    (destruct (disableCircuitBreaker sw); [|apply breakerWrapper_sent in Hn as (i1 & mg & Hi1 & Ha & Hn)]);
    apply inner_sent in Hn as (Hb & Hf & Ht & i & r1 & -> & Hh & Hs); exists i; simplify_eq;
    cbn [wd_breaker wd_faults wd_ticks wd_spec] in *; rewrite ?Hb, ?Ht; split_and!; eauto.
Qed.

(** The target is that of the request's host, which the filters leave. *)
Lemma getURL_host h r r1 : q_Host r1 = q_Host r → (getURL h r1).1 = (getURL h r).1.
Proof. intros Hh. unfold getURL. rewrite Hh. by destruct (ah_enableIpTable h). Qed.

(** The query of what is sent for a request to a target without a query. *)
Lemma sent_query h r1 sent : sent_for h r1 sent →
  (∀ target, (getURL h r1).1 = Some target → u_RawQuery target = EmptyString) →
  u_RawQuery (q_URL sent) = u_RawQuery (q_URL r1).
Proof.
  intros (target & Ht & ->) Hq. specialize (Hq target Ht). unfold outgoing, NewSingleHostReverseProxy. cbn [q_URL with_header].
  assert (Hr : u_RawQuery (q_URL (getURL h r1).2) = u_RawQuery (q_URL r1)) by (unfold getURL; by destruct (ah_enableIpTable h)).
  destruct (getURL h r1) as [u r2]. cbn [fst snd] in *. clear Ht.
  set (r3 := if decide (q_ContentLength r2 = 0%Z) then with_body None r2 else r2).
  assert (Hr3 : q_URL r3 = q_URL r2) by (unfold r3; by destruct (decide _)).
  rewrite Hr3. destruct (joinURLPath target (q_URL r2)) as [path rawpath]. rewrite Hq.
  assert (Hj : joinQuery EmptyString (u_RawQuery (q_URL r2)) = u_RawQuery (q_URL r2)).
  { unfold joinQuery. by rewrite decide_True by tauto. }
  destruct (q_Header _ !! "User-Agent"); cbn [q_URL with_url with_header u_RawQuery]; by rewrite Hj, Hr.
Qed.

Definition listing (i : RequestInfo) : Prop :=
  ri_IsResourceRequest i = true ∧ (ri_Verb i = "list" ∨ ri_Verb i = "watch").

(** A list or watch that the chain sends on went through the injector alone. *)
Lemma listing_sent sw h i method r w wd sent out wd' :
  NewProxy sw h (Some i) method r w wd = Returns (Proxied sent out, wd') → listing i →
  ∃ q, Inject (currentSpec (wd_spec wd)) (query_view r) i = Returns (Ok q) ∧ sent_for h (of_query_view r q) sent.
Proof.
  intros Hn [_ Hv].
  assert (Hh : ∃ wd1 wd2, inner h (Some i) method r w wd1 = Returns (Proxied sent out, wd2) ∧ wd_spec wd1 = wd_spec wd).
  { unfold ApiProxy.NewProxy in Hn.
    destruct (enableFaultInjection sw); [apply faultWrapper_sent in Hn as (wait & tk & Hw & Hn)|];
      (destruct (disableCircuitBreaker sw); [|apply breakerWrapper_sent in Hn as (i1 & mg & Hi1 & Ha & Hn)]); by eexists _, _. }
  destruct Hh as (wd1 & wd2 & Hin & Hspec). apply inner_sent in Hin as (_ & _ & _ & i' & r1 & [= <-] & Hhanded & Hsent).
  rewrite Hspec in Hhanded. destruct Hhanded as [(e & hd & _ & Hhd & Hx & _)|(r0 & q & Hq & -> & Hr0)].
  - rewrite Handle_listing in Hhd by done. by simplify_eq.
  - exists q. destruct (ah_election h) as [e|]; [|by subst].
    destruct Hr0 as (hd & Hhd & _ & _ & ->). rewrite Handle_listing in Hhd by done. simplify_eq. cbn [hd_req] in *.
    by rewrite of_lock_view_id in *.
Qed.

(** C2. An operator lists and watches its own shard, end to end: when the chain
    sends on a list or watch of a resource that some limit of the specification
    names, to a target without a query of its own, the query that reaches the
    API server has the operator's parameters except the label selector.  That
    one is the text of a selector that keeps every expression of the limits and
    of the operator's own selector; and as long as no two of these demand
    different values of the same label, it selects exactly the objects that all
    the limits and the operator's own selector select.  (Where they do, the
    operator's demand replaces the shard's, as [MergeLabelSelector_escape]
    shows.) *)
Theorem lists_restricted_to_shard sw h i method r w wd sent out wd' sp :
  NewProxy sw h (Some i) method r w wd = Returns (Proxied sent out, wd') → listing i →
  currentSpec (wd_spec wd) = Some sp →
  (∃ s, demanded sp (ri_APIGroup i) (ri_Resource i) s) →
  (∀ target, (getURL h r).1 = Some target → u_RawQuery target = EmptyString) →
  ∃ raw own m,
    ParseRawQuery (u_RawQuery (q_URL r)) = Ok raw ∧ oldLabelSelector raw = Ok own ∧
    ParseRawQuery (u_RawQuery (q_URL sent)) = Ok (<[labelSelectorKey := QueryEscape (sel_String m)]> raw) ∧
    let given s := demanded sp (ri_APIGroup i) (ri_Resource i) s ∨ own = Some s in
    (∀ ls s e, sel_Matches m ls = true → given s → e ∈ MatchExpressions s → expr_matches e ls) ∧
    ((∀ a b, given a → given b → agree (MatchLabels a) (MatchLabels b)) →
     ∀ ls, sel_Matches m ls = true ↔ ∀ s, given s → selects s ls).
Proof.
  intros Hn Hl Hsp [s0 Hs0] Htarget. destruct (listing_sent _ _ _ _ _ _ _ _ _ _ Hn Hl) as (q & Hq & Hsent).
  rewrite (sent_query _ _ _ Hsent) by (rewrite (getURL_host h r) by (unfold of_query_view; done); done).
  unfold Inject in Hq. rewrite (proj1 Hl), Hsp in Hq. cbn [negb] in Hq. rewrite decide_True in Hq by apply Hl. cbn in Hq.
  destruct (getObjectSelector _ _) as [sel|] eqn:Hsel.
  2: { exfalso. apply elem_of_applicable in Hs0. unfold getObjectSelector in Hsel. rewrite getObjectSelector_fold in Hsel.
       destruct (applicable _ _) as [|s ss]; [by apply elem_of_nil in Hs0|]. cbn [fold_left MergeLabelSelector] in Hsel.
       by apply merge_none in Hsel. }
  injection Hq as Hq. apply injectSelector_spec in Hq as (raw & own & c & m & Hraw & Hown & Hc & Hraw' & _ & Hm).
  exists raw, own, m. split_and!; [exact Hraw|exact Hown|exact Hraw'|].
  destruct (merge_demanded _ _ _ _ _ _ Hsel Hc) as [Hexp Hconj]. split.
  - intros ls s e Hms%Hm Hs He. destruct Hms as [_ Hall]. rewrite Forall_forall in Hall. eapply Hall, Hexp; [exact Hs|exact He].
  - intros Hag ls. rewrite Hm. by apply Hconj.
Qed.

(** ** Every request is answered *)

Lemma proxy_with_returns {S} w h modify r1 (s : S) :
  is_Some (getURL h r1).1 → ∃ ev s', proxy_with RoundTrip conn w h modify r1 s = Returns (ev, s').
Proof.
  intros [target Ht]. unfold proxy_with. destruct (getURL h r1) as [u r2]. cbn in Ht. subst u. cbn.
  destruct (ServeHTTP _ _ _ _ _ _) as [out s1]. by eexists _, _.
Qed.

Lemma getSerializer_DecodeFrom A `{Adapter A} v adp : DecodeFrom (A := A) v = Ok adp → ∃ ser, getSerializer v = Ok ser.
Proof. unfold DecodeFrom. destruct (getSerializer v) as [ser|]; [by exists ser|done]. Qed.

Lemma handle_verb_returns A `{Adapter A} e verb v : ∃ hd, handle_verb A e verb v = Returns hd.
Proof.
  unfold handle_verb. destruct (decide _); [|destruct (decide _); by eexists].
  destruct (DecodeFrom v) as [adp|] eqn:Hd; [|by eexists].
  destruct (getSerializer_DecodeFrom _ _ _ Hd) as [ser Hser].
  unfold handle_create, handle_update, EncodeInto. rewrite Hser.
  destruct (decide (verb = "create")); [destruct (decide _); [by eexists|]|];
    destruct (GetHoldIdentity adp); by eexists.
Qed.

(** Leader election decodes a request before it encodes it, so that it never
    meets a media type it has no serializer for. *)
Lemma Handle_returns e i v : ∃ hd, LeaderElection.Handle e i v = Returns hd.
Proof.
  unfold LeaderElection.Handle. cbv zeta.
  repeat match goal with |- ∃ _, (if ?b then _ else _) = _ => destruct b; [try by eexists; done|] end;
    first [by eexists|apply handle_verb_returns].
Qed.

(** What makes the handler panic: a target that does not parse, or a list or
    watch before the specification is loaded. *)
Definition handler_panics (h : apihandler) (i : RequestInfo) (r : Req) (m : SpecManager) : Prop :=
  (getURL h r).1 = None ∨ (currentSpec m = None ∧ listing i).

Lemma inject_cases w h i r m :
  inject_and_proxy RoundTrip conn w h i r m = Panics → handler_panics h i r m.
Proof.
  unfold inject_and_proxy, Inject, handler_panics.
  assert (Hp : ∀ r1, q_Host r1 = q_Host r → proxy_with RoundTrip conn w h (Some log_hook) r1 m = Panics → (getURL h r).1 = None).
  { intros r1 Hr1 Hx. destruct (getURL h r).1 as [u|] eqn:Hu; [|done].
    destruct (proxy_with_returns w h (Some log_hook) r1 m) as (ev & m' & He); [|by rewrite He in Hx].
    rewrite (getURL_host _ _ _ Hr1), Hu. by eexists. }
  destruct (ri_IsResourceRequest i) eqn:Hres; cbn [negb mbind outcome_bind]; [|intros Hx; left; by eapply Hp in Hx].
  destruct (decide _) as [Hv|]; cbn [mbind outcome_bind]; [|intros Hx; left; by eapply Hp in Hx].
  destruct (currentSpec m) as [sp|]; [|by right]. cbn [deref mbind outcome_bind].
  destruct (getObjectSelector _ _) as [sel|]; cbn [mbind outcome_bind]; [|intros Hx; left; by eapply Hp in Hx].
  destruct (injectSelector _ sel); [|done]. intros Hx. left. by eapply Hp in Hx.
Qed.

Lemma of_lock_view_host r v : q_Host (of_lock_view r v) = q_Host r.
Proof. done. Qed.

Lemma handler_cases w h i r m : handler_ServeHTTP w h (Some i) r m = Panics → handler_panics h i r m.
Proof.
  unfold ApiProxy.handler_ServeHTTP.
  destruct (ri_IsResourceRequest i && _).
  { unfold handler_panics. destruct (getURL h r) as [[u|] r2]; [done|by left]. }
  destruct (ah_election h) as [e|]; [|apply inject_cases].
  destruct (Handle_returns e i (lock_view r)) as [hd Hhd]. rewrite Hhd. cbn [mbind outcome_bind]. cbv zeta.
  destruct (hd_err hd); [done|]. destruct (hd_handled hd).
  - intros Hx. left. destruct (getURL h r).1 as [u|] eqn:Hu; [|done].
    edestruct (proxy_with_returns w h (leader_hook <$> hd_modifyResponse hd) (of_lock_view r (hd_req hd)) m)
      as (ev & m' & He); [|by rewrite He in Hx].
    rewrite (getURL_host h r) by apply of_lock_view_host. rewrite Hu. by eexists.
  - intros Hx%inject_cases. unfold handler_panics in *. by rewrite (getURL_host h r) in Hx by apply of_lock_view_host.
Qed.

Lemma proxy_with_shape {S} w h modify r1 (s s' : S) :
  proxy_with RoundTrip conn w h modify r1 s ≠ Returns (Repanicked, s').
Proof. intros (sent & out & He & _)%proxy_with_sent. done. Qed.

Lemma chain_never_repanics sw h i method r w wd wd' : NewProxy sw h (Some i) method r w wd ≠ Returns (Repanicked, wd').
Proof.
  assert (Hinj : ∀ r m m', inject_and_proxy RoundTrip conn w h i r m ≠ Returns (Repanicked, m')).
  { intros r1 m m' Hx. unfold inject_and_proxy in Hx. apply bind_Returns in Hx as ([q|] & _ & Hx); [|done].
    by apply proxy_with_shape in Hx. }
  assert (Hin : ∀ wd wd', inner h (Some i) method r w wd ≠ Returns (Repanicked, wd')).
  { intros wd1 wd1' Hx. unfold ApiProxy.inner in Hx. apply bind_Returns in Hx as ([ev m] & Hh & [= -> _]).
    unfold ApiProxy.handler_ServeHTTP in Hh. destruct (ri_IsResourceRequest i && _).
    { destruct (getURL h r) as [[u|] r2]; done. }
    destruct (ah_election h); [|by apply Hinj in Hh]. apply bind_Returns in Hh as (hd & _ & Hh). cbv zeta in Hh.
    destruct (hd_err hd); [done|]. destruct (hd_handled hd); [by apply proxy_with_shape in Hh|by apply Hinj in Hh]. }
  assert (Hb : ∀ wd wd', (if disableCircuitBreaker sw then inner h else breakerWrapper (inner h)) (Some i) method r w wd
    ≠ Returns (Repanicked, wd')).
  { intros wd1 wd1'. destruct (disableCircuitBreaker sw); [apply Hin|]. unfold breakerWrapper. intros Hx.
    apply bind_Returns in Hx as ([[|] mg] & _ & Hx); [by apply Hin in Hx|done]. }
  unfold ApiProxy.NewProxy. destruct (enableFaultInjection sw); [|apply Hb]. unfold faultWrapper. intros Hx.
  apply bind_Returns in Hx as ([[| |] tk] & _ & Hx); [by apply Hb in Hx|done|done].
Qed.

(** What makes the chain panic besides: a fault rule for the request whose
    status is no code of HTTP, before anything is written. *)
Definition odd_fault (sw : switches) (i : RequestInfo) (w : responseWriter) (wd : world) : Prop :=
  enableFaultInjection sw = true ∧ w_Sent w = None ∧
  ∃ fi code, aborts_with (wd_faults wd) i code fi ∧ ¬ (100 ≤ code ≤ 999)%Z.

Lemma refused_code w code : WriteHeader_ok (headerSent w) code = false → w_Sent w = None ∧ ¬ (100 ≤ code ≤ 999)%Z.
Proof.
  intros Hok. split.
  - destruct (w_Sent w) eqn:Hs; [|done]. unfold WriteHeader_ok, headerSent in Hok. rewrite Hs in Hok.
    by rewrite bool_decide_eq_true_2 in Hok by by eexists.
  - intros Hr. by rewrite WriteHeader_ok_range in Hok.
Qed.

Lemma chain_cases sw h i method r w wd :
  manager_wf (wd_breaker wd) → fmanager_wf (wd_faults wd) →
  NewProxy sw h (Some i) method r w wd = Panics → odd_fault sw i w wd ∨ handler_panics h i r (wd_spec wd).
Proof.
  intros Hbreaker Hfault.
  assert (Hin : ∀ wd, inner h (Some i) method r w wd = Panics → handler_panics h i r (wd_spec wd)).
  { intros wd1. unfold ApiProxy.inner. destruct (handler_ServeHTTP w h (Some i) r (wd_spec wd1)) as [[ev m]|] eqn:Hh; [done|].
    intros _. by eapply handler_cases. }
  assert (Hb : ∀ wd, manager_wf (wd_breaker wd) →
    (if disableCircuitBreaker sw then inner h else breakerWrapper (inner h)) (Some i) method r w wd = Panics →
    handler_panics h i r (wd_spec wd)).
  { intros wd1 Hwf. destruct (disableCircuitBreaker sw); [apply Hin|].
    unfold breakerWrapper. destruct (withBreaker_returns (wd_breaker wd1) (Some i) Hwf) as (rep & mg' & ->).
    cbn [mbind outcome_bind]. destruct rep; [|done]. intros Hx%Hin. done. }
  unfold ApiProxy.NewProxy. destruct (enableFaultInjection sw) eqn:Hsw; [|intros Hx; right; by apply Hb in Hx].
  unfold faultWrapper.
  pose proof (withFaultInjection_correct (wd_faults wd) (Some i) (headerSent w) method (wd_ticks wd) quote Hfault) as Hw.
  destruct (withFaultInjection _ _ _ _ _ _) as [[rep tk]|].
  - cbn [mbind outcome_bind]. destruct rep; [|done|done]. intros Hx. right. by apply Hb in Hx.
  - intros _. left. destruct Hw as (i' & fi & code & [= <-] & Hab & [Hs Hr]%refused_code). split_and!; [done|done|]. by exists fi, code.
Qed.

(** Why a request ends in a panic that the server recovers: the URL left after
    the prefix does not parse; the chain panics, for one of the reasons above;
    or the backend's answer cannot be relayed, since its code is none of HTTP or
    its body broke off. *)
Inductive crash_reason (resolver : URL → result RequestInfo) (prefix : string) (sw : switches) (h : apihandler)
    (r : Req) (w : responseWriter) (wd : world) (evs : list api_event) : Prop :=
| unparsed_rest : (TrimUrl (to_URL (q_URL r)) prefix).1 = None → crash_reason resolver prefix sw h r w wd evs
| chain_panics u err i :
    TrimUrl (to_URL (q_URL r)) prefix = (Some u, err) → resolver u = Ok i →
    (err = None ∧ odd_fault sw i w wd) ∨ handler_panics h i r (wd_spec wd) →
    crash_reason resolver prefix sw h r w wd evs
| backend_answer sent code : Proxied sent (CodePanic code) ∈ evs → crash_reason resolver prefix sw h r w wd evs
| backend_body sent w' : Proxied sent (ErrAbortHandler w') ∈ evs → crash_reason resolver prefix sw h r w wd evs.

(** The answers written before the handler proper. *)
Definition trim_answer (prefix : string) (u : URL) : list api_event :=
  match (TrimUrl u prefix).2 with
  | Some e => [Answered StatusInternalServerError ("failed to trim url by: " +:+ prefix +:+ ", " +:+ e)]
  | None => []
  end.

Lemma Error_sent w msg code : is_Some (w_Sent (Error w msg code)).
Proof.
  destruct w as [hd [s|] body flushed]; [by eexists|]. unfold Error, WriteHeader. cbn.
  destruct (informational code); by eexists.
Qed.

(** C40. The API-server proxy loses a request for known reasons only.  With
    managers that only saw valid configurations, when the handling of a request
    ends in a panic, that is because the URL left after the prefix does not
    parse; or a fault rule for it has a status outside 100..999; or its target
    does not parse; or it lists or watches before the specification is loaded;
    or the backend answered with such a status or broke off.  Otherwise it gets,
    after a possible error about its prefix, exactly one answer, which is the
    error of the request's info or what the chain made of it. *)
Theorem api_proxy_answers resolver prefix sw h method r w wd :
  manager_wf (wd_breaker wd) → fmanager_wf (wd_faults wd) →
  let u := to_URL (q_URL r) in
  let evs := (serve resolver prefix (NewProxy sw h) method r w wd).1.1 in
  (Repanicked ∈ evs → crash_reason resolver prefix sw h r w wd evs) ∧
  (Repanicked ∉ evs → ∃ local ev, (TrimUrl u prefix).1 = Some local ∧ evs = trim_answer prefix u ++ [ev] ∧
     match resolver local with
     | Err e => ev = Answered StatusInternalServerError ("failed to create RequestInfo: " +:+ e)
     | Ok i => ∃ w' wd', NewProxy sw h (Some i) method r w' wd = Returns (ev, wd')
     end).
Proof.
  intros Hb Hf. cbv zeta. unfold serve, WithRequestInfo, trim_answer.
  destruct (TrimUrl (to_URL (q_URL r)) prefix) as [[local|] err] eqn:Ht.
  2: { destruct err; cbn [app fold_left serve1 fst snd]; (split; [by intros _; apply unparsed_rest; rewrite Ht|]); intros Hn; destruct Hn; set_solver. }
  assert (Hw : ∃ w1, fold_left (serve1 (NewProxy sw h) method r)
      (match err with Some e => [InternalError ("failed to trim url by: " +:+ prefix +:+ ", " +:+ e)] | None => [] end)
      ([], w, Some wd) =
      (match err with Some e => [Answered StatusInternalServerError ("failed to trim url by: " +:+ prefix +:+ ", " +:+ e)] | None => [] end, w1, Some wd) ∧
    (w_Sent w1 = None → err = None ∧ w1 = w)).
  { destruct err as [e|]; eexists; (split; [done|]); [|done]. intros Hn. by destruct (Error_sent w ("failed to trim url by: " +:+ prefix +:+ ", " +:+ e) StatusInternalServerError) as [? Hs]; rewrite Hn in Hs. }
  destruct Hw as (w1 & Hw & Hsent). rewrite fold_left_app, Hw. clear Hw. cbn [fst snd].
  set (pre := match err with Some e => [Answered _ _] | None => [] end).
  assert (Hpre : ∀ ev, ev ∈ pre → ∃ c m, ev = Answered c m).
  { intros ev. unfold pre. destruct err; [intros ->%list_elem_of_singleton; by eexists _, _|by intros ?%elem_of_nil]. }
  assert (Hno : Repanicked ∉ pre) by (intros (c & m & ?)%Hpre; done). clearbody pre.
  destruct (resolver local) as [i|e] eqn:Hi; cbn [fold_left serve1 fst].
  2: { split; [set_solver|]. intros _. eexists local, _. rewrite Hi. split_and!; reflexivity. }
  destruct (NewProxy sw h (Some i) method r w1 wd) as [[ev wd']|] eqn:Hc; cbn [fst].
  - split.
    + intros [?|[<-|Hr]%elem_of_cons]%elem_of_app; [done| |].
      * exfalso. eapply chain_never_repanics, Hc.
      * assert (Hev : ev ∈ pre ++ ev :: recovery ev) by (apply elem_of_app; right; by left).
        destruct ev as [| |sent []|]; try by apply elem_of_nil in Hr.
        -- by eapply backend_body.
        -- by eapply backend_answer.
    + intros Hn. exists local, ev. split; [done|]. split.
      * destruct ev as [| |sent []|]; try done; destruct Hn; cbn [recovery HandleCrash]; set_solver.
      * rewrite Hi. by eexists _, _.
  - apply chain_cases in Hc; [|done..]. split.
    + intros _. eapply chain_panics; [exact Ht|exact Hi|]. destruct Hc as [(Hs & Hw1 & Hx)|Hc]; [left|by right].
      destruct (Hsent Hw1) as [-> ->]. done.
    + intros Hn. destruct Hn. unfold HandleCrash. set_solver.
Qed.

(** A request whose URL does not parse after the prefix gets the error, then a
    panic: there is no return between them. *)
Lemma unparsed_rest_panics resolver prefix next method r w wd e :
  TrimUrl (to_URL (q_URL r)) prefix = (None, Some e) →
  (serve resolver prefix next method r w wd).1.1 =
    Answered StatusInternalServerError ("failed to trim url by: " +:+ prefix +:+ ", " +:+ e) :: HandleCrash.
Proof. intros Ht. unfold serve, WithRequestInfo. rewrite Ht. done. Qed.
(** What the proxy learns of leader election: a lock request that leader
    election took over reaches the API server, and afterwards the
    specification manager holds the holder of the lock as leader exactly when
    the answer was 200; any other answer, and none at all, changes nothing. *)
Theorem lock_answer_recorded w h i e r m hd le ev m' :
  ah_election h = Some e → LeaderElection.Handle e i (lock_view r) = Returns hd →
  hd_handled hd = true → hd_err hd = None → hd_modifyResponse hd = Some le →
  ri_Subresource i = EmptyString →
  handler_ServeHTTP w h (Some i) r m = Returns (ev, m') →
  ∃ sent out, ev = Proxied sent out ∧
    match RoundTrip sent with
    | Ok res => m' = if decide (p_StatusCode res = StatusOK) then UpdateLeaderElection (Some le) m else m
    | Err _ => m' = m
    end.
Proof.
  intros He Hhd Hh Herr Hle Hsub. unfold ApiProxy.handler_ServeHTTP. rewrite He, Hhd, Hsub.
  rewrite (bool_decide_eq_false_2 (EmptyString ∈ upgradeSubresources)) by (apply (bool_decide_unpack _); vm_compute; exact I).
  rewrite andb_false_r. cbn [mbind outcome_bind]. cbv zeta. rewrite Herr, Hh, Hle. cbn [fmap option_fmap option_map].
  unfold proxy_with. destruct (getURL h _) as [[target|] r2]; [|done]. cbn [deref mbind outcome_bind].
  set (p := mkProxy _ _ _ _). destruct (ServeHTTP p RoundTrip conn w r2 m) as [out s1] eqn:Hs. intros [= <- <-].
  eexists _, out. split; [done|]. unfold ServeHTTP in Hs.
  change (RoundTrip (outgoing (Director p) r2)) with (RoundTrip (outgoing (NewSingleHostReverseProxy target) r2)) in Hs.
  change (Director p) with (NewSingleHostReverseProxy target).
  destruct (RoundTrip _) as [res|msg]; [|by simplify_eq].
  unfold ReverseProxy.modifyResponse in Hs. cbn [p ModifyResponse] in Hs. unfold leader_hook, LeaderElection.modifyResponse in Hs.
  destruct (decide (p_StatusCode res = StatusSwitchingProtocols)); cbn [p_StatusCode with_resp_header] in Hs;
    by destruct (decide (p_StatusCode res = StatusOK)); simplify_eq.
Qed.
End properties.

(** ** The transparent proxy's checks *)

Section tproxy_properties.
Context `{RateLimiter} `{Clock} `{Regexp} `{RangeOrder} `{FaultEnv} `{URLParse} `{HostPort}.
Context (RoundTrip : Req → result Resp) (conn : connection) (w : responseWriter) (quote : string → string).
Abbreviation handleHTTP := (handleHTTP RoundTrip conn w quote).
Abbreviation check_and_proxy := (check_and_proxy RoundTrip conn w).

Lemma ValidateRest_returns URL method mg : manager_wf mg →
  ∃ res mg', ValidateRest URL method mg = Returns (res, mg').
Proof.
  intros Hwf. destruct (validateFirst_returns mg IndexRest indexFuncForRest (generateWildcardUrls URL method) Hwf rest_in)
    as (res & mg' & Hr & _). by exists res, mg'.
Qed.

(** What the checks after the fault injector come to. *)
Definition passes (sw : tproxy_switches) (u : RURL) (method : string) (mg : BreakerManager.manager) (res : ValidateResult) : bool :=
  (negb (enableRestBreaker sw) || Allowed (InterceptStore.ValidateTrafficIntercept (u_Host u) method (interceptStore mg)))
  && Allowed res.

Lemma check_and_proxy_spec sw u method r mg : manager_wf mg →
  ∃ res mg1 ev mg', ValidateRest (Get (q_Header r) HeaderMeshRealEndpoint) method mg = Returns (res, mg1) ∧
    check_and_proxy sw u method r mg = Returns (ev, mg') ∧
    if passes sw u method mg res
    then mg' = mg1 ∧ ∃ sent out, ev = Proxied sent out ∧ q_URL sent = u ∧ q_Host sent = u_Host u ∧ q_Body sent = (if decide (q_ContentLength r = 0%Z) then None else q_Body r)
    else ∃ msg, ev = Answered StatusForbidden msg.
Proof.
  intros Hwf. destruct (ValidateRest_returns (Get (q_Header r) HeaderMeshRealEndpoint) method mg Hwf) as (res & mg1 & Hr).
  unfold ApiProxy.check_and_proxy, passes. cbv zeta.
  set (intercept := InterceptStore.ValidateTrafficIntercept _ _ _).
  destruct (enableRestBreaker sw), (Allowed intercept); cbn [andb orb negb];
    rewrite ?Hr; cbn [mbind outcome_bind]; [| | |];
    try (destruct (Allowed res) eqn:Ha; cbn [negb]);
    (eexists res, mg1, _, _; split; [done|]; split; [reflexivity|]); rewrite ?Ha;
    try (by eexists); (split; [done|]); eexists _, _; (split; [done|]);
    unfold outgoing, tproxy_director; cbn [Director q_URL q_Host q_Body with_header with_url with_host u_Host];
    (split; [done|]); (split; [done|]); by destruct (decide _).
Qed.

(** The transparent HTTP proxy, with managers that only saw valid
    configurations: it panics only on a fault rule's status that is no code of
    HTTP; a request whose real endpoint cannot be parsed gets 500; one that a
    fault rule answers gets that error; of the others exactly those that the
    intercept rules (when enabled) and the limiters allow are sent, to the host
    and URL of the real endpoint with the body they had, and the rest get 403. *)
Theorem tproxy_correct sw method r mg fm tk :
  manager_wf mg → fmanager_wf fm →
  (∃ u ij tk', realEndpoint r = Some u ∧ enableRestFaultInjection sw = true ∧
     GetInjectorByUrl (to_URL u) method fm tk = Returns (ij, tk') ∧
     WriteHeader_ok (headerSent w) (ij_code ij) = false ∧
     handleHTTP sw method r mg fm tk = Panics) ∨
  ∃ ev mg' tk', handleHTTP sw method r mg fm tk = Returns (ev, mg', tk') ∧
    match realEndpoint r with
    | None => ev = Answered StatusInternalServerError "Can not find real endpoint in header"
    | Some u =>
        (enableRestFaultInjection sw = true ∧ ∃ ij wait err, GetInjectorByUrl (to_URL u) method fm tk = Returns (ij, tk') ∧
           Do quote (headerSent w) method ij = Returns (mkInjected wait (Some err)) ∧
           ev = Answered (s_Code err) (s_Message err)) ∨
        (∃ res mg1, ValidateRest (Get (q_Header r) HeaderMeshRealEndpoint) method mg = Returns (res, mg1) ∧
           if passes sw u method mg res
           then mg' = mg1 ∧ ∃ sent out, ev = Proxied sent out ∧ q_URL sent = u ∧ q_Host sent = u_Host u ∧
                  q_Body sent = (if decide (q_ContentLength r = 0%Z) then None else q_Body r)
           else ∃ msg, ev = Answered StatusForbidden msg)
    end.
Proof.
  intros Hwf Hfm. unfold ApiProxy.handleHTTP. destruct (realEndpoint r) as [u|]; [|right; by eexists _, _, _].
  destruct (check_and_proxy_spec sw u method r mg Hwf) as (res & mg1 & ev & mg' & Hr & Hc & Hp).
  destruct (enableRestFaultInjection sw).
  - destruct (fault_urls_return fm (to_URL u) method tk Hfm) as (ij & tk' & Hij). rewrite Hij. cbn [mbind outcome_bind].
    destruct (Do quote (headerSent w) method ij) as [[wait [err|]]|] eqn:He; cbn [mbind outcome_bind answer].
    + right. eexists _, _, tk'. split; [done|]. left. split; [done|]. exists ij, wait, err. split_and!; [done|exact He|done].
    + right. rewrite Hc. cbn [mbind outcome_bind]. exists ev, mg', tk'. split; [done|]. right. by exists res, mg1.
    + left. exists u, ij, tk'. split_and!; try done. unfold Do in He. case_decide; [|discriminate He].
      by destruct (WriteHeader_ok (headerSent w) (ij_code ij)).
  - right. rewrite Hc. cbn [mbind outcome_bind]. exists ev, mg', tk. split; [done|]. right. by exists res, mg1.
Qed.

(** The limiters see the header and not the URL: a request addressed to its
    endpoint directly, without the header, is sent whatever limiters exist for
    that endpoint, as long as none is configured for the empty URL, and no
    limiter is charged. *)
Lemma direct_requests_unlimited fr u method r mg :
  Get (q_Header r) HeaderMeshRealEndpoint = EmptyString →
  url_ParseR EmptyString = Some (mkRURL EmptyString EmptyString EmptyString EmptyString EmptyString) →
  byIndex IndexRest (indexForRest EmptyString method) (limiterStore mg) = [] →
  ∃ sent out, check_and_proxy (mkTSwitches false fr) u method r mg = Returns (Proxied sent out, mg).
Proof.
  intros Hg Hu Hb. unfold ApiProxy.check_and_proxy. rewrite Hg. cbn [enableRestBreaker andb].
  assert (Hv : ValidateRest EmptyString method mg = Returns (mkValidateResult true "No rule match" "", mg)).
  { unfold ValidateRest, generateWildcardUrls. change (TrimSuffix EmptyString "/") with EmptyString.
    cbn [url_Parse parser_of]. rewrite Hu. cbn [fmap option_fmap option_map to_URL Path]. rewrite decide_True by done.
    cbn [validateFirst]. by rewrite Hb. }
  rewrite Hv. cbn [mbind outcome_bind Allowed negb]. by eexists _, _.
Qed.
End tproxy_properties.

(** ** Witnesses *)

Section witness.
#[local] Existing Instances token_limiter tick_clock literal_regexp order_fwd noon_env.
#[local] Instance demo_parse : URLParse := {|
  url_ParseR s := Some (mkRURL "https" s EmptyString EmptyString EmptyString); ToStr := u_Host |}.
#[local] Instance demo_escape : UrlEscape := {| EscapedPath := u_Path |}.
#[local] Instance demo_hostport' : HostPort := {| SplitHost a := Some a |}.
#[local] Instance demo_json : JsonSelector := {| json_selector s := mkSel {["shard" := s]} [] |}.
#[local] Instance demo_seltext : SelectorText := {| sel_String _ := "shard=null"; ParseToLabelSelector s := Err s |}.
#[local] Existing Instance demo_codec.

Definition demo_request (query : string) : Req :=
  mkReq (mkRURL "http" EmptyString "/api/v1/pods" EmptyString query) "h" {["Accept" := ["*/*"]]} "10.0.0.2" 0 None.
Definition demo_api : apihandler := mkApiHandler false "https://api" (Some demo_handler).
Definition demo_limited : ProxySpec :=
  mkProxySpec (mkSpecMeta "s1" "h1") [mkLimitMsg [mkAGR [EmptyString] ["pods"]] "null"].
Definition demo_world : world :=
  mkWorld BreakerManager.NewManager FaultInjection.NewManager (mkTicks 0 0) (demo_spec_manager (Some demo_limited)).
Definition demo_answer (r : Req) : result Resp := Ok (mkResp 200 ∅ 0 (mkSource [] EOF false) [] ∅ false).
Definition demo_rw : responseWriter := mkRW ∅ None EmptyString 0.
Definition demo_info : RequestInfo := resourceRequest "ns" EmptyString "pods" "list".
Definition demo_switches : switches := mkSwitches false true.

Definition demo_chain : outcome (api_event * world) :=
  NewProxy demo_answer (mkConn false None) id demo_switches demo_api (Some demo_info) "GET" (demo_request "watch=1") demo_rw demo_world.
Definition demo_sent : Req :=
  match demo_chain with Returns (Proxied sent _, _) => sent | _ => demo_request EmptyString end.
Definition demo_out : served :=
  match demo_chain with Returns (Proxied _ out, _) => out | _ => Finished demo_rw end.
Definition demo_after : world := match demo_chain with Returns (_, wd) => wd | _ => demo_world end.

Example demo_sent_query : u_RawQuery (q_URL demo_sent) = "watch=1&labelSelector=shard%3Dnull".
Proof. vm_compute. reflexivity. Qed.

Lemma demo_chain_sends : demo_chain = Returns (Proxied demo_sent demo_out, demo_after).
Proof. vm_compute. reflexivity. Qed.

Lemma api_proxy_checks_witness :
  allowed_by BreakerManager.NewManager (wd_breaker demo_after) demo_info ∧
  ∃ r1, handed demo_api demo_info (wd_spec demo_world) (demo_request "watch=1") r1 ∧ sent_for demo_api r1 demo_sent.
Proof.
  destruct (api_proxy_checks demo_answer (mkConn false None) id demo_switches demo_api (Some demo_info) "GET"
    (demo_request "watch=1") demo_rw demo_world demo_sent demo_out demo_after demo_chain_sends)
    as (i & [= <-] & Ha & _ & _ & Hr1). split; [exact Ha|exact Hr1].
Defined.

(** The limit of [demo_limited] on pods, whose selector demands the label of
    the shard. *)
Definition demo_demand : LabelSelector := mkSel {["shard" := "null"]} [].
Lemma demo_demanded s : demanded demo_limited EmptyString "pods" s ↔ s = demo_demand.
Proof.
  unfold demanded. split.
  - intros (l & Hl & _ & _ & ->). apply list_elem_of_singleton in Hl as ->. reflexivity.
  - intros ->. eexists. split; [by left|]. split; [done|]. split; [|reflexivity].
    right. eexists. split; [by left|]. split; right; by left.
Qed.

(** The operator asks for no selector of its own; what is sent selects the
    objects of its shard. *)
Lemma lists_restricted_to_shard_witness :
  ∃ m, ParseRawQuery (u_RawQuery (q_URL demo_sent)) =
         Ok (<[labelSelectorKey := QueryEscape (sel_String m)]> {["watch" := "1"]}) ∧
       ∀ ls, sel_Matches m ls = true ↔ selects demo_demand ls.
Proof.
  destruct (lists_restricted_to_shard demo_answer (mkConn false None) id demo_switches demo_api demo_info "GET"
    (demo_request "watch=1") demo_rw demo_world demo_sent demo_out demo_after demo_limited demo_chain_sends)
    as (raw & own & m & Hraw & Hown & Hsent & _ & Hm).
  - split; [reflexivity|by left].
  - reflexivity.
  - exists demo_demand. by apply demo_demanded.
  - intros target. cbn. by intros [= <-].
  - vm_compute in Hraw. injection Hraw as <-. vm_compute in Hown. injection Hown as <-. exists m. split; [exact Hsent|].
    intros ls. rewrite Hm.
    + split; [intros Hall; apply Hall; left; by apply demo_demanded|].
      intros Hs s [->%demo_demanded|Ho]; [exact Hs|discriminate Ho].
    + intros a b [->%demo_demanded|Ho] [->%demo_demanded|Ho']; [|discriminate Ho'|discriminate Ho|discriminate Ho].
      intros k v v' Hv Hv'. rewrite Hv in Hv'. by injection Hv'.
Defined.

Lemma lock_answer_recorded_witness :
  ∃ sent out, (∃ m', handler_ServeHTTP demo_answer (mkConn false None) demo_rw demo_api
      (Some (lock_info "ns" "update" "op")) (with_header {["Content-Type" := ["application/json"]]} (with_body (Some (demo_text (encode (demo_lease "op")))) (demo_request EmptyString)))
      (demo_spec_manager None) = Returns (Proxied sent out, m') ∧
      leaderElectionState m' = Some (mkLeaderState "op-0_x" true)).
Proof.
  set (r := with_header _ _).
  assert (Hh : ∃ hd, LeaderElection.Handle demo_handler (lock_info "ns" "update" "op") (lock_view r) = Returns hd ∧
    hd_handled hd = true ∧ hd_err hd = None ∧ hd_modifyResponse hd = Some (mkLeaderState "op-0_x" true)).
  { vm_compute. eexists. repeat split. }
  destruct Hh as (hd & Hhd & H1 & H2 & H3).
  destruct (handler_ServeHTTP demo_answer (mkConn false None) demo_rw demo_api (Some (lock_info "ns" "update" "op")) r
    (demo_spec_manager None)) as [[ev m']|] eqn:Hs; [|vm_compute in Hs; discriminate].
  destruct (lock_answer_recorded demo_answer (mkConn false None) demo_rw demo_api (lock_info "ns" "update" "op") demo_handler
    r (demo_spec_manager None) hd (mkLeaderState "op-0_x" true) ev m' eq_refl Hhd H1 H2 H3 eq_refl Hs)
    as (sent & out & -> & Hm). exists sent, out, m'. split; [reflexivity|]. cbn in Hm. subst m'. reflexivity.
Defined.

Lemma tproxy_correct_witness :
  ∃ ev mg' tk', handleHTTP demo_answer (mkConn false None) demo_rw id (mkTSwitches true true) "GET"
    (demo_request EmptyString) BreakerManager.NewManager FaultInjection.NewManager (mkTicks 0 0) = Returns (ev, mg', tk').
Proof.
  destruct (tproxy_correct demo_answer (mkConn false None) demo_rw id (mkTSwitches true true) "GET"
    (demo_request EmptyString) BreakerManager.NewManager FaultInjection.NewManager (mkTicks 0 0)
    NewManager_wf fault_NewManager_wf) as [(u & ij & tk' & _ & _ & _ & _ & Hp)|(ev & mg' & tk' & He & _)];
    [vm_compute in Hp; discriminate|]. exists ev, mg', tk'. exact He.
Defined.

(** The request of the example, resolved, under a prefix it does not have: it
    is answered with an error and served as well. *)
Definition demo_resolver (u : URL) : result RequestInfo := Ok demo_info.
Lemma api_proxy_answers_witness :
  ∃ ev, (serve demo_resolver "/proxy" (NewProxy demo_answer (mkConn false None) id demo_switches demo_api)
     "GET" (demo_request "watch=1") demo_rw demo_world).1.1 =
    [Answered 500 "failed to trim url by: /proxy, fail to trim url, /proxy is not /api/v1/pods prefix"; ev] ∧
    ∃ sent out, ev = Proxied sent out.
Proof.
  pose proof (api_proxy_answers demo_answer (mkConn false None) id demo_resolver "/proxy"
    demo_switches demo_api "GET" (demo_request "watch=1") demo_rw demo_world NewManager_wf fault_NewManager_wf) as [_ Ha].
  destruct Ha as (local & ev & _ & Hevs & (w' & wd' & Hc)).
  - assert (He : ∃ a sent out, (serve demo_resolver "/proxy" (NewProxy demo_answer (mkConn false None) id demo_switches demo_api)
      "GET" (demo_request "watch=1") demo_rw demo_world).1.1 = [a; Proxied sent (Finished out)] ∧ a ≠ Repanicked).
    { vm_compute. eexists _, _, _. split; [reflexivity|discriminate]. }
    destruct He as (a & sent & out & -> & Hne). intros [?|[?|[]%elem_of_nil]%elem_of_cons]%elem_of_cons; congruence.
  - exists ev. split; [exact Hevs|]. 
    assert (He : ∃ a sent out, (serve demo_resolver "/proxy" (NewProxy demo_answer (mkConn false None) id demo_switches demo_api)
      "GET" (demo_request "watch=1") demo_rw demo_world).1.1 = [a; Proxied sent out]).
    { vm_compute. eexists _, _, _. reflexivity. }
    destruct He as (a & sent & out & He). rewrite He in Hevs. injection Hevs as _ <-. by eexists _, _.
Defined.
End witness.
