(* ===== verification/ShardingValidation.v ===== *)
(** * The validating webhook of sharding configurations

    src/pkg/webhook/shardingconfig/shardingconfig_validating_handler.go: what
    a configuration must satisfy to be admitted, what admission guarantees to
    the controllers that read it, and where it stops short. *)

From S2P Require Import Prelude GoStrings Selector Sharding ShardingReconcile ShardServer Route.

Definition CtrlmeshIgnoreValidateLabel : string := "ctrlmesh.kusionstack.io/ignore-validate".

(** A decoded configuration, and whether its list of limits is nil rather than
    empty, which the code tells apart. *)
Record Candidate := mkCandidate { ad_obj : ShardingConfig; ad_LimitsNil : bool }.

(** The answers of a webhook. *)
Inductive response := Allowed | Errored (code : Z) (msg : string).
Definition StatusBadRequest : Z := 400.
Definition StatusUnprocessableEntity : Z := 422.
Definition StatusInternalServerError : Z := 500.

(** [selector.Empty()]: the selector of nothing is not empty. *)
Definition sel_Empty (s : labels_Selector) : bool :=
  match s with Nothing => false | Reqs rs => bool_decide (length rs = 0) end.

Definition validateRootConfig (root : ShardingConfigRoot) : option string :=
  match (match Canary root with
         | None => None
         | Some c =>
             if bool_decide (InShardHash c = []) && bool_decide (InNamespaces c = [])
             then Some "canary config must have at least one inShardHash or inNamespaces"
             else match Replicas c with
                  | None => Some "canary shard replicas must not be nil"
                  | Some _ => None
                  end
         end) with
  | Some e => Some e
  | None =>
      match Auto root with
      | Some a => if bool_decide (EveryShardReplicas a = 0%Z) || bool_decide (ShardingSize a = 0%Z)
                  then Some "illegal root auto config" else None
      | None => None
      end
  end.

(** The pairs of a resource and a group that the nested loops visit. *)
Definition limited (l : ObjectLimiter) : list (string * string) :=
  RelatedResources l ≫= λ g, rg_Resources g ≫= λ resource, (λ api, (resource, api)) <$> rg_APIGroups g.

(** One turn of the innermost loop over [resourceSet]. *)
Definition check_resource (st : result (gset string)) (ra : string * string) : result (gset string) :=
  seen ← st;
  let '(resource, api) := ra in
  if decide ("*/" +:+ resource ∈ seen ∨ api +:+ "/" +:+ resource ∈ seen)
  then Err (resource +:+ " has conflict resource limits")
  else Ok ({[api +:+ "/" +:+ resource]} ∪ seen).

(** [resourceRangeMap]: who has claimed a resource where. *)
Abbreviation range_map := (gmap string (gset string)).

Section validating.
Context `{AsSelector} `{SelectorText}.

(** The part of [validate] after the limits. *)
Definition validate_parts (obj : ShardingConfig) : option string :=
  if decide ((LeaderElectionName <$> sc_Controller obj) = Some EmptyString)
  then Some "leaderElectionName for controller can not be empty"
  else match sc_Webhook obj with
  | None => None
  | Some w =>
      if decide (CertDir w = EmptyString) then Some "certDir for webhook can not be empty"
      else if (Port w <=? 0)%Z then Some "port for webhook must be bigger than 0"
      else None
  end.

Definition validate (a : Candidate) : option string :=
  let obj := ad_obj a in
  match (match sc_Root obj with Some root => validateRootConfig root | None => None end) with
  | Some e => Some e
  | None =>
      match LabelSelectorAsSelector (sc_Selector obj) with
      | None => Some "invalid selector"
      | Some selector =>
          if (sel_Empty selector || bool_decide (sel_String selector = EmptyString)) && bool_decide (sc_Root obj = None)
          then Some "invalid selector can not be empty"
          else if ad_LimitsNil a then
            match sc_Root obj with None => Some "invalid nil limits" | Some _ => None end
          else match fold_left check_resource (sc_Limits obj ≫= limited) (Ok ∅) with
          | Err e => Some e
          | Ok _ => validate_parts obj
          end
      end
  end.

Definition validateUpdate (obj oldObj : ShardingConfig) : option string :=
  if decide (sc_Selector obj ≠ sc_Selector oldObj) then Some "selector can not be modified" else None.

(** ** Ranges of resources over namespaces *)

(** Listing the namespaces a selector matches, by name. *)
Context (listNamespaces : labels_Selector → result (list string)).


(** The loop over the names: a name already in the set is a conflict. *)
Fixpoint insert_names (ran : gset string) (names : list string) : string + gset string :=
  match names with
  | [] => inr ran
  | name :: names => if decide (name ∈ ran) then inl name else insert_names ({[name]} ∪ ran) names
  end.
Definition claim (m : range_map) (resource : string) (names : list string) : string + range_map :=
  match m !! resource with
  | Some ran => match insert_names ran names with inl name => inl name | inr ran => inr (<[resource := ran]> m) end
  | None => inr (<[resource := list_to_set names]> m)
  end.

(** The answer names another configuration that the limit is of; [from] is
    empty for the limits of the configuration itself. *)
Definition origin (cfg : ShardingConfig) : string := ", ShardingConfig " +:+ sc_Namespace cfg +:+ "/" +:+ sc_Name cfg.
Definition conflict (from resource name : string) : response :=
  Errored StatusUnprocessableEntity ("resource " +:+ resource +:+ " is conflict in namespace " +:+ name +:+ from).

Fixpoint claim_resources (from : string) (m : range_map) (names : list string) (resources : list string) : response + range_map :=
  match resources with
  | [] => inr m
  | resource :: resources =>
      match claim m resource names with
      | inl name => inl (conflict from resource name)
      | inr m => claim_resources from m names resources
      end
  end.

(** One limit of a configuration. *)
Definition claim_limit (from : string) (m : range_map) (limit : ObjectLimiter) : response + range_map :=
  match ol_Selector limit with
  | None => inr m
  | Some sel =>
      match LabelSelectorAsSelector (Some sel) with
      | None => inl (Errored StatusInternalServerError "selector")
      | Some selector =>
          match listNamespaces selector with
          | Err e => inl (Errored StatusInternalServerError e)
          | Ok names => claim_resources from m names (RelatedResources limit ≫= rg_Resources)
          end
      end
  end.
Fixpoint claim_limits (m : range_map) (limits : list (string * ObjectLimiter)) : response + range_map :=
  match limits with
  | [] => inr m
  | (from, limit) :: limits => match claim_limit from m limit with inl r => inl r | inr m => claim_limits m limits end
  end.

(** [configs] is the list of the namespace's configurations without the label
    that turns validation off. *)
Definition validateConfigResource (enableForceValidate : bool) (configs : result (list ShardingConfig))
    (obj : ShardingConfig) : response :=
  if negb enableForceValidate then Allowed else
  match configs with
  | Err e => Errored StatusInternalServerError e
  | Ok cfgs =>
      let others := filter (λ cfg, sc_Name cfg ≠ sc_Name obj) cfgs in
      match claim_limits ∅ ((others ≫= λ cfg, pair (origin cfg) <$> sc_Limits cfg) ++ (pair EmptyString <$> sc_Limits obj)) with
      | inl r => r
      | inr _ => Allowed
      end
  end.

(** [Handle]: the decoded object, the decoded old one, and whether the request
    is an update. *)
Definition Handle (enableForceValidate : bool) (configs : result (list ShardingConfig))
    (update : bool) (decoded old : result Candidate) : response :=
  match decoded with
  | Err e => Errored StatusBadRequest e
  | Ok a =>
      let obj := ad_obj a in
      if decide (is_Some (sc_Labels obj !! CtrlmeshIgnoreValidateLabel)) then Allowed
      else match validate a with
      | Some e => Errored StatusUnprocessableEntity e
      | None =>
          match (if update then
                   match old with
                   | Err e => Some (Errored StatusBadRequest e)
                   | Ok o => Errored StatusUnprocessableEntity <$> validateUpdate obj (ad_obj o)
                   end else None) with
          | Some r => r
          | None => validateConfigResource enableForceValidate configs obj
          end
      end
  end.
End validating.

(** ** Repeated resources *)

Definition is_ok {A} (r : result A) : Prop := match r with Ok _ => True | Err _ => False end.

(** No resource is limited again in a group that an earlier entry covers: the
    same group, or all groups. *)
Definition no_repeat (l : list (string * string)) : Prop :=
  ∀ i j resource api api', (i < j)%nat → l !! i = Some (resource, api) → l !! j = Some (resource, api') →
    api ≠ api' ∧ api ≠ "*".
Definition slash_free (l : list (string * string)) : Prop := ∀ ra, ra ∈ l → free_of "/" ra.2 = true.

Definition key_of (ra : string * string) : string := ra.2 +:+ "/" +:+ ra.1.

Lemma key_inj ra rb : free_of "/" ra.2 = true → free_of "/" rb.2 = true → key_of ra = key_of rb → ra = rb.
Proof.
  destruct ra as [r a], rb as [r' a']. unfold key_of. cbn [fst snd]. intros Ha Hb Hk.
  destruct (sep_inj_l "/" a r a' r' Ha Hb Hk) as [-> ->]. done.
Qed.

Lemma check_err l e : fold_left check_resource l (Err e) = Err e.
Proof. induction l; simpl; auto. Qed.

Lemma check_resource_spec l seen done_ :
  slash_free (done_ ++ l) → (∀ k, k ∈ seen ↔ ∃ ra, ra ∈ done_ ∧ k = key_of ra) →
  (is_ok (fold_left check_resource l (Ok seen)) ↔
   (∀ i ra, l !! i = Some ra → ∀ rb, rb ∈ done_ ++ take i l → rb.1 = ra.1 → rb.2 ≠ ra.2 ∧ rb.2 ≠ "*")).
Proof.
  revert seen done_. induction l as [|[r a] l IH]; intros seen done_ Hfree Hseen; cbn [fold_left].
  { split; [by intros _ i ra Hi|done]. }
  cbn [check_resource mbind result_bind].
  assert (Hhit : ("*/" +:+ r ∈ seen ∨ a +:+ "/" +:+ r ∈ seen) ↔ ∃ rb, rb ∈ done_ ∧ rb.1 = r ∧ (rb.2 = a ∨ rb.2 = "*")).
  { rewrite !Hseen. split.
    - intros [([r' a'] & Hin & Hk)|([r' a'] & Hin & Hk)].
      + assert ((r, "*") = (r', a')) as [= <- <-]; [|by exists (r, "*"); auto].
        apply key_inj; [done|apply Hfree, elem_of_app; by left|exact Hk].
      + assert ((r, a) = (r', a')) as [= <- <-]; [|by exists (r, a); auto].
        apply key_inj; [apply (Hfree (r, a)), elem_of_app; right; by left|apply Hfree, elem_of_app; by left|exact Hk].
    - intros ([r' a'] & Hin & Hr & Ha). cbn in Hr, Ha. subst r'. destruct Ha as [-> | ->]; [right|left]; by eexists. }
  destruct (decide _) as [Hd|Hd].
  - rewrite check_err. split; [done|]. intros Hall. apply Hhit in Hd as (rb & Hin & Hr & Ha).
    destruct (Hall 0 (r, a) eq_refl rb) as [H1 H2]; [by rewrite app_nil_r|done|]. by destruct Ha.
  - rewrite (IH _ (done_ ++ [(r, a)])).
    + split.
      * intros Hall [|i] ra Hi rb Hin Hr.
        -- cbn in Hi, Hin. injection Hi as <-. rewrite app_nil_r in Hin. cbn in Hr |- *.
           split; intros ?; apply Hd, Hhit; exists rb; auto.
        -- apply (Hall i ra Hi); [|done]. by rewrite <- app_assoc.
      * intros Hall i ra Hi rb Hin Hr. apply (Hall (S i) ra Hi); [|done]. by rewrite <- app_assoc in Hin.
    + by rewrite <- app_assoc.
    + intros k. rewrite elem_of_union, elem_of_singleton, Hseen. setoid_rewrite elem_of_app.
      setoid_rewrite list_elem_of_singleton. unfold key_of. split.
      * intros [->|(ra & Hin & ->)]; [by exists (r, a); auto|by exists ra; auto].
      * intros (ra & [Hin| ->] & ->); [right; by exists ra|by left].
Qed.

Lemma resources_checked l : slash_free l → is_ok (fold_left check_resource l (Ok ∅)) ↔ no_repeat l.
Proof.
  intros Hfree. rewrite (check_resource_spec l ∅ []) by (done || set_solver). cbn [app]. split.
  - intros Hall i j r a a' Hij Hi Hj.
    destruct (Hall j (r, a') Hj (r, a)) as [H1 H2]; [|done|done].
    apply list_elem_of_lookup. exists i. by rewrite lookup_take_lt.
  - intros Hno i [r a'] Hi [r' a] Hin Hr. cbn in Hr. subst r'.
    apply list_elem_of_lookup in Hin as [k Hk]. apply lookup_take_Some in Hk as [Hk Hlt].
    by apply (Hno k i r a a' Hlt Hk Hi).
Qed.

(** ** Ranges: who owns what *)

(** The claims of a list of limits: each resource with the namespaces its
    selector matches; nothing if a selector or a listing fails. *)
Section claims.
Context `{AsSelector} (listNamespaces : labels_Selector → result (list string)).

Fixpoint claims (limits : list ObjectLimiter) : option (list (string * list string)) :=
  match limits with
  | [] => Some []
  | limit :: limits =>
      match ol_Selector limit with
      | None => claims limits
      | Some sel =>
          selector ← LabelSelectorAsSelector (Some sel);
          match listNamespaces selector with
          | Err _ => None
          | Ok names =>
              rest ← claims limits;
              Some (((λ r, (r, names)) <$> (RelatedResources limit ≫= rg_Resources)) ++ rest)
          end
      end
  end.

(** Two claims of one resource share no namespace. *)
Definition exclusive (cs : list (string * list string)) : Prop :=
  ∀ i j r ns ns' n, (i < j)%nat → cs !! i = Some (r, ns) → cs !! j = Some (r, ns') → n ∈ ns → n ∈ ns' → False.

Definition owned (m : range_map) (r n : string) : Prop := ∃ ran, m !! r = Some ran ∧ n ∈ ran.

Fixpoint claim_all (m : range_map) (cs : list (string * list string)) : option range_map :=
  match cs with
  | [] => Some m
  | (r, ns) :: cs => match claim m r ns with inl _ => None | inr m => claim_all m cs end
  end.

Lemma insert_names_spec ran names :
  NoDup names →
  match insert_names ran names with
  | inl name => name ∈ names ∧ name ∈ ran
  | inr ran' => (∀ n, n ∈ names → n ∉ ran) ∧ ran' = list_to_set names ∪ ran
  end.
Proof.
  revert ran. induction names as [|name names IH]; intros ran Hnd; cbn [insert_names]; [split; [set_solver|set_solver]|].
  apply NoDup_cons in Hnd as [Hn Hnd]. destruct (decide (name ∈ ran)) as [Hin|Hout]; [split; [by left|done]|].
  specialize (IH ({[name]} ∪ ran) Hnd). destruct (insert_names _ names) as [x|ran']; [set_solver|].
  destruct IH as [Hfree ->]. split; [set_solver|]. rewrite list_to_set_cons. set_solver.
Qed.

Lemma claim_spec m r ns : NoDup ns →
  match claim m r ns with
  | inl n => n ∈ ns ∧ owned m r n
  | inr m' => (∀ n, n ∈ ns → ¬ owned m r n) ∧ (∀ r' n, owned m' r' n ↔ owned m r' n ∨ (r' = r ∧ n ∈ ns))
  end.
Proof.
  intros Hnd. unfold claim, owned. destruct (m !! r) as [ran|] eqn:Hm.
  - pose proof (insert_names_spec ran ns Hnd) as Hi. destruct (insert_names ran ns) as [n|ran'].
    + split; [apply Hi|]. exists ran. split; [done|apply Hi].
    + destruct Hi as [Hfree ->]. split; [intros n Hn (ran2 & ? & ?); simplify_eq; by eapply Hfree|].
      intros r' n. destruct (decide (r' = r)) as [->|Hne]; [rewrite lookup_insert_eq, Hm|rewrite lookup_insert_ne by done; naive_solver].
      split; [intros (? & [= <-] & Hn)|intros [(? & [= <-] & Hn)|[_ Hn]]; (eexists; split; [done|set_solver])].
      apply elem_of_union in Hn as [Hn%elem_of_list_to_set|Hn]; [by right|left; by exists ran].
  - split; [intros n _ (? & ? & _); congruence|]. intros r' n.
    destruct (decide (r' = r)) as [->|Hne]; [rewrite lookup_insert_eq, Hm|rewrite lookup_insert_ne by done; naive_solver].
    split; [intros (? & [= <-] & Hn%elem_of_list_to_set); by right|].
    intros [(? & ? & _)|[_ Hn]]; [done|]. eexists. split; [done|]. by apply elem_of_list_to_set.
Qed.

Lemma claim_all_spec m cs : Forall (λ c, NoDup c.2) cs →
  is_Some (claim_all m cs) ↔ exclusive cs ∧ (∀ r ns n, (r, ns) ∈ cs → n ∈ ns → ¬ owned m r n).
Proof.
  revert m. induction cs as [|[r ns] cs IH]; intros m Hnd; cbn [claim_all].
  { split; [intros _|by eexists]. split; [by intros ? ? ? ? ? ? ? ?|]. intros r ns n Hin. by apply elem_of_nil in Hin. }
  apply Forall_cons in Hnd as [Hn Hnd]. pose proof (claim_spec m r ns Hn) as Hc.
  destruct (claim m r ns) as [n|m'].
  - split; [by intros [? ?]|]. intros [_ Hfree]. exfalso. destruct Hc as [Hin Ho]. by eapply Hfree; [left| |].
  - destruct Hc as [Hfree Ho]. rewrite (IH m' Hnd). split.
    + intros [Hex Hrest]. split.
      * intros [|i] [|j] r1 ns1 ns2 n Hij Hi Hj Hn1 Hn2; [lia| |lia|].
        -- cbn in Hi, Hj. simplify_eq. apply (Hrest r1 ns2 n); [by eapply list_elem_of_lookup_2|done|]. apply Ho. by right.
        -- eapply (Hex i j); [lia|done..].
      * intros r1 ns1 n Hin Hn1 Hown. apply elem_of_cons in Hin as [[= -> ->]|Hin]; [by eapply Hfree|].
        eapply Hrest; [done|done|]. apply Ho. by left.
    + intros [Hex Hrest]. split.
      * intros i j r1 ns1 ns2 n Hij Hi Hj. apply (Hex (S i) (S j) r1 ns1 ns2 n); [lia|done|done].
      * intros r1 ns1 n Hin Hn1 [Hown|[-> Hn2]]%Ho; [by eapply Hrest; [right| |]|].
        apply list_elem_of_lookup in Hin as [j Hj]. by apply (Hex 0 (S j) r ns ns1 n); [lia| | | |].
Qed.

(** The loops over limits and resources run the claims in order. *)
Lemma claim_resources_all from m names rs cs :
  match claim_resources from m names rs with
  | inr m' => claim_all m (((λ r, (r, names)) <$> rs) ++ cs) = claim_all m' cs
  | inl _ => claim_all m (((λ r, (r, names)) <$> rs) ++ cs) = None
  end.
Proof.
  revert m. induction rs as [|r rs IH]; intros m; [done|]. cbn [claim_resources fmap list_fmap app claim_all].
  destruct (claim m r names) as [n|m']; [done|]. apply IH.
Qed.

Lemma claim_limits_all m limits :
  (∃ m', claim_limits listNamespaces m limits = inr m') ↔ ∃ cs, claims limits.*2 = Some cs ∧ is_Some (claim_all m cs).
Proof.
  revert m. induction limits as [|[from l] limits IH]; intros m; cbn [claim_limits claims fmap list_fmap snd].
  { split; [intros _; exists []; split; [done|by eexists]|intros _; by eexists]. }
  unfold claim_limit. destruct (ol_Selector l) as [sel|]; [|apply IH].
  destruct (LabelSelectorAsSelector (Some sel)) as [selector|]; cbn; [|split; [by intros [? ?]|by intros (? & ? & ?)]].
  destruct (listNamespaces selector) as [names|e]; [|split; [by intros [? ?]|by intros (? & ? & ?)]].
  set (rs := RelatedResources l ≫= rg_Resources).
  assert (Hall : ∀ cs, match claim_resources from m names rs with
    | inr m' => claim_all m (((λ r, (r, names)) <$> rs) ++ cs) = claim_all m' cs
    | inl _ => claim_all m (((λ r, (r, names)) <$> rs) ++ cs) = None end) by (intros; apply claim_resources_all).
  destruct (claim_resources from m names rs) as [resp|m1].
  - split; [by intros [? ?]|]. intros (cs & Hcs & [m' Hm']). apply bind_Some in Hcs as (rest & _ & [= <-]). by rewrite Hall in Hm'.
  - rewrite IH. split.
    + intros (rest & Hrest & Hm). rewrite Hrest. cbn. eexists. split; [done|]. by rewrite Hall.
    + intros (cs & Hcs & Hm). apply bind_Some in Hcs as (rest & Hrest & [= <-]). rewrite Hall in Hm. by exists rest.
Qed.

Lemma claims_names limits cs : (∀ s names, listNamespaces s = Ok names → NoDup names) →
  claims limits = Some cs → Forall (λ c, NoDup c.2) cs.
Proof.
  intros Hnd. revert cs. induction limits as [|l limits IH]; intros cs; cbn [claims]; [by intros [= <-]|].
  destruct (ol_Selector l); [|apply IH]. intros (selector & _ & Hcs)%bind_Some.
  destruct (listNamespaces selector) as [names|] eqn:Hl; [|done].
  apply bind_Some in Hcs as (rest & Hrest & [= <-]). apply Forall_app. split; [|by apply IH].
  apply Forall_fmap, Forall_forall. intros r _. by eapply Hnd.
Qed.
End claims.

(** ** What admission guarantees *)

Section admission.
Context `{AsSelector} `{SelectorText} (listNamespaces : labels_Selector → result (list string)).

(** A root whose canary names a namespace or a hash and has a replica count,
    and whose sizes are not zero. *)
Definition root_valid (r : ShardingConfigRoot) : Prop :=
  (∀ c, Canary r = Some c → (InShardHash c ≠ [] ∨ InNamespaces c ≠ []) ∧ is_Some (Replicas c)) ∧
  (∀ a, Auto r = Some a → EveryShardReplicas a ≠ 0%Z ∧ ShardingSize a ≠ 0%Z).
(** The names the proxies are started with. *)
Definition parts_valid (obj : ShardingConfig) : Prop :=
  (∀ c, sc_Controller obj = Some c → LeaderElectionName c ≠ EmptyString) ∧
  (∀ w, sc_Webhook obj = Some w → CertDir w ≠ EmptyString ∧ (0 < Port w)%Z).

Lemma validateRootConfig_spec r : validateRootConfig r = None ↔ root_valid r.
Proof.
  unfold validateRootConfig, root_valid.
  assert (Hauto : match Auto r with
     | Some a => if bool_decide (EveryShardReplicas a = 0%Z) || bool_decide (ShardingSize a = 0%Z)
                 then Some "illegal root auto config" else None
     | None => None end = None ↔ ∀ a, Auto r = Some a → EveryShardReplicas a ≠ 0%Z ∧ ShardingSize a ≠ 0%Z).
  { destruct (Auto r) as [a|]; [|naive_solver]. do 2 case_bool_decide; cbn; naive_solver. }
  assert (Hcan : ∀ x, x = match Canary r with
      | None => None
      | Some c => if bool_decide (InShardHash c = []) && bool_decide (InNamespaces c = [])
                  then Some "canary config must have at least one inShardHash or inNamespaces"
                  else match Replicas c with None => Some "canary shard replicas must not be nil" | Some _ => None end
      end → x = None ↔ ∀ c, Canary r = Some c → (InShardHash c ≠ [] ∨ InNamespaces c ≠ []) ∧ is_Some (Replicas c)).
  { intros x ->. destruct (Canary r) as [c|]; [|naive_solver]. split.
    - intros Hx c' [= <-]. destruct (InShardHash c), (InNamespaces c), (Replicas c); cbn in Hx; try done;
        (split; [naive_solver|by eexists]).
    - intros Hall. destruct (Hall c eq_refl) as [Hne [n Hn]]. rewrite Hn.
      destruct (InShardHash c), (InNamespaces c); cbn; naive_solver. }
  specialize (Hcan _ eq_refl). destruct (match Canary r with Some _ => _ | None => _ end) as [e|].
  - split; [done|]. intros [Hx _]. by apply Hcan in Hx.
  - rewrite Hauto. split; [|by intros [_ ?]]. split; [by apply Hcan|done].
Qed.

Lemma validate_parts_spec obj : validate_parts obj = None ↔ parts_valid obj.
Proof.
  unfold validate_parts, parts_valid.
  destruct (decide _) as [Hd|Hd].
  - apply fmap_Some in Hd as (c & Hc & He). split; [done|]. intros [Hall _]. by destruct (Hall c Hc).
  - assert (Hc : ∀ c, sc_Controller obj = Some c → LeaderElectionName c ≠ EmptyString).
    { intros c Hc He. apply Hd. by rewrite Hc, <- He. }
    destruct (sc_Webhook obj) as [w|]; [|naive_solver].
    destruct (decide (CertDir w = EmptyString)); [naive_solver|]. destruct (Z.leb_spec (Port w) 0).
    + split; [done|]. intros [_ Hw]. destruct (Hw w eq_refl). lia.
    + split; [|done]. intros _. split; [done|]. intros w' [= <-]. split; [done|lia].
Qed.

(** C24. The webhook's checks of a configuration: with groups that contain no
    slash, it is accepted exactly when its root, if it has one, is valid; its
    selector converts and, without a root, is not empty; and either its limits
    are nil, which only a root may have, and then nothing else is checked; or
    no resource is limited again in a group an earlier entry covers, the lock
    name and the certificate directory are not empty and the port is positive. *)
Theorem validate_correct a :
  slash_free (sc_Limits (ad_obj a) ≫= limited) →
  validate a = None ↔
    (∀ r, sc_Root (ad_obj a) = Some r → root_valid r) ∧
    (∃ s, LabelSelectorAsSelector (sc_Selector (ad_obj a)) = Some s ∧
       (sc_Root (ad_obj a) = None → sel_Empty s = false ∧ sel_String s ≠ EmptyString)) ∧
    (if ad_LimitsNil a then is_Some (sc_Root (ad_obj a))
     else no_repeat (sc_Limits (ad_obj a) ≫= limited) ∧ parts_valid (ad_obj a)).
Proof.
  destruct a as [obj nil]. cbn [ad_obj ad_LimitsNil]. intros Hfree. unfold validate. cbn [ad_obj ad_LimitsNil].
  pose proof (resources_checked _ Hfree) as Hres.
  assert (Hroot : match sc_Root obj with Some root => validateRootConfig root | None => None end = None ↔
    ∀ r, sc_Root obj = Some r → root_valid r).
  { destruct (sc_Root obj) as [r|]; [|naive_solver]. rewrite validateRootConfig_spec. naive_solver. }
  destruct (match sc_Root obj with Some _ => _ | None => _ end) as [e|].
  { split; [done|]. intros [Hr _]. by apply Hroot in Hr. }
  assert (Hr : ∀ r, sc_Root obj = Some r → root_valid r) by by apply Hroot.
  destruct (LabelSelectorAsSelector (sc_Selector obj)) as [s|]; [|split; [done|intros (_ & (? & ? & _) & _); done]].
  destruct (bool_decide_reflect (sc_Root obj = None)) as [Hn|Hn].
  - rewrite andb_true_r, Hn. destruct (sel_Empty s) eqn:He; cbn [orb].
    { split; [done|]. intros (_ & (s' & [= <-] & Hs) & _). destruct (Hs eq_refl). congruence. }
    destruct (bool_decide_reflect (sel_String s = EmptyString)).
    { split; [done|]. intros (_ & (s' & [= <-] & Hs) & _). by destruct (Hs eq_refl). }
    assert (Hsel : ∃ s', Some s = Some s' ∧ (@None ShardingConfigRoot = None → sel_Empty s' = false ∧ sel_String s' ≠ EmptyString)) by by exists s.
    destruct nil; [split; [done|by intros (_ & _ & [? ?])]|].
    destruct (fold_left check_resource _ _) eqn:Hf; [|split; [done|]; intros (_ & _ & Hnr & _); by apply Hres in Hnr].
    rewrite validate_parts_spec. split; [intros Hp; split_and!; [done|exact Hsel|by apply Hres|exact Hp]|by intros (_ & _ & _ & ?)].
  - rewrite andb_false_r.
    assert (Hsel : ∃ s', Some s = Some s' ∧ (sc_Root obj = None → sel_Empty s' = false ∧ sel_String s' ≠ EmptyString)) by by exists s.
    destruct nil; [destruct (sc_Root obj); [|done]; split; [intros _; split_and!; [done|exact Hsel|by eexists]|done]|].
    destruct (fold_left check_resource _ _) eqn:Hf; [|split; [done|]; intros (_ & _ & Hnr & _); by apply Hres in Hnr].
    rewrite validate_parts_spec. split; [intros Hp; split_and!; [done|exact Hsel|by apply Hres|exact Hp]|by intros (_ & _ & _ & ?)].
Qed.

(** Admission and the sharding controller: of an admitted root
    configuration with automatic sharding, the generation of the children
    panics exactly when it has no canary section, which the webhook does not
    ask for. *)
Theorem admitted_root_generates `{Hashes} a r auto :
  validate a = None → sc_Root (ad_obj a) = Some r → Auto r = Some auto →
  getChild (ad_obj a) = Panics ↔ Canary r = None.
Proof.
  intros _ Hr Ha. destruct (Canary r) as [c|] eqn:Hc.
  - destruct (getChild_shape (ad_obj a) r auto c Hr Ha Hc) as (c' & root' & _ & _ & Hg). rewrite Hg. done.
  - split; [done|]. intros _. unfold getChild. rewrite Hr. cbn. rewrite Ha, Hc. done.
Qed.

Lemma limits_of_all cfgs obj :
  ((cfgs ≫= λ cfg, pair (origin cfg) <$> sc_Limits cfg) ++ (pair EmptyString <$> sc_Limits obj)).*2
  = (cfgs ≫= sc_Limits) ++ sc_Limits obj.
Proof.
  rewrite fmap_app. f_equal; [|by rewrite <- list_fmap_compose, list_fmap_id].
  induction cfgs as [|cfg cfgs IH]; [done|]. cbn [mbind list_bind]. rewrite fmap_app, IH. f_equal.
  by rewrite <- list_fmap_compose, list_fmap_id.
Qed.

(** C25. With enforcement on, an admitted configuration shares no namespace:
    given listings without duplicates, the answer is positive exactly when
    every selector converts and lists, and over the limits of the other
    configurations of the namespace followed by its own no two claims of the
    same resource, in whatever groups, have a namespace in common. *)
Theorem forced_ranges_exclusive cfgs obj :
  (∀ s names, listNamespaces s = Ok names → NoDup names) →
  validateConfigResource listNamespaces true (Ok cfgs) obj = Allowed ↔
  ∃ cs, claims listNamespaces ((filter (λ cfg, sc_Name cfg ≠ sc_Name obj) cfgs ≫= sc_Limits) ++ sc_Limits obj) = Some cs ∧
        exclusive cs.
Proof.
  intros Hnd. unfold validateConfigResource. cbn [negb]. rewrite <- limits_of_all. set (limits := _ ++ _).
  pose proof (claim_limits_all listNamespaces ∅ limits) as Hall.
  assert (Hspec : (∃ m', claim_limits listNamespaces ∅ limits = inr m') ↔
    ∃ cs, claims listNamespaces limits.*2 = Some cs ∧ exclusive cs).
  { rewrite Hall. split.
    - intros (cs & Hcs & Hm). exists cs. split; [done|]. eapply claim_all_spec; [by eapply claims_names|done].
    - intros (cs & Hcs & Hex). exists cs. split; [done|]. apply claim_all_spec; [by eapply claims_names|].
      split; [done|]. intros r ns n _ _ (ran & Hl & _). by rewrite lookup_empty in Hl. }
  rewrite <- Hspec. destruct (claim_limits listNamespaces ∅ limits) as [resp|m'] eqn:Hc; [|split; [by eexists|done]].
  split; [|by intros [? ?]]. intros ->. exfalso. revert Hc. clear.
  assert (Hres : ∀ from m names rs, claim_resources from m names rs ≠ inl Allowed).
  { intros from m names rs. revert m. induction rs as [|r rs IH]; intros m; [done|]. cbn. by destruct (claim m r names). }
  generalize (∅ : gmap string (gset string)) as m. induction limits as [|[from l] limits IH]; intros m; [done|]. cbn [claim_limits].
  destruct (claim_limit listNamespaces from m l) as [r|m1] eqn:Hl; [|apply IH]. intros [= ->]. revert Hl. unfold claim_limit.
  destruct (ol_Selector l); [|done]. destruct (LabelSelectorAsSelector _); [|done].
  destruct (listNamespaces _) as [names|]; [|done]. apply Hres.
Qed.

(** An update the webhook admits. *)
Definition admits_update (force : bool) (configs : result (list ShardingConfig)) (old new : Candidate) : Prop :=
  Handle listNamespaces force configs true (Ok new) (Ok old) = Allowed.

(** The selector of a configuration is for life: through any sequence of
    admitted updates of a configuration that never carries the label that turns
    validation off, the selector stays the one it was created with, and every
    version passes the checks. *)
Theorem selector_immutable force configs (c c' : Candidate) :
  rtc (λ old new, admits_update force configs old new ∧ sc_Labels (ad_obj new) !! CtrlmeshIgnoreValidateLabel = None) c c' →
  validate c = None →
  sc_Selector (ad_obj c') = sc_Selector (ad_obj c) ∧ validate c' = None.
Proof.
  intros Hr. induction Hr as [c|c1 c2 c3 [Hs Hl] _ IH]; [done|]. intros Hv.
  unfold admits_update, Handle in Hs. rewrite decide_False in Hs by (rewrite Hl; by intros [? ?]).
  destruct (validate c2) eqn:Hv2; [done|]. destruct (IH eq_refl) as [Heq Hv3]. split; [|done]. rewrite Heq.
  unfold validateUpdate in Hs. destruct (decide (sc_Selector (ad_obj c2) ≠ sc_Selector (ad_obj c1))) as [Hne|Heq']; [done|].
  by apply dec_stable in Heq'.
Qed.

(** Without enforcement, which is the default of the source, ranges are not
    looked at. *)
Lemma unforced_allows configs obj : validateConfigResource listNamespaces false configs obj = Allowed.
Proof. done. Qed.

(** Once the label is there, anything goes. *)
Lemma ignored_allows force configs update a old :
  is_Some (sc_Labels (ad_obj a) !! CtrlmeshIgnoreValidateLabel) →
  Handle listNamespaces force configs update (Ok a) old = Allowed.
Proof. intros Hl. unfold Handle. by rewrite decide_True. Qed.
End admission.

(** ** Witnesses and deviations *)

Section witness.
#[local] Instance demo_as_selector : AsSelector := {|
  LabelSelectorAsSelector s := match s with None => Some Nothing | Some s => match MatchExpressions s with [] => Some (Reqs ((λ kv, mkLReq kv.1 sel_Equals [kv.2]) <$> map_to_list (MatchLabels s))) | _ => None end end |}.
#[local] Instance demo_selector_text : SelectorText := {|
  sel_String s := match s with Nothing => EmptyString | Reqs [] => EmptyString | _ => "s" end;
  ParseToLabelSelector s := Err s |}.
#[local] Existing Instance demo_hashes.

Definition demo_selector : option LabelSelector := Some (mkSel {["app" := "x"]} []).
Definition demo_limit_of (groups : list string) : ObjectLimiter :=
  mkObjectLimiter [mkResourceGroup ["pods"] groups] demo_selector.
Definition demo_config_with (limits : list ObjectLimiter) (root : option ShardingConfigRoot) : ShardingConfig :=
  mkConfig "c" "ns" ∅ ∅ [] None demo_selector (Some (mkController "op")) None limits root [].

Lemma validate_correct_witness :
  no_repeat (sc_Limits (demo_config_with [demo_limit_of ["apps"; "*"]] None) ≫= limited).
Proof.
  set (a := mkCandidate (demo_config_with [demo_limit_of ["apps"; "*"]] None) false).
  assert (Hv : validate a = None) by (vm_compute; reflexivity).
  apply (validate_correct a) in Hv as (_ & _ & Hn & _); [exact Hn|].
  intros ra. cbn. rewrite !elem_of_cons, elem_of_nil. intros [-> |[-> |[]]]; reflexivity.
Defined.

(** The order of two groups decides: all groups after one group is admitted,
    one group after all groups is not; and an empty list of limits escapes the
    check for nil limits. *)
Example order_of_groups :
  validate (mkCandidate (demo_config_with [demo_limit_of ["apps"; "*"]] None) false) = None ∧
  validate (mkCandidate (demo_config_with [demo_limit_of ["*"; "apps"]] None) false)
    = Some "pods has conflict resource limits" ∧
  validate (mkCandidate (demo_config_with [] None) false) = None ∧
  validate (mkCandidate (demo_config_with [] None) true) = Some "invalid nil limits".
Proof. vm_compute. done. Qed.

Definition uncanaried_root : ShardingConfigRoot := mkRoot None "p" "sts" None (Some (mkAutoConfig 2 1)) [].
Lemma admitted_root_generates_witness : getChild (demo_config_with [] (Some uncanaried_root)) = Panics.
Proof.
  apply (admitted_root_generates (mkCandidate (demo_config_with [] (Some uncanaried_root)) true) uncanaried_root (mkAutoConfig 2 1));
    vm_compute; reflexivity.
Defined.

Definition demo_namespaces (s : labels_Selector) : result (list string) := Ok ["n1"; "n2"].
Definition named_config (name : string) : ShardingConfig :=
  mkConfig name "ns" ∅ ∅ [] None demo_selector None None [demo_limit_of ["apps"]] None [].
Lemma forced_ranges_exclusive_witness :
  validateConfigResource demo_namespaces true (Ok [named_config "b"]) (named_config "b") = Allowed.
Proof.
  apply (forced_ranges_exclusive demo_namespaces [named_config "b"] (named_config "b")).
  - intros s names [= <-]. apply (bool_decide_unpack _). vm_compute. exact I.
  - exists [("pods", ["n1"; "n2"])]. split; [vm_compute; reflexivity|].
    intros [|i] [|j] r ns ns' n Hij Hi Hj; [lia|done|lia|done].
Defined.
(** Groups are ignored: two configurations that limit the same resource name in
    different groups are in conflict. *)
Example groups_ignored :
  validateConfigResource demo_namespaces true
    (Ok [mkConfig "b" "ns" ∅ ∅ [] None demo_selector None None [demo_limit_of ["apps"]] None []])
    (mkConfig "c" "ns" ∅ ∅ [] None demo_selector None None [demo_limit_of ["batch"]] None []) = conflict EmptyString "pods" "n1".
Proof. vm_compute. reflexivity. Qed.

Lemma selector_immutable_witness :
  ∃ c', rtc (λ old new, admits_update demo_namespaces false (Ok []) old new ∧ sc_Labels (ad_obj new) !! CtrlmeshIgnoreValidateLabel = None)
          (mkCandidate (demo_config_with [] None) false) c' ∧
        c' ≠ mkCandidate (demo_config_with [] None) false ∧ sc_Selector (ad_obj c') = demo_selector.
Proof.
  exists (mkCandidate (demo_config_with [demo_limit_of ["apps"]] None) false).
  assert (Hr : rtc (λ old new, admits_update demo_namespaces false (Ok []) old new ∧ sc_Labels (ad_obj new) !! CtrlmeshIgnoreValidateLabel = None)
          (mkCandidate (demo_config_with [] None) false) (mkCandidate (demo_config_with [demo_limit_of ["apps"]] None) false)).
  { apply rtc_once. split; vm_compute; reflexivity. }
  split; [exact Hr|]. split; [done|].
  apply (selector_immutable demo_namespaces false (Ok []) _ _ Hr). vm_compute. reflexivity.
Defined.
End witness.
