(* ===== verification/FileSystem.v ===== *)
(** * A file system

    What the certificate code uses of Go's [os] package and of POSIX file
    systems: a tree of directories, files and symbolic links, the system calls
    on it with their error codes, calls that fail for reasons of their own, and
    the states a program passes through.  A small Hoare logic proves what holds
    of the final state and of every state in between. *)

From S2P Require Import Prelude GoStrings.
From stdpp Require Import sorting.

(** ** The tree

    Paths are lists of names relative to one root, the directory the program
    works in.  A symbolic link points to a path relative to its own directory;
    links that leave the root are not modelled. *)

Abbreviation path := (list string).

Inductive node := Dir | File (data : string) (mode : Z) | Link (target : path).
Abbreviation tree := (@gmap (list string) (@list_eq_dec string _) (@list_countable string _ _) node).

Inductive errno := ENOENT | EEXIST | ENOTDIR | EISDIR | EINVAL | ENOTEMPTY | ELOOP | EIO.

#[export] Instance node_eq_dec : EqDecision node.
Proof. solve_decision. Defined.
#[export] Instance errno_eq_dec : EqDecision errno.
Proof. solve_decision. Defined.

(** [os.IsNotExist]. *)
Definition IsNotExist (e : errno) : bool := bool_decide (e = ENOENT).

(** ** Names to entries

    The walk of a path from the directory [dir]: links in the middle are
    followed, one at the end when [follow] says so, at most [links] of them in
    all.  The last name need not exist. *)

Definition MAXSYMLINKS : nat := 40.

Fixpoint namei (links : nat) (follow : bool) (f : tree) (dir rest : path) : errno + path :=
  (fix walk (dir rest : path) : errno + path :=
    match rest with
    | [] => inr dir
    | c :: rest' =>
        match f !! dir with
        | Some Dir =>
            match f !! (dir ++ [c]) with
            | None => match rest' with [] => inr (dir ++ [c]) | _ => inl ENOENT end
            | Some Dir => walk (dir ++ [c]) rest'
            | Some (File _ _) => match rest' with [] => inr (dir ++ [c]) | _ => inl ENOTDIR end
            | Some (Link t) =>
                if decide (rest' = []) then
                  if follow then match links with O => inl ELOOP | S n => namei n follow f dir (t ++ rest') end
                  else inr (dir ++ [c])
                else match links with O => inl ELOOP | S n => namei n follow f dir (t ++ rest') end
            end
        | Some _ => inl ENOTDIR
        | None => inl ENOENT
        end
    end) dir rest.

Definition lookup_path (follow : bool) (f : tree) (p : path) : errno + path := namei MAXSYMLINKS follow f [] p.
#[global] Arguments namei : simpl never.
#[global] Arguments lookup_path : simpl never.

Definition node_at (follow : bool) (f : tree) (p : path) : errno + node :=
  match lookup_path follow f p with
  | inl e => inl e
  | inr q => match f !! q with Some n => inr n | None => inl ENOENT end
  end.

Definition has_children (f : tree) (p : path) : bool :=
  existsb (λ k, bool_decide (k ≠ [] ∧ removelast k = p)) (elements (dom f)).

(** ** System calls

    What a call answers and the tree it leaves. *)

Definition lstat (p : path) (f : tree) : errno + (node * tree) :=
  match node_at false f p with inl e => inl e | inr n => inr (n, f) end.
Definition stat (p : path) (f : tree) : errno + (node * tree) :=
  match node_at true f p with inl e => inl e | inr n => inr (n, f) end.
Definition readlink (p : path) (f : tree) : errno + (path * tree) :=
  match node_at false f p with
  | inl e => inl e | inr (Link t) => inr (t, f) | inr _ => inl EINVAL
  end.
Definition readfile (p : path) (f : tree) : errno + (string * tree) :=
  match node_at true f p with
  | inl e => inl e | inr (File d _) => inr (d, f) | inr _ => inl EISDIR
  end.

(** A new entry where nothing is. *)
Definition make (n : node) (p : path) (f : tree) : errno + (unit * tree) :=
  match lookup_path false f p with
  | inl e => inl e
  | inr q => match f !! q with Some _ => inl EEXIST | None => inr (tt, <[q := n]> f) end
  end.
Definition mkdir : path → tree → errno + (unit * tree) := make Dir.
Definition symlink (target : path) : path → tree → errno + (unit * tree) := make (Link target).

(** [open] with [O_CREATE|O_TRUNC], and the [write] that follows it. *)
Definition open_trunc (p : path) (mode umask : Z) (f : tree) : errno + (unit * tree) :=
  match lookup_path true f p with
  | inl e => inl e
  | inr q =>
      match f !! q with
      | Some (File _ m) => inr (tt, <[q := File EmptyString m]> f)
      | None => inr (tt, <[q := File EmptyString (Z.land (Z.land mode 511) (Z.lnot umask))]> f)
      | Some _ => inl EISDIR
      end
  end.
Definition write_data (p : path) (data : string) (f : tree) : errno + (unit * tree) :=
  match lookup_path true f p with
  | inl e => inl e
  | inr q => match f !! q with Some (File _ m) => inr (tt, <[q := File data m]> f) | _ => inl EIO end
  end.
(** The modes of directories are not part of the model. *)
Definition chmod (p : path) (mode : Z) (f : tree) : errno + (unit * tree) :=
  match lookup_path true f p with
  | inl e => inl e
  | inr q =>
      match f !! q with
      | Some (File d _) => inr (tt, <[q := File d (Z.land mode 511)]> f)
      | Some _ => inr (tt, f)
      | None => inl ENOENT
      end
  end.

(** [unlink] of an entry, [rmdir] of an empty directory. *)
Definition unlink_entry (q : path) (f : tree) : errno + (unit * tree) :=
  match f !! q with
  | None => inl ENOENT
  | Some _ => if has_children f q then inl ENOTEMPTY else inr (tt, delete q f)
  end.
Definition unlink (p : path) (f : tree) : errno + (unit * tree) :=
  match lookup_path false f p with inl e => inl e | inr q => unlink_entry q f end.

(** [rename] of a link or file over what is not a directory. *)
Definition rename (old new : path) (f : tree) : errno + (unit * tree) :=
  match lookup_path false f old, lookup_path false f new with
  | inl e, _ | _, inl e => inl e
  | inr q, inr q' =>
      match f !! q, f !! q' with
      | None, _ => inl ENOENT
      | _, Some Dir => inl EEXIST
      | Some n, _ => inr (tt, <[q' := n]> (delete q f))
      end
  end.

(** ** Programs

    A call may fail whatever it was asked: [fault] says how the [n]-th call of
    the program fails.  The state carries the tree, the number of the call and
    the trees after every call. *)

Record disk := mkDisk { d_tree : tree; d_calls : nat; d_log : list tree }.

(** Go errors: of a system call, or with a text. *)
Inductive error := Errno (e : errno) | Invalid (msg : string).

Class Disk := {
  fault : nat → option errno;
  umask : Z;
  (** Directories that can be listed. *)
  readable : path → bool;
}.

Definition M (A : Type) : Type := disk → (error + A) * disk.
#[export] Instance M_ret : MRet M := λ A a s, (inr a, s).
#[export] Instance M_bind : MBind M := λ A B k m s,
  match m s with (inl e, s') => (inl e, s') | (inr a, s') => k a s' end.

Definition throw {A} (e : error) : M A := λ s, (inl e, s).
(** The error as a value. *)
Definition attempt {A} (m : M A) : M (error + A) := λ s, let '(r, s') := m s in (inr r, s').

Definition sys `{Disk} {A} (op : tree → errno + (A * tree)) : M A := λ s,
  let tick := mkDisk (d_tree s) (S (d_calls s)) (d_log s ++ [d_tree s]) in
  match fault (d_calls s) with
  | Some e => (inl (Errno e), tick)
  | None =>
      match op (d_tree s) with
      | inl e => (inl (Errno e), tick)
      | inr (a, f) => (inr a, mkDisk f (S (d_calls s)) (d_log s ++ [f]))
      end
  end.

(** [for _, x := range l] whose body may return an error. *)
Fixpoint each {A} (body : A → M unit) (l : list A) : M unit :=
  match l with [] => mret () | x :: l' => body x ;; each body l' end.

(** ** Functions of the [os] package *)

Section os.
Context `{Disk}.

Definition WriteFile (p : path) (data : string) (mode : Z) : M unit :=
  sys (open_trunc p mode umask) ;; sys (write_data p data).

(** [MkdirAll], on the reversed path: nothing when the directory is there, else
    the parent and then the directory, an error being forgiven when the
    directory is there after all. *)
Fixpoint MkdirAll_rev (rp : path) : M unit :=
  st ← attempt (sys (stat (reverse rp)));
  match st with
  | inr Dir => mret ()
  | inr _ => throw (Errno ENOTDIR)
  | inl _ =>
      match rp with [] => mret () | _ :: rp' => MkdirAll_rev rp' end ;;
      made ← attempt (sys (mkdir (reverse rp)));
      match made with
      | inr _ => mret ()
      | inl e =>
          again ← attempt (sys (lstat (reverse rp)));
          match again with inr Dir => mret () | _ => throw e end
      end
  end.
Definition MkdirAll (p : path) : M unit := MkdirAll_rev (reverse p).

(** What is below [q], [q] included. *)
Definition below (f : tree) (q : path) : list path := filter (λ k, take (length q) k = q) (elements (dom f)).
Definition longer (p q : path) : Prop := (length q ≤ length p)%nat.
#[export] Instance longer_dec : RelDecision longer.
Proof. unfold longer. intros p q. apply _. Defined.
#[export] Instance longer_total : Total longer.
Proof. intros p q. unfold longer. lia. Qed.
#[export] Instance longer_trans : Transitive longer.
Proof. intros p q r. unfold longer. lia. Qed.

(** Every entry is tried, children first; the first error is reported. *)
Fixpoint unlink_all (l : list path) (first : option error) : M unit :=
  match l with
  | [] => match first with None => mret () | Some e => throw e end
  | q :: l' =>
      r ← attempt (sys (unlink_entry q));
      unlink_all l' (match first, r with
                     | Some e, _ => Some e
                     | None, inl (Errno ENOENT) => None
                     | None, inl e => Some e
                     | None, inr _ => None
                     end)
  end.
Definition RemoveAll (p : path) : M unit :=
  r ← attempt (sys (unlink p));
  match r with
  | inr _ | inl (Errno ENOENT) => mret ()
  | inl _ =>
      l ← sys (λ f, match lookup_path false f p with
                    | inl e => inl e
                    | inr q => inr (merge_sort longer (below f q), f)
                    end);
      unlink_all l None
  end.

(** [filepath.Walk] with a visitor that never returns an error: the paths
    visited below [p], relative to it. *)
Fixpoint listed (q rel : path) : bool :=
  match rel with [] => true | c :: rel' => readable q && listed (q ++ [c]) rel' end.
Definition visited (p : path) (f : tree) : errno + (list path * tree) :=
  match lookup_path false f p with
  | inl e => inl e
  | inr q =>
      inr (filter (λ rel, rel ≠ [] ∧ listed q rel = true) (drop (length q) <$> below f q), f)
  end.
Definition Walk (p : path) : M (list path) :=
  r ← attempt (sys (visited p)); mret (match r with inr l => l | inl _ => [] end).
End os.

(** ** Trees that are closed under directories *)

Definition closed (f : tree) : Prop :=
  f !! [] = Some Dir ∧ ∀ p c, is_Some (f !! (p ++ [c])) → f !! p = Some Dir.

Lemma has_children_true f p : has_children f p = true ↔ ∃ c, is_Some (f !! (p ++ [c])).
Proof.
  unfold has_children. rewrite existsb_exists'. split.
  - intros (k & Hk%elem_of_elements%elem_of_dom & Hb%bool_decide_eq_true). destruct Hb as [Hne Hp].
    exists (List.last k EmptyString). rewrite <- Hp. by rewrite <- app_removelast_last.
  - intros (c & Hc). exists (p ++ [c]). split; [by rewrite elem_of_elements, elem_of_dom|].
    apply bool_decide_eq_true. split; [by destruct p|]. by rewrite removelast_last.
Qed.

Lemma closed_insert f p c n :
  closed f → f !! p = Some Dir → (n = Dir ∨ f !! (p ++ [c]) ≠ Some Dir) → closed (<[p ++ [c] := n]> f).
Proof.
  intros [Hr Hc] Hp Hn. split; [rewrite lookup_insert_ne; [done|by destruct p]|].
  intros q d. destruct (decide (q ++ [d] = p ++ [c])) as [Heq|Hne].
  - apply app_inj_tail in Heq as [-> ->]. intros _. rewrite lookup_insert_ne; [done|]. intros Heq%(f_equal length). rewrite length_app in Heq. simpl in Heq. lia.
  - rewrite lookup_insert_ne by done. intros Hs. destruct (decide (q = p ++ [c])) as [->|Hq].
    + rewrite lookup_insert_eq. destruct Hn as [->|Hn]; [done|]. by destruct Hn; apply (Hc _ d).
    + rewrite lookup_insert_ne by done. by apply (Hc _ d).
Qed.

Lemma closed_delete f q : closed f → q ≠ [] → has_children f q = false → closed (delete q f).
Proof.
  intros [Hr Hc] Hq Hch. split; [by rewrite lookup_delete_ne|]. intros p c Hs.
  destruct (decide (p ++ [c] = q)) as [<-|Hne]; [by rewrite lookup_delete_eq in Hs; destruct Hs|].
  rewrite lookup_delete_ne in Hs by done. rewrite lookup_delete_ne; [by apply (Hc _ c)|].
  intros ->. rewrite (proj2 (has_children_true f p)) in Hch by by exists c. done.
Qed.

Lemma closed_prefix f p q : closed f → is_Some (f !! (p ++ q)) → q ≠ [] → f !! p = Some Dir.
Proof.
  intros [Hr Hc]. induction q as [|c q IH] using rev_ind; [done|]. intros Hs _. rewrite app_assoc in Hs.
  apply Hc in Hs. destruct q as [|d q]; [by rewrite app_nil_r in Hs|]. by apply IH.
Qed.

(** ** Walks that meet no link *)

Definition linkless (f : tree) (d : path) : Prop := ∀ p t, f !! (d ++ p) ≠ Some (Link t).

Lemma namei_eq n follow f dir rest :
  namei n follow f dir rest =
    match rest with
    | [] => inr dir
    | c :: rest' =>
        match f !! dir with
        | Some Dir =>
            match f !! (dir ++ [c]) with
            | None => match rest' with [] => inr (dir ++ [c]) | _ => inl ENOENT end
            | Some Dir => namei n follow f (dir ++ [c]) rest'
            | Some (File _ _) => match rest' with [] => inr (dir ++ [c]) | _ => inl ENOTDIR end
            | Some (Link t) =>
                if decide (rest' = []) then
                  if follow then match n with O => inl ELOOP | S n => namei n follow f dir (t ++ rest') end
                  else inr (dir ++ [c])
                else match n with O => inl ELOOP | S n => namei n follow f dir (t ++ rest') end
            end
        | Some _ => inl ENOTDIR
        | None => inl ENOENT
        end
    end.
Proof. by destruct n, rest. Qed.

Lemma linkless_child f d c : linkless f d → linkless f (d ++ [c]).
Proof. intros Hl p t. rewrite <- app_assoc. apply Hl. Qed.

Lemma namei_stays n follow f d rest q :
  linkless f d → namei n follow f d rest = inr q → q = d ++ rest.
Proof.
  revert d. induction rest as [|c rest IH]; intros d Hl; rewrite namei_eq; [intros [= ->]; by rewrite app_nil_r|].
  destruct (f !! d) as [[]|]; try done. destruct (f !! (d ++ [c])) as [[|x m|t]|] eqn:Hc.
  - intros Hn. apply IH in Hn; [by rewrite <- app_assoc in Hn|by apply linkless_child].
  - destruct rest; [by intros [= <-]|done].
  - by destruct (Hl [c] t).
  - destruct rest; [by intros [= <-]|done].
Qed.

Lemma namei_reaches n follow f d rest c :
  closed f → linkless f d → f !! (d ++ rest) = Some Dir → namei n follow f d (rest ++ [c]) = inr (d ++ rest ++ [c]).
Proof.
  intros Hcl. revert d. induction rest as [|b rest IH]; intros d Hl Hd; rewrite namei_eq; simpl.
  - rewrite app_nil_r in Hd. rewrite Hd. destruct (f !! (d ++ [c])) as [[|x m|t]|] eqn:Hc; try done.
    + by rewrite namei_eq.
    + by destruct (Hl [c] t).
  - rewrite (closed_prefix f d (b :: rest)) by (done || by rewrite Hd).
    change (b :: rest) with ([b] ++ rest) in Hd. rewrite app_assoc in Hd.
    destruct rest as [|b' rest].
    + rewrite app_nil_r in Hd. rewrite Hd. simpl. rewrite namei_eq, Hd.
      destruct (f !! ((d ++ [b]) ++ [c])) as [[|x m|t]|] eqn:Hc; try (by rewrite <- app_assoc).
      * by rewrite namei_eq, <- app_assoc.
      * rewrite <- app_assoc in Hc. by destruct (Hl [b; c] t).
    + rewrite (closed_prefix f (d ++ [b]) (b' :: rest)) by (done || by rewrite Hd).
      rewrite (IH (d ++ [b])) by (done || by apply linkless_child). by rewrite <- app_assoc.
Qed.

(** A path walk allows more than two links. *)
Lemma lookup_links follow f p : ∃ n, lookup_path follow f p = namei (S (S n)) follow f [] p.
Proof. by eexists. Qed.

Lemma lookup_path_eq follow f p : ∃ n, lookup_path follow f p = namei n follow f [] p.
Proof. by eexists. Qed.

Lemma lookup_root follow f : lookup_path follow f [] = inr [].
Proof. reflexivity. Qed.

#[global] Opaque namei lookup_path.

(** Names in the root directory. *)
Lemma namei_dir n follow f c rest : closed f → f !! [c] = Some Dir → namei n follow f [] (c :: rest) = namei n follow f [c] rest.
Proof. intros [Hr _] Hc. rewrite namei_eq, Hr. simpl. by rewrite Hc. Qed.

Lemma namei_link n follow f c t rest :
  closed f → f !! [c] = Some (Link t) → (rest ≠ [] ∨ follow = true) →
  namei (S n) follow f [] (c :: rest) = namei n follow f [] (t ++ rest).
Proof.
  intros [Hr _] Hc Hf. rewrite namei_eq, Hr. simpl. rewrite Hc. destruct (decide (rest = [])); [|done].
  destruct Hf as [|Hf]; [done|]. by rewrite Hf.
Qed.

Lemma namei_none n follow f c rest :
  closed f → f !! [c] = None →
  namei n follow f [] (c :: rest) = match rest with [] => inr [c] | _ => inl ENOENT end.
Proof. intros [Hr _] Hc. rewrite namei_eq, Hr. simpl. by rewrite Hc. Qed.

Lemma lookup_top f c : closed f → lookup_path false f [c] = inr [c].
Proof.
  intros [Hr _]. destruct (lookup_path_eq false f [c]) as [n ->]. rewrite namei_eq, Hr. simpl.
  destruct (f !! [c]) as [[]|]; try done; by rewrite namei_eq.
Qed.

Lemma lookup_inside follow f ts rest q :
  closed f → f !! [ts] = Some Dir → linkless f [ts] → lookup_path follow f (ts :: rest) = inr q → q = ts :: rest.
Proof.
  intros Hc Ht Hl. destruct (lookup_path_eq follow f (ts :: rest)) as [n ->]. rewrite namei_dir by done. intros Hn. by apply namei_stays in Hn.
Qed.

Lemma lookup_inside_reaches follow f ts rest c :
  closed f → linkless f [ts] → f !! (ts :: rest) = Some Dir →
  lookup_path follow f (ts :: rest ++ [c]) = inr (ts :: rest ++ [c]).
Proof.
  intros Hc Hl Hd. destruct (lookup_path_eq follow f (ts :: rest ++ [c])) as [n ->].
  assert (Ht : f !! [ts] = Some Dir).
  { destruct rest as [|b rest]; [done|]. by apply (closed_prefix f [ts] (b :: rest)). }
  rewrite namei_dir by done. by apply (namei_reaches _ _ f [ts]).
Qed.

Lemma node_at_inside follow f ts rest n :
  closed f → linkless f [ts] → f !! [ts] = Some Dir →
  node_at follow f (ts :: rest) = inr n ↔ f !! (ts :: rest) = Some n.
Proof.
  intros Hc Hl Ht. unfold node_at. split.
  - destruct (lookup_path follow f (ts :: rest)) as [|q] eqn:Hq; [done|].
    apply lookup_inside in Hq as ->; [|done..]. destruct (f !! (ts :: rest)); [by intros [= ->]|done].
  - intros Hn. destruct rest as [|c rest _] using rev_ind.
    + destruct (lookup_path_eq follow f [ts]) as [m ->]. rewrite namei_dir, namei_eq by done. by rewrite Hn.
    + rewrite lookup_inside_reaches; [by rewrite Hn|done..|].
      apply (closed_prefix f (ts :: rest) [c]); [done|by simpl; rewrite Hn|done].
Qed.

(** ** Reasoning about programs

    [I] holds of every tree the program passes through; [good] is a condition
    under which it does not fail, so that one derivation gives both what holds
    when calls fail and that nothing fails when none does. *)

Section hoare.
Context `{Disk} (I : tree → Prop) (good : Prop).

Definition spec {A : Type} (P : tree → Prop) (m : M A) (Q : A → tree → Prop) (E : tree → Prop) : Prop :=
  ∀ s, P (d_tree s) → Forall I (d_log s) →
    Forall I (d_log (m s).2) ∧
    match (m s).1 with inr a => Q a (d_tree (m s).2) | inl _ => E (d_tree (m s).2) ∧ ¬ good end.

Lemma spec_ret {A : Type} (P : tree → Prop) (a : A) (Q : A → tree → Prop) E : (∀ f, P f → Q a f) → spec P (mret a) Q E.
Proof. intros Hpq s HP Hl. split; [done|]. by apply Hpq. Qed.

Lemma spec_throw {A : Type} (P : tree → Prop) e (Q : A → tree → Prop) (E : tree → Prop) :
  (∀ f, P f → E f ∧ ¬ good) → spec P (throw e) Q E.
Proof. intros Hpq s HP Hl. split; [done|]. by apply Hpq. Qed.

Lemma spec_bind {A B : Type} P (m : M A) Q (k : A → M B) R E :
  spec P m Q E → (∀ a, spec (Q a) (k a) R E) → spec P (m ≫= k) R E.
Proof.
  intros Hm Hk s HP Hl. unfold mbind, M_bind. destruct (Hm s HP Hl) as [Hl' Hr].
  destruct (m s) as [[e|a] s']; simpl in *; [done|]. by apply Hk.
Qed.

Lemma spec_conseq {A : Type} (P P' : tree → Prop) (m : M A) (Q Q' : A → tree → Prop) (E E' : tree → Prop) :
  spec P' m Q' E' → (∀ f, P f → P' f) → (∀ a f, Q' a f → Q a f) → (∀ f, E' f → E f) → spec P m Q E.
Proof.
  intros Hm HP HQ HE s Hs Hl. destruct (Hm s (HP _ Hs) Hl) as [Hl' Hr]. split; [done|].
  destruct (m s).1; [|by apply HQ]. destruct Hr. split; [by apply HE|done].
Qed.

(** A part of the precondition that does not mention the tree. *)
Lemma spec_pure {A : Type} (phi : Prop) (P : tree → Prop) (m : M A) (Q : A → tree → Prop) E :
  (phi → spec P m Q E) → spec (λ f, P f ∧ phi) m Q E.
Proof. intros Hm s [HP Hphi]. by apply Hm. Qed.

Lemma spec_attempt {A : Type} P (m : M A) (Q : A → tree → Prop) E E' :
  spec P m Q E →
  spec P (attempt m) (λ r f, match r with inr a => Q a f | inl _ => E f ∧ ¬ good end) E'.
Proof. intros Hm s HP Hl. unfold attempt. destruct (Hm s HP Hl). by destruct (m s) as [[] ?]. Qed.

Lemma spec_sys {A : Type} (P : tree → Prop) (op : tree → errno + (A * tree)) (Q : A → tree → Prop) (E : tree → Prop) :
  (good → ∀ n, fault n = None) →
  (∀ f, P f → I f ∧ E f) →
  (∀ f a f', P f → op f = inr (a, f') → I f' ∧ Q a f') →
  (∀ f e, P f → op f = inl e → ¬ good) →
  spec P (sys op) Q E.
Proof.
  intros Hng Hf Hok Her s HP Hl. unfold sys. destruct (Hf _ HP) as [HI HE].
  destruct (fault (d_calls s)) as [e|] eqn:Hfl; simpl.
  { rewrite Forall_app. split; [auto|]. split; [done|]. intros Hg. by rewrite Hng in Hfl. }
  destruct (op (d_tree s)) as [e|[a f']] eqn:Hop; simpl; rewrite Forall_app.
  - split; [auto|]. split; [done|]. by apply (Her _ e HP).
  - destruct (Hok _ _ _ HP Hop). auto.
Qed.

(** A call whose error the program looks at. *)
Lemma spec_attempt_sys {A : Type} (P : tree → Prop) (op : tree → errno + (A * tree)) (Q : A → tree → Prop) E :
  (good → ∀ n, fault n = None) → (∀ f, P f → I f) →
  (∀ f a f', P f → op f = inr (a, f') → I f' ∧ Q a f') →
  spec P (attempt (sys op))
    (λ r f, match r with
            | inr a => Q a f
            | inl e => P f ∧ (good → ∃ e0, e = Errno e0 ∧ op f = inl e0)
            end) E.
Proof.
  intros Hng HI Hok s HP Hl. unfold attempt, sys. pose proof (HI _ HP).
  destruct (fault (d_calls s)) as [e|] eqn:Hfl; simpl.
  { rewrite Forall_app. split; [auto|]. split; [done|]. intros Hg. by rewrite Hng in Hfl. }
  destruct (op (d_tree s)) as [e|[a f']] eqn:Hop; simpl; rewrite Forall_app.
  - split; [auto|]. split; [done|]. by exists e.
  - destruct (Hok _ _ _ HP Hop). auto.
Qed.

Lemma spec_each {A : Type} (J : list A → tree → Prop) (body : A → M unit) l E :
  (∀ before x after, l = before ++ x :: after → spec (J before) (body x) (λ _, J (before ++ [x])) E) →
  spec (J []) (each body l) (λ _, J l) E.
Proof.
  intros Hb. enough (Hg : ∀ before after, l = before ++ after → spec (J before) (each body after) (λ _, J l) E)
    by by apply (Hg []).
  intros before after. revert before. induction after as [|x after IH]; intros before Hl.
  - rewrite app_nil_r in Hl. rewrite Hl. by apply spec_ret.
  - simpl. eapply spec_bind; [by apply (Hb before x after)|]. intros []. apply IH. by rewrite <- app_assoc.
Qed.

(** The removal of a tree, children first: whatever is kept by each removal is
    kept by all, and without faults nothing stays below [q]. *)
Lemma spec_unlink_all_from (J : tree → Prop) f0 q before after first :
  (good → ∀ n, fault n = None) → (∀ f, J f → I f) →
  (∀ f k, k ∈ before ++ after → J f → has_children f k = false → J (delete k f)) →
  before ++ after = merge_sort longer (below f0 q) →
  spec (λ f, J f ∧ (good → first = None ∧ ∀ k, f !! k = if decide (k ∈ before) then None else f0 !! k))
    (unlink_all after first)
    (λ _ f, J f ∧ (good → ∀ k, f !! k = if decide (k ∈ before ++ after) then None else f0 !! k)) J.
Proof.
  intros Hng HJI. revert before first. induction after as [|x after IH]; intros before first HJ Hl.
  { rewrite app_nil_r in *. simpl. destruct first as [e|].
    - apply spec_throw. intros f [HJf Hg]. split; [done|]. intros [? _]%Hg. done.
    - apply spec_ret. intros f [HJf Hg]. split; [done|]. by intros [_ ?]%Hg. }
  simpl. eapply spec_bind.
  { apply (spec_attempt _ _ (λ _ f, J f ∧ (good → first = None ∧
      ∀ k, f !! k = if decide (k ∈ before ++ [x]) then None else f0 !! k)) J), spec_sys; [done|..].
    - intros f [HJf _]. auto.
    - intros f [] f' [HJf Hg]. unfold unlink_entry. destruct (f !! x) eqn:Hx; [|done].
      destruct (has_children f x) eqn:Hch; [done|]. intros [= <-].
      assert (HJ' : J (delete x f)) by (apply HJ; set_solver). split; [auto|]. split; [done|].
      intros [Hf0 Hk]%Hg. split; [done|]. intros k. destruct (decide (k = x)) as [->|Hne].
      + rewrite lookup_delete_eq, decide_True by set_solver. done.
      + rewrite lookup_delete_ne, Hk by done. apply decide_ext. set_solver.
    - intros f e [HJf Hg] Hop Hgood. destruct (Hg Hgood) as [_ Hk].
      assert (Hperm : x ∈ below f0 q) by (rewrite <- (merge_sort_Permutation longer), <- Hl; set_solver).
      assert (Hnd : NoDup (before ++ x :: after)).
      { rewrite Hl, merge_sort_Permutation. apply NoDup_filter, NoDup_elements. }
      apply NoDup_app in Hnd as (_ & Hdis & Hnd%NoDup_cons_1_1).
      apply list_elem_of_filter in Hperm as [Htk Hd%elem_of_elements%elem_of_dom].
      unfold unlink_entry in Hop. rewrite (Hk x), decide_False in Hop by (intros ?; by apply (Hdis x); [|left]).
      destruct Hd as [n Hn]. rewrite Hn in Hop. destruct (has_children f x) eqn:Hch; [|done].
      apply has_children_true in Hch as (c & Hc). rewrite Hk in Hc. case_decide as Hb; [by destruct Hc|].
      assert (Hin : x ++ [c] ∈ before ++ x :: after).
      { rewrite Hl, merge_sort_Permutation. apply list_elem_of_filter. rewrite elem_of_elements, elem_of_dom. split; [|done].
        rewrite take_app_le; [done|]. rewrite <- Htk at 1. rewrite length_take. lia. }
      apply elem_of_app in Hin as [?|[Heq|Hin]%elem_of_cons]; [done| |].
      { apply (f_equal length) in Heq. rewrite length_app in Heq. simpl in Heq. lia. }
      pose proof (StronglySorted_merge_sort longer (below f0 q)) as Hs. rewrite <- Hl in Hs.
      apply StronglySorted_app_1_r in Hs. apply StronglySorted_inv in Hs as [_ Hs].
      rewrite Forall_forall in Hs. specialize (Hs _ Hin). unfold longer in Hs. rewrite length_app in Hs. simpl in Hs. lia. }
  intros r. eapply spec_conseq; [apply (IH (before ++ [x]))|..].
  - intros f k. rewrite <- app_assoc. apply HJ.
  - by rewrite <- app_assoc.
  - intros f Hr. simpl. destruct r as [e|[]].
    + destruct Hr as [HJf Hng']. split; [done|]. by intros ?%Hng'.
    + destruct Hr as [HJf Hg]. split; [done|]. intros [-> Hk]%Hg. done.
  - intros [] f. by rewrite <- app_assoc.
  - done.
Qed.

Lemma spec_RemoveAll (J : tree → Prop) p q :
  (good → ∀ n, fault n = None) → (∀ f, J f → I f ∧ closed f ∧ lookup_path false f p = inr q) →
  (∀ f k, take (length q) k = q → J f → has_children f k = false → J (delete k f)) →
  spec J (RemoveAll p) (λ _ f, J f ∧ (good → ∀ k, take (length q) k = q → f !! k = None)) J.
Proof.
  intros Hng HJI HJ. unfold RemoveAll.
  assert (Hnone : ∀ f k, closed f → f !! q = None → take (length q) k = q → f !! k = None).
  { intros f k Hc Hq Hk. destruct (f !! k) eqn:Hfk; [|done]. rewrite <- (take_drop (length q) k), Hk in Hfk.
    destruct (decide (drop (length q) k = [])) as [Hd|Hd]; [by rewrite Hd, app_nil_r in Hfk; congruence|].
    rewrite (closed_prefix f q (drop (length q) k)) in Hq by (done || by rewrite Hfk). done. }
  eapply spec_bind.
  { apply (spec_attempt_sys J _ (λ _ f, J f ∧ f !! q = None)); [done|by intros f [??]%HJI|].
    intros f [] f' HJf. unfold unlink. destruct (HJI f HJf) as (_ & _ & ->). unfold unlink_entry.
    destruct (f !! q) eqn:Hq; [|done]. destruct (has_children f q) eqn:Hch; [done|]. intros [= <-].
    assert (HJ' : J (delete q f)). { apply HJ; [|done..]. by rewrite take_ge. }
    rewrite lookup_delete_eq. split; [by apply HJI|done]. }
  assert (Hrest : spec J (l ← sys (λ f, match lookup_path false f p with
      | inl e => inl e | inr q => inr (merge_sort longer (below f q), f) end); unlink_all l None)
      (λ _ f, J f ∧ (good → ∀ k, take (length q) k = q → f !! k = None)) J).
  { eapply spec_bind.
    - apply (spec_sys _ _ (λ l f, J f ∧ l = merge_sort longer (below f q))); [done|intros f HJf; split; [by apply HJI|exact HJf]|..].
      + intros f l f' HJf. destruct (HJI f HJf) as (HI & _ & ->). by intros [= <- <-].
      + intros f e HJf. by destruct (HJI f HJf) as (_ & _ & ->).
    - intros l s [HJs ->] Hlog.
      destruct (spec_unlink_all_from J (d_tree s) q [] (merge_sort longer (below (d_tree s) q)) None) with (s := s)
        as [Hlog' Hpost]; [done|by intros f [??]%HJI| |done|by split|done|].
      { intros f k. rewrite app_nil_l, merge_sort_Permutation. intros [Hk _]%list_elem_of_filter. by apply HJ. }
      split; [done|]. destruct ((unlink_all _ None) s) as [[e|[]] s']; [done|]. simpl in *.
      destruct Hpost as [HJf Hg]. split; [done|]. intros Hgood k Hk. rewrite (Hg Hgood). case_decide as Hin; [done|].
      rewrite merge_sort_Permutation in Hin. destruct (d_tree s !! k) eqn:Hs; [|done]. destruct Hin.
      apply list_elem_of_filter. by rewrite elem_of_elements, elem_of_dom, Hs. }
  intros [[[]|msg]|[]];
    try (eapply spec_conseq; [exact Hrest|by intros f [??]|done|done]);
    apply spec_ret; intros f.
  - intros [HJf Hop]. split; [done|]. intros Hgood k Hk. destruct (Hop Hgood) as (e0 & [= <-] & Hu).
    unfold unlink in Hu. destruct (HJI f HJf) as (_ & Hc & Hl). rewrite Hl in Hu. unfold unlink_entry in Hu.
    destruct (f !! q) eqn:Hq; [by destruct (has_children f q)|by apply Hnone].
  - intros [HJf Hq]. split; [done|]. intros _ k Hk. destruct (HJI f HJf) as (_ & Hc & _). by apply Hnone.
Qed.
End hoare.
