(* ===== verification/AtomicWriter.v ===== *)
(** * The atomic writer

    src/pkg/webhook/util/writer/atomic/atomic_writer.go: a set of files is
    projected into a directory so that readers see all of the old files or all
    of the new ones.  The files live in a time-stamped directory, the link
    [..data] names the current one, and the visible names are links through
    [..data].  The root of the tree is the writer's target directory. *)

From S2P Require Import Prelude GoStrings FileSystem.

(** ** Payloads *)

Record FileProjection := mkProjection { Data : string; Mode : Z }.

Definition maxFileNameLength : nat := 255.
Definition maxPathLength : nat := 4096.
#[global] Arguments maxFileNameLength : simpl never.
#[global] Arguments maxPathLength : simpl never.
Definition dataDirName : string := "..data".
Definition newDataDirName : string := "..data_tmp".

(** The names in a path, as [filepath.Clean] and [path.Join] leave them (paths
    with an element [..] are rejected before), and the cleaned path. *)
Definition comps (k : string) : path := filter (λ c, c ≠ EmptyString ∧ c ≠ ".") (Split "/" k).
Definition Clean (k : string) : string :=
  match comps k with [] => "." | l => Join "/" l end.

Definition validatePath (targetPath : string) : option string :=
  if decide (targetPath = EmptyString) then
    Some ("invalid path: must not be empty: " +:+ String "034" (String "034" EmptyString))
  else if HasPrefix targetPath "/" then Some ("invalid path: must be relative path: " +:+ targetPath)
  else if (maxPathLength <? String.length targetPath)%nat
  then Some ("invalid path: must be less than or equal to " +:+ Itoa (Z.of_nat maxPathLength) +:+ " characters")
  else
    let items := Split "/" targetPath in
    let bad := fold_left (λ err item,
      match err with
      | Some _ => err
      | None =>
          if decide (item = "..") then Some ("invalid path: must not contain '..': " +:+ targetPath)
          else if (maxFileNameLength <? String.length item)%nat
          then Some ("invalid path: filenames must be less than or equal to " +:+ Itoa (Z.of_nat maxFileNameLength) +:+ " characters")
          else None
      end) items None in
    match bad with
    | Some _ => bad
    | None =>
        let first := default EmptyString (head items) in
        if HasPrefix first ".." && (2 <? String.length first)%nat
        then Some ("invalid path: must not start with '..': " +:+ targetPath) else None
    end.

Section writer.
Context `{RangeOrder} `{Disk}.
Abbreviation payload := (gmap string FileProjection).

Definition validatePayload (p : payload) : result payload :=
  fold_left (λ acc k,
    match acc with
    | Err _ => acc
    | Ok clean =>
        match validatePath k, p !! k with
        | Some msg, _ => Err msg
        | None, Some content => Ok (<[Clean k := content]> clean)
        | None, None => acc
        end
    end) (range_keys p) (Ok ∅).

(** The entry of a key that is being ranged over. *)
Definition projection (p : payload) (k : string) : FileProjection := default (mkProjection EmptyString 0) (p !! k).

(** ** Is there anything to do? *)

Definition shouldWriteFile (p : path) (content : string) : M bool :=
  st ← attempt (sys (lstat p));
  match st with
  | inl (Errno ENOENT) => mret true
  | _ => contentOnFs ← sys (readfile p); mret (bool_decide (content ≠ contentOnFs))
  end.

Fixpoint should_loop (p : payload) (oldTsDir : path) (ks : list string) : M bool :=
  match ks with
  | [] => mret false
  | k :: ks' =>
      shouldWrite ← shouldWriteFile (oldTsDir ++ comps k) (Data (projection p k));
      if shouldWrite : bool then mret true else should_loop p oldTsDir ks'
  end.
Definition shouldWritePayload (p : payload) (oldTsDir : path) : M bool := should_loop p oldTsDir (range_keys p).

(** The path itself and all that it goes through. *)
Definition subPaths (p : path) : list path := (λ n, take n p) <$> seq 1 (length p).

Definition pathsToRemove (p : payload) (oldTsDir : path) : M (gset path) :=
  paths ← Walk oldTsDir;
  let newPaths : gset path := list_to_set (range_keys p ≫= λ k, subPaths (comps k)) in
  mret (list_to_set paths ∖ newPaths).

(** ** The steps of a write *)

(** [newTimestampDir]; [tmp] is the name that [MkdirTemp] settles on. *)
Definition newTimestampDir (tmp : string) : M string :=
  sys (mkdir [tmp]) ;; sys (chmod [tmp] 493) ;; mret tmp.

Definition write_one (p : payload) (dir k : string) : M unit :=
  let fileProjection := projection p k in
  let fullPath := dir :: comps k in
  MkdirAll (removelast fullPath) ;;
  WriteFile fullPath (Data fileProjection) (Mode fileProjection) ;;
  attempt (sys (chmod fullPath (Mode fileProjection))) ;;
  mret ().
Definition writePayloadToDir (p : payload) (dir : string) : M unit := each (write_one p dir) (range_keys p).

(** An error of [Readlink] other than "does not exist" is passed over. *)
Definition link_one (k : string) : M unit :=
  let linkname := take 1 (comps k) in
  r ← attempt (sys (readlink linkname));
  match r with
  | inl (Errno ENOENT) => sys (symlink (dataDirName :: linkname) linkname)
  | _ => mret ()
  end.
Definition createUserVisibleFiles (p : payload) : M unit := each link_one (range_keys p).

(** Paths with a separator are skipped. *)
Definition single (p : path) : option string := match p with [c] => Some c | _ => None end.
Fixpoint remove_loop (cs : list string) (lasterr : option error) : M unit :=
  match cs with
  | [] => match lasterr with None => mret () | Some e => throw e end
  | c :: cs' =>
      r ← attempt (sys (unlink [c]));
      remove_loop cs' (match r with inl e => Some e | inr _ => lasterr end)
  end.
Definition removeUserVisiblePaths (paths : gset path) : M unit :=
  remove_loop (range_set (list_to_set (omap single (elements paths)))) None.

(** Steps 8 and 9: the new link, and its renaming over the old one. *)
Definition swap (ts : string) : M unit :=
  linked ← attempt (sys (symlink [ts] [newDataDirName]));
  match linked with
  | inl e => attempt (RemoveAll [ts]) ;; throw e
  | inr _ =>
      renamed ← attempt (sys (rename [newDataDirName] [dataDirName]));
      match renamed with
      | inl e => attempt (sys (unlink [newDataDirName])) ;; attempt (RemoveAll [ts]) ;; throw e
      | inr _ => mret ()
      end
  end.

(** Steps 5 to 11. *)
Definition publish (clean : payload) (tmp : string) (oldTs : option path) (toRemove : gset path) : M unit :=
  ts ← newTimestampDir tmp;
  writePayloadToDir clean ts ;;
  createUserVisibleFiles clean ;;
  swap ts ;;
  removeUserVisiblePaths toRemove ;;
  match oldTs with Some oldTsPath => RemoveAll oldTsPath | None => mret () end.

Definition Write (tmp : string) (p : payload) : M unit :=
  match validatePayload p with
  | Err msg => throw (Invalid msg)
  | Ok clean =>
      r ← attempt (sys (readlink [dataDirName]));
      match r with
      | inl (Errno ENOENT) => publish clean tmp None ∅
      | inl e => throw e
      | inr oldTsPath =>
          toRemove ← pathsToRemove clean oldTsPath;
          should ← shouldWritePayload clean oldTsPath;
          if negb should && bool_decide (toRemove = ∅) then mret () else publish clean tmp (Some oldTsPath) toRemove
      end
  end.
End writer.

(** ** Concrete runs *)

Definition quiet_disk : Disk := {| fault _ := None; umask := 18; readable _ := true |}.
Definition empty_dir : tree := {[ [] := Dir ]}.
(** What a reader of the path [p] gets. *)
Definition read_user (f : tree) (p : path) : option string :=
  match readfile p f with inr (d, _) => Some d | inl _ => None end.

Section examples.
#[local] Existing Instances order_fwd quiet_disk.
Definition files (l : list (string * string)) : gmap string FileProjection :=
  list_to_map ((λ kv, (kv.1, mkProjection kv.2 438)) <$> l).
Definition after (m : M unit) (f : tree) : tree := d_tree (m (mkDisk f 0 [])).2.
Definition answer_of (m : M unit) (f : tree) : error + unit := (m (mkDisk f 0 [])).1.

Definition first_write : tree := after (Write "..1" (files [("a", "x"); ("d/b", "y")])) empty_dir.
Example first_write_reads :
  answer_of (Write "..1" (files [("a", "x"); ("d/b", "y")])) empty_dir = inr () ∧
  read_user first_write ["a"] = Some "x" ∧ read_user first_write ["d"; "b"] = Some "y".
Proof. vm_compute. done. Qed.
Example second_write_reads :
  let f := after (Write "..2" (files [("a", "z")])) first_write in
  read_user f ["a"] = Some "z" ∧ read_user f ["d"; "b"] = None ∧ f !! ["d"] = None ∧ f !! ["..1"] = None.
Proof. vm_compute. done. Qed.
Example same_write_does_nothing :
  after (Write "..2" (files [("d/b", "y"); ("a", "x")])) first_write = first_write.
Proof. vm_compute. reflexivity. Qed.
End examples.

(** ** Payload facts *)

Lemma Split_Join_names (l : list string) : l ≠ [] → Forall (λ c, free_of "/" c = true) l → Split "/" (Join "/" l) = l.
Proof.
  induction l as [|c l IH]; [done|]. intros _ [Hc Hl]%Forall_cons. destruct l as [|d l]; [by apply Split_free|].
  change (Join "/" (c :: d :: l)) with (c +:+ String "/" (Join "/" (d :: l))).
  by rewrite Split_app, IH.
Qed.

Definition name_ok (c : string) : Prop := free_of "/" c = true ∧ c ≠ EmptyString ∧ c ≠ ".".

Lemma comps_names k c : c ∈ comps k → name_ok c.
Proof.
  unfold comps. intros [[Hne Hdot] Hin]%list_elem_of_filter. split; [|done]. by apply (Split_pieces_free "/" k).
Qed.

Lemma filter_all {A} (P : A → Prop) `{∀ x, Decision (P x)} (l : list A) : Forall P l → filter P l = l.
Proof. induction 1 as [|x l Hx Hl IH]; [done|]. rewrite filter_cons_True by done. by rewrite IH. Qed.

Lemma comps_Clean k : comps (Clean k) = comps k.
Proof.
  unfold Clean. destruct (comps k) as [|c l] eqn:Hk; [done|]. unfold comps at 1. rewrite <- Hk.
  assert (Hn : Forall name_ok (comps k)) by (apply Forall_forall; apply comps_names).
  rewrite Split_Join_names.
  - apply filter_all. eapply Forall_impl; [exact Hn|]. by intros x (_ & ? & ?).
  - by rewrite Hk.
  - eapply Forall_impl; [exact Hn|]. by intros x (? & _).
Qed.

Lemma Clean_idem k : Clean (Clean k) = Clean k.
Proof. unfold Clean at 1. by rewrite comps_Clean. Qed.

(** A cleaned path is determined by its names. *)
Lemma Clean_inj k k' : Clean k = k → Clean k' = k' → comps k = comps k' → k = k'.
Proof. intros Hk Hk' Hc. rewrite <- Hk, <- Hk'. unfold Clean. by rewrite Hc. Qed.

Section payloads.
Context `{RangeOrder}.

Definition clean_payload (p : gmap string FileProjection) : Prop := ∀ k, is_Some (p !! k) → Clean k = k.

Lemma validate_loop_spec (p : gmap string FileProjection) (l : list string) acc clean :
  fold_left (λ acc k,
    match acc with
    | Err _ => acc
    | Ok clean =>
        match validatePath k, p !! k with
        | Some msg, _ => Err msg
        | None, Some content => Ok (<[Clean k := content]> clean)
        | None, None => acc
        end
    end) l acc = Ok clean →
  ∃ m : gmap string FileProjection, acc = Ok m ∧ (clean_payload m → clean_payload clean) ∧
    (∀ k, k ∈ l → validatePath k = None) ∧
    (∀ k fp, clean !! k = Some fp → m !! k = Some fp ∨ ∃ k0, k0 ∈ l ∧ p !! k0 = Some fp ∧ Clean k0 = k) ∧
    (∀ k, is_Some (m !! k) → is_Some (clean !! k)) ∧
    (∀ k, k ∈ l → is_Some (p !! k) → is_Some (clean !! Clean k)).
Proof.
  revert acc. induction l as [|k l IH]; intros acc; simpl.
  { intros ->. exists clean. do 2 (split; [done|]). split; [by intros k ?%elem_of_nil|]. split; [by left|].
    split; [done|]. by intros k ?%elem_of_nil. }
  intros Hf. apply IH in Hf as (m' & Hacc & Hcl & Hv & Hk & Hkeep & Hin).
  destruct acc as [m|]; [|done]. destruct (validatePath k) eqn:Hvk; [done|]. exists m. split; [done|].
  destruct (p !! k) as [c|] eqn:Hpk; injection Hacc as <-.
  - split.
    { intros Hm. apply Hcl. intros j. destruct (decide (j = Clean k)) as [->|Hj]; [intros _; apply Clean_idem|].
      rewrite lookup_insert_ne by done. apply Hm. }
    split; [intros j [->|?]%elem_of_cons; auto|].
    assert (Hi : ∀ j, is_Some (m !! j) → is_Some (clean !! j)).
    { intros j Hj. apply Hkeep. destruct (decide (j = Clean k)) as [->|]; [by rewrite lookup_insert_eq|by rewrite lookup_insert_ne]. }
    split; [|split; [done|]].
    + intros j fp [Hj|(k0 & Hk0 & ?)]%Hk; [|right; exists k0; set_solver].
      destruct (decide (j = Clean k)) as [->|Hne]; [rewrite lookup_insert_eq in Hj|rewrite lookup_insert_ne in Hj by done].
      * right. exists k. split; [by left|]. by simplify_eq.
      * by left.
    + intros j [->|Hj]%elem_of_cons; [|by apply Hin]. intros _. apply Hkeep. by rewrite lookup_insert_eq.
  - split; [done|]. split; [intros j [->|?]%elem_of_cons; auto|].
    split; [|split; [done|]].
    + intros j fp [Hj|(k0 & Hk0 & ?)]%Hk; [by left|right; exists k0; set_solver].
    + intros j [->|Hj]%elem_of_cons; [intros [? ?]; congruence|by apply Hin].
Qed.

(** What a validated payload holds: the cleaned paths of the payload, each with
    the content of one of the paths it was cleaned from. *)
Lemma validatePayload_spec (p clean : gmap string FileProjection) :
  validatePayload p = Ok clean →
  clean_payload clean ∧ (∀ k, is_Some (p !! k) → validatePath k = None ∧ is_Some (clean !! Clean k)) ∧
  ∀ k fp, clean !! k = Some fp → ∃ k0, p !! k0 = Some fp ∧ Clean k0 = k.
Proof.
  unfold validatePayload. intros Hv. apply validate_loop_spec in Hv as (m & [= <-] & Hcl & Hok & Hk & _ & Hin).
  split; [apply Hcl; by intros k [? ?]|]. split.
  - intros k Hp. assert (k ∈ range_keys p) by by apply elem_of_range_keys. auto.
  - intros k fp [Hm|(k0 & _ & ? & ?)]%Hk; [done|by exists k0].
Qed.

Definition hidden (c : string) : bool := HasPrefix c "..".
(** Every file has a name that users see. *)
Definition visible (p : gmap string FileProjection) : Prop :=
  ∀ k, is_Some (p !! k) → ∃ c rest, comps k = c :: rest ∧ hidden c = false.

Lemma bad_items_none targetPath (items : list string) err :
  fold_left (λ err item,
      match err with
      | Some _ => err
      | None =>
          if decide (item = "..") then Some ("invalid path: must not contain '..': " +:+ targetPath)
          else if (maxFileNameLength <? String.length item)%nat
          then Some ("invalid path: filenames must be less than or equal to " +:+ Itoa (Z.of_nat maxFileNameLength) +:+ " characters")
          else None
      end) items err = None ↔
  err = None ∧ ∀ c, c ∈ items → c ≠ ".." ∧ (String.length c ≤ maxFileNameLength)%nat.
Proof.
  revert err. induction items as [|c items IH]; intros err; simpl.
  { split; [intros ->; split; [done|by intros c ?%elem_of_nil]|by intros [-> _]]. }
  rewrite IH. destruct err as [e|]; [by split; intros [? ?]|]. setoid_rewrite elem_of_cons.
  destruct (decide (c = "..")) as [->|Hne]; [split; [by intros [? ?]|intros [_ Hc]; by destruct (Hc "..") as [? _]; [left|]]|].
  destruct (Nat.ltb_spec maxFileNameLength (String.length c)) as [Hlt|Hle].
  - split; [by intros [? ?]|]. intros [_ Hc]. destruct (Hc c) as [_ ?]; [by left|lia].
  - split; intros [_ Hc]; (split; [done|]); [intros d [->|?]; auto|auto].
Qed.

(** Exactly the paths that are accepted. *)
Lemma validatePath_spec k :
  validatePath k = None ↔
  k ≠ EmptyString ∧ HasPrefix k "/" = false ∧ (String.length k ≤ maxPathLength)%nat ∧
  (∀ c, c ∈ Split "/" k → c ≠ ".." ∧ (String.length c ≤ maxFileNameLength)%nat) ∧
  (∀ c rest, Split "/" k = c :: rest → hidden c = true → (String.length c ≤ 2)%nat).
Proof.
  unfold validatePath, hidden. destruct (decide (k = EmptyString)) as [->|Hne]; [by split; [|intros [? _]]|].
  destruct (HasPrefix k "/") eqn:Ha; [by split; [|intros (_ & ? & _)]|].
  destruct (Nat.ltb_spec maxPathLength (String.length k)) as [Hlt|Hle].
  { split; [done|]. intros (_ & _ & ? & _). lia. }
  cbv zeta. match goal with |- match ?b with _ => _ end = _ ↔ _ => destruct b as [e|] eqn:Hb end.
  - split; [done|]. intros (_ & _ & _ & Hi & _). rewrite (proj2 (bad_items_none k (Split "/" k) None)) in Hb by done. done.
  - apply bad_items_none in Hb as [_ Hi]. destruct (Split "/" k) as [|c l] eqn:Hs; [by destruct (Split_nonempty "/" k)|].
    change (default EmptyString (head (c :: l))) with c. destruct (HasPrefix c "..") eqn:Hh; cbn [andb].
    + destruct (Nat.ltb_spec 2 (String.length c)) as [Hl|Hl].
      * split; [done|]. intros (_ & _ & _ & _ & Hx). specialize (Hx c l eq_refl Hh). lia.
      * split; [|done]. intros _. repeat (split; [done|]). by intros c' l' [= <- <-] _.
    + split; [|done]. intros _. repeat (split; [done|]). intros c' l' [= <- <-] Hx. congruence.
Qed.

(** A payload whose paths are clean to begin with is visible. *)
Lemma clean_paths_visible (p clean : gmap string FileProjection) :
  validatePayload p = Ok clean → (∀ k, is_Some (p !! k) → Clean k = k ∧ k ≠ ".") → visible clean.
Proof.
  intros (_ & Hok & Hfrom)%validatePayload_spec Hc k [fp Hk]. apply Hfrom in Hk as (k0 & Hp & <-).
  destruct (Hc k0) as [Hcl Hdot]; [by exists fp|]. destruct (Hok k0) as [Hv _]; [by exists fp|].
  rewrite comps_Clean. apply validatePath_spec in Hv as (Hne & _ & _ & Hi & Hfirst).
  destruct (comps k0) as [|c rest] eqn:Hk0; [unfold Clean in Hcl; by rewrite Hk0 in Hcl|].
  exists c, rest. split; [done|]. destruct (hidden c) eqn:Hh; [|done].
  assert (Hs : Split "/" k0 = c :: rest).
  { rewrite <- Hk0 at 1. rewrite <- Hcl at 1. unfold Clean. rewrite Hk0.
    assert (Hn : Forall name_ok (comps k0)) by (apply Forall_forall; apply comps_names).
    rewrite Hk0 in Hn. rewrite Split_Join_names; [|done|by eapply Forall_impl; [exact Hn|intros x (? & _)]]. done. }
  specialize (Hfirst c rest Hs Hh). destruct (Hi c) as [Hx _]; [rewrite Hs; by left|].
  unfold hidden, HasPrefix in Hh. apply prefix_spec in Hh as (t & ->). destruct t; [done|]. simpl in Hfirst. lia.
Qed.
End payloads.
