(* ===== verification/AtomicWrites.v ===== *)
(** * What the atomic writer promises

    Every state a write passes through shows its readers the old files or the
    new ones, whatever calls fail; without faults a write of a payload that
    fits succeeds, shows exactly the payload and leaves nothing else; writing
    the same payload again changes nothing. *)

From S2P Require Import Prelude GoStrings FileSystem AtomicWriter.

Abbreviation payload := (gmap string FileProjection).

(** ** A published set of files *)

(** The files a payload asks for, by path. *)
Definition wants (clean : payload) (p : path) (d : string) : Prop :=
  ∃ k fp, clean !! k = Some fp ∧ comps k = p ∧ Data fp = d.

(** The directory [ts] holds exactly the files [W], no link and no directory
    that leads to none of them. *)
Definition holds (f : tree) (ts : string) (W : path → string → Prop) : Prop :=
  linkless f [ts] ∧ f !! [ts] = Some Dir ∧
  (∀ p d, (∃ m, f !! (ts :: p) = Some (File d m)) ↔ W p d) ∧
  (∀ c, is_Some (f !! [ts; c]) → hidden c = false) ∧
  (∀ p, p ≠ [] → f !! (ts :: p) = Some Dir → ∃ r d, W (p ++ r) d).

(** What users see are links through [..data]. *)
Definition visible_links (f : tree) : Prop :=
  ∀ c, hidden c = false → f !! [c] = None ∨ f !! [c] = Some (Link [dataDirName; c]).

Definition published (f : tree) (ots : option string) (W : path → string → Prop) : Prop :=
  closed f ∧ visible_links f ∧
  match ots with
  | None => f !! [dataDirName] = None ∧ ∀ p d, ¬ W p d
  | Some ts => f !! [dataDirName] = Some (Link [ts]) ∧ holds f ts W
  end.

(** Every file has its link. *)
Definition complete (f : tree) (ots : option string) : Prop :=
  match ots with
  | None => True
  | Some ts => ∀ c, is_Some (f !! [ts; c]) → f !! [c] = Some (Link [dataDirName; c])
  end.

Definition reads (f : tree) (p : path) (d : string) : Prop := readfile p f = inr (d, f).

Lemma readfile_reads f p d f' : readfile p f = inr (d, f') ↔ f' = f ∧ reads f p d.
Proof.
  unfold reads, readfile. destruct (node_at true f p) as [e|[]]; split; try done; try (by intros [_ ?]); by intros [= -> ->] || by intros [-> ?].
Qed.

Lemma hidden_data : hidden dataDirName = true.
Proof. done. Qed.

(** Two names through links, then a walk in the directory. *)
Lemma lookup_data f ts rest :
  closed f → f !! [dataDirName] = Some (Link [ts]) → f !! [ts] = Some Dir →
  ∃ n, lookup_path true f (dataDirName :: rest) = namei n true f [ts] rest.
Proof.
  intros Hc Hd Ht. destruct (lookup_links true f (dataDirName :: rest)) as [n ->]. exists (S n).
  rewrite (namei_link _ _ _ _ [ts]) by auto. cbn [app]. by rewrite namei_dir.
Qed.

Lemma lookup_visible f ts c rest :
  closed f → f !! [dataDirName] = Some (Link [ts]) → f !! [ts] = Some Dir → f !! [c] = Some (Link [dataDirName; c]) →
  ∃ n, lookup_path true f (c :: rest) = namei n true f [ts] (c :: rest).
Proof.
  intros Hc Hd Ht Hl. destruct (lookup_links true f (c :: rest)) as [n ->]. exists n.
  rewrite (namei_link _ _ _ _ [dataDirName; c]) by auto. cbn [app].
  rewrite (namei_link _ _ _ _ [ts]) by (auto; by left). cbn [app]. by rewrite namei_dir.
Qed.

Lemma namei_file n f ts rest d :
  closed f → linkless f [ts] → f !! [ts] = Some Dir →
  (∃ m, match namei n true f [ts] rest with inr q => f !! q = Some (File d m) | inl _ => False end) ↔
  ∃ m, f !! (ts :: rest) = Some (File d m).
Proof.
  intros Hc Hl Ht. split; intros [m Hm]; exists m.
  - destruct (namei n true f [ts] rest) as [|q] eqn:Hn; [done|]. by apply namei_stays in Hn as ->.
  - destruct rest as [|c rest _] using rev_ind; [congruence|].
    rewrite (namei_reaches n true f [ts] rest c); [done..|]. apply (closed_prefix f ([ts] ++ rest) [c]); [done| |done].
    rewrite <- app_assoc. simpl. by rewrite Hm.
Qed.

Lemma reads_namei f p d :
  reads f p d ↔ ∃ m, match lookup_path true f p with inr q => f !! q = Some (File d m) | inl _ => False end.
Proof.
  unfold reads, readfile, node_at. destruct (lookup_path true f p) as [e|q]; [split; [done|by intros [m ?]]|].
  destruct (f !! q) as [[|x m|t]|]; split; try done; try (by intros [m' ?]).
  - intros [= ->]. by exists m.
  - intros [m' [= -> ->]]. done.
Qed.

Section published.
Context (f : tree) (W : path → string → Prop).

(** What goes through [..data] is exactly the published set. *)
Lemma published_data ts p d : published f (Some ts) W → (reads f (dataDirName :: p) d ↔ W p d).
Proof.
  intros (Hc & _ & Hd & Hl & Ht & HW & _). rewrite reads_namei.
  destruct (lookup_data f ts p Hc Hd Ht) as [n ->]. rewrite (namei_file n f ts p d Hc Hl Ht). apply HW.
Qed.

(** Users see nothing else, and all of it when the links are complete. *)
Lemma published_sound ots c rest d : published f ots W → hidden c = false → reads f (c :: rest) d → W (c :: rest) d.
Proof.
  intros (Hc & Hv & Ho) Hh Hr. apply reads_namei in Hr as [m Hr].
  destruct (Hv c Hh) as [Hn|Hn].
  { destruct (lookup_links true f (c :: rest)) as [n Hlk]. rewrite Hlk, (namei_none _ _ _ _ _ Hc Hn) in Hr. destruct rest; [congruence|done]. }
  destruct ots as [ts|].
  - destruct Ho as (Hd & Hl & Ht & HW & _). destruct (lookup_visible f ts c rest Hc Hd Ht Hn) as [n Hlk]. rewrite Hlk in Hr.
    apply HW. apply (namei_file n f ts (c :: rest) d Hc Hl Ht). exists m. exact Hr.
  - destruct Ho as [Hd _]. destruct (lookup_links true f (c :: rest)) as [n Hlk]. rewrite Hlk in Hr.
    rewrite (namei_link _ _ _ _ [dataDirName; c]) in Hr by auto. cbn [app] in Hr.
    by rewrite (namei_none _ _ _ _ _ Hc Hd) in Hr.
Qed.

Lemma published_view ots c rest d :
  published f ots W → complete f ots → hidden c = false → (reads f (c :: rest) d ↔ W (c :: rest) d).
Proof.
  intros Hp Hcomp Hh. split; [by apply (published_sound ots)|].
  destruct Hp as (Hc & Hv & Ho). destruct ots as [ts|]; [|by intros ?%(proj2 Ho)].
  destruct Ho as (Hd & Hl & Ht & HW & _). intros [m Hm]%HW. apply reads_namei.
  destruct (lookup_visible f ts c rest Hc Hd Ht) as [n ->]; [|apply (namei_file n f ts (c :: rest) d Hc Hl Ht); by exists m].
  apply Hcomp. destruct rest as [|b rest]; [by rewrite Hm|].
  rewrite (closed_prefix f [ts; c] (b :: rest)); [done|done|by exists (File d m)|done].
Qed.
End published.

(** A change that leaves the data link, its directory and the shape of the
    visible links alone. *)
Lemma published_change f f' ots W :
  published f ots W → closed f' → visible_links f' → f' !! [dataDirName] = f !! [dataDirName] →
  (∀ ts p, ots = Some ts → f' !! (ts :: p) = f !! (ts :: p)) → published f' ots W.
Proof.
  intros (_ & _ & Ho) Hc Hv Hd Hts. split; [done|]. split; [done|]. rewrite Hd. destruct ots as [ts|]; [|done].
  destruct Ho as (? & Hl & Ht & HW & Hh & Hlead). split; [done|].
  assert (Heq : ∀ p, f' !! (ts :: p) = f !! (ts :: p)) by by intros p; apply Hts.
  split; [intros p t; simpl; rewrite Heq; apply Hl|]. split; [by rewrite Heq|].
  split; [intros p d; rewrite Heq; apply HW|]. split; [intros c; rewrite Heq; apply Hh|intros p; rewrite Heq; apply Hlead].
Qed.

Lemma complete_change f f' ots W :
  published f ots W → complete f ots →
  (∀ ts p, ots = Some ts → f' !! (ts :: p) = f !! (ts :: p)) →
  (∀ c, hidden c = false → is_Some (f !! [c]) → f' !! [c] = f !! [c]) → complete f' ots.
Proof.
  intros (_ & _ & Ho) Hcomp Hts Hc. destruct ots as [ts|]; [|done]. intros c. rewrite Hts by done. intros Hs.
  destruct Ho as (_ & _ & _ & _ & Hh & _). rewrite Hc; [by apply Hcomp|by apply Hh|by rewrite Hcomp].
Qed.

Lemma hidden_ne c c' : hidden c = false → hidden c' = true → c ≠ c'.
Proof. intros Hc Hc' ->. congruence. Qed.

Section write.
Context `{RangeOrder} `{Disk}.
Context (clean : payload) (tmp : string) (f0 : tree) (ots : option string) (W0 : path → string → Prop) (good : Prop).

(** The name [MkdirTemp] settles on: hidden, none of the two links. *)
Context (Htmp : hidden tmp = true) (Htmp_data : tmp ≠ dataDirName) (Htmp_new : tmp ≠ newDataDirName).
(** The cleaned payload. *)
Context (Hclean : clean_payload clean) (Hvis : visible clean).
(** The directory before. *)
Context (Hpub : published f0 ots W0) (Hcomp : complete f0 ots).
(** The conditions under which a write does not fail. *)
Context (Hquiet : good → (∀ n, fault n = None) ∧ (∀ q, readable q = true)).
Context (Hfree : good → f0 !! [tmp] = None ∧ f0 !! [newDataDirName] = None).
Context (Hprefix : good → ∀ k k' r, is_Some (clean !! k) → is_Some (clean !! k') → comps k' = comps k ++ r → r = []).
Context (Hcompat : good → ∀ ts k p r, ots = Some ts → is_Some (clean !! k) → comps k = p ++ r →
  (r = [] → f0 !! (ts :: p) ≠ Some Dir) ∧ (r ≠ [] → ∀ d m, f0 !! (ts :: p) ≠ Some (File d m))).

Abbreviation W1 := (wants clean).
Definition shown (f : tree) : Prop :=
  (published f ots W0 ∧ complete f ots) ∨ (published f (Some tmp) W1 ∧ (good → complete f (Some tmp))).
Abbreviation spec := (FileSystem.spec shown good).

Lemma quiet : good → ∀ n, fault n = None.
Proof. intros Hg. by apply Hquiet. Qed.

Lemma closed0 : closed f0.
Proof. apply Hpub. Qed.

Lemma key_names k : is_Some (clean !! k) → comps k ≠ [].
Proof. intros Hk. destruct (Hvis k Hk) as (c & rest & -> & _). done. Qed.

Lemma payload_key_inj k k' : is_Some (clean !! k) → is_Some (clean !! k') → comps k = comps k' → k = k'.
Proof. intros Hk Hk'. apply Clean_inj; by apply Hclean. Qed.

(** ** The new directory while it is filled *)

(** The tree is the old one but for [tmp], which holds the files [F], and
    directories in [D] only. *)
Definition staged (F : path → string → Prop) (D : path → Prop) (f : tree) : Prop :=
  closed f ∧ (∀ q, take 1 q ≠ [tmp] → f !! q = f0 !! q) ∧ f !! [tmp] = Some Dir ∧ linkless f [tmp] ∧
  (∀ p d, (∃ m, f !! (tmp :: p) = Some (File d m)) ↔ F p d) ∧
  (∀ p, p ≠ [] → f !! (tmp :: p) = Some Dir → D p).

Definition not_tmp : Prop := ots ≠ Some tmp.

Lemma fresh_not_tmp : f0 !! [tmp] = None → not_tmp.
Proof. intros Hf ->. destruct Hpub as (_ & _ & _ & _ & Ht & _). congruence. Qed.

Lemma staged_shown F D f : not_tmp → staged F D f → published f ots W0 ∧ complete f ots.
Proof.
  intros Hnt (Hc & Hout & _). assert (Htop : ∀ c, c ≠ tmp → f !! [c] = f0 !! [c]) by (intros c Hne; apply Hout; by intros [= ->]).
  assert (Hts : ∀ ts p, ots = Some ts → f !! (ts :: p) = f0 !! (ts :: p)).
  { intros ts p Ho. apply Hout. simpl. rewrite take_0. intros [= ->]. by apply Hnt. }
  split.
  - apply (published_change f0); [done|done| |by apply Htop, not_eq_sym|done].
    intros c Hh. rewrite Htop by by apply hidden_ne. destruct Hpub as (_ & Hv & _). by apply Hv.
  - apply (complete_change f0 f ots W0); [done..|]. intros c Hh _. apply Htop. by apply hidden_ne.
Qed.

Lemma staged_weaken F F' D D' f :
  staged F D f → (∀ p d, F p d ↔ F' p d) → (∀ p, D p → D' p) → staged F' D' f.
Proof.
  intros (? & ? & ? & ? & HF & HD) HF' HD'. do 4 (split; [done|]). split; [|by eauto].
  intros p d. rewrite <- HF'. apply HF.
Qed.

Lemma staged_insert F D f q n :
  staged F D f → q ≠ [] → f !! (tmp :: removelast q) = Some Dir → (n = Dir ∨ f !! (tmp :: q) ≠ Some Dir) →
  (∀ t, n ≠ Link t) →
  closed (<[tmp :: q := n]> f) ∧ (∀ p, take 1 p ≠ [tmp] → <[tmp :: q := n]> f !! p = f0 !! p) ∧
  <[tmp :: q := n]> f !! [tmp] = Some Dir ∧ linkless (<[tmp :: q := n]> f) [tmp].
Proof.
  intros (Hc & Hout & Ht & Hl & _) Hq Hpar Hn Hnl.
  assert (Hlast : tmp :: q = (tmp :: removelast q) ++ [List.last q EmptyString]).
  { simpl. by rewrite <- app_removelast_last. }
  split; [|split; [|split]].
  - rewrite Hlast. apply closed_insert; [done|done|]. by rewrite <- Hlast.
  - intros p Hp. rewrite lookup_insert_ne by (intros <-; simpl in Hp; by rewrite take_0 in Hp). by apply Hout.
  - rewrite lookup_insert_ne; [done|]. by intros [= ->].
  - intros p t. simpl. destruct (decide (p = q)) as [->|Hne]; [rewrite lookup_insert_eq; by intros [= ?%Hnl]|].
    rewrite lookup_insert_ne by congruence. apply Hl.
Qed.

Lemma staged_file F D f q d m :
  staged F D f → q ≠ [] → f !! (tmp :: removelast q) = Some Dir → f !! (tmp :: q) ≠ Some Dir →
  staged (λ p d', if decide (p = q) then d' = d else F p d') D (<[tmp :: q := File d m]> f).
Proof.
  intros Hs Hq Hpar Hn. destruct (staged_insert F D f q (File d m)) as (Hc & Hout & Ht & Hl); auto.
  do 4 (split; [done|]). destruct Hs as (_ & _ & _ & _ & HF & HD). split.
  - intros p d'. destruct (decide (p = q)) as [->|Hne].
    + rewrite lookup_insert_eq. split; [by intros [? [= -> ->]]|]. intros ->. by exists m.
    + rewrite lookup_insert_ne by congruence. apply HF.
  - intros p Hp. destruct (decide (p = q)) as [->|Hne]; [by rewrite lookup_insert_eq|].
    rewrite lookup_insert_ne by congruence. by apply HD.
Qed.

Lemma staged_dir F (D : path → Prop) f q :
  staged F D f → q ≠ [] → f !! (tmp :: removelast q) = Some Dir → f !! (tmp :: q) = None → D q →
  staged F D (<[tmp :: q := Dir]> f).
Proof.
  intros Hs Hq Hpar Hn HDq. destruct (staged_insert F D f q Dir) as (Hc & Hout & Ht & Hl); auto.
  do 4 (split; [done|]). destruct Hs as (_ & _ & _ & _ & HF & HD). split.
  - intros p d. destruct (decide (p = q)) as [->|Hne].
    + rewrite lookup_insert_eq, <- HF, Hn. split; by intros [? ?].
    + rewrite lookup_insert_ne by congruence. apply HF.
  - intros p Hp. destruct (decide (p = q)) as [->|Hne]; [by intros|].
    rewrite lookup_insert_ne by congruence. by apply HD.
Qed.

(** Walks below [tmp], and of the root. *)
Lemma staged_node F D f follow q n :
  staged F D f → (q = [] ∨ ∃ p, q = tmp :: p) → node_at follow f q = inr n ↔ f !! q = Some n.
Proof.
  intros (Hc & _ & Ht & Hl & _) [->|[p ->]]; [|by apply node_at_inside].
  unfold node_at. rewrite lookup_root.
  destruct (f !! []); [by split; intros [= ->]|done].
Qed.

Lemma staged_lookup F D f follow q q' :
  staged F D f → (q = [] ∨ ∃ p, q = tmp :: p) → lookup_path follow f q = inr q' → q' = q.
Proof.
  intros (Hc & _ & Ht & Hl & _) [->|[p ->]]; [rewrite lookup_root; by intros [= <-]|]. by apply lookup_inside.
Qed.

(** ** Steps 5 and 6 *)

Definition before (f : tree) : Prop := published f ots W0 ∧ complete f ots.

Lemma before_shown f : before f → shown f.
Proof. by left. Qed.

Lemma empty_staged : f0 !! [tmp] = None → staged (λ _ _, False) (λ _, False) (<[ [tmp] := Dir ]> f0).
Proof.
  intros Hf. pose proof closed0 as Hc.
  assert (Hin : ∀ p, p ≠ [] → <[ [tmp] := Dir ]> f0 !! (tmp :: p) = None).
  { intros p Hp. rewrite lookup_insert_ne by congruence. destruct (f0 !! (tmp :: p)) as [n|] eqn:Hn; [|done].
    rewrite (closed_prefix f0 [tmp] p) in Hf; [done|done|by exists n|done]. }
  split; [apply (closed_insert f0 []); [done|apply Hc|by left]|]. split.
  { intros q Hq. rewrite lookup_insert_ne; [done|]. by intros <-. }
  split; [by rewrite lookup_insert_eq|]. split.
  { intros p t. simpl. destruct (decide (p = [])) as [->|]; [by rewrite lookup_insert_eq|by rewrite Hin]. }
  split.
  - intros p d. split; [|done]. intros [m Hm].
    destruct (decide (p = [])) as [->|Hp]; [by rewrite lookup_insert_eq in Hm|by rewrite Hin in Hm].
  - intros p Hp. by rewrite Hin.
Qed.

Lemma spec_newTimestampDir :
  spec (λ f, f = f0) (newTimestampDir tmp)
    (λ ts f, ts = tmp ∧ f0 !! [tmp] = None ∧ staged (λ _ _, False) (λ _, False) f) before.
Proof.
  unfold newTimestampDir. apply (spec_bind _ _ _ _ (λ _ f, f0 !! [tmp] = None ∧ staged (λ _ _, False) (λ _, False) f)).
  { apply spec_sys; [exact quiet|..].
    - intros f ->. split; [by left|by split].
    - intros f [] f' ->. unfold mkdir, make. rewrite (lookup_top _ _ closed0).
      destruct (f0 !! [tmp]) eqn:Hf; [done|]. intros [= <-]. pose proof (empty_staged Hf) as Hs.
      split; [left; by apply (staged_shown _ _ _ (fresh_not_tmp Hf) Hs)|done].
    - intros f e -> Hm Hg. unfold mkdir, make in Hm. rewrite (lookup_top _ _ closed0) in Hm.
      by rewrite (proj1 (Hfree Hg)) in Hm. }
  intros []. apply (spec_bind _ _ _ _ (λ _ f, f0 !! [tmp] = None ∧ staged (λ _ _, False) (λ _, False) f));
    [|intros []; by apply spec_ret].
  apply spec_sys; [exact quiet|..].
  - intros f [Hf Hs]. pose proof (staged_shown _ _ _ (fresh_not_tmp Hf) Hs). split; [by left|done].
  - intros f [] f' [Hf Hs]. unfold chmod. destruct (lookup_path true f [tmp]) as [|q] eqn:Hq; [done|].
    apply (staged_lookup _ _ _ _ _ _ Hs) in Hq as ->; [|right; by exists []].
    destruct Hs as (? & ? & Ht & Hrest). rewrite Ht. intros [= <-].
    assert (Hs : staged (λ _ _, False) (λ _, False) f) by done.
    split; [left; by apply (staged_shown _ _ _ (fresh_not_tmp Hf) Hs)|done].
  - intros f e [Hf Hs] Hch _. unfold chmod in Hch. destruct (lookup_path true f [tmp]) as [e'|q] eqn:Hq.
    + assert (Hn : node_at true f [tmp] = inr Dir) by (apply (staged_node _ _ _ _ _ _ Hs); [right; by exists []|apply Hs]).
      unfold node_at in Hn. by rewrite Hq in Hn.
    + apply (staged_lookup _ _ _ _ _ _ Hs) in Hq as ->; [|right; by exists []].
      destruct Hs as (_ & _ & Ht & _). by rewrite Ht in Hch.
Qed.

(** The files of the keys [ks], and the directories on the way to them. *)
Definition files_of (ks : list string) (p : path) (d : string) : Prop :=
  ∃ k, k ∈ ks ∧ comps k = p ∧ Data (projection clean k) = d.
Definition dirs_of (ks : list string) (p : path) : Prop := ∃ k r, k ∈ ks ∧ comps k = p ++ r ∧ r ≠ [].
Definition on_way (K : string) (q : path) : Prop :=
  q = [] ∨ ∃ p r, q = tmp :: p ∧ comps K = p ++ r ∧ r ≠ [].

Section one_file.
Context (ks : list string) (K : string).
Context (Hks : ∀ k, k ∈ ks → is_Some (clean !! k)) (HK : is_Some (clean !! K)) (Hnew : K ∉ ks) (Hnt : not_tmp).

Abbreviation st := (staged (files_of ks) (dirs_of (ks ++ [K]))).

Lemma way_no_file f q d m : good → st f → on_way K q → f !! q ≠ Some (File d m).
Proof.
  intros Hg (Hc & _ & _ & _ & HF & _) [->|(p & r & -> & Hp & Hr)] Hf; [by destruct Hc as [Hc _]; rewrite Hc in Hf|].
  destruct (proj1 (HF p d)) as (k & Hk & Hkp & _); [by exists m|]. subst p.
  apply Hr, (Hprefix Hg k K); auto.
Qed.

Lemma way_no_link f q t : st f → on_way K q → f !! q ≠ Some (Link t).
Proof.
  intros (Hc & _ & _ & Hl & _) [->|(p & r & -> & _)]; [destruct Hc as [Hc _]; by rewrite Hc|apply Hl].
Qed.

Lemma way_node f follow q n : st f → on_way K q → node_at follow f q = inr n ↔ f !! q = Some n.
Proof. intros Hs Hq. apply (staged_node _ _ _ _ _ _ Hs). destruct Hq as [->|(p & _ & -> & _)]; [by left|right; by exists p]. Qed.

Lemma way_parent c rp : on_way K (reverse (c :: rp)) → rp ≠ [] ∧ on_way K (reverse rp) ∨ rp = [] ∧ c = tmp.
Proof.
  rewrite reverse_cons. intros [Hq|(p & r & Hq & Hp & Hr)]; [by destruct (reverse rp)|].
  destruct p as [|b p _] using rev_ind.
  - right. destruct (reverse rp) as [|x l] eqn:Hrp; simpl in Hq; [|by destruct l].
    split; [by apply (f_equal reverse) in Hrp; rewrite reverse_involutive in Hrp|by simplify_eq].
  - left. change (tmp :: p ++ [b]) with ((tmp :: p) ++ [b]) in Hq. apply app_inj_tail in Hq as [Hq _].
    split; [by intros ->|]. right. exists p, (b :: r). rewrite Hq. split; [done|]. by rewrite <- app_assoc in Hp.
Qed.

Lemma st_shown f : st f → shown f.
Proof. intros Hs. left. by apply (staged_shown _ _ _ Hnt Hs). Qed.

(** A directory that is made on the way. *)
Lemma way_mkdir c rp f f' :
  st f → on_way K (reverse (c :: rp)) → f !! reverse rp = Some Dir →
  mkdir (reverse (c :: rp)) f = inr (tt, f') → st f' ∧ f' !! reverse (c :: rp) = Some Dir.
Proof.
  intros Hs Hq Hpar. unfold mkdir, make. destruct (lookup_path false f (reverse (c :: rp))) as [|q'] eqn:Hl; [done|].
  destruct Hq as [Hq|(p & r & Hq & Hp & Hr)]; [rewrite reverse_cons in Hq; by destruct (reverse rp)|].
  apply (staged_lookup _ _ _ _ _ _ Hs) in Hl as ->; [|right; by exists p].
  rewrite Hq. destruct (f !! (tmp :: p)) eqn:Hn; [done|]. intros [= <-].
  split; [|by rewrite lookup_insert_eq].
  assert (Hp0 : p ≠ []) by (intros ->; destruct Hs as (_ & _ & Ht & _); congruence).
  apply staged_dir; [done|done| |done|exists K, r; set_solver].
  rewrite reverse_cons in Hq. destruct p as [|b p _] using rev_ind; [done|].
  change (tmp :: p ++ [b]) with ((tmp :: p) ++ [b]) in Hq. apply app_inj_tail in Hq as [Hq _].
  rewrite removelast_last, <- Hq. done.
Qed.

Lemma root_dir f : st f → f !! [] = Some Dir.
Proof. intros [[Hc _] _]. done. Qed.

(** The three calls on a directory on the way. *)
Lemma spec_try_stat q : on_way K q →
  spec st (attempt (sys (stat q))) (λ r f, st f ∧ match r with inr n => f !! q = Some n | inl _ => True end) st.
Proof.
  intros Hq. eapply spec_conseq.
  - apply (spec_attempt_sys _ _ st (stat q) (λ n f, st f ∧ f !! q = Some n) st); [exact quiet|exact st_shown|].
    intros f n f' Hs. unfold stat. destruct (node_at true f q) as [|n'] eqn:Hn; [done|]. intros [= <- <-].
    split; [by apply st_shown|]. split; [done|]. by apply (way_node f true q n' Hs Hq).
  - done.
  - intros [e|n] f Hr; [|done]. by destruct Hr.
  - done.
Qed.

Lemma spec_try_lstat q : on_way K q →
  spec (λ f, st f ∧ (good → f !! q = Some Dir)) (attempt (sys (lstat q)))
    (λ r f, st f ∧ match r with inr n => f !! q = Some n ∧ (good → n = Dir) | inl _ => ¬ good end) st.
Proof.
  intros Hq. eapply spec_conseq.
  - apply (spec_attempt_sys _ _ (λ f, st f ∧ (good → f !! q = Some Dir)) (lstat q)
      (λ n f, st f ∧ f !! q = Some n ∧ (good → n = Dir)) st); [exact quiet|by intros f [? _]; apply st_shown|].
    intros f n f' [Hs Hg]. unfold lstat. destruct (node_at false f q) as [|n'] eqn:Hn; [done|]. intros [= <- <-].
    apply (way_node f false q n' Hs Hq) in Hn. split; [by apply st_shown|]. split; [done|]. split; [done|].
    intros ?%Hg. congruence.
  - done.
  - intros [e|n] f Hr; [|done]. destruct Hr as [[Hs Hg] He]. split; [done|]. intros Hgood.
    destruct (He Hgood) as (e0 & _ & Hl). unfold lstat in Hl.
    by rewrite (proj2 (way_node f false q Dir Hs Hq) (Hg Hgood)) in Hl.
  - done.
Qed.

Lemma spec_try_mkdir c rp : on_way K (reverse (c :: rp)) →
  spec (λ f, st f ∧ f !! reverse rp = Some Dir) (attempt (sys (mkdir (reverse (c :: rp)))))
    (λ r f, st f ∧ match r with inr _ => f !! reverse (c :: rp) = Some Dir
                              | inl _ => good → f !! reverse (c :: rp) = Some Dir end) st.
Proof.
  intros Hq. eapply spec_conseq.
  - apply (spec_attempt_sys _ _ (λ f, st f ∧ f !! reverse rp = Some Dir) (mkdir (reverse (c :: rp)))
      (λ _ f, st f ∧ f !! reverse (c :: rp) = Some Dir) st); [exact quiet|by intros f [? _]; apply st_shown|].
    intros f [] f' [Hs Hpar] Hm. destruct (way_mkdir c rp f f' Hs Hq Hpar Hm). split; [by apply st_shown|done].
  - done.
  - intros [e|n] f Hr; [|done]. destruct Hr as [[Hs Hpar] He]. split; [done|]. intros Hgood.
    destruct (He Hgood) as (e0 & _ & Hm).
    destruct (f !! reverse (c :: rp)) as [[|d m|t]|] eqn:Hf; [done|by destruct (way_no_file f _ d m Hgood Hs Hq)
      |by destruct (way_no_link f _ t Hs Hq)|].
    exfalso. unfold mkdir, make in Hm. rewrite reverse_cons in *.
    destruct (way_parent c rp) as [[Hne [Hnil|(p & r & Hp & _)]]|[-> ->]]; [by rewrite reverse_cons| | |].
    + by destruct rp; [|rewrite reverse_cons in Hnil; destruct (reverse rp)].
    + rewrite Hp in *. change ((tmp :: p) ++ [c]) with (tmp :: p ++ [c]) in *.
      destruct Hs as (Hc & _ & Ht & Hl & _). rewrite (lookup_inside_reaches false f tmp p c Hc Hl Hpar) in Hm.
      by rewrite Hf in Hm.
    + destruct Hs as (_ & _ & Ht & _). simpl in Hf. congruence.
  - done.
Qed.

Lemma spec_made q (made : error + unit) : on_way K q →
  spec (λ f, st f ∧ match made with inr _ => f !! q = Some Dir | inl _ => good → f !! q = Some Dir end)
    (match made with
     | inr _ => mret ()
     | inl e => again ← attempt (sys (lstat q)); match again with inr Dir => mret () | _ => throw e end
     end) (λ _ f, st f ∧ f !! q = Some Dir) st.
Proof.
  intros Hq. destruct made as [e|]; [|by apply spec_ret].
  eapply spec_bind; [by apply spec_try_lstat|].
  intros [e'|[|d m|t]]; [| by apply spec_ret; intros f (? & ? & _)| |];
    apply spec_throw; intros f [Hs Hf]; (split; [done|]); [done|by intros ?%(proj2 Hf)..].
Qed.

Lemma spec_MkdirAll rp : on_way K (reverse rp) →
  spec st (MkdirAll_rev rp) (λ _ f, st f ∧ f !! reverse rp = Some Dir) st.
Proof.
  induction rp as [|c rp IH]; intros Hway; simpl MkdirAll_rev;
    (eapply spec_bind; [by apply spec_try_stat|]); intros [e|[|d m|t]]; try (by apply spec_ret);
    try (apply spec_throw; intros f [Hs Hf]; split; [done|]; intros Hg; by destruct (way_no_file f _ d m Hg Hs Hway));
    try (apply spec_throw; intros f [Hs Hf]; by destruct (way_no_link f _ t Hs Hway)).
  - apply (spec_bind _ _ _ _ (λ _, st)); [by apply spec_ret; intros f [? _]|]. intros [].
    eapply spec_bind; [|intros made; by apply spec_made].
    eapply spec_conseq; [apply (spec_attempt_sys _ _ st (mkdir (reverse [])) (λ _, st) st); [exact quiet|exact st_shown|]| | |].
    + intros f [] f' Hs. unfold mkdir, make. change (reverse []) with (@nil string). rewrite lookup_root.
      by rewrite (root_dir f Hs).
    + done.
    + intros [e'|[]] f Hr; [destruct Hr as [Hs _]|]; (split; [done|]); [intros _|]; by apply root_dir.
    + done.
  - destruct (way_parent c rp Hway) as [[Hne Hway']|[-> ->]].
    + eapply spec_bind; [eapply spec_conseq; [by apply IH|by intros f [? _]|done|done]|]. intros [].
      eapply spec_bind; [by apply spec_try_mkdir|]. intros made. by apply spec_made.
    + eapply spec_bind; [eapply spec_conseq; [apply IH; by left|by intros f [? _]|done|done]|]. intros [].
      eapply spec_bind; [by apply spec_try_mkdir|]. intros made. by apply spec_made.
Qed.

(** ** One file *)

Abbreviation K_names := (comps K).

Lemma K_not_yet d : ¬ files_of ks K_names d.
Proof. intros (k & Hk & Hc & _). apply payload_key_inj in Hc as ->; auto. Qed.

(** The tree while the file [K] has the content [d]. *)
Definition writing (d : string) (f : tree) : Prop :=
  staged (λ p d', if decide (p = K_names) then d' = d else files_of ks p d') (dirs_of (ks ++ [K])) f ∧
  ∃ m, f !! (tmp :: K_names) = Some (File d m).

Lemma writing_shown d f : writing d f → shown f.
Proof. intros [Hs _]. left. by apply (staged_shown _ _ _ Hnt Hs). Qed.

Lemma writing_node d f follow : writing d f → lookup_path follow f (tmp :: K_names) = inr (tmp :: K_names).
Proof.
  intros [Hs [m Hm]]. assert (Hn : node_at follow f (tmp :: K_names) = inr (File d m)).
  { apply (staged_node _ _ _ _ _ _ Hs); [right; by exists K_names|done]. }
  unfold node_at in Hn. destruct (lookup_path follow f (tmp :: K_names)) as [|q] eqn:Hq; [done|].
  apply (staged_lookup _ _ _ _ _ _ Hs) in Hq as ->; [done|right; by exists K_names].
Qed.

(** Another content or mode for the file. *)
Lemma writing_again d d' m f : writing d f → writing d' (<[tmp :: K_names := File d' m]> f).
Proof.
  intros [Hs [m' Hm]]. split; [|exists m; by rewrite lookup_insert_eq].
  assert (Hpar : f !! (tmp :: removelast K_names) = Some Dir).
  { destruct Hs as (Hc & _). pose proof (key_names K HK) as Hne.
    apply (closed_prefix f (tmp :: removelast K_names) [List.last K_names EmptyString]); [done| |done].
    simpl. rewrite <- app_removelast_last by done. by exists (File d m'). }
  eapply staged_weaken; [apply (staged_file _ _ _ K_names d' m Hs); [by apply key_names|done|by rewrite Hm]| |done].
  intros p x. simpl. by destruct (decide (p = K_names)).
Qed.

Lemma spec_open_trunc mode um :
  spec (λ f, st f ∧ f !! (tmp :: removelast K_names) = Some Dir) (sys (open_trunc (tmp :: K_names) mode um))
    (λ _, writing EmptyString) st.
Proof.
  assert (Hne := key_names K HK).
  assert (Hopen : ∀ f m, st f → f !! (tmp :: removelast K_names) = Some Dir → f !! (tmp :: K_names) ≠ Some Dir →
    writing EmptyString (<[tmp :: K_names := File EmptyString m]> f)).
  { intros f m Hs Hpar Hn. split; [by apply staged_file|exists m; by rewrite lookup_insert_eq]. }
  apply spec_sys; [exact quiet|by intros f [? _]; split; [apply st_shown|]|..].
  - intros f [] f' [Hs Hpar]. unfold open_trunc. destruct (lookup_path true f (tmp :: K_names)) as [|q] eqn:Hq; [done|].
    apply (staged_lookup _ _ _ _ _ _ Hs) in Hq as ->; [|right; by exists K_names].
    destruct (f !! (tmp :: K_names)) as [[|d m|t]|] eqn:Hf; [done| |done|]; intros [= <-];
      (assert (Hw : ∀ m, writing EmptyString (<[tmp :: K_names := File EmptyString m]> f))
         by (intros m'; apply Hopen; [done|done|by rewrite Hf]));
      (split; [by eapply writing_shown|done]).
  - intros f e [Hs Hpar] Hop Hg. unfold open_trunc in Hop.
    rewrite (app_removelast_last EmptyString Hne) in Hop at 1.
    pose proof Hs as (Hc & Hout & Ht & Hl & HF & HD).
    rewrite (lookup_inside_reaches true f tmp (removelast K_names) _ Hc Hl Hpar) in Hop.
    rewrite <- (app_removelast_last EmptyString Hne) in Hop.
    destruct (f !! (tmp :: K_names)) as [[|d m|t]|] eqn:Hf; [|done|by destruct (Hl K_names t)|done].
    apply HD in Hf as (k & r & Hk & Hc' & Hr); [|done]. apply elem_of_app in Hk as [Hk|Hk%list_elem_of_singleton].
    + by apply Hr, (Hprefix Hg K k); auto.
    + subst k. rewrite <- (app_nil_r K_names) in Hc' at 1. by apply app_inv_head in Hc'; subst r.
Qed.

Lemma spec_write_one : spec (staged (files_of ks) (dirs_of ks)) (write_one clean tmp K)
    (λ _, staged (files_of (ks ++ [K])) (dirs_of (ks ++ [K]))) before.
Proof.
  assert (Hne := key_names K HK).
  assert (Hway : on_way K (reverse (reverse (removelast (tmp :: K_names))))).
  { rewrite reverse_involutive. right. exists (removelast K_names), [List.last K_names EmptyString].
    split; [by destruct K_names|]. by rewrite <- app_removelast_last. }
  assert (Hbase : removelast (tmp :: K_names) = tmp :: removelast K_names) by by destruct K_names.
  unfold write_one. apply (spec_bind _ _ _ _ (λ _ f, st f ∧ f !! (tmp :: removelast K_names) = Some Dir)).
  { eapply spec_conseq; [by apply spec_MkdirAll|..].
    - intros f Hs. eapply staged_weaken; [exact Hs|done|]. intros p (k & r & Hk & ?). exists k, r. set_solver.
    - intros []. by rewrite reverse_involutive, Hbase.
    - intros f Hs. by apply (staged_shown _ _ _ Hnt Hs). }
  intros []. apply (spec_bind _ _ _ _ (λ _, writing (Data (projection clean K)))).
  { unfold WriteFile. apply (spec_bind _ _ _ _ (λ _, writing EmptyString)).
    - eapply spec_conseq; [apply spec_open_trunc|done|done|]. intros f Hs. by apply (staged_shown _ _ _ Hnt Hs).
    - intros []. apply spec_sys; [exact quiet|..].
      + intros f Hw. split; [by eapply writing_shown|]. destruct Hw as [Hs _]. by apply (staged_shown _ _ _ Hnt Hs).
      + intros f [] f' Hw. unfold write_data. rewrite (writing_node _ _ true Hw). pose proof Hw as [Hs [m Hm]].
        rewrite Hm. intros [= <-]. assert (Hw' := writing_again _ (Data (projection clean K)) m f Hw).
        split; [by eapply writing_shown|done].
      + intros f e Hw. unfold write_data. rewrite (writing_node _ _ true Hw). destruct Hw as [Hs [m Hm]]. by rewrite Hm. }
  intros []. apply (spec_bind _ _ _ _ (λ _, writing (Data (projection clean K)))).
  { eapply spec_conseq; [apply (spec_attempt_sys _ _ (writing (Data (projection clean K)))
      (chmod (tmp :: K_names) (Mode (projection clean K))) (λ _, writing (Data (projection clean K))) before);
      [exact quiet|apply writing_shown|]|done| |done].
    - intros f [] f' Hw. unfold chmod. rewrite (writing_node _ _ true Hw). pose proof Hw as [Hs [m Hm]].
      rewrite Hm. intros [= <-]. assert (Hw' := writing_again _ (Data (projection clean K)) (Z.land (Mode (projection clean K)) 511) f Hw).
      split; [by eapply writing_shown|done].
    - intros [e|[]] f Hr; [|done]. by destruct Hr. }
  intros _. apply spec_ret. intros f [Hs _]. eapply staged_weaken; [exact Hs| |done].
  intros p d. simpl. unfold files_of. setoid_rewrite elem_of_app. setoid_rewrite list_elem_of_singleton.
  destruct (decide (p = K_names)) as [->|Hp].
  - split; [intros ->; exists K; auto|]. intros (k & [Hk| ->] & Hc & Hd); [|done].
    by apply payload_key_inj in Hc as ->; auto.
  - split; [intros (k & ? & ?); exists k; auto|]. intros (k & [Hk| ->] & Hc & Hd); [by exists k|congruence].
Qed.
End one_file.

Abbreviation keys := (range_keys clean).

Lemma key_in k : k ∈ keys ↔ is_Some (clean !! k).
Proof. apply elem_of_range_keys. Qed.

Lemma files_of_keys p d : files_of keys p d ↔ W1 p d.
Proof.
  unfold files_of, wants. split.
  - intros (k & [fp Hk]%key_in & Hp & Hd). exists k, fp. unfold projection in Hd. rewrite Hk in Hd. done.
  - intros (k & fp & Hk & Hp & Hd). exists k. rewrite key_in. unfold projection. rewrite Hk. split; [by exists fp|done].
Qed.

Lemma spec_writePayloadToDir : not_tmp →
  spec (staged (λ _ _, False) (λ _, False)) (writePayloadToDir clean tmp) (λ _, staged W1 (dirs_of keys)) before.
Proof.
  intros Hnt. eapply spec_conseq.
  - apply (spec_each _ _ (λ ks, staged (files_of ks) (dirs_of ks)) (write_one clean tmp) keys before).
    intros ks K after Hk. pose proof (NoDup_range_keys clean) as Hnd. rewrite Hk in Hnd. apply NoDup_app in Hnd as (_ & Hdis & _).
    apply spec_write_one; [| |by intros ?%Hdis; set_solver|done].
    + intros k Hin. apply key_in. rewrite Hk. set_solver.
    + apply key_in. rewrite Hk. set_solver.
  - intros f Hs. eapply staged_weaken; [exact Hs| |by intros p []]. intros p d. split; [done|]. by intros (k & ?%elem_of_nil & _).
  - intros [] f Hs. eapply staged_weaken; [exact Hs|apply files_of_keys|done].
  - done.
Qed.

(** ** Step 7 *)

(** The entries directly in [tmp] are names of the payload. *)
Definition tops (f : tree) : Prop :=
  ∀ c, is_Some (f !! [tmp; c]) → ∃ k rest, k ∈ keys ∧ comps k = c :: rest.
Definition kept (f : tree) : Prop := ∀ c, hidden c = false → is_Some (f0 !! [c]) → f !! [c] = f0 !! [c].
Definition linked (f : tree) (k : string) : Prop :=
  ∀ c rest, comps k = c :: rest → f !! [c] = Some (Link [dataDirName; c]).
Definition linking (ks : list string) (f : tree) : Prop :=
  before f ∧ holds f tmp W1 ∧ tops f ∧ kept f ∧
  (good → f !! [newDataDirName] = None ∧ ∀ k, k ∈ ks → linked f k).

Lemma visible_top k c rest : k ∈ keys → comps k = c :: rest → hidden c = false.
Proof. intros Hk%key_in Hc. destruct (Hvis k Hk) as (c' & rest' & Hc' & Hh). congruence. Qed.

Lemma staged_tops f : staged W1 (dirs_of keys) f → tops f.
Proof.
  intros (Hc & _ & _ & Hl & HF & HD) c [[|d m|t] Hn].
  - apply HD in Hn as (k & r & Hk & Hp & _); [|done]. by exists k, r.
  - destruct (proj1 (HF [c] d)) as (k & fp & Hk & Hp & _); [by exists m|]. exists k, []. by rewrite key_in, Hk.
  - by destruct (Hl [c] t).
Qed.

Lemma staged_linking f : not_tmp → staged W1 (dirs_of keys) f → linking [] f.
Proof.
  intros Hnt Hs. pose proof (staged_tops f Hs) as Htops. split; [by apply (staged_shown _ _ _ Hnt Hs)|].
  destruct Hs as (Hc & Hout & Ht & Hl & HF & HD). split; [|split; [done|split]].
  - split; [done|]. split; [done|]. split; [done|]. split.
    + intros c (k & rest & Hk & Hp)%Htops. by apply (visible_top k c rest).
    + intros p Hp (k & r & Hk & Hpr & _)%HD; [|done]. exists r, (Data (projection clean k)). apply files_of_keys. by exists k.
  - intros c Hh _. apply Hout. intros [= ->]. congruence.
  - intros Hg. rewrite Hout by (intros [= Heq]; by destruct Htmp_new). split; [by apply Hfree|by intros k ?%elem_of_nil].
Qed.

Lemma holds_change f f' W : (∀ p, f' !! (tmp :: p) = f !! (tmp :: p)) → holds f tmp W → holds f' tmp W.
Proof.
  intros He (Hl & Ht & HW & Hh & Hlead). split; [intros p t; simpl; rewrite He; apply Hl|]. split; [by rewrite He|].
  split; [intros p d; rewrite He; apply HW|]. split; [intros c; rewrite He; apply Hh|intros p; rewrite He; apply Hlead].
Qed.

(** A new visible link. *)
Lemma linking_symlink ks f c : hidden c = false → f !! [c] = None → linking ks f →
  linking ks (<[ [c] := Link [dataDirName; c] ]> f).
Proof.
  intros Hh Hn ((Hp & Hcomp') & Hho & Htops & Hk & Hg). set (f' := <[ _ := _ ]> f).
  assert (Hhid : ∀ d p, hidden d = true → f' !! (d :: p) = f !! (d :: p)).
  { intros d p Hd. unfold f'. rewrite lookup_insert_ne; [done|]. intros [= -> _]. congruence. }
  assert (Hts : ∀ ts p, ots = Some ts → f' !! (ts :: p) = f !! (ts :: p)).
  { intros ts p Ho. apply Hhid. destruct Hp as (_ & Hv & Hx). rewrite Ho in Hx. destruct Hx as (_ & _ & Ht & _).
    destruct (hidden ts) eqn:He; [done|]. destruct (Hv ts He); congruence. }
  assert (Hvl : visible_links f').
  { intros d Hd. unfold f'. destruct (decide (d = c)) as [->|Hne]; [right; by rewrite lookup_insert_eq|].
    rewrite lookup_insert_ne by congruence. destruct Hp as (_ & Hv & _). by apply Hv. }
  split; [split|split; [|split; [|split]]].
  - apply (published_change f); [done| |done|by apply Hhid|done].
    apply (closed_insert f []); [apply Hp|apply Hp|right; simpl; by rewrite Hn].
  - apply (complete_change f f' ots W0); [done..|]. intros d Hd [n Hs]. unfold f'. rewrite lookup_insert_ne; [done|].
    intros [= ->]. congruence.
  - apply (holds_change f); [|done]. intros p. by apply Hhid.
  - intros d. rewrite Hhid by done. apply Htops.
  - intros d Hd Hs. unfold f'. rewrite <- Hk by done. rewrite lookup_insert_ne; [done|]. intros [= ->].
    rewrite <- Hk, Hn in Hs by done. by destruct Hs.
  - intros Hgood. destruct (Hg Hgood) as [Hnew Hl]. split; [by rewrite Hhid|].
    intros k Hin d rest Hd. unfold f'. destruct (decide (d = c)) as [->|Hne]; [by rewrite lookup_insert_eq|].
    rewrite lookup_insert_ne by congruence. by apply (Hl k Hin d rest).
Qed.

Lemma linking_shown ks f : linking ks f → shown f.
Proof. by intros [Hb _]; left. Qed.

Lemma linking_more ks k f : linking ks f → (good → linked f k) → linking (ks ++ [k]) f.
Proof.
  intros (Hb & Hho & Ht & Hk & Hg) Hl. do 4 (split; [done|]). intros Hgood. destruct (Hg Hgood) as [Hn Hall].
  split; [done|]. intros j [Hj|Hj%list_elem_of_singleton]%elem_of_app; [by apply Hall|]. subst j. by apply Hl.
Qed.

Lemma readlink_top f c : closed f → visible_links f → hidden c = false →
  readlink [c] f = match f !! [c] with None => inl ENOENT | Some _ => inr ([dataDirName; c], f) end.
Proof.
  intros Hc Hv Hh. unfold readlink, node_at. rewrite (lookup_top _ _ Hc). by destruct (Hv c Hh) as [-> | ->].
Qed.

Lemma spec_link_one ks k : k ∈ keys → spec (linking ks) (link_one k) (λ _, linking (ks ++ [k])) before.
Proof.
  intros Hk. apply key_in in Hk as Hs. destruct (Hvis k Hs) as (c & rest & Hc & Hh). unfold link_one. rewrite Hc.
  change (take 1 (c :: rest)) with [c].
  assert (Hone : ∀ f, f !! [c] = Some (Link [dataDirName; c]) → linked f k) by (intros f Hf d r Hd; congruence).
  apply (spec_bind _ _ _ _ (λ r f, linking ks f ∧ match r with inr _ => linked f k
      | inl e => good → e = Errno ENOENT ∧ f !! [c] = None end)).
  { eapply spec_conseq; [apply (spec_attempt_sys _ _ (linking ks) (readlink [c]) (λ _ f, linking ks f ∧ linked f k) before);
      [exact quiet|apply linking_shown|]|done| |done].
    - intros f t f' Hlk. pose proof Hlk as (((Hcl & Hv & _) & _) & _). rewrite readlink_top by done.
      destruct (f !! [c]) eqn:Hf; [|done]. intros [= <- <-]. split; [by eapply linking_shown|]. split; [done|].
      apply Hone. destruct (Hv c Hh); congruence.
    - intros [e|t] f Hr; [|done]. destruct Hr as [Hlk He]. split; [done|]. intros (e0 & -> & Hr)%He.
      destruct Hlk as (((Hcl & Hv & _) & _) & _). rewrite readlink_top in Hr by done. destruct (f !! [c]) eqn:Hf; [done|]. by simplify_eq. }
  assert (Hskip : ∀ e, e ≠ Errno ENOENT → spec (λ f, linking ks f ∧ (good → e = Errno ENOENT ∧ f !! [c] = None)) (mret ()) (λ _, linking (ks ++ [k])) before).
  { intros e He. apply spec_ret. intros f [Hlk Hg]. apply linking_more; [done|]. by intros [? _]%Hg. }
  intros [[[]|msg]|t]; try (by apply Hskip).
  - apply spec_sys; [exact quiet|..].
    + intros f [Hlk _]. split; [by eapply linking_shown|]. apply Hlk.
    + intros f [] f' [Hlk _]. pose proof Hlk as (((Hcl & _) & _) & _). unfold symlink, make. rewrite (lookup_top _ _ Hcl).
      destruct (f !! [c]) eqn:Hf; [done|]. intros [= <-].
      assert (Hl' := linking_symlink ks f c Hh Hf Hlk). split; [by eapply linking_shown|].
      apply linking_more; [done|]. intros _. apply Hone. by rewrite lookup_insert_eq.
    + intros f e [(((Hcl & _) & _) & _) Hn] Hop Hg. unfold symlink, make in Hop. rewrite (lookup_top _ _ Hcl) in Hop.
      by rewrite (proj2 (Hn Hg)) in Hop.
  - apply spec_ret. intros f [Hlk Hl]. by apply linking_more.
Qed.

Lemma spec_createUserVisibleFiles : spec (linking []) (createUserVisibleFiles clean) (λ _, linking keys) before.
Proof.
  apply (spec_each _ _ linking link_one keys before). intros ks k after Hk. apply spec_link_one. rewrite Hk. set_solver.
Qed.


(** ** Steps 8 and 9 *)

Definition all_linked (f : tree) : Prop := good → ∀ k, k ∈ keys → linked f k.

(** The temporary link is there. *)
Definition swapping (f : tree) : Prop :=
  before f ∧ holds f tmp W1 ∧ tops f ∧ kept f ∧ all_linked f ∧ f !! [newDataDirName] = Some (Link [tmp]).

(** The new files are published. *)
Definition after (f : tree) : Prop :=
  published f (Some tmp) W1 ∧ (good → complete f (Some tmp)) ∧ kept f ∧ tops f ∧ f !! [newDataDirName] = None.

Lemma after_shown f : after f → shown f.
Proof. intros (Hp & Hc & _). by right. Qed.

Lemma ts_hidden ts f : published f (Some ts) W0 → hidden ts = true ∧ ts ≠ dataDirName.
Proof.
  intros (_ & Hv & Hd & _ & Ht & _). split; [|intros ->; congruence].
  destruct (hidden ts) eqn:He; [done|]. destruct (Hv ts He); congruence.
Qed.

(** The old files survive a removal elsewhere. *)
Lemma before_delete f q :
  before f → q ≠ [] → has_children f q = false → (∀ ts, ots = Some ts → take 1 q ≠ [ts]) →
  (∀ c, q = [c] → hidden c = true ∧ c ≠ dataDirName) → before (delete q f).
Proof.
  intros [Hp Hcm] Hq Hch Hts Hhid.
  assert (Htop : ∀ c, hidden c = false ∨ c = dataDirName → delete q f !! [c] = f !! [c]).
  { intros c Hc. rewrite lookup_delete_ne; [done|]. intros ->. destruct (Hhid c eq_refl). destruct Hc; congruence. }
  assert (Hin : ∀ ts p, ots = Some ts → delete q f !! (ts :: p) = f !! (ts :: p)).
  { intros ts p Ho. rewrite lookup_delete_ne; [done|]. intros ->. by apply (Hts ts Ho). }
  split.
  - apply (published_change f); [done|by apply closed_delete; [apply Hp|..]| |apply Htop; by right|done].
    intros c Hc. rewrite Htop by by left. destruct Hp as (_ & Hv & _). by apply Hv.
  - apply (complete_change f _ ots W0); [done..|]. intros c Hc _. apply Htop. by left.
Qed.

Lemma link_no_children f q t : closed f → f !! q = Some (Link t) → has_children f q = false.
Proof.
  intros Hc Hq. destruct (has_children f q) eqn:Hch; [|done]. apply has_children_true in Hch as (c & Hs).
  apply Hc in Hs. congruence.
Qed.

Lemma after_swap f : swapping f → after (<[ [dataDirName] := Link [tmp] ]> (delete [newDataDirName] f)).
Proof.
  intros (([Hcl Hpv] & Hcm) & Hho & Ht & Hk & Hall & Hn). set (f' := <[ _ := _ ]> _).
  assert (Hsame : ∀ c p, c ≠ dataDirName → c ≠ newDataDirName → f' !! (c :: p) = f !! (c :: p)).
  { intros c p Hd Hd'. unfold f'. rewrite lookup_insert_ne by (intros [= <- _]; by destruct Hd).
    rewrite lookup_delete_ne; [done|]. intros [= <- _]. by destruct Hd'. }
  assert (Htop : ∀ c p, hidden c = false → f' !! (c :: p) = f !! (c :: p)).
  { intros c p Hc. apply Hsame; intros ->; done. }
  assert (Htm : ∀ p, f' !! (tmp :: p) = f !! (tmp :: p)) by by intros p; apply Hsame.
  assert (Hd : f !! [dataDirName] ≠ Some Dir).
  { destruct ots; destruct Hpv as [_ [Hd _]]; congruence. }
  split; [|split; [|split; [|split]]].
  - split.
    { apply (closed_insert _ [] dataDirName).
      - apply closed_delete; [done|done|]. by apply (link_no_children f _ [tmp]).
      - rewrite lookup_delete_ne by done. apply Hcl.
      - right. simpl. by rewrite lookup_delete_ne. }
    split; [intros c Hc; rewrite Htop by done; destruct Hpv as [Hv _]; by apply Hv|].
    split; [by unfold f'; rewrite lookup_insert_eq|]. by apply (holds_change f).
  - intros Hg c Hs. rewrite Htm in Hs. apply Ht in Hs as (k & rest & Hin & Hc).
    rewrite Htop by by apply (visible_top k c rest). by apply (Hall Hg k Hin c rest).
  - intros c Hc Hs. rewrite Htop by done. by apply Hk.
  - intros c. rewrite Htm. apply Ht.
  - unfold f'. by rewrite lookup_insert_ne, lookup_delete_eq.
Qed.

Lemma spec_discard (Hnt : not_tmp) :
  spec (λ f, before f ∧ ¬ good) (RemoveAll [tmp]) (λ _ f, before f ∧ ¬ good) (λ f, before f ∧ ¬ good).
Proof.
  eapply spec_conseq; [apply (spec_RemoveAll shown good (λ f, before f ∧ ¬ good) [tmp] [tmp])|..].
  - exact quiet.
  - intros f [Hb Hg]. split; [by apply before_shown|]. destruct Hb as [[Hc _] _]. split; [done|by apply lookup_top].
  - intros f q Hq [Hb Hg] Hch. split; [|done]. apply before_delete; [done|by intros ->|done|..].
    + intros ts Ho. simpl in Hq. intros Heq. rewrite Heq in Hq. injection Hq as ->. by apply Hnt.
    + intros c ->. simpl in Hq. by injection Hq as ->.
  - done.
  - by intros [] f [? _].
  - done.
Qed.

Lemma spec_give_up (Hnt : not_tmp) {A : Type} (Q : A → tree → Prop) e :
  spec (λ f, before f ∧ ¬ good) (attempt (RemoveAll [tmp]) ;; throw e) Q before.
Proof.
  apply (spec_bind _ _ _ _ (λ _ f, before f ∧ ¬ good)).
  - eapply spec_conseq; [by apply spec_attempt, spec_discard|done| |intros f Hf; exact Hf].
    intros [e'|[]] f Hr; [|done]. by destruct Hr.
  - intros r. by apply spec_throw.
Qed.

Lemma swapping_symlink f : linking keys f → f !! [newDataDirName] = None →
  swapping (<[ [newDataDirName] := Link [tmp] ]> f).
Proof.
  intros ([Hp Hcm] & Hho & Ht & Hk & Hg) Hn. set (f' := <[ _ := _ ]> f). pose proof Hp as [Hcl Hpv].
  assert (Hsame : ∀ c p, c ≠ newDataDirName → f' !! (c :: p) = f !! (c :: p)).
  { intros c p Hc. unfold f'. rewrite lookup_insert_ne; [done|]. intros [= <- _]. by destruct Hc. }
  assert (Htop : ∀ c p, hidden c = false → f' !! (c :: p) = f !! (c :: p)) by (intros c p Hc; apply Hsame; by intros ->).
  assert (Hts : ∀ ts p, ots = Some ts → f' !! (ts :: p) = f !! (ts :: p)).
  { intros ts p Ho. apply Hsame. intros ->. rewrite Ho in Hpv. destruct Hpv as (_ & _ & _ & Hd & _). congruence. }
  split; [split|split; [|split; [|split; [|split]]]].
  - apply (published_change f); [done| | |by apply Hsame|done].
    + apply (closed_insert f [] newDataDirName); [done|apply Hcl|right; simpl; by rewrite Hn].
    + intros c Hc. rewrite Htop by done. destruct Hpv as [Hv _]. by apply Hv.
  - apply (complete_change f f' ots W0); [done..|]. intros c Hc _. by apply Htop.
  - apply (holds_change f); [|done]. intros p. by apply Hsame.
  - intros c. rewrite Hsame by done. apply Ht.
  - intros c Hc Hs. rewrite Htop by done. by apply Hk.
  - intros Hgood k Hin c rest Hc. rewrite Htop by by apply (visible_top k c rest). by apply (proj2 (Hg Hgood) k Hin c rest).
  - unfold f'. by rewrite lookup_insert_eq.
Qed.

Lemma spec_swap (Hnt : not_tmp) : spec (linking keys) (swap tmp) (λ _, after) before.
Proof.
  unfold swap.
  apply (spec_bind _ _ _ _ (λ r f, match r with inr _ => swapping f | inl _ => before f ∧ ¬ good end)).
  { eapply spec_conseq; [apply (spec_attempt_sys _ _ (linking keys) (symlink [tmp] [newDataDirName]) (λ _, swapping) before);
      [exact quiet|apply linking_shown|]|done| |done].
    - intros f [] f' Hlk. pose proof Hlk as ([[Hcl _] _] & _).
      unfold symlink, make. rewrite (lookup_top _ _ Hcl). destruct (f !! [newDataDirName]) eqn:Hn; [done|]. intros [= <-].
      pose proof (swapping_symlink f Hlk Hn) as Hs. split; [left; apply Hs|done].
    - intros [e|[]] f Hr; [|done]. destruct Hr as [(Hb & _ & _ & _ & Hg) He]. split; [done|]. intros Hgood.
      destruct (He Hgood) as (e0 & _ & Hs). destruct Hb as [[Hcl _] _].
      unfold symlink, make in Hs. rewrite (lookup_top _ _ Hcl) in Hs. by rewrite (proj1 (Hg Hgood)) in Hs. }
  intros [e|[]]; [by apply spec_give_up|].
  apply (spec_bind _ _ _ _ (λ r f, match r with inr _ => after f | inl _ => swapping f ∧ ¬ good end)).
  { eapply spec_conseq; [apply (spec_attempt_sys _ _ swapping (rename [newDataDirName] [dataDirName]) (λ _, after) before);
      [exact quiet|by intros f [? _]; left|]|done| |done].
    - intros f [] f' Hs. pose proof Hs as ([[Hcl _] _] & _ & _ & _ & _ & Hn). unfold rename.
      rewrite !(lookup_top _ _ Hcl), Hn. destruct (f !! [dataDirName]) as [[]|] eqn:Hd; [done|..]; intros [= <-];
        (pose proof (after_swap f Hs); split; [by apply after_shown|done]).
    - intros [e|[]] f Hr; [|done]. destruct Hr as [Hs He]. split; [done|]. intros Hgood.
      destruct (He Hgood) as (e0 & _ & Hr). destruct Hs as ([[Hcl [_ Hpv]] _] & _ & _ & _ & _ & Hn). unfold rename in Hr.
      rewrite !(lookup_top _ _ Hcl), Hn in Hr. destruct ots; destruct Hpv as [Hd _]; by rewrite Hd in Hr. }
  intros [e|[]]; [|by apply spec_ret].
  apply (spec_bind _ _ _ _ (λ _ f, before f ∧ ¬ good)); [|intros r; by apply spec_give_up].
  eapply spec_conseq; [apply (spec_attempt_sys _ _ (λ f, swapping f ∧ ¬ good) (unlink [newDataDirName])
    (λ _ f, before f ∧ ¬ good) before); [exact quiet|by intros f [[? _] _]; left|]|done| |done].
  - intros f [] f' [Hs Hg]. pose proof Hs as (Hb & _ & _ & _ & _ & Hn). pose proof Hb as [[Hcl Hpv] _].
    unfold unlink. rewrite (lookup_top _ _ Hcl). unfold unlink_entry. rewrite Hn.
    assert (Hch := link_no_children _ _ _ Hcl Hn). rewrite Hch. intros [= <-].
    assert (before (delete [newDataDirName] f)); [|split; [by left|done]]. apply before_delete; [done..| |by intros c [= <-]].
    intros ts Ho [= <-]. rewrite Ho in Hpv. destruct Hpv as (_ & _ & _ & Ht & _). congruence.
  - intros [e'|[]] f Hr; [|done]. by destruct Hr as [[[? _] ?] _].
Qed.

(** ** Steps 10 and 11 *)

(** The new files stay published when what is removed is neither theirs nor
    their links. *)
Lemma new_delete f q :
  published f (Some tmp) W1 → (good → complete f (Some tmp)) → q ≠ [] → has_children f q = false →
  take 1 q ≠ [tmp] → q ≠ [dataDirName] → (∀ c, q = [c] → is_Some (f !! [tmp; c]) → False) →
  published (delete q f) (Some tmp) W1 ∧ (good → complete (delete q f) (Some tmp)).
Proof.
  intros Hp Hcm Hq Hch Htq Hdq Hlink.
  assert (Hin : ∀ ts p, Some tmp = Some ts → delete q f !! (ts :: p) = f !! (ts :: p)).
  { intros ts p [= <-]. rewrite lookup_delete_ne; [done|]. intros ->. by apply Htq. }
  assert (Hp' : published (delete q f) (Some tmp) W1).
  { apply (published_change f); [done|by apply closed_delete; [apply Hp|..]| |by rewrite lookup_delete_ne|done].
    intros c Hc. destruct (decide (q = [c])) as [->|Hne]; [left; by rewrite lookup_delete_eq|].
    rewrite lookup_delete_ne by done. destruct Hp as (_ & Hv & _). by apply Hv. }
  split; [done|]. intros Hg c Hs. rewrite Hin in Hs by done. rewrite lookup_delete_ne; [by apply Hcm|].
  intros ->. by apply (Hlink c).
Qed.

Definition gone_well (cs : list string) : Prop :=
  NoDup cs ∧ ∀ c, c ∈ cs → hidden c = false ∧ ∀ k rest, k ∈ keys → comps k ≠ c :: rest.
(** The state while the names [cs] are to be removed. *)
Definition removing (cs : list string) (f : tree) : Prop :=
  published f (Some tmp) W1 ∧ (good → complete f (Some tmp)) ∧ f !! [newDataDirName] = None ∧
  (good → ∀ c, c ∈ cs → is_Some (f !! [c])).

Lemma removing_unlink c cs f f' :
  gone_well (c :: cs) → tops f → removing (c :: cs) f → unlink [c] f = inr (tt, f') → removing cs f' ∧ tops f'.
Proof.
  intros [Hnd Hgw] Ht (Hp & Hcm & Hnew & Hs). destruct (Hgw c) as [Hh Hk]; [by left|].
  unfold unlink. rewrite (lookup_top f c) by apply Hp. unfold unlink_entry.
  destruct (f !! [c]) eqn:Hf; [|done]. destruct (has_children f [c]) eqn:Hch; [done|]. intros [= <-].
  destruct (new_delete f [c] Hp Hcm) as [Hp' Hcm']; [done|done|intros [= ->]; congruence|intros [= ->]; done| |].
  { intros d [= <-] (k & rest & Hin & Hc)%Ht. by apply (Hk k rest). }
  split; [|intros d; rewrite lookup_delete_ne by done; apply Ht].
  split; [done|]. split; [done|]. split; [by rewrite lookup_delete_ne; [|intros [= ->]]|].
  intros Hg d Hd. rewrite lookup_delete_ne; [apply Hs; [done|by right]|].
  intros [= ->]. by apply NoDup_cons_1_1 in Hnd.
Qed.

Lemma removing_shown cs f : removing cs f → shown f.
Proof. intros (Hp & Hc & _). by right. Qed.

Lemma spec_remove_loop cs lasterr : gone_well cs →
  spec (λ f, removing cs f ∧ tops f ∧ (good → lasterr = None)) (remove_loop cs lasterr)
    (λ _ f, removing [] f ∧ tops f) (removing []).
Proof.
  revert lasterr. induction cs as [|c cs IH]; intros lasterr Hgw; simpl.
  - destruct lasterr as [e|]; [apply spec_throw|apply spec_ret]; intros f (Hr & Ht & Hl); [|done].
    split; [done|]. by intros ?%Hl.
  - eapply spec_bind.
    + apply (spec_attempt_sys _ _ (λ f, removing (c :: cs) f ∧ tops f ∧ (good → lasterr = None)) (unlink [c])
        (λ _ f, removing cs f ∧ tops f ∧ (good → lasterr = None)) (removing [])); [exact quiet|by intros f [? _]; eapply removing_shown|].
      intros f [] f' (Hr & Ht & Hl) Hu. destruct (removing_unlink c cs f f' Hgw Ht Hr Hu). split; [by eapply removing_shown|done].
    + intros r. eapply spec_conseq; [apply IH|..].
      * destruct Hgw as [?%NoDup_cons_1_2 Hgw]. split; [done|]. intros d Hd. apply Hgw. by right.
      * intros f Hr. destruct r as [e|[]]; [|done]. destruct Hr as [[(Hp & Hcm & Hnew & Hs) [Ht Hl]] He].
        assert (Hng : ¬ good).
        { intros Hg. destruct (He Hg) as (e0 & _ & Hu). destruct (Hs Hg c) as [n Hn]; [by left|].
          unfold unlink in Hu. rewrite (lookup_top f c) in Hu by apply Hp. unfold unlink_entry in Hu. rewrite Hn in Hu.
          destruct Hp as (Hcl & Hv & _). destruct Hgw as [_ Hgw]. destruct (Hgw c) as [Hh _]; [by left|].
          rewrite (link_no_children f [c] [dataDirName; c]) in Hu; [done|done|]. destruct (Hv c Hh); congruence. }
        split; [|split; [done|by intros ?%Hng]]. do 3 (split; [done|]). by intros ?%Hng.
      * done.
      * done.
Qed.

(** The new files are all there is. *)
Definition finished (oldTs : option path) (f : tree) : Prop :=
  published f (Some tmp) W1 ∧ (good → complete f (Some tmp)) ∧ f !! [newDataDirName] = None ∧
  (good → ∀ ts p, oldTs = Some [ts] → f !! (ts :: p) = None).

Lemma finished_shown oldTs f : finished oldTs f → shown f.
Proof. intros (Hp & Hc & _). by right. Qed.

Lemma spec_remove_old (Hnt : not_tmp) ts : ots = Some ts →
  spec (removing []) (RemoveAll [ts]) (λ _, finished (Some [ts])) shown.
Proof.
  intros Ho. assert (Hts : hidden ts = true ∧ ts ≠ dataDirName).
  { rewrite Ho in Hpub. by apply (ts_hidden ts f0). }
  eapply spec_conseq; [apply (spec_RemoveAll shown good (removing []) [ts] [ts])| | |].
  - exact quiet.
  - intros f Hr. split; [by eapply removing_shown|]. destruct Hr as [[Hc _] _]. split; [done|by apply lookup_top].
  - intros f q Hq (Hp & Hcm & Hnew & _) Hch. simpl in Hq.
    destruct (new_delete f q Hp Hcm) as [Hp' Hcm']; [by intros ->|done| | | |].
    + rewrite Hq. intros [= ->]. by apply Hnt.
    + intros ->. simpl in Hq. injection Hq as <-. by destruct Hts.
    + intros c ->. simpl in Hq. injection Hq as ->. destruct Hp as (_ & _ & _ & _ & _ & _ & Hh & _). intros ?%Hh.
      destruct Hts; congruence.
    + split; [done|]. split; [done|]. split; [|by intros _ c ?%elem_of_nil].
      destruct (decide (q = [newDataDirName])) as [->|]; [by rewrite lookup_delete_eq|by rewrite lookup_delete_ne].
  - done.
  - intros [] f [(Hp & Hcm & Hnew & _) Hgone]. split; [done|]. split; [done|]. split; [done|].
    intros Hg ts' p [= <-]. by apply Hgone.
  - apply removing_shown.
Qed.

Definition to_remove (toRemove : gset path) : list string := range_set (list_to_set (omap single (elements toRemove))).

Lemma elem_of_to_remove toRemove c : c ∈ to_remove toRemove ↔ [c] ∈ toRemove.
Proof.
  unfold to_remove. rewrite elem_of_range_set, elem_of_list_to_set, list_elem_of_omap. setoid_rewrite elem_of_elements.
  split; [|intros Hc; by exists [c]]. intros (p & Hp & Hs). destruct p as [|d [|]]; by simplify_eq/=.
Qed.

(** What the walk of the old directory may say. *)
Definition removable (toRemove : gset path) : Prop :=
  ∀ c, [c] ∈ toRemove → hidden c = false ∧ (∀ k rest, k ∈ keys → comps k ≠ c :: rest) ∧ (good → is_Some (f0 !! [c])).

Lemma spec_publish oldTs toRemove :
  removable toRemove → (∀ p, oldTs = Some p → ∃ ts, p = [ts] ∧ ots = Some ts) →
  spec (λ f, f = f0) (publish clean tmp oldTs toRemove) (λ _, finished oldTs) shown.
Proof.
  intros Hrm Hold. unfold publish.
  apply (spec_bind _ _ _ _ (λ ts f, ts = tmp ∧ f0 !! [tmp] = None ∧ staged (λ _ _, False) (λ _, False) f)).
  { eapply spec_conseq; [apply spec_newTimestampDir|done|done|apply before_shown]. }
  intros ts. destruct (decide (f0 !! [tmp] = None)) as [Hf|Hf]; [|by intros s (_ & ? & _)]. pose proof (fresh_not_tmp Hf) as Hnt.
  destruct (decide (ts = tmp)) as [->|Hne]; [|by intros s (? & _)].
  apply (spec_bind _ _ _ _ (λ _, staged W1 (dirs_of keys))).
  { eapply spec_conseq; [by apply spec_writePayloadToDir|by intros f (_ & _ & ?)|done|apply before_shown]. }
  intros []. apply (spec_bind _ _ _ _ (λ _, linking keys)).
  { eapply spec_conseq; [apply spec_createUserVisibleFiles|intros f; by apply staged_linking|done|apply before_shown]. }
  intros []. apply (spec_bind _ _ _ _ (λ _, after)).
  { eapply spec_conseq; [by apply spec_swap|done|done|apply before_shown]. }
  intros []. apply (spec_bind _ _ _ _ (λ _, removing [])).
  { eapply spec_conseq; [apply (spec_remove_loop (to_remove toRemove) None)| | |apply removing_shown].
    - split; [apply NoDup_range_set|]. intros c Hc%elem_of_to_remove. by destruct (Hrm c Hc) as (? & ? & _).
    - intros f (Hp & Hcm & Hk & Ht & Hn). split; [|done]. split; [done|]. split; [done|]. split; [done|].
      intros Hg c Hc%elem_of_to_remove. destruct (Hrm c Hc) as (Hh & _ & Hs). rewrite Hk; auto.
    - by intros [] f [? _]. }
  intros []. destruct oldTs as [p|].
  - destruct (Hold p eq_refl) as (ts & -> & Ho). by apply spec_remove_old.
  - apply spec_ret. intros f (Hp & Hcm & Hn & _). split; [done|]. split; [done|]. split; [done|]. by intros Hg ts p.
Qed.

(** ** Is there anything to do? *)

Lemma shown0 : shown f0.
Proof. by left. Qed.

(** Calls that read the directory as it was. *)
Lemma spec_read {A : Type} (op : tree → errno + (A * tree)) (Q : A → Prop) E :
  (∀ a f', op f0 = inr (a, f') → f' = f0 ∧ Q a) →
  spec (λ f, f = f0) (attempt (sys op))
    (λ r f, f = f0 ∧ match r with inr a => Q a | inl e => good → ∃ e0, e = Errno e0 ∧ op f0 = inl e0 end) E.
Proof.
  intros Hop. eapply spec_conseq; [apply (spec_attempt_sys _ _ (λ f, f = f0) op (λ a f, f = f0 ∧ Q a) E)|done| |done].
  - exact quiet.
  - intros f ->. exact shown0.
  - intros f a f' -> Ha. destruct (Hop a f' Ha) as [-> HQ]. split; [exact shown0|done].
  - intros [e|a] f Hr; [|done]. destruct Hr as [-> He]. done.
Qed.

Section old_files.
Context (ts : string) (Ho : ots = Some ts).

Lemma old_holds : holds f0 ts W0.
Proof. rewrite Ho in Hpub. apply Hpub. Qed.

Lemma old_node follow p n : node_at follow f0 (ts :: p) = inr n ↔ f0 !! (ts :: p) = Some n.
Proof. destruct old_holds as (Hl & Ht & _). apply node_at_inside; [apply closed0|done|done]. Qed.

Lemma namei_error n follow f d rest e :
  linkless f d → f !! d = Some Dir → namei n follow f d rest = inl e →
  e = ENOENT ∨ ∃ p r x m, rest = p ++ r ∧ r ≠ [] ∧ f !! (d ++ p) = Some (File x m).
Proof.
  revert d. induction rest as [|c rest IH]; intros d Hl Hd; rewrite namei_eq; [done|]. rewrite Hd.
  destruct (f !! (d ++ [c])) as [[|x m|t]|] eqn:Hc.
  - intros Hn. apply IH in Hn as [?|(p & r & x & m & -> & Hr & Hf)]; [by left| |by apply linkless_child|done].
    right. exists (c :: p), r, x, m. by rewrite <- app_assoc in Hf.
  - destruct rest as [|b rest]; [done|]. intros _. right. by exists [c], (b :: rest), x, m.
  - by destruct (Hl [c] t).
  - destruct rest; [done|]. intros [= <-]. by left.
Qed.

(** The old directory has room for the payload. *)
Lemma old_missing k e : good → k ∈ keys → node_at false f0 (ts :: comps k) = inl e → e = ENOENT.
Proof.
  intros Hg Hk%key_in Hn. destruct old_holds as (Hl & Ht & _). unfold node_at in Hn.
  destruct (lookup_path false f0 (ts :: comps k)) as [e'|q] eqn:Hq; [|by destruct (f0 !! q); simplify_eq].
  destruct (lookup_path_eq false f0 (ts :: comps k)) as [n Hlk]. rewrite Hlk in Hq.
  rewrite namei_dir in Hq by (done || apply closed0). apply namei_error in Hq as [->|(p & r & x & m & Hp & Hr & Hf)]; [|..|done|done].
  - by simplify_eq.
  - destruct (Hcompat Hg ts k p r Ho Hk Hp) as [_ Hno]. by destruct (Hno Hr x m).
Qed.

(** What the comparison of a file tells. *)
Definition differs (k : string) (b : bool) : Prop :=
  (b = false → W0 (comps k) (Data (projection clean k))) ∧
  (b = true → good → ¬ W0 (comps k) (Data (projection clean k))).

Lemma old_functional p d d' : W0 p d → W0 p d' → d = d'.
Proof. destruct old_holds as (_ & _ & HW & _). intros [m Hm]%HW [m' Hm']%HW. congruence. Qed.

Lemma spec_shouldWriteFile k : k ∈ keys →
  spec (λ f, f = f0) (shouldWriteFile ([ts] ++ comps k) (Data (projection clean k)))
    (λ b f, f = f0 ∧ differs k b) shown.
Proof.
  intros Hk. unfold shouldWriteFile. simpl app.
  eapply spec_bind.
  { apply (spec_read (lstat (ts :: comps k)) (λ n, f0 !! (ts :: comps k) = Some n)).
    intros n f'. unfold lstat. destruct (node_at false f0 (ts :: comps k)) eqn:Hn; [done|]. intros [= <- <-].
    split; [done|]. by apply (old_node false). }
  intros r.
  assert (Hread : ((∃ n, r = inr n) ∨ ∃ e, r = inl e ∧ e ≠ Errno ENOENT) →
    spec (λ f, f = f0 ∧ match r with inr n => f0 !! (ts :: comps k) = Some n
            | inl e => good → ∃ e0, e = Errno e0 ∧ lstat (ts :: comps k) f0 = inl e0 end)
      (contentOnFs ← sys (readfile (ts :: comps k)); mret (bool_decide (Data (projection clean k) ≠ contentOnFs)))
      (λ b f, f = f0 ∧ differs k b) shown).
  { intros Hr. apply (spec_bind _ _ _ _ (λ d f, f = f0 ∧ W0 (comps k) d)).
    - apply spec_sys; [exact quiet|intros f [-> _]; split; exact shown0|..].
      + intros f d f' [-> _]. unfold readfile. destruct (node_at true f0 (ts :: comps k)) as [|[|x m|]] eqn:Hn; try done.
        intros [= <- <-]. split; [exact shown0|]. split; [done|]. destruct old_holds as (_ & _ & HW & _).
        apply HW. exists m. by apply (old_node true).
      + intros f e [-> Hst] Hrd Hg. destruct Hr as [[n ->]|(e' & -> & He)].
        * unfold readfile in Hrd. rewrite (proj2 (old_node true (comps k) n) Hst) in Hrd.
          destruct n as [|x m|t]; [|done|by destruct old_holds as [Hl _]; destruct (Hl (comps k) t)].
          destruct (Hcompat Hg ts k (comps k) [] Ho) as [Hno _]; [by apply key_in|by rewrite app_nil_r|]. by apply Hno.
        * destruct (Hst Hg) as (e0 & -> & Hl). unfold lstat in Hl.
          destruct (node_at false f0 (ts :: comps k)) eqn:Hn; [|done]. injection Hl as ->.
          apply old_missing in Hn as ->; [|done|done]. by apply He.
    - intros d. apply spec_ret. intros f [-> HW]. split; [done|]. split.
      + intros Hb%bool_decide_eq_false. apply dec_stable in Hb. by rewrite Hb.
      + intros Hb%bool_decide_eq_true _ HW'. apply Hb. by apply (old_functional (comps k)). }
  destruct r as [[[]|msg]|n]; try (apply Hread; solve [left; by eexists|right; by eexists]).
  apply spec_ret. intros f [-> He]. split; [done|]. split; [done|]. intros _ Hg HW.
  destruct (He Hg) as (e0 & [= <-] & Hl). destruct old_holds as (_ & _ & HWf & _). apply HWf in HW as [m Hm].
  unfold lstat in Hl. by rewrite (proj2 (old_node false (comps k) _) Hm) in Hl.
Qed.

Lemma spec_should_loop ks : (∀ k, k ∈ ks → k ∈ keys) →
  spec (λ f, f = f0) (should_loop clean [ts] ks)
    (λ b f, f = f0 ∧ (b = false → ∀ k, k ∈ ks → W0 (comps k) (Data (projection clean k))) ∧
      (b = true → good → ∃ k, k ∈ ks ∧ ¬ W0 (comps k) (Data (projection clean k)))) shown.
Proof.
  induction ks as [|k ks IH]; intros Hks; simpl.
  { apply spec_ret. intros f ->. split; [done|]. split; [by intros _ k ?%elem_of_nil|done]. }
  eapply spec_bind; [apply spec_shouldWriteFile, Hks; by left|]. intros b. apply spec_pure. intros [Hk Hd].
  destruct b.
  { apply spec_ret. intros f ->. split; [done|]. split; [done|]. intros _ Hg. exists k. split; [by left|auto]. }
  eapply spec_conseq; [apply IH; set_solver|done| |done].
  intros b f (-> & Hb & Hb'). split; [done|]. split; [intros Hf k' [->|Hin]%elem_of_cons; auto|].
  intros Ht Hg. destruct (Hb' Ht Hg) as (k' & Hin & ?). exists k'. split; [by right|done].
Qed.

(** What there is to remove. *)
Definition walked (toRemove : gset path) : Prop :=
  removable toRemove ∧
  (∀ p, p ∈ toRemove → p ≠ [] ∧ is_Some (f0 !! (ts :: p)) ∧ ¬ ∃ k, k ∈ keys ∧ p ∈ subPaths (comps k)) ∧
  (good → ∀ p, p ≠ [] → is_Some (f0 !! (ts :: p)) → p ∈ toRemove ∨ ∃ k, k ∈ keys ∧ p ∈ subPaths (comps k)).

Lemma elem_of_subPaths p q : p ∈ subPaths q ↔ p ≠ [] ∧ ∃ r, q = p ++ r.
Proof.
  unfold subPaths. rewrite list_elem_of_fmap. setoid_rewrite elem_of_seq. split.
  - intros (n & -> & Hn). split; [|exists (drop n q); by rewrite take_drop].
    destruct q; simpl in *; [lia|]. by destruct n; [lia|].
  - intros (Hp & r & ->). exists (length p). rewrite take_app_length, length_app. split; [done|].
    destruct p; [done|]. simpl. lia.
Qed.

Lemma spec_pathsToRemove :
  spec (λ f, f = f0) (pathsToRemove clean [ts]) (λ toRemove f, f = f0 ∧ walked toRemove) shown.
Proof.
  unfold pathsToRemove, Walk.
  apply (spec_bind _ _ _ _ (λ paths f, f = f0 ∧ (∀ p, p ∈ paths → p ≠ [] ∧ is_Some (f0 !! (ts :: p))) ∧
    (good → ∀ p, p ≠ [] → is_Some (f0 !! (ts :: p)) → p ∈ paths))).
  - eapply spec_bind.
    + apply (spec_read (visited [ts]) (λ paths, (∀ p, p ∈ paths → p ≠ [] ∧ is_Some (f0 !! (ts :: p))) ∧
        (good → ∀ p, p ≠ [] → is_Some (f0 !! (ts :: p)) → p ∈ paths))).
      intros paths f'. unfold visited. rewrite (lookup_top f0 ts closed0). intros [= <- <-]. split; [done|].
      assert (Hbelow : ∀ p, p ∈ drop 1 <$> below f0 [ts] ↔ is_Some (f0 !! (ts :: p))).
      { intros p. rewrite list_elem_of_fmap. unfold below. setoid_rewrite list_elem_of_filter.
        setoid_rewrite elem_of_elements. setoid_rewrite elem_of_dom. split.
        - intros (q & -> & Hq & Hs). destruct q as [|c q]; [done|]. simpl in *. by injection Hq as <-.
        - intros Hs. by exists (ts :: p). }
      split.
      * intros p [[Hp _] Hin]%list_elem_of_filter. split; [done|]. by apply Hbelow.
      * intros Hg p Hp Hs. apply list_elem_of_filter. split; [|by apply Hbelow]. split; [done|].
        clear -Hg Hquiet. generalize ([ts] : path). induction p as [|c p IH]; intros q; simpl; [done|].
        rewrite (proj2 (Hquiet Hg)). apply IH.
    + intros [e|paths]; apply spec_ret; [|done]. intros f [-> He]. split; [done|]. split; [by intros p ?%elem_of_nil|].
      intros Hg. destruct (He Hg) as (e0 & _ & Hv). unfold visited in Hv. by rewrite (lookup_top f0 ts closed0) in Hv.
  - intros paths. apply spec_ret. intros f (-> & Hin & Hall). split; [done|].
    assert (Hto : ∀ p, p ∈ list_to_set (C := gset path) paths ∖ list_to_set (keys ≫= λ k, subPaths (comps k)) ↔
      p ∈ paths ∧ ¬ ∃ k, k ∈ keys ∧ p ∈ subPaths (comps k)).
    { intros p. rewrite elem_of_difference, !elem_of_list_to_set, list_elem_of_bind. naive_solver. }
    split; [|split; [intros p [Hp Hno]%Hto; by destruct (Hin _ Hp)|]].
    + intros c [Hc Hno]%Hto. destruct (Hin _ Hc) as [_ Hs]. destruct old_holds as (_ & _ & _ & Hh & _).
      split; [by apply Hh|]. split.
      * intros k rest Hk Hkc. apply Hno. exists k. split; [done|]. apply elem_of_subPaths. split; [done|].
        exists rest. by rewrite Hkc.
      * intros _. rewrite Ho in Hcomp. by rewrite (Hcomp c Hs).
    + intros Hg p Hp Hs. destruct (decide (Exists (λ k, p ∈ subPaths (comps k)) keys)) as [(k & Hk & Hpk)%Exists_exists|Hno].
      * right. by exists k.
      * left. apply Hto. split; [by apply Hall|]. intros (k & Hk & Hpk). apply Hno, Exists_exists. by exists k.
Qed.
End old_files.

(** ** The write *)

(** How a write ends when it reports success: the payload is published, or it
    was there already. *)
Definition written (f : tree) : Prop :=
  (published f (Some tmp) W1 ∧ (good → complete f (Some tmp)) ∧ f !! [newDataDirName] = None ∧
   (good → ∀ ts p, ots = Some ts → f !! (ts :: p) = None) ∧
   (good → ots = None ∨ ¬ ∀ p d, W0 p d ↔ W1 p d)) ∨
  (f = f0 ∧ is_Some ots ∧ (∀ p d, W1 p d → W0 p d) ∧ (good → ∀ p d, W0 p d → W1 p d)).

Lemma up_to_date ts : ots = Some ts → walked ts ∅ →
  (∀ k, k ∈ keys → W0 (comps k) (Data (projection clean k))) → written f0.
Proof.
  intros Ho (_ & _ & Hall) Hk. assert (H10 : ∀ p d, W1 p d → W0 p d).
  { intros p d (k & Hin & <- & <-)%files_of_keys. by apply Hk. }
  right. split; [done|]. split; [by exists ts|]. split; [done|]. intros Hg p d HW.
  destruct (old_holds ts Ho) as (Hl & Ht & Hfile & _). apply Hfile in HW as Hp. destruct Hp as [m Hp].
  assert (Hne : p ≠ []) by (intros ->; congruence).
  destruct (Hall Hg p Hne) as [?|(k & Hin & Hsub)]; [by exists (File d m)|set_solver|].
  apply elem_of_subPaths in Hsub as (_ & r & Hr). specialize (Hk k Hin). rewrite Hr in Hk.
  apply Hfile in Hk as Hk'. destruct Hk' as [m' Hk'].
  destruct (decide (r = [])) as [->|Hr0].
  - rewrite app_nil_r in *. assert (Heq : d = Data (projection clean k)) by congruence.
    apply files_of_keys. by exists k.
  - assert (f0 !! (ts :: p) = Some Dir); [|congruence].
    apply (closed_prefix f0 (ts :: p) r); [apply closed0|by exists (File (Data (projection clean k)) m')|done].
Qed.

(** An update means that something differs. *)
Lemma something_differs ts toRemove (should : bool) : ots = Some ts → walked ts toRemove → good →
  (should = true → good → ∃ k, k ∈ keys ∧ ¬ W0 (comps k) (Data (projection clean k))) →
  negb should && bool_decide (toRemove = ∅) = false → ¬ ∀ p d, W0 p d ↔ W1 p d.
Proof.
  intros Ho (_ & Hin & _) Hg Hs Hb Hsame. destruct should; simpl in Hb.
  - destruct (Hs eq_refl Hg) as (k & Hk & HW). apply HW, Hsame, files_of_keys. by exists k.
  - apply bool_decide_eq_false in Hb. apply set_choose_L in Hb as (p & Hp).
    destruct (Hin p Hp) as (Hne & [n Hn] & Hno). destruct (old_holds ts Ho) as (Hl & _ & HF & _ & Hlead).
    assert (Hex : ∃ r d, W0 (p ++ r) d).
    { destruct n as [|d m|t]; [by apply Hlead|exists [], d; rewrite app_nil_r; apply HF; by exists m|by destruct (Hl p t)]. }
    destruct Hex as (r & d & (k & Hk & Hc & _)%Hsame%files_of_keys). apply Hno. exists k. split; [done|].
    apply elem_of_subPaths. split; [done|by exists r].
Qed.

Lemma spec_Write p : validatePayload p = Ok clean → spec (λ f, f = f0) (Write tmp p) (λ _, written) shown.
Proof.
  intros Hv. unfold Write. rewrite Hv.
  assert (Hrl : readlink [dataDirName] f0 = match ots with None => inl ENOENT | Some ts => inr ([ts], f0) end).
  { unfold readlink, node_at. rewrite (lookup_top _ _ closed0). destruct Hpub as (_ & _ & Ho).
    destruct ots; destruct Ho as [-> _]; done. }
  eapply spec_bind.
  { apply (spec_read (readlink [dataDirName]) (λ q, ∃ ts, q = [ts] ∧ ots = Some ts)).
    intros q f'. rewrite Hrl. clear. destruct ots as [ts|]; [|done]. intros [= <- <-]. split; [done|]. by exists ts. }
  assert (Hpublish : ∀ oldTs toRemove, removable toRemove →
    (∀ p, oldTs = Some p → ∃ ts, p = [ts] ∧ ots = Some ts) → (good → ∀ ts, ots = Some ts → oldTs = Some [ts]) →
    (good → ots = None ∨ ¬ ∀ p d, W0 p d ↔ W1 p d) →
    spec (λ f, f = f0) (publish clean tmp oldTs toRemove) (λ _, written) shown).
  { intros oldTs toRemove Hr Hold Hg Hdiff. eapply spec_conseq; [by apply spec_publish|done| |done].
    intros [] f (Hp & Hcm & Hn & Hgone). left. do 3 (split; [done|]). split; [|done].
    intros Hgood ts q Ho. by apply Hgone; [|apply Hg]. }
  intros [e|q].
  - assert (Hthrow : ∀ e, e ≠ Errno ENOENT →
      spec (λ f, f = f0 ∧ (good → ∃ e0, e = Errno e0 ∧ readlink [dataDirName] f0 = inl e0)) (throw e) (λ _ : unit, written) shown).
    { intros e' He. apply spec_throw. intros f [-> Hg]. split; [exact shown0|]. intros (e0 & -> & Hr)%Hg.
      rewrite Hrl in Hr. clear -He Hr. destruct ots; [done|]. by injection Hr as <-. }
    destruct e as [[]|msg]; try (by apply Hthrow).
    apply spec_pure. intros He. assert (Hnone : good → ots = None).
    { intros Hg. destruct (He Hg) as (e0 & _ & Hr). rewrite Hrl in Hr. clear -Hr. by destruct ots. }
    apply Hpublish; [intros c Hc; set_solver|done| |by left; apply Hnone].
    intros Hg ts Ho. rewrite Hnone in Ho; done.
  - apply spec_pure. intros (ts & -> & Ho). eapply spec_bind; [by apply spec_pathsToRemove|].
    intros toRemove. apply spec_pure. intros Hw. eapply spec_bind; [apply (spec_should_loop ts Ho keys); done|].
    intros should. destruct (negb should && bool_decide (toRemove = ∅)) eqn:Hb.
    + apply andb_prop in Hb as [->%negb_true_iff ->%bool_decide_eq_true]. apply spec_ret.
      intros f (-> & Hk & _). apply (up_to_date ts Ho Hw). by apply Hk.
    + apply spec_pure. intros [_ Hs]. apply Hpublish; [by destruct Hw| | |].
      * intros q [= <-]. by exists ts.
      * intros _ ts' Ho'. congruence.
      * intros Hg. right. by apply (something_differs ts toRemove should).
Qed.
End write.

(** ** The promises *)

(** A directory as a writer leaves it, or one without files: the files [W] are
    published under the name [ots], and each has its link. *)
Definition directory (f : tree) (ots : option string) (W : path → string → Prop) : Prop :=
  published f ots W ∧ complete f ots.
(** A name that [MkdirTemp] makes of the pattern of [newTimestampDir]. *)
Definition temp_name (tmp : string) : Prop := hidden tmp = true ∧ tmp ≠ dataDirName ∧ tmp ≠ newDataDirName.
(** What users see in the tree is exactly the files [W]. *)
Definition shows (f : tree) (W : path → string → Prop) : Prop :=
  ∀ c rest d, hidden c = false → reads f (c :: rest) d ↔ W (c :: rest) d.

(** Nothing fails, and the payload fits into the directory: its files are not
    on the way to each other, nor to or through the old files. *)
Definition fits `{Disk} (clean : payload) (tmp : string) (f : tree) (ots : option string) : Prop :=
  (∀ n, fault n = None) ∧ (∀ q, readable q = true) ∧
  f !! [tmp] = None ∧ f !! [newDataDirName] = None ∧
  (∀ k k' r, is_Some (clean !! k) → is_Some (clean !! k') → comps k' = comps k ++ r → r = []) ∧
  ∀ ts k p r, ots = Some ts → is_Some (clean !! k) → comps k = p ++ r →
    (r = [] → f !! (ts :: p) ≠ Some Dir) ∧ (r ≠ [] → ∀ d m, f !! (ts :: p) ≠ Some (File d m)).

Section promises.
Context `{RangeOrder} `{Disk}.
Context (p clean : payload) (tmp : string) (f0 : tree) (ots : option string) (W0 : path → string → Prop).
Context (Hvalid : validatePayload p = Ok clean) (Hvis : visible clean) (Htmp : temp_name tmp).
Context (Hdir : directory f0 ots W0).

Abbreviation start := (mkDisk f0 0 []).

Lemma Write_spec (good : Prop) : (good → fits clean tmp f0 ots) →
  spec (shown clean tmp ots W0 good) good (λ f, f = f0) (Write tmp p) (λ _, written clean tmp f0 ots W0 good)
    (shown clean tmp ots W0 good).
Proof.
  intros Hfits. destruct Hdir as [Hpub Hcomp]. destruct Htmp as (Hh & Hd & Hn).
  apply spec_Write; try done; first [by apply validatePayload_spec in Hvalid as [? _]|intros Hg; destruct (Hfits Hg) as (? & ? & ? & ? & ? & ?); auto].
Qed.

(** C18. Readers of the directory see the old files or the new ones, in every
    state a write passes through and however it ends, whichever of its system
    calls fail and whatever the order in which it visits the payload: before
    the swap exactly the old files; after it exactly the payload through
    [..data], and nothing else through the visible names. *)
Theorem write_atomic f :
  f ∈ d_tree (Write tmp p start).2 :: d_log (Write tmp p start).2 →
  shows f W0 ∨
  ((∀ q d, reads f (dataDirName :: q) d ↔ wants clean q d) ∧
   ∀ c rest d, hidden c = false → reads f (c :: rest) d → wants clean (c :: rest) d).
Proof.
  destruct (Write_spec False ltac:(done) start) as [Hlog Hend]; [done|constructor|].
  assert (Hsh : ∀ f, shown clean tmp ots W0 False f → shows f W0 ∨
    ((∀ q d, reads f (dataDirName :: q) d ↔ wants clean q d) ∧
     ∀ c rest d, hidden c = false → reads f (c :: rest) d → wants clean (c :: rest) d)).
  { intros g [[Hp Hc]|[Hp _]]; [left; intros c rest d; by apply (published_view g W0 ots)|right].
    split; [intros q d; by apply (published_data g _ tmp)|intros c rest d; by apply (published_sound g _ (Some tmp))]. }
  intros [->|Hf]%elem_of_cons; [|apply Hsh; rewrite Forall_forall in Hlog; by apply Hlog].
  destruct (Write tmp p start) as [[e|[]] s]; simpl in *; [by apply Hsh; destruct Hend|].
  apply Hsh. destruct Hend as [(Hp & Hc & _)|[-> _]]; [by right|by left].
Qed.

(** C19. A write of a payload that fits succeeds when no call fails.  Every state on
    the way shows exactly the old files or exactly the payload; at the end
    users see exactly the payload, the directory is one a writer leaves, ready
    for the next write, and a replaced directory is gone.  Writing the payload
    that is already there leaves the directory as it is. *)
Theorem write_publishes : fits clean tmp f0 ots →
  (Write tmp p start).1 = inr () ∧
  (∀ f, f ∈ d_log (Write tmp p start).2 → shows f W0 ∨ shows f (wants clean)) ∧
  let f := d_tree (Write tmp p start).2 in
  shows f (wants clean) ∧ (∃ ts, directory f (Some ts) (wants clean)) ∧ f !! [newDataDirName] = None ∧
  (is_Some ots → (∀ q d, W0 q d ↔ wants clean q d) → f = f0) ∧
  (¬ (∀ q d, W0 q d ↔ wants clean q d) → ∀ ts q, ots = Some ts → f !! (ts :: q) = None).
Proof.
  intros Hfits. destruct (Write_spec True ltac:(done) start) as [Hlog Hend]; [done|constructor|].
  destruct (Write tmp p start) as [[e|[]] s]; simpl in *; [by destruct Hend as [_ []]|]. split; [done|].
  assert (Hdsh : ∀ f o W, directory f o W → shows f W).
  { intros g o W [Hp Hc] c rest d. by apply (published_view g W o). }
  split.
  { intros g Hg. rewrite Forall_forall in Hlog. destruct (Hlog g Hg) as [?|[? Hc]]; [left; by apply (Hdsh g ots)|right].
    apply (Hdsh g (Some tmp)). split; [done|by apply Hc]. }
  destruct Hend as [(Hp & Hc & Hn & Hgone & Hdiff)|(-> & [ts ->] & H10 & H01)].
  - assert (Hd : directory (d_tree s) (Some tmp) (wants clean)) by (split; [done|by apply Hc]).
    split; [by apply (Hdsh _ (Some tmp))|]. split; [by exists tmp|]. split; [done|]. split.
    + intros [ts Ho] Hsame. destruct (Hdiff I) as [?|Hn']; [congruence|by destruct Hn'].
    + intros _. by apply Hgone.
  - assert (Heq : ∀ q d, W0 q d ↔ wants clean q d) by (split; auto).
    assert (Hd : directory f0 (Some ts) (wants clean)).
    { destruct Hdir as [(Hcl & Hv & Hl & Hh) Hcm]. split; [|done]. split; [done|]. split; [done|]. split; [done|].
      destruct Hh as (? & ? & HF & ? & Hlead). do 2 (split; [done|]). split; [intros q d; by rewrite <- Heq|].
      split; [done|]. intros q Hq Hqd. destruct (Hlead q Hq Hqd) as (r & d & HW). exists r, d. by apply Heq. }
    split; [by apply (Hdsh _ (Some ts))|]. split; [by exists ts|]. split; [apply Hfits|]. split; [done|]. by intros Hn.
Qed.

End promises.

(** ** Witnesses and deviations *)

Section witness.
#[local] Existing Instance order_fwd.

Definition demo_payload : payload := {["tls.crt" := mkProjection "cert" 438]}.

Lemma demo_clean : validatePayload demo_payload = Ok demo_payload.
Proof. vm_compute. reflexivity. Qed.

Lemma demo_keys k : is_Some (demo_payload !! k) → k = "tls.crt".
Proof. unfold demo_payload. intros [fp Hk]. by apply lookup_singleton_Some in Hk as [<- _]. Qed.

Lemma demo_visible : visible demo_payload.
Proof. intros k ->%demo_keys. by exists "tls.crt", []. Qed.

Lemma demo_temp : temp_name "..1".
Proof. done. Qed.

Lemma empty_closed : closed empty_dir.
Proof.
  split; [by apply lookup_singleton_eq|]. intros q c. unfold empty_dir. rewrite lookup_singleton_ne; [by intros [? ?]|by destruct q].
Qed.

Lemma empty_directory : directory empty_dir None (λ _ _, False).
Proof.
  split; [|done]. split; [apply empty_closed|]. split; [|by split; [|intros ? ? []]].
  intros c _. left. by apply lookup_singleton_ne.
Qed.

(** A disk whose eighth call fails. *)
#[local] Instance bad_disk : Disk := {| fault n := if decide (n = 8) then Some EIO else None; umask := 18; readable _ := true |}.
Lemma write_atomic_witness :
  (Write "..1" demo_payload (mkDisk empty_dir 0 [])).1 = inl (Errno EIO) ∧
  ∀ f, f ∈ d_tree (Write "..1" demo_payload (mkDisk empty_dir 0 [])).2 :: d_log (Write "..1" demo_payload (mkDisk empty_dir 0 [])).2 →
    shows f (λ _ _, False) ∨
    ((∀ q d, reads f (dataDirName :: q) d ↔ wants demo_payload q d) ∧
     ∀ c rest d, hidden c = false → reads f (c :: rest) d → wants demo_payload (c :: rest) d).
Proof.
  split; [vm_compute; reflexivity|]. intros f.
  apply (write_atomic demo_payload demo_payload "..1" empty_dir None (λ _ _, False) demo_clean demo_visible demo_temp empty_directory).
Defined.
End witness.

Section quiet_witness.
#[local] Existing Instances order_fwd quiet_disk.

Lemma demo_fits : fits demo_payload "..1" empty_dir None.
Proof.
  do 2 (split; [done|]). do 2 (split; [by apply lookup_singleton_ne|]). split; [|done].
  intros k k' r ->%demo_keys ->%demo_keys. by intros [= <-].
Qed.

Lemma write_publishes_witness : shows (d_tree (Write "..1" demo_payload (mkDisk empty_dir 0 [])).2) (wants demo_payload).
Proof.
  apply (write_publishes demo_payload demo_payload "..1" empty_dir None (λ _ _, False) demo_clean demo_visible demo_temp
    empty_directory demo_fits).
Defined.

(** A payload path that is cleaned after its validation can name the links of
    the writer: the write fails, and so does every later one. *)
Example unclean_path_blocks :
  let f := d_tree (Write "..1" (files [("./..data_tmp", "x")]) (mkDisk empty_dir 0 [])).2 in
  validatePath "./..data_tmp" = None ∧
  (Write "..1" (files [("./..data_tmp", "x")]) (mkDisk empty_dir 0 [])).1 = inl (Errno EEXIST) ∧
  (Write "..2" (files [("a", "x")]) (mkDisk f 0 [])).1 = inl (Errno EEXIST).
Proof. vm_compute. done. Qed.

(** A file that becomes a directory cannot be written. *)
Example file_to_directory_fails :
  (Write "..2" (files [("a/b", "x"); ("d/b", "y")]) (mkDisk first_write 0 [])).1 = inl (Errno ENOTDIR).
Proof. vm_compute. done. Qed.

(** A file that is no link stays, and the write reports success. *)
Example plain_file_stays :
  let f := <[ ["a"] := File "mine" 438 ]> empty_dir in
  let r := Write "..1" (files [("a", "x")]) (mkDisk f 0 []) in
  r.1 = inr () ∧ read_user (d_tree r.2) ["a"] = Some "mine" ∧ read_user (d_tree r.2) ["..data"; "a"] = Some "x".
Proof. vm_compute. done. Qed.
End quiet_witness.

Section faulty_examples.
#[local] Existing Instance order_fwd.
#[local] Instance failing (fails : list nat) : Disk := {| fault n := if decide (n ∈ fails) then Some EIO else None; umask := 18; readable _ := true |}.

(** An error of [Readlink] is passed over: the write reports success and the
    file is not visible. *)
Example lost_link :
  let r := @Write _ (failing [7]) "..1" (files [("a", "x")]) (mkDisk empty_dir 0 []) in
  r.1 = inr () ∧ read_user (d_tree r.2) ["a"] = None ∧ read_user (d_tree r.2) ["..data"; "a"] = Some "x".
Proof. vm_compute. done. Qed.

(** A temporary link that is left behind (here because the renaming and the
    removal fail, or because the process ends between steps 8 and 9) makes
    every later write fail. *)
Example stale_link_blocks :
  let f := d_tree (@Write _ (failing [10; 11]) "..1" (files [("a", "x")]) (mkDisk empty_dir 0 [])).2 in
  is_Some (f !! [newDataDirName]) ∧
  (@Write _ (failing []) "..2" (files [("a", "x")]) (mkDisk f 0 [])).1 = inl (Errno EEXIST).
Proof. vm_compute. split; [by eexists|done]. Qed.
End faulty_examples.
