(* ===== verification/CertWriter.v ===== *)
(** * Certificates of the webhook server

    src/pkg/webhook/util/generator (selfsigned.go, util.go), the certificate
    writers of src/pkg/webhook/util/writer (certwriter.go, secret.go, fs.go) and
    the controller that keeps the webhook configurations
    (src/pkg/webhook/util/controller/webhook_controller.go).  Cryptography is a
    parameter; an error of the disk, which nothing looks at, is reported
    without its text. *)

From S2P Require Import Prelude GoStrings FileSystem AtomicWriter.

(** A byte slice: [None] is nil. *)
Abbreviation bytes := (option string).
Definition len0 (b : bytes) : bool := bool_decide (default EmptyString b = EmptyString).

(** ** Key pairs and certificates

    The functions of crypto/rsa, crypto/x509, crypto/tls and client-go's cert
    and keyutil packages; [draw] numbers the readings of the random source. *)

Class Crypto := {
  rsa : Type;
  x509 : Type;
  GenerateKey (draw : nat) : result rsa;
  NewSelfSignedCACert (commonName : string) (key : rsa) : result x509;
  (** [CreateCertificate] and its parsing, for ten years. *)
  CreateCertificate (commonName : string) (dnsNames ips : list string) (key : rsa) (caCert : x509) (caKey : rsa)
    (draw : nat) : result x509;
  EncodePrivateKeyPEM : rsa → string;
  EncodeCertPEM : x509 → string;
  ParsePrivateKeyPEM : string → option rsa;
  ParseCertsPEM : string → option (list x509);
  X509KeyPair (cert key : string) : bool;
  (** The certificate decodes, and verifies for the name at the time with the
      given roots. *)
  verifies (roots cert dnsName : string) (time : Z) : bool;
  (** [ParseIP(s).To4()]. *)
  ParseIP4 : string → option string;
}.

(** The two times the code computes from the clock. *)
Record now := mkNow { inOneYear : Z; inSixMonths : Z }.

Record Artifacts := mkArtifacts { a_Key : bytes; a_Cert : bytes; a_CAKey : bytes; a_CACert : bytes; ResourceVersion : string }.

(** ** The generator *)

Record generator := mkGenerator { g_caKey : bytes; g_caCert : bytes; g_draws : nat }.

Section generator.
Context `{Crypto}.

Definition ServiceToCommonName (serviceNamespace serviceName : string) : string :=
  serviceName +:+ "." +:+ serviceNamespace +:+ ".svc".

Definition SetCA (caKey caCert : bytes) (g : generator) : generator := mkGenerator caKey caCert (g_draws g).

Definition ValidCACert (key cert caCert : bytes) (dnsName : string) (time : Z) : bool :=
  negb (len0 key || len0 cert || len0 caCert) &&
  X509KeyPair (default EmptyString cert) (default EmptyString key) &&
  verifies (default EmptyString caCert) (default EmptyString cert) dnsName time.

(** [None]: a new authority is needed. *)
Definition validCACert (g : generator) (t : now) : option (rsa * x509) :=
  if ValidCACert (g_caKey g) (g_caCert g) (g_caCert g) EmptyString (inOneYear t) then
    match ParsePrivateKeyPEM (default EmptyString (g_caKey g)), ParseCertsPEM (default EmptyString (g_caCert g)) with
    | Some key, Some [ca] => Some (key, ca)
    | _, _ => None
    end
  else None.

(** [NewSignedCert]; the usages the code passes are not empty. *)
Definition NewSignedCert (commonName : string) (dnsNames ips : list string) (key : rsa) (caCert : x509) (caKey : rsa)
    (draw : nat) : result x509 :=
  if decide (commonName = EmptyString) then Err "must specify a CommonName"
  else CreateCertificate commonName dnsNames ips key caCert caKey draw.

Definition annotate {A} (msg : string) (r : result A) : result A :=
  match r with Ok a => Ok a | Err e => Err (msg +:+ e) end.

Definition new_authority (draw : nat) : result (rsa * x509) :=
  signingKey ← annotate "failed to create the CA private key: " (GenerateKey draw);
  signingCert ← annotate "failed to create the CA cert: " (NewSelfSignedCACert "webhook-cert-ca" signingKey);
  mret (signingKey, signingCert).

Definition alt_names (commonName : string) : list string * list string :=
  match ParseIP4 commonName with
  | Some ip => (["localhost"], ["127.0.0.1"; ip])
  | None => (["localhost"; commonName], ["127.0.0.1"])
  end.

Definition Generate (t : now) (commonName : string) (g : generator) : result Artifacts * generator :=
  let n := g_draws g in
  (signing ← match validCACert g t with Some s => Ok s | None => new_authority n end;
   let '(signingKey, signingCert) := signing in
   let '(DNSNames, altIPs) := alt_names commonName in
   key ← annotate "failed to create the private key: " (GenerateKey (S n));
   signedCert ← annotate "failed to create the cert: "
     (NewSignedCert commonName DNSNames altIPs key signingCert signingKey (S (S n)));
   mret (mkArtifacts (Some (EncodePrivateKeyPEM key)) (Some (EncodeCertPEM signedCert))
     (Some (EncodePrivateKeyPEM signingKey)) (Some (EncodeCertPEM signingCert)) EmptyString),
   mkGenerator (g_caKey g) (g_caCert g) (S (S (S n)))).
End generator.

(** ** Readers and writers of certificates *)

(** The errors [isNotFound] and [isAlreadyExists] recognise, and the others. *)
Inductive cert_error := notFoundError (msg : string) | alreadyExistError (msg : string) | OtherError (msg : string).
Definition isNotFound (e : cert_error) : bool := match e with notFoundError _ => true | _ => false end.
Definition isAlreadyExists (e : cert_error) : bool := match e with alreadyExistError _ => true | _ => false end.

Record certReadWriter (W : Type) := mkReadWriter {
  read : W → (cert_error + Artifacts) * W;
  write : W → (cert_error + Artifacts) * W;
  overwrite : string → W → (cert_error + Artifacts) * W;
}.
Arguments mkReadWriter {W} _ _ _.
Arguments read {W} _ _.
Arguments write {W} _ _.
Arguments overwrite {W} _ _ _.

Section common.
Context `{Crypto} (t : now) {W : Type}.

Definition validCert (certs : Artifacts) (dnsName : string) : bool :=
  match a_Cert certs, a_Key certs, a_CACert certs with
  | Some cert, Some key, Some caCert => X509KeyPair cert key && verifies caCert cert dnsName (inSixMonths t)
  | _, _, _ => false
  end.

Definition createIfNotExists (ch : certReadWriter W) (w : W) : (cert_error + Artifacts) * bool * W :=
  let '(r, w) := read ch w in
  match r with
  | inl e =>
      if isNotFound e then
        let '(r, w) := write ch w in
        match r with
        | inl e => if isAlreadyExists e then let '(r, w) := read ch w in (r, true, w) else (inl e, true, w)
        | inr certs => (inr certs, true, w)
        end
      else (inl e, false, w)
  | inr certs => (inr certs, false, w)
  end.

Definition handleCommon (dnsName : string) (ch : option (certReadWriter W)) (w : W) : (cert_error + Artifacts) * bool * W :=
  if decide (dnsName = EmptyString) then (inl (OtherError "dnsName should not be empty"), false, w)
  else match ch with
  | None => (inl (OtherError "certReaderWriter should not be nil"), false, w)
  | Some ch =>
      let '(r, changed, w) := createIfNotExists ch w in
      match r with
      | inl e => (inl e, changed, w)
      | inr certs =>
          if validCert certs dnsName then (inr certs, changed, w)
          else
            let '(r, w) := overwrite ch (ResourceVersion certs) w in
            match r with inl e => (inl e, false, w) | inr certs => (inr certs, true, w) end
      end
  end.
End common.

(** ** Certificates in a secret

    The API server keeps one secret; a call may fail, and other replicas may
    change the secret between two calls. *)

Definition CAKeyName : string := "ca-key.pem".
Definition CACertName : string := "ca-cert.pem".
Definition ServerKeyName : string := "key.pem".
Definition ServerKeyName2 : string := "tls.key".
Definition ServerCertName : string := "cert.pem".
Definition ServerCertName2 : string := "tls.crt".

Record Secret := mkSecret { sec_Data : gmap string bytes; sec_ResourceVersion : string }.

Class SecretApi := {
  call_error : nat → option string;
  (** What another replica made of the secret before the call. *)
  meanwhile : nat → option Secret → option Secret;
  (** The version the server gives to a change. *)
  next_version : nat → string;
}.

Record secret_state := mkSecretState { ss_secret : option Secret; ss_calls : nat; ss_gen : generator }.

Section secret.
Context `{Crypto} `{SecretApi} (t : now) (dnsName : string).

Definition secretToCerts (s : Secret) : Artifacts :=
  let data k := default None (sec_Data s !! k) in
  mkArtifacts (data ServerKeyName) (data ServerCertName) (data CAKeyName) (data CACertName) (sec_ResourceVersion s).

Definition certsToSecret (certs : Artifacts) : Secret :=
  mkSecret {[CAKeyName := a_CAKey certs; CACertName := a_CACert certs; ServerKeyName := a_Key certs;
             ServerKeyName2 := a_Key certs; ServerCertName := a_Cert certs; ServerCertName2 := a_Cert certs]} EmptyString.

(** A call: what happened meanwhile, then the failure or the call itself. *)
Definition api_call {A} (op : option Secret → (cert_error + A) * option Secret) (w : secret_state) : (cert_error + A) * secret_state :=
  let s := meanwhile (ss_calls w) (ss_secret w) in
  match call_error (ss_calls w) with
  | Some msg => (inl (OtherError msg), mkSecretState s (S (ss_calls w)) (ss_gen w))
  | None => let '(r, s') := op s in (r, mkSecretState s' (S (ss_calls w)) (ss_gen w))
  end.

Definition api_get (s : option Secret) : (cert_error + Secret) * option Secret :=
  match s with None => (inl (notFoundError "secret not found"), s) | Some x => (inr x, s) end.
Definition api_create (version : string) (new : Secret) (s : option Secret) : (cert_error + Secret) * option Secret :=
  match s with
  | Some _ => (inl (alreadyExistError "secret already exists"), s)
  | None => let x := mkSecret (sec_Data new) version in (inr x, Some x)
  end.
(** An update names the version it replaces; without a name it replaces any. *)
Definition api_update (version : string) (new : Secret) (s : option Secret) : (cert_error + Secret) * option Secret :=
  match s with
  | None => (inl (OtherError "secret not found"), s)
  | Some old =>
      if decide (sec_ResourceVersion new = EmptyString ∨ sec_ResourceVersion new = sec_ResourceVersion old)
      then let x := mkSecret (sec_Data new) version in (inr x, Some x)
      else (inl (OtherError "the object has been modified"), s)
  end.

Definition buildSecret (w : secret_state) : result (Secret * Artifacts) * secret_state :=
  let '(r, g) := Generate t dnsName (ss_gen w) in
  let w := mkSecretState (ss_secret w) (ss_calls w) g in
  (match r with Ok certs => Ok (certsToSecret certs, certs) | Err e => Err e end, w).

Definition secret_write (w : secret_state) : (cert_error + Artifacts) * secret_state :=
  let '(r, w) := buildSecret w in
  match r with
  | Err e => (inl (OtherError e), w)
  | Ok (secret, certs) =>
      let '(r, w) := api_call (api_create (next_version (ss_calls w)) secret) w in
      (match r with inl e => inl e | inr _ => inr certs end, w)
  end.

Definition secret_overwrite (resourceVersion : string) (w : secret_state) : (cert_error + Artifacts) * secret_state :=
  let '(r, w) := buildSecret w in
  match r with
  | Err e => (inl (OtherError e), w)
  | Ok (secret, certs) =>
      let secret := mkSecret (sec_Data secret) resourceVersion in
      let '(r, w) := api_call (api_update (next_version (ss_calls w)) secret) w in
      (match r with inl e => inl e | inr _ => inr certs end, w)
  end.

Definition secret_read (w : secret_state) : (cert_error + Artifacts) * secret_state :=
  let '(r, w) := api_call api_get w in
  match r with
  | inl e => (inl e, w)
  | inr secret =>
      let certs := secretToCerts secret in
      let g := match a_CACert certs, a_CAKey certs with
               | Some _, Some _ => SetCA (a_CAKey certs) (a_CACert certs) (ss_gen w)
               | _, _ => ss_gen w
               end in
      (inr certs, mkSecretState (ss_secret w) (ss_calls w) g)
  end.

Definition secretCertWriter : certReadWriter secret_state := mkReadWriter secret_read secret_write secret_overwrite.
End secret.

(** ** Certificates in a directory

    The root of the tree is the directory.  [tmp] is the name [MkdirTemp]
    settles on. *)

Definition cert_names : list string := [CAKeyName; CACertName; ServerCertName; ServerCertName2; ServerKeyName; ServerKeyName2].

Section fs.
Context `{RangeOrder} `{Disk}.

(** A file that cannot be looked at is passed over; one that cannot be read as
    a link is removed. *)
Definition prepare_one (f : string) : M unit :=
  st ← attempt (sys (stat [f]));
  match st with
  | inl (Errno ENOENT) => mret ()
  | _ =>
      link ← attempt (sys (readlink [f]));
      match link with
      | inl _ => attempt (sys (unlink [f])) ;; mret ()
      | inr _ => mret ()
      end
  end.

Definition prepareToWrite : M unit :=
  st ← attempt (sys (stat []));
  match st with
  | inl (Errno ENOENT) =>
      made ← attempt (MkdirAll []);
      match made with inl _ => throw (Invalid "can't create dir") | inr _ => mret () end
  | inl e => throw e
  | inr _ => mret ()
  end ;;
  each prepare_one cert_names.

Definition certToProjectionMap (cert : Artifacts) : gmap string FileProjection :=
  let file b := mkProjection (default EmptyString b) 438 in
  {[CAKeyName := file (a_CAKey cert); CACertName := file (a_CACert cert); ServerCertName := file (a_Cert cert);
    ServerCertName2 := file (a_Cert cert); ServerKeyName := file (a_Key cert); ServerKeyName2 := file (a_Key cert)]}.

(** [NewAtomicWriter] fails only when the directory does not exist. *)
Definition NewAtomicWriter : M unit :=
  st ← attempt (sys (stat []));
  match st with inl (Errno ENOENT) => throw (Errno ENOENT) | _ => mret () end.

Definition WriteCertsToDir (tmp : string) (certs : Artifacts) : M unit :=
  prepareToWrite ;; NewAtomicWriter ;; Write tmp (certToProjectionMap certs).

Fixpoint ensureExist (names : list string) : M (option cert_error) :=
  match names with
  | [] => mret None
  | filename :: names' =>
      st ← attempt (sys (stat [filename]));
      match st with
      | inr _ => ensureExist names'
      | inl (Errno ENOENT) => mret (Some (notFoundError "no such file or directory"))
      | inl _ => mret (Some (OtherError "stat"))
      end
  end.

Definition fs_read_files : M Artifacts :=
  caKeyBytes ← sys (readfile [CAKeyName]);
  caCertBytes ← sys (readfile [CACertName]);
  certBytes ← sys (readfile [ServerCertName]);
  keyBytes ← sys (readfile [ServerKeyName]);
  mret (mkArtifacts (Some keyBytes) (Some certBytes) (Some caKeyBytes) (Some caCertBytes) EmptyString).

(** The directory, the number of the next system call, and the generator. *)
Record fs_state := mkFsState { fs_tree : tree; fs_calls : nat; fs_gen : generator }.

(** A program on the directory. *)
Definition run {A} (m : M A) (f : tree) (calls : nat) : (error + A) * tree * nat :=
  let '(r, s) := m (mkDisk f calls []) in (r, d_tree s, d_calls s).

Context `{Crypto} (t : now) (dnsName tmp : string).

Definition fs_read (w : fs_state) : (cert_error + Artifacts) * fs_state :=
  let '(r, f, n) := run (missing ← ensureExist cert_names;
                         match missing with
                         | Some e => mret (inl e)
                         | None => certs ← fs_read_files; mret (inr certs)
                         end) (fs_tree w) (fs_calls w) in
  (match r with inl _ => inl (OtherError "read") | inr r => r end, mkFsState f n (fs_gen w)).

Definition doWrite (w : fs_state) : (cert_error + Artifacts) * fs_state :=
  let '(r, g) := Generate t dnsName (fs_gen w) in
  match r with
  | Err e => (inl (OtherError e), mkFsState (fs_tree w) (fs_calls w) g)
  | Ok certs =>
      let '(r, f, n) := run (WriteCertsToDir tmp certs) (fs_tree w) (fs_calls w) in
      (match r with inl _ => inl (OtherError "write") | inr _ => inr certs end, mkFsState f n g)
  end.

Definition fsCertWriter : certReadWriter fs_state := mkReadWriter fs_read doWrite (λ _, doWrite).
End fs.

(** ** The webhook configurations *)

Record ServiceReference := mkServiceReference { sr_Namespace : string; sr_Name : string; sr_Path : option string }.
Record WebhookClientConfig := mkClientConfig { cc_URL : option string; cc_Service : option ServiceReference; cc_CABundle : bytes }.
(** A webhook: its name and client configuration, the part the code touches. *)
Record webhook := mkWebhook { wh_Name : string; wh_ClientConfig : WebhookClientConfig }.

#[export] Instance ServiceReference_eq_dec : EqDecision ServiceReference.
Proof. solve_decision. Defined.
#[export] Instance ClientConfig_eq_dec : EqDecision WebhookClientConfig.
Proof. solve_decision. Defined.
#[export] Instance webhook_eq_dec : EqDecision webhook.
Proof. solve_decision. Defined.

(** The environment variables the controller reads. *)
Record hook_env := mkHookEnv { e_namespace : string; e_serviceName : string; e_host : string; e_port : Z; e_certWriter : string }.

Definition convertClientConfig (cc : WebhookClientConfig) (host : string) (port : Z) : outcome WebhookClientConfig :=
  service ← deref (cc_Service cc);
  path ← deref (sr_Path service);
  mret (mkClientConfig (Some ("https://" +:+ host +:+ ":" +:+ Itoa port +:+ path)) None (cc_CABundle cc)).

Definition ensure_webhook (env : hook_env) (caBundle : bytes) (wh : webhook) : outcome webhook :=
  let cc := wh_ClientConfig wh in
  let service := match cc_Service cc with
                 | Some sr => Some (mkServiceReference (e_namespace env) (e_serviceName env) (sr_Path sr))
                 | None => None
                 end in
  let cc := mkClientConfig (cc_URL cc) service caBundle in
  cc ← (if decide (e_host env ≠ EmptyString ∧ is_Some service) then convertClientConfig cc (e_host env) (e_port env) else mret cc);
  mret (mkWebhook (wh_Name wh) cc).

Fixpoint ensure_webhooks (env : hook_env) (caBundle : bytes) (l : list webhook) : outcome (list webhook) :=
  match l with
  | [] => mret []
  | wh :: l' => wh' ← ensure_webhook env caBundle wh; l'' ← ensure_webhooks env caBundle l'; mret (wh' :: l'')
  end.

(** The two configurations on the API server, absent or with their webhooks. *)
Record hook_state := mkHookState { mutating : option (list webhook); validating : option (list webhook) }.

(** The calls for the configurations that fail: two reads, two updates. *)
Record hook_faults := mkHookFaults { get_mutating : option string; get_validating : option string;
                                     update_mutating : option string; update_validating : option string }.

Definition ensureConfigurations (env : hook_env) (flt : hook_faults) (caBundle : bytes) (h : hook_state)
    : outcome (option string * hook_state) :=
  match get_mutating flt, mutating h with
  | None, Some mut =>
      match get_validating flt, validating h with
      | None, Some val =>
          mut' ← ensure_webhooks env caBundle mut;
          val' ← ensure_webhooks env caBundle val;
          let update_val (h : hook_state) :=
            if decide (val' = val) then (None, h)
            else match update_validating flt with
                 | Some e => (Some ("failed to update ctrlmesh-validating: " +:+ e), h)
                 | None => (None, mkHookState (mutating h) (Some val'))
                 end in
          mret (if decide (mut' = mut) then update_val h
                else match update_mutating flt with
                     | Some e => (Some ("failed to update ctrlmesh-mutating: " +:+ e), h)
                     | None => update_val (mkHookState (Some mut') (validating h))
                     end)
      | _, _ => Returns (Some "not found ValidatingWebhookConfiguration ctrlmesh-validating", h)
      end
  | _, _ => Returns (Some "not found MutatingWebhookConfiguration ctrlmesh-mutating", h)
  end.

(** ** One round of the controller *)

Record cluster := mkCluster {
  cl_secret : option Secret; cl_api_calls : nat;
  cl_dir : tree; cl_disk_calls : nat;
  cl_hooks : hook_state; cl_draws : nat; cl_initialized : bool;
}.

Section sync.
Context `{RangeOrder} `{Disk} `{Crypto} `{SecretApi}.
Context (env : hook_env) (flt : hook_faults) (t : now).
(** The names the two writes of a round use. *)
Context (tmp1 tmp2 : string).

Definition dnsName : string :=
  if decide (e_host env = EmptyString) then ServiceToCommonName (e_namespace env) (e_serviceName env) else e_host env.

Definition uses_fs : bool :=
  bool_decide (e_certWriter env = "fs" ∨ (e_certWriter env = EmptyString ∧ e_host env ≠ EmptyString)).

(** [EnsureCert] of the writer the environment chooses, with a new generator. *)
Definition EnsureCert (c : cluster) : (cert_error + Artifacts) * cluster :=
  let g := mkGenerator None None (cl_draws c) in
  if uses_fs then
    let '(r, _, w) := handleCommon t dnsName (Some (fsCertWriter t dnsName tmp1)) (mkFsState (cl_dir c) (cl_disk_calls c) g) in
    (r, mkCluster (cl_secret c) (cl_api_calls c) (fs_tree w) (fs_calls w) (cl_hooks c) (g_draws (fs_gen w)) (cl_initialized c))
  else
    let '(r, _, w) := handleCommon t dnsName (Some (secretCertWriter t dnsName)) (mkSecretState (cl_secret c) (cl_api_calls c) g) in
    (r, mkCluster (ss_secret w) (ss_calls w) (cl_dir c) (cl_disk_calls c) (cl_hooks c) (g_draws (ss_gen w)) (cl_initialized c)).

Definition sync (c : cluster) : outcome (option string * cluster) :=
  let '(r, c) := EnsureCert c in
  match r with
  | inl _ => Returns (Some "failed to ensure certs", c)
  | inr certs =>
      let '(w, f, n) := run (WriteCertsToDir tmp2 certs) (cl_dir c) (cl_disk_calls c) in
      let c := mkCluster (cl_secret c) (cl_api_calls c) f n (cl_hooks c) (cl_draws c) (cl_initialized c) in
      match w with
      | inl _ => Returns (Some "failed to write certs to dir", c)
      | inr _ =>
          '(e, h) ← ensureConfigurations env flt (a_CACert certs) (cl_hooks c);
          let c := mkCluster (cl_secret c) (cl_api_calls c) (cl_dir c) (cl_disk_calls c) h (cl_draws c) (cl_initialized c) in
          mret (match e with
                | Some e => (Some ("failed to ensure configuration: " +:+ e), c)
                | None => (None, mkCluster (cl_secret c) (cl_api_calls c) (cl_dir c) (cl_disk_calls c) (cl_hooks c) (cl_draws c) true)
                end)
      end
  end.
End sync.
