(* ===== verification/CertSync.v ===== *)
(** * What the certificate controller promises

    Replicas that share a secret agree on its certificates whatever order
    their calls take (src/pkg/webhook/util/writer); a round of the controller
    (src/pkg/webhook/util/controller/webhook_controller.go) settles: the
    certificates are valid, the directory and the webhooks carry them, and the
    next round changes nothing. *)

From S2P Require Import Prelude GoStrings FileSystem AtomicWriter AtomicWrites CertWriter.

(** ** What holds of certificates that are in place *)

(** The webhook names the authority, and the service or the address to call. *)
Definition placed (env : hook_env) (caBundle : bytes) (wh : webhook) : Prop :=
  cc_CABundle (wh_ClientConfig wh) = caBundle ∧
  match cc_Service (wh_ClientConfig wh) with
  | Some sr => e_host env = EmptyString ∧ sr_Namespace sr = e_namespace env ∧ sr_Name sr = e_serviceName env
  | None => True
  end.

(** A webhook whose address the host replaces has a path. *)
Definition has_path (env : hook_env) (wh : webhook) : Prop :=
  e_host env = EmptyString ∨ ∀ sr, cc_Service (wh_ClientConfig wh) = Some sr → is_Some (sr_Path sr).

Definition same_certs (a b : Artifacts) : Prop :=
  a_Key a = a_Key b ∧ a_Cert a = a_Cert b ∧ a_CAKey a = a_CAKey b ∧ a_CACert a = a_CACert b.

(** The directory shows its users the files of the certificates. *)
Definition served (f : tree) (certs : Artifacts) : Prop :=
  ∃ ts, directory f (Some ts) (wants (certToProjectionMap certs)).
(** A directory of certificates, empty at first, that no interrupted write has left. *)
Definition cert_directory (f : tree) : Prop :=
  f !! [newDataDirName] = None ∧ (directory f None (λ _ _, False) ∨ ∃ certs, served f certs).

(** What the code relies on in the cryptography at the times [t]. *)
Class CertificateLaws `{Crypto} (t : now) := {
  (** [ca] is an authority with this key, in force from now on. *)
  trusted : x509 → rsa → Prop;
  (** The verification of the name looks at the addresses of the certificate. *)
  reads_as_ip : string → bool;
  new_ca_trusted cn key ca : NewSelfSignedCACert cn key = Ok ca → trusted ca key;
  signed_pair cn dns ips key ca caKey draw c :
    CreateCertificate cn dns ips key ca caKey draw = Ok c → X509KeyPair (EncodeCertPEM c) (EncodePrivateKeyPEM key) = true;
  signed_verifies cn dns ips key ca caKey draw c name :
    CreateCertificate cn dns ips key ca caKey draw = Ok c → trusted ca caKey →
    (if reads_as_ip name then ∃ ip, ParseIP4 name = Some ip ∧ ip ∈ ips else name ∈ dns) →
    verifies (EncodeCertPEM ca) (EncodeCertPEM c) name (inSixMonths t) = true;
}.

(** The generator accepts an authority only when it is one. *)
Definition sound_authority `{CertificateLaws} (caKey caCert : bytes) : Prop :=
  ∀ n key ca, validCACert (mkGenerator caKey caCert n) t = Some (key, ca) → trusted ca key.
(** A name for which a certificate can be made: an address must be of version 4. *)
Definition good_name `{CertificateLaws} (name : string) : Prop :=
  name ≠ EmptyString ∧ (reads_as_ip name = bool_decide (is_Some (ParseIP4 name))).
(** The calls of the libraries that a certificate for [name] takes succeed:
    keys are made, a made key signs itself as the authority, and an authority
    signs, with its own key, the certificate of a made key for that name. *)
Definition crypto_works `{CertificateLaws} (name : string) : Prop :=
  (∀ draw, ∃ key, GenerateKey draw = Ok key) ∧
  (∀ draw key, GenerateKey draw = Ok key → ∃ ca, NewSelfSignedCACert "webhook-cert-ca" key = Ok ca) ∧
  ∀ draw key ca caKey dns ips, GenerateKey draw = Ok key → trusted ca caKey → alt_names name = (dns, ips) →
    ∃ c, CreateCertificate name dns ips key ca caKey (S draw) = Ok c.

(** ** The configurations *)

Section hooks.
Context (env : hook_env) (ca : bytes).

Lemma ensure_webhook_placed wh wh' :
  ensure_webhook env ca wh = Returns wh' → placed env ca wh' ∧ wh_Name wh' = wh_Name wh.
Proof.
  unfold ensure_webhook, placed. destruct wh as [name [url svc b]]. simpl.
  destruct svc as [[ns n p]|]; simpl; case_decide as Hd; simpl.
  - destruct p; simpl; [|done]. by intros [= <-].
  - intros [= <-]. simpl. destruct (decide (e_host env = EmptyString)); [done|]. by destruct Hd.
  - by destruct Hd as [_ [? ?]].
  - by intros [= <-].
Qed.

Lemma ensure_webhook_stays wh : placed env ca wh → ensure_webhook env ca wh = Returns wh.
Proof.
  unfold ensure_webhook, placed. destruct wh as [name [url svc b]]. simpl. intros [-> Hs].
  destruct svc as [[ns n p]|]; simpl; case_decide as Hd; try done; [by destruct Hs, Hd| |by destruct Hd as [_ [? ?]]].
  simpl. by destruct Hs as (_ & <- & <-).
Qed.

Lemma ensure_webhook_returns wh : has_path env wh ↔ ∃ wh', ensure_webhook env ca wh = Returns wh'.
Proof.
  unfold ensure_webhook, has_path. destruct wh as [name [url svc b]]. simpl.
  destruct svc as [[ns n p]|]; simpl; case_decide as Hd; simpl.
  - destruct p as [p|]; simpl; split; try (by eauto); try (by intros [? ?]).
    + intros _. right. intros sr [= <-]. by exists p.
    + intros [?|Hsr]; [by destruct Hd|]. by destruct (Hsr (mkServiceReference ns n None)).
  - split; [by eauto|]. intros _. left. destruct (decide (e_host env = EmptyString)); [done|]. by destruct Hd.
  - by destruct Hd as [_ [? ?]].
  - split; [by eauto|]. intros _. by right.
Qed.

Lemma ensure_webhooks_placed l l' : ensure_webhooks env ca l = Returns l' → Forall (placed env ca) l' ∧ wh_Name <$> l' = wh_Name <$> l.
Proof.
  revert l'. induction l as [|wh l IH]; intros l'; simpl; [intros [= <-]; by split|].
  destruct (ensure_webhook env ca wh) as [wh'|] eqn:Hwh; simpl; [|done].
  destruct (ensure_webhooks env ca l) as [l''|]; simpl; [|done]. intros [= <-].
  apply ensure_webhook_placed in Hwh as [? Hn]. destruct (IH l'') as [? Hl]; [done|]. split; [by constructor|]. by rewrite !fmap_cons, Hn, Hl.
Qed.

Lemma ensure_webhooks_stay l : Forall (placed env ca) l → ensure_webhooks env ca l = Returns l.
Proof. induction 1 as [|wh l Hwh _ IH]; simpl; [done|]. by rewrite (ensure_webhook_stays wh Hwh); simpl; rewrite IH. Qed.

Lemma ensure_webhooks_returns l : Forall (has_path env) l → ∃ l', ensure_webhooks env ca l = Returns l'.
Proof.
  induction 1 as [|wh l Hwh _ [l' IH]]; simpl; [by eexists|]. apply ensure_webhook_returns in Hwh as [wh' ->]. simpl. rewrite IH. by eexists.
Qed.

(** The webhooks of both configurations. *)
Definition hooks_placed (h : hook_state) : Prop :=
  ∃ mut val, mutating h = Some mut ∧ validating h = Some val ∧ Forall (placed env ca) mut ∧ Forall (placed env ca) val.
Definition hooks_ready (h : hook_state) : Prop :=
  ∃ mut val, mutating h = Some mut ∧ validating h = Some val ∧ Forall (has_path env) mut ∧ Forall (has_path env) val.

Lemma placed_has_path wh : placed env ca wh → has_path env wh.
Proof. intros Hp. apply ensure_webhook_returns. exists wh. by apply ensure_webhook_stays. Qed.

(** Whatever fails, success means that both configurations are in place. *)
Lemma ensureConfigurations_placed flt h h' : ensureConfigurations env flt ca h = Returns (None, h') → hooks_placed h'.
Proof.
  unfold ensureConfigurations. destruct (get_mutating flt), (mutating h) as [mut|] eqn:Hmut; try done.
  destruct (get_validating flt), (validating h) as [val|] eqn:Hval; try done.
  destruct (ensure_webhooks env ca mut) as [mut'|] eqn:Hm; simpl; [|done].
  destruct (ensure_webhooks env ca val) as [val'|] eqn:Hv; simpl; [|done].
  apply ensure_webhooks_placed in Hm as [Hm _], Hv as [Hv _].
  destruct (decide (mut' = mut)) as [->|], (decide (val' = val)) as [->|]; destruct (update_mutating flt), (update_validating flt);
    try done; intros [= <-]; eexists _, _; (split; [reflexivity || exact Hmut|]); (split; [reflexivity || exact Hval|]); done.
Qed.

Definition no_hook_faults : hook_faults := mkHookFaults None None None None.

Lemma ensureConfigurations_works h :
  hooks_ready h → ∃ h', ensureConfigurations env no_hook_faults ca h = Returns (None, h').
Proof.
  intros (mut & val & Hmut & Hval & Hm & Hv). unfold ensureConfigurations. rewrite Hmut, Hval. simpl.
  apply ensure_webhooks_returns in Hm as [mut' ->], Hv as [val' ->]. simpl.
  destruct (decide (mut' = mut)), (decide (val' = val)); by eexists.
Qed.

(** Nothing is updated when everything is in place, so that the events of a
    round's own updates end in a round that makes none. *)
Lemma ensureConfigurations_stays flt h :
  get_mutating flt = None → get_validating flt = None → hooks_placed h → ensureConfigurations env flt ca h = Returns (None, h).
Proof.
  intros Hg1 Hg2 (mut & val & Hmut & Hval & Hm & Hv). unfold ensureConfigurations. rewrite Hg1, Hg2, Hmut, Hval. simpl.
  rewrite (ensure_webhooks_stay mut Hm). simpl. rewrite (ensure_webhooks_stay val Hv). simpl.
  by rewrite !decide_True by done.
Qed.
End hooks.

(** ** Certificates that are made *)

Section generated.
Context `{CertificateLaws}.

Lemma alt_names_cover name dns ips :
  good_name name → alt_names name = (dns, ips) →
  if reads_as_ip name then ∃ ip, ParseIP4 name = Some ip ∧ ip ∈ ips else name ∈ dns.
Proof.
  intros [_ ->]. unfold alt_names. destruct (ParseIP4 name) as [ip|]; intros [= <- <-].
  - rewrite bool_decide_true by done. exists ip. split; [done|]. right. by left.
  - rewrite bool_decide_false by by intros []. right. by left.
Qed.

(** The authority a certificate is signed with is one. *)
Lemma signing_authority g caKey ca :
  sound_authority (g_caKey g) (g_caCert g) →
  match validCACert g t with Some s => Ok s | None => new_authority (g_draws g) end = Ok (caKey, ca) → trusted ca caKey.
Proof.
  intros Hca. destruct (validCACert g t) as [[k c]|] eqn:Hv.
  - intros [= -> ->]. apply (Hca (g_draws g)). by destruct g.
  - unfold new_authority. destruct (GenerateKey _); simpl; [|done].
    destruct (NewSelfSignedCACert _ _) eqn:Hc; simpl; [|done]. intros [= <- <-]. by eapply new_ca_trusted.
Qed.

Lemma Generate_valid cn g certs g' :
  good_name cn → sound_authority (g_caKey g) (g_caCert g) → Generate t cn g = (Ok certs, g') → validCert t certs cn = true.
Proof.
  intros Hn Hca. unfold Generate. intros [= Hg _]. revert Hg.
  destruct (match validCACert g t with Some s => Ok s | None => new_authority (g_draws g) end) as [[caKey ca]|] eqn:Hs; simpl; [|done].
  assert (Ht : trusted ca caKey) by by eapply signing_authority.
  destruct (alt_names cn) as [dns ips] eqn:Ha. apply alt_names_cover in Ha; [|done].
  destruct (GenerateKey _) as [key|]; simpl; [|done]. unfold NewSignedCert. destruct (decide (cn = EmptyString)); simpl; [done|].
  destruct (CreateCertificate _ _ _ _ _ _ _) as [c|] eqn:Hc; simpl; [|done]. intros [= <-]. unfold validCert. simpl.
  apply andb_true_iff. split; [by eapply signed_pair|by eapply signed_verifies].
Qed.

Lemma Generate_works cn g :
  good_name cn → crypto_works cn → sound_authority (g_caKey g) (g_caCert g) → ∃ certs g', Generate t cn g = (Ok certs, g').
Proof.
  intros [Hn _] (Hk & Hca & Hcr) Hsound. unfold Generate. pose proof (λ k c, signing_authority g k c Hsound) as Ht.
  assert (Hs : ∃ s, match validCACert g t with Some s => Ok s | None => new_authority (g_draws g) end = Ok s).
  { destruct (validCACert g t) as [s|]; [by eexists|]. unfold new_authority. destruct (Hk (g_draws g)) as [k Hkey]. rewrite Hkey. simpl.
    destruct (Hca _ _ Hkey) as [c ->]. by eexists. }
  destruct Hs as [[ck ca] Hs]. rewrite Hs in Ht |- *. specialize (Ht ck ca eq_refl). simpl.
  destruct (alt_names cn) as [dns ips]. destruct (Hk (S (g_draws g))) as [k Hkey]. rewrite Hkey. simpl.
  unfold NewSignedCert. rewrite decide_False by done. destruct (Hcr _ _ _ _ _ _ Hkey Ht eq_refl) as [c ->].
  by eexists _, _.
Qed.

Lemma no_authority_sound : sound_authority None None.
Proof. by intros n key ca. Qed.

Lemma validCert_same a b name : same_certs a b → validCert t a name = validCert t b name.
Proof. unfold validCert. by intros (-> & -> & _ & ->). Qed.

Lemma secret_keeps_certs certs version : same_certs (secretToCerts (mkSecret (sec_Data (certsToSecret certs)) version)) certs.
Proof. by destruct certs as [[] [] [] [] ?]. Qed.
End generated.

#[local] Opaque Generate.

(** ** Replicas that share a secret *)

Section replicas.
Context `{CertificateLaws} `{SecretApi} (dns : string).

(** No secret, or one that is valid. *)
Definition healthy (s : option Secret) : Prop := ∀ x, s = Some x → validCert t (secretToCerts x) dns = true.
(** A change that never replaces a secret, and makes a valid one only. *)
Definition keeps (s s' : option Secret) : Prop := match s with Some _ => s' = s | None => healthy s' end.

Lemma keeps_healthy s s' : healthy s → keeps s s' → healthy s'.
Proof. by destruct s; simpl; [intros Hs ->|]. Qed.
Lemma keeps_trans s s' s'' : healthy s' → keeps s s' → keeps s' s'' → keeps s s''.
Proof. destruct s; simpl; [by intros _ ->|]. intros Hs' _ Hk. by apply (keeps_healthy s'). Qed.

Context (Hothers : ∀ n s, healthy s → keeps s (meanwhile n s)).

(** A round that starts with a healthy secret: what it leaves, and what it
    returns. *)
Definition agreed (s : option Secret) (r : cert_error + Artifacts) (s' : option Secret) : Prop :=
  keeps s s' ∧ healthy s' ∧
  ∀ certs, r = inr certs → validCert t certs dns = true ∧ ∃ x, s' = Some x ∧ same_certs (secretToCerts x) certs.

Lemma meanwhile_healthy n s : healthy s → healthy (meanwhile n s).
Proof. intros Hs. by apply (keeps_healthy s), Hothers. Qed.

Lemma agreed_after n s r s' : healthy s → agreed (meanwhile n s) r s' → agreed s r s'.
Proof.
  intros Hs (Hk & Hh & Hr). split; [|by split]. apply (keeps_trans _ (meanwhile n s)); [by apply meanwhile_healthy|by apply Hothers|done].
Qed.

Lemma keeps_refl s : healthy s → keeps s s.
Proof. by destruct s. Qed.

Lemma agreed_error s e : healthy s → agreed s (inl e) s.
Proof. intros Hs. split; [by apply keeps_refl|]. by split. Qed.

Lemma agreed_secret x : healthy (Some x) → agreed (Some x) (inr (secretToCerts x)) (Some x).
Proof. intros Hx. split; [done|]. split; [done|]. intros certs [= <-]. split; [by apply Hx|]. by exists x. Qed.

Lemma read_agreed w :
  healthy (ss_secret w) → agreed (ss_secret w) (secret_read w).1 (ss_secret (secret_read w).2).
Proof.
  intros Hs. apply (agreed_after (ss_calls w)); [done|]. pose proof (meanwhile_healthy (ss_calls w) _ Hs) as Hm.
  unfold secret_read, api_call. destruct (call_error (ss_calls w)); simpl; [by apply agreed_error|].
  destruct (meanwhile (ss_calls w) (ss_secret w)) as [x|]; simpl; [by apply agreed_secret|by apply agreed_error].
Qed.

(** A reading that finds no secret leaves the generator alone. *)
Lemma read_not_found w e :
  (secret_read w).1 = inl e → ss_gen (secret_read w).2 = ss_gen w.
Proof.
  unfold secret_read, api_call. destruct (call_error (ss_calls w)); simpl; [done|].
  destruct (meanwhile (ss_calls w) (ss_secret w)) as [x|]; simpl; done.
Qed.

Lemma write_agreed w :
  good_name dns → sound_authority (g_caKey (ss_gen w)) (g_caCert (ss_gen w)) → healthy (ss_secret w) →
  agreed (ss_secret w) (secret_write t dns w).1 (ss_secret (secret_write t dns w).2).
Proof.
  intros Hn Hca Hs. unfold secret_write, buildSecret.
  destruct (Generate t dns (ss_gen w)) as [[certs|e] g] eqn:Hg; simpl; [|by apply agreed_error].
  apply Generate_valid in Hg; [|done..]. apply (agreed_after (ss_calls w)); [done|].
  pose proof (meanwhile_healthy (ss_calls w) _ Hs) as Hm. unfold api_call. simpl.
  destruct (call_error (ss_calls w)); simpl; [by apply agreed_error|].
  destruct (meanwhile (ss_calls w) (ss_secret w)) as [x|]; simpl; [by apply agreed_error|].
  assert (Hh : healthy (Some (mkSecret (sec_Data (certsToSecret certs)) (next_version (ss_calls w))))).
  { intros x [= <-]. rewrite (validCert_same _ certs); [done|apply secret_keeps_certs]. }
  split; [done|]. split; [done|]. intros c [= <-]. split; [done|]. eexists. split; [done|]. apply secret_keeps_certs.
Qed.

Lemma agreed_trans s e s' r s'' : agreed s (inl e) s' → agreed s' r s'' → agreed s r s''.
Proof. intros (Hk & Hh & _) (Hk' & Hh' & Hr). split; [|by split]. by apply (keeps_trans _ s'). Qed.

Lemma create_agreed w :
  good_name dns → sound_authority (g_caKey (ss_gen w)) (g_caCert (ss_gen w)) → healthy (ss_secret w) →
  agreed (ss_secret w) (createIfNotExists (secretCertWriter t dns) w).1.1 (ss_secret (createIfNotExists (secretCertWriter t dns) w).2).
Proof.
  intros Hn Hca Hs. unfold createIfNotExists. simpl.
  pose proof (read_agreed w Hs) as Hr. pose proof (read_not_found w) as Hg.
  destruct (secret_read w) as [[e|certs] w1]; simpl in *; [|done]. destruct (isNotFound e); [|done].
  specialize (Hg e eq_refl). rewrite <- Hg in Hca. pose proof Hr as (_ & Hh & _).
  pose proof (write_agreed w1 Hn Hca Hh) as Hw.
  destruct (secret_write t dns w1) as [[e'|certs] w2]; simpl in *; [|by apply (agreed_trans _ e (ss_secret w1))].
  destruct (isAlreadyExists e'); [|by apply (agreed_trans _ e (ss_secret w1))].
  pose proof (read_agreed w2) as Hr2. destruct (secret_read w2) as [r w3]; simpl in *.
  apply (agreed_trans _ e (ss_secret w1)); [done|]. apply (agreed_trans _ e' (ss_secret w2)); [done|]. apply Hr2, Hw.
Qed.

Lemma handle_agreed w :
  good_name dns → sound_authority (g_caKey (ss_gen w)) (g_caCert (ss_gen w)) → healthy (ss_secret w) →
  agreed (ss_secret w) (handleCommon t dns (Some (secretCertWriter t dns)) w).1.1
    (ss_secret (handleCommon t dns (Some (secretCertWriter t dns)) w).2).
Proof.
  intros Hn Hca Hs. unfold handleCommon. rewrite decide_False by apply Hn.
  pose proof (create_agreed w Hn Hca Hs) as Ha.
  destruct (createIfNotExists _ w) as [[[e|certs] changed] w']; simpl in *; [done|].
  destruct Ha as (Hk & Hh & Hr). destruct (Hr certs eq_refl) as [-> Hx]. by split.
Qed.

(** Without failures a round returns certificates. *)
Context (Hcalls : ∀ n, call_error n = None).

Lemma read_works w x : meanwhile (ss_calls w) (ss_secret w) = Some x → (secret_read w).1 = inr (secretToCerts x).
Proof. intros Hm. unfold secret_read, api_call. rewrite Hcalls, Hm. by simpl. Qed.

Lemma read_misses w : meanwhile (ss_calls w) (ss_secret w) = None →
  (∃ msg, (secret_read w).1 = inl (notFoundError msg)) ∧ ss_gen (secret_read w).2 = ss_gen w ∧ ss_secret (secret_read w).2 = None.
Proof. intros Hm. unfold secret_read, api_call. rewrite Hcalls, Hm. simpl. split; [by eexists|done]. Qed.

Lemma write_works w : good_name dns → crypto_works dns → sound_authority (g_caKey (ss_gen w)) (g_caCert (ss_gen w)) →
  (∃ certs, (secret_write t dns w).1 = inr certs) ∨
  ∃ msg x, (secret_write t dns w).1 = inl (alreadyExistError msg) ∧ ss_secret (secret_write t dns w).2 = Some x.
Proof.
  intros Hn Hc Hca. unfold secret_write, buildSecret. destruct (Generate_works dns (ss_gen w) Hn Hc Hca) as (certs & g & ->). simpl.
  unfold api_call. simpl. rewrite Hcalls. destruct (meanwhile _ _) as [x|]; simpl; [right; by eexists _, x|left; by eexists].
Qed.

Lemma handle_works w :
  good_name dns → crypto_works dns → sound_authority (g_caKey (ss_gen w)) (g_caCert (ss_gen w)) → healthy (ss_secret w) →
  ∃ certs, (handleCommon t dns (Some (secretCertWriter t dns)) w).1.1 = inr certs.
Proof.
  intros Hn Hc Hca Hs. pose proof (handle_agreed w Hn Hca Hs) as Ha. revert Ha. unfold handleCommon.
  rewrite decide_False by apply Hn. pose proof (create_agreed w Hn Hca Hs) as Hcr. revert Hcr. unfold createIfNotExists. simpl.
  destruct (meanwhile (ss_calls w) (ss_secret w)) as [x|] eqn:Hm.
  { pose proof (read_works w x Hm) as Hr. destruct (secret_read w) as [r w1]. simpl in Hr. subst r. simpl.
    intros (_ & _ & Hv). destruct (Hv _ eq_refl) as [-> _]. by eexists. }
  destruct (read_misses w Hm) as ([msg Hr] & Hg & Hn1). pose proof (read_agreed w Hs) as (_ & Hh & _).
  destruct (secret_read w) as [r w1]. simpl in *. subst r. simpl. rewrite <- Hg in Hca.
  pose proof (write_agreed w1 Hn Hca Hh) as (_ & Hh2 & _).
  destruct (write_works w1 Hn Hc Hca) as [[certs Hw]|(msg' & x & Hw & Hx)]; destruct (secret_write t dns w1) as [r w2]; simpl in *; subst r; simpl.
  { intros (_ & _ & Hv). destruct (Hv _ eq_refl) as [-> _]. by eexists. }
  pose proof (read_works w2 x) as Hr. rewrite Hx in Hr, Hh2. specialize (Hr (Hothers (ss_calls w2) (Some x) Hh2)).
  destruct (secret_read w2) as [r w3]. simpl in *. subst r.
  intros (_ & _ & Hv). destruct (Hv _ eq_refl) as [-> _]. by eexists.
Qed.
End replicas.

(** ** A round over a secret that nobody else changes *)

(** A valid secret is returned as it is. *)
Lemma handle_secret_valid `{Crypto} `{SecretApi} t dns x calls g :
  (∀ n, call_error n = None) → (∀ n s, meanwhile n s = s) → dns ≠ EmptyString → validCert t (secretToCerts x) dns = true →
  ∃ w, handleCommon t dns (Some (secretCertWriter t dns)) (mkSecretState (Some x) calls g) = (inr (secretToCerts x), false, w) ∧
    ss_secret w = Some x.
Proof.
  intros Hcalls Halone Hne Hv. unfold handleCommon, createIfNotExists. rewrite decide_False by done. simpl.
  unfold secret_read, api_call. simpl. rewrite Hcalls, Halone. simpl. rewrite Hv. by eexists.
Qed.

Section quiet_secret.
Context `{CertificateLaws} `{SecretApi} (dns : string).
Context (Hcalls : ∀ n, call_error n = None) (Halone : ∀ n s, meanwhile n s = s).
Context (Hname : good_name dns) (Hworks : crypto_works dns).

Definition ready_secret (s : option Secret) : Prop :=
  ∀ x, s = Some x → sound_authority (a_CAKey (secretToCerts x)) (a_CACert (secretToCerts x)).

(** What a round makes of the secret, and what it returns. *)
Definition secret_settled (s : option Secret) (certs : Artifacts) (s' : option Secret) : Prop :=
  validCert t certs dns = true ∧ ∃ x, s' = Some x ∧ same_certs (secretToCerts x) certs.

Lemma handle_secret_quiet s calls draws : ready_secret s →
  ∃ certs changed w, handleCommon t dns (Some (secretCertWriter t dns)) (mkSecretState s calls (mkGenerator None None draws)) =
    (inr certs, changed, w) ∧ secret_settled s certs (ss_secret w).
Proof.
  intros Hs. destruct s as [x|]; [destruct (validCert t (secretToCerts x) dns) eqn:Hv|].
  - destruct (handle_secret_valid t dns x calls (mkGenerator None None draws)) as (w & Hw & Hx); [done..|by apply Hname|done|].
    eexists _, _, w. split; [exact Hw|]. split; [done|]. by exists x.
  - unfold handleCommon, createIfNotExists. rewrite decide_False by apply Hname. simpl.
    unfold secret_read, api_call. simpl. rewrite Hcalls, Halone. simpl. rewrite Hv.
    unfold secret_overwrite, buildSecret. simpl.
    set (g := match _ with Some _ => _ | None => _ end).
    assert (Hg : sound_authority (g_caKey g) (g_caCert g)).
    { specialize (Hs x eq_refl). unfold g. clear g. destruct (default None (sec_Data x !! CACertName)) eqn:Hx1; [|done].
      destruct (default None (sec_Data x !! CAKeyName)) eqn:Hx2; [|done]. simpl in *. by rewrite Hx1, Hx2 in Hs. }
    clearbody g. destruct (Generate_works dns g Hname Hworks Hg) as (certs & g' & Hgen). rewrite Hgen. simpl.
    unfold api_call. simpl. rewrite Hcalls, Halone. simpl. rewrite decide_True by by right. simpl.
    eexists certs, _, _. split; [reflexivity|]. split; [by eapply Generate_valid|].
    eexists. split; [reflexivity|]. apply secret_keeps_certs.
  - unfold handleCommon, createIfNotExists. rewrite decide_False by apply Hname. simpl.
    unfold secret_read, api_call. simpl. rewrite Hcalls, Halone. simpl.
    unfold secret_write, buildSecret. simpl. set (g := mkGenerator None None draws).
    destruct (Generate_works dns g Hname Hworks no_authority_sound) as (certs & g' & Hgen). rewrite Hgen. simpl.
    unfold api_call. simpl. rewrite Hcalls, Halone. simpl.
    assert (Hv : validCert t certs dns = true) by (apply (Generate_valid dns g certs g'); [done|apply no_authority_sound|done]).
    rewrite Hv. eexists certs, _, _. split; [reflexivity|]. split; [done|].
    eexists. split; [reflexivity|]. apply secret_keeps_certs.
Qed.
End quiet_secret.

(** ** The directory of certificates *)

Section files.
Context (certs : Artifacts).

Lemma cert_file_names k : is_Some (certToProjectionMap certs !! k) ↔ k ∈ cert_names.
Proof.
  unfold certToProjectionMap. rewrite <- elem_of_dom, !dom_insert_L, dom_singleton_L. unfold cert_names.
  rewrite !elem_of_union, !elem_of_singleton, !elem_of_cons, elem_of_nil. intuition.
Qed.

Lemma cert_names_simple : Forall (λ k, comps k = [k] ∧ hidden k = false ∧ validatePath k = None ∧ Clean k = k) cert_names.
Proof. repeat constructor. Qed.

Lemma cert_name_simple k :
  is_Some (certToProjectionMap certs !! k) → comps k = [k] ∧ hidden k = false ∧ validatePath k = None ∧ Clean k = k.
Proof. rewrite cert_file_names. revert k. apply Forall_forall, cert_names_simple. Qed.

Lemma cert_files_visible : visible (certToProjectionMap certs).
Proof. intros k (Hk & Hh & _)%cert_name_simple. by exists k, []. Qed.

(** The content of the file [k]. *)
Definition cert_file (k : string) : string := Data (default (mkProjection EmptyString 0) (certToProjectionMap certs !! k)).

Lemma wants_certs p d : wants (certToProjectionMap certs) p d ↔ ∃ k, p = [k] ∧ k ∈ cert_names ∧ d = cert_file k.
Proof.
  unfold wants, cert_file. split.
  - intros (k & fp & Hk & <- & <-). exists k. assert (Hs : is_Some (certToProjectionMap certs !! k)) by by exists fp.
    rewrite Hk. split; [by apply cert_name_simple|]. by rewrite <- cert_file_names.
  - intros (k & -> & Hin & ->). apply cert_file_names in Hin as Hs. destruct Hs as [fp Hk]. exists k, fp. split; [done|].
    rewrite Hk. split; [|done]. apply cert_name_simple. by exists fp.
Qed.

Lemma validate_certs `{RangeOrder} : validatePayload (certToProjectionMap certs) = Ok (certToProjectionMap certs).
Proof.
  assert (Hok : ∃ clean, validatePayload (certToProjectionMap certs) = Ok clean).
  { unfold validatePayload. assert (Hks : ∀ k, k ∈ range_keys (certToProjectionMap certs) → is_Some (certToProjectionMap certs !! k))
      by by intros k ?%elem_of_range_keys.
    revert Hks. generalize (∅ : gmap string FileProjection) as m. induction (range_keys _) as [|k ks IH]; intros m Hks; simpl; [by exists m|].
    destruct (cert_name_simple k) as (_ & _ & Hv & _); [apply Hks; by left|]. rewrite Hv.
    destruct (Hks k) as [fp Hk]; [by left|]. rewrite Hk. apply IH. intros j Hj. apply Hks. by right. }
  destruct Hok as [clean Hc]. rewrite Hc. f_equal. apply validatePayload_spec in Hc as (_ & Hin & Hfrom). apply map_eq. intros k.
  assert (Hsub : ∀ j fp, clean !! j = Some fp → certToProjectionMap certs !! j = Some fp).
  { intros j fp (k0 & Hk0 & <-)%Hfrom. destruct (cert_name_simple k0) as (_ & _ & _ & ->); [by exists fp|done]. }
  destruct (certToProjectionMap certs !! k) as [fp|] eqn:Hk.
  - destruct (cert_name_simple k) as (_ & _ & _ & Hcl); [by exists fp|]. destruct (Hin k) as [_ [fp' Hc]]; [by exists fp|].
    rewrite Hcl in Hc. apply Hsub in Hc as Hc'. congruence.
  - destruct (clean !! k) as [fp|] eqn:Hc; [|done]. apply Hsub in Hc. congruence.
Qed.
End files.

(** A directory that shows certificates, or none: what the writer starts from. *)
Definition cert_content (ots : option string) (W : path → string → Prop) : Prop :=
  ∀ p d, W p d → is_Some ots ∧ ∃ k, p = [k] ∧ k ∈ cert_names.

Lemma stat_here f0 p a f : stat p f0 = inr (a, f) → f = f0.
Proof. unfold stat. destruct (node_at true f0 p); [done|]. by intros [= _ ->]. Qed.
Lemma readlink_here f0 p a f : readlink p f0 = inr (a, f) → f = f0.
Proof. unfold readlink. destruct (node_at false f0 p) as [|[]]; try done. by intros [= _ ->]. Qed.
Lemma stat_root f0 ots W : directory f0 ots W → ∃ n, stat [] f0 = inr (n, f0).
Proof. intros [[[Hr _] _] _]. unfold stat, node_at. rewrite lookup_root, Hr. by eexists. Qed.

Section directory.
Context `{RangeOrder} `{Disk} (Hfault : ∀ n, fault n = None).
Context (I : tree → Prop) (f0 : tree) (HI : I f0).

Abbreviation here := (λ f : tree, f = f0).
Abbreviation spec := (FileSystem.spec I True).

Lemma spec_look {A : Type} (op : tree → errno + (A * tree)) a E :
  op f0 = inr (a, f0) → spec here (sys op) (λ b f, f = f0 ∧ b = a) E.
Proof.
  intros Hop s Hs Hl. unfold sys. rewrite Hfault, Hs, Hop. simpl. by rewrite Forall_app, Forall_singleton.
Qed.

Lemma spec_look_attempt {A : Type} (op : tree → errno + (A * tree)) E :
  (∀ a f, op f0 = inr (a, f) → f = f0) →
  spec here (attempt (sys op)) (λ r f, f = f0 ∧ match op f0 with inl e => r = inl (Errno e) | inr (a, _) => r = inr a end) E.
Proof.
  intros Hop s Hs Hl. unfold attempt, sys. rewrite Hfault, Hs.
  destruct (op f0) as [e|[a f]] eqn:Ho; simpl; rewrite Forall_app, Forall_singleton; [done|].
  by rewrite (Hop a f eq_refl).
Qed.

Context (ots : option string) (W0 : path → string → Prop) (Hdir : directory f0 ots W0).

Lemma prepare_stays E : spec here prepareToWrite (λ _, here) E.
Proof.
  unfold prepareToWrite. destruct (stat_root _ _ _ Hdir) as [n Hroot].
  apply (spec_bind _ _ _ _ (λ r f, f = f0 ∧ r = inr n)).
  { pose proof (spec_look_attempt (stat []) E (stat_here f0 [])) as Hst. by rewrite Hroot in Hst. }
  intros r. apply spec_pure. intros ->. apply (spec_bind _ _ _ _ (λ _, here)); [by apply spec_ret|].
  intros []. apply (spec_each _ _ (λ _, here)). intros before k after Hin.
  destruct Hdir as [(Hc & Hv & _) _].
  assert (Hk : hidden k = false).
  { pose proof cert_names_simple as Hn. rewrite Forall_forall in Hn. apply Hn. rewrite Hin. set_solver. }
  unfold prepare_one. eapply (spec_bind _ _ _ _ _); [apply spec_look_attempt, stat_here|].
  assert (Hret : ∀ P : tree → Prop, (∀ f, P f → f = f0) → spec P (mret ()) (λ _, here) E) by (intros P HP; by apply spec_ret).
  assert (Hl : stat [k] f0 = inl ENOENT ∨ ∃ t, readlink [k] f0 = inr (t, f0)).
  { destruct (Hv k Hk) as [Hn|Hn]; [left|right; eexists].
    - unfold stat, node_at. destruct (lookup_path_eq true f0 [k]) as [m ->]. by rewrite (namei_none _ _ _ _ _ Hc Hn), Hn.
    - unfold readlink, node_at. by rewrite lookup_top, Hn. }
  destruct Hl as [->|[t Ht]].
  { intros r. apply (spec_conseq _ _ _ (λ f, f = f0 ∧ r = inl (Errno ENOENT)) _ _ (λ _, here) _ E); try done.
    apply spec_pure. intros ->. by apply Hret. }
  assert (Hrest : spec here (link ← attempt (sys (readlink [k])); match link with
      | inl _ => attempt (sys (unlink [k])) ;; mret ()
      | inr _ => mret () end) (λ _, here) E).
  { eapply (spec_bind _ _ _ _ _); [apply spec_look_attempt, readlink_here|]. rewrite Ht.
    intros [e|x]; [by intros s [_ ?]|]. apply Hret. by intros f [-> _]. }
  intros [[[]|]|]; try (apply (spec_conseq _ _ _ here _ _ (λ _, here) _ E); [exact Hrest|by intros f [-> _]|done|done]).
  apply Hret. by intros f [-> _].
Qed.

(** The end of a program that does not fail. *)
Lemma spec_run {A : Type} (m : M A) (Q : A → tree → Prop) E calls :
  spec here m Q E → ∃ a f n, run m f0 calls = (inr a, f, n) ∧ Q a f.
Proof.
  intros Hm. destruct (Hm (mkDisk f0 calls [])) as [_ Hr]; [done|constructor|]. unfold run.
  destruct (m (mkDisk f0 calls [])) as [[e|a] s]; simpl in *; [by destruct Hr as [_ []]|]. by eexists _, _, _.
Qed.
End directory.

(** ** Writing the directory *)

Section write.
Context `{RangeOrder} `{Disk} (Hfault : ∀ n, fault n = None) (Hread : ∀ q, readable q = true).
Context (f0 : tree) (tmp : string) (Htmp : temp_name tmp) (Hfree : f0 !! [tmp] = None) (Hnew : f0 !! [newDataDirName] = None).
Context (certs : Artifacts).

Lemma certs_fit ots W : directory f0 ots W → cert_content ots W → fits (certToProjectionMap certs) tmp f0 ots.
Proof.
  intros [(Hc & _ & Ho) _] Hcc. split; [done|]. split; [done|]. split; [done|]. split; [done|]. split.
  - intros k k' r (Hk & _)%cert_name_simple (Hk' & _)%cert_name_simple. rewrite Hk, Hk'. by intros [= _ <-].
  - intros ts k p r -> (Hk & _)%cert_name_simple. rewrite Hk. destruct Ho as (_ & _ & Ht & Hfile & _ & Hlead).
    destruct p as [|c p]; simpl; [intros <-; split; [done|]; intros _ d m; congruence|].
    intros [= <- Hr]. symmetry in Hr. apply app_nil in Hr as [-> ->]. split; [|done]. intros _ Hd.
    destruct (Hlead [k]) as (r & d & HW); [done|done|]. apply Hcc in HW as Hk'. destruct Hk' as (_ & k' & Hkr & _).
    injection Hkr as Hkk Hr. subst r. apply Hfile in HW as [m Hm]. simpl in Hm. congruence.
Qed.

Lemma write_certs_spec ots W : directory f0 ots W → cert_content ots W →
  spec (shown (certToProjectionMap certs) tmp ots W True) True (λ f, f = f0) (WriteCertsToDir tmp certs)
    (λ _, written (certToProjectionMap certs) tmp f0 ots W True) (shown (certToProjectionMap certs) tmp ots W True).
Proof.
  intros Hd Hcc. set (I := shown _ _ _ _ _). assert (HI : I f0) by by left.
  unfold WriteCertsToDir. apply (spec_bind _ _ _ _ (λ _ f, f = f0)); [by apply (prepare_stays Hfault I f0 HI ots W Hd)|].
  intros []. apply (spec_bind _ _ _ _ (λ _ f, f = f0)).
  - unfold NewAtomicWriter. destruct (stat_root _ _ _ Hd) as [n Hroot].
    apply (spec_bind _ _ _ _ (λ r f, f = f0 ∧ r = inr n)).
    { pose proof (spec_look_attempt Hfault I f0 HI (stat []) I (stat_here f0 [])) as Hst. by rewrite Hroot in Hst. }
    intros r. apply spec_pure. intros ->. by apply spec_ret.
  - intros []. apply Write_spec; [apply validate_certs|apply cert_files_visible|done|done|]. intros _. by apply (certs_fit ots W).
Qed.

Lemma written_served ots W f : directory f0 ots W → written (certToProjectionMap certs) tmp f0 ots W True f →
  served f certs ∧ f !! [newDataDirName] = None.
Proof.
  intros Hd [(Hp & Hcm & Hn & _)|(-> & [ts ->] & H10 & H01)].
  - split; [|done]. exists tmp. split; [done|by apply Hcm].
  - split; [|done]. exists ts. assert (Heq : ∀ q d, W q d ↔ wants (certToProjectionMap certs) q d) by (split; auto).
    destruct Hd as [(Hcl & Hv & Hl & Hh) Hcm]. split; [|done]. split; [done|]. split; [done|]. split; [done|].
    destruct Hh as (? & ? & HF & ? & Hlead). do 2 (split; [done|]). split; [intros q d; by rewrite <- Heq|].
    split; [done|]. intros q Hq Hqd. destruct (Hlead q Hq Hqd) as (r & d & HW). exists r, d. by apply Heq.
Qed.

Lemma served_content ts c : directory f0 (Some ts) (wants (certToProjectionMap c)) →
  cert_content (Some ts) (wants (certToProjectionMap c)).
Proof. intros _ p d (k & -> & Hk & _)%wants_certs. split; [done|]. by exists k. Qed.

(** A write into a directory of certificates shows them, and changes nothing
    when they are shown already. *)
Lemma write_certs_works calls : cert_directory f0 →
  ∃ f n, run (WriteCertsToDir tmp certs) f0 calls = (inr (), f, n) ∧ served f certs ∧ f !! [newDataDirName] = None ∧
    (served f0 certs → f = f0).
Proof.
  intros [_ Hd]. assert (Hany : ∃ ots W, directory f0 ots W ∧ cert_content ots W).
  { destruct Hd as [Hd|(c & ts & Hd)]; [by exists None, (λ _ _, False)|]. exists (Some ts), (wants (certToProjectionMap c)).
    split; [done|]. by apply served_content. }
  destruct Hany as (ots & W & Hdir & Hcc).
  destruct (spec_run _ _ _ _ _ calls (write_certs_spec ots W Hdir Hcc)) as ([] & f & n & Hr & Hw).
  exists f, n. split; [done|]. apply written_served in Hw as [Hs Hn]; [|done]. split; [done|]. split; [done|].
  intros [ts Hts]. destruct (spec_run _ _ _ _ _ calls (write_certs_spec _ _ Hts (served_content ts certs Hts))) as ([] & g & n' & Hr' & Hw').
  rewrite Hr in Hr'. injection Hr' as -> ->. destruct Hw' as [(_ & _ & _ & _ & Hdiff)|[-> _]]; [|done].
  destruct (Hdiff I) as [?|Hne]; [done|]. by destruct Hne.
Qed.
End write.

(** ** Reading the directory *)

(** The certificates as the files give them back: no file is nil. *)
Definition opened (certs : Artifacts) : Artifacts :=
  mkArtifacts (Some (default EmptyString (a_Key certs))) (Some (default EmptyString (a_Cert certs)))
    (Some (default EmptyString (a_CAKey certs))) (Some (default EmptyString (a_CACert certs))) EmptyString.

Lemma opened_files certs : certToProjectionMap (opened certs) = certToProjectionMap certs.
Proof. done. Qed.

Lemma opened_valid `{Crypto} t certs name :
  validCert t certs name = true → validCert t (opened certs) name = true ∧ a_CACert (opened certs) = a_CACert certs.
Proof. unfold validCert. destruct certs as [[] [] ? [] ?]; simpl; done. Qed.

Lemma served_reads f certs k : served f certs → k ∈ cert_names → readfile [k] f = inr (cert_file certs k, f).
Proof.
  intros [ts [Hp Hcm]] Hk. apply (published_view f (wants (certToProjectionMap certs)) (Some ts) k []); [done|done| |].
  - pose proof cert_names_simple as Hn. rewrite Forall_forall in Hn. by apply Hn.
  - apply wants_certs. by exists k.
Qed.

Lemma read_stat f p d : readfile p f = inr (d, f) → ∃ n, stat p f = inr (n, f).
Proof. unfold readfile, stat. destruct (node_at true f p) as [|n]; [done|]. intros _. by eexists. Qed.

Lemma unpublished_stat f k : directory f None (λ _ _, False) → hidden k = false → stat [k] f = inl ENOENT.
Proof.
  intros [(Hc & Hv & Hn & _) _] Hk. unfold stat, node_at. destruct (lookup_links true f [k]) as [m ->].
  destruct (Hv k Hk) as [Hf|Hf]; [by rewrite (namei_none _ _ _ _ _ Hc Hf), Hf|].
  rewrite (namei_link _ _ _ _ [dataDirName; k]) by auto. cbn [app]. by rewrite (namei_none _ _ _ _ _ Hc Hn).
Qed.

Section reading.
Context `{RangeOrder} `{Disk} (Hfault : ∀ n, fault n = None) (f0 : tree).
Abbreviation here := (λ f : tree, f = f0).
Abbreviation any := (λ _ : tree, True).
Abbreviation spec := (FileSystem.spec any True).

Lemma spec_ensureExist names :
  (∀ k, k ∈ names → ∃ n, stat [k] f0 = inr (n, f0)) → spec here (ensureExist names) (λ r f, f = f0 ∧ r = None) any.
Proof.
  induction names as [|k names IH]; intros Hk; simpl; [by apply spec_ret|].
  destruct (Hk k) as [n Hn]; [by left|]. apply (spec_bind _ _ _ _ (λ r f, f = f0 ∧ r = inr n)).
  { pose proof (spec_look_attempt Hfault any f0 Logic.I (stat [k]) any (stat_here f0 [k])) as Hst. by rewrite Hn in Hst. }
  intros r. apply spec_pure. intros ->. apply IH. intros j Hj. apply Hk. by right.
Qed.

Lemma spec_files certs : served f0 certs → spec here fs_read_files (λ r f, f = f0 ∧ r = opened certs) any.
Proof.
  intros Hs. assert (Hf : ∀ k, k ∈ cert_names → spec here (sys (readfile [k])) (λ d f, f = f0 ∧ d = cert_file certs k) any).
  { intros k Hk. apply (spec_look Hfault any f0 Logic.I). by apply served_reads. }
  unfold fs_read_files. apply (spec_bind _ _ _ _ (λ d f, f = f0 ∧ d = cert_file certs CAKeyName)); [apply Hf; set_solver|].
  intros ?. apply spec_pure. intros ->. apply (spec_bind _ _ _ _ (λ d f, f = f0 ∧ d = cert_file certs CACertName)); [apply Hf; set_solver|].
  intros ?. apply spec_pure. intros ->. apply (spec_bind _ _ _ _ (λ d f, f = f0 ∧ d = cert_file certs ServerCertName)); [apply Hf; set_solver|].
  intros ?. apply spec_pure. intros ->. apply (spec_bind _ _ _ _ (λ d f, f = f0 ∧ d = cert_file certs ServerKeyName)); [apply Hf; set_solver|].
  intros ?. apply spec_pure. intros ->. by apply spec_ret.
Qed.

Context `{Crypto}.

Lemma fs_read_served certs calls g : served f0 certs →
  ∃ n, fs_read (mkFsState f0 calls g) = (inr (opened certs), mkFsState f0 n g).
Proof.
  intros Hs. unfold fs_read. cbn [fs_tree fs_calls fs_gen].
  set (m := mbind _ (ensureExist cert_names)). assert (Hm : spec here m (λ r f, f = f0 ∧ r = inr (opened certs)) any).
  { apply (spec_bind _ _ _ _ (λ r f, f = f0 ∧ r = None)).
    - apply spec_ensureExist. intros k Hk. apply (read_stat f0 [k] (cert_file certs k)). by apply served_reads.
    - intros r. apply spec_pure. intros ->. apply (spec_bind _ _ _ _ (λ r f, f = f0 ∧ r = opened certs)); [by apply spec_files|].
      intros c. apply spec_pure. intros ->. by apply spec_ret. }
  destruct (spec_run any f0 _ _ _ calls Hm) as (r & f & n & -> & -> & ->). by exists n.
Qed.

Lemma fs_read_none calls g : directory f0 None (λ _ _, False) →
  ∃ n msg, fs_read (mkFsState f0 calls g) = (inl (notFoundError msg), mkFsState f0 n g).
Proof.
  intros Hd. unfold fs_read. cbn [fs_tree fs_calls fs_gen].
  set (m := mbind _ (ensureExist cert_names)). set (e := notFoundError "no such file or directory").
  assert (Hm : spec here m (λ r f, f = f0 ∧ r = inl e) any).
  { apply (spec_bind _ _ _ _ (λ r f, f = f0 ∧ r = Some e)).
    - simpl. apply (spec_bind _ _ _ _ (λ r f, f = f0 ∧ r = inl (Errno ENOENT))).
      { pose proof (spec_look_attempt Hfault any f0 Logic.I (stat [CAKeyName]) any (stat_here f0 _)) as Hst.
        by rewrite unpublished_stat in Hst. }
      intros r. apply spec_pure. intros ->. by apply spec_ret.
    - intros r. apply spec_pure. intros ->. by apply spec_ret. }
  destruct (spec_run any f0 _ _ _ calls Hm) as (r & f & n & -> & -> & ->). by exists n, "no such file or directory".
Qed.
End reading.

(** ** A round over a directory *)

Lemma handle_fs_valid `{RangeOrder} `{Disk} `{Crypto} t dns tmp f certs calls g :
  (∀ n, fault n = None) → dns ≠ EmptyString → served f certs → validCert t certs dns = true →
  ∃ n, handleCommon t dns (Some (fsCertWriter t dns tmp)) (mkFsState f calls g) = (inr (opened certs), false, mkFsState f n g).
Proof.
  intros Hfault Hne Hs Hv. unfold handleCommon, createIfNotExists. rewrite decide_False by done. simpl.
  destruct (fs_read_served Hfault f certs calls g Hs) as [n ->].
  destruct (opened_valid t certs dns Hv) as [-> _]. by eexists.
Qed.

Section quiet_directory.
Context `{RangeOrder} `{Disk} (Hfault : ∀ n, fault n = None) (Hread : ∀ q, readable q = true).
Context `{CertificateLaws} (dns : string) (Hname : good_name dns) (Hworks : crypto_works dns).
Context (f0 : tree) (tmp : string) (Htmp : temp_name tmp) (Hfree : f0 !! [tmp] = None) (Hdir : cert_directory f0).

(** What a round makes of the directory, and what it returns. *)
Definition directory_settled (certs : Artifacts) (f : tree) : Prop :=
  validCert t certs dns = true ∧ served f certs ∧ f !! [newDataDirName] = None.

Lemma doWrite_works calls draws :
  ∃ certs w, doWrite t dns tmp (mkFsState f0 calls (mkGenerator None None draws)) = (inr certs, w) ∧ directory_settled certs (fs_tree w).
Proof.
  unfold doWrite. set (g := mkGenerator None None draws). simpl.
  destruct (Generate_works dns g Hname Hworks no_authority_sound) as (certs & g' & Hgen). rewrite Hgen.
  destruct (write_certs_works Hfault Hread f0 tmp Htmp Hfree (proj1 Hdir) certs calls Hdir) as (f & n & -> & Hs & Hn & _).
  eexists certs, _. split; [reflexivity|]. split; [|done].
  apply (Generate_valid dns g certs g'); [done|apply no_authority_sound|done].
Qed.

Lemma handle_fs_quiet calls draws :
  ∃ certs changed w, handleCommon t dns (Some (fsCertWriter t dns tmp)) (mkFsState f0 calls (mkGenerator None None draws)) =
    (inr certs, changed, w) ∧ directory_settled certs (fs_tree w).
Proof.
  destruct (proj2 Hdir) as [Hd|[c Hc]]; [|destruct (validCert t (opened c) dns) eqn:Hv].
  - unfold handleCommon, createIfNotExists. rewrite decide_False by apply Hname. simpl.
    destruct (fs_read_none Hfault f0 calls (mkGenerator None None draws) Hd) as (n & msg & ->). simpl.
    destruct (doWrite_works n draws) as (certs & w & -> & Hs). rewrite (proj1 Hs). by eexists _, _, _.
  - destruct (handle_fs_valid t dns tmp f0 (opened c) calls (mkGenerator None None draws) Hfault) as [n Hn]; [by apply Hname|by destruct c|done|].
    eexists _, _, _. split; [exact Hn|]. split; [done|]. split; [by destruct c|by apply Hdir].
  - unfold handleCommon, createIfNotExists. rewrite decide_False by apply Hname. simpl.
    destruct (fs_read_served Hfault f0 c calls (mkGenerator None None draws) Hc) as [n ->]. rewrite Hv.
    destruct (doWrite_works n draws) as (certs & w & -> & Hs). by eexists _, _, _.
Qed.
End quiet_directory.

(** ** Rounds of the controller *)

(** The state a round is to reach. *)
Definition settled `{Crypto} (env : hook_env) (t : now) (certs : Artifacts) (c : cluster) : Prop :=
  validCert t certs (dnsName env) = true ∧ served (cl_dir c) certs ∧ cl_dir c !! [newDataDirName] = None ∧
  hooks_placed env (a_CACert certs) (cl_hooks c) ∧
  (uses_fs env = false → ∃ x, cl_secret c = Some x ∧ same_certs (secretToCerts x) certs).

(** What a round starts from. *)
Definition ready `{CertificateLaws} (env : hook_env) (c : cluster) : Prop :=
  cert_directory (cl_dir c) ∧ hooks_ready env (cl_hooks c) ∧ (uses_fs env = false → ready_secret (cl_secret c)).

(** No call of the disk or the API server fails, and nobody else changes the secret. *)
Definition quiet_system `{Disk} `{SecretApi} : Prop :=
  (∀ n, fault n = None) ∧ (∀ q, readable q = true) ∧ (∀ n, call_error n = None) ∧ ∀ n s, meanwhile n s = s.

Section rounds.
Context `{RangeOrder} `{Disk} `{CertificateLaws} `{SecretApi} (Hquiet : quiet_system) (env : hook_env).

Lemma same_files certs certs' : same_certs certs certs' → certToProjectionMap certs = certToProjectionMap certs'.
Proof. unfold same_certs, certToProjectionMap. by intros (-> & -> & -> & ->). Qed.

Lemma EnsureCert_settles c tmp1 :
  good_name (dnsName env) → crypto_works (dnsName env) → ready env c → temp_name tmp1 → cl_dir c !! [tmp1] = None →
  ∃ certs c', EnsureCert env t tmp1 c = (inr certs, c') ∧ validCert t certs (dnsName env) = true ∧
    cert_directory (cl_dir c') ∧ cl_hooks c' = cl_hooks c ∧
    (uses_fs env = false → ∃ x, cl_secret c' = Some x ∧ same_certs (secretToCerts x) certs).
Proof.
  destruct Hquiet as (Hf & Hr & Hcalls & Halone). intros Hname Hworks (Hdir & _ & Hsec) Htmp Hfree. unfold EnsureCert.
  destruct (uses_fs env) eqn:Hu.
  - destruct (handle_fs_quiet Hf Hr (dnsName env) Hname Hworks (cl_dir c) tmp1 Htmp Hfree Hdir (cl_disk_calls c) (cl_draws c))
      as (certs & changed & w & -> & Hv & Hs & Hn).
    eexists certs, _. split; [reflexivity|]. split; [done|]. split; [split; [done|right; by exists certs]|]. by split.
  - destruct (handle_secret_quiet (dnsName env) Hcalls Halone Hname Hworks (cl_secret c) (cl_api_calls c) (cl_draws c) (Hsec eq_refl))
      as (certs & changed & w & -> & Hv & Hx).
    eexists certs, _. split; [reflexivity|]. split; [done|]. split; [done|]. by split.
Qed.

(** The rest of a round, with the certificates in hand. *)
Lemma sync_rest c certs c' tmp1 tmp2 :
  EnsureCert env t tmp1 c = (inr certs, c') → validCert t certs (dnsName env) = true → cert_directory (cl_dir c') →
  hooks_ready env (cl_hooks c') → (uses_fs env = false → ∃ x, cl_secret c' = Some x ∧ same_certs (secretToCerts x) certs) →
  temp_name tmp2 → cl_dir c' !! [tmp2] = None →
  ∃ c'', sync env no_hook_faults t tmp1 tmp2 c = Returns (None, c'') ∧ settled env t certs c'' ∧ cl_initialized c'' = true ∧
    cl_secret c'' = cl_secret c' ∧ (served (cl_dir c') certs → cl_dir c'' = cl_dir c') ∧
    (hooks_placed env (a_CACert certs) (cl_hooks c') → cl_hooks c'' = cl_hooks c').
Proof.
  destruct Hquiet as (Hf & Hr & _ & _). intros Hens Hv Hdir Hhooks Hsec Htmp Hfree. unfold sync. rewrite Hens.
  destruct (write_certs_works Hf Hr (cl_dir c') tmp2 Htmp Hfree (proj1 Hdir) certs (cl_disk_calls c') Hdir)
    as (f & n & -> & Hs & Hn & Hstay).
  cbn [cl_hooks cl_dir cl_secret]. destruct (ensureConfigurations_works env (a_CACert certs) (cl_hooks c') Hhooks) as [h Hh].
  rewrite Hh. eexists. split; [reflexivity|]. apply ensureConfigurations_placed in Hh as Hp.
  split; [by repeat split|]. split; [done|]. split; [done|]. split; [done|].
  intros Hp'. by rewrite ensureConfigurations_stays in Hh; [injection Hh|..].
Qed.

Lemma settled_hooks_ready certs c : settled env t certs c → hooks_ready env (cl_hooks c).
Proof.
  intros (_ & _ & _ & (mut & val & Hmut & Hval & Hm & Hv) & _). exists mut, val. split; [done|]. split; [done|].
  split; (eapply Forall_impl; [eassumption|]); intros wh; apply placed_has_path.
Qed.
End rounds.

(** A round that starts settled, at a time the certificates are still good. *)
Lemma EnsureCert_stays `{RangeOrder} `{Disk} `{Crypto} `{SecretApi} env t certs c tmp1 :
  quiet_system → dnsName env ≠ EmptyString → settled env t certs c →
  ∃ certs' c', EnsureCert env t tmp1 c = (inr certs', c') ∧ validCert t certs' (dnsName env) = true ∧
    a_CACert certs' = a_CACert certs ∧ certToProjectionMap certs' = certToProjectionMap certs ∧
    cl_dir c' = cl_dir c ∧ cl_hooks c' = cl_hooks c ∧ cl_secret c' = cl_secret c ∧
    (uses_fs env = false → same_certs certs' certs).
Proof.
  intros (Hf & Hr & Hcalls & Halone) Hne (Hv & Hs & Hn & Hp & Hsec). unfold EnsureCert. destruct (uses_fs env).
  - destruct (handle_fs_valid t (dnsName env) tmp1 (cl_dir c) certs (cl_disk_calls c) (mkGenerator None None (cl_draws c)) Hf Hne Hs Hv)
      as [n ->]. destruct (opened_valid t certs (dnsName env) Hv) as [Hv' Hca]. eexists (opened certs), _. split; [reflexivity|]. by do 6 (split; [done|]).
  - destruct (Hsec eq_refl) as (x & Hx & Hsame). assert (Hv' := Hv). rewrite <- (validCert_same (secretToCerts x)) in Hv' by done.
    destruct (handle_secret_valid t (dnsName env) x (cl_api_calls c) (mkGenerator None None (cl_draws c)) Hcalls Halone Hne Hv')
      as (w & Hw & Hwx). rewrite Hx, Hw. eexists (secretToCerts x), _. split; [reflexivity|]. split; [done|].
    split; [by apply Hsame|]. split; [by apply same_files|]. by do 3 (split; [done|]).
Qed.

(** ** The promises *)

Section promises.
Context `{CertificateLaws} `{SecretApi}.

(** C21. Replicas of the webhook server that ensure certificates in the same
    secret agree.  Start with no secret or a valid one ([healthy]), and a
    server name for which a certificate can be made ([good_name]: not empty,
    and no IPv6 address, [ipv6_never_settles]).  Whatever calls fail, and whatever the others do between two
    calls, as long as they neither replace a valid secret nor make an invalid
    one, a round does neither itself; the certificates it returns are valid and
    are those of the secret; and without failures, of the calls to the API
    server or to the cryptography, it returns some: a replica
    whose creation comes too late returns the secret of the other. *)
Theorem replicas_agree dns s calls draws :
  (∀ n s, healthy (t := t) dns s → keeps (t := t) dns s (meanwhile n s)) → good_name dns → healthy (t := t) dns s →
  let '(r, _, w) := handleCommon t dns (Some (secretCertWriter t dns)) (mkSecretState s calls (mkGenerator None None draws)) in
  keeps (t := t) dns s (ss_secret w) ∧ healthy (t := t) dns (ss_secret w) ∧
  (∀ certs, r = inr certs → validCert t certs dns = true ∧ ∃ x, ss_secret w = Some x ∧ same_certs (secretToCerts x) certs) ∧
  ((∀ n, call_error n = None) → crypto_works dns → ∃ certs, r = inr certs).
Proof.
  intros Hothers Hn Hs. pose proof (handle_agreed dns Hothers (mkSecretState s calls (mkGenerator None None draws)) Hn no_authority_sound Hs) as Ha.
  pose proof (λ Hc Hw, handle_works dns Hothers Hc (mkSecretState s calls (mkGenerator None None draws)) Hn Hw no_authority_sound Hs) as Hl.
  destruct (handleCommon _ _ _ _) as [[r changed] w]. simpl in *. destruct Ha as (? & ? & ?). auto.
Qed.

Context `{RangeOrder} `{Disk}.

(** C20. A round of the certificate controller settles, in a secret or in the
    directory, from a state that is [ready]: an empty directory or one that a
    finished write has left, configurations that are there and whose webhooks
    have a path when a host replaces their service, and a stored authority, if
    there is one, that is really the one of its key.  The server's name is one for
    which a certificate can be made ([good_name]): under an IPv6 address
    rounds never settle ([ipv6_never_settles]).  When no call of the disk, the API
    server or the cryptography fails ([crypto_works] asks an authority to sign
    only with its own key), the directories of the writes have fresh names and
    nobody else changes the secret, the round succeeds: the certificates are
    valid for the name of the server, the directory shows exactly their files,
    every webhook of both configurations carries their authority and, where it
    calls a service, calls this server's, the secret holds them unless they are
    kept in the directory alone, and the server counts as initialised.  The
    next round, at a time the certificates are still good, changes neither the
    secret nor the directory nor a configuration, so the events of a round's
    own updates come to an end. *)
Theorem sync_settles env c tmp1 tmp2 :
  quiet_system → crypto_works (dnsName env) → good_name (dnsName env) → ready env c →
  temp_name tmp1 → cl_dir c !! [tmp1] = None → temp_name tmp2 → cl_dir (EnsureCert env t tmp1 c).2 !! [tmp2] = None →
  ∃ certs c', sync env no_hook_faults t tmp1 tmp2 c = Returns (None, c') ∧ settled env t certs c' ∧ cl_initialized c' = true ∧
  ∀ t' tmp3 tmp4, validCert t' certs (dnsName env) = true → temp_name tmp4 → cl_dir c' !! [tmp4] = None →
    ∃ c'', sync env no_hook_faults t' tmp3 tmp4 c' = Returns (None, c'') ∧
      cl_secret c'' = cl_secret c' ∧ cl_dir c'' = cl_dir c' ∧ cl_hooks c'' = cl_hooks c'.
Proof.
  intros Hq Hworks Hname Hready Htmp1 Hfree1 Htmp2 Hfree2.
  destruct (EnsureCert_settles Hq env c tmp1 Hname Hworks Hready Htmp1 Hfree1) as (certs & c1 & He & Hv & Hd & Hh & Hs).
  rewrite He in Hfree2. destruct (sync_rest Hq env c certs c1 tmp1 tmp2 He Hv Hd) as (c' & Hsync & Hset & Hi & _);
    [rewrite Hh; apply Hready|done..|]. exists certs, c'. split; [done|]. split; [done|]. split; [done|].
  intros t' tmp3 tmp4 Hv' Htmp4 Hfree4. assert (Hset' : settled env t' certs c') by (split; [done|apply Hset]).
  destruct (EnsureCert_stays env t' certs c' tmp3 Hq (proj1 Hname) Hset')
    as (certs' & c2 & He' & Hv2 & Hca & Hmap & Hdir & Hhooks & Hsec & Hsame).
  destruct (sync_rest Hq env c' certs' c2 tmp3 tmp4 He' Hv2) as (c'' & Hsync' & _ & _ & Hsec' & Hdir' & Hhooks'); try done.
  - rewrite Hdir. split; [apply Hset|right; exists certs; apply Hset].
  - rewrite Hhooks. by eapply settled_hooks_ready.
  - intros Hu. rewrite Hsec. destruct Hset as (_ & _ & _ & _ & Hx). destruct (Hx Hu) as (x & Hx' & Hxs). exists x. split; [done|].
    specialize (Hsame Hu). unfold same_certs in *. intuition congruence.
  - by rewrite Hdir.
  - exists c''. split; [done|]. split; [congruence|]. split.
    + rewrite Hdir', Hdir; [done|]. rewrite Hdir. unfold served. rewrite Hmap. apply Hset.
    + rewrite Hhooks', Hhooks; [done|]. rewrite Hhooks, Hca. apply Hset.
Qed.
End promises.

(** ** Witnesses

    A cryptography of texts: a certificate names the authority that signed it,
    its key and the names it is for. *)

Definition ca_text (key : string) : string := "ca{" +:+ key +:+ "}".
Definition names_text (names : list string) : string := foldr (λ n acc, "[" +:+ n +:+ "]" +:+ acc) EmptyString names.
Definition signed_text (ca key : string) (names : list string) : string :=
  ("<" +:+ ca +:+ ">") +:+ (("{" +:+ key +:+ "}") +:+ names_text names).

#[local] Instance text_crypto : Crypto := {|
  rsa := string; x509 := string;
  GenerateKey draw := Ok ("key" +:+ Itoa (Z.of_nat draw));
  NewSelfSignedCACert _ key := Ok (ca_text key);
  CreateCertificate _ dns ips key _ caKey _ := Ok (signed_text (ca_text caKey) key (dns ++ ips));
  EncodePrivateKeyPEM key := key; EncodeCertPEM cert := cert;
  ParsePrivateKeyPEM := Some; ParseCertsPEM cert := Some [cert];
  X509KeyPair cert key := Contains cert ("{" +:+ key +:+ "}");
  verifies roots cert name time :=
    (time <=? 3650)%Z && (bool_decide (cert = roots ∧ name = EmptyString) ||
      Contains cert ("<" +:+ roots +:+ ">") &&
      (if Contains name ":" || bool_decide (name = "10.0.0.1") then bool_decide (name = "10.0.0.1") && Contains cert "[10.0.0.1]"
       else Contains cert ("[" +:+ name +:+ "]")));
  ParseIP4 s := if decide (s = "10.0.0.1") then Some s else None;
|}.

Lemma str_app_assoc (a b c : string) : (a +:+ b) +:+ c = a +:+ (b +:+ c).
Proof. induction a as [|x a IH]; [done|]. change (String x ((a +:+ b) +:+ c) = String x (a +:+ (b +:+ c))). by rewrite IH. Qed.

Lemma Contains_app (a m b : string) : Contains (a +:+ (m +:+ b)) m = true.
Proof.
  induction a as [|c a IH].
  - change (EmptyString +:+ (m +:+ b)) with (m +:+ b). pose proof (prefix_app m b) as Hp. fold (HasPrefix (m +:+ b) m) in Hp.
    destruct (m +:+ b); cbn [Contains]; by rewrite Hp.
  - change (String c a +:+ (m +:+ b)) with (String c (a +:+ (m +:+ b))). cbn [Contains]. rewrite IH. apply orb_true_r.
Qed.

Lemma Contains_after (a s m : string) : Contains s m = true → Contains (a +:+ s) m = true.
Proof.
  intros Hs. induction a as [|c a IH]; [done|].
  change (String c a +:+ s) with (String c (a +:+ s)). cbn [Contains]. rewrite IH. apply orb_true_r.
Qed.

Lemma names_contain n l : n ∈ l → Contains (names_text l) ("[" +:+ n +:+ "]") = true.
Proof.
  induction l as [|m l IH]; [by intros ?%elem_of_nil|].
  assert (Heq : names_text (m :: l) = ("[" +:+ m +:+ "]") +:+ names_text l) by (unfold names_text; cbn [foldr]; by rewrite !str_app_assoc).
  rewrite Heq. intros [->|Hn]%elem_of_cons; [apply (Contains_app EmptyString)|by apply Contains_after, IH].
Qed.

Definition today : now := mkNow 365 182.

Lemma signed_text_key ca key names : Contains (signed_text ca key names) ("{" +:+ key +:+ "}") = true.
Proof. apply Contains_app. Qed.
Lemma signed_text_ca ca key names : Contains (signed_text ca key names) ("<" +:+ ca +:+ ">") = true.
Proof. apply (Contains_app EmptyString). Qed.
Lemma signed_text_name ca key names n : n ∈ names → Contains (signed_text ca key names) ("[" +:+ n +:+ "]") = true.
Proof.
  intros Hn. unfold signed_text. apply Contains_after. apply Contains_after. by apply names_contain.
Qed.
#[local] Opaque signed_text Contains.

#[local] Program Instance text_laws : CertificateLaws today := {|
  trusted ca key := ca = ca_text key;
  reads_as_ip name := Contains name ":" || bool_decide (name = "10.0.0.1");
|}.
Next Obligation. by intros cn key ca [= <-]. Qed.
Next Obligation. intros cn dns ips key ca caKey draw c [= <-]. apply signed_text_key. Qed.
Next Obligation.
  intros cn dns ips key ca caKey draw c name [= <-] -> Hn. simpl. rewrite signed_text_ca, orb_true_iff. right. simpl.
  destruct (Contains name ":" || bool_decide (name = "10.0.0.1")).
  - destruct Hn as (ip & Hip & Hin). cbn in Hip. destruct (decide (name = "10.0.0.1")) as [->|]; [|done]. injection Hip as <-.
    rewrite bool_decide_true by done. simpl. apply (signed_text_name _ _ _ "10.0.0.1"). set_solver.
  - apply signed_text_name. set_solver.
Qed.
#[local] Transparent signed_text Contains.

(** Two replicas: the other creates its secret between the first reading of
    this one and its creation. *)
Definition demo_name : string := "mesh.kube.svc".
Definition made (draws : nat) : Artifacts :=
  match (Generate today demo_name (mkGenerator None None draws)).1 with
  | Ok certs => certs
  | Err _ => mkArtifacts None None None None EmptyString
  end.
Definition other_secret : Secret := mkSecret (sec_Data (certsToSecret (made 100))) "7".

Section race.
#[local] Instance race_api : SecretApi := {|
  call_error _ := None; next_version n := Itoa (Z.of_nat n);
  meanwhile n s := match s with None => if decide (n = 1) then Some other_secret else None | Some _ => s end;
|}.

Lemma demo_name_good : good_name demo_name.
Proof. by vm_compute. Qed.

Lemma other_healthy : healthy (t := today) demo_name (Some other_secret).
Proof. intros x [= <-]. vm_compute. reflexivity. Qed.

Lemma others_keep n s : healthy (t := today) demo_name s → keeps (t := today) demo_name s (meanwhile n s).
Proof. destruct s as [x|]; [done|]. intros _. simpl. case_decide; [apply other_healthy|done]. Qed.

Lemma replicas_agree_witness :
  let '(r, _, w) := handleCommon today demo_name (Some (secretCertWriter today demo_name)) (mkSecretState None 0 (mkGenerator None None 0)) in
  r = inr (secretToCerts other_secret) ∧ healthy (t := today) demo_name (ss_secret w).
Proof.
  pose proof (replicas_agree demo_name None 0 0 others_keep demo_name_good ltac:(done)) as Hr.
  assert (Hres : (handleCommon today demo_name (Some (secretCertWriter today demo_name)) (mkSecretState None 0 (mkGenerator None None 0))).1.1
    = inr (secretToCerts other_secret)) by (vm_compute; reflexivity).
  destruct (handleCommon today demo_name _ _) as [[r b] w]. simpl in Hres. split; [exact Hres|apply Hr].
Defined.
End race.

Section settling.
#[local] Existing Instances order_fwd quiet_disk.
#[local] Instance quiet_api : SecretApi := {|
  call_error _ := None; next_version n := Itoa (Z.of_nat n); meanwhile _ s := s;
|}.

Lemma demo_quiet : quiet_system.
Proof. done. Qed.
Lemma text_crypto_works name : crypto_works name.
Proof. split; [|split]; by eexists. Qed.

Definition demo_env (host : string) : hook_env := mkHookEnv "kube" "mesh" host 443 "secret".
Definition demo_webhook (path : option string) : webhook :=
  mkWebhook "mutate" (mkClientConfig None (Some (mkServiceReference "" "" path)) None).
Definition demo_cluster : cluster :=
  mkCluster None 0 empty_dir 0 (mkHookState (Some [demo_webhook (Some "/mutate")]) (Some [demo_webhook None])) 0 false.

Lemma demo_ready : ready (demo_env "") demo_cluster.
Proof.
  split; [split; [by apply lookup_singleton_ne|left; apply empty_directory]|]. split; [|done].
  eexists _, _. split; [reflexivity|]. split; [reflexivity|]. split; (constructor; [by left|constructor]).
Qed.

Lemma sync_settles_witness :
  ∃ certs c', sync (demo_env "") no_hook_faults today "..1" "..2" demo_cluster = Returns (None, c') ∧
    settled (demo_env "") today certs c'.
Proof.
  destruct (sync_settles (demo_env "") demo_cluster "..1" "..2" demo_quiet (text_crypto_works _) demo_name_good demo_ready)
    as (certs & c' & Hs & Hset & _); [done|by apply lookup_singleton_ne|done|by apply lookup_singleton_ne|].
  exists certs, c'. by split.
Defined.

(** A host that is an address of version 6: its certificate names it where the
    verification does not look, so that every round replaces the secret, and the
    event of the replacement starts the next. *)
Example ipv6_never_settles :
  let round tmp c := match sync (demo_env "::1") no_hook_faults today tmp tmp c with Returns r => r | Panics => (Some "panic", c) end in
  let c0 := mkCluster None 0 empty_dir 0 (mkHookState (Some [demo_webhook (Some "/mutate")]) (Some [])) 0 false in
  let '(e1, c1) := round "..1" c0 in
  let '(e2, c2) := round "..2" c1 in
  e1 = None ∧ e2 = None ∧ sec_ResourceVersion <$> cl_secret c1 = Some "2" ∧ sec_ResourceVersion <$> cl_secret c2 = Some "4".
Proof. vm_compute. done. Qed.
End settling.

Section faulty.
#[local] Existing Instance order_fwd.
#[local] Instance failing (fails : list nat) : Disk := {| fault n := if decide (n ∈ fails) then Some EIO else None; umask := 18; readable _ := true |}.

(** A link that cannot be read once is removed before the write; the write
    finds the payload unchanged, reports success and does not restore it. *)
Example lost_certificate :
  let f := (run (@WriteCertsToDir order_fwd (failing []) "..1" (made 0)) empty_dir 0).1.2 in
  let '(r, g, _) := run (@WriteCertsToDir order_fwd (failing [2]) "..2" (made 0)) f 0 in
  is_Some (read_user f [CAKeyName]) ∧ r = inr () ∧ read_user g [CAKeyName] = None.
Proof. vm_compute. split; [by eexists|done]. Qed.
End faulty.
