(* ===== verification/Conv.v ===== *)
(** * Conversion of the custom resources to messages

    The rules of the custom resources
    (src/pkg/apis/ctrlmesh/v1alpha1/throttlingconfig_types.go and
    faultinjection_types.go) and their conversion to the messages the proxies
    receive (src/pkg/apis/ctrlmesh/utils/conv/conv.go and faultconv.go). *)

From Stdlib Require Import SpecFloat.
From S2P Require Import Prelude GoStrings GoTime GoFloat Named Http BreakerTypes.
From S2P Require BreakerManager FaultInjection.

(** ** The custom resources

    Enumerations are strings there. *)

Record v1_ResourceRule := mkV1ResourceRule {
  v1_ApiGroups : list string; v1_Resources : list string;
  v1_Verbs : list string; v1_Namespaces : list string;
}.
Record v1_RestRule := mkV1RestRule { v1_URL : string; v1_Method : string }.
Record v1_RecoverPolicy := mkV1RecoverPolicy {
  v1_RecoverType : string; v1_SleepingWindowSize : option string;
}.
Record v1_Bucket := mkV1Bucket { v1_Burst : Z; v1_Interval : string; v1_Limit : Z }.
Record v1_Limiting := mkV1Limiting {
  v1_lName : string;
  v1_ResourceRules : list v1_ResourceRule;
  v1_RestRules : list v1_RestRule;
  v1_lBucket : v1_Bucket;
  v1_TriggerPolicy : string;
  v1_lRecoverPolicy : option v1_RecoverPolicy;
  v1_Properties : gmap string string;
}.
Record v1_TrafficInterceptRule := mkV1TrafficInterceptRule {
  v1_tName : string; v1_InterceptType : string; v1_ContentType : string;
  v1_Contents : list string; v1_Methods : list string;
}.
(** [CircuitBreakerSpec] without its selector. *)
Record v1_CircuitBreakerSpec := mkV1CircuitBreakerSpec {
  v1_RateLimitings : list v1_Limiting;
  v1_TrafficInterceptRules : list v1_TrafficInterceptRule;
}.
Record v1_LimitingSnapshot := mkV1LimitingSnapshot {
  v1_sName : string; v1_State : string; v1_LastTransitionTime : option Z;
}.
#[export] Instance v1_LimitingSnapshot_eq_dec : EqDecision v1_LimitingSnapshot.
Proof. solve_decision. Defined.

Record v1_Delay := mkV1Delay { v1_FixedDelay : string; v1_dPercent : string }.
Record v1_Abort := mkV1Abort { v1_HttpStatus : Z; v1_aPercent : string }.
Record v1_ResourceMatch := mkV1ResourceMatch {
  v1_mApiGroups : list string; v1_mNamespaces : list string;
  v1_mResources : list string; v1_mVerbs : list string;
}.
Record v1_MatchContent := mkV1MatchContent { v1_Exact : string; v1_Regex : string }.
Record v1_HttpHeader := mkV1HttpHeader { v1_hName : string; v1_hValue : string }.
Record v1_HttpMatch := mkV1HttpMatch {
  v1_Host : option v1_MatchContent; v1_Path : option v1_MatchContent;
  v1_mMethod : string; v1_Headers : list v1_HttpHeader;
}.
Record v1_Match := mkV1Match { v1_mResourceMatches : list v1_ResourceMatch; v1_HttpMatches : list v1_HttpMatch }.
Record v1_EffectiveTimeRange := mkV1EffectiveTimeRange {
  v1_StartTime : string; v1_EndTime : string;
  v1_DaysOfWeek : list Z; v1_DaysOfMonth : list Z; v1_Months : list Z; (* int *)
}.
Record v1_HTTPFaultInjection := mkV1HTTPFaultInjection {
  v1_fName : string; v1_fDelay : option v1_Delay; v1_fAbort : option v1_Abort;
  v1_fMatch : option v1_Match; v1_EffectiveTime : option v1_EffectiveTimeRange;
}.
(** [FaultInjectionSpec] without its selector. *)
Record v1_FaultInjectionSpec := mkV1FaultInjectionSpec {
  v1_Disabled : bool; v1_HTTPFaultInjections : list v1_HTTPFaultInjection;
}.

(** ** Circuit breakers (conv.go)

    An unknown word leaves the zero value of the enumeration. *)

Definition convertInterceptType (s : string) : InterceptType :=
  if decide (s = "Whitelist") then INTERCEPT_WHITELIST
  else if decide (s = "Blacklist") then INTERCEPT_BLACKLIST else INTERCEPT_WHITELIST.
Definition convertContentType (s : string) : ContentType :=
  if decide (s = "Regexp") then REGEXP else if decide (s = "Normal") then NORMAL else NORMAL.
Definition ConvertTrafficInterceptRule (rule : v1_TrafficInterceptRule) : TrafficInterceptRule :=
  mkTrafficInterceptRule (v1_tName rule) (convertInterceptType (v1_InterceptType rule))
    (convertContentType (v1_ContentType rule)) (v1_Contents rule) (v1_Methods rule).

Definition convertTriggerPolicy (s : string) : TriggerPolicy :=
  if decide (s = "LimiterOnly") then TRIGGER_POLICY_LIMITER_ONLY
  else if decide (s = "Normal") then TRIGGER_POLICY_NORMAL
  else if decide (s = "ForceClosed") then TRIGGER_POLICY_FORCE_CLOSED
  else if decide (s = "ForceOpened") then TRIGGER_POLICY_FORCE_OPENED
  else TRIGGER_POLICY_NORMAL.
Definition convertRecoverType (s : string) : RecoverType :=
  if decide (s = "Manual") then RECOVER_POLICY_MANUAL
  else if decide (s = "SleepingWindow") then RECOVER_POLICY_SLEEPING_WINDOW
  else RECOVER_POLICY_MANUAL.
Definition convertRecoverPolicy (p : v1_RecoverPolicy) : RecoverPolicy :=
  mkRecoverPolicy (convertRecoverType (v1_RecoverType p)) (default EmptyString (v1_SleepingWindowSize p)).
Definition ConvertResourceRule (r : v1_ResourceRule) : ResourceRule :=
  mkResourceRule (v1_ApiGroups r) (v1_Resources r) (v1_Verbs r) (v1_Namespaces r).
Definition ConvertLimiting (limit : v1_Limiting) : RateLimiting := {|
  rl_Name := v1_lName limit;
  rl_ResourceRules := ConvertResourceRule <$> v1_ResourceRules limit;
  rl_RestRules := (λ r, mkRestRules (v1_URL r) (v1_Method r)) <$> v1_RestRules limit;
  rl_Bucket := Some (mkBucket (v1_Burst (v1_lBucket limit)) (v1_Interval (v1_lBucket limit))
                       (v1_Limit (v1_lBucket limit)));
  rl_TriggerPolicy := convertTriggerPolicy (v1_TriggerPolicy limit);
  rl_RecoverPolicy := convertRecoverPolicy <$> v1_lRecoverPolicy limit;
  rl_ValidatePolicy := EmptyString;
  rl_Properties := v1_Properties limit;
|}.

Definition ConvertSnapshot (s : LimitingSnapshot) : v1_LimitingSnapshot :=
  mkV1LimitingSnapshot (ls_LimitingName s)
    (match ls_State s with OPENED => "Opened" | CLOSED => "Closed" end) (ls_LastTransitionTime s).

(** [GetMD5Hash(DumpJSON(message))], of a message whose hash is still empty. *)
Class MessageHashes := {
  hash_breaker : CircuitBreaker → string;
  hash_faults : string → list (option FaultInjection.HTTPFaultInjection) → string;
}.

Definition ConvertCircuitBreaker `{MessageHashes} (name : string) (breaker : v1_CircuitBreakerSpec) : CircuitBreaker :=
  let proto hash :=
    mkCircuitBreaker DELETE (* the zero value *)
      (ConvertTrafficInterceptRule <$> v1_TrafficInterceptRules breaker)
      (ConvertLimiting <$> v1_RateLimitings breaker) hash name in
  proto (hash_breaker (proto EmptyString)).

(** ** Fault injections (faultconv.go) *)

Import FaultInjection.

(** [durationpb.New] *)
Definition durationpb_New (d : Z) : Duration :=
  mkDuration (Z.quot d 1000000000) (int32 (d - Z.quot d 1000000000 * 1000000000)).

Definition ConvertMatchContent (c : v1_MatchContent) : MatchContent := mkMatchContent (v1_Exact c) (v1_Regex c).
(** A header is converted with its name for a value; the matching does not
    read headers, and the message of the model leaves them out. *)
Definition ConvertHttpMatch (h : v1_HttpMatch) : HttpMatch :=
  mkHttpMatch (ConvertMatchContent <$> v1_Host h) (ConvertMatchContent <$> v1_Path h) (v1_mMethod h).
Definition ConvertHeader (h : v1_HttpHeader) : v1_HttpHeader := mkV1HttpHeader (v1_hName h) (v1_hName h).
Definition ConvertRelatedResources (r : v1_ResourceMatch) : ResourceMatch :=
  mkResourceMatch (v1_mApiGroups r) (v1_mNamespaces r) (v1_mResources r) (v1_mVerbs r).
Definition ConvertMatch (m : v1_Match) : Match_ :=
  mkMatch (ConvertRelatedResources <$> v1_mResourceMatches m) (ConvertHttpMatch <$> v1_HttpMatches m).
Definition ConvertEffectiveTime (t : v1_EffectiveTimeRange) : EffectiveTimeRange :=
  mkEffectiveTimeRange (v1_StartTime t) (v1_EndTime t)
    (int32 <$> v1_DaysOfWeek t) (int32 <$> v1_DaysOfMonth t) (int32 <$> v1_Months t).

Definition convertDelay (d : v1_Delay) : option Delay :=
  fixed ← ParseDuration (v1_FixedDelay d);
  percent ← ParseFloat (v1_dPercent d);
  Some (mkDelay percent (Some (durationpb_New fixed))).
Definition convertAbort (a : v1_Abort) : option Abort :=
  percent ← ParseFloat (v1_aPercent a);
  Some (mkAbort percent (Some (HttpStatus (int32 (v1_HttpStatus a))))).

(** An optional part: absent, converted, or failed. *)
Definition convertPart {A B} (f : A → option B) (o : option A) : option (option B) :=
  match o with None => Some None | Some a => b ← f a; Some (Some b) end.

(** [None] is the nil message, for a number that does not parse. *)
Definition ConvertHTTPFaultInjection (fi : v1_HTTPFaultInjection) : option HTTPFaultInjection :=
  delay ← convertPart convertDelay (v1_fDelay fi);
  abort ← convertPart convertAbort (v1_fAbort fi);
  Some (mkHTTPFaultInjection delay abort (ConvertMatch <$> v1_fMatch fi) (v1_fName fi)
          (ConvertEffectiveTime <$> v1_EffectiveTime fi)).

(** A repeated field cannot carry nil: a nil element arrives as the empty
    message. *)
Definition emptyInjection : HTTPFaultInjection := mkHTTPFaultInjection None None None EmptyString None.
Definition on_the_wire (l : list (option HTTPFaultInjection)) : list HTTPFaultInjection :=
  default emptyInjection <$> l.

(** [ConvertFaultInjection], as it arrives at the proxy. *)
Definition ConvertFaultInjection `{MessageHashes} (name : string) (fi : v1_FaultInjectionSpec) : FaultInjection :=
  let rules := ConvertHTTPFaultInjection <$> v1_HTTPFaultInjections fi in
  mkFaultInjection (on_the_wire rules) FI_UPDATE (* the zero value *) (hash_faults name rules) name.

(** ** What conversion preserves *)

(** A circuit breaker as the API admits it and the proxies can take it: a
    name without colon, distinct rule names, and a recovery policy wherever
    the trigger policy is, or is read as, the normal one. *)
Definition breaker_valid (name : string) (b : v1_CircuitBreakerSpec) : Prop :=
  colon_free name = true ∧
  NoDup (v1_lName <$> v1_RateLimitings b) ∧ NoDup (v1_tName <$> v1_TrafficInterceptRules b) ∧
  Forall (λ l, v1_TriggerPolicy l ∈ ["LimiterOnly"; "ForceOpened"; "ForceClosed"] ∨ is_Some (v1_lRecoverPolicy l))
    (v1_RateLimitings b).

Lemma convertTriggerPolicy_normal s :
  convertTriggerPolicy s = TRIGGER_POLICY_NORMAL ↔ s ∉ ["LimiterOnly"; "ForceOpened"; "ForceClosed"].
Proof.
  unfold convertTriggerPolicy. rewrite !elem_of_cons, elem_of_nil.
  repeat case_decide; subst; (split; [intros Hp|intros Hs]); try done; try tauto.
  all: intros [?|[?|[?|[]]]]; done.
Qed.

Section conversion.
Context `{MessageHashes}.

Lemma ConvertCircuitBreaker_config_ok name b :
  BreakerManager.config_ok (ConvertCircuitBreaker name b) ↔ breaker_valid name b.
Proof.
  unfold BreakerManager.config_ok, breaker_valid. simpl. rewrite <-!list_fmap_compose.
  change (rl_Name ∘ ConvertLimiting) with v1_lName.
  change (ti_Name ∘ ConvertTrafficInterceptRule) with v1_tName.
  rewrite Forall_fmap. do 3 f_equiv. apply Forall_iff. intros l. simpl.
  unfold BreakerManager.rule_ok. simpl. rewrite convertTriggerPolicy_normal, fmap_is_Some.
  destruct (decide (v1_TriggerPolicy l ∈ ["LimiterOnly"; "ForceOpened"; "ForceClosed"])).
  - split; [by left|]. intros _. split; [by eexists|done].
  - split; [intros [_ ?]; auto|]. intros [?|?]; [done|]. split; [by eexists|done].
Qed.

(** A circuit breaker that is valid as a resource converts to a message
    the proxies can take, and only then: [Sync]'s precondition on the message
    is the validity of the resource. *)
Theorem ConvertCircuitBreaker_ok name b :
  BreakerManager.config_ok (ConvertCircuitBreaker name b) ↔ breaker_valid name b.
Proof. apply ConvertCircuitBreaker_config_ok. Qed.

(** The words a resource may use for its enumerations convert to the
    values of the same name and back; a snapshot's state is shown by the word
    for it. *)
Theorem words_convert :
  convertInterceptType "Whitelist" = INTERCEPT_WHITELIST ∧ convertInterceptType "Blacklist" = INTERCEPT_BLACKLIST ∧
  convertContentType "Normal" = NORMAL ∧ convertContentType "Regexp" = REGEXP ∧
  (∀ p, ∃ s, convertTriggerPolicy s = p ∧ ∀ s', s' ∈ ["Normal"; "LimiterOnly"; "ForceOpened"; "ForceClosed"] →
     convertTriggerPolicy s' = p → s' = s) ∧
  (∀ s1 s2, v1_State (ConvertSnapshot s1) = v1_State (ConvertSnapshot s2) → ls_State s1 = ls_State s2).
Proof.
  split_and!; try reflexivity.
  - intros []; [exists "Normal"|exists "LimiterOnly"|exists "ForceOpened"|exists "ForceClosed"];
      (split; [reflexivity|]); intros s' Hin; rewrite !elem_of_cons, elem_of_nil in Hin;
      destruct Hin as [->|[->|[->|[->|[]]]]]; done.
  - intros [] []; simpl. by repeat case_match.
Qed.

Lemma convertPart_None {A B} (f : A → option B) o :
  convertPart f o = None ↔ ∃ a, o = Some a ∧ f a = None.
Proof. destruct o as [a|]; simpl; [destruct (f a) eqn:Hf; simpl|]; naive_solver. Qed.

(** A fault is converted to the nil message exactly when a number of it
    does not parse: the delay, its percentage, or the percentage of the
    abort.  (The percentage may be left out in a resource; the empty text does
    not parse.) *)
Theorem ConvertHTTPFaultInjection_nil fi :
  ConvertHTTPFaultInjection fi = None ↔
  (∃ d, v1_fDelay fi = Some d ∧ (ParseDuration (v1_FixedDelay d) = None ∨ ParseFloat (v1_dPercent d) = None)) ∨
  (∃ a, v1_fAbort fi = Some a ∧ ParseFloat (v1_aPercent a) = None).
Proof.
  unfold ConvertHTTPFaultInjection.
  assert (Hd : ∀ d, convertDelay d = None ↔ ParseDuration (v1_FixedDelay d) = None ∨ ParseFloat (v1_dPercent d) = None).
  { intros d. unfold convertDelay. destruct (ParseDuration _), (ParseFloat _); simpl; naive_solver. }
  assert (Ha : ∀ a, convertAbort a = None ↔ ParseFloat (v1_aPercent a) = None).
  { intros a. unfold convertAbort. destruct (ParseFloat _); simpl; naive_solver. }
  setoid_rewrite <-Hd. setoid_rewrite <-Ha. rewrite <-!convertPart_None.
  destruct (convertPart convertDelay _); simpl; [|naive_solver].
  destruct (convertPart convertAbort _); simpl; naive_solver.
Qed.

Lemma registers_panic `{Regexp} name l s :
  (∃ x, x ∈ l ∧ fi_Match x = None) →
  foldM (λ s x, createOrUpdateRule (key2 name (fi_Name x)) x s) s l = Panics.
Proof.
  revert s; induction l as [|y l IH]; intros s (x & Hx & Hm); [by apply elem_of_nil in Hx|]. simpl.
  apply elem_of_cons in Hx as [<-|Hx].
  - unfold createOrUpdateRule. by rewrite Hm.
  - destruct (createOrUpdateRule _ y s); [|done]. simpl. apply IH. by exists x.
Qed.

(** A fault injection one of whose rules has no match, or has a number that
    does not parse, makes a proxy that does not have it yet panic: the message
    then carries a rule without match, whose fields registration reads. *)
Theorem unparsable_fault_panics `{Regexp} `{RangeOrder} name fi mg rule :
  rule ∈ v1_HTTPFaultInjections fi →
  ConvertHTTPFaultInjection rule = None ∨ v1_fMatch rule = None →
  faultInjectionMap mg !! name = None →
  FaultInjection.Sync (ConvertFaultInjection name fi) mg = Panics.
Proof.
  intros Hin Hbad Hn. unfold FaultInjection.Sync. simpl. rewrite Hn.
  unfold FaultInjection.registerRules. simpl. rewrite registers_panic; [done|].
  exists (default emptyInjection (ConvertHTTPFaultInjection rule)). split.
  - unfold on_the_wire. apply list_elem_of_fmap. eexists. split; [done|]. apply list_elem_of_fmap. by exists rule.
  - destruct Hbad as [->|Hm]; [done|]. unfold ConvertHTTPFaultInjection. rewrite Hm.
    destruct (convertPart convertDelay _); [|reflexivity]. simpl.
    by destruct (convertPart convertAbort _).
Qed.

(** A header loses its value. *)
Lemma ConvertHeader_loses_value n v v' :
  ConvertHeader (mkV1HttpHeader n v) = ConvertHeader (mkV1HttpHeader n v').
Proof. done. Qed.

(** The [disabled] field of a fault injection changes nothing. *)
Lemma disabled_ignored name b rules :
  ConvertFaultInjection name (mkV1FaultInjectionSpec b rules) =
  ConvertFaultInjection name (mkV1FaultInjectionSpec (negb b) rules).
Proof. done. Qed.
End conversion.

Definition demo_bad_fault : v1_HTTPFaultInjection :=
  mkV1HTTPFaultInjection "slow" (Some (mkV1Delay "1s" "50%")) None (Some (mkV1Match [] [])) None.
Definition demo_message_hashes : MessageHashes := {| hash_breaker := λ _, "h"; hash_faults := λ _ _, "h" |}.

Lemma unparsable_fault_panics_witness :
  let fi := mkV1FaultInjectionSpec false [demo_bad_fault] in
  ConvertHTTPFaultInjection demo_bad_fault = None ∧
  @FaultInjection.Sync literal_regexp (@ConvertFaultInjection demo_message_hashes "fi" fi) NewManager = Panics.
Proof.
  split; [reflexivity|].
  apply (@unparsable_fault_panics demo_message_hashes literal_regexp order_fwd "fi"
           (mkV1FaultInjectionSpec false [demo_bad_fault]) NewManager demo_bad_fault).
  - by left.
  - left. reflexivity.
  - reflexivity.
Defined.
