(* ===== verification/ConfigController.v ===== *)
(** * The configuration controllers

    src/pkg/manager/controllers/circuitbreaker/circuitbreaker_controller.go and
    src/pkg/manager/controllers/faultinjection/faultinject_controller.go, with
    their cache.go: the reconcilers that push a configuration to the proxies of
    the pods it selects, withdraw it from the pods it no longer selects, and
    guard its deletion with a finalizer.  The two are the same program over
    different types, so the model is one Section over the class [Kind] of what
    they differ in; ConfigKinds.v gives the two instances. *)

From S2P Require Import Prelude GoStrings Selector Sharding ShardingReconcile ShardServer.

(** ** Pods with a proxy container *)

Record CPod := mkCPod {
  cp_Namespace : string; cp_Name : string; cp_Labels : gmap string string;
  cp_PodIP : string; cp_DeletionTimestamp : option Z;
  cp_Containers : list string;
  cp_ContainerStatuses : list (string * bool); (* name, ready *)
}.
#[export] Instance CPod_eq_dec : EqDecision CPod.
Proof. solve_decision. Defined.

Definition ProxyContainerName : string := "ctrlmesh-proxy".

Definition hasProxyContainer (po : CPod) : bool :=
  existsb (λ c, bool_decide (c = ProxyContainerName)) (cp_Containers po).

(** The readiness of the first container status with the proxy's name. *)
Fixpoint proxyReady (cs : list (string * bool)) : bool :=
  match cs with
  | [] => false
  | (n, ready) :: cs' => if decide (n = ProxyContainerName) then ready else proxyReady cs'
  end.
Definition isProxyAvailable (po : CPod) : bool :=
  if decide (cp_DeletionTimestamp po ≠ None) then false
  else if decide (cp_PodIP po = EmptyString) then false
  else proxyReady (cp_ContainerStatuses po).

(** [utils.Key] *)
Definition KeyFunc (po : CPod) : string := cp_Namespace po +:+ "/" +:+ cp_Name po.

(** ** The cache of configurations by pod (cache.go) *)

Definition cacheKey (namespace podName : string) : string := namespace +:+ "/" +:+ podName.

Definition cache_Has (c : gmap string (gset string)) (namespace podName cbHash : string) : bool :=
  match c !! cacheKey namespace podName with
  | None => false
  | Some configs => bool_decide (cbHash ∈ configs)
  end.
Definition cache_Add (c : gmap string (gset string)) (namespace podName cbHash : string) : gmap string (gset string) :=
  let key := cacheKey namespace podName in
  match c !! key with
  | None => <[key := {[cbHash]}]> c
  | Some configs => <[key := {[cbHash]} ∪ configs]> c
  end.
(** Without names the whole entry goes. *)
Definition cache_Delete (c : gmap string (gset string)) (namespace podName : string) (cbHash : list string) : gmap string (gset string) :=
  let key := cacheKey namespace podName in
  match cbHash with
  | [] => delete key c
  | _ => match c !! key with
         | None => c
         | Some configs => <[key := configs ∖ list_to_set cbHash]> c
         end
  end.

#[global] Arguments cache_Has : simpl never.
#[global] Arguments cache_Add : simpl never.
#[global] Arguments cache_Delete : simpl never.

(** ** What the two controllers differ in *)

Class Kind := {
  spec : Type;                              (* the rules of the resource *)
  message : Type;                           (* the message to the proxies *)
  wire_snapshot : Type;
  snapshot : Type;
  snapshot_eq_dec :: EqDecision snapshot;
  DisableKey : string;                      (* the label that disables *)
  noun : string;
  Convert : string → spec → message;        (* of the conv package *)
  ConfigHash : message → string;
  as_update : message → message;            (* with the option UPDATE *)
  delete_request : string → message;
  ConvertSnapshots : list wire_snapshot → list snapshot;
}.

(** The answer to a call: an error, or a response whose message may be nil. *)
Record response {K : Kind} := mkResponse {
  r_Success : bool; r_Message : string; r_Snapshots : list wire_snapshot;
}.
Arguments mkResponse {K} _ _ _.
Inductive rpc {K : Kind} := RpcError (msg : string) | RpcResponse (r : option response).

(** The proxy at the other end, and the network: by the number of the call,
    [Some (e, true)] loses the answer and [Some (e, false)] the request. *)
Class Remote {K : Kind} := { proxy : Type; serve : message → proxy → rpc * proxy }.
Class Network := { net : nat → option (string * bool) }.

(** The contract of a proxy: [UPDATE] installs the configuration, [DELETE]
    removes it, both answer with success and leave other configurations. *)
Class RemoteLaws {K : Kind} {R : Remote} := {
  proxy_ok : proxy → Prop;
  configs : proxy → gmap string string;     (* name to hash *)
  valid : string → spec → Prop;
  serve_update name s p : proxy_ok p → valid name s →
    ∃ r, (serve (as_update (Convert name s)) p).1 = RpcResponse (Some r) ∧ r_Success r = true ∧
      proxy_ok (serve (as_update (Convert name s)) p).2 ∧
      configs (serve (as_update (Convert name s)) p).2 = <[name := ConfigHash (Convert name s)]> (configs p);
  serve_delete name s p : proxy_ok p → valid name s →
    ∃ r, (serve (delete_request name) p).1 = RpcResponse (Some r) ∧ r_Success r = true ∧
      proxy_ok (serve (delete_request name) p).2 ∧
      configs (serve (delete_request name) p).2 = delete name (configs p);
}.

(** ** The resource *)

Section resource.
Context {K : Kind}.

Record TargetStatus := mkTarget {
  ts_PodName : string; ts_PodIP : string; ts_ConfigHash : string;
  ts_Message : string; ts_LimitingSnapshots : list snapshot;
}.
#[export] Instance TargetStatus_eq_dec : EqDecision TargetStatus.
Proof. solve_decision. Defined.

Record ConfigStatus := mkConfigStatus {
  ObservedGeneration : Z; LastUpdatedTime : option Z;
  CurrentSpecHash : string; TargetStatuses : list TargetStatus;
}.
Record resource := mkResource {
  o_Name : string; o_Namespace : string; o_Generation : Z;
  o_Labels : gmap string string; o_Finalizers : list string;
  o_DeletionTimestamp : option Z;
  o_Selector : option LabelSelector; o_Spec : spec; o_Status : ConfigStatus;
}.
Definition with_finalizers (fin : list string) (o : resource) : resource :=
  mkResource (o_Name o) (o_Namespace o) (o_Generation o) (o_Labels o) fin
    (o_DeletionTimestamp o) (o_Selector o) (o_Spec o) (o_Status o).
Definition with_status (st : ConfigStatus) (o : resource) : resource :=
  mkResource (o_Name o) (o_Namespace o) (o_Generation o) (o_Labels o) (o_Finalizers o)
    (o_DeletionTimestamp o) (o_Selector o) (o_Spec o) st.

Definition ContainsFinalizer (o : resource) : bool := bool_decide (ProtectFinalizer ∈ o_Finalizers o).
Definition RemoveFinalizer (o : resource) : resource :=
  with_finalizers (filter (λ f, f ≠ ProtectFinalizer) (o_Finalizers o)) o.

Definition currentPodStatus (cb : resource) (podName : string) : option TargetStatus :=
  head (filter (λ st, ts_PodName st = podName) (TargetStatuses (o_Status cb))).
End resource.

(** ** The world of a reconcile

    The resource and the pods on the API server, the cache of the process, the
    proxies by address, the numbers of API and proxy calls made so far, and
    the proxy calls that were answered with success. *)

Section controller.
Context {K : Kind} {R : Remote} `{Network} `{ApiServer} `{AsSelector}.

Record world := mkWorld {
  w_obj : option resource; w_pods : list CPod; w_cache : gmap string (gset string);
  w_proxies : gmap string proxy; w_calls : nat; w_rpcs : nat;
  w_acked : list (string * message);
}.
Definition tick_api (w : world) : world :=
  mkWorld (w_obj w) (w_pods w) (w_cache w) (w_proxies w) (S (w_calls w)) (w_rpcs w) (w_acked w).
Definition with_obj (o : option resource) (w : world) : world :=
  mkWorld o (w_pods w) (w_cache w) (w_proxies w) (w_calls w) (w_rpcs w) (w_acked w).
Definition with_cache (c : gmap string (gset string)) (w : world) : world :=
  mkWorld (w_obj w) (w_pods w) c (w_proxies w) (w_calls w) (w_rpcs w) (w_acked w).
Definition after_rpc (px : gmap string proxy) (w : world) : world :=
  mkWorld (w_obj w) (w_pods w) (w_cache w) px (w_calls w) (S (w_rpcs w)) (w_acked w).
Definition acked (ip : string) (m : message) (w : world) : world :=
  mkWorld (w_obj w) (w_pods w) (w_cache w) (w_proxies w) (w_calls w) (w_rpcs w) (w_acked w ++ [(ip, m)]).

Inductive error := EApi (e : ApiError) | EMsg (s : string).

(** API calls: a failed call has no effect.  An update leaves the status of
    the stored object alone, a status update everything else; a deleted object
    goes with its last finalizer.  Both answer with the object as stored. *)
Definition call_api {A} (f : world → (A + ApiError) * world) (w : world) : (A + ApiError) * world :=
  match api_fails (w_calls w) with
  | Some e => (inr e, tick_api w)
  | None => f (tick_api w)
  end.
Definition api_Get (w : world) : (resource + ApiError) * world :=
  call_api (λ w, (match w_obj w with Some o => inl o | None => inr NotFound end, w)) w.
Definition api_GetPod (ns name : string) (w : world) : (CPod + ApiError) * world :=
  call_api (λ w, (match head (filter (λ p, cp_Namespace p = ns ∧ cp_Name p = name) (w_pods w)) with
                  | Some p => inl p | None => inr NotFound end, w)) w.
Definition selected (ns : string) (sel : option labels_Selector) (p : CPod) : bool :=
  bool_decide (cp_Namespace p = ns)
  && match sel with None => true | Some s => sel_Matches s (cp_Labels p) end.
Definition api_ListPods (ns : string) (sel : option labels_Selector) (w : world) : (list CPod + ApiError) * world :=
  call_api (λ w, (inl (filter (λ p, selected ns sel p = true) (w_pods w)), w)) w.
Definition api_UpdateObj (cb : resource) (w : world) : (resource + ApiError) * world :=
  call_api (λ w, match w_obj w with
    | None => (inr NotFound, w)
    | Some cur =>
        let new := with_status (o_Status cur) cb in
        (inl new, with_obj (if decide (o_DeletionTimestamp cb ≠ None ∧ o_Finalizers cb = []) then None
                            else Some new) w)
    end) w.
Definition api_UpdateStatus (cb : resource) (w : world) : (resource + ApiError) * world :=
  call_api (λ w, match w_obj w with
    | None => (inr NotFound, w)
    | Some cur => let new := with_status (o_Status cb) cur in (inl new, with_obj (Some new) w)
    end) w.

(** ** Calls to the proxies *)

Definition SendConfig (ip : string) (m : message) (w : world) : rpc * world :=
  match net (w_rpcs w), w_proxies w !! ip with
  | Some (e, false), _ => (RpcError e, after_rpc (w_proxies w) w)
  | _, None => (RpcError "connection refused", after_rpc (w_proxies w) w)
  | Some (e, true), Some p => (RpcError e, after_rpc (<[ip := (serve m p).2]> (w_proxies w)) w)
  | None, Some p => ((serve m p).1, after_rpc (<[ip := (serve m p).2]> (w_proxies w)) w)
  end.

(** [syncPodConfig]: the snapshots of the proxy, or the error. *)
Definition syncPodConfig (name : string) (cb : message) (podIp : string) (w : world)
    : (list wire_snapshot + string) * world :=
  match SendConfig podIp (as_update cb) w with
  | (RpcError e, w) => (inr e, w)
  | (RpcResponse None, w) =>
      (inr ("fail to update pod [" +:+ podIp +:+ ", " +:+ name +:+ "] " +:+ noun +:+
            " config, server return nil response"), w)
  | (RpcResponse (Some resp), w) =>
      if r_Success resp then (inl (r_Snapshots resp), acked podIp (as_update cb) w)
      else (inr ("fail to update pod [" +:+ podIp +:+ ", " +:+ name +:+ "] " +:+ noun +:+
                 " config, " +:+ r_Message resp), w)
  end.

(** [disableConfig]: a nil response counts as success. *)
Definition disableConfig (podIp name : string) (w : world) : option string * world :=
  let m := delete_request name in
  match SendConfig podIp m w with
  | (RpcError e, w) => (Some e, w)
  | (RpcResponse (Some resp), w) =>
      if r_Success resp then (None, acked podIp m w)
      else (Some ("fail to disable pod [" +:+ podIp +:+ ", " +:+ name +:+ "] " +:+ noun +:+
                  " config, " +:+ r_Message resp), w)
  | (RpcResponse None, w) => (None, acked podIp m w)
  end.

(** ** Withdrawing a configuration ([clear], [tryClearOrAddFinalizer]) *)

Definition clear1 (cb : resource) (x : list error * world) (st : TargetStatus) : list error * world :=
  let '(errs, w) := x in
  if negb (cache_Has (w_cache w) (o_Namespace cb) (ts_PodName st) (o_Name cb)) then (errs, w) else
  match api_GetPod (o_Namespace cb) (ts_PodName st) w with
  | (inr NotFound, w) =>
      (errs, with_cache (cache_Delete (w_cache w) (o_Namespace cb) (ts_PodName st) [o_Name cb]) w)
  | (inr e, w) => (errs ++ [EApi e], w)
  | (inl po, w) =>
      if negb (isProxyAvailable po) then (errs, w) else
      match disableConfig (ts_PodIP st) (o_Name cb) w with
      | (Some e, w) => (errs ++ [EMsg e], w)
      | (None, w) =>
          (errs, with_cache (cache_Delete (w_cache w) (o_Namespace cb) (ts_PodName st) [o_Name cb]) w)
      end
  end.
Definition clearConfig (cb : resource) (w : world) : list error * world :=
  fold_left (clear1 cb) (TargetStatuses (o_Status cb)) ([], w).

Definition disabledByLabel (cb : resource) : bool := bool_decide (is_Some (o_Labels cb !! DisableKey)).

Definition removeFinalizer (cb : resource) (w : world) : list error * world :=
  match api_UpdateObj (RemoveFinalizer cb) w with
  | (inr e, w) => ([EApi e], w)
  | (inl _, w) => ([], w)
  end.

(** [tryClearOrAddFinalizer]: whether the resource is being withdrawn, the
    error, and the resource as it is in memory afterwards. *)
Definition tryClearOrAddFinalizer (cb : resource) (w : world) : bool * list error * resource * world :=
  if negb (disabledByLabel cb || bool_decide (o_DeletionTimestamp cb ≠ None)) then
    if ContainsFinalizer cb then (false, [], cb, w) else
    let cb := with_finalizers (o_Finalizers cb ++ [ProtectFinalizer]) cb in
    match api_UpdateObj cb w with
    | (inr e, w) => (false, [EApi e], cb, w)
    | (inl cb, w) => (false, [], cb, w)
    end
  else if negb (ContainsFinalizer cb) then (true, [], cb, w) else
  match clearConfig cb w with
  | ([], w) =>
      if decide (TargetStatuses (o_Status cb) = []) then
        let '(errs, w) := removeFinalizer cb w in (true, errs, cb, w)
      else
        let cb := with_status (mkConfigStatus (o_Generation cb) (Some api_now) EmptyString []) cb in
        match api_UpdateStatus cb w with
        | (inr e, w) => (true, [EApi e], cb, w)
        | (inl cb, w) => let '(errs, w) := removeFinalizer cb w in (true, errs, cb, w)
        end
  | (errs, w) => (true, errs, cb, w)
  end.

(** ** Pushing a configuration ([Reconcile]) *)

Record progress := mkProgress { pg_status : list TargetStatus; pg_errs : list error; pg_world : world }.

Definition syncPod1 (cb : resource) (protoCb : message) (x : progress) (po : CPod) : progress :=
  let '(mkProgress sts errs w) := x in
  if negb (hasProxyContainer po) then x else
  let currentHash := match currentPodStatus cb (cp_Name po) with Some st => ts_ConfigHash st | None => EmptyString end in
  if negb (isProxyAvailable po) then
    let w := with_cache (cache_Delete (w_cache w) (cp_Namespace po) (cp_Name po) []) w in
    let msg := "pod " +:+ KeyFunc po +:+ " is not available to sync circuit breaker proto" in
    mkProgress (sts ++ [mkTarget (cp_Name po) (cp_PodIP po) currentHash msg (ConvertSnapshots [])]) errs w
  else match syncPodConfig (o_Name cb) protoCb (cp_PodIP po) w with
  | (inr e, w) =>
      mkProgress (sts ++ [mkTarget (cp_Name po) (cp_PodIP po) currentHash e (ConvertSnapshots [])])
        (errs ++ [EMsg e]) w
  | (inl snapshots, w) =>
      let w := with_cache (cache_Add (w_cache w) (cp_Namespace po) (cp_Name po) (o_Name cb)) w in
      mkProgress (sts ++ [mkTarget (cp_Name po) (cp_PodIP po) (ConfigHash protoCb) EmptyString
                            (ConvertSnapshots snapshots)]) errs w
  end.

(** The targets of the previous status that were not visited; [pg_status]
    collects those that could not be withdrawn. *)
Definition withdraw1 (cb : resource) (newTargets : list string) (x : progress) (st : TargetStatus) : progress :=
  let '(mkProgress failed errs w) := x in
  if decide (ts_PodName st ∈ newTargets) then x else
  match api_GetPod (o_Namespace cb) (ts_PodName st) w with
  | (inr NotFound, w) => mkProgress failed errs w
  | (inr e, w) => mkProgress (failed ++ [st]) (errs ++ [EApi e]) w
  | (inl po, w) =>
      if negb (isProxyAvailable po) then
        mkProgress failed errs (with_cache (cache_Delete (w_cache w) (cp_Namespace po) (cp_Name po) []) w)
      else match disableConfig (ts_PodIP st) (o_Name cb) w with
      | (Some e, w) => mkProgress (failed ++ [st]) (errs ++ [EMsg e]) w
      | (None, w) =>
          mkProgress failed errs
            (with_cache (cache_Delete (w_cache w) (o_Namespace cb) (cp_Name po) [o_Name cb]) w)
      end
  end.

Record ctrl_result := mkResult { RequeueAfter_ : Z; reconcileErr : list error }.
Definition defaultRequeueTime : Z := 60000000000.
(** The deferred function: requeue a reconcile without error. *)
Definition deferred (errs : list error) : ctrl_result :=
  mkResult (if decide (errs = []) then defaultRequeueTime else 0%Z) errs.

(** The part of [Reconcile] after the finalizer. *)
Definition reconcileTargets (cb : resource) (w : world) : ctrl_result * world :=
  let selector := LabelSelectorAsSelector (o_Selector cb) in
  match api_ListPods (o_Namespace cb) selector w with
  | (inr e, w) => (deferred [EApi e], w)
  | (inl pods, w) =>
      let protoCb := Convert (o_Name cb) (o_Spec cb) in
      let synced := fold_left (syncPod1 cb protoCb) pods (mkProgress [] [] w) in
      let targetStatus := pg_status synced in
      let rest := fold_left (withdraw1 cb (ts_PodName <$> targetStatus)) (TargetStatuses (o_Status cb))
                    (mkProgress [] (pg_errs synced) (pg_world synced)) in
      let status := mkConfigStatus (o_Generation cb) None (ConfigHash protoCb)
                      (targetStatus ++ pg_status rest) in
      if decide (CurrentSpecHash status = CurrentSpecHash (o_Status cb)
                 ∧ TargetStatuses status = TargetStatuses (o_Status cb))
      then (deferred (pg_errs rest), pg_world rest)
      else match api_UpdateStatus (with_status status cb) (pg_world rest) with
           | (inr e, w) => (deferred (pg_errs rest ++ [EApi e]), w)
           | (inl _, w) => (deferred (pg_errs rest), w)
           end
  end.

Definition Reconcile (w : world) : ctrl_result * world :=
  match api_Get w with
  | (inr NotFound, w) => (mkResult 0 [], w)
  | (inr e, w) => (mkResult 0 [EApi e], w)
  | (inl cb, w) =>
      match tryClearOrAddFinalizer cb w with
      | (true, errs, _, w) => (mkResult 0 errs, w)
      | (false, [], cb, w) => reconcileTargets cb w
      | (false, errs, _, w) => (mkResult 0 errs, w)
      end
  end.
End controller.

(** ** The cache *)

Lemma cacheKey_inj ns a b : cacheKey ns a = cacheKey ns b → a = b.
Proof.
  unfold cacheKey. induction ns as [|c ns IH]; simpl; [by intros [=]|]. intros [= Hs]. by apply IH.
Qed.

Lemma cache_Delete_other c ns a b l n :
  b ≠ a → cache_Has (cache_Delete c ns a l) ns b n = cache_Has c ns b n.
Proof.
  intros Hne. assert (cacheKey ns a ≠ cacheKey ns b) as Hk by (by intros ?%cacheKey_inj).
  unfold cache_Has, cache_Delete. destruct l; [by rewrite lookup_delete_ne|].
  destruct (c !! cacheKey ns a); [|done]. by rewrite lookup_insert_ne.
Qed.

Lemma cache_Delete_gone c ns a n : cache_Has (cache_Delete c ns a [n]) ns a n = false.
Proof.
  unfold cache_Has, cache_Delete. destruct (c !! cacheKey ns a) as [s|] eqn:Hs.
  - rewrite lookup_insert_eq. apply bool_decide_eq_false. set_solver.
  - by rewrite Hs.
Qed.

Lemma cache_Add_has c ns a n : cache_Has (cache_Add c ns a n) ns a n = true.
Proof.
  unfold cache_Has, cache_Add. destruct (c !! cacheKey ns a) as [s|];
    rewrite lookup_insert_eq; apply bool_decide_eq_true; set_solver.
Qed.

(** ** Withdrawal, whatever fails *)

Definition find_pod (pods : list CPod) (ns name : string) : option CPod :=
  head (filter (λ p, cp_Namespace p = ns ∧ cp_Name p = name) pods).

Lemma find_pod_Some pods ns name po :
  find_pod pods ns name = Some po → po ∈ pods ∧ cp_Namespace po = ns ∧ cp_Name po = name.
Proof.
  unfold find_pod. intros Hh. assert (po ∈ filter (λ p, cp_Namespace p = ns ∧ cp_Name p = name) pods) as Hin.
  { destruct (filter _ _); simplify_eq/=. by left. }
  apply list_elem_of_filter in Hin. tauto.
Qed.

Section withdrawal.
Context {K : Kind} {R : Remote} `{Network} `{ApiServer} `{AsSelector}.
Implicit Types (w : world) (cb : resource).

(** What no call to a proxy changes, and how the acknowledgements grow. *)
Record same_cluster w w' : Prop := {
  sc_obj : w_obj w' = w_obj w;
  sc_pods : w_pods w' = w_pods w;
  sc_acked : w_acked w `prefix_of` w_acked w';
}.
#[global] Instance same_cluster_po : PreOrder same_cluster.
Proof.
  split; [by intros w; split|]. intros a b c [] []. split; try congruence. by etrans.
Qed.

Lemma SendConfig_same ip m w : same_cluster w (SendConfig ip m w).2.
Proof. unfold SendConfig. by destruct (net (w_rpcs w)) as [[e []]|], (w_proxies w !! ip). Qed.

Lemma acked_same ip m w : same_cluster w (acked ip m w).
Proof. split; [done..|]. by apply prefix_app_r. Qed.

Lemma tick_api_same w : same_cluster w (tick_api w).
Proof. done. Qed.
Lemma with_cache_same c w : same_cluster w (with_cache c w).
Proof. done. Qed.

Lemma disableConfig_same ip n w : same_cluster w (disableConfig ip n w).2.
Proof.
  unfold disableConfig. pose proof (SendConfig_same ip (delete_request n) w) as Hs.
  destruct (SendConfig ip (delete_request n) w) as [[e|[r|]] w1]; simpl in *; [done| |].
  - destruct (r_Success r); [|done]. etrans; [exact Hs|apply acked_same].
  - etrans; [exact Hs|apply acked_same].
Qed.

(** Success of [disableConfig] is recorded, and leaves the cache alone. *)
Lemma disableConfig_acked ip n w w' :
  disableConfig ip n w = (None, w') → (ip, delete_request n) ∈ w_acked w'.
Proof.
  unfold disableConfig. destruct (SendConfig ip (delete_request n) w) as [[e|[r|]] w1]; [done| |].
  - destruct (r_Success r); [|done]. intros [= <-]. apply elem_of_app. right. by left.
  - intros [= <-]. apply elem_of_app. right. by left.
Qed.

Lemma disableConfig_cache ip n w : w_cache (disableConfig ip n w).2 = w_cache w.
Proof.
  unfold disableConfig, SendConfig. destruct (net (w_rpcs w)) as [[e []]|], (w_proxies w !! ip) as [p|]; try done.
  destruct ((serve (delete_request n) p).1) as [|[r|]]; try done. by destruct (r_Success r).
Qed.

Lemma api_GetPod_spec ns name w :
  (api_GetPod ns name w).2 = tick_api w ∧
  ((api_GetPod ns name w).1 = inr NotFound → api_fails (w_calls w) = None → find_pod (w_pods w) ns name = None) ∧
  ∀ po, (api_GetPod ns name w).1 = inl po → find_pod (w_pods w) ns name = Some po.
Proof.
  unfold api_GetPod, call_api, find_pod. destruct (api_fails (w_calls w)) as [e|]; simpl;
    [|destruct (head _)]; split_and!; try done; intros; congruence.
Qed.
End withdrawal.

(** ** The finalizer *)

Section finalizer.
Context {K : Kind} {R : Remote} `{Network} `{ApiServer} `{AsSelector}.
Implicit Types (w : world) (cb : resource).

(** What became of a target: its pod is gone or its proxy down, or the proxy
    confirmed the withdrawal. *)
Definition settled w w' cb (st : TargetStatus) : Prop :=
  find_pod (w_pods w) (o_Namespace cb) (ts_PodName st) = None ∨
  (∃ po, find_pod (w_pods w) (o_Namespace cb) (ts_PodName st) = Some po ∧ isProxyAvailable po = false) ∨
  (ts_PodIP st, delete_request (o_Name cb)) ∈ w_acked w'.

Definition cached w cb (st : TargetStatus) : Prop :=
  cache_Has (w_cache w) (o_Namespace cb) (ts_PodName st) (o_Name cb) = true.

Lemma clear1_spec cb errs w st errs' w' :
  (∀ n, api_fails n ≠ Some NotFound) →
  clear1 cb (errs, w) st = (errs', w') →
  same_cluster w w' ∧
  (∃ e, errs' = errs ++ e ∧ (e = [] → cached w cb st → settled w w' cb st)) ∧
  (∀ st', ts_PodName st' ≠ ts_PodName st → cached w' cb st' ↔ cached w cb st').
Proof.
  intros Hnf. unfold clear1, cached. destruct (cache_Has (w_cache w) _ _ _) eqn:Hc; simpl.
  2:{ intros [= <- <-]. split; [done|]. split; [exists []; split; [by rewrite app_nil_r|congruence]|done]. }
  destruct (api_GetPod_spec (o_Namespace cb) (ts_PodName st) w) as (Hw & Hno & Hyes).
  destruct (api_GetPod (o_Namespace cb) (ts_PodName st) w) as [[po|e] w1] eqn:Hg; simpl in *; subst w1.
  - specialize (Hyes po eq_refl). destruct (isProxyAvailable po) eqn:Ha; simpl.
    2:{ intros [= <- <-]. split; [done|]. split; [|done]. exists []. rewrite app_nil_r. split; [done|].
        intros _ _. right; left. by exists po. }
    pose proof (disableConfig_same (ts_PodIP st) (o_Name cb) (tick_api w)) as Hs.
    pose proof (disableConfig_cache (ts_PodIP st) (o_Name cb) (tick_api w)) as Hca.
    destruct (disableConfig (ts_PodIP st) (o_Name cb) (tick_api w)) as [[e|] w1] eqn:Hd; simpl in *.
    + intros [= <- <-]. split; [by etrans; [apply tick_api_same|]|]. split; [by exists [EMsg e]|].
      intros st' Hne. simpl. by rewrite Hca.
    + intros [= <- <-]. split; [etrans; [apply tick_api_same|]; by etrans; [exact Hs|]|]. split.
      * exists []. rewrite app_nil_r. split; [done|]. intros _ _. right; right. exact (disableConfig_acked _ _ _ _ Hd).
      * intros st' Hne. simpl. by rewrite cache_Delete_other, Hca.
  - destruct e as [| |msg]; intros [= <- <-].
    + split; [done|]. split.
      * exists []. rewrite app_nil_r. split; [done|]. intros _ _. left. apply Hno; [done|].
        destruct (api_fails (w_calls w)) eqn:Hf; [|done]. unfold api_GetPod, call_api in Hg. rewrite Hf in Hg.
        simplify_eq/=. by destruct (Hnf (w_calls w)).
      * intros st' Hne. simpl. by rewrite cache_Delete_other.
    + split; [done|]. split; [by exists [EApi AlreadyExists]|done].
    + split; [done|]. split; [by exists [EApi (ApiFailure msg)]|done].
Qed.

Lemma settled_mono w w1 w' cb st :
  w_acked w1 `prefix_of` w_acked w' → settled w w1 cb st → settled w w' cb st.
Proof.
  intros Hp [?|[?|Ha]]; [by left|by right; left|right; right].
  destruct Hp as [l ->]. apply elem_of_app. by left.
Qed.

Lemma settled_from w w1 w' cb st : same_cluster w w1 → settled w1 w' cb st → settled w w' cb st.
Proof. intros [_ Hp _]. unfold settled. by rewrite Hp. Qed.

Lemma clear_fold_spec cb sts errs w errs' w' :
  (∀ n, api_fails n ≠ Some NotFound) → NoDup (ts_PodName <$> sts) →
  fold_left (clear1 cb) sts (errs, w) = (errs', w') →
  same_cluster w w' ∧ errs `prefix_of` errs' ∧
  (errs' = errs → ∀ st, st ∈ sts → cached w cb st → settled w w' cb st).
Proof.
  intros Hnf. revert errs w; induction sts as [|st sts IH]; intros errs w; cbn [fold_left fmap list_fmap].
  { intros _ [= <- <-]. split_and!; [done..|]. intros _ st []%elem_of_nil. }
  intros [Hst Hnd]%NoDup_cons. destruct (clear1 cb (errs, w) st) as [e1 w1] eqn:Hc1.
  destruct (clear1_spec _ _ _ _ _ _ Hnf Hc1) as (Hs1 & (e & -> & Hset) & Hcache). intros Hf.
  destruct (IH _ _ Hnd Hf) as (Hs & Hpre & Hrest). split_and!; [by etrans|by eapply prefix_app_l|].
  intros ->. destruct e as [|x e].
  2:{ exfalso. destruct Hpre as [k Hk]. apply (f_equal length) in Hk. rewrite !length_app in Hk. simpl in Hk. lia. }
  rewrite app_nil_r in Hrest. intros st' [->|Hin]%elem_of_cons Hc.
  - eapply settled_mono; [apply Hs|]. by apply Hset.
  - eapply settled_from; [exact Hs1|]. apply Hrest; [done|done|]. apply Hcache; [|done].
    intros Heq. apply Hst. apply list_elem_of_fmap. by exists st'.
Qed.

Lemma api_calls_acked cb w :
  w_acked (api_UpdateObj cb w).2 = w_acked w ∧ w_acked (api_UpdateStatus cb w).2 = w_acked w.
Proof.
  unfold api_UpdateObj, api_UpdateStatus, call_api.
  destruct (api_fails _); simpl; [done|]. by destruct (w_obj w).
Qed.

Lemma removeFinalizer_acked cb w : w_acked (removeFinalizer cb w).2 = w_acked w.
Proof.
  unfold removeFinalizer. destruct (api_calls_acked (RemoveFinalizer cb) w) as [Ha _].
  by destruct (api_UpdateObj _ _) as [[]].
Qed.

(** C11. The finalizer guards the withdrawal, whatever calls fail: if handling
    the resource leaves it without the finalizer (or gone), then it was being
    withdrawn, and every target of its status that the cache knows is settled:
    its pod is gone, or its proxy is not available, or the proxy has confirmed
    the deletion of the configuration. *)
Theorem finalizer_guards_withdrawal cb w withdrawn errs cb' w' :
  (∀ n, api_fails n ≠ Some NotFound) → NoDup (ts_PodName <$> TargetStatuses (o_Status cb)) →
  w_obj w = Some cb → ContainsFinalizer cb = true →
  tryClearOrAddFinalizer cb w = (withdrawn, errs, cb', w') →
  (∀ o, w_obj w' = Some o → ContainsFinalizer o = false) →
  withdrawn = true ∧
  ∀ st, st ∈ TargetStatuses (o_Status cb) → cached w cb st → settled w w' cb st.
Proof.
  intros Hnf Hnd Hobj Hfin. unfold tryClearOrAddFinalizer. rewrite Hfin. simpl.
  destruct (disabledByLabel cb || _); simpl.
  2:{ intros [= <- <- <- <-] Hno. specialize (Hno cb Hobj). congruence. }
  destruct (clearConfig cb w) as [e1 w1] eqn:Hclear.
  destruct (clear_fold_spec _ _ _ _ _ _ Hnf Hnd Hclear) as (Hs & _ & Hset).
  destruct e1 as [|e e1].
  2:{ intros [= <- <- <- <-] Hno. rewrite (sc_obj _ _ Hs) in Hno. specialize (Hno cb Hobj). congruence. }
  assert (Hk : ∀ w2, w_acked w2 = w_acked w1 →
    ∀ st, st ∈ TargetStatuses (o_Status cb) → cached w cb st → settled w w2 cb st).
  { intros w2 Ha st Hin Hc. eapply settled_mono; [|by apply Hset]. by rewrite Ha. }
  case_decide.
  - pose proof (removeFinalizer_acked cb w1) as Hr. destruct (removeFinalizer cb w1) as [e2 w2].
    intros [= <- <- <- <-] _. split; [done|by apply Hk].
  - destruct (api_calls_acked (with_status (mkConfigStatus (o_Generation cb) (Some api_now) EmptyString []) cb) w1)
      as [_ Ha]. destruct (api_UpdateStatus _ w1) as [[cb2|e2] w2]; simpl in Ha.
    + pose proof (removeFinalizer_acked cb2 w2) as Hr. destruct (removeFinalizer cb2 w2) as [e3 w3].
      intros [= <- <- <- <-] _. split; [done|]. apply Hk. simpl in Hr. congruence.
    + intros [= <- <- <- <-] _. split; [done|by apply Hk].
Qed.

Lemma clear_uncached cb w : w_cache w = ∅ → clearConfig cb w = ([], w).
Proof.
  intros Hc. unfold clearConfig. induction (TargetStatuses (o_Status cb)) as [|st sts IH]; [done|].
  cbn [fold_left]. replace (clear1 cb ([], w) st) with (@nil error, w); [done|].
  unfold clear1, cache_Has. rewrite Hc, lookup_empty. done.
Qed.

Lemma api_calls_proxies cb w :
  (w_proxies (api_UpdateObj cb w).2 = w_proxies w ∧ w_rpcs (api_UpdateObj cb w).2 = w_rpcs w) ∧
  (w_proxies (api_UpdateStatus cb w).2 = w_proxies w ∧ w_rpcs (api_UpdateStatus cb w).2 = w_rpcs w).
Proof.
  unfold api_UpdateObj, api_UpdateStatus, call_api.
  destruct (api_fails _); simpl; [done|]. by destruct (w_obj w).
Qed.

(** The cache is the memory of one process.  With an empty cache, as after
    a restart, handling a deleted resource calls no proxy: the finalizer goes
    when the API calls succeed, and the proxies keep the configuration. *)
Theorem restart_loses_withdrawal cb w :
  w_cache w = ∅ → disabledByLabel cb || bool_decide (o_DeletionTimestamp cb ≠ None) = true →
  w_obj w = Some cb → (∀ n, api_fails n = None) →
  ∃ cb' w', tryClearOrAddFinalizer cb w = (true, [], cb', w') ∧
    w_proxies w' = w_proxies w ∧ w_rpcs w' = w_rpcs w ∧
    (∀ o, w_obj w' = Some o → ContainsFinalizer o = false).
Proof.
  intros Hc Hd Hobj Hapi. unfold tryClearOrAddFinalizer. rewrite Hd. simpl.
  destruct (ContainsFinalizer cb) eqn:Hf; simpl.
  2:{ eexists _, _. split_and!; [done..|]. intros o. rewrite Hobj. by intros [= <-]. }
  rewrite clear_uncached by done.
  assert (Hgone : ∀ o : resource, ContainsFinalizer (RemoveFinalizer o) = false).
  { intros o. apply bool_decide_eq_false. simpl. intros []%list_elem_of_filter. done. }
  case_decide; unfold removeFinalizer, api_UpdateObj, api_UpdateStatus, call_api; rewrite !Hapi; simpl; rewrite Hobj; simpl.
  - eexists _, _. split_and!; [done..|]. intros o. simpl. case_decide; [done|]. intros [= <-]. apply Hgone.
  - rewrite Hapi. simpl. eexists _, _. split_and!; [done..|]. intros o. simpl. case_decide; [done|].
    intros [= <-]. apply Hgone.
Qed.
End finalizer.

(** ** Convergence without faults *)

Section convergence.
Context {K : Kind} {R : Remote} {L : RemoteLaws} `{Network} `{ApiServer} `{AsSelector}.
Context (net_ok : ∀ n, net n = None) (api_ok : ∀ n, api_fails n = None).
Implicit Types (w : world) (cb : resource).

(** The hash under which the proxy at an address has a configuration. *)
Definition cfg w (name ip : string) : option (option string) :=
  (λ p, configs p !! name) <$> w_proxies w !! ip.
Definition all_ok w : Prop := map_Forall (λ _ p, proxy_ok p) (w_proxies w).
(** A proxy answers at the address. *)
Definition up w (ip : string) : Prop := is_Some (w_proxies w !! ip).

(** The world afterwards, when the configurations [name] at the addresses
    [ips] have become [v] and nothing else has changed on the proxies. *)
Record wrote w w' (name : string) (ips : list string) (v : option string) : Prop := {
  wr_obj : w_obj w' = w_obj w;
  wr_pods : w_pods w' = w_pods w;
  wr_ok : all_ok w';
  wr_up ip : up w' ip ↔ up w ip;
  wr_hit ip : ip ∈ ips → cfg w' name ip = Some v;
  wr_miss n ip : n ≠ name ∨ ip ∉ ips → cfg w' n ip = cfg w n ip;
}.

Lemma wrote_refl w name v : all_ok w → wrote w w name [] v.
Proof. intros Hok. split; try done. by intros ip ?%elem_of_nil. Qed.

Lemma wrote_trans w1 w2 w3 name l k v :
  wrote w1 w2 name l v → wrote w2 w3 name k v → wrote w1 w3 name (l ++ k) v.
Proof.
  intros [] []. split; try congruence; try done.
  - intros ip. by rewrite wr_up1.
  - intros ip Hip. destruct (decide (ip ∈ k)); [by apply wr_hit1|].
    rewrite wr_miss1 by auto. apply wr_hit0. apply elem_of_app in Hip. tauto.
  - intros n ip Hn. rewrite elem_of_app in Hn. rewrite wr_miss1, wr_miss0; [done|tauto|tauto].
Qed.

(** The world up to the cache and the counters. *)
Lemma wrote_same w w1 w2 name ips v :
  wrote w w1 name ips v → w_obj w2 = w_obj w1 → w_pods w2 = w_pods w1 → w_proxies w2 = w_proxies w1 →
  wrote w w2 name ips v.
Proof.
  intros [] Ho Hp Hx. unfold all_ok, up, cfg in *. split; unfold all_ok, up, cfg; rewrite ?Hx; try done; congruence.
Qed.

Lemma SendConfig_ok ip m w p :
  w_proxies w !! ip = Some p →
  SendConfig ip m w = ((serve m p).1, after_rpc (<[ip := (serve m p).2]> (w_proxies w)) w).
Proof. intros Hp. unfold SendConfig. by rewrite net_ok, Hp. Qed.

Lemma after_rpc_wrote w ip p p' name v :
  all_ok w → w_proxies w !! ip = Some p → proxy_ok p' →
  configs p' = partial_alter (λ _, v) name (configs p) →
  wrote w (after_rpc (<[ip := p']> (w_proxies w)) w) name [ip] v.
Proof.
  intros Hok Hp Hp' Hc. split; unfold up, cfg; simpl; [done..| | | |].
  - by apply map_Forall_insert_2.
  - intros ip'. destruct (decide (ip' = ip)) as [->|]; [rewrite lookup_insert_eq, Hp; split; by eexists|].
    by rewrite lookup_insert_ne.
  - intros ip' ->%list_elem_of_singleton. rewrite lookup_insert_eq. simpl. by rewrite Hc, lookup_partial_alter_eq.
  - intros n ip' Hn. destruct (decide (ip' = ip)) as [->|]; [|by rewrite lookup_insert_ne].
    rewrite lookup_insert_eq, Hp. simpl. f_equal. rewrite Hc. apply lookup_partial_alter_ne.
    destruct Hn as [Hn|Hn]; [done|]. destruct Hn. by left.
Qed.

Lemma disableConfig_ok ip name s w :
  all_ok w → valid name s → up w ip → ∃ w', disableConfig ip name w = (None, w') ∧ wrote w w' name [ip] None.
Proof.
  intros Hok Hv [p Hp]. destruct (serve_delete name s p) as (r & Hr & Hs & Hok' & Hc); [by eapply Hok|done|].
  unfold disableConfig. rewrite (SendConfig_ok _ _ _ _ Hp), Hr, Hs. eexists. split; [done|].
  eapply wrote_same; [by eapply after_rpc_wrote|done..].
Qed.

Lemma syncPodConfig_ok name s ip w :
  all_ok w → valid name s → up w ip →
  ∃ snaps w', syncPodConfig name (Convert name s) ip w = (inl snaps, w') ∧
    wrote w w' name [ip] (Some (ConfigHash (Convert name s))).
Proof.
  intros Hok Hv [p Hp]. destruct (serve_update name s p) as (r & Hr & Hs & Hok' & Hc); [by eapply Hok|done|].
  unfold syncPodConfig. rewrite (SendConfig_ok _ _ _ _ Hp), Hr, Hs. eexists _, _. split; [done|].
  eapply wrote_same; [by eapply after_rpc_wrote|done..].
Qed.

Definition pushed (po : CPod) : bool := hasProxyContainer po && isProxyAvailable po.

Lemma syncPod1_ok cb po x :
  all_ok (pg_world x) → valid (o_Name cb) (o_Spec cb) → (pushed po = true → up (pg_world x) (cp_PodIP po)) →
  let m := Convert (o_Name cb) (o_Spec cb) in
  let x' := syncPod1 cb m x po in
  pg_errs x' = pg_errs x ∧
  (ts_PodName <$> pg_status x') = (ts_PodName <$> pg_status x) ++ (if hasProxyContainer po then [cp_Name po] else []) ∧
  wrote (pg_world x) (pg_world x') (o_Name cb) (if pushed po then [cp_PodIP po] else []) (Some (ConfigHash m)).
Proof.
  destruct x as [sts errs w]. simpl. intros Hok Hv Hup. unfold pushed in *.
  destruct (hasProxyContainer po); simpl in *.
  2:{ split_and!; [done|by rewrite app_nil_r|by apply wrote_refl]. }
  destruct (isProxyAvailable po); simpl.
  - destruct (syncPodConfig_ok (o_Name cb) (o_Spec cb) (cp_PodIP po) w) as (snaps & w' & -> & Hw); [by auto..|].
    simpl. split_and!; [done|by rewrite fmap_app|]. by eapply wrote_same.
  - split_and!; [done|by rewrite fmap_app|]. by eapply wrote_same; [apply wrote_refl|..].
Qed.

Lemma syncPods_ok cb pods x :
  all_ok (pg_world x) → valid (o_Name cb) (o_Spec cb) →
  (∀ po, po ∈ pods → pushed po = true → up (pg_world x) (cp_PodIP po)) →
  let m := Convert (o_Name cb) (o_Spec cb) in
  let x' := fold_left (syncPod1 cb m) pods x in
  pg_errs x' = pg_errs x ∧
  (ts_PodName <$> pg_status x') =
    (ts_PodName <$> pg_status x) ++ (cp_Name <$> filter (λ po, hasProxyContainer po = true) pods) ∧
  wrote (pg_world x) (pg_world x') (o_Name cb) (cp_PodIP <$> filter (λ po, pushed po = true) pods) (Some (ConfigHash m)).
Proof.
  intros Hok Hv. revert x Hok; induction pods as [|po pods IH]; intros x Hok Hup; simpl.
  { split_and!; [done|by rewrite app_nil_r|by apply wrote_refl]. }
  destruct (syncPod1_ok cb po x) as (He & Hn & Hw); [done|done|apply Hup; by left|].
  destruct (IH (syncPod1 cb (Convert (o_Name cb) (o_Spec cb)) x po)) as (He' & Hn' & Hw').
  { apply Hw. }
  { intros po' Hin Hp. apply Hw. apply Hup; [by right|done]. }
  split_and!; [congruence| |].
  - rewrite Hn', Hn, <-app_assoc, filter_cons. by destruct (hasProxyContainer po).
  - rewrite filter_cons. destruct (pushed po) eqn:Hp.
    + rewrite decide_True by done. exact (wrote_trans _ _ _ _ _ _ _ Hw Hw').
    + rewrite decide_False by congruence. exact (wrote_trans _ _ _ _ _ _ _ Hw Hw').
Qed.

(** The targets that have to be withdrawn from a live proxy. *)
Definition stale_target (pods : list CPod) (ns : string) (newTargets : list string) (st : TargetStatus) : bool :=
  bool_decide (ts_PodName st ∉ newTargets) &&
  match find_pod pods ns (ts_PodName st) with Some po => isProxyAvailable po | None => false end.

Lemma withdraw1_ok cb names x st :
  all_ok (pg_world x) → valid (o_Name cb) (o_Spec cb) →
  (stale_target (w_pods (pg_world x)) (o_Namespace cb) names st = true → up (pg_world x) (ts_PodIP st)) →
  let x' := withdraw1 cb names x st in
  pg_errs x' = pg_errs x ∧ pg_status x' = pg_status x ∧
  wrote (pg_world x) (pg_world x') (o_Name cb)
    (if stale_target (w_pods (pg_world x)) (o_Namespace cb) names st then [ts_PodIP st] else []) None.
Proof.
  destruct x as [failed errs w]. unfold stale_target. simpl. intros Hok Hv Hup.
  case_decide as Hin.
  { rewrite bool_decide_eq_false_2 by tauto. simpl. split_and!; [done..|by apply wrote_refl]. }
  rewrite bool_decide_eq_true_2 in Hup |- * by done. simpl in *.
  unfold api_GetPod, call_api. rewrite api_ok. cbn [w_pods tick_api].
  change (head (filter _ (w_pods w))) with (find_pod (w_pods w) (o_Namespace cb) (ts_PodName st)).
  destruct (find_pod _ _ _) as [po|]; simpl.
  2:{ split_and!; [done..|]. by eapply wrote_same; [apply wrote_refl|..]. }
  destruct (isProxyAvailable po); simpl.
  2:{ split_and!; [done..|]. by eapply wrote_same; [apply wrote_refl|..]. }
  destruct (disableConfig_ok (ts_PodIP st) (o_Name cb) (o_Spec cb) (tick_api w)) as (w' & -> & Hw);
    [done|done|by apply Hup|].
  simpl. split_and!; [done..|]. eapply wrote_same; [|done..].
  destruct Hw. by split.
Qed.

Lemma withdraws_ok cb names sts x :
  all_ok (pg_world x) → valid (o_Name cb) (o_Spec cb) →
  (∀ st, st ∈ sts → stale_target (w_pods (pg_world x)) (o_Namespace cb) names st = true → up (pg_world x) (ts_PodIP st)) →
  let x' := fold_left (withdraw1 cb names) sts x in
  pg_errs x' = pg_errs x ∧ pg_status x' = pg_status x ∧
  wrote (pg_world x) (pg_world x') (o_Name cb)
    (ts_PodIP <$> filter (λ st, stale_target (w_pods (pg_world x)) (o_Namespace cb) names st = true) sts) None.
Proof.
  revert x; induction sts as [|st sts IH]; intros x Hok Hv Hup; simpl.
  { split_and!; [done..|by apply wrote_refl]. }
  destruct (withdraw1_ok cb names x st) as (He & Hn & Hw); [done|done|apply Hup; by left|].
  pose proof (wr_pods _ _ _ _ _ Hw) as Hpods.
  destruct (IH (withdraw1 cb names x st)) as (He' & Hn' & Hw').
  { apply Hw. }
  { done. }
  { intros st' Hin Hp. apply Hw. apply Hup; [by right|by rewrite <-Hpods]. }
  rewrite Hpods in Hw'. split_and!; [congruence..|].
  rewrite filter_cons. destruct (stale_target _ _ _ st) eqn:Hp.
  - rewrite decide_True by done. exact (wrote_trans _ _ _ _ _ _ _ Hw Hw').
  - rewrite decide_False by congruence. exact (wrote_trans _ _ _ _ _ _ _ Hw Hw').
Qed.

Lemma tryAdd_ok cb w :
  w_obj w = Some cb → disabledByLabel cb = false → o_DeletionTimestamp cb = None →
  ∃ cb1 w1, tryClearOrAddFinalizer cb w = (false, [], cb1, w1) ∧ w_obj w1 = Some cb1 ∧
    ContainsFinalizer cb1 = true ∧ (∃ fin, cb1 = with_finalizers fin cb) ∧
    w_pods w1 = w_pods w ∧ w_proxies w1 = w_proxies w.
Proof.
  intros Ho Hd Hdel. unfold tryClearOrAddFinalizer. rewrite Hd, Hdel. simpl.
  destruct (ContainsFinalizer cb) eqn:Hf.
  { exists cb, w. split_and!; try done. exists (o_Finalizers cb). by destruct cb. }
  unfold api_UpdateObj, call_api. rewrite api_ok. simpl. rewrite Ho. simpl.
  eexists _, _. split_and!; [done| | | |done..].
  - simpl. rewrite Hdel. done.
  - apply bool_decide_eq_true. simpl. apply elem_of_app. right. by left.
  - eexists. unfold with_status. simpl. by destruct cb.
Qed.

(** What a fault-free round over the targets achieves. *)
Definition converged w w' cb : Prop :=
  let hash := ConfigHash (Convert (o_Name cb) (o_Spec cb)) in
  let pods := filter (λ p, selected (o_Namespace cb) (LabelSelectorAsSelector (o_Selector cb)) p = true) (w_pods w) in
  let names := cp_Name <$> filter (λ po, hasProxyContainer po = true) pods in
  all_ok w' ∧
  (∀ po, po ∈ pods → pushed po = true → cfg w' (o_Name cb) (cp_PodIP po) = Some (Some hash)) ∧
  (∀ st, st ∈ TargetStatuses (o_Status cb) → stale_target (w_pods w) (o_Namespace cb) names st = true →
     cfg w' (o_Name cb) (ts_PodIP st) = Some None) ∧
  (∀ n ip, n ≠ o_Name cb → cfg w' n ip = cfg w n ip) ∧
  ∃ o, w_obj w' = Some o ∧ o_Finalizers o = o_Finalizers cb ∧ CurrentSpecHash (o_Status o) = hash ∧
    (ts_PodName <$> TargetStatuses (o_Status o)) = names.

(** Addresses are current: available pods have proxies at distinct addresses,
    and the recorded address of a pod is the one it has. *)
Definition addresses_current w cb : Prop :=
  (∀ po, po ∈ w_pods w → isProxyAvailable po = true → up w (cp_PodIP po)) ∧
  (∀ po po', po ∈ w_pods w → po' ∈ w_pods w → isProxyAvailable po = true → isProxyAvailable po' = true →
     cp_PodIP po = cp_PodIP po' → po = po') ∧
  (∀ st po, st ∈ TargetStatuses (o_Status cb) → find_pod (w_pods w) (o_Namespace cb) (ts_PodName st) = Some po →
     isProxyAvailable po = true → ts_PodIP st = cp_PodIP po).

Lemma stale_available pods ns names st :
  stale_target pods ns names st = true →
  (ts_PodName st ∉ names) ∧ ∃ po, find_pod pods ns (ts_PodName st) = Some po ∧ isProxyAvailable po = true.
Proof.
  unfold stale_target. rewrite andb_true_iff, bool_decide_eq_true. intros [? Hf].
  split; [done|]. destruct (find_pod _ _ _) as [po|]; [by exists po|done].
Qed.

Lemma reconcileTargets_ok cb w :
  w_obj w = Some cb → valid (o_Name cb) (o_Spec cb) → all_ok w → addresses_current w cb →
  ∃ w', reconcileTargets cb w = (mkResult defaultRequeueTime [], w') ∧ converged w w' cb.
Proof.
  intros Ho Hv Hok (Hup & Hdist & Hcur). unfold reconcileTargets, api_ListPods, call_api. rewrite api_ok.
  cbn [w_pods tick_api]. set (sel := LabelSelectorAsSelector (o_Selector cb)).
  set (pods := filter (λ p, selected (o_Namespace cb) sel p = true) (w_pods w)).
  set (m := Convert (o_Name cb) (o_Spec cb)).
  assert (Hpods : ∀ po, po ∈ pods → po ∈ w_pods w) by (by intros po [_ ?]%list_elem_of_filter).
  assert (Hav : ∀ po, pushed po = true → isProxyAvailable po = true) by (by intros po [_ ?]%andb_true_iff).
  destruct (syncPods_ok cb pods (mkProgress [] [] (tick_api w))) as (He & Hn & Hw);
    [done|done|intros po Hin Hp; apply (Hup po); auto|].
  cbv zeta. fold m in He, Hn, Hw |- *. set (synced := fold_left (syncPod1 cb m) pods _) in *.
  set (names := cp_Name <$> filter (λ po, hasProxyContainer po = true) pods) in *. simpl in He, Hn.
  rewrite Hn. pose proof (wr_pods _ _ _ _ _ Hw) as Hp1. simpl in Hp1.
  destruct (withdraws_ok cb names (TargetStatuses (o_Status cb)) (mkProgress [] (pg_errs synced) (pg_world synced)))
    as (He' & Hn' & Hw').
  { apply Hw. }
  { done. }
  { simpl. rewrite Hp1. intros st Hin (_ & po & Hf & Ha)%stale_available. apply Hw.
    rewrite (Hcur st po) by done. apply Hup; [|done]. by apply find_pod_Some in Hf as [? _]. }
  set (rest := fold_left (withdraw1 cb names) _ _) in *. simpl in He', Hn', Hw'. rewrite Hp1 in Hw'.
  rewrite Hn', app_nil_r, He', He.
  assert (Hconv : ∀ w2 o, w_proxies w2 = w_proxies (pg_world rest) → w_obj w2 = Some o →
    o_Finalizers o = o_Finalizers cb → CurrentSpecHash (o_Status o) = ConfigHash m →
    TargetStatuses (o_Status o) = pg_status synced → converged w w2 cb).
  { intros w2 o Hpx Ho2 Hfin Hh Hts. unfold converged. fold sel pods names m.
    assert (Hcfg : ∀ n ip, cfg w2 n ip = cfg (pg_world rest) n ip) by (intros; unfold cfg; by rewrite Hpx).
    split_and!.
    - unfold all_ok. rewrite Hpx. apply (wr_ok _ _ _ _ _ Hw').
    - intros po Hin Hpo. rewrite Hcfg, (wr_miss _ _ _ _ _ Hw').
      + apply (wr_hit _ _ _ _ _ Hw). apply list_elem_of_fmap. exists po. split; [done|by apply list_elem_of_filter].
      + right. intros (st & Hip & [Hst Hin']%list_elem_of_filter)%list_elem_of_fmap.
        apply stale_available in Hst as (Hno & po' & Hf & Ha).
        pose proof (find_pod_Some _ _ _ _ Hf) as (Hin2 & _ & Hname).
        assert (po = po') as <-.
        { apply Hdist; auto. by rewrite Hip, (Hcur st po'). }
        apply Hno. rewrite <-Hname. apply list_elem_of_fmap. exists po. split; [done|].
        apply list_elem_of_filter. split; [|done]. by apply andb_true_iff in Hpo as [? _].
    - intros st Hin Hst. rewrite Hcfg. apply (wr_hit _ _ _ _ _ Hw').
      apply list_elem_of_fmap. exists st. split; [done|by apply list_elem_of_filter].
    - intros n ip Hne. rewrite Hcfg, (wr_miss _ _ _ _ _ Hw') by auto. by rewrite (wr_miss _ _ _ _ _ Hw) by auto.
    - exists o. split_and!; [done..|]. by rewrite Hts, Hn. }
  assert (Hobj : w_obj (pg_world rest) = Some cb).
  { rewrite (wr_obj _ _ _ _ _ Hw'). by rewrite (wr_obj _ _ _ _ _ Hw). }
  case_decide as Hsame.
  - simpl in Hsame. destruct Hsame as [Hh Hts]. eexists. split; [done|]. by apply (Hconv _ cb).
  - unfold api_UpdateStatus, call_api. rewrite api_ok. simpl. rewrite Hobj. simpl.
    eexists. split; [done|]. by eapply Hconv.
Qed.

Lemma Reconcile_reaches cb w :
  w_obj w = Some cb → disabledByLabel cb = false → o_DeletionTimestamp cb = None →
  valid (o_Name cb) (o_Spec cb) → all_ok w → addresses_current w cb →
  ∃ w' cb1, Reconcile w = (mkResult defaultRequeueTime [], w') ∧
    (∃ fin, cb1 = with_finalizers fin cb) ∧ ContainsFinalizer cb1 = true ∧ converged w w' cb1.
Proof.
  intros Ho Hd Hdel Hv Hok Hadd. unfold Reconcile, api_Get, call_api. rewrite api_ok. simpl. rewrite Ho.
  destruct (tryAdd_ok cb (tick_api w)) as (cb1 & w1 & -> & Ho1 & Hf & (fin & ->) & Hp & Hx); [done..|].
  unfold all_ok, addresses_current, up in *. simpl in Hp, Hx.
  destruct (reconcileTargets_ok (with_finalizers fin cb) w1) as (w' & Hr & Hc);
    [done|done|unfold all_ok; by rewrite Hx|unfold addresses_current, up; by rewrite Hp, Hx|].
  exists w', (with_finalizers fin cb). split_and!; [exact Hr|by eexists|done|].
  unfold converged, cfg in *. by rewrite Hp, Hx in Hc.
Qed.

(** C12. Without faults one reconcile reaches the goal.  For a resource that is
    not being withdrawn, with live proxies at current addresses: the reconcile
    ends without error, leaves the proxies well-formed and asks to run again in a minute; every selected pod
    whose proxy is available has the resource's hash; every pod that was a
    target and is no longer selected has the configuration removed; other
    configurations are untouched; the stored resource has the finalizer and
    its status the hash and exactly the selected pods with a proxy. *)
Theorem Reconcile_converges cb w :
  w_obj w = Some cb → disabledByLabel cb = false → o_DeletionTimestamp cb = None →
  valid (o_Name cb) (o_Spec cb) → all_ok w → addresses_current w cb →
  ∃ w' cb1, Reconcile w = (mkResult defaultRequeueTime [], w') ∧
    (∃ fin, cb1 = with_finalizers fin cb) ∧ ContainsFinalizer cb1 = true ∧ converged w w' cb1.
Proof. apply Reconcile_reaches. Qed.
End convergence.

(** ** Events (event_handler.go, filter.go)

    What enqueues a reconcile: changes of pods, and the changes of the
    resource that the predicate lets through. *)

Section events.
Context {K : Kind} `{AsSelector}.

Definition sidecarInjected : CPod → bool := hasProxyContainer.
Definition request (o : resource) : string * string := (o_Namespace o, o_Name o).

(** [effectiveBreakers], [effectiveFaults]: one invalid selector fails all. *)
Fixpoint effective (items : list resource) (po : CPod) : option (list resource) :=
  match items with
  | [] => Some []
  | b :: items' =>
      selector ← LabelSelectorAsSelector (o_Selector b);
      res ← effective items' po;
      Some (if sel_Matches selector (cp_Labels po) then b :: res else res)
  end.
(** [matchChangedBreakers], [matchChangedFaults]. *)
Fixpoint matchChanged (items : list resource) (old new : CPod) : option (list resource) :=
  match items with
  | [] => Some []
  | b :: items' =>
      selector ← LabelSelectorAsSelector (o_Selector b);
      res ← matchChanged items' old new;
      Some (if bool_decide (sel_Matches selector (cp_Labels old) ≠ sel_Matches selector (cp_Labels new))
            then b :: res else res)
  end.
(** The requests added to the queue; an error is logged and adds none. *)
Definition add (items : option (list resource)) : list (string * string) :=
  request <$> default [] items.

(** [listed]: the resources of all namespaces, or the error of the list. *)
Definition pod_Create (listed : option (list resource)) (pod : CPod) : list (string * string) :=
  if negb (sidecarInjected pod) then []
  else if negb (isProxyAvailable pod) then []
  else add (items ← listed; effective items pod).
Definition pod_Update (listed : option (list resource)) (oldPod newPod : CPod) : list (string * string) :=
  if negb (sidecarInjected oldPod) then []
  else if negb (isProxyAvailable newPod) then []
  else if negb (isProxyAvailable oldPod) then add (items ← listed; effective items newPod)
  else add (items ← listed; matchChanged items oldPod newPod).
Definition pod_Delete (c : gmap string (gset string)) (pod : CPod) : gmap string (gset string) :=
  cache_Delete c (cp_Namespace pod) (cp_Name pod) [].

(** [Update] of the predicate. *)
Definition predicate_Update (oldCB newCB : resource) : bool :=
  if decide (o_DeletionTimestamp newCB ≠ None
             ∨ length (o_Finalizers oldCB) ≠ length (o_Finalizers newCB)) then true
  else if decide (o_Labels oldCB !! DisableKey ≠ o_Labels newCB !! DisableKey) then true
  else bool_decide (ConfigHash (Convert (o_Name oldCB) (o_Spec oldCB))
                    ≠ ConfigHash (Convert (o_Name newCB) (o_Spec newCB))).

(** The resource's selector accepts the pod's labels. *)
Definition selects_pod (b : resource) (po : CPod) : bool :=
  match LabelSelectorAsSelector (o_Selector b) with
  | Some s => sel_Matches s (cp_Labels po)
  | None => false
  end.
Definition selectors_valid (items : list resource) : Prop :=
  Forall (λ b, is_Some (LabelSelectorAsSelector (o_Selector b))) items.

Lemma effective_filter items po :
  selectors_valid items → effective items po = Some (filter (λ b, selects_pod b po = true) items).
Proof.
  unfold selects_pod. induction 1 as [|b items [s Hs] _ IH]; [done|]. simpl. rewrite Hs, IH. simpl.
  rewrite filter_cons, Hs. destruct (sel_Matches s (cp_Labels po)); [by rewrite decide_True|by rewrite decide_False].
Qed.
Lemma matchChanged_filter items old new :
  selectors_valid items →
  matchChanged items old new = Some (filter (λ b, selects_pod b old ≠ selects_pod b new) items).
Proof.
  unfold selects_pod. induction 1 as [|b items [s Hs] _ IH]; [done|]. simpl. rewrite Hs, IH. simpl.
  rewrite filter_cons, Hs. case_bool_decide; [by rewrite decide_True|by rewrite decide_False by tauto].
Qed.

(** Which resources a change of a pod enqueues, when the selectors of all
    of them parse: with a proxy container before and an available proxy after
    the change, those that select the pod, if its proxy has just become
    available, and otherwise those whose selection of the pod has changed. *)
Theorem pod_update_enqueues items old new b :
  selectors_valid items → NoDup (request <$> items) → b ∈ items →
  request b ∈ pod_Update (Some items) old new ↔
  sidecarInjected old = true ∧ isProxyAvailable new = true ∧
  (if isProxyAvailable old then selects_pod b old ≠ selects_pod b new else selects_pod b new = true).
Proof.
  intros Hv Hnd Hin. unfold pod_Update, add.
  assert (Hreq : ∀ P `{∀ x, Decision (P x)}, request b ∈ request <$> filter P items ↔ P b).
  { intros P HP. split.
    - intros (b' & Heq & [HPb Hb']%list_elem_of_filter)%list_elem_of_fmap.
      apply list_elem_of_lookup in Hin as [i Hi], Hb' as [j Hj].
      assert (i = j) as <-.
      { eapply NoDup_lookup; [exact Hnd|..]; rewrite list_lookup_fmap; [by rewrite Hi|rewrite Hj; simpl; by rewrite Heq]. }
      by simplify_eq.
    - intros HPb. apply list_elem_of_fmap. exists b. split; [done|]. by apply list_elem_of_filter. }
  destruct (sidecarInjected old); simpl; [|by rewrite elem_of_nil; naive_solver].
  destruct (isProxyAvailable new); simpl; [|by rewrite elem_of_nil; naive_solver].
  destruct (isProxyAvailable old); simpl.
  - rewrite matchChanged_filter by done. simpl. rewrite Hreq. tauto.
  - rewrite effective_filter by done. simpl. rewrite Hreq. tauto.
Qed.

(** One resource whose selector does not parse hides the pod's changes from
    every resource after and before it. *)
Lemma invalid_selector_hides items b old new :
  b ∈ items → LabelSelectorAsSelector (o_Selector b) = None → pod_Update (Some items) old new = [].
Proof.
  intros Hin Hb. assert (He : ∀ po, effective items po = None).
  { intros po. induction items as [|x items IH]; [by apply elem_of_nil in Hin|]. simpl.
    apply elem_of_cons in Hin as [<-|Hin]; [by rewrite Hb|]. rewrite (IH Hin).
    by destruct (LabelSelectorAsSelector (o_Selector x)). }
  assert (Hm : matchChanged items old new = None).
  { clear He. induction items as [|x items IH]; [by apply elem_of_nil in Hin|]. simpl.
    apply elem_of_cons in Hin as [<-|Hin]; [by rewrite Hb|]. rewrite (IH Hin).
    by destruct (LabelSelectorAsSelector (o_Selector x)). }
  unfold pod_Update, add. simpl. rewrite He, Hm. by repeat case_match.
Qed.

(** A change of the selector alone does not pass the predicate. *)
Lemma selector_change_filtered (o : resource) (sel : option LabelSelector) :
  o_DeletionTimestamp o = None →
  predicate_Update o (mkResource (o_Name o) (o_Namespace o) (o_Generation o + 1) (o_Labels o) (o_Finalizers o)
    (o_DeletionTimestamp o) sel (o_Spec o) (o_Status o)) = false.
Proof.
  intros Hd. unfold predicate_Update. simpl. rewrite decide_False, decide_False by naive_solver.
  apply bool_decide_eq_false. tauto.
Qed.
End events.

(** ** Concrete runs

    A kind whose rules are their own hash, and proxies that are maps. *)

Section witness.
Definition demo_kind : Kind := {|
  spec := string; message := string * option string; wire_snapshot := Empty_set; snapshot := Empty_set;
  DisableKey := "disable"; noun := "demo"; Convert n s := (n, Some s);
  ConfigHash m := default EmptyString m.2; as_update m := m; delete_request n := (n, None);
  ConvertSnapshots := id |}.
#[local] Existing Instance demo_kind.

Definition demo_serve (m : string * option string) (p : gmap string string) : rpc * gmap string string :=
  (RpcResponse (Some (mkResponse true EmptyString [])), partial_alter (λ _, m.2) m.1 p).
Definition demo_remote : Remote := {| proxy := gmap string string; serve := demo_serve |}.
#[local] Existing Instance demo_remote.

Lemma demo_serve_update (name s : string) (p : gmap string string) : True → True →
  ∃ r, (demo_serve (name, Some s) p).1 = RpcResponse (Some r) ∧ r_Success r = true ∧ True ∧
    (demo_serve (name, Some s) p).2 = <[name := s]> p.
Proof. intros _ _. eexists. split_and!; [reflexivity..|done|reflexivity]. Qed.
Lemma demo_serve_delete (name s : string) (p : gmap string string) : True → True →
  ∃ r, (demo_serve (name, None) p).1 = RpcResponse (Some r) ∧ r_Success r = true ∧ True ∧
    (demo_serve (name, None) p).2 = delete name p.
Proof. intros _ _. eexists. split_and!; [reflexivity..|done|reflexivity]. Qed.

Definition demo_configs (p : gmap string string) : gmap string string := p.
Definition demo_laws : @RemoteLaws demo_kind demo_remote := {|
  proxy_ok := λ _ : @proxy _ demo_remote, True;
  configs := demo_configs : @proxy _ demo_remote → gmap string string;
  valid := λ _ _, True;
  serve_update := demo_serve_update; serve_delete := demo_serve_delete |}.
#[local] Existing Instances demo_laws no_fault_api everything.
Definition no_network_faults : Network := {| net := λ _, None |}.
#[local] Existing Instance no_network_faults.

Definition demo_cpod (name ip : string) : CPod :=
  mkCPod "ns" name ∅ ip None ["main"; "ctrlmesh-proxy"] [("main", true); ("ctrlmesh-proxy", true)].
Definition demo_resource (fin : list string) (deleted : option Z) (targets : list TargetStatus) : resource :=
  mkResource "cb" "ns" 1 ∅ fin deleted (Some emptySelector) ("h2" : spec) (mkConfigStatus 1 None "h1" targets).
Definition demo_target (name ip : string) : TargetStatus := mkTarget name ip "h1" EmptyString [].
Definition demo_world (cb : resource) (c : gmap string (gset string)) : world :=
  mkWorld (Some cb) [demo_cpod "p" "10.0.0.1"] c
    ({[ "10.0.0.1" := {[ "cb" := "h1" ]} ]} : gmap string (gmap string string)) 0 0 [].

(** A deleted resource with one target the cache knows. *)
Definition demo_deleted : resource := demo_resource [ProtectFinalizer] (Some 7%Z) [demo_target "p" "10.0.0.1"].
Definition demo_cached : world := demo_world demo_deleted {[ "ns/p" := {[ "cb" ]} ]}.

Definition demo_out : bool * list error * resource * world := tryClearOrAddFinalizer demo_deleted demo_cached.
Definition demo_after : world := demo_out.2.

Lemma demo_out_eq :
  tryClearOrAddFinalizer demo_deleted demo_cached = (demo_out.1.1.1, demo_out.1.1.2, demo_out.1.2, demo_after).
Proof. unfold demo_after, demo_out. by destruct (tryClearOrAddFinalizer demo_deleted demo_cached) as [[[]]]. Qed.
Lemma demo_after_gone : bool_decide (w_obj demo_after = None) = true.
Proof. vm_compute. reflexivity. Qed.

Lemma finalizer_guards_withdrawal_witness :
  demo_out.1.1.1 = true ∧
  ∀ st, st ∈ TargetStatuses (o_Status demo_deleted) → cached demo_cached demo_deleted st →
    settled demo_cached demo_after demo_deleted st.
Proof.
  apply (finalizer_guards_withdrawal demo_deleted demo_cached _ demo_out.1.1.2 demo_out.1.2 demo_after).
  - intros n. simpl. discriminate.
  - apply NoDup_singleton.
  - reflexivity.
  - reflexivity.
  - exact demo_out_eq.
  - intros o Ho. pose proof (bool_decide_eq_true_1 _ demo_after_gone) as Hn. rewrite Ho in Hn. discriminate.
Defined.

Lemma restart_loses_withdrawal_witness :
  ∃ cb' w', tryClearOrAddFinalizer demo_deleted (demo_world demo_deleted ∅) = (true, [], cb', w') ∧
    w_proxies w' = w_proxies (demo_world demo_deleted ∅) ∧ w_rpcs w' = 0 ∧
    (∀ o, w_obj w' = Some o → ContainsFinalizer o = false).
Proof. apply (restart_loses_withdrawal demo_deleted (demo_world demo_deleted ∅)); reflexivity. Defined.

Lemma demo_addresses : addresses_current (demo_world (demo_resource [] None []) ∅) (demo_resource [] None []).
Proof.
  split_and!.
  - intros po ->%list_elem_of_singleton _. by eexists.
  - by intros po po' ->%list_elem_of_singleton ->%list_elem_of_singleton.
  - intros st po []%elem_of_nil.
Qed.

Lemma Reconcile_converges_witness :
  ∃ w' cb1, Reconcile (demo_world (demo_resource [] None []) ∅) = (mkResult defaultRequeueTime [], w') ∧
    (∃ fin, cb1 = with_finalizers fin (demo_resource [] None [])) ∧ ContainsFinalizer cb1 = true ∧
    converged (demo_world (demo_resource [] None []) ∅) w' cb1.
Proof.
  assert (Hn : ∀ n, net n = None) by reflexivity. assert (Ha : ∀ n, api_fails n = None) by reflexivity.
  apply (Reconcile_converges Hn Ha (demo_resource [] None [])
           (demo_world (demo_resource [] None []) ∅)).
  - reflexivity.
  - reflexivity.
  - reflexivity.
  - exact I.
  - intros ip p _. exact I.
  - exact demo_addresses.
Defined.

Lemma pod_update_enqueues_witness :
  request (demo_resource [] None []) ∈
    pod_Update (Some [demo_resource [] None []])
      (mkCPod "ns" "p" ∅ EmptyString None ["ctrlmesh-proxy"] []) (demo_cpod "p" "10.0.0.1").
Proof.
  apply (pod_update_enqueues [demo_resource [] None []]
    (mkCPod "ns" "p" ∅ EmptyString None ["ctrlmesh-proxy"] []) (demo_cpod "p" "10.0.0.1") (demo_resource [] None [])).
  - apply Forall_singleton. by eexists.
  - apply NoDup_singleton.
  - by left.
  - by vm_compute.
Defined.
End witness.
