(* ===== verification/ConfigKinds.v ===== *)
(** * The two configuration controllers and their proxies

    The instances of [ConfigController.Kind] for circuit breakers and for
    fault injections, with the handlers of src/pkg/proxy/grpcserver
    (throttling_handler.go, faultinject_handler.go) over the managers of
    BreakerManager.v and FaultInjection.v at the other end, and the proof that
    these proxies keep the contract the controllers rely on. *)

From S2P Require Import Prelude GoStrings GoTime Named Http BreakerTypes ConfigController Conv.
From S2P Require Import ShardingReconcile ShardServer.
From S2P Require BreakerManager FaultInjection.

(** ** Circuit breakers *)

Definition with_option (o : ConfigOption) (m : CircuitBreaker) : CircuitBreaker :=
  mkCircuitBreaker o (cb_TrafficInterceptRules m) (cb_RateLimitings m) (cb_ConfigHash m) (cb_Name m).

(** The request of [disableConfig]. *)
Definition delete_breaker (name : string) : CircuitBreaker := mkCircuitBreaker DELETE [] [] EmptyString name.

Definition breaker_kind `{MessageHashes} : Kind := {|
  spec := v1_CircuitBreakerSpec;
  message := CircuitBreaker;
  wire_snapshot := LimitingSnapshot;
  snapshot := v1_LimitingSnapshot;
  DisableKey := "circuitbreaker.ctrlmesh.kusionstack.io/disable";
  noun := "circuit breaker";
  Convert := ConvertCircuitBreaker;
  ConfigHash := cb_ConfigHash;
  as_update := with_option UPDATE;
  delete_request := delete_breaker;
  ConvertSnapshots := fmap ConvertSnapshot;
|}.

Section breaker.
Context `{MessageHashes} `{RateLimiter} `{Clock} `{Regexp} `{UrlParser} `{RangeOrder}.
#[local] Existing Instance breaker_kind.

(** [SendConfig] of the throttling handler: the server recovers a panic of
    [Sync] and answers with an error; the state after it is not modelled. *)
Definition serve_breaker (m : CircuitBreaker) (p : outcome BreakerManager.manager)
    : rpc * outcome BreakerManager.manager :=
  match p with
  | Panics => (RpcError "panic", Panics)
  | Returns mg =>
      match BreakerManager.Sync m mg with
      | Panics => (RpcError "panic", Panics)
      | Returns (resp, Some err, mg') => (RpcError err, Returns mg')
      | Returns (resp, None, mg') =>
          (RpcResponse (Some (mkResponse (Success resp) (Message resp) (LimitingSnapshots resp))), Returns mg')
      end
  end.
Definition breaker_remote : Remote := {| proxy := outcome BreakerManager.manager; serve := serve_breaker |}.

Lemma Sync_success m mg resp err mg' :
  BreakerManager.Sync m mg = Returns (resp, err, mg') → cb_Option m = UPDATE ∨ cb_Option m = DELETE →
  Success resp = true.
Proof.
  unfold BreakerManager.Sync, BreakerManager.respond. intros Hs [Ho|Ho]; rewrite Ho in Hs;
    destruct (BreakerManager.breakerMap mg !! cb_Name m); simpl in Hs.
  - case_decide; [|destruct (BreakerManager.registerRules _ _); simpl in Hs; [|done]];
      destruct (BreakerManager.snapshot _ _); by simplify_eq/=.
  - destruct (BreakerManager.registerRules _ _); simpl in Hs; [|done].
    destruct (BreakerManager.snapshot _ _); by simplify_eq/=.
  - by simplify_eq/=.
  - by simplify_eq/=.
Qed.

(** A served message leaves what the abstract map of configurations says. *)
Lemma serve_breaker_spec m mg :
  BreakerManager.manager_wf mg → BreakerManager.config_ok m → cb_Option m = UPDATE ∨ cb_Option m = DELETE →
  ∃ r mg', serve_breaker m (Returns mg) = (RpcResponse (Some r), Returns mg') ∧ r_Success r = true ∧
    BreakerManager.manager_wf mg' ∧
    BreakerManager.breakerMap mg' = BreakerManager.abs_sync m (BreakerManager.breakerMap mg).
Proof.
  intros Hwf Hok Ho. destruct (BreakerManager.Sync_spec mg m Hwf Hok) as (resp & err & mg' & Hs & Hwf' & Hb & He).
  { by destruct Ho as [->| ->]. }
  assert (err = None) as -> by (apply He; intros n; by destruct Ho as [->| ->]).
  simpl. rewrite Hs. eexists _, mg'. split_and!; [done| |done..]. simpl. by eapply Sync_success.
Qed.

Definition breaker_ok (p : outcome BreakerManager.manager) : Prop :=
  ∃ mg, p = Returns mg ∧ BreakerManager.manager_wf mg.
Definition breaker_configs (p : outcome BreakerManager.manager) : gmap string string :=
  match p with Returns mg => cb_ConfigHash <$> BreakerManager.breakerMap mg | Panics => ∅ end.

Lemma breaker_update name s p :
  breaker_ok p → breaker_valid name s →
  ∃ r, (serve_breaker (with_option UPDATE (ConvertCircuitBreaker name s)) p).1 = RpcResponse (Some r) ∧
    r_Success r = true ∧
    breaker_ok (serve_breaker (with_option UPDATE (ConvertCircuitBreaker name s)) p).2 ∧
    breaker_configs (serve_breaker (with_option UPDATE (ConvertCircuitBreaker name s)) p).2 =
      <[name := cb_ConfigHash (ConvertCircuitBreaker name s)]> (breaker_configs p).
Proof.
  intros (mg & -> & Hwf) Hv.
  destruct (serve_breaker_spec (with_option UPDATE (ConvertCircuitBreaker name s)) mg) as (r & mg' & -> & Hs & Hwf' & Hb).
  { done. } { by apply ConvertCircuitBreaker_config_ok. } { by left. }
  simpl. exists r. split_and!; [done..|by eexists|]. rewrite Hb. unfold BreakerManager.abs_sync. simpl.
  destruct (BreakerManager.breakerMap mg !! name) as [cb|] eqn:Hcb; [case_decide as Hh|];
    rewrite ?fmap_insert; [|done..].
  symmetry. apply insert_id. rewrite lookup_fmap, Hcb. simpl. by rewrite Hh.
Qed.

Lemma breaker_delete name s p :
  breaker_ok p → breaker_valid name s →
  ∃ r, (serve_breaker (delete_breaker name) p).1 = RpcResponse (Some r) ∧ r_Success r = true ∧
    breaker_ok (serve_breaker (delete_breaker name) p).2 ∧
    breaker_configs (serve_breaker (delete_breaker name) p).2 = delete name (breaker_configs p).
Proof.
  intros (mg & -> & Hwf) (Hn & _).
  destruct (serve_breaker_spec (delete_breaker name) mg) as (r & mg' & -> & Hs & Hwf' & Hb).
  { done. } { split_and!; [done|apply NoDup_nil; done..|apply Forall_nil; done]. } { by right. }
  simpl. exists r. split_and!; [done..|by eexists|]. rewrite Hb. unfold BreakerManager.abs_sync. simpl.
  by rewrite fmap_delete.
Qed.

Definition breaker_laws : @RemoteLaws _ breaker_remote := {|
  proxy_ok := breaker_ok : @proxy _ breaker_remote → Prop;
  configs := breaker_configs : @proxy _ breaker_remote → gmap string string;
  valid := breaker_valid;
  serve_update := breaker_update;
  serve_delete := breaker_delete;
|}.

(** C1. End to end: without faults, one reconcile of a valid circuit breaker
    brings its configuration to the proxies.  The manager of every selected
    pod with an available proxy is well-formed afterwards and holds, under the
    name of the circuit breaker, a configuration with the resource's hash. *)
Theorem breaker_reaches_proxies `{Network} `{ApiServer} `{AsSelector} cb (w : @world breaker_kind breaker_remote) :
  (∀ n, net n = None) → (∀ n, api_fails n = None) →
  w_obj w = Some cb → disabledByLabel cb = false → o_DeletionTimestamp cb = None →
  breaker_valid (o_Name cb) (o_Spec cb) →
  (∀ ip p, w_proxies w !! ip = Some p → breaker_ok p) → addresses_current w cb →
  ∃ w', Reconcile w = (mkResult defaultRequeueTime [], w') ∧
    ∀ po, po ∈ w_pods w → selected (o_Namespace cb) (LabelSelectorAsSelector (o_Selector cb)) po = true →
      pushed po = true →
      ∃ mg c, w_proxies w' !! cp_PodIP po = Some (Returns mg) ∧ BreakerManager.manager_wf mg ∧
        BreakerManager.breakerMap mg !! o_Name cb = Some c ∧
        cb_ConfigHash c = cb_ConfigHash (ConvertCircuitBreaker (o_Name cb) (o_Spec cb)).
Proof.
  intros Hnet Hapi Ho Hd Hdel Hv Hok Hadd.
  destruct (@Reconcile_reaches _ _ breaker_laws _ _ _ Hnet Hapi cb w Ho Hd Hdel Hv Hok Hadd)
    as (w' & cb1 & Hr & (fin & ->) & _ & Hok' & Hpush & _).
  exists w'. split; [exact Hr|]. intros po Hin Hsel Hpo.
  specialize (Hpush po (proj2 (list_elem_of_filter _ _ _) (conj Hsel Hin)) Hpo).
  apply fmap_Some in Hpush as (p & Hp & Hc). destruct (Hok' _ _ Hp) as (mg & -> & Hwf).
  symmetry in Hc.
  change ((cb_ConfigHash <$> BreakerManager.breakerMap mg) !! o_Name cb =
    Some (cb_ConfigHash (ConvertCircuitBreaker (o_Name cb) (o_Spec cb)))) in Hc.
  apply lookup_fmap_Some in Hc as (c & Hh & Hc). by exists mg, c.
Qed.
End breaker.

(** ** Fault injections *)

Import FaultInjection.

Definition with_foption (o : FaultOption) (m : FaultInjection) : FaultInjection :=
  mkFaultInjection (HttpFaultInjections m) o (f_ConfigHash m) (f_Name m).
Definition delete_faults (name : string) : FaultInjection := mkFaultInjection [] FI_DELETE EmptyString name.

(** The targets of a fault injection have no snapshots. *)
Definition fault_kind `{MessageHashes} : Kind := {|
  spec := v1_FaultInjectionSpec;
  message := FaultInjection;
  wire_snapshot := Empty_set;
  snapshot := Empty_set;
  DisableKey := "faultinjection.ctrlmesh.kusionstack.io/disable";
  noun := "fault injection";
  Convert := ConvertFaultInjection;
  ConfigHash := f_ConfigHash;
  as_update := with_foption FI_UPDATE;
  delete_request := delete_faults;
  ConvertSnapshots := id;
|}.

Section faults.
Context `{MessageHashes} `{Regexp} `{RangeOrder}.
#[local] Existing Instance fault_kind.

Definition serve_faults (m : FaultInjection) (p : outcome fmanager) : rpc * outcome fmanager :=
  match p with
  | Panics => (RpcError "panic", Panics)
  | Returns mg =>
      match Sync m mg with
      | Panics => (RpcError "panic", Panics)
      | Returns (resp, Some err, mg') => (RpcError err, Returns mg')
      | Returns (resp, None, mg') =>
          (RpcResponse (Some (mkResponse (fr_Success resp) (fr_Message resp) [])), Returns mg')
      end
  end.
Definition fault_remote : Remote := {| proxy := outcome fmanager; serve := serve_faults |}.

(** Every rule converts and has a match, and the rules have distinct names. *)
Definition faults_valid (name : string) (fi : v1_FaultInjectionSpec) : Prop :=
  colon_free name = true ∧ NoDup (v1_fName <$> v1_HTTPFaultInjections fi) ∧
  Forall (λ r, is_Some (ConvertHTTPFaultInjection r) ∧ is_Some (v1_fMatch r)) (v1_HTTPFaultInjections fi).

Lemma converted_name r fi : ConvertHTTPFaultInjection r = Some fi → fi_Name fi = v1_fName r.
Proof.
  unfold ConvertHTTPFaultInjection. destruct (convertPart convertDelay _); [|done]. simpl.
  destruct (convertPart convertAbort _); [|done]. simpl. by intros [= <-].
Qed.
Lemma converted_match r fi : ConvertHTTPFaultInjection r = Some fi → fi_Match fi = ConvertMatch <$> v1_fMatch r.
Proof.
  unfold ConvertHTTPFaultInjection. destruct (convertPart convertDelay _); [|done]. simpl.
  destruct (convertPart convertAbort _); [|done]. simpl. by intros [= <-].
Qed.

Lemma ConvertFaultInjection_ok name fi : faults_valid name fi → fconfig_ok (ConvertFaultInjection name fi).
Proof.
  intros (Hn & Hnd & Hall). unfold fconfig_ok. simpl. unfold on_the_wire. split_and!; [done| |].
  - replace (fi_Name <$> _) with (v1_fName <$> v1_HTTPFaultInjections fi); [done|].
    clear Hnd. induction Hall as [|r l [[x Hx] _] _ IH]; [done|]. cbn. f_equal; [|exact IH].
    rewrite Hx. simpl. symmetry. by apply converted_name.
  - rewrite !Forall_fmap. eapply Forall_impl; [exact Hall|]. intros r [[x Hx] Hm]. simpl.
    rewrite Hx. simpl. rewrite (converted_match _ _ Hx). by apply fmap_is_Some.
Qed.

Lemma fSync_success m mg resp err mg' :
  Sync m mg = Returns (resp, err, mg') → f_Option m = FI_UPDATE ∨ f_Option m = FI_DELETE → fr_Success resp = true.
Proof.
  unfold Sync. intros Hs [Ho|Ho]; rewrite Ho in Hs; destruct (faultInjectionMap mg !! f_Name m); simpl in Hs.
  - case_decide; [by simplify_eq/=|]. destruct (registerRules _ _); by simplify_eq/=.
  - destruct (registerRules _ _); by simplify_eq/=.
  - by simplify_eq/=.
  - by simplify_eq/=.
Qed.

Lemma serve_faults_spec m mg :
  fmanager_wf mg → fconfig_ok m → f_Option m = FI_UPDATE ∨ f_Option m = FI_DELETE →
  ∃ r mg', serve_faults m (Returns mg) = (RpcResponse (Some r), Returns mg') ∧ r_Success r = true ∧
    fmanager_wf mg' ∧ faultInjectionMap mg' = abs_fsync m (faultInjectionMap mg).
Proof.
  intros Hwf Hok Ho. pose proof (fault_Sync_spec mg m Hwf Hok) as Hspec. simpl.
  destruct (Sync m mg) as [[[resp err] mg']|] eqn:Hs.
  2:{ destruct Hspec as [Hc _]. rewrite Hc in Ho. by destruct Ho. }
  destruct Hspec as (Hwf' & Hb & He). assert (err = None) as -> by (apply He; tauto).
  eexists _, mg'. split_and!; [done| |done..]. simpl. by eapply fSync_success.
Qed.

Definition faults_ok (p : outcome fmanager) : Prop := ∃ mg, p = Returns mg ∧ fmanager_wf mg.
Definition faults_configs (p : outcome fmanager) : gmap string string :=
  match p with Returns mg => f_ConfigHash <$> faultInjectionMap mg | Panics => ∅ end.

Lemma faults_update name s p :
  faults_ok p → faults_valid name s →
  ∃ r, (serve_faults (with_foption FI_UPDATE (ConvertFaultInjection name s)) p).1 = RpcResponse (Some r) ∧
    r_Success r = true ∧
    faults_ok (serve_faults (with_foption FI_UPDATE (ConvertFaultInjection name s)) p).2 ∧
    faults_configs (serve_faults (with_foption FI_UPDATE (ConvertFaultInjection name s)) p).2 =
      <[name := f_ConfigHash (ConvertFaultInjection name s)]> (faults_configs p).
Proof.
  intros (mg & -> & Hwf) Hv.
  destruct (serve_faults_spec (with_foption FI_UPDATE (ConvertFaultInjection name s)) mg) as (r & mg' & -> & Hs & Hwf' & Hb).
  { done. } { by apply ConvertFaultInjection_ok. } { by left. }
  simpl. exists r. split_and!; [done..|by eexists|]. rewrite Hb. unfold abs_fsync. simpl.
  destruct (faultInjectionMap mg !! name) as [cb|] eqn:Hcb; [case_decide as Hh|];
    rewrite ?fmap_insert; [|done..].
  symmetry. apply insert_id. rewrite lookup_fmap, Hcb. simpl. by rewrite Hh.
Qed.

Lemma faults_delete name s p :
  faults_ok p → faults_valid name s →
  ∃ r, (serve_faults (delete_faults name) p).1 = RpcResponse (Some r) ∧ r_Success r = true ∧
    faults_ok (serve_faults (delete_faults name) p).2 ∧
    faults_configs (serve_faults (delete_faults name) p).2 = delete name (faults_configs p).
Proof.
  intros (mg & -> & Hwf) (Hn & _).
  destruct (serve_faults_spec (delete_faults name) mg) as (r & mg' & -> & Hs & Hwf' & Hb).
  { done. } { split_and!; [done|apply NoDup_nil; done|apply Forall_nil; done]. } { by right. }
  simpl. exists r. split_and!; [done..|by eexists|]. rewrite Hb. unfold abs_fsync. simpl.
  by rewrite fmap_delete.
Qed.

Definition fault_laws : @RemoteLaws _ fault_remote := {|
  proxy_ok := faults_ok : @proxy _ fault_remote → Prop;
  configs := faults_configs : @proxy _ fault_remote → gmap string string;
  valid := faults_valid;
  serve_update := faults_update;
  serve_delete := faults_delete;
|}.
End faults.

(** ** The two controllers *)

Section controllers.
Context `{MessageHashes} `{RateLimiter} `{Clock} `{Regexp} `{UrlParser} `{RangeOrder}.
Context `{Network} `{ApiServer} `{AsSelector}.

(** circuitbreaker_controller.go *)
Definition breaker_world : Type := @world breaker_kind breaker_remote.
Definition breaker_Reconcile : breaker_world → ctrl_result * breaker_world := @Reconcile breaker_kind breaker_remote _ _ _.

(** faultinject_controller.go, with its event_handler.go, filter.go and
    cache.go. *)
Definition fault_world : Type := @world fault_kind fault_remote.
Definition fault_Reconcile : fault_world → ctrl_result * fault_world := @Reconcile fault_kind fault_remote _ _ _.
Definition fault_syncPodConfig (name : string) (fi : FaultInjection) (podIp : string) (w : fault_world) :=
  @syncPodConfig fault_kind fault_remote _ name fi podIp w.
Definition fault_disableConfig (podIp name : string) (w : fault_world) : option string * fault_world :=
  @disableConfig fault_kind fault_remote _ podIp name w.
Definition fault_clear (fi : @resource fault_kind) (w : fault_world) : list error * fault_world :=
  @clearConfig fault_kind fault_remote _ _ fi w.
Definition fault_tryClearOrAddFinalizer (fi : @resource fault_kind) (w : fault_world) :=
  @tryClearOrAddFinalizer fault_kind fault_remote _ _ fi w.
Definition fault_currentPodStatus : @resource fault_kind → string → option (@TargetStatus fault_kind) :=
  @currentPodStatus fault_kind.
Definition effectiveFaults : list (@resource fault_kind) → CPod → option (list (@resource fault_kind)) :=
  @ConfigController.effective fault_kind _.
Definition matchChangedFaults : list (@resource fault_kind) → CPod → CPod → option (list (@resource fault_kind)) :=
  @matchChanged fault_kind _.
Definition fault_pod_Create : option (list (@resource fault_kind)) → CPod → list (string * string) :=
  @pod_Create fault_kind _.
Definition fault_pod_Update : option (list (@resource fault_kind)) → CPod → CPod → list (string * string) :=
  @pod_Update fault_kind _.
Definition fault_predicate_Update : @resource fault_kind → @resource fault_kind → bool :=
  @predicate_Update fault_kind.
End controllers.

(** ** A concrete run *)

Section witness.
#[local] Existing Instances demo_message_hashes token_limiter tick_clock literal_regexp order_fwd
  BreakerManager.path_parser no_fault_api everything no_network_faults.
#[local] Existing Instance breaker_kind.
#[local] Existing Instance breaker_remote.

Definition demo_breaker_spec : v1_CircuitBreakerSpec :=
  mkV1CircuitBreakerSpec
    [mkV1Limiting "slow" [mkV1ResourceRule ["*"] ["pods"] ["delete"] ["*"]] [] (mkV1Bucket 1 "1m" 1) "LimiterOnly" None ∅]
    [mkV1TrafficInterceptRule "white" "Whitelist" "Normal" ["a.b"] ["GET"]].
Definition demo_breaker : resource :=
  mkResource "cb" "ns" 1 ∅ [] None (Some Selector.emptySelector) (demo_breaker_spec : spec) (mkConfigStatus 0 None EmptyString []).
Definition demo_breaker_world : world :=
  mkWorld (Some demo_breaker) [demo_cpod "p" "10.0.0.1"] ∅
    ({[ "10.0.0.1" := Returns BreakerManager.NewManager ]} : gmap string (outcome BreakerManager.manager)) 0 0 [].

Lemma breaker_reaches_proxies_witness :
  ∃ w', Reconcile demo_breaker_world = (mkResult defaultRequeueTime [], w') ∧
    ∀ po, po ∈ w_pods demo_breaker_world →
      selected "ns" (LabelSelectorAsSelector (Some Selector.emptySelector)) po = true → pushed po = true →
      ∃ mg c, w_proxies w' !! cp_PodIP po = Some (Returns mg) ∧ BreakerManager.manager_wf mg ∧
        BreakerManager.breakerMap mg !! "cb" = Some c ∧
        cb_ConfigHash c = cb_ConfigHash (ConvertCircuitBreaker "cb" demo_breaker_spec).
Proof.
  apply (breaker_reaches_proxies demo_breaker demo_breaker_world).
  - reflexivity.
  - reflexivity.
  - reflexivity.
  - reflexivity.
  - reflexivity.
  - split_and!; [reflexivity|apply NoDup_singleton|apply NoDup_singleton|apply Forall_singleton; left; by left].
  - intros ip p Hp.
    change (({[ "10.0.0.1" := Returns BreakerManager.NewManager ]} : gmap string (outcome BreakerManager.manager))
              !! ip = Some p) in Hp.
    apply lookup_singleton_Some in Hp as [_ <-].
    exists BreakerManager.NewManager. split; [reflexivity|apply BreakerManager.NewManager_wf].
  - split_and!.
    + intros po ->%list_elem_of_singleton _. by eexists.
    + by intros po po' ->%list_elem_of_singleton ->%list_elem_of_singleton.
    + intros st po []%elem_of_nil.
Defined.
End witness.
